(* ===== verification/_CoqProject ===== *)
-Q . S2P
Prelude.v
Programs.v
Identity.v
Reservation.v
EventStore.v
Snapshots.v
Facade.v
Lifecycle.v
Mailbox.v
Registry.v
Effect.v
Actor.v
ActorProps.v
Session.v
EffectStore.v
Queue.v
RetryPolicy.v
Acceptor.v
Runner.v
Delivery.v
ReadSide.v
Projection.v
ActivationScheduler.v
AdvisoryScheduler.v
Fingerprint.v
Security.v
Trace.v
Tenancy.v
Dispatch.v
Idempotency.v
ClaimSet.v
Jwt.v
Der.v
Jwks.v
Introspection.v
Oidc.v
ApiKey.v
Retention.v
Health.v
ServiceRegistry.v
Sql.v
Drivers.v
SqlReservation.v
SqlReadSide.v
SqlEffects.v
SqlEvents.v
Providers.v
Composition.v
Application.v
RuntimeLifecycle.v
SqlRows.v
Layers.v
Backfill.v
Executions.v
EntityRuntime.v
ServiceMacro.v
Transport.v
Drain.v
Telemetry.v
RetentionWorkers.v
