(* ===== verification/Prelude.v ===== *)
(** * ego-rs: a verification of the backend framework's core

    ego-rs is a Rust framework for event-sourced services.  A client command
    reaches an entity through a routing registry and a bounded mailbox; one actor
    task per live entity recovers the entity's state, executes its commands one
    at a time, persists the resulting events together with a receipt of the
    operation, and hands the external effects the command describes to a delivery
    runtime that executes them with retries.  A reservation store lets a service
    claim a whole business operation before it starts: the dispatch the service
    macro generates authenticates and authorizes the caller, resolves its tenant,
    reserves the operation, runs it and stores the response.  Projections read the
    events back, and two schedulers watch the entities.  The stores exist in memory
    and over a database, in Stoolap and Postgres dialects.  A builder composes all of
    it into a runtime, and a macro writes the dispatch of a service.  This development
    translates that core into Rocq functions and step relations and proves what
    makes it correct.  Paths below are relative to src/crates.

    ** Files, components and sources

    - [Prelude]: results, machine integers, UTF-8 white space, hash-map
      iteration orders, byte strings, the hint databases and tactics.
    - [Identity] (persistence-api: context.rs, operation/key.rs,
      operation/receipt.rs, persistence/error.rs, persistence/tenant.rs,
      persistence/stored_event.rs): validated identifiers, operation keys,
      receipts, tenant scopes.
    - [Reservation] (persistence-api and persistence-memory,
      operation/reservation.rs): the fenced lease protocol of whole operations,
      [reserve], [renew], [complete], [abandon], [purge_completed_before],
      [oldest_completed]; [cell_step] is the state machine the port documents.
    - [EventStore] (persistence-memory, persistence/event_store.rs;
      persistent-entity, persistence.rs): both in-memory event stores, their
      units of work and receipts.  The class [EventStoreOps] with
      [EventStoreLaws] is the interface the facade and the actor are verified
      against; both stores are instances.
    - [Snapshots] (persistence-memory, persistence/snapshot.rs and repository.rs;
      persistent-entity, persistence.rs): snapshot stores behind [SnapshotOps] and
      [SnapshotLaws], and the repository.
    - [Facade] (persistent-entity, persistence.rs): [PersistenceFacade] over any
      pair of stores, and the discarding stores.
    - [Lifecycle] (persistent-entity: lifecycle.rs, scheduler.rs, error.rs,
      command_context.rs, snapshot.rs).
    - [Mailbox] (persistent-entity, mailbox.rs): the bounded queue as interleaved
      atomic steps of senders, receivers and closers, with both notifiers.
    - [Registry] (persistent-entity: registry.rs, entity_ref_tokio.rs): routing
      with one live activation per entity, epochs and the teardown guard.
    - [Effect] (domain, effect.rs; persistent-entity, effect_acceptor.rs).
    - [Actor], [ActorProps] (persistent-entity, actor.rs): recovery, the command
      path with its receipt gate, and passivation, as functions on the actor's
      fields, the stores and a trace of everything else it does.
    - [Session] (persistent-entity: actor.rs, entity_ref_tokio.rs): the whole
      actor task over its mailbox, from spawn to the teardown guard, panics and
      cancellation included.
    - [EffectStore] (runtime, effects/store.rs): delivery states and effect
      reservations.
    - [RetryPolicy] (runtime, effects/policy.rs and registry.rs).
    - [Programs]: asynchronous methods as trees of commands to their ports, and a
      small program logic over them.
    - [Runner] (runtime, effects/runner.rs and executor.rs): one dispatch as a
      program over the ports; its rules are a monitor ([allowed], [observe]) and
      [wp] says that every run of a program obeys them.
    - [Queue] (runtime, effects/queue.rs): the bounded queue between acceptors and
      the runner.
    - [Acceptor] (runtime, effects/acceptor.rs): the admission gate, the acceptance
      of a batch, the shutdown sequence.
    - [Delivery] (runtime, effects/runner.rs): the drain loop, the reclaim loop
      and any number of dispatch tasks interleaved over the store, with failing
      calls, aborted tasks and restarts.
    - [ReadSide] (domain and runtime, read_side): tags, offsets, the in-memory
      stores and a projection session as a program over its ports; [Projection]:
      the tag scheduler, its poll loop, and any number of sessions over shared
      stores.
    - [ActivationScheduler] (persistent-entity: scheduler.rs, scheduler_event.rs,
      scheduler_policy.rs) and [AdvisoryScheduler] (ego-scheduler): the sequenced
      buses, the states with their replay buffers and gap counts, the policies.
    - [Fingerprint] (service-sdk, runtime/idempotency.rs): the canonical bytes of a
      request and the codec of a stored response.
    - [Security] (security-sdk; domain, auth): principals, access requests,
      role-based access, credential extraction.
    - [Trace] (domain, tracer.rs): identifiers and the traceparent header.
    - [Tenancy] (service-sdk: context, runtime/tenant.rs, runtime/permit.rs).
    - [Dispatch] (service-sdk-macros; service-sdk, runtime/runtime_builder.rs,
      runtime/idempotency.rs, idempotency/extraction.rs, interceptor/chain.rs): one
      dispatch as a program; [Idempotency]: any number of dispatches over one
      reservation store, with crashes and expiring leases.
    - [ClaimSet] (domain, auth/claim_set.rs; security-jwt, principal_mapper.rs),
      [Jwt] (security-jwt: config.rs, key_resolver.rs, validation.rs,
      authenticator.rs), [Der] and [Jwks] (jwks.rs), [Introspection]
      (oidc_config.rs, introspection.rs), [Oidc] (discovery.rs, oidc_provider.rs,
      multi_issuer.rs): the token providers.  A key resolver is a function; [Jwks]
      shows what its cache promises under interleaving.
    - [ApiKey] (security-apikey).
    - [Retention], [RetentionWorkers] (service-sdk, runtime/retention.rs and
      effect_retention.rs): the policies and a tick; the loops with their notifier, their
      stop and what they report.
    - [Health] (domain, health; service-sdk, health) and [ServiceRegistry]
      (service-sdk: contract/version.rs, registry/registry.rs).
    - [Sql]: tables, single conditional statements and programs over them; [Drivers]
      (persistence, persistence-stoolap, effect-store): errors, tenants and data source
      names.
    - [SqlReservation], [SqlReadSide], [SqlEffects], [SqlEvents], [SqlRows]
      (persistence-stoolap and persistence, postgres; effect-store): the durable
      reservation, claim, offset, dedup, effect, event, repository and snapshot stores of
      both dialects, each method a program of statements, any number interleaved.
    - [Backfill] (persistence, postgres/aggregate_type_backfill.rs and migrations.rs):
      the offline migration of an event table, its inverse, and the runner of migrations.
    - [Providers] (runtime, providers): the registry of data providers and a fetch with
      its timeout and retries.
    - [Executions] (runtime, runtime/; runtime-tokio): the two execution runtimes.
    - [Drain] (runtime, effects/runner.rs and acceptor.rs, read_side/backpressure.rs): the
      construction of the delivery runtime, its permits and tasks, the bounded drain.
    - [EntityRuntime] (persistent-entity: builder.rs, runtime.rs, entity_ref_tokio.rs;
      the config.rs files): the builder and the references over shared registries.
    - [Composition], [Application], [RuntimeLifecycle] (service-sdk: runtime/builder.rs,
      runtime/runtime_builder.rs, runtime/logger.rs, app): every setter and check of the
      runtime builder, the application builder with its registrations, and starts, hooks
      and shutdowns as interleaved calls.
    - [ServiceMacro] (service-sdk-macros: lib.rs, authorize.rs): what [#[service]] makes
      of a trait or a struct.
    - [Transport] (transport; service-sdk, error): errors as HTTP responses, and the
      extractors.
    - [Telemetry] (domain: tracer.rs, observability.rs; infrastructure: tracing_otlp.rs,
      metrics_otlp.rs): the span guard, the span table and the instrument cache.
    - [Layers] (the repository's xtask): the layering gate and its cycle search.

    Data flows as the code's calls do.  [Transport] and [ServiceMacro] end in the dispatch
    of [Dispatch], which uses the port of [Reservation] that [SqlReservation] implements;
    [Actor] uses the port of [EventStore], that of [Snapshots] and [Effect]; [Acceptor]
    feeds [Queue], [Delivery] drains it and [Drain] stops it; [RuntimeLifecycle] starts
    what [Composition] built.

    ** How the code is rendered

    A method of a struct behind one lock is a function from the struct's value to
    a result and the new value; an asynchronous component is a step relation
    whose steps are its critical sections.  [Result] is [result]; integers are
    [Z] with their width written out where it matters; strings are lists of
    bytes; [HashMap] is [gmap], and an operation that iterates over one takes the
    iteration order as an argument.  SHA-256, Base64, serde, [jsonwebtoken],
    [semver], the range of [chrono], the domain handler, the publisher, the HTTP
    endpoints, the clock and the floating-point jitter are arguments of the
    definitions that use them.  A call that panics is [None] or [Panicked].
    Logging and metrics are left out, except the receipt counter, which is part
    of the actor's trace, and what the retention workers report.

    A database is known by what its documentation promises: a statement is atomic, one
    that fails changed nothing, and a commit whose answer is lost may have taken effect.
    What a transaction sees, and when its rows are published, is said at the head of
    [SqlEvents], [SqlRows] and [Backfill].  Which errors a driver reports, and when, is
    open everywhere.

    ** What the theorems show

    - Reservations: the store refines the port's state machine; a takeover fences
      out the displaced owner, a live lease excludes others, a completed operation
      is replayed, a purge removes only what it may; and an abandoned record
      restarts its tokens.
    - Stores: optimistic concurrency, atomic units of work equal to direct appends
      but for an empty stream a refused append leaves, receipts visible exactly with
      their events, exact listing; and overlapping
      units that both commit.
    - Actor: exactly one reply per command, a recorded operation never runs again,
      the actor's memory equals its persisted stream, a success leaves its receipt
      in the one commit of its events, recovery rebuilds the history; and a snapshot that no longer decodes.
    - Concurrency: the mailbox is a linearizable bounded queue with no lost
      wake-up, one live activation per entity whose mailbox every caller is given, every
      accepted command accounted for: answered, queued, or in execution.
    - Effects: delivery states follow their diagram, a dispatch obeys the protocol
      and settles its effect, success is never recorded without a delivery, no two
      executions of one scope overlap, a batch is accepted as a prefix, shutdown
      waits for what it admitted; and a reservation outage that strands a scope.
    - Dispatch: every dispatch obeys its protocol, an answer is always what a
      handler returned for that request, a completed operation never runs again,
      executions overlap only after a lease expired, retries are answered alike for
      as long as the retention window; and a veto of an interceptor that is ignored.
    - Read side: a projection never skips an event and drains its stream in order
      exactly once; and a lost offset write that stalls it.
    - Schedulers: states are exact accounts of their streams; gaps are losses, or
      artefacts of a race or of batching.
    - Access: grants decide authorization exactly, tenants cannot be borrowed, the
      token, OIDC, introspection and API key providers accept exactly, or only,
      what their configuration says; keys are fetched at a bounded rate and never
      mixed up, cached contexts are recent; and an audience that is optional, an
      eviction queue that leaks, expiries and retentions that panic.
    - Codecs: fingerprints, stored responses, public keys, trace headers and
      versions survive their round trips.
    - Health and registry: a report loses no contributor, a resolution is the
      highest matching version, a merge keeps both sides.
    - Durable stores: under every interleaving of calls a reservation takes the steps of
      the port's state machine, except that a takeover may find another request's
      fingerprint, a claim is fenced, a stream never forks and an append is a
      compare-and-append, a save is a compare-and-set, deliveries follow their diagram
      until a retention removes them and leases exclude; the backfill can be undone row
      by row; and a stale retention that removes an effect accepted again.
    - Composition: an application that builds had no offending call and runs on what its
      calls set, the first error wins, hooks run once and in order, loggers are shut down
      last first; a reference reaches one actor, that of its own tenant, type and
      identifier; a guard the service macro accepts is enforced.
    - Stopping: a clean drain leaves no tracked dispatch and no attempt of one, every
      drain can finish, a retention worker misses no stop; and a forced drain that leaks
      an attempt.
    - Telemetry: every started span is exported once, refused, live or lost to a race, an
      instrument is built once; and a layering gate whose cycle search is exact.

    ** Bounds and fuel

    Recursion is structural except in a few places.  [Runner.reserve_loop],
    [Acceptor.accept_loop] and the fetch of [Providers] have one more unit of fuel than
    the retries their policy allows; [Runner.reserve_fuel_enough] and
    [Acceptor.accept_fuel_enough] show that more fuel changes nothing.  Tarjan's
    algorithm in [Layers] has one more than the graph has nodes, and
    [Layers.Cycles.find_cycles_exact] shows that it returns.  Step relations are
    unbounded: any number of tasks, clients and steps.  [Delivery] assumes of a store
    call that fails that it had no effect; a durable store whose answer is lost is
    outside that theorem.

    ** Not modelled

    Test support (the testkit and conformance crates, test doubles) and the reference
    application, which are no part of the framework.  The text of SQL scripts, the opening
    of databases and the building of exporters, HTTP clients and Tokio runtimes, which are
    calls into third-party code.  Serving a router.  The tokens the service macro writes
    beyond the guards, dependencies and descriptors that decide what they do.  Tracing
    spans, log lines and metrics at their call sites, which change no result.  Formatting
    for debugging. *)

From Stdlib Require Export Ascii Strings.Byte Strings.String.
From stdpp Require Export base tactics numbers list gmap strings sorting relations.

(** ** Automation

    [ego] holds the facts the components share about maps, iteration orders and
    runs; each component adds its own.  [ego_maps] reads a map just written. *)
Create HintDb ego.
Create Rewrite HintDb ego_maps.
#[export] Hint Rewrite @lookup_empty @lookup_insert_eq @lookup_delete_eq @lookup_fmap
  : ego_maps.
#[export] Hint Resolve rtc_refl map_Forall_empty : ego.

(** [read_maps]: what the maps just written hold at the keys just written. *)
Ltac read_maps := autorewrite with ego_maps in *; simplify_eq; try done.

(** A hypothesis about a map with one entry written, or removed: is it that one? *)
Ltac insert_cases H :=
  apply lookup_insert_Some in H as [[? ?]|[? H]]; simplify_eq.
Ltac delete_cases H := apply lookup_delete_Some in H as [? H].

(** ** Results

    [result E A] is Rust's [Result<A, E>].  It is a monad in the sense of
    stdpp, so the [?] operator is written [x ← e; k]. *)
Inductive result (E A : Type) : Type :=
| Ok (a : A)
| Err (e : E).
Arguments Ok {E A} a.
Arguments Err {E A} e.

#[export] Instance result_ret {E} : MRet (result E) := λ A a, Ok a.

#[export] Instance result_bind {E} : MBind (result E) := λ A B f r,
  match r with Ok a => f a | Err e => Err e end.

#[export] Instance result_fmap {E} : FMap (result E) := λ A B f r,
  match r with Ok a => Ok (f a) | Err e => Err e end.

#[export] Instance result_eq_dec {E A} `{EqDecision E, EqDecision A} :
  EqDecision (result E A).
Proof. solve_decision. Defined.

(** Abstracts the error values of a goal, whose texts only slow automation down. *)
Ltac forget_errors :=
  repeat match goal with
    |- context [@Err _ _ ?e] => tryif is_var e then fail else (generalize e; intro)
  end.

Definition map_err {E F A} (f : E → F) (r : result E A) : result F A :=
  match r with Ok a => Ok a | Err e => Err (f e) end.

Definition ok_or {E A} (e : E) (o : option A) : result E A :=
  match o with Some a => Ok a | None => Err e end.

(** A computation succeeds exactly when each of its steps does. *)
Lemma bind_Ok {E A B} (r : result E A) (k : A → result E B) (b : B) :
  (r ≫= k) = Ok b ↔ ∃ a, r = Ok a ∧ k a = Ok b.
Proof. destruct r; split; [by eauto|by intros (? & [= <-] & ?)|done|by intros (? & [=] & ?)]. Qed.

Lemma map_err_Ok {E F A} (f : E → F) (r : result E A) (a : A) : map_err f r = Ok a ↔ r = Ok a.
Proof. by destruct r; simpl; split; intros [=]; subst. Qed.

Lemma ok_or_Ok {E A} (e : E) (o : option A) (a : A) : ok_or e o = Ok a ↔ o = Some a.
Proof. by destruct o; simpl; split; intros [=]; subst. Qed.

Definition is_ok {E A} (r : result E A) : bool :=
  match r with Ok _ => true | Err _ => false end.

(** ** Machine integers

    Integers are kept in [Z] with their width written out. *)
Definition u64_max : Z := 18446744073709551615.
Definition u32_max : Z := 4294967295.
Definition i64_max : Z := 9223372036854775807.

(** [u64::checked_add(1)]: [None] instead of wrapping. *)
Definition u64_checked_succ (n : Z) : option Z :=
  if decide (n < u64_max)%Z then Some (n + 1)%Z else None.

(** [x as i64] and [x as u64]: two's complement reinterpretation. *)
Definition as_i64 (n : Z) : Z := ((n + 2 ^ 63) mod 2 ^ 64 - 2 ^ 63)%Z.
Definition as_u64 (n : Z) : Z := (n mod 2 ^ 64)%Z.

(** [AtomicU64::fetch_add(1)] and the like wrap around. *)
Definition u64_wrapping_succ (n : Z) : Z := ((n + 1) mod 2 ^ 64)%Z.

Lemma as_i64_small (n : Z) : (0 ≤ n ≤ i64_max)%Z → as_i64 n = n.
Proof.
  unfold as_i64, i64_max. intros ?. rewrite Z.mod_small; lia.
Qed.

Lemma as_u64_small (n : Z) : (0 ≤ n ≤ u64_max)%Z → as_u64 n = n.
Proof. unfold as_u64, u64_max. intros ?. rewrite Z.mod_small; lia. Qed.

Lemma u64_checked_succ_Some (n m : Z) :
  u64_checked_succ n = Some m → (m = n + 1 ∧ n < u64_max)%Z.
Proof. unfold u64_checked_succ. case_decide; naive_solver. Qed.

(** ** Strings

    A Rust [String] is the list of its UTF-8 bytes.  [is_blank s] is
    [s.trim().is_empty()]: [str::trim] strips the code points with the Unicode
    property White_Space, each recognised here by its UTF-8 encoding. *)
Definition byte_in (lo hi : N) (c : ascii) : bool :=
  bool_decide (lo ≤ N_of_ascii c ∧ N_of_ascii c ≤ hi)%N.

Definition is_byte (n : N) (c : ascii) : bool := byte_in n n c.

(** One-byte white space: U+0009..U+000D and U+0020. *)
Definition ws1 (a : ascii) : bool := byte_in 9 13 a || is_byte 32 a.

(** Two-byte white space: U+0085 and U+00A0. *)
Definition ws2 (a b : ascii) : bool :=
  is_byte 0xC2 a && (is_byte 0x85 b || is_byte 0xA0 b).

(** [s.bytes().all(f)] *)
Fixpoint all_bytes (f : ascii → bool) (s : string) : bool :=
  match s with EmptyString => true | String a rest => f a && all_bytes f rest end.

(** Three-byte white space: U+1680, U+2000..U+200A, U+2028, U+2029, U+202F,
    U+205F and U+3000. *)
Definition ws3 (a b c : ascii) : bool :=
  (is_byte 0xE1 a && is_byte 0x9A b && is_byte 0x80 c)
  || (is_byte 0xE2 a && is_byte 0x80 b
      && (byte_in 0x80 0x8A c || byte_in 0xA8 0xA9 c || is_byte 0xAF c))
  || (is_byte 0xE2 a && is_byte 0x81 b && is_byte 0x9F c)
  || (is_byte 0xE3 a && is_byte 0x80 b && is_byte 0x80 c).

Fixpoint is_blank (s : string) : bool :=
  match s with
  | EmptyString => true
  | String a s1 =>
      if ws1 a then is_blank s1 else
      match s1 with
      | EmptyString => false
      | String b s2 =>
          if ws2 a b then is_blank s2 else
          match s2 with
          | EmptyString => false
          | String c s3 => if ws3 a b c then is_blank s3 else false
          end
      end
  end.

(** [str::trim_start] and [str::trim_end].  Walking byte by byte from the left finds
    the same trailing white space, since a continuation byte never starts one. *)
Fixpoint trim_start (s : string) : string :=
  match s with
  | EmptyString => ""
  | String a s1 =>
      if ws1 a then trim_start s1 else
      match s1 with
      | EmptyString => s
      | String b s2 =>
          if ws2 a b then trim_start s2 else
          match s2 with
          | EmptyString => s
          | String c s3 => if ws3 a b c then trim_start s3 else s
          end
      end
  end.

Fixpoint trim_end (s : string) : string :=
  match s with
  | EmptyString => ""
  | String a s1 => if is_blank s then "" else String a (trim_end s1)
  end.

Definition trim (s : string) : string := trim_end (trim_start s).

(** [s.len()]: the number of bytes. *)
Definition str_len (s : string) : Z := Z.of_nat (String.length s).

Lemma not_blank_nonempty (s : string) : is_blank s = false → s ≠ "".
Proof. by intros ? ->. Qed.

Lemma trim_start_blank (s : string) : is_blank (trim_start s) = is_blank s.
Proof.
  remember (String.length s) as n eqn:Hn. assert (String.length s ≤ n) as Hle by lia.
  clear Hn. revert s Hle. induction n as [|n IH]; intros [|a [|b [|c s]]] Hle;
    simpl in Hle; try lia; try done.
  - simpl. by destruct (ws1 a) eqn:Ha; simpl; rewrite ?Ha.
  - cbn [trim_start is_blank]. destruct (ws1 a) eqn:Ha; [apply (IH (String b "")); simpl; lia|].
    destruct (ws2 a b) eqn:Hb; simpl; by rewrite ?Ha, ?Hb.
  - cbn [trim_start is_blank].
    destruct (ws1 a) eqn:Ha; [apply (IH (String b (String c s))); simpl; lia|].
    destruct (ws2 a b) eqn:Hb; [apply (IH (String c s)); simpl; lia|].
    destruct (ws3 a b c) eqn:Hc; [apply IH; lia|]. simpl. by rewrite Ha, Hb, Hc.
Qed.

Lemma trim_end_blank (s : string) : is_blank (trim_end s) = is_blank s.
Proof.
  remember (String.length s) as n eqn:Hn. assert (String.length s ≤ n) as Hle by lia.
  clear Hn. revert s Hle. induction n as [|n IH]; intros [|a s] Hle; simpl in Hle; try lia; try done.
  cbn [trim_end]. destruct (is_blank (String a s)) eqn:Hs; [done|].
  assert (is_blank (trim_end s) = is_blank s) as IH1 by (apply IH; lia).
  cbn [is_blank] in Hs |- *. destruct (ws1 a) eqn:Ha; [congruence|].
  destruct s as [|b s]; [done|]. cbn [trim_end]. destruct (is_blank (String b s)) eqn:Hb; [done|].
  destruct (ws2 a b) eqn:Hab; [rewrite IH; [done|simpl in Hle; lia]|].
  destruct s as [|c s]; [done|]. cbn [trim_end]. destruct (is_blank (String c s)) eqn:Hc; [done|].
  destruct (ws3 a b c); [|done]. rewrite IH; [done|simpl in Hle; lia].
Qed.

Lemma trim_blank (s : string) : is_blank (trim s) = is_blank s.
Proof. unfold trim. by rewrite trim_end_blank, trim_start_blank. Qed.

Lemma trim_end_empty (s : string) : trim_end s = "" ↔ is_blank s = true.
Proof.
  destruct s as [|a s]; [done|]. cbn [trim_end].
  by destruct (is_blank (String a s)).
Qed.

(** A string is blank exactly when nothing is left after trimming it. *)
Lemma trim_empty (s : string) : trim s = "" ↔ is_blank s = true.
Proof. unfold trim. by rewrite trim_end_empty, trim_start_blank. Qed.

Example is_blank_spaces : is_blank "   " = true.
Proof. reflexivity. Qed.
Example is_blank_word : is_blank "  op-1 " = false.
Proof. reflexivity. Qed.

(** ** Counting in a map *)
Section counting.
Context `{Countable K} {V : Type} (P : K * V → Prop) `{∀ x, Decision (P x)}.

Lemma size_filter_insert (i : K) (x : V) (m : gmap K V) :
  m !! i = None → size (filter P (<[i := x]> m)) = (if decide (P (i, x)) then 1 else 0) + size (filter P m).
Proof.
  intros Hi. rewrite map_filter_insert. case_decide; [|by rewrite delete_id].
  rewrite map_size_insert_None; [done|]. apply map_lookup_filter_None. by left.
Qed.
Lemma size_filter_delete (i : K) (x : V) (m : gmap K V) :
  m !! i = Some x → size (filter P m) = (if decide (P (i, x)) then 1 else 0) + size (filter P (delete i m)).
Proof.
  intros Hi. rewrite <-(insert_delete_id m i x Hi) at 1. apply size_filter_insert, lookup_delete_eq.
Qed.
End counting.

(** ** Iteration over hash maps

    [HashMap] iterates in an unspecified order, which may differ between two
    calls.  An operation that iterates takes the order of that call as an
    argument [it]; [iteration m it] says it is one the map can produce. *)
Definition iteration `{Countable K} {V} (m : gmap K V) (it : list (K * V)) : Prop :=
  it ≡ₚ map_to_list m.

Declare Scope ego_scope.
Delimit Scope ego_scope with ego.
Open Scope ego_scope.
(** [m @ k ↦ v]: the map holds [v] at [k]. *)
Notation "m @ k ↦ v" := (m !! k = Some v) (at level 70, k at next level) : ego_scope.

Section iteration.
Context `{Countable K} {V : Type}.
Implicit Types (m : gmap K V) (it : list (K * V)).

Lemma iteration_elem m it k v :
  iteration m it → (k, v) ∈ it ↔ m !! k = Some v.
Proof. unfold iteration. intros ->. apply elem_of_map_to_list. Qed.

Lemma iteration_NoDup_fst m it : iteration m it → NoDup it.*1.
Proof. unfold iteration. intros ->. apply NoDup_fst_map_to_list. Qed.

Lemma iteration_length m it : iteration m it → length it = size m.
Proof. unfold iteration. intros ->. apply length_map_to_list. Qed.

Lemma iteration_default m : iteration m (map_to_list m).
Proof. by unfold iteration. Qed.
End iteration.
#[export] Hint Resolve iteration_default iteration_NoDup_fst : ego.

(** Removing a list of keys, in order. *)
Definition remove_keys `{Countable K} {V} (ks : list K) (m : gmap K V) : gmap K V :=
  foldl (λ m k, delete k m) m ks.

Lemma lookup_remove_keys `{Countable K} {V} (ks : list K) (m : gmap K V) (k : K) :
  remove_keys ks m !! k = if decide (k ∈ ks) then None else m !! k.
Proof.
  unfold remove_keys. revert m. induction ks as [|k' ks IH]; intros m; cbn [foldl].
  { case_decide; set_solver. }
  rewrite IH, lookup_delete. repeat case_decide; set_solver.
Qed.

Lemma size_remove_keys `{Countable K} {V} (ks : list K) (m : gmap K V) :
  NoDup ks → (∀ k, k ∈ ks → is_Some (m !! k)) →
  size (remove_keys ks m) + length ks = size m.
Proof.
  unfold remove_keys. revert m. induction ks as [|k ks IH]; intros m; cbn; [lia|].
  intros [Hn Hd]%NoDup_cons Hm.
  assert (is_Some (m !! k)) as [v Hv] by (apply Hm, list_elem_of_here).
  specialize (IH (delete k m) Hd). rewrite map_size_delete_Some in IH by eauto.
  assert (size m ≠ 0). { intros ?%map_size_empty_inv. naive_solver. }
  enough (size (foldl (λ m k, delete k m) (delete k m) ks) + length ks = pred (size m))
    by lia.
  apply IH. intros k' Hk'. rewrite lookup_delete_ne by set_solver. apply Hm. set_solver.
Qed.

(** ** Lists *)
Lemma list_filter_all {A} (P : A → Prop) `{!∀ x, Decision (P x)} (l : list A) :
  (∀ x, x ∈ l → P x) → filter P l = l.
Proof.
  induction l as [|x l IH]; intros Hl; [done|].
  rewrite filter_cons_True by (apply Hl; set_solver). f_equal. apply IH. set_solver.
Qed.

Lemma list_filter_none {A} (P : A → Prop) `{!∀ x, Decision (P x)} (l : list A) :
  (∀ x, x ∈ l → ¬ P x) → filter P l = [].
Proof.
  induction l as [|x l IH]; intros Hl; [done|].
  rewrite filter_cons_False by (apply Hl; set_solver). apply IH. set_solver.
Qed.

Lemma NoDup_fmap_filter {A B} (f : A → B) (P : A → Prop) `{!∀ x, Decision (P x)} (l : list A) :
  NoDup (f <$> l) → NoDup (f <$> filter P l).
Proof.
  induction l as [|x l IH]; intros Hl; [done|]. apply NoDup_cons in Hl as [Hx Hl].
  rewrite filter_cons. case_decide; [|auto]. apply NoDup_cons. split; [|auto].
  intros (y & Hy & [_ Hin]%list_elem_of_filter)%list_elem_of_fmap. apply Hx.
  apply list_elem_of_fmap. eauto.
Qed.

(** Bounded buffers. *)
(** [VecDeque::pop_front] before [push_back] when the buffer is full. *)
Definition push_bounded {A} (cap : nat) (x : A) (buf : list A) : list A :=
  (if decide (cap ≤ length buf) then tail buf else buf) ++ [x].

(** Neighbours in a list of sequence numbers that do not follow each other. *)
Fixpoint gaps_in (l : list Z) : nat :=
  match l with
  | x :: (y :: _) as l' => (if decide (y ≠ u64_wrapping_succ x) then 1 else 0) + gaps_in l'
  | _ => 0
  end.

(** The last [n] elements. *)
Definition lastn {A} (n : nat) (l : list A) : list A := drop (length l - n) l.

Lemma tail_drop {A} n (l : list A) : tail (drop n l) = drop (S n) l.
Proof. revert l. induction n as [|n IH]; intros [|x l]; simpl; [done..|]. apply IH. Qed.

Lemma push_bounded_lastn {A} cap (x : A) l :
  0 < cap → push_bounded cap x (lastn cap l) = lastn cap (l ++ [x]).
Proof.
  intros Hc. unfold push_bounded, lastn. rewrite length_drop, length_app. simpl. case_decide.
  - rewrite drop_app_le by lia. f_equal. rewrite tail_drop. f_equal. lia.
  - replace (length l - cap) with 0 by lia. replace (length l + 1 - cap) with 0 by lia. done.
Qed.

Lemma gaps_in_cons x y l :
  gaps_in (x :: y :: l) = (if decide (y ≠ u64_wrapping_succ x) then 1 else 0) + gaps_in (y :: l).
Proof. done. Qed.

Lemma gaps_in_snoc l y :
  gaps_in (l ++ [y]) = gaps_in l +
    match last l with Some x => if decide (y ≠ u64_wrapping_succ x) then 1 else 0 | None => 0 end.
Proof.
  induction l as [|x l IH]; [done|]. destruct l as [|z l]; [simpl; lia|].
  cbn [app gaps_in] in IH |- *. rewrite IH. cbn [last]. lia.
Qed.

(** [Iterator::min] over a list. *)
Definition list_min (l : list Z) : option Z :=
  match l with [] => None | x :: l => Some (foldl Z.min x l) end.

Lemma foldl_min_le (l : list Z) (x : Z) :
  (foldl Z.min x l ≤ x)%Z ∧ (∀ y, y ∈ l → foldl Z.min x l ≤ y)%Z ∧
  (foldl Z.min x l = x ∨ foldl Z.min x l ∈ l).
Proof.
  revert x. induction l as [|y l IH]; intros x; cbn [foldl].
  - split_and!; [lia|set_solver|auto].
  - destruct (IH (Z.min x y)) as (H1 & H2 & H3). split_and!; [lia| |].
    + intros z [->|?]%elem_of_cons; [lia|auto].
    + destruct H3 as [->|?]; [|set_solver]. destruct (Z.min_spec x y) as [[_ ->]|[_ ->]]; set_solver.
Qed.

Lemma list_min_spec (l : list Z) :
  match list_min l with
  | None => l = []
  | Some m => m ∈ l ∧ ∀ y, y ∈ l → (m ≤ y)%Z
  end.
Proof.
  destruct l as [|x l]; simpl; [done|]. destruct (foldl_min_le l x) as (H1 & H2 & H3).
  split; [destruct H3 as [->|]; set_solver|]. intros y [->|?]%elem_of_cons; auto.
Qed.

(** ** Bytes

    [Vec<u8>] and [[u8; n]] are lists of bytes. *)
#[export] Instance byte_eq_decision : EqDecision Byte.byte := Byte.byte_eq_dec.

Definition string_bytes (s : string) : list Byte.byte := list_byte_of_string s.

Lemma string_bytes_inj (s t : string) : string_bytes s = string_bytes t → s = t.
Proof.
  unfold string_bytes. intros Heq.
  by rewrite <-(string_of_list_byte_of_string s), Heq, string_of_list_byte_of_string.
Qed.

Lemma length_string_bytes (s : string) : length (string_bytes s) = String.length s.
Proof.
  unfold string_bytes. induction s as [|a s IH]; [done|].
  unfold list_byte_of_string in *. simpl. by f_equal.
Qed.

(** [u64::to_be_bytes]. *)
Definition be_byte (n : Z) (i : Z) : Byte.byte :=
  default Byte.x00 (Byte.of_N (Z.to_N ((n / 2 ^ (8 * i)) mod 256))).

Definition to_be_bytes (n : Z) : list Byte.byte :=
  be_byte n <$> [7; 6; 5; 4; 3; 2; 1; 0]%Z.

Lemma length_to_be_bytes n : length (to_be_bytes n) = 8.
Proof. done. Qed.

(** ** Framing *)
Lemma be_byte_val n i :
  (0 ≤ i)%Z → Z.of_N (Byte.to_N (be_byte n i)) = ((n / 2 ^ (8 * i)) mod 256)%Z.
Proof.
  intros Hi. unfold be_byte. pose proof (Z.mod_pos_bound (n / 2 ^ (8 * i)) 256 ltac:(lia)) as Hm.
  destruct (Byte.of_N (Z.to_N ((n / 2 ^ (8 * i)) mod 256))) as [b|] eqn:Hb; simpl.
  - apply Byte.to_of_N in Hb. rewrite Hb. lia.
  - apply Byte.of_N_None_iff in Hb. lia.
Qed.

(** Eight base-256 digits determine a number below 2^64. *)
Lemma base256_digits n :
  (0 ≤ n < 2 ^ 64)%Z →
  n = ((n / 2 ^ (8 * 0)) mod 256 + 256 * ((n / 2 ^ (8 * 1)) mod 256)
       + 2 ^ 16 * ((n / 2 ^ (8 * 2)) mod 256) + 2 ^ 24 * ((n / 2 ^ (8 * 3)) mod 256)
       + 2 ^ 32 * ((n / 2 ^ (8 * 4)) mod 256) + 2 ^ 40 * ((n / 2 ^ (8 * 5)) mod 256)
       + 2 ^ 48 * ((n / 2 ^ (8 * 6)) mod 256) + 2 ^ 56 * ((n / 2 ^ (8 * 7)) mod 256))%Z.
Proof.
  intros Hn. rewrite (Z.mod_small (n / 2 ^ (8 * 7))).
  2: { split; [apply Z.div_pos; lia|apply Z.div_lt_upper_bound; lia]. }
  change (2 ^ (8 * 0))%Z with 1%Z. rewrite Z.div_1_r.
  change (2 ^ (8 * 1))%Z with 256%Z. change (2 ^ (8 * 2))%Z with (256 * 256)%Z.
  change (2 ^ (8 * 3))%Z with (256 * 256 * 256)%Z.
  change (2 ^ (8 * 4))%Z with (256 * 256 * 256 * 256)%Z.
  change (2 ^ (8 * 5))%Z with (256 * 256 * 256 * 256 * 256)%Z.
  change (2 ^ (8 * 6))%Z with (256 * 256 * 256 * 256 * 256 * 256)%Z.
  change (2 ^ (8 * 7))%Z with (256 * 256 * 256 * 256 * 256 * 256 * 256)%Z.
  rewrite <-!Z.div_div by lia.
  repeat match goal with |- context [(?x / 256)%Z] =>
    is_var x; let q := fresh "q" in
    pose proof (Z.div_mod x 256 ltac:(lia)); set (q := (x / 256)%Z) in *; clearbody q end.
  change (2 ^ 64)%Z with 18446744073709551616%Z in Hn.
  change (2 ^ 16)%Z with 65536%Z. change (2 ^ 24)%Z with 16777216%Z.
  change (2 ^ 32)%Z with 4294967296%Z. change (2 ^ 40)%Z with 1099511627776%Z.
  change (2 ^ 48)%Z with 281474976710656%Z. change (2 ^ 56)%Z with 72057594037927936%Z.
  repeat match goal with |- context [(?x mod 256)%Z] =>
    let r := fresh "r" in pose proof (Z.mod_pos_bound x 256 ltac:(lia));
    set (r := (x mod 256)%Z) in *; clearbody r end.
  lia.
Qed.

Lemma to_be_bytes_inj n m :
  (0 ≤ n < 2 ^ 64)%Z → (0 ≤ m < 2 ^ 64)%Z → to_be_bytes n = to_be_bytes m → n = m.
Proof.
  intros Hn Hm [= H7 H6 H5 H4 H3 H2 H1 H0].
  rewrite (base256_digits n), (base256_digits m) by done.
  rewrite <-!be_byte_val by lia. congruence.
Qed.

Lemma app_length_inj {A} (l1 l2 k1 k2 : list A) :
  length l1 = length l2 → l1 ++ k1 = l2 ++ k2 → l1 = l2 ∧ k1 = k2.
Proof. intros Hl Heq. by apply app_inj_1. Qed.
