(* ===== verification/Programs.v ===== *)
(** * Programs over ports

    Asynchronous methods that call several ports are programs: trees of commands
    whose answers are up to whoever runs them.  What other tasks do between two
    commands, and how the ports fail, is left open, so a theorem about a program
    holds in every environment.  [wp] is a small program logic: a monitor records
    what a run has learned, and every command must be allowed by it. *)

From S2P Require Import Prelude.

Section programs.
Context {cmd : Type → Type}.

Inductive prog (A : Type) : Type :=
| Ret (a : A)
| Do {B : Type} (c : cmd B) (k : B → prog A).
#[global] Arguments Ret {A} a.
#[global] Arguments Do {A B} c k.

Fixpoint bind {A B} (p : prog A) (f : A → prog B) : prog B :=
  match p with
  | Ret a => f a
  | Do c k => Do c (λ b, bind (k b) f)
  end.

Definition exec {B} (c : cmd B) : prog B := Do c Ret.

(** Programs that issue the same commands and return the same values. *)
Inductive prog_equiv {A} : prog A → prog A → Prop :=
| equiv_ret a : prog_equiv (Ret a) (Ret a)
| equiv_do B (c : cmd B) k k' :
    (∀ b, prog_equiv (k b) (k' b)) → prog_equiv (Do c k) (Do c k').

Lemma prog_equiv_refl {A} (p : prog A) : prog_equiv p p.
Proof. induction p; by constructor. Qed.

Lemma prog_equiv_bind {A B} (p : prog A) (f g : A → prog B) :
  (∀ a, prog_equiv (f a) (g a)) → prog_equiv (bind p f) (bind p g).
Proof. intros Hfg. induction p; simpl; [done|by constructor]. Qed.
End programs.
Arguments prog : clear implicits.

Declare Scope prog_scope.
Delimit Scope prog_scope with prog.
Notation "'let!' x := p 'in' q" := (bind p (λ x, q))
  (at level 10, x pattern, p at level 100, q at level 200) : prog_scope.
Notation "p ;; q" := (bind p (λ _, q)) (at level 100, right associativity) : prog_scope.
Open Scope prog_scope.

(** ** The program logic *)
Section logic.
Context {cmd : Type → Type} {M : Type}.
Context (allowed : M → ∀ B, cmd B → Prop) (observe : M → ∀ B, cmd B → B → M).
Context (answers : ∀ B, cmd B → B → Prop).

(** Every command [p] issues, whatever is answered within [answers], is allowed, and
    [Q] holds where it returns. *)
Fixpoint wp {A} (p : prog cmd A) (m : M) (Q : A → M → Prop) : Prop :=
  match p with
  | Ret a => Q a m
  | @Do _ _ B c k =>
      allowed m B c ∧ ∀ b, answers B c b → wp (k b) (observe m B c b) Q
  end.

Lemma wp_mono {A} (p : prog cmd A) m (Q R : A → M → Prop) :
  (∀ a m, Q a m → R a m) → wp p m Q → wp p m R.
Proof.
  intros HQR. revert m. induction p as [a|B c k IH]; intros m; simpl; [auto|].
  intros [Ha Hk]. split; [done|]. intros b Hb. by apply IH, Hk.
Qed.

Lemma wp_bind {A B} (p : prog cmd A) (f : A → prog cmd B) m Q :
  wp p m (λ a m', wp (f a) m' Q) → wp (bind p f) m Q.
Proof.
  revert m. induction p as [a|B' c k IH]; intros m; simpl; [done|].
  intros [Ha Hk]. split; [done|]. intros b Hb. apply IH. by apply Hk.
Qed.

Lemma wp_exec {B} (c : cmd B) m (Q : B → M → Prop) :
  allowed m B c → (∀ b, answers B c b → Q b (observe m B c b)) → wp (exec c) m Q.
Proof. intros Ha HQ. split; [done|]. intros b Hb. by apply HQ. Qed.

Lemma wp_equiv {A} (p q : prog cmd A) m Q : prog_equiv p q → wp p m Q → wp q m Q.
Proof.
  intros Heq. revert m. induction Heq as [a|B c k k' _ IH]; intros m; simpl; [done|].
  intros [Ha Hk]. split; [done|]. intros b Hb. by apply IH, Hk.
Qed.

(** Some run of [p], with answers within [answers], returns with [Q]. *)
Fixpoint may {A} (p : prog cmd A) (m : M) (Q : A → M → Prop) : Prop :=
  match p with
  | Ret a => Q a m
  | @Do _ _ B c k => ∃ b, answers B c b ∧ may (k b) (observe m B c b) Q
  end.
End logic.

(** Run the next command of a program. *)
Ltac wp_cmd := apply wp_bind, wp_exec; [first [done | by split_and!; auto | idtac]|].
