(* ===== verification/Identity.v ===== *)
(** * Identities and receipts

    The value types the persistence ports are stated with: the identifiers of
    the [id_type!] macro, operation keys and fingerprints, receipts, the
    persistence error type and the resolution of a tenant argument. *)

From S2P Require Import Prelude.

(** ** [id_type!]

    The macro generates one validated newtype per identity; the tag keeps the
    instances apart. *)
Inductive id_tag := TenantTag | IdempotencyTag.

Record id_type (t : id_tag) := mk_id { id_str : string }.
Arguments mk_id {t} id_str.
Arguments id_str {t} _.

Definition TenantId := id_type TenantTag.
Definition IdempotencyKey := id_type IdempotencyTag.

(** The macro's error struct is a unit. *)
Inductive id_error := IdError.

Definition id_new (t : id_tag) (s : string) : result id_error (id_type t) :=
  if is_blank s then Err IdError else Ok (mk_id s).

#[export] Instance id_type_eq_dec t : EqDecision (id_type t).
Proof. solve_decision. Defined.

#[export] Instance id_type_countable t : Countable (id_type t).
Proof. by apply (inj_countable' id_str mk_id); intros []. Defined.

#[export] Instance TenantId_eq_dec : EqDecision TenantId := id_type_eq_dec _.
#[export] Instance TenantId_countable : Countable TenantId := id_type_countable _.
#[export] Instance IdempotencyKey_eq_dec : EqDecision IdempotencyKey := id_type_eq_dec _.
#[export] Instance IdempotencyKey_countable : Countable IdempotencyKey :=
  id_type_countable _.

(** ** Operation keys *)
Definition MAX_LEN : Z := 255.

Inductive OperationKeyError := KeyEmpty | KeyTooLong.

Record OperationKey := mk_key { key_str : string }.

Definition OperationKey_parse (s : string) : result OperationKeyError OperationKey :=
  if is_blank s then Err KeyEmpty
  else if decide (MAX_LEN < str_len s)%Z then Err KeyTooLong
  else Ok (mk_key s).

Record OperationFingerprint := mk_fingerprint { fingerprint_str : string }.

#[export] Instance OperationKey_eq_dec : EqDecision OperationKey.
Proof. solve_decision. Defined.
#[export] Instance OperationKey_countable : Countable OperationKey.
Proof. by apply (inj_countable' key_str mk_key); intros []. Defined.
#[export] Instance OperationFingerprint_eq_dec : EqDecision OperationFingerprint.
Proof. solve_decision. Defined.

(** The key and the fingerprint of one operation, always together. *)
Record OperationIdentity := mk_identity {
  identity_key : OperationKey;
  identity_fingerprint : OperationFingerprint;
}.

(** ** The redacted key

    [sha256] is the digest of the [sha2] crate. *)
Definition hex_digit (n : N) : string :=
  match n with
  | 0 => "0" | 1 => "1" | 2 => "2" | 3 => "3" | 4 => "4" | 5 => "5"
  | 6 => "6" | 7 => "7" | 8 => "8" | 9 => "9" | 10 => "a" | 11 => "b"
  | 12 => "c" | 13 => "d" | 14 => "e" | _ => "f"
  end%N.

(** [{byte:02x}] *)
Definition hex_byte (b : Byte.byte) : string :=
  (hex_digit (Byte.to_N b / 16) +:+ hex_digit (Byte.to_N b mod 16))%N.

Definition HASH_HEX_LEN : nat := 16.

Definition OperationKeyHash_of
    (sha256 : list Byte.byte → list Byte.byte) (key : OperationKey) : string :=
  let digest := sha256 (string_bytes (key_str key)) in
  foldl (λ hex byte, hex +:+ hex_byte byte) "" (take (HASH_HEX_LEN / 2) digest).

(** ** Receipts *)
Inductive AggregateOutcome :=
| Events (version_from version_to : Z)
| NoEvents.

Inductive AggregateOutcomeError := OutcomeInverted | OutcomeEmpty.

Definition AggregateOutcome_events (version_from version_to : Z) :
    result AggregateOutcomeError AggregateOutcome :=
  if decide (version_to = version_from - 1)%Z then Err OutcomeEmpty
  else if decide (version_to < version_from)%Z then Err OutcomeInverted
  else Ok (Events version_from version_to).

#[export] Instance AggregateOutcome_eq_dec : EqDecision AggregateOutcome.
Proof. solve_decision. Defined.

Record OperationReceipt := mk_receipt {
  receipt_aggregate_type : string;
  receipt_aggregate_id : string;
  receipt_tenant : option TenantId;
  receipt_operation_key : OperationKey;
  receipt_fingerprint : OperationFingerprint;
  receipt_outcome : AggregateOutcome;
}.

#[export] Instance OperationReceipt_eq_dec : EqDecision OperationReceipt.
Proof. solve_decision. Defined.

(** ** Persistence errors and tenant resolution *)
Inductive PersistenceError :=
| NotFound (aggregate_id : string)
| Conflict (aggregate_id : string) (expected actual : Z)
| MissingTenant
| PInternal (msg : string).

#[export] Instance PersistenceError_eq_dec : EqDecision PersistenceError.
Proof. solve_decision. Defined.

Definition resolve_tenant (tenant_id : option string) :
    result PersistenceError (option string) :=
  match tenant_id with
  | None => Ok None
  | Some t => if decide (t = "") then Err MissingTenant else Ok (Some t)
  end.

(** [StoredEvent]: an event with the operation key it was produced under. *)
Record StoredEvent (E : Type) := mk_stored {
  stored_event : E;
  stored_operation_key : option OperationKey;
}.
Arguments mk_stored {E} stored_event stored_operation_key.
Arguments stored_event {E} _.
Arguments stored_operation_key {E} _.

Definition StoredEvent_new {E} (event : E) : StoredEvent E := mk_stored event None.
Definition with_operation_key {E} (self : StoredEvent E) (operation_key : OperationKey) :
    StoredEvent E := mk_stored (stored_event self) (Some operation_key).

(** [format!("{a}-{b}")], the joined aggregate identifier. *)
Definition join_id (aggregate_type aggregate_id : string) : string :=
  aggregate_type +:+ "-" +:+ aggregate_id.

(** ** Properties *)

Lemma OperationKey_parse_Ok s k :
  OperationKey_parse s = Ok k ↔
  k = mk_key s ∧ is_blank s = false ∧ (str_len s ≤ MAX_LEN)%Z.
Proof.
  unfold OperationKey_parse. destruct (is_blank s); [naive_solver|].
  case_decide; [naive_solver lia|]. naive_solver lia.
Qed.

Lemma AggregateOutcome_events_Ok a b o :
  AggregateOutcome_events a b = Ok o ↔ o = Events a b ∧ (a ≤ b)%Z.
Proof.
  unfold AggregateOutcome_events. repeat case_decide; naive_solver lia.
Qed.

Lemma resolve_tenant_Ok t o :
  resolve_tenant t = Ok o ↔ o = t ∧ t ≠ Some "".
Proof.
  destruct t as [t|]; simpl; [case_decide; naive_solver|naive_solver].
Qed.

Lemma resolve_tenant_Err t e :
  resolve_tenant t = Err e ↔ e = MissingTenant ∧ t = Some "".
Proof.
  destruct t as [t|]; simpl; [case_decide; naive_solver|naive_solver].
Qed.

Lemma resolve_tenant_cases t :
  (t = Some "" ∧ resolve_tenant t = Err MissingTenant) ∨
  (t ≠ Some "" ∧ resolve_tenant t = Ok t).
Proof. destruct t as [t|]; simpl; [case_decide; naive_solver|naive_solver]. Qed.

Lemma length_hex_digit n : String.length (hex_digit n) = 1.
Proof.
  unfold hex_digit. repeat case_match; done.
Qed.

Lemma str_length_app (s t : string) :
  String.length (s +:+ t) = String.length s + String.length t.
Proof. induction s as [|a s IH]; simpl; [done|]. by rewrite IH. Qed.

Lemma length_hex_byte b : String.length (hex_byte b) = 2.
Proof. unfold hex_byte. by rewrite str_length_app, !length_hex_digit. Qed.

Lemma length_hex_fold bs acc :
  String.length (foldl (λ hex byte, hex +:+ hex_byte byte) acc bs)
  = String.length acc + 2 * length bs.
Proof.
  revert acc. induction bs as [|b bs IH]; intros acc; cbn [foldl length]; [lia|].
  rewrite IH, str_length_app, length_hex_byte. lia.
Qed.

(** The emitted token is always 16 characters, whatever the key's length, as
    long as the digest has its documented 32 bytes. *)
Lemma OperationKeyHash_length sha256 key :
  (∀ b, length (sha256 b) = 32) →
  String.length (OperationKeyHash_of sha256 key) = HASH_HEX_LEN.
Proof.
  intros Hlen. unfold OperationKeyHash_of.
  rewrite length_hex_fold, length_take, Hlen. done.
Qed.
