(* ===== verification/Reservation.v ===== *)
(** * Operation reservations

    The port [OperationReservationStore] (crates/persistence-api, operation/
    reservation.rs) and its in-memory implementation (crates/persistence-memory,
    operation/reservation.rs).  The store is a map from operation identities to
    records; every operation is one critical section under the store's mutex,
    reads the clock inside it, and is a function from the store to an answer and
    the next store.  [now] is the clock reading of the call. *)

From S2P Require Import Prelude Identity.

(** ** Data *)
Record OperationId := mk_operation_id {
  op_tenant : option TenantId;
  op_operation_key : OperationKey;
}.

#[export] Instance OperationId_eq_dec : EqDecision OperationId.
Proof. solve_decision. Defined.
#[export] Instance OperationId_countable : Countable OperationId.
Proof.
  by apply (inj_countable' (λ o, (op_tenant o, op_operation_key o))
              (λ p, mk_operation_id p.1 p.2)); intros [].
Defined.

Record OwnerId := mk_owner { owner_str : string }.
#[export] Instance OwnerId_eq_dec : EqDecision OwnerId.
Proof. solve_decision. Defined.

(** [FencingToken(u64)] *)
Record FencingToken := mk_token { token_value : Z }.
#[export] Instance FencingToken_eq_dec : EqDecision FencingToken.
Proof. solve_decision. Defined.

Definition token_initial : FencingToken := mk_token 1.

Definition token_next (t : FencingToken) : option FencingToken :=
  mk_token <$> u64_checked_succ (token_value t).

(** [StoredServiceResponse(Vec<u8>)] *)
Record StoredServiceResponse := mk_response { response_bytes : list Byte.byte }.
#[export] Instance StoredServiceResponse_eq_dec : EqDecision StoredServiceResponse.
Proof. solve_decision. Defined.

Record Lease := mk_lease {
  lease_operation_id : OperationId;
  lease_owner_id : OwnerId;
  lease_fencing_token : FencingToken;
  lease_lease_until : Z;
}.

Record OwnerFence := mk_fence {
  fence_operation_id : OperationId;
  fence_owner_id : OwnerId;
  fence_fencing_token : FencingToken;
}.

Record ReserveRequest := mk_request {
  req_tenant : option TenantId;
  req_operation_key : OperationKey;
  req_fingerprint : OperationFingerprint;
  req_owner_id : OwnerId;
  req_lease_until : Z;
}.

Inductive ReservationOutcome :=
| Fresh (l : Lease)
| TakenOver (l : Lease)
| OwnedInProgress (l : Lease)
| OtherInProgress
| Succeeded (r : StoredServiceResponse)
| ConflictingFingerprint.

Inductive ReservationError :=
| StaleOwner
| FencingExhausted
| ReservationBackend (msg : string).

Inductive OldestCompleted := Unsupported | OldestEmpty | OldestAt (at_ : Z).

(** The persisted state of one reservation. *)
Inductive RecordState :=
| InProgress (owner_id : OwnerId) (fencing_token : FencingToken) (lease_until : Z)
| Completed (response : StoredServiceResponse) (completed_at : Z).

Record ReservationRecord := mk_record {
  rec_fingerprint : OperationFingerprint;
  rec_state : RecordState;
}.

(** [InMemoryOperationReservationStore::records]. *)
Abbreviation Records := (gmap OperationId ReservationRecord).

(** ** Operations *)
Definition request_id (req : ReserveRequest) : OperationId :=
  mk_operation_id (req_tenant req) (req_operation_key req).

Definition reserve (now : Z) (req : ReserveRequest) (records : Records) :
    result ReservationError ReservationOutcome * Records :=
  let operation_id := request_id req in
  match records !! operation_id with
  | None =>
      let lease := mk_lease operation_id (req_owner_id req) token_initial
                     (req_lease_until req) in
      (Ok (Fresh lease),
       <[operation_id := mk_record (req_fingerprint req)
           (InProgress (req_owner_id req) token_initial (req_lease_until req))]> records)
  | Some record =>
      if decide (rec_fingerprint record ≠ req_fingerprint req)
      then (Ok ConflictingFingerprint, records)
      else
        match rec_state record with
        | InProgress owner_id fencing_token lease_until =>
            if decide (lease_until ≤ now)%Z then
              match token_next fencing_token with
              | None => (Err FencingExhausted, records)
              | Some new_token =>
                  let lease := mk_lease operation_id (req_owner_id req) new_token
                                 (req_lease_until req) in
                  (Ok (TakenOver lease),
                   <[operation_id := mk_record (rec_fingerprint record)
                       (InProgress (req_owner_id req) new_token
                          (req_lease_until req))]> records)
              end
            else if decide (owner_id = req_owner_id req) then
              (Ok (OwnedInProgress
                     (mk_lease operation_id owner_id fencing_token lease_until)), records)
            else (Ok OtherInProgress, records)
        | Completed response _ => (Ok (Succeeded response), records)
        end
  end.

(** The guard shared by the mutating calls: the full triple matches a lease that
    is still live.  The first component of the triple is the map key. *)
Definition fence_holds (now : Z) (fence : OwnerFence) (st : RecordState) : bool :=
  match st with
  | InProgress owner_id fencing_token lease_until =>
      bool_decide (owner_id = fence_owner_id fence)
      && bool_decide (fencing_token = fence_fencing_token fence)
      && bool_decide (now < lease_until)%Z
  | Completed _ _ => false
  end.

Definition renew (now : Z) (fence : OwnerFence) (until : Z) (records : Records) :
    result ReservationError unit * Records :=
  match records !! fence_operation_id fence with
  | Some record =>
      if fence_holds now fence (rec_state record) then
        (Ok (),
         <[fence_operation_id fence := mk_record (rec_fingerprint record)
             (InProgress (fence_owner_id fence) (fence_fencing_token fence) until)]> records)
      else (Err StaleOwner, records)
  | None => (Err StaleOwner, records)
  end.

Definition complete (now : Z) (fence : OwnerFence) (response : StoredServiceResponse)
    (records : Records) : result ReservationError unit * Records :=
  match records !! fence_operation_id fence with
  | Some record =>
      if fence_holds now fence (rec_state record) then
        (Ok (),
         <[fence_operation_id fence := mk_record (rec_fingerprint record)
             (Completed response now)]> records)
      else (Err StaleOwner, records)
  | None => (Err StaleOwner, records)
  end.

Definition abandon (now : Z) (fence : OwnerFence) (records : Records) :
    result ReservationError unit * Records :=
  match records !! fence_operation_id fence with
  | Some record =>
      if fence_holds now fence (rec_state record) then
        (Ok (), delete (fence_operation_id fence) records)
      else (Err StaleOwner, records)
  | None => (Err StaleOwner, records)
  end.

(** [it] is the iteration order of the map for this call. *)
Definition completed_before (cutoff : Z) (r : ReservationRecord) : bool :=
  match rec_state r with
  | Completed _ completed_at => bool_decide (completed_at < cutoff)%Z
  | InProgress _ _ _ => false
  end.

Definition eligible (cutoff : Z) (batch : nat) (it : list (OperationId * ReservationRecord)) :
    list OperationId :=
  take batch (omap (λ '(id, r), if completed_before cutoff r then Some id else None) it).

Definition purge_completed_before (cutoff : Z) (batch : nat)
    (it : list (OperationId * ReservationRecord)) (records : Records) :
    result ReservationError Z * Records :=
  let ids := eligible cutoff batch it in
  (Ok (Z.of_nat (length ids)), remove_keys ids records).

Definition completion_time (r : ReservationRecord) : option Z :=
  match rec_state r with
  | Completed _ completed_at => Some completed_at
  | InProgress _ _ _ => None
  end.

Definition oldest_completed (it : list (OperationId * ReservationRecord)) :
    result ReservationError OldestCompleted :=
  Ok match list_min (omap (completion_time ∘ snd) it) with
     | Some at_ => OldestAt at_
     | None => OldestEmpty
     end.

Definition probe (records : Records) : result ReservationError unit := Ok ().

(** Reservations live in process memory: the store reports itself not durable. *)
Definition is_durable : bool := false.

(** ** One call of the port *)
Inductive call :=
| CReserve (req : ReserveRequest)
| CRenew (fence : OwnerFence) (until : Z)
| CComplete (fence : OwnerFence) (response : StoredServiceResponse)
| CAbandon (fence : OwnerFence)
| CPurge (cutoff : Z) (batch : nat) (it : list (OperationId * ReservationRecord)).

Inductive answer :=
| AReserve (r : result ReservationError ReservationOutcome)
| AUnit (r : result ReservationError unit)
| APurge (r : result ReservationError Z).

Definition run_call (now : Z) (c : call) (records : Records) : answer * Records :=
  match c with
  | CReserve req => prod_map AReserve id (reserve now req records)
  | CRenew f until => prod_map AUnit id (renew now f until records)
  | CComplete f r => prod_map AUnit id (complete now f r records)
  | CAbandon f => prod_map AUnit id (abandon now f records)
  | CPurge cutoff batch it => prod_map APurge id (purge_completed_before cutoff batch it records)
  end.

(** A purge iterates over the map it is called on. *)
Definition call_ok (c : call) (records : Records) : Prop :=
  match c with CPurge _ _ it => iteration records it | _ => True end.

(** A run: calls at their clock readings.  The clock is not assumed monotone. *)
Inductive run : Records → list (Z * call * answer) → Records → Prop :=
| run_nil s : run s [] s
| run_cons s s1 s2 now c a tr :
    call_ok c s → run_call now c s = (a, s1) → run s1 tr s2 →
    run s ((now, c, a) :: tr) s2.

(** The calls of a run that touch one reservation, and those that can remove it. *)
Definition call_fence (c : call) : option OwnerFence :=
  match c with
  | CRenew f _ | CComplete f _ | CAbandon f => Some f
  | CReserve _ | CPurge _ _ _ => None
  end.

(** ** The contract of the port

    One reservation as the port documents it: absent, held under a fenced lease,
    or done.  [cell_step now c a x y] holds when a call [c] at time [now] that
    concerns this reservation may answer [a] and take the cell from [x] to [y]. *)
Abbreviation cell := (option ReservationRecord).

Inductive cell_step (id : OperationId) (now : Z) : call → answer → cell → cell → Prop :=
| CellFresh req :
    request_id req = id →
    cell_step id now (CReserve req)
      (AReserve (Ok (Fresh (mk_lease id (req_owner_id req) token_initial
                              (req_lease_until req)))))
      None
      (Some (mk_record (req_fingerprint req)
               (InProgress (req_owner_id req) token_initial (req_lease_until req))))
| CellConflict req r :
    request_id req = id →
    rec_fingerprint r ≠ req_fingerprint req →
    cell_step id now (CReserve req) (AReserve (Ok ConflictingFingerprint)) (Some r) (Some r)
| CellTakenOver req fp o t u t' :
    request_id req = id → fp = req_fingerprint req →
    (u ≤ now)%Z → (token_value t < token_value t')%Z → (token_value t' ≤ u64_max)%Z →
    cell_step id now (CReserve req)
      (AReserve (Ok (TakenOver (mk_lease id (req_owner_id req) t' (req_lease_until req)))))
      (Some (mk_record fp (InProgress o t u)))
      (Some (mk_record fp (InProgress (req_owner_id req) t' (req_lease_until req))))
| CellExhausted req fp o t u :
    request_id req = id → fp = req_fingerprint req →
    (u ≤ now)%Z → (u64_max ≤ token_value t)%Z →
    cell_step id now (CReserve req) (AReserve (Err FencingExhausted))
      (Some (mk_record fp (InProgress o t u))) (Some (mk_record fp (InProgress o t u)))
| CellOwned req fp t u :
    request_id req = id → fp = req_fingerprint req → (now < u)%Z →
    cell_step id now (CReserve req)
      (AReserve (Ok (OwnedInProgress (mk_lease id (req_owner_id req) t u))))
      (Some (mk_record fp (InProgress (req_owner_id req) t u)))
      (Some (mk_record fp (InProgress (req_owner_id req) t u)))
| CellOther req fp o t u :
    request_id req = id → fp = req_fingerprint req → (now < u)%Z → o ≠ req_owner_id req →
    cell_step id now (CReserve req) (AReserve (Ok OtherInProgress))
      (Some (mk_record fp (InProgress o t u))) (Some (mk_record fp (InProgress o t u)))
| CellSucceeded req fp resp at_ :
    request_id req = id → fp = req_fingerprint req →
    cell_step id now (CReserve req) (AReserve (Ok (Succeeded resp)))
      (Some (mk_record fp (Completed resp at_))) (Some (mk_record fp (Completed resp at_)))
| CellRenewed o t u until fp :
    (now < u)%Z →
    cell_step id now (CRenew (mk_fence id o t) until) (AUnit (Ok ()))
      (Some (mk_record fp (InProgress o t u))) (Some (mk_record fp (InProgress o t until)))
| CellCompleted o t u resp fp :
    (now < u)%Z →
    cell_step id now (CComplete (mk_fence id o t) resp) (AUnit (Ok ()))
      (Some (mk_record fp (InProgress o t u))) (Some (mk_record fp (Completed resp now)))
| CellAbandoned o t u fp :
    (now < u)%Z →
    cell_step id now (CAbandon (mk_fence id o t)) (AUnit (Ok ()))
      (Some (mk_record fp (InProgress o t u))) None
| CellStale c f x :
    call_fence c = Some f → fence_operation_id f = id →
    (∀ fp o t u, x = Some (mk_record fp (InProgress o t u)) →
       (now < u)%Z → f ≠ mk_fence id o t) →
    cell_step id now c (AUnit (Err StaleOwner)) x x
| CellPurged cutoff batch it n resp at_ fp :
    (at_ < cutoff)%Z →
    cell_step id now (CPurge cutoff batch it) (APurge (Ok n))
      (Some (mk_record fp (Completed resp at_))) None
| CellUnpurged cutoff batch it n x :
    cell_step id now (CPurge cutoff batch it) (APurge (Ok n)) x x.

(** The calls that concern a reservation. *)
Definition concerns (c : call) (id : OperationId) : Prop :=
  match c with
  | CReserve req => request_id req = id
  | CRenew f _ | CComplete f _ | CAbandon f => fence_operation_id f = id
  | CPurge _ _ _ => True
  end.

(** ** Lemmas *)

Lemma token_next_Some t t' :
  token_next t = Some t' →
  (token_value t' = token_value t + 1 ∧ token_value t' ≤ u64_max)%Z.
Proof.
  unfold token_next. intros (n & [-> ?]%u64_checked_succ_Some & ->)%fmap_Some.
  simpl. lia.
Qed.

Lemma token_next_None t : token_next t = None → (u64_max ≤ token_value t)%Z.
Proof.
  unfold token_next, u64_checked_succ. case_decide; [done|]. lia.
Qed.

Lemma fence_holds_true now f st :
  fence_holds now f st = true ↔
  ∃ u, st = InProgress (fence_owner_id f) (fence_fencing_token f) u ∧ (now < u)%Z.
Proof.
  destruct st as [o t u|resp at_]; simpl; [|naive_solver].
  rewrite !andb_true_iff, !bool_decide_eq_true. naive_solver.
Qed.

Lemma fence_holds_false now f id r :
  fence_operation_id f = id → fence_holds now f (rec_state r) = false →
  ∀ fp o t u, Some r = Some (mk_record fp (InProgress o t u)) → (now < u)%Z →
  f ≠ mk_fence id o t.
Proof.
  intros _ Hf fp o t u [= ->] Hu ->. apply not_true_iff_false in Hf.
  apply Hf, fence_holds_true. eauto.
Qed.

Lemma eligible_sub cutoff batch it :
  eligible cutoff batch it `sublist_of`
  omap (λ '(id, r), if completed_before cutoff r then Some id else None) it.
Proof. apply sublist_take. Qed.

Lemma elem_of_eligible cutoff batch it id :
  id ∈ eligible cutoff batch it → ∃ r, (id, r) ∈ it ∧ completed_before cutoff r = true.
Proof.
  intros Hin. eapply elem_of_sublist in Hin; [|apply eligible_sub].
  apply list_elem_of_omap in Hin as ([id' r] & Hin & Hf).
  destruct (completed_before cutoff r) eqn:?; naive_solver.
Qed.

Lemma completed_before_true cutoff r :
  completed_before cutoff r = true ↔
  ∃ resp at_, rec_state r = Completed resp at_ ∧ (at_ < cutoff)%Z.
Proof.
  unfold completed_before. destruct (rec_state r); [naive_solver|].
  rewrite bool_decide_eq_true. naive_solver.
Qed.

Lemma purge_cell cutoff batch it s id now :
  iteration s it →
  cell_step id now (CPurge cutoff batch it)
    (APurge (Ok (Z.of_nat (length (eligible cutoff batch it)))))
    (s !! id) (remove_keys (eligible cutoff batch it) s !! id).
Proof.
  intros Hit. rewrite lookup_remove_keys. case_decide as Hin; [|apply CellUnpurged].
  apply elem_of_eligible in Hin as ([fp st] & Hin & Hc).
  apply (iteration_elem _ _ _ _ Hit) in Hin. rewrite Hin.
  apply completed_before_true in Hc as (resp & at_ & Hst & ?). simpl in Hst.
  subst st. by apply CellPurged.
Qed.

(** Resolves the fence guard of a mutating call into its two cases. *)
Ltac case_fence f r :=
  let Hf := fresh "Hf" in
  destruct (fence_holds _ f (rec_state r)) eqn:Hf;
  [apply fence_holds_true in Hf as (? & Hf & ?);
   destruct r as [? ?]; simpl in Hf; subst; destruct f as [? ? ?]
  |pose proof (fence_holds_false _ f _ _ eq_refl Hf)].

Lemma reserve_cell now req s a s' :
  reserve now req s = (a, s') →
  cell_step (request_id req) now (CReserve req) (AReserve a)
    (s !! request_id req) (s' !! request_id req).
Proof.
  unfold reserve. destruct (s !! request_id req) as [[fp st]|] eqn:Hs; simpl.
  - case_decide as Hfp; [intros [= <- <-]; rewrite Hs; by constructor|].
    destruct st as [o t u|resp at_].
    + case_decide; [destruct (token_next t) as [t'|] eqn:Ht|case_decide];
        intros [= <- <-]; rewrite ?lookup_insert_eq, ?Hs.
      * apply token_next_Some in Ht as [? ?]. constructor; auto; lia.
      * constructor; auto using token_next_None.
      * subst o. constructor; auto; lia.
      * constructor; auto; lia.
    + intros [= <- <-]. rewrite Hs. by constructor.
  - intros [= <- <-]. rewrite lookup_insert_eq. by constructor.
Qed.

Lemma reserve_frame now req s a s' id :
  reserve now req s = (a, s') → request_id req ≠ id → s' !! id = s !! id.
Proof.
  unfold reserve. intros Hr Hne. repeat case_match; simplify_eq;
    by rewrite ?lookup_insert_ne.
Qed.

Lemma mutate_cell now s a s' c f :
  call_fence c = Some f → run_call now c s = (a, s') →
  cell_step (fence_operation_id f) now c a
    (s !! fence_operation_id f) (s' !! fence_operation_id f).
Proof.
  destruct c as [|g until|g resp|g|]; intros [= ->]; simpl;
    unfold renew, complete, abandon;
    (destruct (s !! fence_operation_id f) as [r|] eqn:Hs;
     [case_fence f r|]); intros [= <- <-]; simpl in *;
    rewrite ?lookup_insert_eq, ?lookup_delete_eq, ?Hs;
    try (by constructor); eapply CellStale; try done; eauto.
Qed.

Lemma mutate_frame now s a s' c f id :
  call_fence c = Some f → run_call now c s = (a, s') →
  fence_operation_id f ≠ id → s' !! id = s !! id.
Proof.
  destruct c as [|g until|g resp|g|]; intros [= ->]; simpl;
    unfold renew, complete, abandon;
    (destruct (s !! fence_operation_id f) as [r|];
     [destruct (fence_holds _ f (rec_state r))|]);
    intros [= <- <-] Hne; by rewrite ?lookup_insert_ne, ?lookup_delete_ne.
Qed.

(** Any assertion about one cell that every step of the contract preserves holds
    along a run.  [Q] restricts the calls of the run. *)
Lemma run_cell_invariant (P : cell → Prop) (Q : Z * call * answer → Prop) id s tr s' :
  (∀ now c a s s', call_ok c s → run_call now c s = (a, s') →
     (concerns c id → cell_step id now c a (s !! id) (s' !! id)) ∧
     (¬ concerns c id → s' !! id = s !! id)) →
  (∀ now c a x y, Q (now, c, a) → cell_step id now c a x y → P x → P y) →
  run s tr s' → Forall Q tr → P (s !! id) → P (s' !! id).
Proof.
  intros Hstep HP Hrun. induction Hrun as [|s s1 s2 now c a tr Hok Hc Hrun IH]; [done|].
  intros [HQ HQs]%Forall_cons Hx. apply IH; [done|].
  destruct (Hstep _ _ _ _ _ Hok Hc) as [Hin Hout].
  assert (Decision (concerns c id)) by (destruct c; simpl; apply _).
  destruct (decide (concerns c id)) as [Hd|Hd]; [eauto|by rewrite Hout].
Qed.

Lemma run_call_contract now c s a s' :
  call_ok c s → run_call now c s = (a, s') → ∀ id,
  (concerns c id → cell_step id now c a (s !! id) (s' !! id)) ∧
  (¬ concerns c id → s' !! id = s !! id).
Proof.
  intros Hok Hc id. destruct c as [req|f until|f resp|f|cutoff batch it].
  1:{ simpl in Hc. destruct (reserve now req s) as [r s1] eqn:Hr; simplify_eq/=.
      split; [intros <-; by apply reserve_cell|intros; by eapply reserve_frame]. }
  4:{ simplify_eq/=. split; [intros _; by apply purge_cell|done]. }
  all: split; [intros <-; by eapply mutate_cell|].
  all: intros Hne; refine (mutate_frame now s a s' _ f id _ Hc Hne); done.
Qed.

(** A run during which the reservation [id] stays in the store: any call may happen,
    retention and other owners' abandons included, as long as none removes it. *)
Inductive run_keeping (id : OperationId) : Records → list (Z * call * answer) → Records → Prop :=
| run_keeping_nil s : run_keeping id s [] s
| run_keeping_cons s s1 s2 now c a tr :
    call_ok c s → run_call now c s = (a, s1) → is_Some (s1 !! id) →
    run_keeping id s1 tr s2 → run_keeping id s ((now, c, a) :: tr) s2.

(** [tr] never purges completions at or before [at_]. *)
Definition keeps_completed (at_ : Z) (e : Z * call * answer) : Prop :=
  match e.1.2 with CPurge cutoff _ _ => (cutoff ≤ at_)%Z | _ => True end.

(** Nobody presents the fence [f] in [e], which happens before [u]. *)
Definition undisturbed (u : Z) (f : OwnerFence) (e : Z * call * answer) : Prop :=
  (e.1.1 < u)%Z ∧ call_fence e.1.2 ≠ Some f.

(** A reservation held under a token of at least [n], or done. *)
Definition fenced_at (n : Z) (x : cell) : Prop :=
  match x with
  | Some (mk_record _ (InProgress _ t _)) => (n ≤ token_value t)%Z
  | Some (mk_record _ (Completed _ _)) => True
  | None => False
  end.

Lemma fenced_at_step n id now c a x y :
  is_Some y → cell_step id now c a x y → fenced_at n x → fenced_at n y.
Proof.
  intros [r Hy] Hs. destruct Hs; simpl in *; try done; try lia.
Qed.

Lemma fenced_at_run n id s tr s' :
  run_keeping id s tr s' → fenced_at n (s !! id) → fenced_at n (s' !! id).
Proof.
  induction 1 as [|s s1 s2 now c a tr Hok Hc Hkept _ IH]; [done|]. intros Hn. apply IH.
  destruct (run_call_contract _ _ _ _ _ Hok Hc id) as [Hin Hout].
  assert (Decision (concerns c id)) by (destruct c; simpl; apply _).
  destruct (decide (concerns c id)) as [Hd|Hd]; [|by rewrite Hout].
  eapply fenced_at_step; eauto.
Qed.

Lemma fenced_at_stale n now f s :
  fenced_at n (s !! fence_operation_id f) → (token_value (fence_fencing_token f) < n)%Z →
  ∀ c a s', call_fence c = Some f → run_call now c s = (a, s') →
  a = AUnit (Err StaleOwner) ∧ s' = s.
Proof.
  intros Hn Ht c a s' Hc. assert (Hst : ∀ r, s !! fence_operation_id f = Some r →
    fence_holds now f (rec_state r) = false).
  { intros r Hr. rewrite Hr in Hn. apply not_true_iff_false.
    intros (u & Hu & _)%fence_holds_true. destruct r as [fp st]; simpl in *; subst. simpl in Hn. lia. }
  destruct c; simplify_eq/=; unfold renew, complete, abandon;
    (destruct (s !! fence_operation_id f) eqn:E; [rewrite (Hst _ eq_refl)|]); naive_solver.
Qed.

Lemma reserve_taken_over now req s l s' :
  reserve now req s = (Ok (TakenOver l), s') →
  fenced_at (token_value (lease_fencing_token l)) (s' !! request_id req).
Proof.
  intros Hr. apply reserve_cell in Hr. inversion Hr; subst; simpl. lia.
Qed.

(** A completion survives every purge that does not reach back to it. *)
Lemma completed_replays now f resp s r s1 tr s2 now' req :
  s !! fence_operation_id f = Some r →
  complete now f resp s = (Ok (), s1) →
  run s1 tr s2 → Forall (keeps_completed now) tr →
  request_id req = fence_operation_id f →
  reserve now' req s2 =
    (Ok (if decide (req_fingerprint req = rec_fingerprint r)
         then Succeeded resp else ConflictingFingerprint), s2).
Proof.
  intros Hr Hc Hrun HQ Hid.
  assert (s1 !! request_id req = Some (mk_record (rec_fingerprint r) (Completed resp now))) as H1.
  { unfold complete in Hc. rewrite Hr in Hc. case_match; simplify_eq.
    by rewrite Hid, lookup_insert_eq. }
  assert (s2 !! request_id req = Some (mk_record (rec_fingerprint r) (Completed resp now))) as H2.
  { eapply run_cell_invariant with (Q := keeps_completed now)
      (P := λ x, x = Some (mk_record (rec_fingerprint r) (Completed resp now))); eauto.
    - intros. by apply run_call_contract.
    - intros now2 c a x y HQ2 Hstep ->. unfold keeps_completed in HQ2.
      inversion Hstep; subst; simpl in *; [done..|lia|done]. }
  unfold reserve. rewrite H2. simpl. repeat case_decide; naive_solver.
Qed.

(** *** Properties *)

(** C7: The in-memory store implements the documented contract of the port: every
    call takes the reservation it concerns along a step of the contract, with
    the answer the contract gives, and leaves every other reservation, in
    particular the same key under another tenant, as it was. *)
Theorem reservation_refines_port now c s a s' :
  call_ok c s → run_call now c s = (a, s') → ∀ id,
  (concerns c id → cell_step id now c a (s !! id) (s' !! id)) ∧
  (¬ concerns c id → s' !! id = s !! id).
Proof. apply run_call_contract. Qed.

(** C8: Atomic takeover fences out every earlier owner: after a reservation is
    taken over, along any sequence of calls that leaves the reservation in the
    store (stale calls, later takeovers, renewals, its completion, abandons and
    purges of other reservations), a mutating call on it with a smaller token is
    answered [StaleOwner] and changes nothing. *)
Theorem takeover_fences_out now req s l s1 tr s2 now' f c a s3 :
  reserve now req s = (Ok (TakenOver l), s1) →
  run_keeping (request_id req) s1 tr s2 →
  fence_operation_id f = request_id req →
  (token_value (fence_fencing_token f) < token_value (lease_fencing_token l))%Z →
  call_fence c = Some f → run_call now' c s2 = (a, s3) →
  a = AUnit (Err StaleOwner) ∧ s3 = s2.
Proof.
  intros Hr Hrun Hid Ht. apply fenced_at_stale with (n := token_value (lease_fencing_token l)); [|done].
  rewrite Hid. eapply fenced_at_run; [done|]. by eapply reserve_taken_over.
Qed.

(** A live lease excludes everybody else: while the clock stays below the
    lease bound and nobody presents the holder's own fence, no sequence of calls
    changes the reservation, and no [reserve] is granted it. *)
Lemma live_lease_excludes id fp o t u s tr s' :
  s !! id = Some (mk_record fp (InProgress o t u)) →
  run s tr s' → Forall (undisturbed u (mk_fence id o t)) tr →
  s' !! id = Some (mk_record fp (InProgress o t u)) ∧
  ∀ now req l, (now < u)%Z → request_id req = id →
    (reserve now req s').1 ≠ Ok (Fresh l) ∧ (reserve now req s').1 ≠ Ok (TakenOver l).
Proof.
  intros Hs Hrun HQ. assert (Hs' : s' !! id = Some (mk_record fp (InProgress o t u))).
  { eapply run_cell_invariant with (Q := undisturbed u (mk_fence id o t))
      (P := λ x, x = Some (mk_record fp (InProgress o t u))); eauto.
    - intros. by apply run_call_contract.
    - intros now c a x y [Hu Hf] Hstep ->. inversion Hstep; naive_solver lia. }
  split; [done|]. intros now req l Hu Hid. unfold reserve. rewrite Hid, Hs'. simpl.
  split; repeat case_decide; simpl; naive_solver lia.
Qed.

(** A confirmed completion is replayed: once [complete] succeeded, along any
    sequence of calls in which no purge reaches back to it, a [reserve] of the
    same operation answers the stored response under the same fingerprint and
    a conflict under another one, and changes nothing. *)
Lemma completion_is_replayed now f resp s r s1 tr s2 now' req :
  s !! fence_operation_id f = Some r →
  complete now f resp s = (Ok (), s1) →
  run s1 tr s2 → Forall (keeps_completed now) tr →
  request_id req = fence_operation_id f →
  reserve now' req s2 =
    (Ok (if decide (req_fingerprint req = rec_fingerprint r)
         then Succeeded resp else ConflictingFingerprint), s2).
Proof. apply completed_replays. Qed.

Lemma length_omap_eligible cutoff batch it :
  length (eligible cutoff batch it) =
  batch `min` length (omap (λ '(id, r), if completed_before cutoff r then Some id else None) it).
Proof. unfold eligible. apply length_take. Qed.

Lemma eligible_NoDup cutoff batch s it :
  iteration s it → NoDup (eligible cutoff batch it).
Proof.
  intros Hit%iteration_NoDup_fst. eapply sublist_NoDup; [|apply eligible_sub].
  revert Hit. induction it as [|[id r] it IH]; cbn; [constructor|].
  intros [Hn Hd]%NoDup_cons. destruct (completed_before cutoff r); [|auto].
  constructor; [|auto]. intros ([id' r'] & Hin & Hf)%list_elem_of_omap.
  apply Hn, list_elem_of_fmap. case_match; [|done]. exists (id, r'). naive_solver.
Qed.

(** A purge removes exactly as many reservations as it reports, at most
    [batch] and all the eligible ones when they fit, and every reservation it
    removes was completed before the cutoff: one in progress is never purged,
    whatever its age. *)
Lemma purge_removes_only_completed cutoff batch it s n s' :
  iteration s it →
  purge_completed_before cutoff batch it s = (Ok n, s') →
  n = Z.of_nat (batch `min` length (filter (λ p, completed_before cutoff p.2 = true) it)) ∧
  (Z.of_nat (size s') = Z.of_nat (size s) - n)%Z ∧
  (∀ id r, s' !! id = Some r → s !! id = Some r) ∧
  (∀ id r, s !! id = Some r → s' !! id = None →
     ∃ resp at_, rec_state r = Completed resp at_ ∧ (at_ < cutoff)%Z).
Proof.
  unfold purge_completed_before. intros Hit [= <- <-].
  assert (Hin : ∀ id, id ∈ eligible cutoff batch it →
            ∃ r, s !! id = Some r ∧ completed_before cutoff r = true).
  { intros id (r & ? & ?)%elem_of_eligible. exists r. split; [|done].
    by apply (iteration_elem _ _ _ _ Hit). }
  pose proof (size_remove_keys (eligible cutoff batch it) s
    (eligible_NoDup _ _ _ _ Hit)) as Hsz.
  split_and!.
  - rewrite length_omap_eligible. do 2 f_equal. clear.
    induction it as [|[id r] it IH]; [done|]. cbn [omap list_omap].
    rewrite filter_cons. simpl. case_decide as Hd.
    + rewrite Hd. simpl. by rewrite IH.
    + apply not_true_iff_false in Hd. by rewrite Hd.
  - assert (size (remove_keys (eligible cutoff batch it) s)
            + length (eligible cutoff batch it) = size s); [|lia].
    apply Hsz. intros id (r & -> & _)%Hin. eauto.
  - intros id r. rewrite lookup_remove_keys. by case_decide.
  - intros id r Hr. rewrite lookup_remove_keys. case_decide as Hd; [|congruence].
    intros _. apply Hin in Hd as (r' & Hr' & Hc). simplify_eq.
    by apply completed_before_true.
Qed.

(** [oldest_completed] reports the earliest completion held, and [Empty]
    exactly when no reservation is completed. *)
Lemma oldest_completed_is_minimum s it :
  iteration s it →
  match oldest_completed it with
  | Ok (OldestAt t) =>
      (∃ id r, s !! id = Some r ∧ completion_time r = Some t) ∧
      (∀ id r t', s !! id = Some r → completion_time r = Some t' → t ≤ t')%Z
  | Ok OldestEmpty => ∀ id r, s !! id = Some r → completion_time r = None
  | _ => False
  end.
Proof.
  intros Hit. unfold oldest_completed.
  set (l := omap (completion_time ∘ snd) it).
  assert (Hl : ∀ t, t ∈ l ↔ ∃ id r, s !! id = Some r ∧ completion_time r = Some t).
  { intros t. unfold l. rewrite list_elem_of_omap. split.
    - intros ([id r] & Hin & Ht). exists id, r. by rewrite <-(iteration_elem _ _ _ _ Hit).
    - intros (id & r & Hr & Ht). exists (id, r). by rewrite (iteration_elem _ _ _ _ Hit). }
  pose proof (list_min_spec l) as Hmin. destruct (list_min l) as [t|].
  - destruct Hmin as [Hin Hle]. split; [by apply Hl|]. intros id r t' ??. apply Hle, Hl. eauto.
  - intros id r Hr. destruct (completion_time r) as [t|] eqn:Ht; [|done].
    assert (t ∈ l) as Hin by (apply Hl; eauto). rewrite Hmin in Hin. by apply elem_of_nil in Hin.
Qed.

Definition answer_is_err (a : answer) : bool :=
  match a with
  | AReserve r => negb (is_ok r) | AUnit r => negb (is_ok r) | APurge r => negb (is_ok r)
  end.

(** A call that answers an error leaves the store as it was. *)
Lemma reservation_error_is_inert now c s a s' :
  run_call now c s = (a, s') → answer_is_err a = true → s' = s.
Proof.
  destruct c; simpl; unfold reserve, renew, complete, abandon, purge_completed_before;
    intros Hc Ha; repeat case_match; simplify_eq/=; done.
Qed.

Definition token_wf (x : cell) : Prop :=
  match x with
  | Some (mk_record _ (InProgress _ t _)) => (1 ≤ token_value t ≤ u64_max)%Z
  | _ => True
  end.

(** Every token a store that started empty hands out or compares with is a
    [u64] of at least one: the sequence reports exhaustion instead of wrapping. *)
Lemma tokens_stay_in_range tr s id : run ∅ tr s → token_wf (s !! id).
Proof.
  intros Hrun. eapply run_cell_invariant with (Q := λ _, True) (P := token_wf); eauto.
  - intros. by apply run_call_contract.
  - intros now c a x y _ Hstep Hx. destruct Hstep; simpl in *; try done; unfold u64_max in *; lia.
  - by apply Forall_true.
  - by rewrite lookup_empty.
Qed.

(** *** A worked run *)
Definition ex_key : OperationKey := mk_key "op-1".
Definition ex_id : OperationId := mk_operation_id None ex_key.
Definition ex_req (owner : string) (until : Z) : ReserveRequest :=
  mk_request None ex_key (mk_fingerprint "fp") (mk_owner owner) until.
Definition ex_resp : StoredServiceResponse := mk_response [Byte.x6f; Byte.x6b].
Definition ex_fence (owner : string) (n : Z) : OwnerFence :=
  mk_fence ex_id (mk_owner owner) (mk_token n).

Definition ex_held (owner : string) (n until : Z) : ReservationRecord :=
  mk_record (mk_fingerprint "fp") (InProgress (mk_owner owner) (mk_token n) until).
Definition ex_done (at_ : Z) : ReservationRecord :=
  mk_record (mk_fingerprint "fp") (Completed ex_resp at_).

(** Evaluates a call on a store given by its inserts, without computing the
    representation of the map. *)
Ltac eval_call :=
  cbn [run_call prod_map];
  unfold reserve, renew, complete, abandon;
  repeat (cbn; rewrite ?lookup_empty, ?lookup_insert_eq, ?lookup_delete_eq,
            ?lookup_singleton_eq);
  repeat (case_decide; try (exfalso; (congruence || lia)); cbn).

(** Abandoning restarts the token sequence, so a fence that a takeover had
    displaced can be honoured again: owner [a] reserves under token 1, its lease
    lapses and it takes the operation over under token 2, abandons that attempt
    and reserves afresh under token 1; the fence of the first, displaced attempt
    then completes the third one. *)
Lemma abandon_revives_displaced_fence :
  ∃ tr s, run ∅ tr s ∧
    snd <$> tr =
      [ AReserve (Ok (Fresh (mk_lease ex_id (mk_owner "a") (mk_token 1) 10)));
        AReserve (Ok (TakenOver (mk_lease ex_id (mk_owner "a") (mk_token 2) 20)));
        AUnit (Err StaleOwner);
        AUnit (Ok ());
        AReserve (Ok (Fresh (mk_lease ex_id (mk_owner "a") (mk_token 1) 30)));
        AUnit (Ok ()) ] ∧
    snd ∘ fst <$> tr =
      [ CReserve (ex_req "a" 10); CReserve (ex_req "a" 20);
        CComplete (ex_fence "a" 1) ex_resp; CAbandon (ex_fence "a" 2);
        CReserve (ex_req "a" 30); CComplete (ex_fence "a" 1) ex_resp ].
Proof.
  eexists [(0, _, _); (10, _, _); (11, _, _); (12, _, _); (13, _, _); (14, _, _)]%Z, _.
  split; [|split; reflexivity].
  repeat (eapply run_cons; [done|eval_call; reflexivity|]). apply run_nil.
Qed.

(** *** The hypotheses of the properties hold on the worked run *)
Definition ex_s1 : Records := <[ex_id := ex_held "a" 1 10]> ∅.
Definition ex_s2 : Records := <[ex_id := ex_held "b" 2 20]> ex_s1.
Definition ex_s3 : Records := <[ex_id := ex_done 15]> ex_s2.
Definition ex_s4 : Records := {[ex_id := ex_done 15]}.
Definition ex_it : list (OperationId * ReservationRecord) := [(ex_id, ex_done 15)].

Lemma ex_iteration : iteration ex_s4 ex_it.
Proof. unfold iteration, ex_s4. by rewrite map_to_list_singleton. Qed.

Lemma reservation_refines_port_witness :
  cell_step ex_id 10 (CReserve (ex_req "b" 20))
    (AReserve (Ok (TakenOver (mk_lease ex_id (mk_owner "b") (mk_token 2) 20))))
    (ex_s1 !! ex_id) (ex_s2 !! ex_id).
Proof.
  apply (reservation_refines_port 10 (CReserve (ex_req "b" 20)) ex_s1 _ ex_s2);
    [exact I|unfold ex_s2, ex_s1; eval_call; reflexivity|reflexivity].
Defined.

(** Another reservation, completed long ago, next to the one of the worked run. *)
Definition ex_other : OperationId := mk_operation_id None (mk_key "op-2").
Definition ex_rest : Records := {[ex_other := ex_done 5]}.

Lemma ex_two_iteration r r0 :
  iteration (<[ex_id := r]> (<[ex_id := r0]> ex_rest)) [(ex_id, r); (ex_other, ex_done 5)].
Proof.
  unfold iteration, ex_rest. rewrite insert_insert_eq. rewrite map_to_list_insert by by rewrite lookup_singleton_ne.
  by rewrite map_to_list_singleton.
Qed.

(** [b] takes the operation over from [a]; then [a] completes too late, retention
    removes the other reservation, [b] renews, and [a] is still fenced out. *)
Lemma takeover_fences_out_witness :
  ∃ s1 tr s2,
    reserve 10 (ex_req "b" 20) (<[ex_id := ex_held "a" 1 10]> ex_rest)
      = (Ok (TakenOver (mk_lease ex_id (mk_owner "b") (mk_token 2) 20)), s1) ∧
    run_keeping ex_id s1 tr s2 ∧
    tr = [ (11%Z, CComplete (ex_fence "a" 1) ex_resp, AUnit (Err StaleOwner));
           (12%Z, CPurge 6 5 [(ex_id, ex_held "b" 2 20); (ex_other, ex_done 5)],
            APurge (Ok 1%Z));
           (13%Z, CRenew (ex_fence "b" 2) 30, AUnit (Ok ())) ] ∧
    s2 !! ex_other = None ∧
    run_call 14 (CComplete (ex_fence "a" 1) ex_resp) s2 = (AUnit (Err StaleOwner), s2).
Proof.
  set (t1 := <[ex_id := ex_held "b" 2 20]> (<[ex_id := ex_held "a" 1 10]> ex_rest) : Records).
  set (t2 := delete ex_other t1 : Records).
  set (t3 := <[ex_id := ex_held "b" 2 30]> t2 : Records).
  assert (reserve 10 (ex_req "b" 20) (<[ex_id := ex_held "a" 1 10]> ex_rest)
    = (Ok (TakenOver (mk_lease ex_id (mk_owner "b") (mk_token 2) 20)), t1)) as Hr.
  { unfold t1. eval_call. reflexivity. }
  assert (t2 !! ex_id = Some (ex_held "b" 2 20)) as H2.
  { unfold t2. rewrite lookup_delete_ne by done. apply lookup_insert_eq. }
  assert (run_keeping ex_id t1
    [ (11%Z, CComplete (ex_fence "a" 1) ex_resp, AUnit (Err StaleOwner));
      (12%Z, CPurge 6 5 [(ex_id, ex_held "b" 2 20); (ex_other, ex_done 5)], APurge (Ok 1%Z));
      (13%Z, CRenew (ex_fence "b" 2) 30, AUnit (Ok ())) ] t3) as Hrun.
  { eapply run_keeping_cons; [exact I|unfold t1; eval_call; reflexivity
      |unfold t1; rewrite lookup_insert_eq; by eexists|].
    eapply (run_keeping_cons _ _ t2); [apply ex_two_iteration|reflexivity|rewrite H2; by eexists|].
    eapply (run_keeping_cons _ _ t3); [exact I| | |apply run_keeping_nil].
    - cbn [run_call]. unfold renew. cbn [fence_operation_id ex_fence]. rewrite H2. reflexivity.
    - unfold t3. rewrite lookup_insert_eq. by eexists. }
  exists t1. eexists. exists t3.
  split; [exact Hr|]. split; [exact Hrun|]. split; [reflexivity|]. split.
  { unfold t3, t2. rewrite lookup_insert_ne by done. apply lookup_delete_eq. }
  destruct (run_call 14 (CComplete (ex_fence "a" 1) ex_resp) t3) as [a s3] eqn:Hc.
  pose proof (takeover_fences_out 10 (ex_req "b" 20) _ _ t1 _ t3 14 (ex_fence "a" 1)
    (CComplete (ex_fence "a" 1) ex_resp) a s3 Hr Hrun eq_refl ltac:(simpl; lia) eq_refl Hc)
    as [-> ->]. reflexivity.
Defined.

Lemma live_lease_excludes_witness :
  (reserve 5 (ex_req "b" 20) ex_s1).1
  ≠ Ok (TakenOver (mk_lease ex_id (mk_owner "b") (mk_token 2) 20)).
Proof.
  apply (live_lease_excludes ex_id (mk_fingerprint "fp") (mk_owner "a") (mk_token 1) 10 ex_s1
    [] ex_s1); [apply lookup_insert_eq|constructor|constructor|lia|reflexivity].
Defined.

Lemma completion_is_replayed_witness :
  reserve 99 (ex_req "c" 120) ex_s3 = (Ok (Succeeded ex_resp), ex_s3).
Proof.
  apply (completion_is_replayed 15 (ex_fence "b" 2) ex_resp ex_s2 (ex_held "b" 2 20)
    ex_s3 [] ex_s3 99 (ex_req "c" 120));
    [apply lookup_insert_eq|unfold ex_s3, ex_s2; eval_call; reflexivity
    |constructor|constructor|reflexivity].
Defined.

Lemma purge_removes_only_completed_witness :
  (Z.of_nat (size (remove_keys [ex_id] ex_s4)) = Z.of_nat (size ex_s4) - 1)%Z.
Proof.
  apply (purge_removes_only_completed 16 5 ex_it ex_s4 1);
    [apply ex_iteration|reflexivity].
Defined.

Lemma oldest_completed_is_minimum_witness :
  ∃ id r, ex_s4 !! id = Some r ∧ completion_time r = Some 15%Z.
Proof.
  exact (proj1 (oldest_completed_is_minimum ex_s4 ex_it ex_iteration)).
Defined.

Lemma reservation_error_is_inert_witness : ex_s2 = ex_s2.
Proof.
  apply (reservation_error_is_inert 12 (CAbandon (ex_fence "a" 1)) ex_s2
    (AUnit (Err StaleOwner)));
    [unfold ex_s2, ex_s1; eval_call; reflexivity|reflexivity].
Defined.

Lemma tokens_stay_in_range_witness : token_wf (ex_s1 !! ex_id).
Proof.
  apply (tokens_stay_in_range [((0%Z, CReserve (ex_req "a" 10)),
    AReserve (Ok (Fresh (mk_lease ex_id (mk_owner "a") (mk_token 1) 10))))]).
  eapply run_cons; [exact I|eval_call; reflexivity|constructor].
Defined.
