(* ===== verification/EventStore.v ===== *)
(** * Event stores and units of work

    The port [EventStore]/[EventStoreUnitOfWork] (crates/persistence-api,
    persistence/event_store.rs), the in-memory store of crates/persistence-memory
    (persistence/event_store.rs) and the one crates/persistent-entity installs by
    default (persistence.rs), which also knows version offsets.  Streams and
    receipts sit behind one lock, so every method is a function on [Committed].
    A stream holds fewer than 2^63 events (a [Vec] is no longer than
    [isize::MAX]), so [len() as i64] is the length itself. *)

From S2P Require Import Prelude Identity.

(** ** Data *)
Definition StreamKey : Type := string * string * option string.
Definition ReceiptKey : Type := string * string * option string * string.
Definition OffsetKey : Type := string * string.

#[export] Instance StreamKey_eq_dec : EqDecision StreamKey := _.
#[export] Instance StreamKey_countable : Countable StreamKey := _.
#[export] Instance ReceiptKey_eq_dec : EqDecision ReceiptKey := _.
#[export] Instance ReceiptKey_countable : Countable ReceiptKey := _.
#[export] Instance OffsetKey_eq_dec : EqDecision OffsetKey := _.
#[export] Instance OffsetKey_countable : Countable OffsetKey := _.

Record Committed (E : Type) := mk_committed {
  streams : gmap StreamKey (list (StoredEvent E));
  receipts : gmap ReceiptKey OperationReceipt;
}.
Arguments mk_committed {E} streams receipts.
Arguments streams {E} _.
Arguments receipts {E} _.

(** The part of a unit of work that is its own; the committed state it publishes
    into is shared and passed to its methods. *)
Record UnitOfWork (E : Type) := mk_uow {
  staged : gmap StreamKey (list (StoredEvent E));
  staged_receipts : gmap ReceiptKey OperationReceipt;
}.
Arguments mk_uow {E} staged staged_receipts.
Arguments staged {E} _.
Arguments staged_receipts {E} _.

Definition Committed_default {E} : Committed E := mk_committed ∅ ∅.

Definition stream_key (aggregate_type aggregate_id : string) (tenant : option string) :
    StreamKey := (aggregate_type, aggregate_id, tenant).

Definition receipt_key (receipt : OperationReceipt) : ReceiptKey :=
  (receipt_aggregate_type receipt, receipt_aggregate_id receipt,
   id_str <$> receipt_tenant receipt, key_str (receipt_operation_key receipt)).

Definition reconcile (existing : option OperationReceipt) (incoming : OperationReceipt) :
    result PersistenceError unit :=
  match existing with
  | Some found =>
      if decide (receipt_fingerprint found ≠ receipt_fingerprint incoming)
      then Err (Conflict (join_id (receipt_aggregate_type incoming)
                            (receipt_aggregate_id incoming)) 0 0)
      else Ok ()
  | None => Ok ()
  end.

(** The order of [Vec<(String, String)>::sort]: lexicographic, strings by bytes. *)
Definition pair_leb (p q : string * string) : bool :=
  match String.compare p.1 q.1 with
  | Lt => true | Gt => false | Eq => String.leb p.2 q.2
  end.
Definition pair_le (p q : string * string) : Prop := pair_leb p q = true.
#[export] Instance pair_le_dec : RelDecision pair_le.
Proof. unfold pair_le. intros p q. apply _. Defined.

Lemma str_compare_refl s : String.compare s s = Eq.
Proof.
  pose proof (String.compare_antisym s s) as H. by destruct (String.compare s s).
Qed.

Lemma pair_le_spec p q :
  pair_le p q ↔ String.le p.1 q.1 ∧ (p.1 = q.1 → String.le p.2 q.2).
Proof.
  unfold pair_le, pair_leb, String.le, String.leb.
  destruct (String.compare p.1 q.1) eqn:Hc.
  - apply String.compare_eq_iff in Hc. split.
    + intros H. split; [done|]. intros _. by apply Is_true_true.
    + intros [_ H]. by apply Is_true_true, H.
  - split; [|done]. intros _. split; [done|]. intros Heq.
    by rewrite Heq, str_compare_refl in Hc.
  - split; [done|]. by intros [[] _].
Qed.

#[export] Instance pair_le_trans : Transitive pair_le.
Proof.
  intros p q r. rewrite !pair_le_spec. intros [H1 H2] [H3 H4]. split; [by trans q.1|].
  intros Heq. assert (p.1 = q.1) as Hpq.
  { apply (anti_symm String.le); [done|]. by rewrite Heq. }
  trans q.2; [by apply H2|]. apply H4. congruence.
Qed.

#[export] Instance pair_le_antisymm : AntiSymm (=) pair_le.
Proof.
  intros p q. rewrite !pair_le_spec. intros [H1 H2] [H3 H4].
  assert (p.1 = q.1) as Hpq by by apply (anti_symm String.le).
  destruct p, q; simpl in *; f_equal; [done|]. apply (anti_symm String.le); auto.
Qed.

#[export] Instance pair_le_total : Total pair_le.
Proof.
  intros p q. rewrite !pair_le_spec.
  destruct (decide (p.1 = q.1)) as [Heq|Hne].
  - rewrite Heq. destruct (total String.le p.2 q.2); [left|right]; split; done || by intros.
  - destruct (total String.le p.1 q.1); [left|right]; naive_solver.
Qed.

Section store.
Context {E : Type}.
Implicit Types (state : Committed E) (uow : UnitOfWork E) (events : list (StoredEvent E)).

Definition set_streams (f : gmap StreamKey (list (StoredEvent E)) →
    gmap StreamKey (list (StoredEvent E))) state : Committed E :=
  mk_committed (f (streams state)) (receipts state).

(** The events of a stream, absent streams having none. *)
Definition events_of state (k : StreamKey) : list (StoredEvent E) :=
  default [] (streams state !! k).

Definition stream_len (m : gmap StreamKey (list (StoredEvent E))) (k : StreamKey) : Z :=
  Z.of_nat (length (default [] (m !! k))).

(** ** The in-memory store of crates/persistence-memory *)

(** [entry(key).or_default()] puts an empty stream under an absent key before
    the version is compared. *)
Definition append (aggregate_type aggregate_id : string) (tenant_id : option string)
    (expected_version : Z) events state : result PersistenceError Z * Committed E :=
  match resolve_tenant tenant_id with
  | Err e => (Err e, state)
  | Ok tenant =>
      let key := stream_key aggregate_type aggregate_id tenant in
      let stream := events_of state key in
      let current := Z.of_nat (length stream) in
      if decide (current ≠ expected_version) then
        (Err (Conflict (join_id aggregate_type aggregate_id) expected_version current),
         set_streams <[key := stream]> state)
      else
        let count := Z.of_nat (length events) in
        (Ok (current + count)%Z, set_streams <[key := stream ++ events]> state)
  end.

Definition load (aggregate_type aggregate_id : string) (tenant_id : option string) state :
    result PersistenceError (list (StoredEvent E)) :=
  tenant ← resolve_tenant tenant_id;
  match streams state !! stream_key aggregate_type aggregate_id tenant with
  | Some events => Ok events
  | None => Err (NotFound (join_id aggregate_type aggregate_id))
  end.

(** [it] is the iteration order of the streams. *)
Definition list_aggregate_ids (tenant_id : option string)
    (it : list (StreamKey * list (StoredEvent E))) :
    result PersistenceError (list (string * string)) :=
  tenant ← resolve_tenant tenant_id;
  Ok (merge_sort pair_le
        (fst <$> filter (λ k : StreamKey, k.2 = tenant) (fst <$> it))).

Definition begin_uow : result PersistenceError (UnitOfWork E) := Ok (mk_uow ∅ ∅).

Definition find_receipt (aggregate_type aggregate_id : string) (tenant_id : option string)
    (operation_key : string) state : result PersistenceError (option OperationReceipt) :=
  tenant ← resolve_tenant tenant_id;
  Ok (receipts state !! (aggregate_type, aggregate_id, tenant, operation_key)).

Definition uow_append (aggregate_type aggregate_id : string) (tenant_id : option string)
    (expected_version : Z) events state uow : result PersistenceError Z * UnitOfWork E :=
  match resolve_tenant tenant_id with
  | Err e => (Err e, uow)
  | Ok tenant =>
      let key := stream_key aggregate_type aggregate_id tenant in
      let committed := stream_len (streams state) key in
      let in_staged := stream_len (staged uow) key in
      let current := (committed + in_staged)%Z in
      if decide (current ≠ expected_version) then
        (Err (Conflict (join_id aggregate_type aggregate_id) expected_version current), uow)
      else
        let count := Z.of_nat (length events) in
        (Ok (current + count)%Z,
         mk_uow (<[key := default [] (staged uow !! key) ++ events]> (staged uow))
           (staged_receipts uow))
  end.

Definition confirm_receipt (receipt : OperationReceipt) state uow :
    result PersistenceError unit * UnitOfWork E :=
  let key := receipt_key receipt in
  match reconcile (receipts state !! key) receipt with
  | Err e => (Err e, uow)
  | Ok _ =>
      match reconcile (staged_receipts uow !! key) receipt with
      | Err e => (Err e, uow)
      | Ok _ => (Ok (), mk_uow (staged uow) (<[key := receipt]> (staged_receipts uow)))
      end
  end.

(** [commit] iterates over both staged maps; [it1] and [it2] are the orders. *)
Definition publish_streams (it : list (StreamKey * list (StoredEvent E)))
    (m : gmap StreamKey (list (StoredEvent E))) : gmap StreamKey (list (StoredEvent E)) :=
  foldl (λ m '(key, events), <[key := default [] (m !! key) ++ events]> m) m it.

Definition publish_receipts (it : list (ReceiptKey * OperationReceipt))
    (m : gmap ReceiptKey OperationReceipt) : gmap ReceiptKey OperationReceipt :=
  foldl (λ m '(key, receipt), <[key := receipt]> m) m it.

Definition commit_in_order (it1 : list (StreamKey * list (StoredEvent E)))
    (it2 : list (ReceiptKey * OperationReceipt)) state :
    result PersistenceError unit * Committed E :=
  (Ok (), mk_committed (publish_streams it1 (streams state))
            (publish_receipts it2 (receipts state))).

Definition commit uow state : result PersistenceError unit * Committed E :=
  commit_in_order (map_to_list (staged uow)) (map_to_list (staged_receipts uow)) state.
End store.

(** ** The in-memory store of crates/persistent-entity *)
Section entity_store.
Context {E : Type} (version_offsets : gmap OffsetKey Z).
Implicit Types (state : Committed E) (uow : UnitOfWork E) (events : list (StoredEvent E)).

Definition entity_offset (aggregate_type aggregate_id : string) : Z :=
  default 0%Z (version_offsets !! (aggregate_type, aggregate_id)).

Definition entity_append (aggregate_type aggregate_id : string) (tenant_id : option string)
    (expected_version : Z) events state : result PersistenceError Z * Committed E :=
  match resolve_tenant tenant_id with
  | Err e => (Err e, state)
  | Ok tenant =>
      let offset := entity_offset aggregate_type aggregate_id in
      let key := stream_key aggregate_type aggregate_id tenant in
      let stream := events_of state key in
      let current_version := (Z.of_nat (length stream) + offset)%Z in
      if decide (current_version ≠ expected_version) then
        (Err (Conflict (join_id aggregate_type aggregate_id) expected_version
                current_version), set_streams <[key := stream]> state)
      else
        let stream := foldl (λ s event, s ++ [event]) stream events in
        (Ok (Z.of_nat (length stream) + offset)%Z, set_streams <[key := stream]> state)
  end.

(** [.max(0) as u64] *)
Definition stream_version_offset (aggregate_type aggregate_id : string)
    (_tenant_id : option string) : Z :=
  as_u64 (Z.max (entity_offset aggregate_type aggregate_id) 0).

Definition entity_uow_append (aggregate_type aggregate_id : string)
    (tenant_id : option string) (expected_version : Z) events state uow :
    result PersistenceError Z * UnitOfWork E :=
  match resolve_tenant tenant_id with
  | Err e => (Err e, uow)
  | Ok tenant =>
      let key := stream_key aggregate_type aggregate_id tenant in
      let offset := entity_offset aggregate_type aggregate_id in
      let committed := stream_len (streams state) key in
      let in_staged := stream_len (staged uow) key in
      let current := (offset + committed + in_staged)%Z in
      if decide (current ≠ expected_version) then
        (Err (Conflict (join_id aggregate_type aggregate_id) expected_version current), uow)
      else
        let count := Z.of_nat (length events) in
        (Ok (current + count)%Z,
         mk_uow (<[key := default [] (staged uow !! key) ++ events]> (staged uow))
           (staged_receipts uow))
  end.
End entity_store.

(** Declares that [offset] events precede the physical stream. *)
Definition with_version_offset (aggregate_type aggregate_id : string) (offset : Z)
    (version_offsets : gmap OffsetKey Z) : gmap OffsetKey Z :=
  <[(aggregate_type, aggregate_id) := offset]> version_offsets.

(** The remaining methods of this store are word for word those above. *)
Definition entity_load {E} := @load E.
Definition entity_list_aggregate_ids {E} := @list_aggregate_ids E.
Definition entity_begin {E} := @begin_uow E.
Definition entity_find_receipt {E} := @find_receipt E.
Definition entity_reconcile_receipt := reconcile.
Definition entity_receipt_key := receipt_key.
Definition entity_confirm_receipt {E} := @confirm_receipt E.
Definition entity_commit {E} := @commit E.

(** ** The port

    [σ] is the state behind the store and [υ] an open unit of work.  The laws
    speak through two views, the events and the receipts that are visible, and
    through what a unit of work has staged. *)
Class EventStoreOps (E σ υ : Type) := {
  es_append : string → string → option string → Z → list (StoredEvent E) → σ →
    result PersistenceError Z * σ;
  es_load : string → string → option string → σ →
    result PersistenceError (list (StoredEvent E));
  es_offset : string → string → option string → Z;
  es_begin : σ → result PersistenceError υ;
  es_find_receipt : string → string → option string → string → σ →
    result PersistenceError (option OperationReceipt);
  es_uow_append : string → string → option string → Z → list (StoredEvent E) → σ → υ →
    result PersistenceError Z * υ;
  es_confirm_receipt : OperationReceipt → σ → υ → result PersistenceError unit * υ;
  es_commit : υ → σ → result PersistenceError unit * σ;
}.

Class EventStoreLaws (E σ υ : Type) `{EventStoreOps E σ υ} := {
  es_events : σ → StreamKey → list (StoredEvent E);
  es_receipt : σ → ReceiptKey → option OperationReceipt;
  es_staged : υ → StreamKey → list (StoredEvent E);
  es_staged_receipt : υ → ReceiptKey → option OperationReceipt;
  law_offset_nonneg a i t : (0 ≤ es_offset a i t)%Z;
  law_append_ok a i t v evs s n s' :
    es_append a i t v evs s = (Ok n, s') →
    t ≠ Some "" ∧
    v = (es_offset a i t + Z.of_nat (length (es_events s (a, i, t))))%Z ∧
    n = (v + Z.of_nat (length evs))%Z ∧
    es_events s' (a, i, t) = es_events s (a, i, t) ++ evs ∧
    (∀ k, k ≠ (a, i, t) → es_events s' k = es_events s k) ∧
    (∀ k, es_receipt s' k = es_receipt s k);
  law_append_err a i t v evs s e s' :
    es_append a i t v evs s = (Err e, s') →
    (∀ k, es_events s' k = es_events s k) ∧ (∀ k, es_receipt s' k = es_receipt s k);
  law_load_ok a i t s evs :
    es_load a i t s = Ok evs → evs = es_events s (a, i, t);
  law_load_not_found a i t s x :
    es_load a i t s = Err (NotFound x) → es_events s (a, i, t) = [];
  law_begin s u :
    es_begin s = Ok u →
    (∀ k, es_staged u k = []) ∧ (∀ k, es_staged_receipt u k = None);
  law_find_receipt a i t key s o :
    es_find_receipt a i t key s = Ok o → o = es_receipt s (a, i, t, key);
  law_uow_append_ok a i t v evs s u n u' :
    es_uow_append a i t v evs s u = (Ok n, u') →
    t ≠ Some "" ∧
    v = (es_offset a i t + Z.of_nat (length (es_events s (a, i, t)))
         + Z.of_nat (length (es_staged u (a, i, t))))%Z ∧
    n = (v + Z.of_nat (length evs))%Z ∧
    es_staged u' (a, i, t) = es_staged u (a, i, t) ++ evs ∧
    (∀ k, k ≠ (a, i, t) → es_staged u' k = es_staged u k) ∧
    (∀ k, es_staged_receipt u' k = es_staged_receipt u k);
  law_confirm_ok r s u u' :
    es_confirm_receipt r s u = (Ok (), u') →
    (∀ r0, es_receipt s (receipt_key r) = Some r0 →
       receipt_fingerprint r0 = receipt_fingerprint r) ∧
    (∀ k, es_staged u' k = es_staged u k) ∧
    es_staged_receipt u' (receipt_key r) = Some r ∧
    (∀ k, k ≠ receipt_key r → es_staged_receipt u' k = es_staged_receipt u k);
  law_commit_ok u s s' :
    es_commit u s = (Ok (), s') →
    (∀ k, es_events s' k = es_events s k ++ es_staged u k) ∧
    (∀ k, es_receipt s' k =
       match es_staged_receipt u k with Some r => Some r | None => es_receipt s k end);
  law_commit_err u s e s' :
    es_commit u s = (Err e, s') →
    (∀ k, es_events s' k = es_events s k) ∧ (∀ k, es_receipt s' k = es_receipt s k);
}.

(** ** Lemmas *)
Section lemmas.
Context {E : Type}.
Implicit Types (state : Committed E) (uow : UnitOfWork E) (events : list (StoredEvent E)).

Lemma events_of_set_streams_eq state k evs :
  events_of (set_streams <[k := evs]> state) k = evs.
Proof. unfold events_of. simpl. by rewrite lookup_insert_eq. Qed.

Lemma events_of_set_streams_ne state k k' evs :
  k ≠ k' → events_of (set_streams <[k := evs]> state) k' = events_of state k'.
Proof. intros. unfold events_of. simpl. by rewrite lookup_insert_ne. Qed.

Lemma events_of_touch state k k' :
  events_of (set_streams <[k := events_of state k]> state) k' = events_of state k'.
Proof.
  destruct (decide (k = k')) as [->|];
    [apply events_of_set_streams_eq|by apply events_of_set_streams_ne].
Qed.

Lemma foldl_push {A} (l k : list A) : foldl (λ s x, s ++ [x]) l k = l ++ k.
Proof.
  revert l. induction k as [|x k IH]; intros l; simpl; [by rewrite app_nil_r|].
  by rewrite IH, <-app_assoc.
Qed.

Lemma publish_streams_not_in it m k :
  k ∉ it.*1 → publish_streams (E:=E) it m !! k = m !! k.
Proof.
  unfold publish_streams. revert m. induction it as [|[k' evs] it IH]; intros m Hk; cbn; [done|].
  rewrite IH by set_solver. rewrite lookup_insert_ne; set_solver.
Qed.

Lemma publish_streams_lookup it m k :
  NoDup it.*1 →
  publish_streams (E:=E) it m !! k =
  match (list_to_map it : gmap StreamKey _) !! k with
  | Some evs => Some (default [] (m !! k) ++ evs)
  | None => m !! k
  end.
Proof.
  unfold publish_streams. revert m.
  induction it as [|[k' evs] it IH]; intros m; cbn [fmap list_fmap foldl fst].
  { by rewrite list_to_map_nil, lookup_empty. }
  intros [Hk' Hd]%NoDup_cons. simpl. rewrite IH by done.
  destruct (decide (k = k')) as [->|Hne].
  - rewrite lookup_insert_eq, not_elem_of_list_to_map_1 by done.
    by rewrite lookup_insert_eq.
  - by rewrite !lookup_insert_ne by done.
Qed.

Lemma publish_receipts_lookup it m k :
  NoDup it.*1 →
  publish_receipts it m !! k =
  match (list_to_map it : gmap ReceiptKey _) !! k with
  | Some r => Some r
  | None => m !! k
  end.
Proof.
  unfold publish_receipts. revert m.
  induction it as [|[k' r] it IH]; intros m; cbn [fmap list_fmap foldl fst].
  { by rewrite list_to_map_nil, lookup_empty. }
  intros [Hk' Hd]%NoDup_cons. simpl. rewrite IH by done.
  destruct (decide (k = k')) as [->|Hne].
  - rewrite lookup_insert_eq, not_elem_of_list_to_map_1 by done.
    by rewrite lookup_insert_eq.
  - by rewrite !lookup_insert_ne by done.
Qed.

Lemma list_to_map_iteration `{Countable K} {V} (m : gmap K V) it :
  iteration m it → list_to_map it = m.
Proof.
  intros Hit. rewrite <-(list_to_map_to_list m). apply list_to_map_proper; [|done].
  by eapply iteration_NoDup_fst.
Qed.

(** The order in which [commit] iterates does not matter. *)
Lemma commit_in_order_spec it1 it2 uow state r state' :
  iteration (staged uow) it1 → iteration (staged_receipts uow) it2 →
  commit_in_order it1 it2 state = (r, state') →
  r = Ok () ∧
  (∀ k, streams state' !! k =
     match staged uow !! k with
     | Some evs => Some (events_of state k ++ evs)
     | None => streams state !! k
     end) ∧
  (∀ k, receipts state' !! k =
     match staged_receipts uow !! k with Some r => Some r | None => receipts state !! k end).
Proof.
  unfold commit_in_order. intros H1 H2 [= <- <-]. split_and!; [done| |]; intros k; simpl.
  - rewrite publish_streams_lookup by (by eapply iteration_NoDup_fst).
    by rewrite (list_to_map_iteration _ _ H1).
  - rewrite publish_receipts_lookup by (by eapply iteration_NoDup_fst).
    by rewrite (list_to_map_iteration _ _ H2).
Qed.

Lemma commit_spec uow state r state' :
  commit uow state = (r, state') →
  r = Ok () ∧
  (∀ k, streams state' !! k =
     match staged uow !! k with
     | Some evs => Some (events_of state k ++ evs)
     | None => streams state !! k
     end) ∧
  (∀ k, receipts state' !! k =
     match staged_receipts uow !! k with Some r => Some r | None => receipts state !! k end).
Proof. apply commit_in_order_spec; apply iteration_default. Qed.

Lemma reconcile_Ok existing incoming :
  reconcile existing incoming = Ok () ↔
  ∀ found, existing = Some found → receipt_fingerprint found = receipt_fingerprint incoming.
Proof.
  destruct existing as [found|]; simpl; [|naive_solver].
  case_decide; split; naive_solver.
Qed.
End lemmas.

(** ** The in-memory stores implement the port *)

(** Offsets are declared non-negative, so [.max(0) as u64] is the identity. *)
Definition offsets_ok (version_offsets : gmap OffsetKey Z) : Prop :=
  map_Forall (λ _ o, (0 ≤ o ≤ i64_max)%Z) version_offsets.

Section entity_lemmas.
Context {E : Type} (version_offsets : gmap OffsetKey Z).
Implicit Types (state : Committed E) (uow : UnitOfWork E) (events : list (StoredEvent E)).

Lemma entity_offset_bounds a i :
  offsets_ok version_offsets →
  (0 ≤ entity_offset version_offsets a i ≤ i64_max)%Z.
Proof.
  intros Hok. unfold entity_offset.
  destruct (version_offsets !! (a, i)) as [o|] eqn:Ho; simpl; [by eapply Hok|].
  unfold i64_max. lia.
Qed.

Lemma stream_version_offset_eq a i t :
  offsets_ok version_offsets →
  stream_version_offset version_offsets a i t = entity_offset version_offsets a i.
Proof.
  intros Hok. unfold stream_version_offset. pose proof (entity_offset_bounds a i Hok).
  rewrite Z.max_l by lia. apply as_u64_small. unfold i64_max, u64_max in *. lia.
Qed.

Lemma entity_append_Ok a i t v evs state n state' :
  entity_append version_offsets a i t v evs state = (Ok n, state') →
  t ≠ Some "" ∧
  v = (entity_offset version_offsets a i + Z.of_nat (length (events_of state (a, i, t))))%Z ∧
  n = (v + Z.of_nat (length evs))%Z ∧
  state' = set_streams <[(a, i, t) := events_of state (a, i, t) ++ evs]> state.
Proof.
  unfold entity_append. destruct (resolve_tenant_cases t) as [[-> ->]|[Ht ->]]; [done|].
  case_decide as Hd; [done|]. intros [= <- <-].
  rewrite foldl_push, length_app. unfold stream_key in *. split_and!; auto; lia.
Qed.

Lemma entity_append_Err a i t v evs state e state' :
  entity_append version_offsets a i t v evs state = (Err e, state') →
  (t = Some "" ∧ e = MissingTenant ∧ state' = state) ∨
  (t ≠ Some "" ∧
   (v ≠ entity_offset version_offsets a i + Z.of_nat (length (events_of state (a, i, t))))%Z ∧
   e = Conflict (join_id a i) v
         (Z.of_nat (length (events_of state (a, i, t))) + entity_offset version_offsets a i) ∧
   state' = set_streams <[(a, i, t) := events_of state (a, i, t)]> state).
Proof.
  unfold entity_append. destruct (resolve_tenant_cases t) as [[-> ->]|[Ht ->]].
  { intros [= <- <-]. by left. }
  case_decide as Hd; [|done]. intros [= <- <-]. right. unfold stream_key in *.
  split_and!; auto. lia.
Qed.

Lemma entity_uow_append_Ok a i t v evs state uow n uow' :
  entity_uow_append version_offsets a i t v evs state uow = (Ok n, uow') →
  t ≠ Some "" ∧
  v = (entity_offset version_offsets a i + Z.of_nat (length (events_of state (a, i, t)))
       + Z.of_nat (length (default [] (staged uow !! (a, i, t)))))%Z ∧
  n = (v + Z.of_nat (length evs))%Z ∧
  uow' = mk_uow (<[(a, i, t) := default [] (staged uow !! (a, i, t)) ++ evs]> (staged uow))
           (staged_receipts uow).
Proof.
  unfold entity_uow_append. destruct (resolve_tenant_cases t) as [[-> ->]|[Ht ->]]; [done|].
  case_decide as Hd; [done|]. intros [= <- <-].
  unfold stream_key, stream_len, events_of in *. split_and!; auto; lia.
Qed.

(** The two in-memory event stores agree: with no declared offsets the store
    of crates/persistent-entity appends, directly and in a unit of work, exactly
    as the one of crates/persistence-memory, whatever the arguments. *)
Lemma entity_store_is_memory_store a i t v evs state uow :
  (∀ a i, entity_offset version_offsets a i = 0%Z) →
  entity_append version_offsets a i t v evs state = append a i t v evs state ∧
  entity_uow_append version_offsets a i t v evs state uow
    = uow_append a i t v evs state uow.
Proof.
  intros H0. unfold entity_append, append, entity_uow_append, uow_append.
  destruct (resolve_tenant t) as [tenant|e]; [|done]. rewrite H0, Z.add_0_l. split.
  - rewrite Z.add_0_r. case_decide; [done|].
    by rewrite foldl_push, length_app, Nat2Z.inj_add, Z.add_0_r.
  - done.
Qed.
End entity_lemmas.

Lemma confirm_receipt_Ok {E} r state (uow uow' : UnitOfWork E) :
  confirm_receipt r state uow = (Ok (), uow') →
  (∀ r0, receipts state !! receipt_key r = Some r0 →
     receipt_fingerprint r0 = receipt_fingerprint r) ∧
  uow' = mk_uow (staged uow) (<[receipt_key r := r]> (staged_receipts uow)).
Proof.
  unfold confirm_receipt. destruct (reconcile (receipts state !! _) r) as [[]|] eqn:H1; [|done].
  destruct (reconcile (staged_receipts uow !! _) r) as [[]|] eqn:H2; [|done].
  intros [= <-]. split; [|done]. by apply reconcile_Ok.
Qed.

Definition entity_store_ops {E} (version_offsets : gmap OffsetKey Z) :
  EventStoreOps E (Committed E) (UnitOfWork E) := {|
  es_append := entity_append version_offsets;
  es_load := entity_load;
  es_offset := stream_version_offset version_offsets;
  es_begin := λ _, entity_begin;
  es_find_receipt := entity_find_receipt;
  es_uow_append := entity_uow_append version_offsets;
  es_confirm_receipt := entity_confirm_receipt;
  es_commit := entity_commit;
|}.

#[local] Obligation Tactic := idtac.

(** The store of crates/persistent-entity satisfies the laws of the port. *)
Program Definition entity_store_laws {E} (version_offsets : gmap OffsetKey Z)
    (Hok : offsets_ok version_offsets) :
  @EventStoreLaws E (Committed E) (UnitOfWork E) (entity_store_ops version_offsets) := {|
  es_events := events_of;
  es_receipt := λ s k, receipts s !! k;
  es_staged := λ u k, default [] (staged u !! k);
  es_staged_receipt := λ u k, staged_receipts u !! k;
|}.
Next Obligation.
  intros E offs Hok a i t. simpl. rewrite stream_version_offset_eq by done.
  by apply entity_offset_bounds.
Qed.
Next Obligation.
  intros E offs Hok a i t v evs s n s' (Ht & -> & -> & ->)%entity_append_Ok. simpl.
  rewrite stream_version_offset_eq by done. split_and!; try done.
  - apply events_of_set_streams_eq.
  - intros. by apply events_of_set_streams_ne.
Qed.
Next Obligation.
  intros E offs Hok a i t v evs s e s' [(_ & _ & ->)|(_ & _ & _ & ->)]%entity_append_Err; [done|].
  split; [|done]. intros k. apply events_of_touch.
Qed.
Next Obligation.
  intros E offs Hok a i t s evs. cbn. unfold entity_load, load, events_of.
  destruct (resolve_tenant_cases t) as [[-> ->]|[Ht ->]]; simpl; [done|].
  unfold stream_key. case_match; naive_solver.
Qed.
Next Obligation.
  intros E offs Hok a i t s x. cbn. unfold entity_load, load, events_of.
  destruct (resolve_tenant_cases t) as [[-> ->]|[Ht ->]]; simpl; [done|].
  unfold stream_key. case_match; naive_solver.
Qed.
Next Obligation. by intros E offs Hok s u [= <-]. Qed.
Next Obligation.
  intros E offs Hok a i t key s o. cbn. unfold entity_find_receipt, find_receipt.
  destruct (resolve_tenant_cases t) as [[-> ->]|[Ht ->]]; simpl; [done|]. by intros [= <-].
Qed.
Next Obligation.
  intros E offs Hok a i t v evs s u n u' (Ht & -> & -> & ->)%entity_uow_append_Ok. simpl.
  rewrite stream_version_offset_eq by done. split_and!; try done.
  - by rewrite lookup_insert_eq.
  - intros. by rewrite lookup_insert_ne.
Qed.
Next Obligation.
  intros E offs Hok r s u u' [Hfp ->]%confirm_receipt_Ok. simpl. split_and!; try done.
  - apply lookup_insert_eq.
  - intros. by rewrite lookup_insert_ne.
Qed.
Next Obligation.
  intros E offs Hok u s s' (_ & H1 & H2)%commit_spec. split; intros k; [|apply H2].
  unfold events_of. rewrite H1. destruct (staged u !! k); simpl; [done|by rewrite app_nil_r].
Qed.
Next Obligation. by intros E offs Hok u s e s' (? & _ & _)%commit_spec. Qed.

(** ** Properties of the stores *)
Section properties.
Context {E : Type}.
Implicit Types (state : Committed E) (uow : UnitOfWork E) (events : list (StoredEvent E)).

(** Optimistic concurrency of [append]: a blank tenant is refused; an expected
    version other than the length of the stream is refused with both versions
    and leaves the events of every stream as they were; otherwise the events
    are added at the end of that stream only, the new version is their number,
    and [load] then returns them. *)
Lemma append_optimistic_concurrency a i t v evs state r state' :
  append a i t v evs state = (r, state') →
  receipts state' = receipts state ∧
  match r with
  | Ok n =>
      v = Z.of_nat (length (events_of state (a, i, t))) ∧
      n = (v + Z.of_nat (length evs))%Z ∧
      load a i t state' = Ok (events_of state (a, i, t) ++ evs) ∧
      ∀ k, k ≠ (a, i, t) → streams state' !! k = streams state !! k
  | Err MissingTenant => t = Some "" ∧ state' = state
  | Err (Conflict x expected actual) =>
      x = join_id a i ∧ expected = v ∧
      actual = Z.of_nat (length (events_of state (a, i, t))) ∧ v ≠ actual ∧
      ∀ k, events_of state' k = events_of state k
  | Err _ => False
  end.
Proof.
  unfold append. destruct (resolve_tenant_cases t) as [[-> ->]|[Ht Hr]].
  { by intros [= <- <-]. }
  rewrite Hr. unfold stream_key. case_decide as Hd; intros [= <- <-].
  - split_and!; auto. intros k. apply events_of_touch.
  - split_and!; auto; [lia| |].
    + unfold load. rewrite Hr. simpl. unfold stream_key. by rewrite lookup_insert_eq.
    + intros k Hk. simpl. by rewrite lookup_insert_ne.
Qed.

(** A batch of appends, directly and inside one unit of work. *)
Definition append_req : Type := (string * string * option string * Z * list (StoredEvent E)).

Fixpoint append_all (reqs : list append_req) state :
    result PersistenceError (list Z) * Committed E :=
  match reqs with
  | [] => (Ok [], state)
  | (a, i, t, v, evs) :: reqs =>
      match append a i t v evs state with
      | (Err e, state) => (Err e, state)
      | (Ok n, state) => prod_map (fmap (cons n)) id (append_all reqs state)
      end
  end.

Fixpoint uow_append_all (reqs : list append_req) state uow :
    result PersistenceError (list Z) * UnitOfWork E :=
  match reqs with
  | [] => (Ok [], uow)
  | (a, i, t, v, evs) :: reqs =>
      match uow_append a i t v evs state uow with
      | (Err e, uow) => (Err e, uow)
      | (Ok n, uow) => prod_map (fmap (cons n)) id (uow_append_all reqs state uow)
      end
  end.

(** [state'] is what publishing [uow] into [state] would give. *)
Definition overlays state uow state' : Prop :=
  receipts state' = receipts state ∧ staged_receipts uow = ∅ ∧
  ∀ k, streams state' !! k =
    match staged uow !! k with
    | Some evs => Some (events_of state k ++ evs)
    | None => streams state !! k
    end.

Lemma overlays_commit state uow state' state2 :
  overlays state uow state' → commit uow state = (Ok (), state2) → state2 = state'.
Proof.
  intros (Hr & Hn & Hs) (_ & Hc & Hcr)%commit_spec. destruct state', state2; simpl in *.
  f_equal; apply map_eq; intros k; [by rewrite Hs|]. by rewrite Hcr, Hn, lookup_empty, Hr.
Qed.

(** The store after a refused direct append next to the store it was asked of: the
    same, or with an empty stream under the key of that append, which had none. *)
Definition touched (reqs : list append_req) state state1 : Prop :=
  state1 = state ∨
  ∃ a i t v evs, (a, i, t, v, evs) ∈ reqs ∧ streams state !! stream_key a i t = None ∧
    state1 = set_streams <[stream_key a i t := []]> state.

Lemma touch_present (m : Committed E) k :
  set_streams <[k := events_of m k]> m = m ∨
  streams m !! k = None ∧ set_streams <[k := events_of m k]> m = set_streams <[k := []]> m.
Proof.
  destruct m as [m rs]. unfold set_streams, events_of. simpl.
  destruct (m !! k) as [l|] eqn:Hk; simpl; [left|by right]. by rewrite insert_id.
Qed.

Lemma overlays_append state uow state' a i t v evs r state1 :
  overlays state uow state' → append a i t v evs state' = (r, state1) →
  ∃ uow1, uow_append a i t v evs state uow = (r, uow1) ∧
    match r with
    | Ok _ => overlays state uow1 state1
    | Err _ => uow1 = uow ∧ touched [(a, i, t, v, evs)] state' state1
    end.
Proof.
  intros (Hr & Hn & Ho). unfold append, uow_append.
  destruct (resolve_tenant_cases t) as [[-> ->]|[Ht ->]].
  { intros [= <- <-]. eexists. split; [done|]. split; [done|by left]. }
  set (k := stream_key a i t).
  assert (events_of state' k = events_of state k ++ default [] (staged uow !! k)) as Hk.
  { unfold events_of at 1. rewrite Ho. destruct (staged uow !! k); [done|].
    simpl. by rewrite app_nil_r. }
  assert (Hlen : (stream_len (streams state) k + stream_len (staged uow) k
                  = Z.of_nat (length (events_of state' k)))%Z).
  { unfold stream_len. rewrite Hk, length_app. unfold events_of. lia. }
  rewrite Hlen. case_decide; intros [= <- <-]; eexists; (split; [done|]).
  - split; [done|]. destruct (touch_present state' k) as [->|[Hnone ->]]; [by left|right].
    exists a, i, t, v, evs. split_and!; [by left|done|done].
  - split_and!; [done|done|]. intros k'. simpl. destruct (decide (k = k')) as [<-|Hne].
    + rewrite !lookup_insert_eq, Hk. by rewrite app_assoc.
    + by rewrite !lookup_insert_ne.
Qed.

Lemma overlays_append_all reqs state uow state' r state1 :
  overlays state uow state' → append_all reqs state' = (r, state1) →
  ∃ uow1 state2, uow_append_all reqs state uow = (r, uow1) ∧ overlays state uow1 state2 ∧
    match r with Ok _ => state1 = state2 | Err _ => touched reqs state2 state1 end.
Proof.
  revert uow state' r state1. induction reqs as [|[[[[a i] t] v] evs] reqs IH];
    intros uow state' r state1 Ho; simpl.
  { intros [= <- <-]. by exists uow, state'. }
  destruct (append a i t v evs state') as [[n|e] s2] eqn:Ha;
    destruct (overlays_append _ _ _ _ _ _ _ _ _ _ Ho Ha) as (uow2 & -> & Ho2).
  - destruct (append_all reqs s2) as [r3 s3] eqn:Hall. intros [= <- <-].
    destruct (IH _ _ _ _ Ho2 Hall) as (uow3 & s4 & -> & Ho3 & Hm).
    exists uow3, s4. split; [done|]. split; [done|]. destruct r3 as [l|e]; [done|]. simpl.
    destruct Hm as [->|(a' & i' & t' & v' & evs' & Hin & Hrest)]; [by left|right].
    exists a', i', t', v', evs'. split; [by right|done].
  - intros [= <- <-]. destruct Ho2 as [-> Ht]. exists uow, state'. split_and!; [done..|].
    destruct Ht as [->|(a' & i' & t' & v' & evs' & Hin & Hrest)]; [by left|right].
    exists a', i', t', v', evs'. split; [|done].
    apply list_elem_of_singleton in Hin as ->. by left.
Qed.

(** C18: A unit of work is equivalent to appending directly: the same batch of
    appends gets the same versions or the same first error in a unit of work as
    it would on the store.  When all succeed, committing leaves the very store,
    streams and receipts, the direct appends leave; when one is refused,
    committing what was staged before it leaves the same store except that the
    refused direct append may have put an empty stream under its own key, which
    had none: no stream has other events, and [load] differs only in answering
    no events there instead of [NotFound]. *)
Theorem unit_of_work_is_direct_appends reqs state r state1 uow r' state2 :
  append_all reqs state = (r, state1) →
  uow_append_all reqs state (mk_uow ∅ ∅) = (r', uow) →
  commit uow state = (Ok (), state2) →
  r' = r ∧ (∀ k, events_of state2 k = events_of state1 k) ∧
  match r with
  | Ok _ => state1 = state2
  | Err _ => touched reqs state2 state1
  end.
Proof.
  intros Hd Hu Hc.
  assert (overlays state (mk_uow ∅ ∅) state) as Ho.
  { split_and!; [done..|]. intros k. simpl. by rewrite lookup_empty. }
  destruct (overlays_append_all _ _ _ _ _ _ Ho Hd) as (uow' & s2 & Hu' & Ho' & Hm).
  rewrite Hu in Hu'. simplify_eq.
  pose proof (overlays_commit _ _ _ _ Ho' Hc) as ->. split; [done|]. split; [|done].
  intros k. destruct r as [l|e]; [by rewrite Hm|].
  destruct Hm as [->|(a & i & t & v & evs & _ & Hnone & ->)]; [done|].
  destruct (decide (stream_key a i t = k)) as [<-|Hne].
  - rewrite events_of_set_streams_eq. unfold events_of. by rewrite Hnone.
  - by rewrite events_of_set_streams_ne.
Qed.

(** A receipt is bound to its request: confirming it is refused when the store
    holds one under the same identity with another fingerprint, and otherwise a
    commit makes it, together with the staged events, what [find_receipt] and
    [load] see. *)
Lemma receipt_commits_with_events receipt state uow r uow1 state2 :
  (∀ t, receipt_tenant receipt = Some t → id_str t ≠ "") →
  staged_receipts uow = ∅ →
  confirm_receipt receipt state uow = (r, uow1) →
  match receipts state !! receipt_key receipt with
  | Some r0 =>
      receipt_fingerprint r0 ≠ receipt_fingerprint receipt →
      r = Err (Conflict (join_id (receipt_aggregate_type receipt)
                           (receipt_aggregate_id receipt)) 0 0) ∧ uow1 = uow
  | None => r = Ok ()
  end ∧
  (r = Ok () → commit uow1 state = (Ok (), state2) →
   find_receipt (receipt_aggregate_type receipt) (receipt_aggregate_id receipt)
     (id_str <$> receipt_tenant receipt) (key_str (receipt_operation_key receipt)) state2
   = Ok (Some receipt) ∧
   ∀ k, events_of state2 k = events_of state k ++ default [] (staged uow !! k)).
Proof.
  intros Hne Hemp Hc. split.
  - unfold confirm_receipt in Hc. rewrite Hemp, lookup_empty in Hc.
    destruct (receipts state !! receipt_key receipt) as [r0|]; simpl in Hc.
    + intros Hfp. rewrite decide_True in Hc by done. naive_solver.
    + naive_solver.
  - intros -> (_ & H1 & H2)%commit_spec. apply confirm_receipt_Ok in Hc as [_ ->].
    simpl in *. split.
    + unfold find_receipt.
      destruct (resolve_tenant_cases (id_str <$> receipt_tenant receipt)) as [[Heq _]|[_ ->]].
      { apply fmap_Some in Heq as (t & Ht & Heq). by destruct (Hne t Ht). }
      simpl. do 2 f_equal. change (receipts state2 !! receipt_key receipt = Some receipt).
      by rewrite H2, lookup_insert_eq.
    + intros k. unfold events_of. rewrite H1.
      destruct (staged uow !! k); simpl; [done|by rewrite app_nil_r].
Qed.

(** A refused [append] is visible: it leaves an empty stream behind under a key
    that had none, so [load], which answered [NotFound] before, answers with no
    events afterwards. *)
Lemma conflicting_append_materialises_stream a i t v evs state :
  t ≠ Some "" → streams state !! stream_key a i t = None → v ≠ 0%Z →
  load a i t state = Err (NotFound (join_id a i)) ∧
  ∃ state', append a i t v evs state = (Err (Conflict (join_id a i) v 0), state') ∧
    load a i t state' = Ok [].
Proof.
  intros Ht Hnone Hv. unfold append, load.
  destruct (resolve_tenant_cases t) as [[-> _]|[_ ->]]; [done|]. cbn.
  unfold events_of. rewrite Hnone. split; [done|]. simpl.
  rewrite decide_True by done. eexists; split; [done|]. cbn. by rewrite lookup_insert_eq.
Qed.

Lemma uow_append_fresh a i t evs state :
  t ≠ Some "" →
  uow_append a i t (Z.of_nat (length (events_of state (a, i, t)))) evs state (mk_uow ∅ ∅)
  = (Ok (Z.of_nat (length (events_of state (a, i, t))) + Z.of_nat (length evs))%Z,
     mk_uow {[(a, i, t) := evs]} ∅).
Proof.
  intros Ht. unfold uow_append.
  destruct (resolve_tenant_cases t) as [[-> _]|[_ ->]]; [done|].
  assert (stream_len (streams state) (stream_key a i t)
          = Z.of_nat (length (events_of state (a, i, t)))) as -> by done.
  assert (stream_len (staged (mk_uow (E:=E) ∅ ∅)) (stream_key a i t) = 0%Z) as -> by done.
  rewrite Z.add_0_r, decide_False by lia. done.
Qed.

Lemma confirm_receipt_fresh r state m :
  receipts state !! receipt_key r = None →
  confirm_receipt r state (mk_uow m ∅) = (Ok (), mk_uow m {[receipt_key r := r]}).
Proof. intros Hr. unfold confirm_receipt. by rewrite Hr. Qed.

Lemma events_of_commit uow state state' k :
  commit uow state = (Ok (), state') →
  events_of state' k = events_of state k ++ default [] (staged uow !! k).
Proof.
  intros (_ & H1 & _)%commit_spec. unfold events_of. rewrite H1.
  destruct (staged uow !! k); simpl; [done|by rewrite app_nil_r].
Qed.

(** Versions and receipts are checked when a unit of work stages, not when it
    commits: of two units of work begun on the same state, that append to the
    same stream at the same expected version under the same operation key, both
    commit; the stream ends up with the events of both and the receipt of the
    second replaces the first, whatever their fingerprints. *)
Lemma overlapping_units_both_commit a i t evs1 evs2 state r1 r2 :
  t ≠ Some "" → receipt_key r1 = receipt_key r2 →
  receipts state !! receipt_key r1 = None →
  let v := Z.of_nat (length (events_of state (a, i, t))) in
  ∃ u1 u1' u2 u2' s1 s2,
    uow_append a i t v evs1 state (mk_uow ∅ ∅) = (Ok (v + Z.of_nat (length evs1))%Z, u1) ∧
    uow_append a i t v evs2 state (mk_uow ∅ ∅) = (Ok (v + Z.of_nat (length evs2))%Z, u2) ∧
    confirm_receipt r1 state u1 = (Ok (), u1') ∧
    confirm_receipt r2 state u2 = (Ok (), u2') ∧
    commit u1' state = (Ok (), s1) ∧ commit u2' s1 = (Ok (), s2) ∧
    events_of s2 (a, i, t) = events_of state (a, i, t) ++ evs1 ++ evs2 ∧
    receipts s2 !! receipt_key r1 = Some r2.
Proof.
  intros Ht Hk Hnone v. subst v.
  pose proof (uow_append_fresh a i t evs1 state Ht) as Ha1.
  pose proof (uow_append_fresh a i t evs2 state Ht) as Ha2.
  pose proof (confirm_receipt_fresh r1 state {[(a, i, t) := evs1]} Hnone) as Hc1.
  assert (receipts state !! receipt_key r2 = None) as Hnone2 by by rewrite <-Hk.
  pose proof (confirm_receipt_fresh r2 state {[(a, i, t) := evs2]} Hnone2) as Hc2.
  eexists _, _, _, _, _, _. do 4 (split; [eassumption|]).
  do 2 (split; [reflexivity|]). split.
  - rewrite (events_of_commit _ _ _ _ eq_refl), (events_of_commit _ _ _ _ eq_refl). simpl.
    by rewrite !lookup_singleton_eq, <-app_assoc.
  - edestruct (commit_spec (mk_uow {[(a, i, t) := evs2]} {[receipt_key r2 := r2]}))
      as (_ & _ & Hr); [reflexivity|]. rewrite Hr. simpl.
    by rewrite Hk, lookup_singleton_eq.
Qed.

(** The listing is exact and deterministic: whatever the iteration order, the
    same sorted list results, and it names exactly the aggregates with a stream
    under the given tenant. *)
Lemma list_aggregate_ids_exact tenant state it it' ids :
  iteration (streams state) it → iteration (streams state) it' →
  list_aggregate_ids tenant it = Ok ids →
  list_aggregate_ids tenant it' = Ok ids ∧ Sorted pair_le ids ∧
  ∀ a i, (a, i) ∈ ids ↔ is_Some (streams state !! stream_key a i tenant).
Proof.
  intros Hit Hit'. unfold list_aggregate_ids.
  destruct (resolve_tenant_cases tenant) as [[_ ->]|[_ ->]]; [done|]. simpl. intros [= <-].
  split_and!.
  - f_equal. apply (StronglySorted_unique pair_le).
    + apply (StronglySorted_merge_sort _).
    + apply (StronglySorted_merge_sort _).
    + rewrite !merge_sort_Permutation. unfold iteration in *. by rewrite Hit, Hit'.
  - apply (Sorted_merge_sort _).
  - intros a i. rewrite merge_sort_Permutation, list_elem_of_fmap. split.
    + intros (((a', i') & t) & Heq & [Ht Hin]%list_elem_of_filter). simpl in *.
      apply list_elem_of_fmap in Hin as ((k & evs) & Hk & Hin). simplify_eq/=.
      apply (iteration_elem _ _ _ _ Hit) in Hin. eauto.
    + intros [evs Hs]. exists (a, i, tenant). split; [done|].
      apply list_elem_of_filter. split; [done|]. apply list_elem_of_fmap.
      exists ((a, i, tenant), evs). split; [done|]. by apply (iteration_elem _ _ _ _ Hit).
Qed.
End properties.

(** ** Witnesses *)
Definition ex_event : StoredEvent nat := StoredEvent_new 7.
Definition ex_key : StreamKey := stream_key "account" "1" (Some "acme").
Definition ex_committed : Committed nat := mk_committed {[ex_key := [ex_event]]} ∅.
Definition ex_receipt (fp : string) : OperationReceipt :=
  mk_receipt "account" "1" (Some (mk_id "acme")) (mk_key "op-1") (mk_fingerprint fp)
    (Events 2 2).

Lemma ex_committed_events : events_of ex_committed ex_key = [ex_event].
Proof. unfold events_of, ex_committed. simpl. by rewrite lookup_singleton_eq. Qed.

Lemma entity_store_is_memory_store_witness :
  entity_append ∅ "account" "1" (Some "acme") 1 [ex_event] ex_committed
  = append "account" "1" (Some "acme") 1 [ex_event] ex_committed ∧
  entity_uow_append ∅ "account" "1" (Some "acme") 1 [ex_event] ex_committed (mk_uow ∅ ∅)
  = uow_append "account" "1" (Some "acme") 1 [ex_event] ex_committed (mk_uow ∅ ∅).
Proof. apply entity_store_is_memory_store. intros. reflexivity. Defined.

Lemma ex_append_ok :
  append "account" "1" (Some "acme") 1 [ex_event] ex_committed
  = (Ok 2%Z, mk_committed (<[ex_key := [ex_event; ex_event]]> {[ex_key := [ex_event]]}) ∅).
Proof.
  unfold append. cbn [resolve_tenant]. rewrite decide_False by done.
  change (stream_key "account" "1" (Some "acme")) with ex_key.
  by rewrite ex_committed_events.
Qed.

Lemma append_optimistic_concurrency_witness :
  load "account" "1" (Some "acme")
    (mk_committed (<[ex_key := [ex_event; ex_event]]> {[ex_key := [ex_event]]}) ∅)
  = Ok (events_of ex_committed ex_key ++ [ex_event]).
Proof. apply (append_optimistic_concurrency _ _ _ _ _ _ _ _ ex_append_ok). Defined.

(** Two appends to a stream that exists, then a refused one to a stream that does
    not: both ways answer the same conflict, and the direct way alone leaves an empty
    stream behind. *)
Definition ex_reqs : list (append_req (E:=nat)) :=
  [("account", "1", Some "acme", 1%Z, [ex_event]); ("account", "2", None, 3%Z, [ex_event])].

Lemma unit_of_work_is_direct_appends_witness :
  let direct := append_all ex_reqs ex_committed in
  let staged_ := uow_append_all ex_reqs ex_committed (mk_uow ∅ ∅) in
  let committed := (commit staged_.2 ex_committed).2 in
  staged_.1 = direct.1 ∧ direct.1 = Err (Conflict "account-2" 3 0) ∧
  (∀ k, events_of committed k = events_of direct.2 k) ∧
  touched ex_reqs committed direct.2.
Proof.
  intros direct staged_ committed.
  assert (direct.1 = Err (Conflict "account-2" 3 0)) as He by by vm_compute.
  pose proof (unit_of_work_is_direct_appends ex_reqs ex_committed direct.1 direct.2
    staged_.2 staged_.1 committed (surjective_pairing _) (surjective_pairing _)) as H.
  destruct (commit_spec staged_.2 ex_committed _ _ (surjective_pairing _)) as [Hok _].
  destruct H as (H1 & H2 & H3).
  { rewrite <-Hok. apply surjective_pairing. }
  split; [exact H1|]. split; [exact He|]. split; [exact H2|].
  rewrite He in H3. exact H3.
Defined.

Lemma receipt_commits_with_events_witness :
  ∃ state2,
    commit (mk_uow ∅ {[receipt_key (ex_receipt "f") := ex_receipt "f"]}) ex_committed
      = (Ok (), state2) ∧
    find_receipt "account" "1" (Some "acme") "op-1" state2 = Ok (Some (ex_receipt "f")).
Proof.
  eexists. split; [reflexivity|].
  eapply (receipt_commits_with_events (ex_receipt "f") ex_committed (mk_uow ∅ ∅) (Ok ())
            (mk_uow ∅ {[receipt_key (ex_receipt "f") := ex_receipt "f"]}));
    [by intros t [= <-]|reflexivity|by apply confirm_receipt_fresh|reflexivity|reflexivity].
Defined.

Lemma conflicting_append_materialises_stream_witness :
  load "account" "2" None (Committed_default (E:=nat)) = Err (NotFound "account-2") ∧
  ∃ state', append "account" "2" None 3 [ex_event] Committed_default
    = (Err (Conflict "account-2" 3 0), state') ∧ load "account" "2" None state' = Ok [].
Proof. apply conflicting_append_materialises_stream; [done|reflexivity|lia]. Defined.

Lemma overlapping_units_both_commit_witness :
  ∃ u1 u1' u2 u2' s1 s2,
    uow_append "account" "2" None 0 [ex_event] (Committed_default (E:=nat)) (mk_uow ∅ ∅)
      = (Ok 1%Z, u1) ∧
    uow_append "account" "2" None 0 [ex_event] (Committed_default (E:=nat)) (mk_uow ∅ ∅)
      = (Ok 1%Z, u2) ∧
    confirm_receipt (ex_receipt "f") Committed_default u1 = (Ok (), u1') ∧
    confirm_receipt (ex_receipt "g") Committed_default u2 = (Ok (), u2') ∧
    commit u1' Committed_default = (Ok (), s1) ∧ commit u2' s1 = (Ok (), s2) ∧
    events_of s2 (stream_key "account" "2" None) = [ex_event; ex_event] ∧
    receipts s2 !! receipt_key (ex_receipt "f") = Some (ex_receipt "g").
Proof.
  apply (overlapping_units_both_commit "account" "2" None [ex_event] [ex_event]
           Committed_default (ex_receipt "f") (ex_receipt "g")); [done|reflexivity..].
Defined.

Lemma list_aggregate_ids_exact_witness :
  list_aggregate_ids (Some "acme") [(ex_key, [ex_event])] = Ok [("account", "1")] ∧
  Sorted pair_le [("account", "1")].
Proof.
  destruct (list_aggregate_ids_exact (Some "acme") ex_committed [(ex_key, [ex_event])]
              [(ex_key, [ex_event])] [("account", "1")]) as (H1 & H2 & _);
    [by unfold iteration, ex_committed; cbn [streams]; rewrite map_to_list_singleton..|reflexivity|].
  split; [exact H1|exact H2].
Defined.
