(* ===== verification/Snapshots.v ===== *)
(** * Snapshot stores and the aggregate repository

    The port [Snapshot] (crates/persistence-api, persistence/snapshot.rs) with the
    two in-memory stores, the one of crates/persistence-memory and the one
    crates/persistent-entity installs by default, and the aggregate repository of
    crates/persistence-memory.  [J] stands for [serde_json::Value]. *)

From S2P Require Import Prelude Identity.

(** ** The snapshot port

    [τ] is the state behind the store. *)
Class SnapshotOps (J τ : Type) := {
  ss_save : string → option string → Z → J → τ → result PersistenceError unit * τ;
  ss_load : string → option string → τ → result PersistenceError (option (Z * J));
}.

(** What a store promises: what was saved last under an aggregate and a tenant is
    what is loaded, nothing else changes, and the empty tenant is no tenant. *)
Class SnapshotLaws (J τ : Type) `{SnapshotOps J τ} := {
  ss_view : τ → string → option string → option (Z * J);
  law_ss_load_ok a t s o : ss_load a t s = Ok o → o = ss_view s a t;
  law_ss_save_ok a t v p s s' :
    ss_save a t v p s = (Ok (), s') →
    ss_view s' a t = Some (v, p) ∧
    ∀ a' t', (a', t') ≠ (a, t) → ss_view s' a' t' = ss_view s a' t';
  law_ss_save_err a t v p s e s' : ss_save a t v p s = (Err e, s') → s' = s;
  law_ss_no_tenant a s :
    ss_load a (Some "") s = Err MissingTenant ∧
    ∀ v p, ss_save a (Some "") v p s = (Err MissingTenant, s);
}.

(** ** The store of crates/persistence-memory *)
Module MemorySnapshots.
Definition SnapshotKey : Type := string * option string.

Section store.
Context {J : Type}.

Record InMemorySnapshotStore := mk_store {
  snapshots : gmap SnapshotKey (Z * J);
}.

Definition new : InMemorySnapshotStore := mk_store ∅.

Definition save_snapshot (aggregate_id : string) (tenant_id : option string)
    (version : Z) (payload : J) (self : InMemorySnapshotStore) :
    result PersistenceError unit * InMemorySnapshotStore :=
  match resolve_tenant tenant_id with
  | Err e => (Err e, self)
  | Ok tenant => (Ok (), mk_store (<[(aggregate_id, tenant) := (version, payload)]> (snapshots self)))
  end.

Definition load_snapshot (aggregate_id : string) (tenant_id : option string)
    (self : InMemorySnapshotStore) : result PersistenceError (option (Z * J)) :=
  tenant ← resolve_tenant tenant_id;
  match snapshots self !! (aggregate_id, tenant) with
  | Some (v, p) => Ok (Some (v, p))
  | None => Ok None
  end.
End store.
Arguments InMemorySnapshotStore : clear implicits.
End MemorySnapshots.

(** ** The store of crates/persistent-entity *)
Module EntitySnapshots.
Section store.
Context {J : Type}.

Record InMemorySnapshotStore := mk_store {
  snapshots : gmap string (Z * J);
}.

Definition new : InMemorySnapshotStore := mk_store ∅.

Definition save_snapshot (stream_id : string) (_tenant_id : option string)
    (version : Z) (payload : J) (self : InMemorySnapshotStore) :
    result PersistenceError unit * InMemorySnapshotStore :=
  (Ok (), mk_store (<[stream_id := (version, payload)]> (snapshots self))).

Definition load_snapshot (stream_id : string) (_tenant_id : option string)
    (self : InMemorySnapshotStore) : result PersistenceError (option (Z * J)) :=
  Ok (snapshots self !! stream_id).
End store.
Arguments InMemorySnapshotStore : clear implicits.
End EntitySnapshots.

(** The store installed when the host configures none: it keeps nothing. *)
Module NoopSnapshots.
Definition save_snapshot {J} (_aggregate_id : string) (_tenant_id : option string)
    (_version : Z) (_payload : J) (self : unit) : result PersistenceError unit * unit :=
  (Ok (), self).
Definition load_snapshot {J} (_aggregate_id : string) (_tenant_id : option string)
    (_self : unit) : result PersistenceError (option (Z * J)) := Ok None.
End NoopSnapshots.

#[export] Instance memory_snapshot_ops {J} :
  SnapshotOps J (MemorySnapshots.InMemorySnapshotStore J) := {|
  ss_save := MemorySnapshots.save_snapshot;
  ss_load := MemorySnapshots.load_snapshot;
|}.

#[export] Instance entity_snapshot_ops {J} :
  SnapshotOps J (EntitySnapshots.InMemorySnapshotStore J) := {|
  ss_save := EntitySnapshots.save_snapshot;
  ss_load := EntitySnapshots.load_snapshot;
|}.

#[export] Instance noop_snapshot_ops {J} : SnapshotOps J unit := {|
  ss_save := NoopSnapshots.save_snapshot;
  ss_load := NoopSnapshots.load_snapshot;
|}.

(** The store of crates/persistence-memory satisfies the laws of the port. *)
#[export, refine] Instance memory_snapshot_laws {J} :
  SnapshotLaws J (MemorySnapshots.InMemorySnapshotStore J) := {|
  ss_view s a t := if decide (t = Some "") then None else MemorySnapshots.snapshots s !! (a, t);
|}.
Proof.
  - intros a t s o. simpl. unfold MemorySnapshots.load_snapshot.
    destruct (resolve_tenant_cases t) as [[-> ->]|[Ht ->]]; simpl; [done|].
    rewrite decide_False by done.
    by destruct (MemorySnapshots.snapshots s !! (a, t)) as [[??]|]; intros [= <-].
  - intros a t v p s s'. simpl. unfold MemorySnapshots.save_snapshot.
    destruct (resolve_tenant_cases t) as [[-> ->]|[Ht ->]]; simpl; [done|].
    intros [= <-]. simpl. rewrite decide_False by done. split; [apply lookup_insert_eq|].
    intros a' t' Hne. case_decide; [done|]. by rewrite lookup_insert_ne.
  - intros a t v p s e s'. simpl. unfold MemorySnapshots.save_snapshot.
    destruct (resolve_tenant t); [done|naive_solver].
  - done.
Defined.

(** ** The repository of crates/persistence-memory *)
Module Repository.
Section repo.
Context {A : Type}.

Record InMemoryRepository := mk_repo {
  aggregates : gmap (string * option string) (A * Z);
}.

Definition new : InMemoryRepository := mk_repo ∅.

(** [current + 1] is a version, far below [i64::MAX]. *)
Definition save (aggregate_id : string) (aggregate : A) (tenant_id : option string)
    (expected_version : Z) (self : InMemoryRepository) :
    result PersistenceError Z * InMemoryRepository :=
  match resolve_tenant tenant_id with
  | Err e => (Err e, self)
  | Ok tenant =>
      let key := (aggregate_id, tenant) in
      let current := default 0%Z (snd <$> aggregates self !! key) in
      if decide (current ≠ expected_version) then
        (Err (Conflict aggregate_id expected_version current), self)
      else
        let new_version := (current + 1)%Z in
        (Ok new_version, mk_repo (<[key := (aggregate, new_version)]> (aggregates self)))
  end.

Definition load (aggregate_id : string) (tenant_id : option string)
    (self : InMemoryRepository) : result PersistenceError A :=
  tenant ← resolve_tenant tenant_id;
  match aggregates self !! (aggregate_id, tenant) with
  | Some (agg, _) => Ok agg
  | None => Err (NotFound aggregate_id)
  end.

Definition delete_aggregate (aggregate_id : string) (tenant_id : option string)
    (self : InMemoryRepository) : result PersistenceError unit * InMemoryRepository :=
  match resolve_tenant tenant_id with
  | Err e => (Err e, self)
  | Ok tenant =>
      let key := (aggregate_id, tenant) in
      match aggregates self !! key with
      | Some _ => (Ok (), mk_repo (delete key (aggregates self)))
      | None => (Err (NotFound aggregate_id), self)
      end
  end.
End repo.
Arguments InMemoryRepository : clear implicits.
End Repository.

(** ** Properties *)

(** The repository is a map with optimistic concurrency, per aggregate and tenant:
    a save succeeds exactly when the expected version is the stored one (0 for
    an absent aggregate), bumps it by one and is what [load] then returns; a
    deleted aggregate is absent and starts over at version 0; no operation
    touches another aggregate or tenant. *)
Lemma repository_is_versioned_map {A} a t (x : A) v (s : Repository.InMemoryRepository A) :
  t ≠ Some "" →
  let current := default 0%Z (snd <$> Repository.aggregates s !! (a, t)) in
  match Repository.save a x t v s with
  | (Ok n, s') =>
      v = current ∧ n = (v + 1)%Z ∧ Repository.load a t s' = Ok x ∧
      (∀ y, (Repository.save a y t n s').1 = Ok (n + 1)%Z) ∧
      (∀ k, k ≠ (a, t) → Repository.aggregates s' !! k = Repository.aggregates s !! k) ∧
      (∃ s'', Repository.delete_aggregate a t s' = (Ok (), s'') ∧
        Repository.load a t s'' = Err (NotFound a) ∧
        (∀ y w, is_ok (Repository.save a y t w s'').1 = bool_decide (w = 0%Z)))
  | (Err e, s') => v ≠ current ∧ e = Conflict a v current ∧ s' = s
  end.
Proof.
  intros Ht current. unfold Repository.save, Repository.load, Repository.delete_aggregate.
  destruct (resolve_tenant_cases t) as [[-> _]|[_ ->]]; [done|]. fold current.
  case_decide as Hv; [done|]. cbn -[fmap option_fmap]. split_and!; [lia|lia| | | |].
  - by rewrite lookup_insert_eq.
  - intros y. rewrite lookup_insert_eq. cbn. by rewrite decide_False by lia.
  - intros k Hk. by rewrite lookup_insert_ne.
  - rewrite lookup_insert_eq. eexists. split; [done|]. cbn -[fmap option_fmap].
    rewrite lookup_delete_eq. split; [done|]. intros y w. cbn.
    repeat case_decide; case_bool_decide; naive_solver lia.
Qed.

Lemma repository_is_versioned_map_witness :
  ∃ s', Repository.save "acct" 5 (Some "acme") 0 (Repository.new (A:=nat)) = (Ok 1%Z, s') ∧
    Repository.load "acct" (Some "acme") s' = Ok 5.
Proof.
  pose proof (repository_is_versioned_map "acct" (Some "acme") 5 0 Repository.new) as H.
  eexists. split; [reflexivity|]. cbn in H. apply H. done.
Defined.

(** The snapshot store of crates/persistent-entity keys snapshots by the joined
    aggregate name alone: what one tenant saves is what every other tenant loads
    for the same aggregate, and the empty tenant, which the port calls missing,
    is served like any other. *)
Lemma entity_snapshots_cross_tenants {J} a t t' v (p : J) s :
  ∃ s', EntitySnapshots.save_snapshot a t v p s = (Ok (), s') ∧
    EntitySnapshots.load_snapshot a t' s' = Ok (Some (v, p)).
Proof. eexists. split; [done|]. unfold EntitySnapshots.load_snapshot. simpl. by rewrite lookup_insert_eq. Qed.
