(* ===== verification/Facade.v ===== *)
(** * The persistence facade

    [PersistenceFacade] (crates/persistent-entity, persistence.rs) against the two
    ports it holds, with the discarding stores it is built from when the host
    configures none.  The theorems are proved from the laws of the event-store
    port, so they hold of every store that keeps them. *)

From stdpp Require Import pretty.
From S2P Require Import Prelude Identity EventStore Snapshots.

(** [PersistenceError::to_string] *)
Definition PersistenceError_to_string (e : PersistenceError) : string :=
  match e with
  | NotFound aggregate_id => "aggregate '" +:+ aggregate_id +:+ "' not found"
  | Conflict aggregate_id expected actual =>
      "conflict for aggregate '" +:+ aggregate_id +:+ "': expected version "
      +:+ pretty expected +:+ ", actual version " +:+ pretty actual
  | MissingTenant => "missing tenant identifier"
  | PInternal msg => "internal error: " +:+ msg
  end.

Record SnapshotData (J : Type) := mk_snapshot_data {
  snap_data : J;
  snap_version : Z;
}.
Arguments mk_snapshot_data {J} snap_data snap_version.
Arguments snap_data {J} _.
Arguments snap_version {J} _.

Record StoredEventRow (E : Type) := mk_row {
  row_event : E;
  row_version : Z;
}.
Arguments mk_row {E} row_event row_version.
Arguments row_event {E} _.
Arguments row_version {E} _.

(** ** The discarding store *)
Module Noop.
Section store.
Context {E : Type}.

Definition append (_aggregate_type _aggregate_id : string) (_tenant_id : option string)
    (_expected_version : Z) (_events : list (StoredEvent E)) (s : unit) :
    result PersistenceError Z * unit := (Ok 0%Z, s).

Definition load (_aggregate_type _aggregate_id : string) (_tenant_id : option string)
    (_ : unit) : result PersistenceError (list (StoredEvent E)) := Ok [].

Definition list_aggregate_ids (_tenant_id : option string) :
    result PersistenceError (list (string * string)) := Ok [].

Definition begin_uow (_ : unit) : result PersistenceError unit := Ok ().

Definition find_receipt (_aggregate_type _aggregate_id : string)
    (_tenant_id : option string) (_operation_key : string) (_ : unit) :
    result PersistenceError (option OperationReceipt) := Ok None.

Definition uow_append (_aggregate_type _aggregate_id : string)
    (_tenant_id : option string) (expected_version : Z)
    (events : list (StoredEvent E)) (_ : unit) (u : unit) :
    result PersistenceError Z * unit :=
  (Ok (expected_version + Z.of_nat (length events))%Z, u).

Definition confirm_receipt (_receipt : OperationReceipt) (_ : unit) (u : unit) :
    result PersistenceError unit * unit := (Ok (), u).

Definition commit (_ : unit) (s : unit) : result PersistenceError unit * unit := (Ok (), s).
End store.

(** [stream_version_offset] keeps the port's default, 0. *)
#[export] Instance ops {E} : EventStoreOps E unit unit := {|
  es_append := append;
  es_load := load;
  es_offset := λ _ _ _, 0%Z;
  es_begin := begin_uow;
  es_find_receipt := find_receipt;
  es_uow_append := uow_append;
  es_confirm_receipt := confirm_receipt;
  es_commit := commit;
|}.
End Noop.

(** ** The facade *)
Section facade.
Context {E J σ υ τ : Type} `{!EventStoreOps E σ υ} `{!SnapshotOps J τ}.
Implicit Types (s : σ) (snaps : τ).

(** A row's index plus the offset stays below 2^64: the index is below 2^63 and
    the stores' offsets are [i64] values. *)
Definition load_for_recovery (aggregate_type aggregate_id : string)
    (tenant_id : option string) s snaps :
    result string (option (SnapshotData J) * list (StoredEventRow E)) :=
  let snapshot_key := join_id aggregate_type aggregate_id in
  snap ← map_err PersistenceError_to_string (ss_load (J:=J) snapshot_key tenant_id snaps);
  let snap_data := (λ '(version, data), mk_snapshot_data data (as_u64 version)) <$> snap in
  let since := default 0%Z (snap_version <$> snap_data) in
  stored ← match es_load aggregate_type aggregate_id tenant_id s with
           | Ok events => Ok events
           | Err (NotFound _) => Ok []
           | Err other => Err (PersistenceError_to_string other)
           end;
  let stored_base := es_offset aggregate_type aggregate_id tenant_id in
  let rows :=
    (λ p : nat * StoredEvent E,
       mk_row (stored_event p.2) (Z.of_nat p.1 + stored_base + 1)%Z) <$>
    filter (λ p : nat * StoredEvent E, (since ≤ Z.of_nat p.1 + stored_base)%Z)
      (imap pair stored) in
  Ok (snap_data, rows).

Definition persist_events (aggregate_type aggregate_id : string)
    (tenant_id : option string) (version : Z) (events : list E) s : result string Z * σ :=
  let stored : list (StoredEvent E) := StoredEvent_new <$> events in
  match es_append aggregate_type aggregate_id tenant_id (as_i64 version) stored s with
  | (Err e, s) => (Err (PersistenceError_to_string e), s)
  | (Ok new_version, s) => (Ok (as_u64 new_version), s)
  end.

(** Dropping the unit of work on an error path discards what it staged. *)
Definition persist_events_with_receipt (aggregate_type aggregate_id : string)
    (tenant_id : option string) (version : Z) (events : list E)
    (receipt : OperationReceipt) s : result string Z * σ :=
  let stored : list (StoredEvent E) := StoredEvent_new <$> events in
  match es_begin (E:=E) (υ:=υ) s with
  | Err e => (Err (PersistenceError_to_string e), s)
  | Ok uow =>
      let '(appended, uow) :=
        match stored with
        | [] => (Ok (as_i64 version), uow)
        | _ => es_uow_append aggregate_type aggregate_id tenant_id (as_i64 version) stored s uow
        end in
      match appended with
      | Err e => (Err (PersistenceError_to_string e), s)
      | Ok new_version =>
          match es_confirm_receipt (E:=E) receipt s uow with
          | (Err e, _) => (Err (PersistenceError_to_string e), s)
          | (Ok _, uow) =>
              match es_commit (E:=E) uow s with
              | (Err e, s) => (Err (PersistenceError_to_string e), s)
              | (Ok _, s) => (Ok (as_u64 new_version), s)
              end
          end
      end
  end.

Definition facade_find_receipt (aggregate_type aggregate_id : string)
    (tenant_id : option string) (operation_key : string) s :
    result PersistenceError (option OperationReceipt) :=
  es_find_receipt (E:=E) aggregate_type aggregate_id tenant_id operation_key s.

Definition store_snapshot (entity_id : string) (tenant_id : option string) (version : Z)
    (data : J) snaps : result string unit * τ :=
  match ss_save entity_id tenant_id (as_i64 version) data snaps with
  | (r, snaps) => (map_err PersistenceError_to_string r, snaps)
  end.
End facade.

(** ** Lemmas *)
Lemma filter_indexed_all {A} (l : list A) (k n : nat) :
  n ≤ k →
  filter (λ p : nat * A, n ≤ p.1) (imap (λ i x, (k + i, x)) l) = imap (λ i x, (k + i, x)) l.
Proof.
  intros Hk. apply list_filter_all. intros [j x] Hj.
  apply elem_of_lookup_imap in Hj as (i & y & [= -> ->] & _). simpl. lia.
Qed.

Lemma filter_indexed_drop {A} (l : list A) (k n : nat) :
  filter (λ p : nat * A, n ≤ p.1) (imap (λ i x, (k + i, x)) l)
  = imap (λ i x, (Nat.max n k + i, x)) (drop (n - k) l).
Proof.
  revert k. induction l as [|x l IH]; intros k; [by rewrite drop_nil|].
  destruct (decide (n ≤ k)) as [Hle|Hlt].
  - rewrite filter_indexed_all by done. replace (n - k) with 0 by lia. simpl.
    by replace (Nat.max n k) with k by lia.
  - simpl. rewrite filter_cons_False by (simpl; lia).
    assert (imap ((λ i x, (k + i, x)) ∘ S) l = imap (λ i (x : A), (S k + i, x)) l) as ->.
    { apply imap_ext. intros i y _. simpl. f_equal. lia. }
    rewrite IH. replace (n - k) with (S (n - S k)) by lia. simpl.
    by replace (Nat.max n (S k)) with (Nat.max n k) by lia.
Qed.

Section facade_properties.
Context {E J σ υ τ : Type} `{HO : !EventStoreOps E σ υ} `{HL : !EventStoreLaws E σ υ}.
Context `{!SnapshotOps J τ}.
Implicit Types (s : σ) (snaps : τ).

(** What recovery should see of a stream: its events from a version on. *)
Definition rows_since (base since : Z) (stored : list (StoredEvent E)) : list (StoredEventRow E) :=
  let n := Z.to_nat (since - base) in
  imap (λ j e, mk_row (stored_event e) (Z.of_nat (n + j) + base + 1)%Z) (drop n stored).

(** The outcome of [load_for_recovery]. *)
Lemma load_for_recovery_spec a i t s snaps :
  match load_for_recovery (J:=J) a i t s snaps with
  | Ok (snap, rows) =>
      ∃ loaded, ss_load (join_id a i) t snaps = Ok loaded ∧
        snap = (λ '(v, d), mk_snapshot_data d (as_u64 v)) <$> loaded ∧
        rows = rows_since (es_offset a i t) (default 0%Z (snap_version <$> snap))
                 (es_events s (a, i, t))
  | Err msg =>
      (∃ e, ss_load (J:=J) (join_id a i) t snaps = Err e ∧ msg = PersistenceError_to_string e) ∨
      (∃ e, es_load a i t s = Err e ∧ msg = PersistenceError_to_string e ∧
         ∀ x, e ≠ NotFound x)
  end.
Proof.
  unfold load_for_recovery. destruct (ss_load _ _ _) as [loaded|e]; simpl; [|eauto].
  set (snap := _ <$> loaded). set (since := default 0%Z (snap_version <$> snap)).
  assert (∀ stored, stored = es_events s (a, i, t) →
    ∃ l0, Ok loaded = Ok (E:=PersistenceError) l0 ∧
      snap = (λ '(v, d), mk_snapshot_data d (as_u64 v)) <$> l0 ∧
    (λ p : nat * StoredEvent E,
       mk_row (stored_event p.2) (Z.of_nat p.1 + es_offset a i t + 1)%Z) <$>
    filter (λ p : nat * StoredEvent E, (since ≤ Z.of_nat p.1 + es_offset a i t)%Z)
      (imap pair stored) = rows_since (es_offset a i t) since (es_events s (a, i, t))) as Hrows.
  { intros stored ->. exists loaded. split_and!; [done..|]. unfold rows_since.
    set (n := Z.to_nat (since - es_offset a i t)).
    rewrite (list_filter_iff _ (λ p : nat * StoredEvent E, n ≤ p.1)) by (intros; lia).
    pose proof (filter_indexed_drop (es_events s (a, i, t)) 0 n) as Hf. simpl in Hf.
    change (imap (λ i x, (i, x)) (es_events s (a, i, t)))
      with (imap pair (es_events s (a, i, t))) in Hf.
    rewrite Hf, fmap_imap, Nat.sub_0_r, Nat.max_0_r. done. }
  destruct (es_load a i t s) as [stored|e] eqn:Hl; simpl.
  - apply Hrows. by eapply law_load_ok.
  - destruct e; simpl; try by (right; naive_solver).
    apply (Hrows []). symmetry. by eapply law_load_not_found.
Qed.

(** Recovery reads the whole history and no more: with a readable snapshot and a
    readable (or absent) stream it returns the snapshot with its version and
    exactly the events the snapshot does not cover, in order and each with its
    own version; any other load error is passed on, never read as "no history". *)
Lemma load_for_recovery_exact a i t s snaps :
  match load_for_recovery (J:=J) a i t s snaps with
  | Ok (snap, rows) =>
      ∃ loaded, ss_load (join_id a i) t snaps = Ok loaded ∧
        snap = (λ '(v, d), mk_snapshot_data d (as_u64 v)) <$> loaded ∧
        rows = rows_since (es_offset a i t) (default 0%Z (snap_version <$> snap))
                 (es_events s (a, i, t))
  | Err msg =>
      (∃ e, ss_load (J:=J) (join_id a i) t snaps = Err e ∧ msg = PersistenceError_to_string e) ∨
      (∃ e, es_load a i t s = Err e ∧ msg = PersistenceError_to_string e ∧
         ∀ x, e ≠ NotFound x)
  end.
Proof. apply load_for_recovery_spec. Qed.

(** The three steps of [persist_events_with_receipt] before its commit stage the
    events and the receipt, and nothing else. *)
Lemma stage_ok a i t version (stored : list (StoredEvent E)) receipt s uow appended uow1 n uow2 :
  (0 ≤ version ≤ i64_max)%Z →
  es_begin s = Ok uow →
  match stored with
  | [] => (Ok (as_i64 version), uow)
  | _ => es_uow_append a i t (as_i64 version) stored s uow
  end = (appended, uow1) →
  appended = Ok n → es_confirm_receipt receipt s uow1 = (Ok (), uow2) →
  n = (version + Z.of_nat (length stored))%Z ∧
  (stored ≠ [] → version = (es_offset a i t + Z.of_nat (length (es_events s (a, i, t))))%Z) ∧
  (∀ k, es_staged uow2 k = if decide (k = (a, i, t)) then stored else []) ∧
  (∀ k, es_staged_receipt uow2 k = if decide (k = receipt_key receipt) then Some receipt else None).
Proof.
  intros Hv (Hs & Hr)%law_begin Hst -> (Hfp & Hcs & Hcr & Hcr')%law_confirm_ok.
  rewrite as_i64_small in Hst by done.
  assert (n = (version + Z.of_nat (length stored))%Z ∧
    (stored ≠ [] → version = (es_offset a i t + Z.of_nat (length (es_events s (a, i, t))))%Z) ∧
    (∀ k, es_staged uow1 k = if decide (k = (a, i, t)) then stored else []) ∧
    (∀ k, es_staged_receipt uow1 k = None)) as (-> & Hver & Hev & Hrc).
  { destruct stored as [|x stored].
    - simplify_eq. split_and!; [simpl; lia|done| |done]. intros k. rewrite Hs. by case_decide.
    - apply law_uow_append_ok in Hst as (_ & Hveq & -> & Heq & Hne & Hre).
      split_and!; [done| | |intros k; by rewrite Hre, Hr].
      + intros _. rewrite Hs in Hveq. simpl in Hveq. lia.
      + intros k. case_decide as Hk; [subst k; by rewrite Heq, Hs|by rewrite Hne, Hs]. }
  split_and!; [done|done| |].
  - intros k. by rewrite Hcs.
  - intros k. case_decide as Hk; [by subst k|by rewrite Hcr', Hrc].
Qed.

(** [s'] is [s] after one commit, of a unit of work that staged exactly the events
    [stored] on the stream [k], nothing on any other stream, and the receipt. *)
Definition committed_together (k : StreamKey) (stored : list (StoredEvent E))
    (receipt : OperationReceipt) (s s' : σ) : Prop :=
  ∃ uow : υ,
    (∀ k', es_staged uow k' = if decide (k' = k) then stored else []) ∧
    (∀ rk, es_staged_receipt uow rk
           = if decide (rk = receipt_key receipt) then Some receipt else None) ∧
    es_commit uow s = (Ok (), s').

(** A successful [persist_events_with_receipt] is one commit: of the events and of
    their receipt. *)
Lemma persist_with_receipt_one_commit a i t version (events : list E) receipt s n s' :
  (0 ≤ version ≤ i64_max)%Z →
  persist_events_with_receipt a i t version events receipt s = (Ok n, s') →
  committed_together (a, i, t) (StoredEvent_new <$> events) receipt s s'.
Proof.
  intros Hv. unfold persist_events_with_receipt.
  destruct (es_begin s) as [uow|] eqn:Hb; [|by intros [=]].
  destruct (match StoredEvent_new <$> events with [] => _ | _ => _ end) as [appended uow1] eqn:Hst.
  destruct appended as [n0|]; [|by intros [=]].
  destruct (es_confirm_receipt receipt s uow1) as [[[]|] uow2] eqn:Hc; [|by intros [=]].
  destruct (stage_ok _ _ _ _ _ _ _ _ _ _ n0 _ Hv Hb Hst eq_refl Hc) as (_ & _ & Hev & Hrc).
  destruct (es_commit uow2 s) as [[[]|e] s2] eqn:Hcm; intros [= _ <-].
  by exists uow2.
Qed.

(** The outcome of [persist_events_with_receipt], success and every error. *)
Lemma persist_with_receipt_ok a i t version (events : list E) receipt s r s' :
  (0 ≤ version)%Z → (version + Z.of_nat (length events) ≤ i64_max)%Z →
  persist_events_with_receipt a i t version events receipt s = (r, s') →
  match r with
  | Ok n =>
      n = (version + Z.of_nat (length events))%Z ∧
      (events ≠ [] → version = (es_offset a i t + Z.of_nat (length (es_events s (a, i, t))))%Z) ∧
      (∀ k, es_events s' k
            = es_events s k ++ if decide (k = (a, i, t)) then StoredEvent_new <$> events else []) ∧
      (∀ k, es_receipt s' k
            = if decide (k = receipt_key receipt) then Some receipt else es_receipt s k)
  | Err _ => (∀ k, es_events s' k = es_events s k) ∧ (∀ k, es_receipt s' k = es_receipt s k)
  end.
Proof.
  intros Hv0 Hv. assert (Hvi : (0 ≤ version ≤ i64_max)%Z) by lia.
  unfold persist_events_with_receipt. remember (StoredEvent_new <$> events) as stored eqn:Hstored.
  destruct (es_begin s) as [uow|] eqn:Hb; [|by intros [= <- <-]].
  destruct (match stored with [] => _ | _ => _ end) as [appended uow1] eqn:Hst.
  destruct appended as [n|]; [|by intros [= <- <-]].
  destruct (es_confirm_receipt receipt s uow1) as [[[]|] uow2] eqn:Hc; [|by intros [= <- <-]].
  destruct (stage_ok _ _ _ _ _ _ _ _ _ _ n _ Hvi Hb Hst eq_refl Hc) as (-> & Hver & Hev & Hrc).
  assert (length stored = length events) as Hlen by (subst stored; by rewrite length_fmap).
  destruct (es_commit uow2 s) as [[[]|e] s2] eqn:Hcm; intros [= <- <-].
  - apply law_commit_ok in Hcm as [Hce Hcr]. split_and!.
    + rewrite as_u64_small; unfold i64_max, u64_max in *; lia.
    + intros Hne. apply Hver. subst stored. by destruct events.
    + intros k. by rewrite Hce, Hev.
    + intros k. rewrite Hcr, Hrc. by case_decide.
  - by apply law_commit_err in Hcm.
Qed.

(** Events and receipt are one transaction, over any lawful store: on success the
    stream ends with exactly the new events, was at the expected version if
    there were any, the receipt is recorded (even for a command without events)
    and no other stream or receipt changed; on any error, whichever step it
    comes from, no stream and no receipt changed at all. *)
Lemma persist_with_receipt_atomic a i t version (events : list E) receipt s r s' :
  (0 ≤ version)%Z → (version + Z.of_nat (length events) ≤ i64_max)%Z →
  persist_events_with_receipt a i t version events receipt s = (r, s') →
  match r with
  | Ok n =>
      n = (version + Z.of_nat (length events))%Z ∧
      (events ≠ [] → version = (es_offset a i t + Z.of_nat (length (es_events s (a, i, t))))%Z) ∧
      (∀ k, es_events s' k
            = es_events s k ++ if decide (k = (a, i, t)) then StoredEvent_new <$> events else []) ∧
      (∀ k, es_receipt s' k
            = if decide (k = receipt_key receipt) then Some receipt else es_receipt s k)
  | Err _ => (∀ k, es_events s' k = es_events s k) ∧ (∀ k, es_receipt s' k = es_receipt s k)
  end.
Proof. apply persist_with_receipt_ok. Qed.

(** [persist_events] appends exactly its events at the expected version or changes
    nothing visible. *)
Lemma persist_events_spec a i t version (events : list E) s r s' :
  (0 ≤ version)%Z → (version + Z.of_nat (length events) ≤ i64_max)%Z →
  persist_events a i t version events s = (r, s') →
  (∀ k, es_receipt s' k = es_receipt s k) ∧
  match r with
  | Ok n =>
      n = (version + Z.of_nat (length events))%Z ∧
      version = (es_offset a i t + Z.of_nat (length (es_events s (a, i, t))))%Z ∧
      (∀ k, es_events s' k
            = es_events s k ++ if decide (k = (a, i, t)) then StoredEvent_new <$> events else [])
  | Err _ => ∀ k, es_events s' k = es_events s k
  end.
Proof.
  intros Hv0 Hv. unfold persist_events. rewrite as_i64_small by lia.
  destruct (es_append _ _ _ _ _ _) as [[n|e] s2] eqn:Ha; intros [= <- <-].
  - apply law_append_ok in Ha as (_ & Hver & -> & Heq & Hne & Hr).
    rewrite length_fmap, as_u64_small by (unfold i64_max, u64_max in *; lia).
    split_and!; [done..|]. intros k. case_decide as Hk; [by subst k|].
    by rewrite Hne, app_nil_r.
  - apply law_append_err in Ha as [He Hr]. done.
Qed.
End facade_properties.

(** ** Witnesses *)
Lemma persist_with_receipt_atomic_witness :
  let ops := entity_store_ops (E:=nat) ∅ in
  ∃ s', persist_events_with_receipt "account" "1" (Some "acme") 0 [7] (ex_receipt "f")
          Committed_default = (Ok 1%Z, s') ∧
    ∀ k, es_receipt (EventStoreLaws := entity_store_laws ∅ (map_Forall_empty _)) s' k
         = if decide (k = receipt_key (ex_receipt "f")) then Some (ex_receipt "f") else None.
Proof.
  intros ops. eexists. split; [reflexivity|].
  refine (proj2 (proj2 (proj2
    (persist_with_receipt_atomic (HL:=entity_store_laws ∅ (map_Forall_empty _))
       "account" "1" (Some "acme") 0 [7] (ex_receipt "f") Committed_default (Ok 1%Z) _ _ _ _)))).
  - lia.
  - unfold i64_max. simpl. lia.
  - reflexivity.
Defined.
