(* ===== verification/Lifecycle.v ===== *)
(** * Entity lifecycle

    The lifecycle state machine, entity identities, entity errors and command
    contexts of crates/persistent-entity (lifecycle.rs, scheduler.rs, error.rs,
    command_context.rs, snapshot.rs). *)

From stdpp Require Import pretty.
From S2P Require Import Prelude Identity.

(** ** Errors *)
Inductive EntityError :=
| EntityNotFound
| EntityAlreadyActive
| EntityNotActive
| PersistenceFailed (msg : string)
| EventPublishingError (msg : string)
| SnapshottingError (msg : string)
| RecoveryError (msg : string)
| Internal (msg : string)
| OperationConflict (operation_key : string)
| VersionConflict (expected actual : Z)
| MailboxClosed.

#[export] Instance EntityError_eq_dec : EqDecision EntityError.
Proof. solve_decision. Defined.

(** [Display]; [debug_str] is the standard library's [{:?}] of a string. *)
Definition EntityError_to_string (debug_str : string → string) (e : EntityError) : string :=
  match e with
  | EntityNotFound => "Entity not found"
  | EntityAlreadyActive => "Entity already active"
  | EntityNotActive => "Entity not active"
  | PersistenceFailed msg => "Persistence error: " +:+ msg
  | EventPublishingError msg => "Event publishing error: " +:+ msg
  | SnapshottingError msg => "Snapshotting error: " +:+ msg
  | RecoveryError msg => "Recovery error: " +:+ msg
  | Internal msg => "Internal error: " +:+ msg
  | VersionConflict expected actual =>
      "Version conflict: expected " +:+ pretty expected +:+ ", actual " +:+ pretty actual
  | OperationConflict operation_key =>
      "Operation conflict: operation key " +:+ debug_str operation_key
      +:+ " is already bound to a different request; retrying will not resolve it"
  | MailboxClosed => "Mailbox closed"
  end.

(** ** The state machine *)
Inductive EntityState := Recovering | Active | Passivating | Passivated | Failed.

#[export] Instance EntityState_eq_dec : EqDecision EntityState.
Proof. solve_decision. Defined.

Definition EntityState_debug (s : EntityState) : string :=
  match s with
  | Recovering => "Recovering" | Active => "Active" | Passivating => "Passivating"
  | Passivated => "Passivated" | Failed => "Failed"
  end.

Definition lifecycle_new : EntityState := Recovering.

Definition transition_to (current_state state : EntityState) :
    result EntityError unit * EntityState :=
  match current_state, state with
  | Recovering, Active => (Ok (), state)
  | Active, Passivating => (Ok (), state)
  | Passivating, Passivated => (Ok (), state)
  | Passivated, Active => (Ok (), state)
  | _, Failed => (Ok (), state)
  | _, _ =>
      (Err (Internal ("Invalid state transition from " +:+ EntityState_debug current_state
                      +:+ " to " +:+ EntityState_debug state)), current_state)
  end.

Definition is_active (s : EntityState) : bool := bool_decide (s = Active).
Definition is_passivated (s : EntityState) : bool := bool_decide (s = Passivated).
Definition is_recoverable (s : EntityState) : bool :=
  bool_decide (s = Recovering ∨ s = Passivated).

(** ** Identities and contexts *)
Record EntityTriple := mk_triple {
  triple_tenant_id : string;
  triple_entity_type : string;
  triple_entity_id : string;
}.

#[export] Instance EntityTriple_eq_dec : EqDecision EntityTriple.
Proof. solve_decision. Defined.
#[export] Instance EntityTriple_countable : Countable EntityTriple.
Proof.
  by apply (inj_countable'
    (λ t, (triple_tenant_id t, triple_entity_type t, triple_entity_id t))
    (λ '(a, b, c), mk_triple a b c)); intros [].
Defined.

Definition aggregate_id (self : EntityTriple) : string :=
  triple_entity_type self +:+ "-" +:+ triple_entity_id self.
Definition aggregate_type (self : EntityTriple) : string := triple_entity_type self.

Record CommandContext := mk_context {
  ctx_tenant_id : option string;
  ctx_entity_type : string;
  ctx_entity_id : string;
  ctx_expected_version : option Z;
  ctx_causation_id : option string;
  ctx_metadata : gmap string string;
  ctx_identity : option OperationIdentity;
}.

Definition CommandContext_new (entity_type : string) : CommandContext :=
  mk_context None entity_type "" None None ∅ None.

Definition carrying (self : CommandContext) (identity : option OperationIdentity) :
    CommandContext :=
  mk_context (ctx_tenant_id self) (ctx_entity_type self) (ctx_entity_id self)
    (ctx_expected_version self) (ctx_causation_id self) (ctx_metadata self) identity.

(** ** Snapshot strategies

    [version % 0] panics; [None] stands for the panic. *)
Inductive SnapshotStrategy :=
| PeriodicSnapshotStrategy (events_between_snapshots : Z)
| VersionBasedSnapshotStrategy (version_interval : Z)
| NoSnapshot.

Definition should_take_snapshot (self : SnapshotStrategy) (version event_count : Z) :
    option (result EntityError bool) :=
  match self with
  | PeriodicSnapshotStrategy n => Some (Ok (bool_decide (n ≤ event_count)%Z))
  | VersionBasedSnapshotStrategy n =>
      if decide (n = 0)%Z then None else Some (Ok (bool_decide (version mod n = 0)%Z))
  | NoSnapshot => Some (Ok false)
  end.

(** ** Properties *)

(** The abstract lifecycle: the edges the documentation of the machine lists. *)
Inductive lifecycle_edge : EntityState → EntityState → Prop :=
| edge_recovered : lifecycle_edge Recovering Active
| edge_passivating : lifecycle_edge Active Passivating
| edge_passivated : lifecycle_edge Passivating Passivated
| edge_reactivated : lifecycle_edge Passivated Active
| edge_failed s : lifecycle_edge s Failed.

Fixpoint transitions (s : EntityState) (targets : list EntityState) : EntityState :=
  match targets with
  | [] => s
  | target :: targets => transitions (transition_to s target).2 targets
  end.

Lemma transition_to_spec s target :
  (lifecycle_edge s target ∧ transition_to s target = (Ok (), target)) ∨
  (¬ lifecycle_edge s target ∧ ∃ e, transition_to s target = (Err e, s)).
Proof.
  destruct s, target; simpl;
    solve [left; split; [constructor|done] | right; split; [by inversion 1|eauto]].
Qed.

(** The lifecycle machine implements its diagram: a request is granted exactly on
    an edge of it and otherwise answered with an error that leaves the state
    alone; whatever is requested, a failed entity stays failed and an entity is
    active again only through [Recovering] or [Passivated]. *)
Lemma lifecycle_refines_diagram s target targets :
  ((transition_to s target).1 = Ok () ↔ lifecycle_edge s target) ∧
  (transition_to s target).2 = (if decide ((transition_to s target).1 = Ok ()) then target else s) ∧
  transitions Failed targets = Failed ∧
  (transition_to s Active = (Ok (), Active) ↔ is_recoverable s = true).
Proof.
  split_and!.
  - destruct (transition_to_spec s target) as [[He ->]|[He [e ->]]]; naive_solver.
  - destruct (transition_to_spec s target) as [[He ->]|[He [e ->]]]; by case_decide.
  - induction targets as [|x targets IH]; [done|]. by destruct x.
  - by destruct s.
Qed.
