(* ===== verification/Mailbox.v ===== *)
(** * The bounded mailbox

    [BoundedMailbox] (crates/persistent-entity, mailbox.rs): a FIFO queue behind a
    lock, two notifiers and a closed flag.  Each stretch of code between two
    points where another task can run is one function; tasks interleave at those
    points.  A notifier wakes every [Notified] future created before the call,
    polled or not, which is what tokio documents of [notify_waiters]. *)

From S2P Require Import Prelude Lifecycle.

Section mailbox.
Context {T : Type}.

Record BoundedMailbox := mk_mailbox {
  queue : list T;
  capacity : nat;
  closed : bool;
}.

Definition mailbox_new (capacity : nat) : BoundedMailbox := mk_mailbox [] capacity false.

Definition mark_closed (self : BoundedMailbox) : BoundedMailbox :=
  mk_mailbox (queue self) (capacity self) true.

(** The body of [send]'s loop under the lock: an answer, or [None] when the task
    is to await [not_full]. *)
Definition send_attempt (command : T) (self : BoundedMailbox) :
    option (result EntityError unit) * BoundedMailbox :=
  if closed self then (Some (Err MailboxClosed), self)
  else if decide (length (queue self) < capacity self) then
    (Some (Ok ()), mk_mailbox (queue self ++ [command]) (capacity self) (closed self))
  else (None, self).

(** The body of [recv]'s loop under the lock. *)
Definition recv_attempt (self : BoundedMailbox) :
    option (result EntityError T) * BoundedMailbox :=
  match queue self with
  | command :: rest => (Some (Ok command), mk_mailbox rest (capacity self) (closed self))
  | [] => if closed self then (Some (Err MailboxClosed), self) else (None, self)
  end.

(** [mem::take] of the queue in [close_and_drain]. *)
Definition take_queue (self : BoundedMailbox) : list T * BoundedMailbox :=
  (queue self, mk_mailbox [] (capacity self) (closed self)).

Definition is_empty (self : BoundedMailbox) : bool := bool_decide (queue self = []).
Definition is_full (self : BoundedMailbox) : bool :=
  bool_decide (capacity self ≤ length (queue self)).
Definition len (self : BoundedMailbox) : nat := length (queue self).

(** ** Tasks

    Where a task stands inside a mailbox operation.  The flag of a waiting task
    is whether its [Notified] future has been notified. *)
Inductive task :=
| Sending (command : T) (notified : bool)     (* before the lock *)
| SendParked (command : T) (notified : bool)  (* at notified.await *)
| Receiving (notified : bool)
| RecvParked (notified : bool)
| Closing                                     (* marked, not_empty not yet notified *)
| ClosingFull                                 (* not_full not yet notified *)
| Draining                                    (* marked, queue not yet taken *)
| Drained                                     (* taken, not_empty not yet notified *)
| DrainedFull.

Record system := mk_system {
  mb : BoundedMailbox;
  tasks : gmap nat task;
  accepted : list T;   (* commands whose send answered Ok, in order *)
  removed : list T;    (* commands handed out by recv or a drain, in order *)
}.

(** [not_empty.notify_waiters()] and [not_full.notify_waiters()] *)
Definition wake_receiver (t : task) : task :=
  match t with
  | Receiving _ => Receiving true
  | RecvParked _ => RecvParked true
  | _ => t
  end.
Definition wake_sender (t : task) : task :=
  match t with
  | Sending c _ => Sending c true
  | SendParked c _ => SendParked c true
  | _ => t
  end.
Definition notify_not_empty (ts : gmap nat task) : gmap nat task := wake_receiver <$> ts.
Definition notify_not_full (ts : gmap nat task) : gmap nat task := wake_sender <$> ts.

(** One step of one task.  [notify_waiters] inside [send] and [recv] happens
    under the lock; in [close] and [close_and_drain] it does not. *)
Inductive step : system → system → Prop :=
| step_send_start s i c :
    tasks s !! i = None →
    step s (mk_system (mb s) (<[i := Sending c false]> (tasks s)) (accepted s) (removed s))
| step_send_ok s i c n m :
    tasks s !! i = Some (Sending c n) → send_attempt c (mb s) = (Some (Ok ()), m) →
    step s (mk_system m (notify_not_empty (delete i (tasks s))) (accepted s ++ [c]) (removed s))
| step_send_err s i c n e m :
    tasks s !! i = Some (Sending c n) → send_attempt c (mb s) = (Some (Err e), m) →
    step s (mk_system m (delete i (tasks s)) (accepted s) (removed s))
| step_send_park s i c n m :
    tasks s !! i = Some (Sending c n) → send_attempt c (mb s) = (None, m) →
    step s (mk_system m (<[i := SendParked c n]> (tasks s)) (accepted s) (removed s))
| step_send_wake s i c :
    tasks s !! i = Some (SendParked c true) →
    step s (mk_system (mb s) (<[i := Sending c false]> (tasks s)) (accepted s) (removed s))
| step_recv_start s i :
    tasks s !! i = None →
    step s (mk_system (mb s) (<[i := Receiving false]> (tasks s)) (accepted s) (removed s))
| step_recv_ok s i c n m :
    tasks s !! i = Some (Receiving n) → recv_attempt (mb s) = (Some (Ok c), m) →
    step s (mk_system m (notify_not_full (delete i (tasks s))) (accepted s) (removed s ++ [c]))
| step_recv_err s i n e m :
    tasks s !! i = Some (Receiving n) → recv_attempt (mb s) = (Some (Err e), m) →
    step s (mk_system m (delete i (tasks s)) (accepted s) (removed s))
| step_recv_park s i n m :
    tasks s !! i = Some (Receiving n) → recv_attempt (mb s) = (None, m) →
    step s (mk_system m (<[i := RecvParked n]> (tasks s)) (accepted s) (removed s))
| step_recv_wake s i :
    tasks s !! i = Some (RecvParked true) →
    step s (mk_system (mb s) (<[i := Receiving false]> (tasks s)) (accepted s) (removed s))
| step_cancel s i t :
    tasks s !! i = Some t →
    (match t with SendParked _ _ | RecvParked _ => True | _ => False end) →
    step s (mk_system (mb s) (delete i (tasks s)) (accepted s) (removed s))
| step_close s i :
    tasks s !! i = None →
    step s (mk_system (mark_closed (mb s)) (<[i := Closing]> (tasks s)) (accepted s) (removed s))
| step_close_empty s i :
    tasks s !! i = Some Closing →
    step s (mk_system (mb s) (notify_not_empty (<[i := ClosingFull]> (tasks s)))
              (accepted s) (removed s))
| step_close_full s i :
    tasks s !! i = Some ClosingFull →
    step s (mk_system (mb s) (notify_not_full (delete i (tasks s))) (accepted s) (removed s))
| step_drain s i :
    tasks s !! i = None →
    step s (mk_system (mark_closed (mb s)) (<[i := Draining]> (tasks s)) (accepted s) (removed s))
| step_drain_take s i items m :
    tasks s !! i = Some Draining → take_queue (mb s) = (items, m) →
    step s (mk_system m (<[i := Drained]> (tasks s)) (accepted s) (removed s ++ items))
| step_drain_empty s i :
    tasks s !! i = Some Drained →
    step s (mk_system (mb s) (notify_not_empty (<[i := DrainedFull]> (tasks s)))
              (accepted s) (removed s))
| step_drain_full s i :
    tasks s !! i = Some DrainedFull →
    step s (mk_system (mb s) (notify_not_full (delete i (tasks s))) (accepted s) (removed s)).

Definition initial (capacity : nat) : system := mk_system (mailbox_new capacity) ∅ [] [].

Definition reachable (cap : nat) (s : system) : Prop := rtc step (initial cap) s.

(** A close is under way that will still notify the receivers, or the senders. *)
Definition will_notify_empty (ts : gmap nat task) : Prop :=
  ∃ i t, ts !! i = Some t ∧ (t = Closing ∨ t = Draining ∨ t = Drained).
Definition will_notify_full (ts : gmap nat task) : Prop :=
  ∃ i t, ts !! i = Some t ∧
    (t = Closing ∨ t = ClosingFull ∨ t = Draining ∨ t = Drained ∨ t = DrainedFull).

(** ** Lemmas *)
Lemma send_attempt_Ok c (m m' : BoundedMailbox) :
  send_attempt c m = (Some (Ok ()), m') →
  closed m = false ∧ length (queue m) < capacity m ∧
  m' = mk_mailbox (queue m ++ [c]) (capacity m) false.
Proof. unfold send_attempt. destruct (closed m); [done|]. case_decide; naive_solver. Qed.

Lemma send_attempt_Err c (m m' : BoundedMailbox) e :
  send_attempt c m = (Some (Err e), m') → closed m = true ∧ e = MailboxClosed ∧ m' = m.
Proof. unfold send_attempt. destruct (closed m); [naive_solver|]. case_decide; naive_solver. Qed.

Lemma send_attempt_None c (m m' : BoundedMailbox) :
  send_attempt c m = (None, m') → closed m = false ∧ capacity m ≤ length (queue m) ∧ m' = m.
Proof.
  unfold send_attempt. destruct (closed m); [done|]. case_decide; [done|].
  intros [= <-]. split_and!; [done|lia|done].
Qed.

Lemma recv_attempt_Ok c (m m' : BoundedMailbox) :
  recv_attempt m = (Some (Ok c), m') →
  queue m = c :: queue m' ∧ capacity m' = capacity m ∧ closed m' = closed m.
Proof.
  unfold recv_attempt. destruct (queue m); [by destruct (closed m)|]. naive_solver.
Qed.

Lemma recv_attempt_Err e (m m' : BoundedMailbox) :
  recv_attempt m = (Some (Err e), m') →
  queue m = [] ∧ closed m = true ∧ e = MailboxClosed ∧ m' = m.
Proof. unfold recv_attempt. destruct (queue m); [destruct (closed m)|]; naive_solver. Qed.

Lemma recv_attempt_None (m m' : BoundedMailbox) :
  recv_attempt m = (None, m') → queue m = [] ∧ closed m = false ∧ m' = m.
Proof. unfold recv_attempt. destruct (queue m); [destruct (closed m)|]; naive_solver. Qed.

Lemma invariant_reachable (P : system → Prop) cap s :
  P (initial cap) → (∀ s s', step s s' → P s → P s') → reachable cap s → P s.
Proof.
  unfold reachable. generalize (initial cap). intros s0 H0 Hstep Hr. induction Hr; eauto.
Qed.

(** Nothing is lost or duplicated, and the order is the order of acceptance. *)
Definition fifo_inv (cap : nat) (s : system) : Prop :=
  accepted s = removed s ++ queue (mb s) ∧ capacity (mb s) = cap ∧ length (queue (mb s)) ≤ cap.

Lemma fifo_inv_step cap s s' : step s s' → fifo_inv cap s → fifo_inv cap s'.
Proof.
  unfold fifo_inv. intros Hstep (Ha & Hc & Hl). destruct Hstep; simpl; try done.
  - apply send_attempt_Ok in H0 as (_ & Hlt & ->). simpl.
    rewrite Ha, length_app. simpl. split_and!; [by rewrite <-app_assoc|done|lia].
  - by apply send_attempt_Err in H0 as (_ & _ & ->).
  - by apply send_attempt_None in H0 as (_ & _ & ->).
  - apply recv_attempt_Ok in H0 as (Hq & -> & _). rewrite Hq in *. simpl in *.
    split_and!; [by rewrite <-app_assoc|done|lia].
  - by apply recv_attempt_Err in H0 as (_ & _ & _ & ->).
  - by apply recv_attempt_None in H0 as (_ & _ & ->).
  - unfold take_queue in H0. simplify_eq/=. split_and!; [by rewrite app_nil_r|done|lia].
Qed.

Lemma reachable_fifo cap s : reachable cap s → fifo_inv cap s.
Proof.
  apply invariant_reachable; [|apply fifo_inv_step].
  unfold fifo_inv. simpl. split_and!; [done..|lia].
Qed.

(** A closed mailbox accepts nothing more, and once empty stays so. *)
Lemma closed_step s s' :
  step s s' → closed (mb s) = true →
  closed (mb s') = true ∧ accepted s' = accepted s ∧
  (queue (mb s) = [] → queue (mb s') = [] ∧ removed s' = removed s).
Proof.
  intros Hstep Hc. destruct Hstep; simpl; try (by split_and!).
  - apply send_attempt_Ok in H0 as (? & _). congruence.
  - by apply send_attempt_Err in H0 as (_ & _ & ->).
  - by apply send_attempt_None in H0 as (_ & _ & ->).
  - apply recv_attempt_Ok in H0 as (Hq & _ & ->). split_and!; [done..|]. by rewrite Hq.
  - by apply recv_attempt_Err in H0 as (_ & _ & _ & ->).
  - by apply recv_attempt_None in H0 as (_ & _ & ->).
  - unfold take_queue in H0. simplify_eq/=. split_and!; [done..|].
    intros ->. by rewrite app_nil_r.
Qed.

(** A task that is parked and not notified has nothing to do, unless a close in
    progress is still going to notify it. *)
Definition recv_waits (m : BoundedMailbox) (ts : gmap nat task) : Prop :=
  ∀ i, ts !! i = Some (RecvParked false) →
    queue m = [] ∧ (closed m = true → will_notify_empty ts).
Definition send_waits (m : BoundedMailbox) (ts : gmap nat task) : Prop :=
  ∀ i c, ts !! i = Some (SendParked c false) →
    (capacity m ≤ length (queue m) ∨ will_notify_full ts) ∧
    (closed m = true → will_notify_full ts).

Lemma recv_waits_notified m ts : recv_waits m (notify_not_empty ts).
Proof.
  intros i Hi. unfold notify_not_empty in Hi. rewrite lookup_fmap in Hi.
  destruct (ts !! i) as [[]|]; naive_solver.
Qed.

Lemma send_waits_notified m ts : send_waits m (notify_not_full ts).
Proof.
  intros i c Hi. unfold notify_not_full in Hi. rewrite lookup_fmap in Hi.
  destruct (ts !! i) as [[]|]; naive_solver.
Qed.

Lemma notify_not_full_RecvParked ts i :
  notify_not_full ts !! i = Some (RecvParked false) → ts !! i = Some (RecvParked false).
Proof.
  unfold notify_not_full. rewrite lookup_fmap. destruct (ts !! i) as [[]|]; naive_solver.
Qed.

Lemma notify_not_empty_SendParked ts i c :
  notify_not_empty ts !! i = Some (SendParked c false) → ts !! i = Some (SendParked c false).
Proof.
  unfold notify_not_empty. rewrite lookup_fmap. destruct (ts !! i) as [[]|]; naive_solver.
Qed.

Lemma will_notify_empty_full ts : will_notify_empty (notify_not_full ts) ↔ will_notify_empty ts.
Proof.
  unfold will_notify_empty, notify_not_full. split; intros (i & t & Hi & Ht).
  - rewrite lookup_fmap in Hi. destruct (ts !! i) as [t0|] eqn:Heq; [|done].
    exists i, t0. split; [done|]. destruct t0; naive_solver.
  - exists i, t. rewrite lookup_fmap, Hi. split; [|done]. destruct t; naive_solver.
Qed.

Lemma will_notify_full_empty ts : will_notify_full (notify_not_empty ts) ↔ will_notify_full ts.
Proof.
  unfold will_notify_full, notify_not_empty. split; intros (i & t & Hi & Ht).
  - rewrite lookup_fmap in Hi. destruct (ts !! i) as [t0|] eqn:Heq; [|done].
    exists i, t0. split; [done|]. destruct t0; naive_solver.
  - exists i, t. rewrite lookup_fmap, Hi. split; [|done]. destruct t; naive_solver.
Qed.

(** Changing the entry of a task that is not closing keeps the closes under way. *)
Definition is_closer (t : task) : bool :=
  match t with Closing | ClosingFull | Draining | Drained | DrainedFull => true | _ => false end.

Lemma will_notify_other ts ts' i :
  (∀ t, ts !! i = Some t → is_closer t = false) → (∀ j, j ≠ i → ts' !! j = ts !! j) →
  (will_notify_empty ts → will_notify_empty ts') ∧ (will_notify_full ts → will_notify_full ts').
Proof.
  intros Hi Hj. split; intros (j & t & Hjt & Ht); exists j, t;
    (rewrite Hj; [done|intros ->]; apply Hi in Hjt; naive_solver).
Qed.

Lemma waits_other m ts ts' i :
  recv_waits m ts → send_waits m ts →
  (∀ t, ts !! i = Some t → is_closer t = false) → (∀ j, j ≠ i → ts' !! j = ts !! j) →
  (ts' !! i = Some (RecvParked false) → queue m = [] ∧ closed m = false) →
  (∀ c, ts' !! i = Some (SendParked c false) → capacity m ≤ length (queue m) ∧ closed m = false) →
  recv_waits m ts' ∧ send_waits m ts'.
Proof.
  intros Hr Hs Hi Hj Hri Hsi. destruct (will_notify_other ts ts' i Hi Hj) as [He Hf]. split.
  - intros j Hjt. destruct (decide (j = i)) as [->|Hne].
    + destruct (Hri Hjt) as [? Hc]. split; [done|]. by rewrite Hc.
    + rewrite Hj in Hjt by done. destruct (Hr j Hjt). auto.
  - intros j c Hjt. destruct (decide (j = i)) as [->|Hne].
    + destruct (Hsi c Hjt) as [? Hc]. split; [by left|]. by rewrite Hc.
    + rewrite Hj in Hjt by done. destruct (Hs j c Hjt) as [[]]; auto.
Qed.

Ltac other_task i :=
  eapply (waits_other _ _ _ i);
    [eassumption|eassumption|naive_solver|intros j Hj; simplify_map_eq; done|..];
    try (intros; simplify_map_eq; naive_solver).

(** [close], in both its forms, after [mark_closed]: the closer notifies later. *)
Lemma waits_marked m ts i t :
  recv_waits m ts → send_waits m ts → ts !! i = None → t = Closing ∨ t = Draining →
  recv_waits (mark_closed m) (<[i := t]> ts) ∧ send_waits (mark_closed m) (<[i := t]> ts).
Proof.
  intros Hr Hs Hi Ht. split.
  - intros j Hj. destruct (decide (j = i)) as [->|]; simplify_map_eq; [naive_solver|].
    split; [by eapply Hr|]. intros _. exists i, t. split; [by simplify_map_eq|naive_solver].
  - intros j c Hj. destruct (decide (j = i)) as [->|]; simplify_map_eq; [naive_solver|].
    assert (will_notify_full (<[i := t]> ts)); [|auto].
    exists i, t. split; [by simplify_map_eq|naive_solver].
Qed.

(** The two notifications that end [close] and [drain]: [notify_waiters] on
    [not_empty], with the one on [not_full] still to come, then that one. *)
Lemma waits_notify_empty m ts i t :
  t = ClosingFull ∨ t = DrainedFull →
  recv_waits m (notify_not_empty (<[i := t]> ts)) ∧ send_waits m (notify_not_empty (<[i := t]> ts)).
Proof.
  intros Ht. split; [apply recv_waits_notified|].
  intros j c Hj%notify_not_empty_SendParked. rewrite will_notify_full_empty.
  assert (will_notify_full (<[i := t]> ts)); [|auto].
  exists i, t. split; [by simplify_map_eq|naive_solver].
Qed.

Lemma waits_notify_full m ts i t :
  recv_waits m ts → ts !! i = Some t → t = ClosingFull ∨ t = DrainedFull →
  recv_waits m (notify_not_full (delete i ts)) ∧ send_waits m (notify_not_full (delete i ts)).
Proof.
  intros Hr Hi Ht. split; [|apply send_waits_notified]. intros j Hj%notify_not_full_RecvParked.
  rewrite will_notify_empty_full. destruct (decide (j = i)) as [->|]; simplify_map_eq.
  destruct (Hr j Hj) as [Hq Hc]. split; [done|]. intros (k & u & Hk & Hu)%Hc.
  exists k, u. split; [|done]. rewrite lookup_delete_ne; [done|naive_solver].
Qed.

Lemma waits_step s s' :
  step s s' → recv_waits (mb s) (tasks s) ∧ send_waits (mb s) (tasks s) →
  recv_waits (mb s') (tasks s') ∧ send_waits (mb s') (tasks s').
Proof.
  intros Hstep [Hr Hs]. destruct Hstep; simpl.
  - other_task i.
  - apply send_attempt_Ok in H0 as (Hcl & Hlt & ->). split; [apply recv_waits_notified|].
    intros j d Hj%notify_not_empty_SendParked. simpl.
    destruct (decide (j = i)) as [->|]; simplify_map_eq.
    destruct (Hs j d Hj) as [[?|Hw] _]; [lia|]. split; [|done]. right.
    apply will_notify_full_empty. revert Hw.
    apply (will_notify_other _ _ i); [naive_solver|intros; by simplify_map_eq].
  - apply send_attempt_Err in H0 as (_ & _ & ->). other_task i.
  - apply send_attempt_None in H0 as (? & ? & ->). other_task i.
  - other_task i.
  - other_task i.
  - apply recv_attempt_Ok in H0 as (Hq & _ & Hcl). split; [|apply send_waits_notified].
    intros j Hj%notify_not_full_RecvParked.
    destruct (decide (j = i)) as [->|]; simplify_map_eq.
    destruct (Hr j Hj) as [Hnil _]. by rewrite Hnil in Hq.
  - apply recv_attempt_Err in H0 as (_ & _ & _ & ->). other_task i.
  - apply recv_attempt_None in H0 as (? & ? & ->). other_task i.
  - other_task i.
  - destruct t; try done; other_task i.
  - by apply waits_marked; auto.
  - apply waits_notify_empty; auto.
  - eapply waits_notify_full; eauto.
  - by apply waits_marked; auto.
  - unfold take_queue in H0. simplify_eq/=. split.
    + intros j Hj. destruct (decide (j = i)) as [->|]; simplify_map_eq. split; [done|].
      intros _. exists i, Drained. split; [by simplify_map_eq|naive_solver].
    + intros j c Hj.
      assert (will_notify_full (<[i := Drained]> (tasks s))); [|auto].
      exists i, Drained. split; [by simplify_map_eq|naive_solver].
  - apply waits_notify_empty; auto.
  - eapply waits_notify_full; eauto.
Qed.

(** ** Properties *)

(** C20: No loss, no duplication, FIFO, bounded, for every interleaving of senders,
    receivers, closers and drains: the commands whose [send] answered [Ok] are,
    in that order, those handed out so far followed by those still queued, and
    the queue never exceeds its capacity. *)
Theorem mailbox_linearizes cap s :
  reachable cap s →
  accepted s = removed s ++ queue (mb s) ∧ length (queue (mb s)) ≤ cap.
Proof.
  intros (? & _ & ?)%reachable_fifo. done.
Qed.

(** Closing is terminal: once the mailbox is marked closed no later [send] is
    accepted, in any continuation, and once a drain has emptied it it stays
    empty, so every accepted command was handed out exactly once. *)
Lemma closed_mailbox_is_terminal cap s s' :
  reachable cap s → closed (mb s) = true → rtc step s s' →
  closed (mb s') = true ∧ accepted s' = accepted s ∧
  (queue (mb s) = [] → queue (mb s') = [] ∧ removed s' = accepted s).
Proof.
  intros Hr Hc Hs. induction Hs as [s|s s1 s' Hstep Hs IH].
  - destruct (reachable_fifo _ _ Hr) as (Ha & _). split_and!; [done..|].
    intros Hq. by rewrite Ha, Hq, app_nil_r.
  - destruct (closed_step _ _ Hstep Hc) as (Hc1 & Ha1 & Hq1). rewrite <-Ha1.
    destruct IH as (IH1 & IH2 & IH3); [by eapply rtc_r|done|]. split_and!; [done..|].
    intros Hq. apply IH3. by apply Hq1.
Qed.

(** C21: No lost wakeup: in every reachable state in which no close is still notifying,
    a receiver that waits without having been notified waits for an empty, open
    mailbox, and a sender that does so waits for a full, open one.  A command or a
    free slot is therefore never left behind while its waiter sleeps. *)
Theorem no_lost_wakeup cap s :
  reachable cap s →
  (∀ i t, tasks s !! i = Some t → is_closer t = false) →
  (∀ i, tasks s !! i = Some (RecvParked false) →
     queue (mb s) = [] ∧ closed (mb s) = false) ∧
  (∀ i c, tasks s !! i = Some (SendParked c false) →
     capacity (mb s) ≤ length (queue (mb s)) ∧ closed (mb s) = false).
Proof.
  intros Hr Hnc.
  assert (recv_waits (mb s) (tasks s) ∧ send_waits (mb s) (tasks s)) as [Hrw Hsw].
  { revert Hr. apply (invariant_reachable
      (λ s, recv_waits (mb s) (tasks s) ∧ send_waits (mb s) (tasks s))); [|apply waits_step].
    split; intros i; simpl; rewrite lookup_empty; done. }
  assert (¬ will_notify_empty (tasks s) ∧ ¬ will_notify_full (tasks s)) as [He Hf].
  { split; intros (i & t & Hi & Ht); apply Hnc in Hi; naive_solver. }
  split; [intros i Hi|intros i c Hi].
  - destruct (Hrw i Hi). split; [done|]. destruct (closed (mb s)); naive_solver.
  - destruct (Hsw i c Hi) as [[]]; [|done]. split; [done|].
    destruct (closed (mb s)); naive_solver.
Qed.
End mailbox.
Arguments BoundedMailbox : clear implicits.
Arguments system : clear implicits.
Arguments task : clear implicits.

(** ** Witnesses *)
Definition ex_mailbox : system nat :=
  mk_system (mk_mailbox [7] 1 false) ∅ [7] [].

Lemma ex_mailbox_reachable : reachable 1 ex_mailbox.
Proof.
  eapply rtc_l; [apply (step_send_start _ 0 7); reflexivity|].
  eapply rtc_l; [by eapply (step_send_ok _ 0 7); [reflexivity|reflexivity]|].
  cbn. unfold notify_not_empty. rewrite delete_insert_id, fmap_empty by done. apply rtc_refl.
Qed.

Lemma mailbox_linearizes_witness :
  accepted ex_mailbox = removed ex_mailbox ++ queue (mb ex_mailbox) ∧
  length (queue (mb ex_mailbox)) ≤ 1.
Proof. apply mailbox_linearizes. apply ex_mailbox_reachable. Defined.

Definition ex_draining : system nat :=
  mk_system (mk_mailbox [7] 1 true) {[0 := Draining]} [7] [].
Definition ex_drained : system nat :=
  mk_system (mk_mailbox [] 1 true) {[0 := Drained]} [7] [7].

Lemma ex_draining_reachable : reachable 1 ex_draining.
Proof.
  eapply rtc_r; [apply ex_mailbox_reachable|]. apply (step_drain ex_mailbox 0). reflexivity.
Qed.

Lemma closed_mailbox_is_terminal_witness :
  closed (mb ex_drained) = true ∧ accepted ex_drained = accepted ex_draining.
Proof.
  destruct (closed_mailbox_is_terminal 1 ex_draining ex_drained) as (H1 & H2 & _).
  - apply ex_draining_reachable.
  - reflexivity.
  - apply rtc_once. unfold ex_drained.
    replace ({[0 := Drained]} : gmap nat (task nat))
      with (<[0 := Drained]> ({[0 := Draining]} : gmap nat (task nat)))
      by apply insert_singleton_eq.
    apply (step_drain_take ex_draining 0 [7]); [by apply lookup_singleton_eq|reflexivity].
  - split; [exact H1|exact H2].
Defined.

Definition ex_waiting : system nat :=
  mk_system (mailbox_new 1) {[0 := RecvParked false]} [] [].

Lemma ex_waiting_reachable : reachable 1 ex_waiting.
Proof.
  eapply rtc_l; [apply (step_recv_start _ 0); reflexivity|].
  eapply rtc_l; [by eapply (step_recv_park _ 0); [reflexivity|reflexivity]|].
  cbn. rewrite insert_insert_eq. apply rtc_refl.
Qed.

Lemma no_lost_wakeup_witness : queue (mb ex_waiting) = [] ∧ closed (mb ex_waiting) = false.
Proof.
  refine (proj1 (no_lost_wakeup 1 ex_waiting _ _) 0 _).
  - apply ex_waiting_reachable.
  - intros i t Hi. apply (lookup_singleton_Some 0 i (RecvParked false) t) in Hi as [<- <-].
    reflexivity.
  - apply (lookup_singleton_eq (M:=gmap nat) 0).
Defined.
