(* ===== verification/Registry.v ===== *)
(** * Activation authority

    [EntityRegistry] (crates/persistent-entity, registry.rs), the owner check and
    the teardown guard of entity_ref_tokio.rs.  The published-state cells are
    tokio watch channels shared between the registry, the actor and the guard;
    they are a store of their own, and an entry holds the location of its cell.
    [M] is the type-erased mailbox handle. *)

From S2P Require Import Prelude Identity Lifecycle.

Definition MAX_PASSIVATED_ENTRIES : Z := 10000.

Section registry.
Context {M : Type}.

Record ActiveEntry := mk_entry {
  entry_mailbox : M;
  entry_rx : nat;
  entry_epoch : Z;
  entry_triple : EntityTriple;
}.

Record EntityRegistry := mk_registry {
  active : gmap EntityTriple ActiveEntry;
  next_epoch : Z;
  passivated_entities : gmap EntityTriple Z;
}.

(** The watch cells: the state last published at each location. *)
Abbreviation cells := (list EntityState).

Inductive RouteOutcome :=
| Existing (mailbox : M) (owner : EntityTriple)
| Inserted (mailbox : M) (epoch : Z) (tx : nat).

Definition registry_new : EntityRegistry := mk_registry ∅ 0 ∅.

(** [watch::channel(Recovering)] allocates a cell at the end of the store. *)
Definition lookup_or_insert (triple : EntityTriple) (make_mailbox : unit → M)
    (self : EntityRegistry) (cs : cells) : RouteOutcome * EntityRegistry * cells :=
  match active self !! triple with
  | Some entry => (Existing (entry_mailbox entry) (entry_triple entry), self, cs)
  | None =>
      let mailbox := make_mailbox () in
      let epoch := next_epoch self in
      let cell := length cs in
      (Inserted mailbox epoch cell,
       mk_registry (<[triple := mk_entry mailbox cell epoch triple]> (active self))
         (u64_wrapping_succ epoch) (passivated_entities self),
       cs ++ [Recovering])
  end.

Definition registry_lookup (triple : EntityTriple) (self : EntityRegistry) : option M :=
  entry_mailbox <$> active self !! triple.

Definition deactivate_if_mine (triple : EntityTriple) (epoch : Z) (self : EntityRegistry) :
    EntityRegistry :=
  match active self !! triple with
  | Some entry =>
      if decide (entry_epoch entry = epoch)
      then mk_registry (delete triple (active self)) (next_epoch self) (passivated_entities self)
      else self
  | None => self
  end.

Definition published (cs : cells) (entry : ActiveEntry) : option EntityState :=
  cs !! entry_rx entry.

Definition active_count (self : EntityRegistry) (cs : cells) : nat :=
  length (filter (λ entry, published cs entry = Some Active) (map_to_list (active self)).*2).

Definition passivated_count (self : EntityRegistry) : nat := size (passivated_entities self).

(** [keys().next()] is the first key of the iteration order [it]. *)
Definition mark_passivated (triple : EntityTriple) (version : Z)
    (it : list (EntityTriple * Z)) (self : EntityRegistry) : EntityRegistry :=
  let passivated := passivated_entities self in
  let passivated :=
    if decide (MAX_PASSIVATED_ENTRIES ≤ Z.of_nat (size passivated))%Z then
      match it with
      | (oldest, _) :: _ => delete oldest passivated
      | [] => passivated
      end
    else passivated in
  mk_registry (active self) (next_epoch self) (<[triple := version]> passivated).

(** The owner check of [TokioEntityRef::new]; [fmt] renders the message. *)
Definition ensure_owner_matches (fmt : EntityTriple → EntityTriple → string)
    (triple owner : EntityTriple) : result EntityError unit :=
  if decide (owner ≠ triple) then Err (Internal (fmt triple owner)) else Ok ().

(** The registry's part of [TeardownGuard::drop]: steps 3 and 4. *)
Definition teardown (triple : EntityTriple) (epoch : Z) (tx : nat)
    (self : EntityRegistry) (cs : cells) : EntityRegistry * cells :=
  (deactivate_if_mine triple epoch self,
   match cs !! tx with
   | Some current =>
       if decide (current ≠ Failed ∧ current ≠ Passivated) then <[tx := Failed]> cs else cs
   | None => cs
   end).

(** ** Activations

    The registry shared by any number of callers and actors.  [live] lists the
    activations whose guard has not been dropped: triple, epoch, cell and the mailbox
    its actor receives from. *)
Record system := mk_system {
  reg : EntityRegistry;
  cls : cells;
  live : list (EntityTriple * Z * nat * M);
}.

Inductive step : system → system → Prop :=
| step_reuse s triple mk mailbox owner reg' cs' :
    lookup_or_insert triple mk (reg s) (cls s) = (Existing mailbox owner, reg', cs') →
    step s (mk_system reg' cs' (live s))
| step_activate s triple mk mailbox epoch tx reg' cs' :
    lookup_or_insert triple mk (reg s) (cls s) = (Inserted mailbox epoch tx, reg', cs') →
    step s (mk_system reg' cs' ((triple, epoch, tx, mailbox) :: live s))
| step_publish s triple epoch tx mailbox st :
    (triple, epoch, tx, mailbox) ∈ live s →
    step s (mk_system (reg s) (<[tx := st]> (cls s)) (live s))
| step_passivated s triple version it :
    iteration (passivated_entities (reg s)) it →
    step s (mk_system (mark_passivated triple version it (reg s)) (cls s) (live s))
| step_teardown s l1 l2 triple epoch tx mailbox reg' cs' :
    live s = l1 ++ (triple, epoch, tx, mailbox) :: l2 →
    teardown triple epoch tx (reg s) (cls s) = (reg', cs') →
    step s (mk_system reg' cs' (l1 ++ l2))
| step_stale s triple epoch :
    (0 ≤ epoch < next_epoch (reg s))%Z → epoch ∉ (snd ∘ fst ∘ fst) <$> live s →
    step s (mk_system (deactivate_if_mine triple epoch (reg s)) (cls s) (live s)).

Definition initial : system := mk_system registry_new [] [].

(** ** Invariant *)
Record inv (n : nat) (s : system) : Prop := mk_inv {
  inv_next : (0 ≤ next_epoch (reg s) ≤ Z.of_nat n)%Z;
  inv_active : ∀ t en, active (reg s) !! t = Some en →
    entry_triple en = t ∧ (t, entry_epoch en, entry_rx en, entry_mailbox en) ∈ live s;
  inv_live : ∀ t e c m, (t, e, c, m) ∈ live s →
    (0 ≤ e < next_epoch (reg s))%Z ∧ c < length (cls s) ∧
    active (reg s) !! t = Some (mk_entry m c e t);
  inv_nodup : NoDup (live s);
  inv_passivated : (Z.of_nat (size (passivated_entities (reg s))) ≤ MAX_PASSIVATED_ENTRIES)%Z;
}.

Lemma inv_initial : inv 0 initial.
Proof.
  split; simpl; [lia|set_solver|set_solver|apply NoDup_nil_2|].
  rewrite map_size_empty. unfold MAX_PASSIVATED_ENTRIES. lia.
Qed.

Lemma live_unique n s t e c m e' c' m' :
  inv n s → (t, e, c, m) ∈ live s → (t, e', c', m') ∈ live s → (e, c, m) = (e', c', m').
Proof.
  intros Hi (_ & _ & H1)%(inv_live _ _ Hi) (_ & _ & H2)%(inv_live _ _ Hi). congruence.
Qed.

Lemma mark_passivated_size triple version it (r : EntityRegistry) :
  iteration (passivated_entities r) it →
  (Z.of_nat (size (passivated_entities r)) ≤ MAX_PASSIVATED_ENTRIES)%Z →
  (Z.of_nat (size (passivated_entities (mark_passivated triple version it r)))
   ≤ MAX_PASSIVATED_ENTRIES)%Z.
Proof.
  intros Hit Hle. unfold mark_passivated. simpl.
  assert (∀ m : gmap EntityTriple Z, size (<[triple := version]> m) ≤ S (size m)) as Hins.
  { intros m. rewrite map_size_insert. case_match; simpl; lia. }
  case_decide as Hd; [|specialize (Hins (passivated_entities r)); lia].
  destruct it as [|[oldest v] it].
  { apply iteration_length in Hit. simpl in Hit. unfold MAX_PASSIVATED_ENTRIES in *. lia. }
  assert (passivated_entities r !! oldest = Some v) as Ho.
  { apply (iteration_elem _ _ _ _ Hit). set_solver. }
  specialize (Hins (delete oldest (passivated_entities r))).
  rewrite map_size_delete_Some in Hins by eauto. unfold MAX_PASSIVATED_ENTRIES in *. lia.
Qed.

Lemma inv_activate n s triple mk mailbox epoch tx reg' cs' :
  (Z.of_nat (S n) ≤ u64_max)%Z → inv n s →
  lookup_or_insert triple mk (reg s) (cls s) = (Inserted mailbox epoch tx, reg', cs') →
  inv (S n) (mk_system reg' cs' ((triple, epoch, tx, mailbox) :: live s)).
Proof.
  intros Hn Hi H. pose proof (inv_next _ _ Hi) as Hnext.
  unfold lookup_or_insert in H. destruct (active (reg s) !! triple) eqn:Ht; [done|].
  simplify_eq. assert (Hsucc : u64_wrapping_succ (next_epoch (reg s)) = (next_epoch (reg s) + 1)%Z).
  { unfold u64_wrapping_succ, u64_max in *. rewrite Z.mod_small; lia. }
  split; simpl; rewrite ?Hsucc; [lia| | | |apply (inv_passivated _ _ Hi)].
  - intros t en. destruct (decide (t = triple)) as [->|Hne].
    + rewrite lookup_insert_eq. intros [= <-]. simpl. split; [done|]. by left.
    + rewrite lookup_insert_ne by done. intros [??]%(inv_active _ _ Hi).
      split; [done|by right].
  - intros t e c m [Heq|Hin]%elem_of_cons; rewrite length_app; simpl.
    + simplify_eq. split_and!; [lia..|]. by rewrite lookup_insert_eq.
    + apply (inv_live _ _ Hi) in Hin as (? & ? & Hen).
      split_and!; [lia..|]. rewrite lookup_insert_ne; [done|congruence].
  - apply NoDup_cons. split; [|apply (inv_nodup _ _ Hi)].
    intros (_ & _ & Hen)%(inv_live _ _ Hi). congruence.
Qed.

Lemma teardown_cells triple epoch tx (r r' : EntityRegistry) cs cs' :
  teardown triple epoch tx r cs = (r', cs') →
  r' = deactivate_if_mine triple epoch r ∧ length cs' = length cs.
Proof.
  unfold teardown. intros [= <- <-]. split; [done|].
  destruct (cs !! tx); [|done]. case_decide; [by rewrite length_insert|done].
Qed.

Lemma inv_teardown n s l1 l2 triple epoch tx mailbox reg' cs' :
  inv n s → live s = l1 ++ (triple, epoch, tx, mailbox) :: l2 →
  teardown triple epoch tx (reg s) (cls s) = (reg', cs') →
  inv (S n) (mk_system reg' cs' (l1 ++ l2)).
Proof.
  intros Hi H [-> Hlen]%teardown_cells. pose proof (inv_next _ _ Hi) as Hnext.
  assert (Hin : (triple, epoch, tx, mailbox) ∈ live s) by (rewrite H; set_solver).
  destruct (inv_live _ _ Hi _ _ _ _ Hin) as (He & Hc & Hen).
  pose proof (inv_nodup _ _ Hi) as Hnd. rewrite H, <-Permutation_middle in Hnd.
  apply NoDup_cons in Hnd as [Hnotin Hnd].
  assert (Hother : ∀ t e c m, (t, e, c, m) ∈ l1 ++ l2 → (t, e, c, m) ∈ live s ∧ t ≠ triple).
  { intros t e c m Hl. assert ((t, e, c, m) ∈ live s) as Hls by (rewrite H; set_solver).
    split; [done|]. intros ->. pose proof (live_unique _ _ _ _ _ _ _ _ _ Hi Hls Hin). congruence. }
  unfold deactivate_if_mine. rewrite Hen, decide_True by done.
  split; simpl; [lia| | |done|apply (inv_passivated _ _ Hi)].
  - intros t en'. destruct (decide (t = triple)) as [->|Hne]; [by rewrite lookup_delete_eq|].
    rewrite lookup_delete_ne by done. intros [? Hl]%(inv_active _ _ Hi). split; [done|].
    rewrite H in Hl. set_solver.
  - intros t e c m Hl. destruct (Hother _ _ _ _ Hl) as [Hls Hne].
    apply (inv_live _ _ Hi) in Hls as (? & ? & ?). rewrite Hlen.
    split_and!; [lia..|]. by rewrite lookup_delete_ne.
Qed.

Lemma stale_teardown_is_noop n s triple epoch :
  inv n s → epoch ∉ (snd ∘ fst ∘ fst) <$> live s →
  deactivate_if_mine triple epoch (reg s) = reg s.
Proof.
  intros Hi Hstale. unfold deactivate_if_mine.
  destruct (active (reg s) !! triple) as [en|] eqn:Hen; [|done].
  case_decide as Hep; [|done]. destruct Hstale.
  apply (inv_active _ _ Hi) in Hen as [_ Hl]. apply list_elem_of_fmap.
  exists (triple, entry_epoch en, entry_rx en, entry_mailbox en). by subst.
Qed.

Lemma inv_step n s s' :
  (Z.of_nat (S n) ≤ u64_max)%Z → inv n s → step s s' → inv (S n) s'.
Proof.
  intros Hn Hi Hstep. pose proof (inv_next _ _ Hi) as Hnext. destruct Hstep.
  - unfold lookup_or_insert in H. destruct (active (reg s) !! triple) eqn:Ht; [|done].
    simplify_eq. destruct Hi. split; simpl; try done. lia.
  - by eapply inv_activate.
  - destruct Hi as [? ? Hl]. split; simpl; try done; [lia|]. intros t e c m Hin.
    rewrite length_insert. by apply Hl.
  - destruct Hi as [? ? ? ? Hp]. split; simpl; try done; [lia|].
    by apply mark_passivated_size.
  - by eapply inv_teardown.
  - rewrite (stale_teardown_is_noop n) by done. destruct Hi. split; simpl; try done. lia.
Qed.

Lemma inv_nsteps n s : (Z.of_nat n ≤ u64_max)%Z → nsteps step n initial s → inv n s.
Proof.
  revert s. induction n as [|n IH]; intros s Hn Hs.
  { inversion Hs; subst. apply inv_initial. }
  apply nsteps_inv_r in Hs as (s1 & Hs1 & Hstep). eapply inv_step; [done| |done].
  apply IH; [lia|done].
Qed.

(** ** Properties *)

(** C22: Single flight, over any interleaving of activations, publications, teardowns
    and stale teardown calls, as long as the 64-bit epoch counter has not
    wrapped: at most one activation of a triple is alive, and the routing table
    holds exactly the live activations, each under its own triple and with the
    mailbox its actor receives from.  So a caller that finds an entry gets the
    mailbox of the one live activation of its triple, with the owner check
    passing and nothing changed, and a caller that activates is the only one: no
    activation of that triple was alive, and later callers get its mailbox. *)
Theorem single_flight n s fmt :
  (Z.of_nat n ≤ u64_max)%Z → nsteps step n initial s →
  (∀ t e c m e' c' m', (t, e, c, m) ∈ live s → (t, e', c', m') ∈ live s →
     (e, c, m) = (e', c', m')) ∧
  (∀ t m, registry_lookup t (reg s) = Some m ↔ ∃ e c, (t, e, c, m) ∈ live s) ∧
  (∀ t mk outcome r cs,
     lookup_or_insert t mk (reg s) (cls s) = (outcome, r, cs) →
     match outcome with
     | Existing mailbox owner =>
         (∃ e c, (t, e, c, mailbox) ∈ live s) ∧ r = reg s ∧ cs = cls s ∧
         ensure_owner_matches fmt t owner = Ok ()
     | Inserted mailbox epoch tx =>
         (∀ e c m, (t, e, c, m) ∉ live s) ∧ mailbox = mk () ∧ registry_lookup t r = Some mailbox
     end).
Proof.
  intros Hn Hi%inv_nsteps; [|done]. split_and!.
  - intros t e c m e' c' m' H1 H2. by eapply live_unique.
  - intros t m. unfold registry_lookup. split.
    + intros (en & [_ Hl]%(inv_active _ _ Hi) & ->)%fmap_Some. eauto.
    + intros (e & c & (_ & _ & ->)%(inv_live _ _ Hi)). done.
  - intros t mk outcome r cs. unfold lookup_or_insert, ensure_owner_matches, registry_lookup.
    destruct (active (reg s) !! t) as [en|] eqn:Hen; intros [= <- <- <-].
    + apply (inv_active _ _ Hi) in Hen as [-> Hl]. split_and!; [eauto|done|done|].
      by rewrite decide_False by naive_solver.
    + split_and!; [|done|simpl; by rewrite lookup_insert_eq].
      intros e c m (_ & _ & Hen')%(inv_live _ _ Hi). congruence.
Qed.

(** Teardown is scoped to its own activation: a live activation's guard removes its
    entry and no other, publishes [Failed] unless the actor already published a
    terminal state, and a stale call, whatever triple it names, changes nothing,
    so a superseded actor cannot evict its successor. *)
Lemma teardown_is_scoped n s t e c m :
  (Z.of_nat n ≤ u64_max)%Z → nsteps step n initial s → (t, e, c, m) ∈ live s →
  (∀ t', active (teardown t e c (reg s) (cls s)).1 !! t'
         = if decide (t' = t) then None else active (reg s) !! t') ∧
  (∃ st, (teardown t e c (reg s) (cls s)).2 !! c = Some st ∧ (st = Failed ∨ st = Passivated)) ∧
  (∀ t' e', e' ∉ (snd ∘ fst ∘ fst) <$> live s → deactivate_if_mine t' e' (reg s) = reg s).
Proof.
  intros Hn Hi%inv_nsteps Hin; [|done].
  destruct (inv_live _ _ Hi _ _ _ _ Hin) as (_ & Hc & Hen). split_and!.
  - intros t'. simpl. unfold deactivate_if_mine. rewrite Hen, decide_True by done. simpl.
    case_decide as Ht; [subst; by rewrite lookup_delete_eq|by rewrite lookup_delete_ne].
  - simpl. destruct (lookup_lt_is_Some_2 (cls s) c Hc) as [st Hst]. rewrite Hst.
    case_decide as Hd; [exists Failed|exists st].
    + split; [by apply list_lookup_insert_eq|by left].
    + split; [done|]. destruct st; naive_solver.
  - intros t' e' Hstale. by eapply stale_teardown_is_noop.
Qed.

(** The record of passivated entities is bounded: it never holds more than
    [MAX_PASSIVATED_ENTRIES] entries however many entities passivate and
    whichever entry is evicted, and the entity just passivated is always in it
    with its version. *)
Lemma passivated_is_bounded n s :
  (Z.of_nat n ≤ u64_max)%Z → nsteps step n initial s →
  (Z.of_nat (passivated_count (reg s)) ≤ MAX_PASSIVATED_ENTRIES)%Z ∧
  ∀ t v it, passivated_entities (mark_passivated t v it (reg s)) !! t = Some v.
Proof.
  intros Hn Hi%inv_nsteps; [|done]. split; [apply (inv_passivated _ _ Hi)|].
  intros t v it. apply lookup_insert_eq.
Qed.
End registry.
Arguments EntityRegistry : clear implicits.
Arguments ActiveEntry : clear implicits.
Arguments system : clear implicits.

(** ** Witnesses *)
Definition ex_triple : EntityTriple := mk_triple "acme" "account" "1".
Definition ex_system : system nat :=
  mk_system (mk_registry {[ex_triple := mk_entry 42 0 0 ex_triple]} 1 ∅) [Recovering]
    [(ex_triple, 0%Z, 0, 42)].

Lemma ex_system_reached : nsteps step 1 (initial (M:=nat)) ex_system.
Proof.
  apply nsteps_once. apply (step_activate initial ex_triple (λ _, 42) 42 0 0). reflexivity.
Qed.

(** A second caller is routed to the mailbox of the activation that is alive. *)
Lemma single_flight_witness :
  lookup_or_insert ex_triple (λ _, 7) (reg ex_system) (cls ex_system)
    = (Existing 42 ex_triple, reg ex_system, cls ex_system) ∧
  (∃ e c, (ex_triple, e, c, 42) ∈ live ex_system) ∧
  ∀ m, registry_lookup ex_triple (reg ex_system) = Some m ↔
    ∃ e c, (ex_triple, e, c, m) ∈ live ex_system.
Proof.
  assert (lookup_or_insert ex_triple (λ _, 7) (reg ex_system) (cls ex_system)
    = (Existing 42 ex_triple, reg ex_system, cls ex_system)) as Hl.
  { unfold lookup_or_insert, ex_system. cbn [reg cls active].
    rewrite (lookup_singleton_eq (M:=gmap EntityTriple)). reflexivity. }
  pose proof (single_flight 1 ex_system (λ _ _, "mismatch") ltac:(unfold u64_max; lia)
    ex_system_reached) as (_ & H1 & H2).
  split; [exact Hl|]. split; [apply (H2 _ _ _ _ _ Hl)|apply H1].
Defined.

Lemma teardown_is_scoped_witness :
  active (teardown ex_triple 0 0 (reg ex_system) (cls ex_system)).1 !! ex_triple = None.
Proof.
  rewrite (proj1 (teardown_is_scoped 1 ex_system ex_triple 0 0 42
    ltac:(unfold u64_max; lia) ex_system_reached ltac:(left))).
  reflexivity.
Defined.

Lemma passivated_is_bounded_witness :
  (Z.of_nat (passivated_count (reg ex_system)) ≤ MAX_PASSIVATED_ENTRIES)%Z.
Proof.
  refine (proj1 (passivated_is_bounded 1 ex_system _ _)).
  - unfold u64_max. lia.
  - apply ex_system_reached.
Defined.
