(* ===== verification/Effect.v ===== *)
(** * Effect values

    The effect descriptions handlers return (crates/domain, effect.rs) and the
    acceptance error of crates/persistent-entity (effect_acceptor.rs). *)

From S2P Require Import Prelude Identity.

Record ExternalEffectDescription := mk_description {
  description_idempotency_key : IdempotencyKey;
  description_effect_type : string;
  description_payload : list Byte.byte;
  description_destination : string;
}.

#[export] Instance ExternalEffectDescription_eq_dec : EqDecision ExternalEffectDescription.
Proof. solve_decision. Defined.

Inductive EffectAcceptanceError :=
| RetriesExhausted (message : string) (failed_at_index : nat)
    (failed_idempotency_key : IdempotencyKey)
| Permanent (message : string) (failed_at_index : nat)
    (failed_idempotency_key : IdempotencyKey).

#[local] Set Warnings "-register-all".

Section effect.
Context {E R S : Type}.

Inductive Effect :=
| NoEffect
| StateMutation (s : S)
| EventEmission (es : list E)
| Reply (r : R)
| ExternalEffects (es : list ExternalEffectDescription)
| Composed (children : list Effect).

(** [collect_children] appends to its accumulator. *)
Fixpoint collect_children (self : Effect) (acc : list Effect) : list Effect :=
  match self with
  | Composed children => foldl (λ acc child, collect_children child acc) acc children
  | NoEffect => acc
  | other => acc ++ [other]
  end.

Definition and_then (self other : Effect) : Effect :=
  match self, other with
  | NoEffect, _ => other
  | _, NoEffect => self
  | _, _ => Composed (collect_children other (collect_children self []))
  end.

(** ** Properties *)

(** What an effect asks for, in order: its leaves. *)
Fixpoint leaves (e : Effect) : list Effect :=
  match e with
  | Composed children => mjoin (leaves <$> children)
  | NoEffect => []
  | other => [other]
  end.

Definition is_leaf (e : Effect) : Prop :=
  match e with NoEffect | Composed _ => False | _ => True end.

Lemma Effect_nested_ind (P : Effect → Prop) :
  (∀ e, (∀ children, e ≠ Composed children) → P e) →
  (∀ children, Forall P children → P (Composed children)) → ∀ e, P e.
Proof.
  intros Hbase Hcomp. fix IH 1. intros [| | | | |children]; try (apply Hbase; done).
  apply Hcomp. induction children; constructor; auto.
Qed.

Lemma collect_children_leaves e acc : collect_children e acc = acc ++ leaves e.
Proof.
  revert acc. induction e as [e He|children IH] using Effect_nested_ind; intros acc.
  { destruct e; simpl; rewrite ?app_nil_r; naive_solver. }
  simpl. revert acc. induction IH as [|e children He _ IHc]; intros acc; simpl.
  { by rewrite app_nil_r. }
  by rewrite He, IHc, <-app_assoc.
Qed.

Lemma leaves_are_leaves e : Forall is_leaf (leaves e).
Proof.
  induction e as [e He|children IH] using Effect_nested_ind.
  - destruct e; simpl; repeat constructor; naive_solver.
  - simpl. induction IH as [|e children He _ IHc]; simpl; [constructor|].
    by apply Forall_app.
Qed.

Lemma leaves_flat es : Forall is_leaf es → leaves (Composed es) = es.
Proof.
  induction 1 as [|e es He _ IH]; [done|].
  change (leaves e ++ leaves (Composed es) = e :: es). rewrite IH. by destruct e.
Qed.

(** [and_then] composes effects without losing, repeating or reordering any: the
    combined effect asks for what the first asks for and then what the second
    asks for, nesting is flattened (a freshly composed effect has no [NoEffect]
    and no nested [Composed] child), and combining is associative up to what is
    asked for, with [NoEffect] as its unit. *)
Lemma and_then_is_sequencing a b c :
  leaves (and_then a b) = leaves a ++ leaves b ∧
  leaves (and_then (and_then a b) c) = leaves (and_then a (and_then b c)) ∧
  and_then NoEffect a = a ∧ and_then a NoEffect = a ∧
  (a ≠ NoEffect → b ≠ NoEffect →
   ∃ children, and_then a b = Composed children ∧ Forall is_leaf children).
Proof.
  assert (∀ a b, leaves (and_then a b) = leaves a ++ leaves b) as Hseq.
  { intros x y.
    assert (x = NoEffect ∨ y = NoEffect ∨
            and_then x y = Composed (leaves x ++ leaves y)) as [-> | [-> | ->]].
    - destruct x, y; auto; right; right; unfold and_then;
        by rewrite !collect_children_leaves.
    - done.
    - destruct x; simpl; by rewrite ?app_nil_r.
    - apply leaves_flat, Forall_app. split; apply leaves_are_leaves. }
  split_and!; [apply Hseq|by rewrite !Hseq, app_assoc|done|by destruct a|].
  intros Ha Hb. exists (leaves a ++ leaves b). split.
  - destruct a, b; try done; unfold and_then; by rewrite !collect_children_leaves.
  - apply Forall_app. split; apply leaves_are_leaves.
Qed.
End effect.
Arguments Effect : clear implicits.
