(* ===== verification/Actor.v ===== *)
(** * The entity actor

    [EntityActor] (crates/persistent-entity, actor.rs): recovery, the command
    path with its receipt gate, and passivation, over the persistence facade.
    The domain handler, the publisher, the effect acceptor, the snapshot strategy
    and serde are supplied by the host; they are fields of [Host].  What the
    actor does besides changing its own fields and the stores is recorded in a
    trace, in the order the code does it. *)

From S2P Require Import Prelude Identity EventStore Snapshots Facade Lifecycle Effect.

(** ** Data *)
Inductive CommandResult (E S : Type) :=
| REvents (new_state : S) (events : list E)
| RNoEvents (state : S)
| RReplayed (outcome : AggregateOutcome)
| REffectsAcceptanceFailed (new_state : S) (events : list E) (error : EffectAcceptanceError).
Arguments REvents {E S} new_state events.
Arguments RNoEvents {E S} state.
Arguments RReplayed {E S} outcome.
Arguments REffectsAcceptanceFailed {E S} new_state events error.

(** [SchedulerEvent]: what the actor emits on the scheduler bus. *)
Inductive SchedulerEvent :=
| SlotFreed
| CommandArrived (entity : EntityTriple)
| CircuitBreakerExpired (entity : EntityTriple)
| ExecutionCompleted (entity : EntityTriple) (state_version : Z)
| EntityStateUpdated (entity : EntityTriple) (state_version : Z)
| RecoveryCompleted (entity : EntityTriple) (state_version : Z).

(** [ActorEnvelope]: the reply channel is named by a number. *)
Record ActorEnvelope (C : Type) := mk_envelope {
  env_command : C;
  env_context : CommandContext;
  env_reply : nat;
}.
Arguments mk_envelope {C} env_command env_context env_reply.
Arguments env_command {C} _.
Arguments env_context {C} _.
Arguments env_reply {C} _.

Inductive Action (C E S : Type) :=
| AHandle (command : C)
| ACount (outcome aggregate_type : string)
| AEmit (event : SchedulerEvent)
| APublish (events : list E)
| AAccept (tenant : TenantId) (effects : list ExternalEffectDescription)
| AMarkPassivated (triple : EntityTriple) (version : Z)
| AReply (channel : nat) (reply : result EntityError (CommandResult E S)).
Arguments AHandle {C E S} command.
Arguments ACount {C E S} outcome aggregate_type.
Arguments AEmit {C E S} event.
Arguments APublish {C E S} events.
Arguments AAccept {C E S} tenant effects.
Arguments AMarkPassivated {C E S} triple version.
Arguments AReply {C E S} channel reply.

(** What the host wires into an actor; [ω] is the acceptor's own state. *)
Record Host (C E S J ω : Type) := mk_host {
  initial_state : S;
  handle_command : C → S → CommandContext → result EntityError (list E);
  apply_events : S → list E → result EntityError S;
  external_effects : C → S → list E → CommandContext → list ExternalEffectDescription;
  should_snapshot : Z → Z → result EntityError bool;
  effect_acceptor : option (TenantId → list ExternalEffectDescription → ω →
    result EffectAcceptanceError unit * ω);
  observed : bool;
  to_value : S → option J;
  from_value : J → option S;
  null_value : J;
  debug_str : string → string;
}.
Arguments initial_state {C E S J ω} _.
Arguments handle_command {C E S J ω} _ _ _ _.
Arguments apply_events {C E S J ω} _ _ _.
Arguments external_effects {C E S J ω} _ _ _ _ _.
Arguments should_snapshot {C E S J ω} _ _ _.
Arguments effect_acceptor {C E S J ω} _.
Arguments observed {C E S J ω} _.
Arguments to_value {C E S J ω} _ _.
Arguments from_value {C E S J ω} _ _.
Arguments null_value {C E S J ω} _.
Arguments debug_str {C E S J ω} _ _.

Record Actor (S : Type) := mk_actor {
  entity_id : EntityTriple;
  state : option S;
  version : Z;
  lifecycle : EntityState;
  tx : EntityState;   (* the last published state *)
}.
Arguments mk_actor {S} entity_id state version lifecycle tx.
Arguments entity_id {S} _.
Arguments state {S} _.
Arguments version {S} _.
Arguments lifecycle {S} _.
Arguments tx {S} _.

Record World (C E S σ τ ω : Type) := mk_world {
  w_store : σ;
  w_snaps : τ;
  w_acceptor : ω;
  w_trace : list (Action C E S);
}.
Arguments mk_world {C E S σ τ ω} w_store w_snaps w_acceptor w_trace.
Arguments w_store {C E S σ τ ω} _.
Arguments w_snaps {C E S σ τ ω} _.
Arguments w_acceptor {C E S σ τ ω} _.
Arguments w_trace {C E S σ τ ω} _.

Section actor.
Context {C E S J σ υ τ ω : Type} `{!EventStoreOps E σ υ} `{!SnapshotOps J τ}.
Context (host : Host C E S J ω).
Abbreviation Actor := (Actor S).
Abbreviation World := (World C E S σ τ ω).
Implicit Types (a : Actor) (w : World) (env : ActorEnvelope C).

Definition say (act : Action C E S) w : World :=
  mk_world (w_store w) (w_snaps w) (w_acceptor w) (w_trace w ++ [act]).
Definition set_store (s : σ) w : World :=
  mk_world s (w_snaps w) (w_acceptor w) (w_trace w).
Definition set_snaps (snaps : τ) w : World :=
  mk_world (w_store w) snaps (w_acceptor w) (w_trace w).
Definition set_acceptor (acc : ω) w : World :=
  mk_world (w_store w) (w_snaps w) acc (w_trace w).

Definition transition (st : EntityState) a : Actor :=
  mk_actor (entity_id a) (state a) (version a) (transition_to (lifecycle a) st).2 st.

Definition count_receipt_outcome (outcome : string) a w : World :=
  if observed host then say (ACount outcome (aggregate_type (entity_id a))) w else w.

Definition error_str (e : EntityError) : string := EntityError_to_string (debug_str host) e.

(** [serde_json::to_value(&state).unwrap_or(Value::Null)] *)
Definition snapshot_payload (s : S) : J := default (null_value host) (to_value host s).

(** ** Recovery *)
Definition rebuild_state_from_persistence a w : result string (S * Z) :=
  '(snap_data, stored_events) ←
    load_for_recovery (aggregate_type (entity_id a)) (triple_entity_id (entity_id a))
      (Some (triple_tenant_id (entity_id a))) (w_store w) (w_snaps w);
  let '(st, snap_version) :=
    match snap_data with
    | Some snap =>
        (default (initial_state host) (from_value host (Facade.snap_data snap)),
         snap_version snap)
    | None => (initial_state host, 0%Z)
    end in
  match stored_events with
  | [] => Ok (st, snap_version)
  | _ =>
      new_state ← map_err (λ e, "event replay failed: " +:+ error_str e)
                    (apply_events host st (row_event <$> stored_events));
      Ok (new_state, (snap_version + Z.of_nat (length stored_events))%Z)
  end.

Definition recover_state a w : Actor * World :=
  match rebuild_state_from_persistence a w with
  | Ok (st, v) =>
      (transition Active (mk_actor (entity_id a) (Some st) v (lifecycle a) (tx a)),
       say (AEmit (RecoveryCompleted (entity_id a) v)) w)
  | Err _ => (transition Failed a, w)
  end.

(** ** The command path *)

(** The receipt an identified command writes. *)
Definition receipt_for a (identity : OperationIdentity) (outcome : AggregateOutcome) :
    OperationReceipt :=
  mk_receipt (aggregate_type (entity_id a)) (triple_entity_id (entity_id a))
    (match id_new TenantTag (triple_tenant_id (entity_id a)) with
     | Ok t => Some t | Err _ => None end)
    (identity_key identity) (identity_fingerprint identity) outcome.

Definition find_operation a (identity : OperationIdentity) w :
    result PersistenceError (option OperationReceipt) :=
  facade_find_receipt (E:=E) (υ:=υ) (aggregate_type (entity_id a))
    (triple_entity_id (entity_id a)) (Some (triple_tenant_id (entity_id a)))
    (key_str (identity_key identity)) (w_store w).

(** The idempotency gate: [Some reply] ends the command here. *)
Definition receipt_gate a (context : CommandContext) w :
    option (result EntityError (CommandResult E S)) * World :=
  match ctx_identity context with
  | None => (None, w)
  | Some identity =>
      match find_operation a identity w with
      | Err e =>
          (Some (Err (PersistenceFailed ("could not read the operation receipt: "
             +:+ PersistenceError_to_string e))), w)
      | Ok (Some receipt) =>
          if decide (receipt_fingerprint receipt = identity_fingerprint identity)
          then (Some (Ok (RReplayed (receipt_outcome receipt))),
                count_receipt_outcome "already_applied" a w)
          else (Some (Err (OperationConflict (key_str (identity_key identity)))),
                count_receipt_outcome "conflict" a w)
      | Ok None => (None, w)
      end
  end.

Definition save_with_receipt a (events : list E) (receipt : OperationReceipt) w :
    result string Z * World :=
  let '(r, s) :=
    persist_events_with_receipt (aggregate_type (entity_id a))
      (triple_entity_id (entity_id a)) (Some (triple_tenant_id (entity_id a)))
      (version a) events receipt (w_store w) in
  (r, set_store s w).

(** [Ok(events) if events.is_empty()] *)
Definition on_no_events env (current_state : S) a w : Actor * World :=
  let done w := say (AReply (env_reply env) (Ok (RNoEvents current_state))) w in
  match ctx_identity (env_context env) with
  | None => (a, done w)
  | Some identity =>
      match save_with_receipt a [] (receipt_for a identity NoEvents) w with
      | (Err e, w) => (a, say (AReply (env_reply env) (Err (PersistenceFailed e))) w)
      | (Ok _, w) => (a, done (count_receipt_outcome "confirmed" a w))
      end
  end.

(** The snapshot taken after a commit; its failure is ignored. *)
Definition maybe_snapshot (st : S) (new_version : Z) (event_count : Z) a w : World :=
  match should_snapshot host new_version event_count with
  | Ok true =>
      let '(_, snaps) :=
        store_snapshot (aggregate_id (entity_id a)) (Some (triple_tenant_id (entity_id a)))
          new_version (snapshot_payload st) (w_snaps w) in
      set_snaps snaps w
  | _ => w
  end.

(** Handing the described effects to the acceptor, after the commit. *)
Definition accept_effects (described : list ExternalEffectDescription) a w :
    result EffectAcceptanceError unit * World :=
  match described with
  | [] => (Ok (), w)
  | first :: _ =>
      let key := description_idempotency_key first in
      match effect_acceptor host with
      | Some accept =>
          match id_new TenantTag (triple_tenant_id (entity_id a)) with
          | Ok tenant =>
              let w := say (AAccept tenant described) w in
              let '(r, acc) := accept tenant described (w_acceptor w) in
              (r, set_acceptor acc w)
          | Err _ =>
              (Err (Permanent ("invalid tenant identity '" +:+ triple_tenant_id (entity_id a)
                 +:+ "' for effect acceptance") 0 key), w)
          end
      | None =>
          (Err (Permanent "external effects were described but no EffectAcceptor is configured"
             0 key), w)
      end
  end.

(** The sequence after a successful persist. *)
Definition after_persist env (current_state : S) (events : list E) (new_version : Z) a w :
    Actor * World :=
  match apply_events host current_state events with
  | Err e =>
      (transition Failed a, say (AReply (env_reply env) (Err (PersistenceFailed (error_str e)))) w)
  | Ok st =>
      let a := mk_actor (entity_id a) (Some st) new_version (lifecycle a) (tx a) in
      let w := say (AEmit (ExecutionCompleted (entity_id a) new_version)) w in
      let w := say (AEmit (EntityStateUpdated (entity_id a) new_version)) w in
      let w := maybe_snapshot st new_version (Z.of_nat (length events)) a w in
      let w := say (APublish events) w in
      let described :=
        external_effects host (env_command env) st events (env_context env) in
      match accept_effects described a w with
      | (Err error, w) =>
          (a, say (AReply (env_reply env) (Ok (REffectsAcceptanceFailed st events error))) w)
      | (Ok _, w) => (a, say (AReply (env_reply env) (Ok (REvents st events))) w)
      end
  end.

(** [Ok(events)]: [None] when the version range cannot be encoded. *)
Definition persist_step env (events : list E) a w : option (result string Z) * World :=
  match ctx_identity (env_context env) with
  | Some identity =>
      match AggregateOutcome_events (as_i64 (version a) + 1)
              (as_i64 (version a) + Z.of_nat (length events)) with
      | Err _ => (None, w)
      | Ok outcome =>
          let '(r, w) := save_with_receipt a events (receipt_for a identity outcome) w in
          (Some r, w)
      end
  | None =>
      let '(r, s) :=
        persist_events (aggregate_type (entity_id a)) (triple_entity_id (entity_id a))
          (Some (triple_tenant_id (entity_id a))) (version a) events (w_store w) in
      (Some r, set_store s w)
  end.

Definition outcome_error_str (events : list E) a : string :=
  match AggregateOutcome_events (as_i64 (version a) + 1)
          (as_i64 (version a) + Z.of_nat (length events)) with
  | Err OutcomeInverted => "Inverted"
  | Err OutcomeEmpty => "Empty"
  | Ok _ => ""
  end.

Definition on_events env (current_state : S) (events : list E) a w : Actor * World :=
  match persist_step env events a w with
  | (None, w) =>
      (a, say (AReply (env_reply env)
             (Err (Internal ("the appended version range is not encodable: "
                +:+ outcome_error_str events a)))) w)
  | (Some (Ok new_version), w) =>
      let w := if decide (is_Some (ctx_identity (env_context env)))
               then count_receipt_outcome "confirmed" a w else w in
      after_persist env current_state events new_version a w
  | (Some (Err e), w) =>
      (transition Failed a, say (AReply (env_reply env) (Err (PersistenceFailed e))) w)
  end.

Definition dispatch env (current_state : S) a w : Actor * World :=
  let w := say (AHandle (env_command env)) w in
  match handle_command host (env_command env) current_state (env_context env) with
  | Ok [] => on_no_events env current_state a w
  | Ok events => on_events env current_state events a w
  | Err err => (a, say (AReply (env_reply env) (Err (Internal (error_str err)))) w)
  end.

Definition execute_command env a w : Actor * World :=
  match state a with
  | None => (a, say (AReply (env_reply env) (Err EntityNotActive)) w)
  | Some current_state =>
      match receipt_gate a (env_context env) w with
      | (Some r, w) => (a, say (AReply (env_reply env) r) w)
      | (None, w) => dispatch env current_state a w
      end
  end.

(** ** Passivation, after the mailbox has been drained *)
Definition passivate_finish a w : Actor * World :=
  let a := transition Passivating a in
  let w :=
    match state a with
    | Some st =>
        let '(_, snaps) :=
          store_snapshot (aggregate_id (entity_id a)) (Some (triple_tenant_id (entity_id a)))
            (version a) (snapshot_payload st) (w_snaps w) in
        set_snaps snaps w
    | None => w
    end in
  let w := say (AMarkPassivated (entity_id a) (version a)) w in
  (transition Passivated a, w).
End actor.
