(* ===== verification/ActorProps.v ===== *)
(** * Properties of the entity actor

    Exactly one reply per command, the receipt gate, the agreement between the
    actor's memory and its stream, and recovery.  The event store and the
    snapshot store are any that keep the laws of their ports. *)

From S2P Require Import Prelude Identity EventStore Snapshots Facade Lifecycle Effect Actor.

Section props.
Context {C E S J σ υ τ ω : Type} `{HO : !EventStoreOps E σ υ} `{HSO : !SnapshotOps J τ}.
Context (host : Host C E S J ω).
Abbreviation Actor := (Actor S).
Abbreviation World := (World C E S σ τ ω).
Implicit Types (a : Actor) (w : World) (env : ActorEnvelope C) (hist : list E).

(** ** Replies *)
Definition is_reply (act : Action C E S) : Prop :=
  match act with AReply _ _ => True | _ => False end.

(** [w'] continues [w] without replying to anyone. *)
Definition quiet w w' : Prop :=
  ∃ acts, w_trace w' = w_trace w ++ acts ∧ Forall (λ act, ¬ is_reply act) acts.

(** [w'] continues [w] with exactly one reply, at its end and on channel [ch]. *)
Definition replied (ch : nat) (r : result EntityError (CommandResult E S)) w w' : Prop :=
  ∃ acts, w_trace w' = w_trace w ++ acts ++ [AReply ch r] ∧ Forall (λ act, ¬ is_reply act) acts.

Lemma quiet_refl w w' : w_trace w' = w_trace w → quiet w w'.
Proof. intros Heq. exists []. by rewrite Heq, app_nil_r. Qed.

Lemma quiet_trans w1 w2 w3 : quiet w1 w2 → quiet w2 w3 → quiet w1 w3.
Proof.
  intros (acts1 & Ht1 & H1) (acts2 & Ht2 & H2). exists (acts1 ++ acts2).
  rewrite Ht2, Ht1, <-app_assoc. split; [done|]. by apply Forall_app.
Qed.

Lemma quiet_say act w w' : quiet w w' → ¬ is_reply act → quiet w (say act w').
Proof.
  intros (acts & Ht & Hq) Hact. exists (acts ++ [act]). simpl. rewrite Ht, <-app_assoc.
  split; [done|]. apply Forall_app. auto.
Qed.

Lemma quiet_reply ch r w w' : quiet w w' → replied ch r w (say (AReply ch r) w').
Proof. intros (acts & Ht & Hq). exists acts. simpl. by rewrite Ht, <-app_assoc. Qed.

Lemma quiet_trace w w1 w2 : quiet w w1 → w_trace w2 = w_trace w1 → quiet w w2.
Proof. intros (acts & Ht & Hq) Heq. exists acts. by rewrite Heq. Qed.

Lemma quiet_count outcome a w w' : quiet w w' → quiet w (count_receipt_outcome host outcome a w').
Proof.
  unfold count_receipt_outcome. destruct (observed host); [|done].
  intros. apply quiet_say; [done|by intros []].
Qed.

Lemma quiet_snapshot st v n a w w' : quiet w w' → quiet w (maybe_snapshot host st v n a w').
Proof.
  unfold maybe_snapshot. destruct (should_snapshot host v n) as [[]|]; [|done..].
  destruct (store_snapshot _ _ _ _ _) as [? snaps]. intros. by eapply quiet_trace.
Qed.

Lemma quiet_accept described a w w' r w'' :
  quiet w w' → accept_effects host described a w' = (r, w'') → quiet w w''.
Proof.
  intros Hq. unfold accept_effects. destruct described as [|d ds]; [naive_solver|].
  destruct (effect_acceptor host) as [accept|]; [|naive_solver].
  destruct (id_new TenantTag _) as [tenant|]; [|naive_solver].
  destruct (accept tenant (d :: ds) _) as [r0 acc]. intros [= <- <-].
  eapply quiet_trace; [apply (quiet_say (AAccept tenant (d :: ds))); [done|by intros []]|done].
Qed.

Lemma quiet_save a events receipt w r w' :
  save_with_receipt a events receipt w = (r, w') → quiet w w'.
Proof.
  unfold save_with_receipt. destruct (persist_events_with_receipt _ _ _ _ _ _ _).
  intros [= <- <-]. by apply quiet_refl.
Qed.

Lemma quiet_persist env events a w r w' :
  persist_step env events a w = (r, w') → quiet w w'.
Proof.
  unfold persist_step. destruct (ctx_identity (env_context env)) as [identity|].
  - destruct (AggregateOutcome_events _ _) as [o|]; [|intros [= <- <-]; by apply quiet_refl].
    destruct (save_with_receipt _ _ _ _) as [r0 w0] eqn:Hs. intros [= <- <-].
    by eapply quiet_save.
  - destruct (persist_events _ _ _ _ _ _). intros [= <- <-]. by apply quiet_refl.
Qed.

Lemma quiet_gate a context w r w' : receipt_gate host a context w = (r, w') → quiet w w'.
Proof.
  unfold receipt_gate. destruct (ctx_identity context) as [identity|];
    [|intros [= <- <-]; by apply quiet_refl].
  destruct (find_operation a identity w) as [[receipt|]|];
    [|intros [= <- <-]; by apply quiet_refl..].
  case_decide; intros [= <- <-]; by apply quiet_count, quiet_refl.
Qed.

Lemma after_persist_replies env s events v a w0 w a' w' :
  quiet w0 w → after_persist host env s events v a w = (a', w') →
  ∃ r, replied (env_reply env) r w0 w'.
Proof.
  intros Hq. unfold after_persist. destruct (apply_events host s events) as [st|e].
  - match goal with |- context [accept_effects _ _ _ ?w1] => set (w2 := w1) end.
    assert (quiet w0 w2) as Hq2.
    { unfold w2. apply quiet_say; [|by intros []].
      apply quiet_snapshot. by do 2 (apply quiet_say; [|by intros []]). }
    destruct (accept_effects _ _ _ w2) as [[u|err] w3] eqn:Ha; intros [= <- <-];
      eexists; apply quiet_reply; by eapply quiet_accept.
  - intros [= <- <-]. eexists. by apply quiet_reply.
Qed.

Lemma dispatch_replies env s a w0 w a' w' :
  quiet w0 w → dispatch host env s a w = (a', w') → ∃ r, replied (env_reply env) r w0 w'.
Proof.
  intros Hq0. unfold dispatch.
  assert (quiet w0 (say (AHandle (env_command env)) w)) as Hq
    by (apply quiet_say; [done|by intros []]).
  set (w1 := say _ w) in *. clearbody w1.
  destruct (handle_command host _ s _) as [[|ev evs]|err].
  - unfold on_no_events. destruct (ctx_identity (env_context env)) as [identity|];
      [|intros [= <- <-]; eexists; by apply quiet_reply].
    destruct (save_with_receipt _ _ _ _) as [[v|e] w2] eqn:Hs;
      apply quiet_save in Hs; pose proof (quiet_trans _ _ _ Hq Hs);
      intros [= <- <-]; eexists; apply quiet_reply; try done. by apply quiet_count.
  - unfold on_events. destruct (persist_step _ _ _ _) as [[[v|e]|] w2] eqn:Hs;
      apply quiet_persist in Hs; pose proof (quiet_trans _ _ _ Hq Hs).
    + intros Hap. eapply after_persist_replies; [|done]. case_decide; [by apply quiet_count|done].
    + intros [= <- <-]. eexists. by apply quiet_reply.
    + intros [= <- <-]. eexists. by apply quiet_reply.
  - intros [= <- <-]. eexists. by apply quiet_reply.
Qed.

Lemma execute_command_replied env a w :
  ∃ r, replied (env_reply env) r w (execute_command host env a w).2.
Proof.
  destruct (execute_command host env a w) as [a' w'] eqn:Hx. simpl.
  revert Hx. unfold execute_command. destruct (state a) as [s|].
  - destruct (receipt_gate host a (env_context env) w) as [[r|] w1] eqn:Hg;
      apply quiet_gate in Hg.
    + intros [= <- <-]. eexists. by apply quiet_reply.
    + intros Hd. by eapply dispatch_replies.
  - intros [= <- <-]. eexists. by apply quiet_reply, quiet_refl.
Qed.

(** Every command is answered exactly once, on its own channel, after everything
    else the command does, whatever path it takes: not active, gate failure,
    replay, conflict, handler error, persistence failure, replay of the new
    events failing, refused effects, or success. *)
Lemma execute_command_replies_once env a w :
  ∃ acts r,
    w_trace (execute_command host env a w).2 = w_trace w ++ acts ++ [AReply (env_reply env) r] ∧
    Forall (λ act, ¬ is_reply act) acts.
Proof.
  destruct (execute_command_replied env a w) as (r & acts & Ht & Hq). eauto.
Qed.
End props.

Section laws.
Context {C E S J σ υ τ ω : Type}.
Context `{HO : !EventStoreOps E σ υ} `{HL : !EventStoreLaws E σ υ}.
Context `{HSO : !SnapshotOps J τ} `{HSL : !SnapshotLaws J τ}.
Context (host : Host C E S J ω).
Abbreviation Actor := (Actor S).
Abbreviation World := (World C E S σ τ ω).
Implicit Types (a : Actor) (w : World) (env : ActorEnvelope C) (hist : list E).

(** The stream of the actor's entity, and the receipt of an operation against it. *)
Definition stream_of a : StreamKey :=
  (aggregate_type (entity_id a), triple_entity_id (entity_id a),
   Some (triple_tenant_id (entity_id a))).
Definition operation_of a (identity : OperationIdentity) : ReceiptKey :=
  (stream_of a, key_str (identity_key identity)).
Definition stream a w : list E := stored_event <$> es_events (w_store w) (stream_of a).
Definition offset a : Z :=
  es_offset (aggregate_type (entity_id a)) (triple_entity_id (entity_id a))
    (Some (triple_tenant_id (entity_id a))).

(** ** The receipt gate *)

Lemma receipt_gate_found a context identity receipt w :
  ctx_identity context = Some identity →
  es_receipt (w_store w) (operation_of a identity) = Some receipt →
  ∃ r w1, receipt_gate host a context w = (Some r, w1) ∧
    w_store w1 = w_store w ∧ w_snaps w1 = w_snaps w ∧ w_acceptor w1 = w_acceptor w ∧
    (∃ acts, w_trace w1 = w_trace w ++ acts ∧
       Forall (λ act, ∃ o, act = ACount o (aggregate_type (entity_id a))) acts) ∧
    match r with
    | Ok (RReplayed o) =>
        o = receipt_outcome receipt ∧
        receipt_fingerprint receipt = identity_fingerprint identity
    | Err (OperationConflict k) =>
        k = key_str (identity_key identity) ∧
        receipt_fingerprint receipt ≠ identity_fingerprint identity
    | Err (PersistenceFailed _) => ∃ e, find_operation a identity w = Err e
    | _ => False
    end.
Proof.
  intros Hid Hr. unfold receipt_gate. rewrite Hid.
  destruct (find_operation a identity w) as [found|e] eqn:Hf.
  - assert (found = Some receipt) as ->.
    { unfold find_operation, facade_find_receipt in Hf. apply law_find_receipt in Hf as ->. done. }
    case_decide; (eexists _, _; split; [done|]); unfold count_receipt_outcome;
      (destruct (observed host); split_and!; try done;
       [eexists [_]; split; [done|]; repeat constructor; eauto
       |exists []; split; [by rewrite app_nil_r|constructor]]).
  - eexists _, _. split; [done|]. split_and!; try done; [|eauto].
    exists []. split; [by rewrite app_nil_r|constructor].
Qed.

(** C1: An operation that left a receipt never runs again: whatever command arrives
    under its key, the handler is not invoked, nothing is written, published or
    handed to the acceptor and the actor is unchanged; the reply replays the
    recorded outcome when the fingerprint is the recorded one, and otherwise is
    a permanent conflict, or an error when the receipt could not be read. *)
Theorem recorded_operation_never_reruns env identity receipt a w s :
  ctx_identity (env_context env) = Some identity → state a = Some s →
  es_receipt (w_store w) (operation_of a identity) = Some receipt →
  ∃ r acts w', execute_command host env a w = (a, w') ∧
    w_store w' = w_store w ∧ w_snaps w' = w_snaps w ∧ w_acceptor w' = w_acceptor w ∧
    w_trace w' = w_trace w ++ acts ++ [AReply (env_reply env) r] ∧
    Forall (λ act, ∃ o, act = ACount o (aggregate_type (entity_id a))) acts ∧
    match r with
    | Ok (RReplayed o) =>
        o = receipt_outcome receipt ∧
        receipt_fingerprint receipt = identity_fingerprint identity
    | Err (OperationConflict k) =>
        k = key_str (identity_key identity) ∧
        receipt_fingerprint receipt ≠ identity_fingerprint identity
    | Err (PersistenceFailed _) => ∃ e, find_operation a identity w = Err e
    | _ => False
    end.
Proof.
  intros Hid Hs Hr.
  destruct (receipt_gate_found a (env_context env) identity receipt w Hid Hr)
    as (r & w1 & Hg & H1 & H2 & H3 & (acts & Ht & Hq) & Hcase).
  unfold execute_command. rewrite Hs, Hg. eexists r, acts, _. split; [done|].
  split_and!; try done. simpl. by rewrite Ht, <-app_assoc.
Qed.

(** ** Memory and stream

    [hist] is the entity's whole history; the stream holds the part of it that
    starts at the declared offset. *)
Definition history_of a w hist : Prop :=
  Z.of_nat (length hist) = (offset a + Z.of_nat (length (stream a w)))%Z ∧
  drop (Z.to_nat (offset a)) hist = stream a w.

Definition in_sync a hist : Prop :=
  ∃ s, state a = Some s ∧ apply_events host (initial_state host) hist = Ok s ∧
    version a = Z.of_nat (length hist).

(** A stored snapshot is the state after some prefix that reaches the offset. *)
Definition snapshot_ok a w hist : Prop :=
  ∀ v d, ss_view (w_snaps w) (aggregate_id (entity_id a)) (Some (triple_tenant_id (entity_id a)))
           = Some (v, d) →
    (offset a ≤ v ≤ Z.of_nat (length hist))%Z ∧
    ∃ s, from_value host d = Some s ∧
      apply_events host (initial_state host) (take (Z.to_nat v) hist) = Ok s.

(** What is assumed of the host: applying events is a fold, and serde round-trips. *)
Definition applies_in_order : Prop :=
  (∀ s, apply_events host s [] = Ok s) ∧
  ∀ s l1 l2, apply_events host s (l1 ++ l2)
    = s1 ← apply_events host s l1; apply_events host s1 l2.

Definition serde_round_trips : Prop :=
  ∀ s, ∃ j, to_value host s = Some j ∧ from_value host j = Some s.

Lemma offset_nonneg a : (0 ≤ offset a)%Z.
Proof. apply law_offset_nonneg. Qed.

Lemma history_of_append a w w' hist events :
  history_of a w hist → stream a w' = stream a w ++ events → history_of a w' (hist ++ events).
Proof.
  unfold history_of. intros [Hlen Hd] ->. rewrite !length_app. split; [lia|].
  pose proof (offset_nonneg a). rewrite drop_app_le by lia. by rewrite Hd.
Qed.

Lemma history_of_same a w w' hist :
  history_of a w hist → stream a w' = stream a w → history_of a w' hist.
Proof. unfold history_of. by intros ? ->. Qed.

Lemma stored_event_new (events : list E) : stored_event <$> (StoredEvent_new <$> events) = events.
Proof. rewrite <-list_fmap_compose. by rewrite list_fmap_id. Qed.

(** Whichever way a batch is persisted, it lands whole at the end of the stream or
    not at all; with an identity its receipt lands with it. *)
Lemma persist_step_spec env events a w r w' :
  events ≠ [] → (0 ≤ version a)%Z → (version a + Z.of_nat (length events) ≤ i64_max)%Z →
  persist_step env events a w = (r, w') →
  w_snaps w' = w_snaps w ∧ w_acceptor w' = w_acceptor w ∧ w_trace w' = w_trace w ∧
  match r with
  | Some (Ok n) =>
      n = (version a + Z.of_nat (length events))%Z ∧
      version a = (offset a + Z.of_nat (length (stream a w)))%Z ∧
      stream a w' = stream a w ++ events ∧
      (∀ identity, ctx_identity (env_context env) = Some identity →
         let receipt := receipt_for a identity (Events (version a + 1) n) in
         es_receipt (w_store w') (receipt_key receipt) = Some receipt ∧
         committed_together (stream_of a) (StoredEvent_new <$> events) receipt
           (w_store w) (w_store w'))
  | Some (Err _) => stream a w' = stream a w
  | None => False
  end.
Proof.
  intros Hne Hv Hb. unfold persist_step. rewrite as_i64_small by lia.
  destruct (ctx_identity (env_context env)) as [identity|] eqn:Hid.
  - assert (AggregateOutcome_events (version a + 1) (version a + Z.of_nat (length events))
            = Ok (Events (version a + 1) (version a + Z.of_nat (length events)))) as ->.
    { apply AggregateOutcome_events_Ok. split; [done|]. destruct events; [done|]. simpl. lia. }
    unfold save_with_receipt. destruct (persist_events_with_receipt _ _ _ _ _ _ _) as [r0 s] eqn:Hp.
    intros [= <- <-].
    assert (∀ n, r0 = Ok n → _) as Hone by
      (intros n ->; by eapply persist_with_receipt_one_commit, Hp; lia).
    apply persist_with_receipt_ok in Hp; [|done..].
    split_and!; [done..|]. destruct r0 as [n|]; unfold stream; simpl.
    + destruct Hp as (-> & Hver & He & Hr). split_and!; [done| | |].
      * rewrite length_fmap. by apply Hver.
      * rewrite He, decide_True, fmap_app, stored_event_new by done. done.
      * intros ? [= <-]. rewrite Hr. rewrite decide_True by done. split; [done|]. by eapply Hone.
    + destruct Hp as [He _]. by rewrite He.
  - destruct (persist_events _ _ _ _ _ _) as [r0 s] eqn:Hp. intros [= <- <-].
    apply persist_events_spec in Hp as [Hr Hp]; [|done..]. split_and!; [done..|].
    destruct r0 as [n|]; unfold stream; simpl.
    + destruct Hp as (-> & Hver & He). split_and!; [done| | |done].
      * by rewrite length_fmap.
      * by rewrite He, decide_True, fmap_app, stored_event_new.
    + by rewrite Hp.
Qed.

Lemma snapshot_ok_mono a a' w w' hist events :
  entity_id a' = entity_id a → w_snaps w' = w_snaps w →
  snapshot_ok a w hist → snapshot_ok a' w' (hist ++ events).
Proof.
  unfold snapshot_ok, offset. intros -> -> Hok v d Hv.
  destruct (Hok v d Hv) as (Hb & s & Hs & Ha). split; [rewrite length_app; lia|].
  exists s. split; [done|]. by rewrite take_app_le by lia.
Qed.

Lemma store_snapshot_ok a w hist st v r snaps :
  serde_round_trips → snapshot_ok a w hist →
  apply_events host (initial_state host) hist = Ok st →
  v = Z.of_nat (length hist) → (offset a ≤ v ≤ i64_max)%Z →
  store_snapshot (aggregate_id (entity_id a)) (Some (triple_tenant_id (entity_id a))) v
    (snapshot_payload host st) (w_snaps w) = (r, snaps) →
  snapshot_ok a (set_snaps snaps w) hist.
Proof.
  intros Hserde Hok Hst -> Hv. unfold store_snapshot. pose proof (offset_nonneg a).
  rewrite as_i64_small by lia.
  destruct (ss_save _ _ _ _ _) as [[[]|e] snaps'] eqn:Hsave; intros [= <- <-].
  - apply law_ss_save_ok in Hsave as [Hview _]. intros v d. simpl. rewrite Hview.
    intros [= <- <-]. split; [lia|]. exists st. rewrite Nat2Z.id, firstn_all. split; [|done].
    unfold snapshot_payload. destruct (Hserde st) as (j & -> & Hj). done.
  - apply law_ss_save_err in Hsave as ->. exact Hok.
Qed.

Lemma maybe_snapshot_ok a w hist st v n :
  serde_round_trips → snapshot_ok a w hist →
  apply_events host (initial_state host) hist = Ok st →
  v = Z.of_nat (length hist) → (offset a ≤ v ≤ i64_max)%Z →
  let w' := maybe_snapshot host st v n a w in
  snapshot_ok a w' hist ∧ w_store w' = w_store w ∧ w_acceptor w' = w_acceptor w.
Proof.
  intros Hserde Hok Hst Hv Hb. unfold maybe_snapshot.
  destruct (should_snapshot host v n) as [[]|]; [|done..].
  destruct (store_snapshot _ _ _ _ _) as [r snaps] eqn:Hs. split; [|done].
  by eapply store_snapshot_ok.
Qed.

Lemma accept_effects_stores described a w r w' :
  accept_effects host described a w = (r, w') → w_store w' = w_store w ∧ w_snaps w' = w_snaps w.
Proof.
  unfold accept_effects. destruct described as [|d ds]; [naive_solver|].
  destruct (effect_acceptor host) as [accept|]; [|naive_solver].
  destruct (id_new TenantTag _) as [tenant|]; [|naive_solver].
  destruct (accept tenant (d :: ds) _) as [r0 acc]. naive_solver.
Qed.

(** What a reply says happened, for an entity with history [hist] before and
    [hist ++ committed] after. *)
Definition reply_means (r : result EntityError (CommandResult E S)) a a' hist
    (committed : list E) : Prop :=
  match r with
  | Ok (REvents s events) | Ok (REffectsAcceptanceFailed s events _) =>
      committed = events ∧ events ≠ [] ∧ state a' = Some s ∧ lifecycle a' = lifecycle a ∧
      in_sync a' (hist ++ events)
  | Ok (RNoEvents s) => committed = [] ∧ a' = a ∧ state a = Some s
  | Ok (RReplayed _) => committed = [] ∧ a' = a
  | Err _ =>
      (committed = [] ∧ (a' = a ∨ lifecycle a' = Failed)) ∨
      (committed ≠ [] ∧ lifecycle a' = Failed ∧
       ∃ e, apply_events host (initial_state host) (hist ++ committed) = Err e)
  end.

(** The world after a command: the history grew by [committed], snapshots stay
    sound and the last action is the reply. *)
Definition command_outcome env a w hist a' w' : Prop :=
  ∃ committed acts r,
    entity_id a' = entity_id a ∧
    history_of a w' (hist ++ committed) ∧ snapshot_ok a w' (hist ++ committed) ∧
    w_trace w' = acts ++ [AReply (env_reply env) r] ∧ reply_means r a a' hist committed.

Lemma lifecycle_failed a : lifecycle (transition Failed a) = Failed.
Proof. by destruct a as [??? []]. Qed.

Lemma outcome_no_commit env a w hist a' w' r :
  history_of a w hist → snapshot_ok a w hist →
  w_store w' = w_store w ∨ stream a w' = stream a w →
  w_snaps w' = w_snaps w → entity_id a' = entity_id a → reply_means r a a' hist [] →
  command_outcome env a w hist a' (say (AReply (env_reply env) r) w').
Proof.
  intros Hh Hs Hst Hsn Hid Hr. assert (stream a w' = stream a w) as Hst'.
  { destruct Hst as [Hst|]; [|done]. unfold stream. by rewrite Hst. }
  eexists [], _, r. rewrite app_nil_r. split_and!; [done| | |done|done].
  - by eapply history_of_same.
  - rewrite <-(app_nil_r hist). by apply (snapshot_ok_mono a a w).
Qed.

Lemma after_persist_outcome env s events v a w0 w hist a' w' :
  applies_in_order → serde_round_trips → events ≠ [] →
  in_sync a hist → state a = Some s → snapshot_ok a w0 hist → w_snaps w = w_snaps w0 →
  history_of a w (hist ++ events) → v = Z.of_nat (length (hist ++ events)) → (v ≤ i64_max)%Z →
  after_persist host env s events v a w = (a', w') →
  command_outcome env a w0 hist a' w'.
Proof.
  intros [_ Happ] Hserde Hne (s0 & Hs0 & Hst & Hver) Hs Hok Hsn Hh Hv Hvb.
  assert (s0 = s) as -> by congruence.
  assert (apply_events host (initial_state host) (hist ++ events) = apply_events host s events)
    as Happ'. { by rewrite Happ, Hst. }
  assert (snapshot_ok a w (hist ++ events)) as Hok1 by by apply (snapshot_ok_mono a a w0).
  unfold after_persist. destruct (apply_events host s events) as [st|e] eqn:Hap.
  - set (a1 := mk_actor (entity_id a) (Some st) v (lifecycle a) (tx a)).
    match goal with |- context [maybe_snapshot _ _ _ _ _ ?x] => set (w1 := x) end.
    destruct (maybe_snapshot_ok a1 w1 (hist ++ events) st v (Z.of_nat (length events)))
      as (Hok2 & Hst2 & _); [done|done|done|done| |].
    { destruct Hh as [Hlen _]. pose proof (offset_nonneg a). split; [|done].
      change (offset a1) with (offset a). lia. }
    set (w2 := maybe_snapshot _ _ _ _ _ _) in *.
    destruct (accept_effects host _ a1 (say (APublish events) w2)) as [r w3] eqn:Hacc.
    apply accept_effects_stores in Hacc as [Hst3 Hsn3].
    assert (∀ reply, reply_means reply a a1 hist events →
      command_outcome env a w0 hist a1 (say (AReply (env_reply env) reply) w3)) as Hfin.
    { intros reply Hr. eexists events, _, reply. split_and!; [done| | |done|done].
      - eapply history_of_same; [exact Hh|]. unfold stream. simpl.
        rewrite Hst3. simpl. by rewrite Hst2.
      - intros v' d. simpl. rewrite Hsn3. apply Hok2. }
    assert (in_sync a1 (hist ++ events)) as Hsync by by exists st.
    destruct r; intros [= <- <-]; apply Hfin; by split_and!.
  - intros [= <- <-]. eexists events, _, _. split_and!; [done|exact Hh|exact Hok1|done|].
    right. split_and!; [done|apply lifecycle_failed|]. eauto.
Qed.

Lemma dispatch_outcome env s a w0 w hist a' w' :
  applies_in_order → serde_round_trips →
  history_of a w0 hist → in_sync a hist → snapshot_ok a w0 hist → state a = Some s →
  w_store w = w_store w0 → w_snaps w = w_snaps w0 →
  (∀ events, handle_command host (env_command env) s (env_context env) = Ok events →
     (version a + Z.of_nat (length events) ≤ i64_max)%Z) →
  dispatch host env s a w = (a', w') → command_outcome env a w0 hist a' w'.
Proof.
  intros Happ Hserde Hh Hsync Hok Hs Hw1 Hw2 Hb.
  assert (0 ≤ version a)%Z as Hv0 by (destruct Hsync as (? & _ & _ & ->); lia).
  assert (∀ x, stream a (say x w) = stream a w0) as Hstr.
  { intros x. unfold stream. simpl. by rewrite Hw1. }
  unfold dispatch.
  destruct (handle_command host (env_command env) s (env_context env)) as [[|ev evs]|err].
  - unfold on_no_events. destruct (ctx_identity (env_context env)) as [identity|].
    + unfold save_with_receipt.
      destruct (persist_events_with_receipt _ _ _ _ _ _ _) as [r sto] eqn:Hp.
      apply persist_with_receipt_ok in Hp; [|done|by apply Hb].
      assert (es_events sto (stream_of a) = es_events (w_store w0) (stream_of a)) as He.
      { rewrite <-Hw1. destruct r; [destruct Hp as (_ & _ & Hp & _)|destruct Hp as [Hp _]];
          rewrite Hp; [case_decide; by rewrite app_nil_r|done]. }
      destruct r; intros [= <- <-]; apply outcome_no_commit; try done.
      * right. unfold stream, count_receipt_outcome. destruct (observed host); simpl; by rewrite He.
      * unfold count_receipt_outcome. by destruct (observed host).
      * right. unfold stream. simpl. by rewrite He.
      * by left; auto.
    + intros [= <- <-]. apply outcome_no_commit; auto. by split_and!.
  - unfold on_events. destruct (persist_step _ _ _ _) as [r w1] eqn:Hp.
    apply persist_step_spec in Hp as (Hsn & _ & _ & Hp); [|done|done|by apply Hb].
    specialize (Hb _ eq_refl). destruct r as [[n|e]|]; [| |done].
    + destruct Hp as (-> & Hver & Hst & _). intros Hap.
      destruct Hsync as (s0 & Hs0 & Hsync & Hvlen).
      match type of Hap with after_persist _ _ _ _ _ _ ?x = _ => set (w2 := x) in Hap end.
      assert (w_snaps w2 = w_snaps w1 ∧ stream a w2 = stream a w1) as [Hsn2 Hst2].
      { unfold w2, count_receipt_outcome. by destruct (decide _), (observed host). }
      eapply (after_persist_outcome env s (ev :: evs)
                (version a + Z.of_nat (length (ev :: evs))) a w0 w2 hist); try done.
      * by exists s0.
      * by rewrite Hsn2, Hsn.
      * eapply history_of_append; [exact Hh|]. by rewrite Hst2, Hst, Hstr.
      * rewrite length_app, Hvlen. lia.
    + intros [= <- <-]. apply outcome_no_commit; try done.
      * right. by rewrite Hp.
      * simpl. by rewrite Hsn.
      * left. split; [done|]. right. apply lifecycle_failed.
  - intros [= <- <-]. apply outcome_no_commit; auto. left. auto.
Qed.

(** C2: An active entity's memory always equals its stream: from a state in which the
    actor holds the replay of its history at its length and snapshots are sound,
    executing any command leaves the history extended by exactly the events the
    reply reports as committed (none for replays, no-event successes and, except
    for a commit whose events then fail to apply, errors), snapshots sound, and
    the actor either again equal to the replay of the extended history, or
    failed, never active and out of step. *)
Theorem memory_equals_stream env s a w hist a' w' :
  applies_in_order → serde_round_trips →
  history_of a w hist → in_sync a hist → snapshot_ok a w hist → state a = Some s →
  (∀ events, handle_command host (env_command env) s (env_context env) = Ok events →
     (version a + Z.of_nat (length events) ≤ i64_max)%Z) →
  execute_command host env a w = (a', w') →
  command_outcome env a w hist a' w'.
Proof.
  intros Happ Hserde Hh Hsync Hok Hs Hb. unfold execute_command. rewrite Hs.
  destruct (receipt_gate host a (env_context env) w) as [r w1] eqn:Hg.
  assert (w_store w1 = w_store w ∧ w_snaps w1 = w_snaps w ∧
    ∀ r0, r = Some r0 → match r0 with Ok (RReplayed _) | Err _ => True | _ => False end)
    as (Hst & Hsn & Hr).
  { revert Hg. unfold receipt_gate, count_receipt_outcome.
    destruct (ctx_identity (env_context env)) as [identity|]; [|naive_solver].
    destruct (find_operation a identity w) as [[receipt|]|]; [|naive_solver..].
    case_decide; intros [= <- <-]; destruct (observed host); naive_solver. }
  destruct r as [r|].
  - intros [= <- <-]. apply outcome_no_commit; auto. specialize (Hr _ eq_refl).
    destruct r as [[]|]; simpl; auto; done.
  - by apply dispatch_outcome.
Qed.

(** The receipt of an operation is stored under the key it is looked up by. *)
Lemma receipt_key_for a identity outcome :
  is_blank (triple_tenant_id (entity_id a)) = false →
  receipt_key (receipt_for a identity outcome) = operation_of a identity.
Proof. intros Hb. unfold receipt_key, receipt_for, id_new. simpl. by rewrite Hb. Qed.

Lemma after_persist_store env s events v a w :
  w_store (after_persist host env s events v a w).2 = w_store w.
Proof.
  unfold after_persist. destruct (apply_events host s events) as [st|e]; [|done].
  match goal with |- context [accept_effects ?h ?d ?a1 ?w1] =>
    destruct (accept_effects h d a1 w1) as [r w2] eqn:Ha end.
  apply accept_effects_stores in Ha as [Ha _].
  assert (w_store w2 = w_store w) as Hw2.
  { rewrite Ha. unfold maybe_snapshot. simpl.
    destruct (should_snapshot host _ _) as [[]|]; [|done..].
    by destruct (store_snapshot _ _ _ _ _). }
  by destruct r.
Qed.

Lemma after_persist_reply env s events v a w acts r :
  w_trace (after_persist host env s events v a w).2 = acts ++ [AReply (env_reply env) (Ok r)] →
  ∃ st, r = REvents st events ∨ ∃ e, r = REffectsAcceptanceFailed st events e.
Proof.
  unfold after_persist. destruct (apply_events host s events) as [st|e].
  - destruct (accept_effects _ _ _ _) as [[[]|e] w2]; simpl; intros [_ [= <-]]%app_inj_tail; eauto.
  - simpl. by intros [_ [=]]%app_inj_tail.
Qed.

(** The outcome recorded for a result. *)
Definition recorded_outcome (r : CommandResult E S) a (o : AggregateOutcome) : Prop :=
  match r with
  | RReplayed o' => o = o'
  | RNoEvents _ => o = NoEvents
  | REvents _ events | REffectsAcceptanceFailed _ events _ =>
      o = Events (version a + 1) (version a + Z.of_nat (length events))
  end.

(** How the store [s'] came to know the receipt of an answer: a replay writes
    nothing; any other success is one commit, on the store the command started
    from, of the answer's events on the entity's stream and of that receipt. *)
Definition recorded_by (r : CommandResult E S) a (receipt : OperationReceipt)
    (s s' : σ) : Prop :=
  match r with
  | RReplayed _ => s' = s
  | RNoEvents _ => committed_together (stream_of a) [] receipt s s'
  | REvents _ events | REffectsAcceptanceFailed _ events _ =>
      committed_together (stream_of a) (StoredEvent_new <$> events) receipt s s'
  end.

Lemma count_receipt_store outcome a w :
  w_store (count_receipt_outcome host outcome a w) = w_store w.
Proof. unfold count_receipt_outcome. by destruct (observed host). Qed.

Lemma dispatch_records env identity s a w acts r :
  ctx_identity (env_context env) = Some identity →
  is_blank (triple_tenant_id (entity_id a)) = false → (0 ≤ version a)%Z →
  (∀ events, handle_command host (env_command env) s (env_context env) = Ok events →
     (version a + Z.of_nat (length events) ≤ i64_max)%Z) →
  w_trace (dispatch host env s a w).2 = acts ++ [AReply (env_reply env) (Ok r)] →
  ∃ o, es_receipt (w_store (dispatch host env s a w).2) (operation_of a identity)
       = Some (receipt_for a identity o) ∧ recorded_outcome r a o ∧
     recorded_by r a (receipt_for a identity o) (w_store w)
       (w_store (dispatch host env s a w).2).
Proof.
  intros Hid Hblank Hv Hb. unfold dispatch.
  destruct (handle_command host (env_command env) s (env_context env)) as [[|ev evs]|err].
  - unfold on_no_events, save_with_receipt. rewrite Hid.
    destruct (persist_events_with_receipt _ _ _ _ _ _ _) as [[n|e] sto] eqn:Hp;
      [|simpl; by intros [_ [=]]%app_inj_tail].
    specialize (Hb [] eq_refl). simpl in Hb.
    assert (0 ≤ version a ≤ i64_max)%Z as Hvb by lia.
    pose proof (persist_with_receipt_one_commit _ _ _ _ _ _ _ _ _ Hvb Hp) as Hone.
    apply persist_with_receipt_ok in Hp as (_ & _ & _ & Hr); [|done|simpl; lia].
    simpl. intros [_ [= <-]]%app_inj_tail. exists NoEvents. simpl. rewrite !count_receipt_store.
    specialize (Hr (operation_of a identity)). rewrite receipt_key_for, decide_True in Hr by done.
    by split_and!.
  - unfold on_events. destruct (persist_step _ _ _ _) as [o w1] eqn:Hp.
    apply persist_step_spec in Hp as (_ & _ & _ & Hp); [|done|done|by apply Hb].
    destruct o as [[n|e]|]; [|simpl; by intros [_ [=]]%app_inj_tail|done].
    destruct Hp as (-> & _ & _ & Hp). specialize (Hp identity Hid) as [Hp Hone].
    rewrite receipt_key_for in Hp by done. intros Ht. rewrite !after_persist_store.
    apply after_persist_reply in Ht as (st & Hr).
    rewrite Hid, decide_True by eauto. rewrite !count_receipt_store.
    eexists. split; [exact Hp|]. by destruct Hr as [->|[e ->]].
  - simpl. by intros [_ [=]]%app_inj_tail.
Qed.

(** C3: Success is durable knowledge: whenever an identified command is answered
    [Ok], freshly executed (with or without events, effects accepted or not) or
    replayed, the store holds a receipt under that very operation with the
    command's fingerprint and the outcome the answer reports, so any later
    delivery of the same operation finds it; a replay leaves the store as it was,
    and for every other success the final store is the initial one after a single
    commit, of a unit of work that staged exactly the answer's events on the
    entity's stream together with that receipt. *)
Theorem success_is_recorded env identity s a w acts r :
  ctx_identity (env_context env) = Some identity → state a = Some s →
  is_blank (triple_tenant_id (entity_id a)) = false → (0 ≤ version a)%Z →
  (∀ events, handle_command host (env_command env) s (env_context env) = Ok events →
     (version a + Z.of_nat (length events) ≤ i64_max)%Z) →
  w_trace (execute_command host env a w).2 = acts ++ [AReply (env_reply env) (Ok r)] →
  ∃ receipt,
    es_receipt (w_store (execute_command host env a w).2) (operation_of a identity)
      = Some receipt ∧
    receipt_fingerprint receipt = identity_fingerprint identity ∧
    recorded_outcome r a (receipt_outcome receipt) ∧
    recorded_by r a receipt (w_store w) (w_store (execute_command host env a w).2).
Proof.
  intros Hid Hs Hblank Hv Hb. unfold execute_command. rewrite Hs.
  unfold receipt_gate. rewrite Hid.
  destruct (find_operation a identity w) as [[receipt|]|e] eqn:Hf;
    [| |simpl; by intros [_ [=]]%app_inj_tail].
  - assert (es_receipt (w_store w) (operation_of a identity) = Some receipt) as Hrc.
    { unfold find_operation, facade_find_receipt in Hf. by apply law_find_receipt in Hf. }
    case_decide as Hfp; simpl; intros [_ [= <-]]%app_inj_tail.
    exists receipt. rewrite !count_receipt_store. by split_and!.
  - intros Ht.
    destruct (dispatch_records _ _ _ _ _ _ _ Hid Hblank Hv Hb Ht) as (o & Hrc & Ho & Hone).
    exists (receipt_for a identity o). by split_and!.
Qed.

(** ** Recovery *)

(** Both stores can be read; an absent stream is readable. *)
Definition readable a w (loaded : option (Z * J)) : Prop :=
  ss_load (aggregate_id (entity_id a)) (Some (triple_tenant_id (entity_id a))) (w_snaps w)
    = Ok loaded ∧
  match es_load (aggregate_type (entity_id a)) (triple_entity_id (entity_id a))
          (Some (triple_tenant_id (entity_id a))) (w_store w) with
  | Ok _ | Err (NotFound _) => True
  | Err _ => False
  end.

(** Where recovery starts from: the snapshot's state and version, or the beginning. *)
Definition recovery_base (loaded : option (Z * J)) : S * Z :=
  match loaded with
  | Some (v, d) => (default (initial_state host) (from_value host d), v)
  | None => (initial_state host, 0%Z)
  end.

Lemma length_rows_since base since (stored : list (StoredEvent E)) :
  length (rows_since base since stored) = length stored - Z.to_nat (since - base).
Proof. unfold rows_since. by rewrite length_imap, length_drop. Qed.

Lemma events_rows_since base since (stored : list (StoredEvent E)) :
  row_event <$> rows_since base since stored
  = drop (Z.to_nat (since - base)) (stored_event <$> stored).
Proof. unfold rows_since. rewrite fmap_imap, <-fmap_drop. apply (imap_const stored_event). Qed.

Lemma load_readable a w loaded :
  readable a w loaded →
  load_for_recovery (aggregate_type (entity_id a)) (triple_entity_id (entity_id a))
    (Some (triple_tenant_id (entity_id a))) (w_store w) (w_snaps w)
  = Ok ((λ '(v, d), mk_snapshot_data d (as_u64 v)) <$> loaded,
        rows_since (offset a) (default 0%Z (as_u64 <$> (fst <$> loaded)))
          (es_events (w_store w) (stream_of a))).
Proof.
  intros [Hss Hes].
  pose proof (load_for_recovery_spec (J:=J) (aggregate_type (entity_id a))
    (triple_entity_id (entity_id a)) (Some (triple_tenant_id (entity_id a)))
    (w_store w) (w_snaps w)) as Hl.
  destruct (load_for_recovery _ _ _ _ _) as [[snap rows]|msg].
  - destruct Hl as (l0 & Hl0 & -> & ->).
    assert (l0 = loaded) as -> by (unfold aggregate_id, aggregate_type, join_id in *; congruence).
    do 2 f_equal. unfold offset, stream_of. f_equal. by destruct loaded as [[v d]|].
  - exfalso. destruct Hl as [(e & He & _)|(e & He & _ & Hn)].
    + unfold aggregate_id, aggregate_type, join_id in *. congruence.
    + rewrite He in Hes. destruct e; naive_solver.
Qed.

Lemma rebuild_spec a w hist loaded :
  applies_in_order → history_of a w hist → readable a w loaded →
  (Z.of_nat (length hist) ≤ i64_max)%Z →
  (offset a ≤ (recovery_base loaded).2 ≤ Z.of_nat (length hist))%Z →
  rebuild_state_from_persistence host a w
  = (λ s, (s, Z.of_nat (length hist))) <$>
      map_err (λ e, "event replay failed: " +:+ error_str host e)
        (apply_events host (recovery_base loaded).1
           (drop (Z.to_nat (recovery_base loaded).2) hist)).
Proof.
  intros [Hnil Happ] [Hlen Hdrop] Hr Hmax Hbase. pose proof (offset_nonneg a) as Hoff.
  unfold rebuild_state_from_persistence. rewrite (load_readable _ _ _ Hr). simpl.
  set (since := (recovery_base loaded).2) in *.
  assert (default 0%Z (as_u64 <$> (fst <$> loaded)) = since) as Hsince.
  { destruct loaded as [[v d]|]; [|done]. simpl in *.
    apply as_u64_small. unfold i64_max, u64_max in *. lia. }
  rewrite Hsince. set (rows := rows_since _ _ _).
  assert (row_event <$> rows = drop (Z.to_nat since) hist) as Hrows.
  { unfold rows. rewrite events_rows_since. fold (stream a w). rewrite <-Hdrop, drop_drop.
    f_equal. lia. }
  assert (Z.of_nat (length rows) = (Z.of_nat (length hist) - since)%Z) as Hlrows.
  { rewrite <-(length_fmap row_event), Hrows, length_drop. lia. }
  assert (∀ snap, snap = ((λ '(v, d), mk_snapshot_data d (as_u64 v)) <$> loaded) →
    match snap with
    | Some snap => (default (initial_state host) (from_value host (Facade.snap_data snap)),
                    snap_version snap)
    | None => (initial_state host, 0%Z)
    end = recovery_base loaded) as Hb.
  { intros snap ->. destruct loaded as [[v d]|]; [|done]. simpl in *. by rewrite Hsince. }
  rewrite (Hb _ eq_refl). destruct (recovery_base loaded) as [st v] eqn:Hrb. simpl in *.
  destruct rows as [|row rows]; simpl in Hlrows.
  - assert (drop (Z.to_nat since) hist = []) as -> by by rewrite <-Hrows.
    rewrite Hnil. simpl. do 2 f_equal. lia.
  - rewrite <-Hrows. destruct (apply_events host st _) as [s|e]; simpl; [|done].
    do 2 f_equal. simpl. lia.
Qed.

(** C19: Recovery restores the entity exactly: with readable stores, a sound snapshot
    (required only when the stream starts at an offset) and a history that
    applies, a recovering actor becomes active, publishes it, and holds the
    replay of its whole history at its length, whatever part of it the snapshot
    covers; the stores are not touched.  When a store cannot be read, or the
    events do not apply, the actor fails instead. *)
Theorem recovery_restores_history a w hist loaded :
  applies_in_order → history_of a w hist → snapshot_ok a w hist →
  (Z.of_nat (length hist) ≤ i64_max)%Z → lifecycle a = Recovering →
  readable a w loaded → (loaded = None → offset a = 0%Z) →
  let '(a', w') := recover_state host a w in
  w_store w' = w_store w ∧ w_snaps w' = w_snaps w ∧
  match apply_events host (initial_state host) hist with
  | Ok _ => in_sync a' hist ∧ lifecycle a' = Active ∧ tx a' = Active
  | Err _ => lifecycle a' = Failed ∧ tx a' = Failed
  end.
Proof.
  intros Happ Hh Hok Hmax Hlc Hr Hnone.
  assert ((offset a ≤ (recovery_base loaded).2 ≤ Z.of_nat (length hist))%Z ∧
    apply_events host (initial_state host) hist
    = apply_events host (recovery_base loaded).1 (drop (Z.to_nat (recovery_base loaded).2) hist))
    as [Hb Heq].
  { destruct loaded as [[v d]|]; simpl.
    - destruct Hr as [Hss _]. apply law_ss_load_ok in Hss. symmetry in Hss.
      destruct (Hok v d Hss) as (Hb & s & -> & Hs). split; [done|]. simpl.
      rewrite <-(take_drop (Z.to_nat v) hist) at 1. destruct Happ as [_ ->]. by rewrite Hs.
    - pose proof (Hnone eq_refl). by split; [lia|]. }
  unfold recover_state. rewrite (rebuild_spec a w hist loaded) by done. rewrite Heq.
  destruct (apply_events host (recovery_base loaded).1 _) as [s|e] eqn:Hs; simpl.
  - rewrite Hlc. split_and!; try done. exists s. split_and!; [done|by rewrite Heq|done].
  - split_and!; [done..|apply lifecycle_failed|done].
Qed.

(** A snapshot that no longer deserializes is replaced by the initial state but
    keeps its version: recovery then replays only the events after it on top of
    the initial state, reports the full length as its version and becomes
    active, so the prefix the snapshot covered is silently lost even though the
    stream still holds it. *)
Lemma undecodable_snapshot_loses_prefix a w hist v d s :
  applies_in_order → history_of a w hist → (Z.of_nat (length hist) ≤ i64_max)%Z →
  lifecycle a = Recovering → readable a w (Some (v, d)) →
  (offset a ≤ v ≤ Z.of_nat (length hist))%Z → from_value host d = None →
  apply_events host (initial_state host) (drop (Z.to_nat v) hist) = Ok s →
  let '(a', _) := recover_state host a w in
  state a' = Some s ∧ version a' = Z.of_nat (length hist) ∧ lifecycle a' = Active.
Proof.
  intros Happ Hh Hmax Hlc Hr Hv Hd Hs. unfold recover_state.
  rewrite (rebuild_spec a w hist (Some (v, d))) by done. simpl. rewrite Hd. simpl.
  rewrite Hs. simpl. by rewrite Hlc.
Qed.
End laws.

(** ** Witnesses

    A counter entity over the in-memory stores: commands and events are numbers,
    0 emits nothing, and the state is the sum. *)
Module Example_counter.
Definition host : Host nat nat nat nat unit := {|
  initial_state := 0;
  handle_command c s _ := if decide (c = 0) then Ok [] else Ok [c];
  apply_events s evs := Ok (foldl Nat.add s evs);
  external_effects _ _ _ _ := [];
  should_snapshot _ _ := Ok true;
  effect_acceptor := None;
  observed := true;
  to_value s := Some s;
  from_value j := Some j;
  null_value := 0;
  debug_str s := s;
|}.

#[local] Instance ops : EventStoreOps nat (Committed nat) (UnitOfWork nat) :=
  entity_store_ops ∅.
#[local] Instance laws : EventStoreLaws nat (Committed nat) (UnitOfWork nat) :=
  entity_store_laws ∅ (map_Forall_empty _).

Definition identity : OperationIdentity := mk_identity (mk_key "op-1") (mk_fingerprint "f").
Definition env (c : nat) : ActorEnvelope nat :=
  mk_envelope c (carrying (CommandContext_new "account") (Some identity)) 9.
Definition actor (st : option nat) (lc : EntityState) : Actor nat :=
  mk_actor (mk_triple "acme" "account" "1") st 0 lc lc.
Definition receipt : OperationReceipt :=
  receipt_for (actor None Active) identity NoEvents.

Abbreviation Wld := (World nat nat nat (Committed nat)
  (MemorySnapshots.InMemorySnapshotStore nat) unit).
Definition world0 : Wld := mk_world Committed_default MemorySnapshots.new () [].
Definition world1 : Wld :=
  mk_world (mk_committed ∅ {[receipt_key receipt := receipt]}) MemorySnapshots.new () [].

Lemma in_order : applies_in_order host.
Proof. split; [done|]. intros s l1 l2. simpl. by rewrite foldl_app. Qed.

Lemma round_trips : serde_round_trips host.
Proof. intros s. by exists s. Qed.

Lemma history0 st lc : history_of (actor st lc) world0 [].
Proof. split; reflexivity. Qed.

Lemma snapshot0 st lc : snapshot_ok host (actor st lc) world0 [].
Proof. intros v d. simpl. done. Qed.

Lemma recorded_operation_never_reruns_witness :
  ∃ r acts w', execute_command host (env 5) (actor (Some 3) Active) world1
    = (actor (Some 3) Active, w') ∧ w_store w' = w_store world1 ∧
    w_trace w' = acts ++ [AReply 9 r].
Proof.
  destruct (recorded_operation_never_reruns host (env 5) identity receipt
              (actor (Some 3) Active) world1 3) as (r & acts & w' & H1 & H2 & _ & _ & H3 & _).
  - reflexivity.
  - reflexivity.
  - apply (lookup_singleton_eq (M:=gmap ReceiptKey) (receipt_key receipt)).
  - exists r, acts, w'. auto.
Defined.

Lemma memory_equals_stream_witness :
  command_outcome host (env 5) (actor (Some 0) Active) world0 []
    (execute_command host (env 5) (actor (Some 0) Active) world0).1
    (execute_command host (env 5) (actor (Some 0) Active) world0).2.
Proof.
  eapply memory_equals_stream.
  - apply in_order.
  - apply round_trips.
  - apply history0.
  - exists 0. split; [reflexivity|]. split; reflexivity.
  - apply snapshot0.
  - reflexivity.
  - intros events [= <-]. unfold i64_max. simpl. lia.
  - apply surjective_pairing.
Defined.

Lemma success_is_recorded_witness :
  ∃ receipt0,
    es_receipt (w_store (execute_command host (env 5) (actor (Some 0) Active) world0).2)
      (operation_of (actor (Some 0) Active) identity) = Some receipt0 ∧
    receipt_outcome receipt0 = Events 1 1 ∧
    committed_together (stream_of (actor None Active)) [StoredEvent_new 5] receipt0
      (w_store world0)
      (w_store (execute_command host (env 5) (actor (Some 0) Active) world0).2).
Proof.
  destruct (success_is_recorded host (env 5) identity 0 (actor (Some 0) Active) world0
    [AHandle 5; ACount "confirmed" "account";
     AEmit (ExecutionCompleted (mk_triple "acme" "account" "1") 1);
     AEmit (EntityStateUpdated (mk_triple "acme" "account" "1") 1);
     APublish [5]] (REvents 5 [5])) as (r & H1 & _ & H2 & H3).
  - reflexivity.
  - reflexivity.
  - reflexivity.
  - simpl. lia.
  - intros events [= <-]. unfold i64_max. simpl. lia.
  - reflexivity.
  - exists r. split; [exact H1|]. split; [exact H2|exact H3].
Defined.

(** The entity after 5 and 7 were committed, with a snapshot that covers the first
    event only. *)
Definition world3 : Wld :=
  mk_world (mk_committed
      {[stream_of (actor None Recovering) := StoredEvent_new <$> [5; 7]]} ∅)
    (MemorySnapshots.mk_store {[("account-1", Some "acme") := (1%Z, 5)]}) () [].

Lemma history3 : history_of (actor None Recovering) world3 [5; 7].
Proof.
  assert (stream (actor None Recovering) world3 = [5; 7]) as Hs.
  { unfold stream. simpl. unfold events_of. simpl.
    by rewrite (lookup_singleton_eq (M:=gmap StreamKey)). }
  split; rewrite Hs; reflexivity.
Qed.

Lemma snapshot3 : snapshot_ok host (actor None Recovering) world3 [5; 7].
Proof.
  intros v d. simpl. rewrite (lookup_singleton_eq (M:=gmap MemorySnapshots.SnapshotKey)).
  intros [= <- <-]. split; [split; [apply Z.le_0_1|simpl; lia]|]. by exists 5.
Qed.

Lemma readable3 : readable (actor None Recovering) world3 (Some (1%Z, 5)).
Proof.
  split; simpl.
  - unfold MemorySnapshots.load_snapshot. simpl.
    by rewrite (lookup_singleton_eq (M:=gmap MemorySnapshots.SnapshotKey)).
  - unfold entity_load, load. simpl. by destruct (_ !! _).
Qed.

(** The snapshot is found, the event after it is replayed, and the actor holds the
    replay of both. *)
Lemma recovery_restores_history_witness :
  let a' := (recover_state host (actor None Recovering) world3).1 in
  readable (actor None Recovering) world3 (Some (1%Z, 5)) ∧
  state a' = Some 12 ∧ version a' = 2%Z ∧ lifecycle a' = Active.
Proof.
  pose proof (recovery_restores_history host (actor None Recovering) world3 [5; 7]
    (Some (1%Z, 5)) in_order history3 snapshot3 ltac:(unfold i64_max; simpl; lia) eq_refl
    readable3 ltac:(discriminate)) as H.
  destruct (recover_state host (actor None Recovering) world3) as [a' w'].
  destruct H as (_ & _ & (s & H1 & H2 & H3) & H4 & _).
  split; [exact readable3|]. split; [|split; [exact H3|exact H4]].
  simpl in H2. injection H2 as <-. exact H1.
Defined.

(** The same entity under a payload format the host no longer reads. *)
Definition old_host : Host nat nat nat nat unit := {|
  initial_state := 0;
  handle_command c s _ := Ok [c];
  apply_events s evs := Ok (foldl Nat.add s evs);
  external_effects _ _ _ _ := [];
  should_snapshot _ _ := Ok false;
  effect_acceptor := None;
  observed := false;
  to_value s := Some s;
  from_value j := None;
  null_value := 0;
  debug_str s := s;
|}.
Definition world2 : Wld :=
  mk_world (mk_committed {[stream_of (actor None Recovering) := [StoredEvent_new 5]]} ∅)
    (MemorySnapshots.mk_store {[("account-1", Some "acme") := (1%Z, 5)]}) () [].

Lemma history2 : history_of (actor None Recovering) world2 [5].
Proof.
  assert (stream (actor None Recovering) world2 = [5]) as Hs.
  { unfold stream. simpl. unfold events_of. simpl.
    by rewrite (lookup_singleton_eq (M:=gmap StreamKey)). }
  split; rewrite Hs; reflexivity.
Qed.

Lemma readable2 : readable (actor None Recovering) world2 (Some (1%Z, 5)).
Proof.
  split; simpl.
  - unfold MemorySnapshots.load_snapshot. simpl.
    by rewrite (lookup_singleton_eq (M:=gmap MemorySnapshots.SnapshotKey)).
  - unfold entity_load, load. simpl. by destruct (_ !! _).
Qed.

Lemma undecodable_snapshot_loses_prefix_witness :
  state (recover_state old_host (actor None Recovering) world2).1 = Some 0 ∧
  version (recover_state old_host (actor None Recovering) world2).1 = 1%Z.
Proof.
  pose proof (undecodable_snapshot_loses_prefix old_host (actor None Recovering) world2 [5]
    1 5 0 in_order history2 ltac:(unfold i64_max; simpl; lia) eq_refl readable2) as H.
  destruct (recover_state old_host (actor None Recovering) world2) as [a' w'].
  destruct H as (H1 & H2 & _).
  - split; [apply Z.le_0_1|reflexivity].
  - reflexivity.
  - reflexivity.
  - split; [exact H1|exact H2].
Defined.
End Example_counter.
