(* ===== verification/Session.v ===== *)
(** * The life of one activation

    [EntityActor::run] with its command loop, its drains and passivation
    (crates/persistent-entity, actor.rs), the mailbox clients send to, and the
    teardown guard that runs when the task ends for whatever reason
    (entity_ref_tokio.rs).  Clients send and other actors write to the stores
    while the actor is between two of its steps. *)

From S2P Require Import Prelude Identity EventStore Snapshots Facade Lifecycle Effect Mailbox Actor ActorProps.

Section session.
Context {C E S J σ υ τ ω : Type} `{HO : !EventStoreOps E σ υ} `{HSO : !SnapshotOps J τ}.
Context (host : Host C E S J ω).
Abbreviation Actor := (Actor S).
Abbreviation World := (World C E S σ τ ω).
Abbreviation Envelope := (ActorEnvelope C).

(** Where the task stands. *)
Inductive phase :=
| Spawned
| Looping                                  (* process_commands, at the select *)
| LoopBusy (env : Envelope)                (* executing a command of the loop *)
| Stopping                                 (* process_commands has returned *)
| PassivatingDrain                         (* passivate, at recv *)
| PassivatingBusy (env : Envelope)         (* executing a command of that drain *)
| PassivatingFailed                        (* answering the rest with an error *)
| FailDrain (err : EntityError)            (* drain_mailbox_with_error, at recv *)
| Returned                                 (* run has returned *)
| Dropped (lost : list Envelope).          (* the guard has run; what it interrupted *)

(** The command being executed, if any. *)
Definition busy (p : phase) : list Envelope :=
  match p with LoopBusy env | PassivatingBusy env => [env] | _ => [] end.

Definition dropped (p : phase) : bool := match p with Dropped _ => true | _ => false end.

(** The task is over: [run] has returned, or the guard has run. *)
Definition ended (p : phase) : bool :=
  match p with Returned | Dropped _ => true | _ => false end.

Record session := mk_session {
  mbox : BoundedMailbox Envelope;
  act : Actor;
  wld : World;
  ph : phase;
  sent : list Envelope;   (* envelopes whose send answered Ok *)
}.

Definition answer (err : EntityError) (env : Envelope) (w : World) : World :=
  say (AReply (env_reply env) (Err err)) w.

Definition process_error : EntityError :=
  PersistenceFailed "actor entered failed state during command processing".
Definition passivation_error : EntityError :=
  PersistenceFailed "actor failed during passivation drain".

(** The guard's [for envelope in close_and_drain()]; the reply channel of the command
    being executed, if there is one, goes with the task. *)
Definition drop_guard (s : session) : session :=
  let '(items, m) := take_queue (mark_closed (mbox s)) in
  mk_session m (act s) (foldl (λ w env, answer EntityNotActive env w) (wld s) items)
    (Dropped (busy (ph s))) (sent s).

Inductive step : session → session → Prop :=
(* clients and the rest of the system *)
| step_send s env m :
    send_attempt env (mbox s) = (Some (Ok ()), m) →
    step s (mk_session m (act s) (wld s) (ph s) (sent s ++ [env]))
| step_world s w :
    w_trace w = w_trace (wld s) →
    step s (mk_session (mbox s) (act s) w (ph s) (sent s))
(* run *)
| step_recover s a w :
    ph s = Spawned → recover_state host (act s) (wld s) = (a, w) →
    step s (mk_session (if decide (lifecycle a = Failed) then mark_closed (mbox s) else mbox s)
              a w (if decide (lifecycle a = Failed) then FailDrain EntityNotActive else Looping)
              (sent s))
| step_recv s env m :
    ph s = Looping → recv_attempt (mbox s) = (Some (Ok env), m) →
    step s (mk_session m (act s) (wld s) (LoopBusy env) (sent s))
| step_execute s env a w :
    ph s = LoopBusy env → execute_command host env (act s) (wld s) = (a, w) →
    step s (mk_session (mbox s) a w (if is_active (lifecycle a) then Looping else Stopping) (sent s))
| step_loop_closed s e m :
    ph s = Looping → recv_attempt (mbox s) = (Some (Err e), m) →
    step s (mk_session m (act s) (wld s) Stopping (sent s))
| step_signal s :
    ph s = Looping → step s (mk_session (mbox s) (act s) (wld s) Stopping (sent s))
| step_stop s :
    ph s = Stopping →
    step s (mk_session (mark_closed (mbox s)) (act s) (wld s)
              (if decide (lifecycle (act s) = Failed) then FailDrain process_error
               else PassivatingDrain) (sent s))
(* passivate *)
| step_drain_recv s env m :
    ph s = PassivatingDrain → recv_attempt (mbox s) = (Some (Ok env), m) →
    step s (mk_session m (act s) (wld s) (PassivatingBusy env) (sent s))
| step_drain_execute s env a w :
    ph s = PassivatingBusy env → execute_command host env (act s) (wld s) = (a, w) →
    step s (mk_session (mbox s) a w
              (if decide (lifecycle a = Failed) then PassivatingFailed else PassivatingDrain)
              (sent s))
| step_passivate_answer s env m :
    ph s = PassivatingFailed → recv_attempt (mbox s) = (Some (Ok env), m) →
    step s (mk_session m (act s) (answer passivation_error env (wld s)) PassivatingFailed (sent s))
| step_passivate_failed s e m :
    ph s = PassivatingFailed → recv_attempt (mbox s) = (Some (Err e), m) →
    step s (mk_session m (act s)
              (say (AMarkPassivated (entity_id (act s)) (version (act s))) (wld s))
              Returned (sent s))
| step_passivate_finish s e m a w :
    ph s = PassivatingDrain → recv_attempt (mbox s) = (Some (Err e), m) →
    passivate_finish host (act s) (wld s) = (a, w) →
    step s (mk_session m a w Returned (sent s))
(* drain_mailbox_with_error *)
| step_fail_answer s err env m :
    ph s = FailDrain err → recv_attempt (mbox s) = (Some (Ok env), m) →
    step s (mk_session m (act s) (answer err env (wld s)) (FailDrain err) (sent s))
| step_fail_done s err e m :
    ph s = FailDrain err → recv_attempt (mbox s) = (Some (Err e), m) →
    step s (mk_session m (act s) (wld s) Returned (sent s))
(* the end: normally once run has returned, or at any point when the task panics
   or is cancelled; a command being executed loses its reply channel *)
| step_drop s :
    dropped (ph s) = false → step s (drop_guard s).

Definition initial (capacity : nat) (a : Actor) (w : World) : session :=
  mk_session (mailbox_new capacity) a w Spawned [].

(** ** Accounting *)

Definition replies (tr : list (Action C E S)) : list nat :=
  omap (λ x, match x with AReply ch _ => Some ch | _ => None end) tr.

Lemma replies_app t1 t2 : replies (t1 ++ t2) = replies t1 ++ replies t2.
Proof. apply omap_app. Qed.

Lemma replies_quiet acts : Forall (λ x, ¬ is_reply x) acts → replies acts = [].
Proof. induction 1 as [|x acts Hx _ IH]; [done|]. destruct x; simpl in *; tauto. Qed.

Lemma replies_answer err env (w : World) :
  replies (w_trace (answer err env w)) = replies (w_trace w) ++ [env_reply env].
Proof. simpl. by rewrite replies_app. Qed.

Lemma replies_execute env a (w : World) a' w' :
  execute_command host env a w = (a', w') →
  replies (w_trace w') = replies (w_trace w) ++ [env_reply env].
Proof.
  intros Hx. destruct (execute_command_replied host env a w) as (r & acts & Ht & Hq).
  rewrite Hx in Ht. simpl in Ht. rewrite Ht, !replies_app, (replies_quiet acts) by done. done.
Qed.

Lemma replies_recover a (w : World) a' w' :
  recover_state host a w = (a', w') → replies (w_trace w') = replies (w_trace w).
Proof.
  unfold recover_state. destruct (rebuild_state_from_persistence host a w) as [[s v]|];
    intros [= <- <-]; simpl; [|done]. by rewrite replies_app, app_nil_r.
Qed.

Lemma replies_passivate a (w : World) a' w' :
  passivate_finish host a w = (a', w') → replies (w_trace w') = replies (w_trace w).
Proof.
  unfold passivate_finish. intros [= <- <-]. simpl. rewrite replies_app. simpl.
  rewrite app_nil_r. destruct (state a); [|done]. by destruct (store_snapshot _ _ _ _ _).
Qed.

Lemma replies_drop items (w : World) :
  replies (w_trace (foldl (λ w env, answer EntityNotActive env w) w items))
  = replies (w_trace w) ++ (env_reply <$> items).
Proof.
  revert w. induction items as [|env items IH]; intros w; simpl; [by rewrite app_nil_r|].
  rewrite IH, replies_answer, <-app_assoc. done.
Qed.

(** The envelopes that will not be found in the mailbox nor among the replies: the
    one in execution, or the one whose execution the end of the task cut short. *)
Definition in_flight (p : phase) : list Envelope :=
  match p with Dropped lost => lost | _ => busy p end.

(** Every accepted envelope is answered, queued or in flight, each exactly once, and
    a task that is over has an empty, closed mailbox. *)
Record accounted (s : session) : Prop := mk_accounted {
  acc_envelopes :
    env_reply <$> sent s ≡ₚ
      replies (w_trace (wld s)) ++ (env_reply <$> in_flight (ph s))
        ++ (env_reply <$> queue (mbox s));
  acc_ended : ended (ph s) = true → closed (mbox s) = true ∧ queue (mbox s) = [];
}.

(** The usual case of a step: some envelopes move between the places. *)
Lemma accounted_move s m a w p snt :
  accounted s → snt = sent s →
  replies (w_trace w) ++ (env_reply <$> in_flight p) ++ (env_reply <$> queue m)
    ≡ₚ replies (w_trace (wld s)) ++ (env_reply <$> in_flight (ph s))
       ++ (env_reply <$> queue (mbox s)) →
  (ended p = true → closed m = true ∧ queue m = []) →
  accounted (mk_session m a w p snt).
Proof. intros [Hp _] -> Hperm He. split; simpl; [by rewrite Hp, Hperm|done]. Qed.

Lemma accounted_drop s :
  accounted s → dropped (ph s) = false → accounted (drop_guard s).
Proof.
  intros [Hp _] Hph. unfold drop_guard. simpl. split; simpl; [|done].
  assert (in_flight (ph s) = busy (ph s)) as Heq by by destruct (ph s).
  rewrite replies_drop, Hp, Heq. solve_Permutation.
Qed.

Lemma accounted_send s env m :
  accounted s → send_attempt env (mbox s) = (Some (Ok ()), m) →
  accounted (mk_session m (act s) (wld s) (ph s) (sent s ++ [env])).
Proof.
  intros [Hp He] (Hcl & _ & ->)%send_attempt_Ok. split; simpl.
  - rewrite !fmap_app, Hp. solve_Permutation.
  - intros [? _]%He. congruence.
Qed.

Lemma accounted_step s s' : step s s' → accounted s → accounted s'.
Proof.
  intros Hstep Hacc. destruct Hstep.
  - by apply accounted_send.
  - destruct Hacc as [Hl Hd]. split; simpl; rewrite ?H; done.
  - apply replies_recover in H0. eapply accounted_move; try done; [|by case_decide].
    rewrite H0, H. case_decide; simpl; done.
  - apply recv_attempt_Ok in H0 as (Hq & _ & _). eapply accounted_move; try done.
    rewrite H, Hq. done.
  - apply replies_execute in H0. eapply accounted_move; try done; [|by case_match].
    rewrite H0, H. destruct (is_active (lifecycle a)); simpl; by rewrite <-app_assoc.
  - apply recv_attempt_Err in H0 as (_ & _ & _ & ->).
    eapply accounted_move; try done. by rewrite H.
  - eapply accounted_move; try done. by rewrite H.
  - eapply accounted_move; try done; [|by case_decide]. rewrite H. case_decide; done.
  - apply recv_attempt_Ok in H0 as (Hq & _ & _). eapply accounted_move; try done.
    rewrite H, Hq. done.
  - apply replies_execute in H0. eapply accounted_move; try done; [|by case_decide].
    rewrite H0, H. case_decide; simpl; by rewrite <-app_assoc.
  - apply recv_attempt_Ok in H0 as (Hq & _ & _). eapply accounted_move; try done.
    rewrite replies_answer, H, Hq. simpl. by rewrite <-app_assoc.
  - apply recv_attempt_Err in H0 as (Hc & Hq & _ & ->). eapply accounted_move; try done.
    simpl. rewrite replies_app, H. simpl. by rewrite app_nil_r.
  - apply recv_attempt_Err in H0 as (Hc & Hq & _ & ->). apply replies_passivate in H1.
    eapply accounted_move; try done. by rewrite H1, H.
  - apply recv_attempt_Ok in H0 as (Hq & _ & _). eapply accounted_move; try done.
    rewrite replies_answer, H, Hq. simpl. by rewrite <-app_assoc.
  - apply recv_attempt_Err in H0 as (Hc & Hq & _ & ->). eapply accounted_move; try done.
    by rewrite H.
  - by apply accounted_drop.
Qed.

Lemma accounted_reachable cap a w s :
  w_trace w = [] → rtc step (initial cap a w) s → accounted s.
Proof.
  intros Hw Hr. assert (accounted (initial cap a w)) as H0.
  { split; simpl; [|done]. by rewrite Hw. }
  revert H0. induction Hr as [|s0 s1 s2 Hst _ IH]; [done|].
  intros H0. apply IH. by eapply accounted_step.
Qed.

(** A task gets past its end only through the guard. *)
Lemma dropped_step s s' lost :
  step s s' → ph s' = Dropped lost →
  ph s = Dropped lost ∨ dropped (ph s) = false ∧ s' = drop_guard s.
Proof.
  destruct 1; simpl; intros Hd; try discriminate; try (by left); try (by right);
    try (by case_decide); by case_match.
Qed.

Lemma dropped_once s0 s lost :
  rtc step s0 s → dropped (ph s0) = false → ph s = Dropped lost →
  ∃ s1, rtc step s0 s1 ∧ dropped (ph s1) = false ∧ lost = busy (ph s1) ∧
        rtc step (drop_guard s1) s.
Proof.
  intros Hr H0. revert s Hr. refine (rtc_ind_r _ _ _ _); [intros Hd; by rewrite Hd in H0|].
  intros s1 s2 Hr Hst IH Hd. destruct (dropped_step _ _ _ Hst Hd) as [Hd1|[Hnd ->]].
  - destruct (IH Hd1) as (s3 & H1 & H2 & H3 & H4). exists s3. split_and!; [done..|].
    by eapply rtc_r.
  - exists s1. split_and!; [done..| |done]. by injection Hd as <-.
Qed.

(** ** Properties *)

(** C6: No accepted command is swallowed.  Whatever the interleaving of senders,
    commands, passivation, failures, foreign writes, panics and cancellations:
    while the task is alive, the envelopes [send] accepted are, each exactly once,
    the answered ones, the one being executed and the queued ones; when [run] has
    returned, the mailbox is closed and empty and they are exactly the answered
    ones; and when the guard has run, the mailbox is closed and empty and they are
    the answered ones and the command, at most one, that the task was executing at
    the moment it was dropped, so a task dropped between two commands leaves none
    unanswered. *)
Theorem every_accepted_command_is_answered cap a w s :
  w_trace w = [] → rtc step (initial cap a w) s →
  let accepted := env_reply <$> sent s in
  let answered := replies (w_trace (wld s)) in
  match ph s with
  | Returned =>
      closed (mbox s) = true ∧ queue (mbox s) = [] ∧ accepted ≡ₚ answered
  | Dropped lost =>
      closed (mbox s) = true ∧ queue (mbox s) = [] ∧
      accepted ≡ₚ answered ++ (env_reply <$> lost) ∧ length lost ≤ 1 ∧
      ∃ s0, rtc step (initial cap a w) s0 ∧ dropped (ph s0) = false ∧
        lost = busy (ph s0) ∧ rtc step (drop_guard s0) s
  | p =>
      accepted ≡ₚ answered ++ (env_reply <$> busy p) ++ (env_reply <$> queue (mbox s))
  end.
Proof.
  intros Hw Hr. cbv zeta. destruct (accounted_reachable _ _ _ _ Hw Hr) as [Hp He].
  destruct (ph s) as [| | | | | | | | |lost] eqn:Hph; try exact Hp.
  - destruct (He eq_refl) as [Hc Hq]. split_and!; [done..|]. rewrite Hp, Hq. simpl.
    by rewrite app_nil_r.
  - destruct (He eq_refl) as [Hc Hq]. rewrite Hq, app_nil_r in Hp.
    destruct (dropped_once _ _ lost Hr eq_refl Hph) as (s0 & H1 & H2 & H3 & H4).
    split_and!; [done..| |by exists s0]. rewrite H3. by destruct (ph s0); simpl; lia.
Qed.
End session.

(** ** Witness *)

#[local] Instance session_ops : EventStoreOps nat (Committed nat) (UnitOfWork nat) :=
  entity_store_ops ∅.

(** A command is accepted, another is received and interrupted in mid-execution: the
    guard answers the first and only the second is lost. *)
Lemma every_accepted_command_is_answered_witness :
  let s0 := @initial nat nat nat (Committed nat) (MemorySnapshots.InMemorySnapshotStore nat)
              unit 2 (Example_counter.actor None Recovering) Example_counter.world0 in
  let e1 := Example_counter.env 5 in
  let e2 := mk_envelope 7 (env_context e1) 10 in
  let host := Example_counter.host in
  let r := recover_state host (act s0) (wld s0) in
  let s5 := drop_guard (mk_session (mk_mailbox [e2] 2 false) r.1 r.2 (LoopBusy e1) [e1; e2]) in
  rtc (step host) s0 s5 ∧
  ph s5 = Dropped [e1] ∧ [9; 10] ≡ₚ replies (w_trace (wld s5)) ++ [9].
Proof.
  intros s0 e1 e2 host r s5.
  assert (rtc (step host) s0 s5) as Hr.
  { eapply rtc_l; [by eapply (step_send _ s0 e1)|].
    eapply rtc_l; [by eapply (step_send _ _ e2)|].
    eapply rtc_l; [by eapply (step_recover _ _ r.1 r.2)|].
    eapply rtc_l; [by eapply (step_recv _ _ e1)|].
    apply rtc_once. by apply step_drop. }
  pose proof (every_accepted_command_is_answered
    host 2 (Example_counter.actor None Recovering) Example_counter.world0 s5 eq_refl Hr)
    as (_ & _ & H & _).
  split; [exact Hr|]. split; [reflexivity|exact H].
Defined.
