(* ===== verification/EffectStore.v ===== *)
(** * Effect delivery bookkeeping

    The two ports of the effect runtime, delivery states and idempotency
    reservations, and the in-memory store that implements both (crates/runtime,
    effects/store.rs).  Each map sits behind its own lock. *)

From S2P Require Import Prelude Identity Effect.

(** ** Data *)

(** [EffectId]: a UUID, 128 bits. *)
Record EffectId := mk_effect_id { effect_uuid : N }.
#[export] Instance EffectId_eq_dec : EqDecision EffectId.
Proof. solve_decision. Defined.
#[export] Instance EffectId_countable : Countable EffectId.
Proof. by apply (inj_countable' effect_uuid mk_effect_id); intros []. Defined.

(** [Display] of a UUID, from the [uuid] crate. *)
Class ShowUuid := show_uuid : N → string.

(** [Timestamp]: a point in time, in nanoseconds. *)
Abbreviation Timestamp := Z.

Inductive EffectState := Pending | InFlight | Succeeded | RetryableFailed | TerminalFailed.
#[export] Instance EffectState_eq_dec : EqDecision EffectState.
Proof. solve_decision. Defined.

Inductive TerminalReason :=
| ExecutorMissing
| InvalidEffect (msg : string)
| Other (msg : string).

Inductive EffectStoreError :=
| SNotFound (id : EffectId)
| InvalidTransition (id : EffectId) (from to : EffectState)
| SConflict (msg : string)
| TemporarilyUnavailable (msg : string)
| Backend (msg : string).

Record AcceptedEffect := mk_accepted {
  accepted_id : EffectId;
  accepted_tenant : TenantId;
  accepted_attempt : Z;
  accepted_description : ExternalEffectDescription;
}.

Record StoredEffect := mk_stored_effect {
  stored_id : EffectId;
  stored_tenant : TenantId;
  stored_description : ExternalEffectDescription;
  stored_attempt : Z;
  stored_state : EffectState;
  stored_next_at : Timestamp;
}.

Record EffectRecord := mk_effect_record {
  record_tenant : TenantId;
  record_description : ExternalEffectDescription;
  record_state : EffectState;
  record_attempt : Z;
  record_next_at : option Timestamp;
  record_terminal_reason : option TerminalReason;
}.

(** The digest of payload and destination; [sha256] is the [sha2] crate's. *)
Record EffectFingerprint := mk_effect_fingerprint { fingerprint_bytes : list Byte.byte }.
#[export] Instance EffectFingerprint_eq_dec : EqDecision EffectFingerprint.
Proof. solve_decision. Defined.

(** What is fed to the hasher: each field behind its length as 8 big-endian bytes. *)
Definition fingerprint_frame (payload : list Byte.byte) (destination : string) :
    list Byte.byte :=
  to_be_bytes (Z.of_nat (length payload)) ++ payload ++
  to_be_bytes (Z.of_nat (length (string_bytes destination))) ++ string_bytes destination.

Definition fingerprint_compute (sha256 : list Byte.byte → list Byte.byte)
    (payload : list Byte.byte) (destination : string) : EffectFingerprint :=
  mk_effect_fingerprint (sha256 (fingerprint_frame payload destination)).

Inductive DedupOutcome :=
| Fresh | OwnedInProgress | OwnedSucceeded | OtherInProgress | OtherSucceeded | DedupConflict.
#[export] Instance DedupOutcome_eq_dec : EqDecision DedupOutcome.
Proof. solve_decision. Defined.

Record DedupScope := mk_scope {
  scope_tenant : TenantId;
  scope_effect_type : string;
  scope_key : IdempotencyKey;
}.
#[export] Instance DedupScope_eq_dec : EqDecision DedupScope.
Proof. solve_decision. Defined.
#[export] Instance DedupScope_countable : Countable DedupScope.
Proof.
  by apply (inj_countable' (λ s, (scope_tenant s, scope_effect_type s, scope_key s))
    (λ '(a, b, c), mk_scope a b c)); intros [].
Defined.

Record ReservationRecord := mk_reservation {
  reserved_by : EffectId;
  reserved_fingerprint : EffectFingerprint;
  reserved_succeeded : bool;
}.

Record InMemoryEffectStore := mk_effect_store {
  states : gmap EffectId EffectRecord;
  dedup : gmap DedupScope ReservationRecord;
}.

Definition effect_store_new : InMemoryEffectStore := mk_effect_store ∅ ∅.

Implicit Types (self : InMemoryEffectStore) (sts : gmap EffectId EffectRecord).

(** ** Delivery states *)
Definition set_state (to : EffectState) (r : EffectRecord) : EffectRecord :=
  mk_effect_record (record_tenant r) (record_description r) to (record_attempt r)
    (record_next_at r) (record_terminal_reason r).

(** [transition] with the update its caller makes to the record it returns. *)
Definition transition (id : EffectId) (allowed_from : list EffectState) (to : EffectState)
    (update : EffectRecord → EffectRecord) sts :
    result EffectStoreError unit * gmap EffectId EffectRecord :=
  match sts !! id with
  | None => (Err (SNotFound id), sts)
  | Some record =>
      if decide (record_state record ∉ allowed_from)
      then (Err (InvalidTransition id (record_state record) to), sts)
      else (Ok (), <[id := update (set_state to record)]> sts)
  end.

Definition accept `{SU : !ShowUuid} (effect : AcceptedEffect) sts :
    result EffectStoreError unit * gmap EffectId EffectRecord :=
  match sts !! accepted_id effect with
  | Some existing =>
      (if decide (record_tenant existing = accepted_tenant effect ∧
                  record_description existing = accepted_description effect)
       then Ok () else Err (SConflict ("effect " +:+ show_uuid (effect_uuid (accepted_id effect))
         +:+ " already accepted with different tenant/description")), sts)
  | None =>
      (Ok (), <[accepted_id effect :=
         mk_effect_record (accepted_tenant effect) (accepted_description effect) Pending
           (accepted_attempt effect) None None]> sts)
  end.

Definition mark_in_flight (id : EffectId) sts :
    result EffectStoreError unit * gmap EffectId EffectRecord :=
  transition id [Pending; RetryableFailed] InFlight (λ r, r) sts.

Definition mark_succeeded (id : EffectId) sts :
    result EffectStoreError unit * gmap EffectId EffectRecord :=
  transition id [InFlight] Succeeded (λ r, r) sts.

Definition mark_retryable (id : EffectId) (attempt : Z) (next_at : Timestamp) sts :
    result EffectStoreError unit * gmap EffectId EffectRecord :=
  transition id [InFlight] RetryableFailed
    (λ r, mk_effect_record (record_tenant r) (record_description r) (record_state r)
            attempt (Some next_at) (record_terminal_reason r)) sts.

Definition mark_terminal (id : EffectId) (reason : TerminalReason) sts :
    result EffectStoreError unit * gmap EffectId EffectRecord :=
  transition id [InFlight; RetryableFailed] TerminalFailed
    (λ r, mk_effect_record (record_tenant r) (record_description r) (record_state r)
            (record_attempt r) (record_next_at r) (Some reason)) sts.

Definition is_due (now : Timestamp) (r : EffectRecord) : bool :=
  bool_decide (record_state r = Pending ∨ record_state r = RetryableFailed)
  && match record_next_at r with Some next_at => bool_decide (next_at ≤ now)%Z | None => true end.

Definition to_stored (now : Timestamp) (p : EffectId * EffectRecord) : StoredEffect :=
  mk_stored_effect p.1 (record_tenant p.2) (record_description p.2) (record_attempt p.2)
    (record_state p.2) (default now (record_next_at p.2)).

(** [it] is the iteration order of the map. *)
Definition claim_due (now : Timestamp) (limit : nat) (it : list (EffectId * EffectRecord)) :
    result EffectStoreError (list StoredEffect) :=
  Ok (to_stored now <$> take limit (filter (λ p, is_due now p.2 = true) it)).

(** The loop of [recover_in_flight] updates every record in place. *)
Definition recover_record (now : Timestamp) (r : EffectRecord) : EffectRecord :=
  if decide (record_state r = InFlight)
  then mk_effect_record (record_tenant r) (record_description r) Pending (record_attempt r)
         (Some now) (record_terminal_reason r)
  else r.

Definition recover_in_flight (now : Timestamp) sts :
    result EffectStoreError Z * gmap EffectId EffectRecord :=
  (Ok (Z.of_nat (length (filter (λ p : EffectId * EffectRecord, record_state p.2 = InFlight)
         (map_to_list sts)))),
   recover_record now <$> sts).

(** ** Reservations *)
Implicit Types (ded : gmap DedupScope ReservationRecord).

Definition reserve (scope : DedupScope) (effect_id : EffectId)
    (fingerprint : EffectFingerprint) ded :
    result EffectStoreError DedupOutcome * gmap DedupScope ReservationRecord :=
  match ded !! scope with
  | None => (Ok Fresh, <[scope := mk_reservation effect_id fingerprint false]> ded)
  | Some existing =>
      (Ok (if decide (reserved_fingerprint existing ≠ fingerprint) then DedupConflict
           else if decide (reserved_by existing = effect_id) then
             if reserved_succeeded existing then OwnedSucceeded else OwnedInProgress
           else if reserved_succeeded existing then OtherSucceeded else OtherInProgress), ded)
  end.

Definition commit_success (scope : DedupScope) ded :
    result EffectStoreError unit * gmap DedupScope ReservationRecord :=
  (Ok (), match ded !! scope with
          | Some r => <[scope := mk_reservation (reserved_by r) (reserved_fingerprint r) true]> ded
          | None => ded
          end).

Definition release (scope : DedupScope) ded :
    result EffectStoreError unit * gmap DedupScope ReservationRecord :=
  (Ok (), delete scope ded).

(** ** Lemmas *)

(** The calls of the state port that may change a record. *)
Inductive state_call :=
| CAccept (effect : AcceptedEffect)
| CInFlight (id : EffectId)
| CSucceeded (id : EffectId)
| CRetryable (id : EffectId) (attempt : Z) (next_at : Timestamp)
| CTerminal (id : EffectId) (reason : TerminalReason)
| CRecover (now : Timestamp).

Definition run_state_call `{SU : !ShowUuid} (c : state_call) sts : gmap EffectId EffectRecord :=
  match c with
  | CAccept effect => (accept effect sts).2
  | CInFlight id => (mark_in_flight id sts).2
  | CSucceeded id => (mark_succeeded id sts).2
  | CRetryable id attempt next_at => (mark_retryable id attempt next_at sts).2
  | CTerminal id reason => (mark_terminal id reason sts).2
  | CRecover now => (recover_in_flight now sts).2
  end.

Fixpoint run_state_calls `{SU : !ShowUuid} (cs : list state_call) sts : gmap EffectId EffectRecord :=
  match cs with [] => sts | c :: cs => run_state_calls cs (run_state_call c sts) end.

(** The delivery diagram. *)
Inductive delivery_edge : EffectState → EffectState → Prop :=
| edge_dispatch : delivery_edge Pending InFlight
| edge_redispatch : delivery_edge RetryableFailed InFlight
| edge_success : delivery_edge InFlight Succeeded
| edge_retry : delivery_edge InFlight RetryableFailed
| edge_terminal : delivery_edge InFlight TerminalFailed
| edge_terminal_retry : delivery_edge RetryableFailed TerminalFailed
| edge_recover : delivery_edge InFlight Pending.

(** One record across a call: same effect, same state or along one edge. *)
Definition record_step (r r' : EffectRecord) : Prop :=
  record_tenant r' = record_tenant r ∧ record_description r' = record_description r ∧
  (r' = r ∨ delivery_edge (record_state r) (record_state r')).

Lemma transition_step id from to update sts i r :
  (∀ s, s ∈ from → delivery_edge s to) →
  (∀ r, record_tenant (update r) = record_tenant r ∧
        record_description (update r) = record_description r ∧
        record_state (update r) = record_state r) →
  sts !! i = Some r → ∃ r', (transition id from to update sts).2 !! i = Some r' ∧ record_step r r'.
Proof.
  intros Hedge Hup Hi. unfold transition.
  assert (∃ r', sts !! i = Some r' ∧ record_step r r') as Hsame.
  { exists r. split; [done|]. by split_and!; [..|left]. }
  destruct (sts !! id) as [record|] eqn:Hid; [|done]. case_decide as Hd; [done|]. simpl.
  destruct (decide (i = id)) as [->|Hne]; [|by rewrite lookup_insert_ne].
  rewrite lookup_insert_eq. eexists. split; [done|]. assert (record = r) as -> by congruence.
  destruct (Hup (set_state to r)) as (H1 & H2 & H3). unfold record_step.
  rewrite H1, H2, H3. split_and!; [done..|]. right. apply Hedge.
  destruct (decide (record_state r ∈ from)); naive_solver.
Qed.

Ltac edges := intros ? Hin; repeat (apply elem_of_cons in Hin as [->|Hin]; [constructor|]);
  by apply elem_of_nil in Hin.

Lemma run_state_call_step `{SU : !ShowUuid} c sts i r :
  sts !! i = Some r → ∃ r', run_state_call c sts !! i = Some r' ∧ record_step r r'.
Proof.
  intros Hi. destruct c; simpl.
  - unfold accept. assert (∃ r', sts !! i = Some r' ∧ record_step r r') as Hsame.
    { exists r. split; [done|]. by split_and!; [..|left]. }
    destruct (sts !! accepted_id effect) eqn:He; [done|]. simpl.
    rewrite lookup_insert_ne; [done|naive_solver].
  - apply transition_step; [edges|done|done].
  - apply transition_step; [edges|done|done].
  - apply transition_step; [edges|done|done].
  - apply transition_step; [edges|done|done].
  - rewrite lookup_fmap, Hi. simpl. eexists. split; [done|]. unfold recover_record.
    case_decide as Hs; unfold record_step; simpl; split_and!; try done; [|by left].
    right. rewrite Hs. constructor.
Qed.

Lemma run_state_calls_step `{SU : !ShowUuid} cs sts i r :
  sts !! i = Some r →
  ∃ r', run_state_calls cs sts !! i = Some r' ∧
    record_tenant r' = record_tenant r ∧ record_description r' = record_description r ∧
    rtc delivery_edge (record_state r) (record_state r') ∧
    (record_state r = Succeeded ∨ record_state r = TerminalFailed → r' = r).
Proof.
  revert sts r. induction cs as [|c cs IH]; intros sts r Hi; simpl.
  { exists r. split_and!; [done..|apply rtc_refl|done]. }
  destruct (run_state_call_step c sts i r Hi) as (r1 & H1 & Ht & Hd & Hs).
  destruct (IH _ _ H1) as (r2 & H2 & Ht2 & Hd2 & Hs2 & Hf2). exists r2.
  rewrite Ht2, Hd2. split_and!; [done..| |].
  - destruct Hs as [->|He]; [done|]. by eapply rtc_l.
  - intros Hfinal. destruct Hs as [->|He]; [by apply Hf2|].
    destruct Hfinal as [Hf|Hf]; rewrite Hf in He; inversion He.
Qed.

(** ** Properties *)

(** Delivery follows its diagram: over any sequence of store calls, successful or
    not, an accepted effect is never forgotten, never changes tenant or
    description, moves only along the edges of the delivery diagram, and once
    succeeded or terminally failed its record never changes again. *)
Lemma delivery_follows_diagram `{SU : !ShowUuid} cs sts id r :
  sts !! id = Some r →
  ∃ r', run_state_calls cs sts !! id = Some r' ∧
    record_tenant r' = record_tenant r ∧ record_description r' = record_description r ∧
    rtc delivery_edge (record_state r) (record_state r') ∧
    (record_state r = Succeeded ∨ record_state r = TerminalFailed → r' = r).
Proof. apply run_state_calls_step. Qed.

(** Accepting is idempotent: a replayed acceptance of the same tenant and
    description answers [Ok] at any later time without touching the record,
    whatever its state by then, and one with other content is refused. *)
Lemma accept_is_idempotent `{SU : !ShowUuid} effect sts cs :
  sts !! accepted_id effect = None →
  ∃ sts1, accept effect sts = (Ok (), sts1) ∧
    record_state <$> sts1 !! accepted_id effect = Some Pending ∧
    let sts2 := run_state_calls cs sts1 in
    accept effect sts2 = (Ok (), sts2) ∧
    ∀ other, accepted_id other = accepted_id effect →
      (accepted_tenant other, accepted_description other)
        ≠ (accepted_tenant effect, accepted_description effect) →
      ∃ msg, accept other sts2 = (Err (SConflict msg), sts2).
Proof.
  intros Hnone. unfold accept at 1. rewrite Hnone. eexists. split; [done|].
  rewrite lookup_insert_eq. split; [done|]. cbv zeta.
  edestruct (run_state_calls_step cs) as (r' & Hr' & Ht & Hd & _);
    [apply (lookup_insert_eq sts (accepted_id effect))|].
  simpl in Ht, Hd. unfold accept. split.
  - rewrite Hr', Ht, Hd. by rewrite decide_True.
  - intros other Hid Hne. rewrite Hid, Hr', Ht, Hd. rewrite decide_False; [eauto|].
    intros [Ht' Hd']. simpl in Ht', Hd'. apply Hne. by rewrite Ht', Hd'.
Qed.

(** Claiming is exact, whatever the iteration order: at most [limit] effects, each
    pending or retryable and due, with the content and attempt of its record;
    and when fewer than [limit] are claimed, every due effect is among them. *)
Lemma claim_due_exact now limit sts it claimed :
  iteration sts it → claim_due now limit it = Ok claimed →
  length claimed ≤ limit ∧
  (∀ e, e ∈ claimed → ∃ r, sts !! stored_id e = Some r ∧ is_due now r = true ∧
     e = to_stored now (stored_id e, r)) ∧
  NoDup (stored_id <$> claimed) ∧
  (length claimed < limit →
   ∀ id r, sts !! id = Some r → is_due now r = true → to_stored now (id, r) ∈ claimed).
Proof.
  intros Hit [= <-]. set (due := filter _ it).
  assert (∀ p, p ∈ due ↔ sts !! p.1 = Some p.2 ∧ is_due now p.2 = true) as Hdue.
  { intros [id r]. unfold due. rewrite list_elem_of_filter, (iteration_elem _ _ _ _ Hit).
    simpl. tauto. }
  rewrite length_fmap, length_take. split_and!; [lia| | |].
  - intros e ([id r] & -> & Hin)%list_elem_of_fmap. apply elem_of_take in Hin as (i & Hi & _).
    apply list_elem_of_lookup_2, Hdue in Hi as [? ?]. simpl. eauto.
  - rewrite <-list_fmap_compose. change (stored_id ∘ to_stored now) with (@fst EffectId EffectRecord).
    rewrite fmap_take. apply (sublist_NoDup _ due.*1); [|apply sublist_take].
    apply NoDup_fmap_filter. by eapply iteration_NoDup_fst.
  - intros Hlt id r Hid Hd. apply list_elem_of_fmap. exists (id, r). split; [done|].
    rewrite take_ge by lia. by apply Hdue.
Qed.

(** Crash recovery returns exactly the effects caught in flight: each becomes
    pending and due immediately, every other record is untouched, none stays in
    flight, and the count is the number returned. *)
Lemma recovery_returns_in_flight now sts n sts' :
  recover_in_flight now sts = (Ok n, sts') →
  n = Z.of_nat (length (filter (λ p : EffectId * EffectRecord, record_state p.2 = InFlight)
                          (map_to_list sts))) ∧
  ∀ id, match sts !! id with
        | Some r =>
            ∃ r', sts' !! id = Some r' ∧ record_state r' ≠ InFlight ∧
              (if decide (record_state r = InFlight)
               then record_state r' = Pending ∧ is_due now r' = true ∧
                    record_attempt r' = record_attempt r
               else r' = r)
        | None => sts' !! id = None
        end.
Proof.
  intros [= <- <-]. split; [done|]. intros id. rewrite lookup_fmap.
  destruct (sts !! id) as [r|]; [|done]. simpl. eexists. split; [done|].
  unfold recover_record. case_decide as Hs; [|done]. simpl. split_and!; try done.
  unfold is_due. simpl. apply bool_decide_eq_true_2, Z.le_refl.
Qed.

(** Calls of the reservation port. *)
Inductive dedup_call :=
| DReserve (scope : DedupScope) (id : EffectId) (fp : EffectFingerprint)
| DCommit (scope : DedupScope)
| DRelease (scope : DedupScope).

Definition run_dedup_call (c : dedup_call) (ded : gmap DedupScope ReservationRecord) :
    gmap DedupScope ReservationRecord :=
  match c with
  | DReserve scope id fp => (reserve scope id fp ded).2
  | DCommit scope => (commit_success scope ded).2
  | DRelease scope => (release scope ded).2
  end.

Fixpoint run_dedup_calls (cs : list dedup_call) ded : gmap DedupScope ReservationRecord :=
  match cs with [] => ded | c :: cs => run_dedup_calls cs (run_dedup_call c ded) end.

(** A reservation survives every call but its release; only its flag can rise. *)
Lemma run_dedup_calls_keep cs ded scope r :
  ded !! scope = Some r → Forall (λ c, c ≠ DRelease scope) cs →
  ∃ b, run_dedup_calls cs ded !! scope
       = Some (mk_reservation (reserved_by r) (reserved_fingerprint r) (reserved_succeeded r || b)).
Proof.
  intros Hr Hcs. revert ded r Hr. induction Hcs as [|c cs Hc _ IH]; intros ded r Hr; simpl.
  { exists false. rewrite orb_false_r. by destruct r. }
  assert (∃ b, run_dedup_call c ded !! scope
    = Some (mk_reservation (reserved_by r) (reserved_fingerprint r) (reserved_succeeded r || b)))
    as (b & Hb).
  { destruct c as [sc id fp|sc|sc]; simpl.
    - exists false. rewrite orb_false_r. unfold reserve.
      destruct (ded !! sc) eqn:Hsc; simpl; [by destruct r|].
      rewrite lookup_insert_ne by naive_solver. by destruct r.
    - destruct (decide (sc = scope)) as [->|Hne].
      + exists true. rewrite Hr, orb_true_r. by rewrite lookup_insert_eq.
      + exists false. rewrite orb_false_r.
        destruct (ded !! sc); [rewrite lookup_insert_ne by done|]; by destruct r.
    - exists false. rewrite orb_false_r, lookup_delete_ne by naive_solver. by destruct r. }
  destruct (IH _ _ Hb) as (b' & ->). exists (b || b'). simpl. by rewrite orb_assoc.
Qed.

(** A scope has one owner: from the [Fresh] reservation of an effect until the
    scope is released, whatever calls intervene, no effect is told [Fresh]
    again, any other content is a conflict, the owner is told it owns the
    scope and every other effect that another holds it, and they are told of
    success exactly once it was committed. *)
Lemma reservation_is_single_flight scope id fp ded ded1 cs id' fp' :
  reserve scope id fp ded = (Ok Fresh, ded1) → Forall (λ c, c ≠ DRelease scope) cs →
  ∃ committed,
    reserve scope id' fp' (run_dedup_calls cs ded1)
    = (Ok (if decide (fp' ≠ fp) then DedupConflict
           else match bool_decide (id' = id), committed with
                | true, true => OwnedSucceeded
                | true, false => OwnedInProgress
                | false, true => OtherSucceeded
                | false, false => OtherInProgress
                end), run_dedup_calls cs ded1).
Proof.
  intros Hres Hcs. assert (ded1 !! scope = Some (mk_reservation id fp false)) as H1.
  { unfold reserve in Hres. destruct (ded !! scope) as [r|].
    - simplify_eq. repeat case_decide; by destruct (reserved_succeeded r).
    - simplify_eq. apply lookup_insert_eq. }
  destruct (run_dedup_calls_keep cs ded1 scope _ H1 Hcs) as (b & Hb). simpl in Hb.
  exists b. unfold reserve. rewrite Hb. simpl. do 2 f_equal.
  repeat (case_decide || case_bool_decide); try naive_solver; by destruct b.
Qed.

(** The fingerprint framing is injective: payloads and destinations (of fewer than
    2^64 bytes) that hash the same bytes are the same payload and destination,
    so no shifting of bytes between the two fields can alias two effects. *)
Lemma fingerprint_framing_injective p d p' d' :
  (Z.of_nat (length p) < 2 ^ 64)%Z → (Z.of_nat (length p') < 2 ^ 64)%Z →
  fingerprint_frame p d = fingerprint_frame p' d' → p = p' ∧ d = d'.
Proof.
  intros Hp Hp' Heq. unfold fingerprint_frame in Heq.
  apply app_length_inj in Heq as [Hl Heq]; [|done].
  apply to_be_bytes_inj in Hl; [|lia..].
  apply app_length_inj in Heq as [-> Heq]; [|lia]. split; [done|].
  apply app_length_inj in Heq as [_ Heq]; [|done]. by apply string_bytes_inj.
Qed.

(** ** Witnesses *)
#[local] Instance ex_show : ShowUuid := λ _, "id".
Definition ex_eid : EffectId := mk_effect_id 1.
Definition ex_desc : ExternalEffectDescription :=
  mk_description (mk_id "k-1") "email" [Byte.x61] "ops@example.org".
Definition ex_accepted : AcceptedEffect := mk_accepted ex_eid (mk_id "acme") 0 ex_desc.
Definition ex_record (st : EffectState) : EffectRecord :=
  mk_effect_record (mk_id "acme") ex_desc st 0 None None.
Definition ex_sts (st : EffectState) : gmap EffectId EffectRecord := {[ex_eid := ex_record st]}.
Definition ex_scope : DedupScope := mk_scope (mk_id "acme") "email" (mk_id "k-1").

Lemma delivery_follows_diagram_witness :
  ∃ r', run_state_calls [CInFlight ex_eid; CSucceeded ex_eid] (ex_sts Pending) !! ex_eid
    = Some r' ∧ record_tenant r' = mk_id "acme".
Proof.
  destruct (delivery_follows_diagram [CInFlight ex_eid; CSucceeded ex_eid] (ex_sts Pending)
              ex_eid (ex_record Pending)) as (r' & H1 & H2 & _).
  - apply (lookup_singleton_eq (M:=gmap EffectId)).
  - exists r'. split; [exact H1|exact H2].
Defined.

Lemma accept_is_idempotent_witness :
  ∃ sts1, accept ex_accepted ∅ = (Ok (), sts1) ∧
    accept ex_accepted (run_state_calls [CInFlight ex_eid] sts1)
    = (Ok (), run_state_calls [CInFlight ex_eid] sts1).
Proof.
  destruct (accept_is_idempotent ex_accepted ∅ [CInFlight ex_eid]) as (s & H1 & _ & H2 & _).
  - reflexivity.
  - exists s. split; [exact H1|exact H2].
Defined.

Lemma claim_due_exact_witness :
  length [to_stored 5 (ex_eid, ex_record Pending)] ≤ 3.
Proof.
  refine (proj1 (claim_due_exact 5 3 (ex_sts Pending) [(ex_eid, ex_record Pending)] _ _ _)).
  - unfold iteration, ex_sts. by rewrite map_to_list_singleton.
  - reflexivity.
Defined.

Lemma recovery_returns_in_flight_witness :
  ∃ n sts', recover_in_flight 5 (ex_sts InFlight) = (Ok n, sts') ∧
    ∃ r', sts' !! ex_eid = Some r' ∧ record_state r' ≠ InFlight.
Proof.
  destruct (recovery_returns_in_flight 5 (ex_sts InFlight) _ _ eq_refl) as [_ H].
  eexists _, _. split; [reflexivity|]. specialize (H ex_eid).
  unfold ex_sts in H at 1. rewrite (lookup_singleton_eq (M:=gmap EffectId)) in H.
  destruct H as (r' & H1 & H2 & _). exists r'. split; [exact H1|exact H2].
Defined.

Lemma reservation_is_single_flight_witness :
  ∃ ded1, reserve ex_scope ex_eid (mk_effect_fingerprint []) ∅ = (Ok Fresh, ded1) ∧
    ∃ committed, reserve ex_scope (mk_effect_id 2) (mk_effect_fingerprint [])
      (run_dedup_calls [DCommit ex_scope] ded1)
    = (Ok (if committed : bool then OtherSucceeded else OtherInProgress),
       run_dedup_calls [DCommit ex_scope] ded1).
Proof.
  exists {[ex_scope := mk_reservation ex_eid (mk_effect_fingerprint []) false]}.
  split; [reflexivity|].
  destruct (reservation_is_single_flight ex_scope ex_eid (mk_effect_fingerprint []) ∅
    {[ex_scope := mk_reservation ex_eid (mk_effect_fingerprint []) false]}
    [DCommit ex_scope] (mk_effect_id 2) (mk_effect_fingerprint [])) as (b & Hb).
  - reflexivity.
  - repeat constructor; discriminate.
  - exists b. rewrite Hb. by destruct b.
Defined.

Lemma fingerprint_framing_injective_witness :
  [Byte.x61] = [Byte.x61] ∧ "bc" = "bc".
Proof. apply fingerprint_framing_injective; [simpl; lia|simpl; lia|reflexivity]. Defined.
