(* ===== verification/Queue.v ===== *)
(** * The effect queue

    The bounded admission queue between acceptors and the runner (crates/runtime,
    effects/queue.rs): a bounded channel plus a side map with the time each
    pending effect has been waiting since, shared by any number of senders and
    one receiver.  The channel is tokio's [mpsc]: a FIFO that makes senders wait
    while it is full.  A send is cancelled by dropping it. *)

From S2P Require Import Prelude Identity Effect EffectStore.

(** ** State and operations *)
Record EffectQueue := mk_queue {
  max_capacity : nat;
  channel : list AcceptedEffect;
  pending_since : gmap EffectId Z;
  receiver_dropped : bool;
}.
Implicit Types (self : EffectQueue).

Definition queue_bounded (capacity : nat) : EffectQueue := mk_queue capacity [] ∅ false.

(** [send], up to its await: the timestamp is recorded first. *)
Definition send_begin (effect : AcceptedEffect) (now : Z) self : EffectQueue :=
  mk_queue (max_capacity self) (channel self) (<[accepted_id effect := now]> (pending_since self))
    (receiver_dropped self).

(** [PendingGuard::drop] *)
Definition guard_drop (id : EffectId) (armed : bool) self : EffectQueue :=
  if armed
  then mk_queue (max_capacity self) (channel self) (delete id (pending_since self))
         (receiver_dropped self)
  else self.

(** [send], when its await is polled: [None] while the channel is full. *)
Definition send_poll (effect : AcceptedEffect) self :
    option (result AcceptedEffect unit) * EffectQueue :=
  if receiver_dropped self then (Some (Err effect), guard_drop (accepted_id effect) true self)
  else if decide (length (channel self) < max_capacity self) then
    (Some (Ok ()),
     guard_drop (accepted_id effect) false
       (mk_queue (max_capacity self) (channel self ++ [effect]) (pending_since self)
          (receiver_dropped self)))
  else (None, self).

(** [recv]: the pop, and then the removal of the entry. *)
Definition recv_pop self : option AcceptedEffect * EffectQueue :=
  match channel self with
  | [] => (None, self)
  | effect :: rest =>
      (Some effect, mk_queue (max_capacity self) rest (pending_since self) (receiver_dropped self))
  end.
Definition recv_forget (effect : AcceptedEffect) self : EffectQueue :=
  mk_queue (max_capacity self) (channel self) (delete (accepted_id effect) (pending_since self))
    (receiver_dropped self).

Definition queue_depth self : nat := length (channel self).

(** [it] is the iteration order of the map. *)
Definition oldest_pending_age (now : Z) (it : list (EffectId * Z)) : option Z :=
  (λ oldest, now - oldest)%Z <$> list_min it.*2.

(** ** Interleaving *)
Record system := mk_system {
  queue : EffectQueue;
  sending : list AcceptedEffect;        (* sends at their await, guards armed *)
  receiving : option AcceptedEffect;    (* popped, its entry still there *)
  enqueued : list AcceptedEffect;       (* every effect whose send answered Ok *)
  dequeued : list AcceptedEffect;       (* every effect popped *)
}.

(** The effects that wait to enter or leave the queue. *)
Definition waiting (s : system) : list AcceptedEffect :=
  sending s ++ channel (queue s) ++ option_list (receiving s).

Inductive step : system → system → Prop :=
| step_send effect now q snd rcv enq deq :
    (* identifiers are minted fresh for every acceptance *)
    accepted_id effect ∉ accepted_id <$> waiting (mk_system q snd rcv enq deq) →
    step (mk_system q snd rcv enq deq)
      (mk_system (send_begin effect now q) (effect :: snd) rcv enq deq)
| step_sent effect q q' l1 l2 rcv enq deq :
    send_poll effect q = (Some (Ok ()), q') →
    step (mk_system q (l1 ++ effect :: l2) rcv enq deq)
      (mk_system q' (l1 ++ l2) rcv (enq ++ [effect]) deq)
| step_refused effect q q' l1 l2 rcv enq deq :
    send_poll effect q = (Some (Err effect), q') →
    step (mk_system q (l1 ++ effect :: l2) rcv enq deq) (mk_system q' (l1 ++ l2) rcv enq deq)
| step_cancelled effect q l1 l2 rcv enq deq :
    step (mk_system q (l1 ++ effect :: l2) rcv enq deq)
      (mk_system (guard_drop (accepted_id effect) true q) (l1 ++ l2) rcv enq deq)
| step_pop effect q q' snd enq deq :
    recv_pop q = (Some effect, q') →
    step (mk_system q snd None enq deq) (mk_system q' snd (Some effect) enq (deq ++ [effect]))
| step_forget effect q snd enq deq :
    step (mk_system q snd (Some effect) enq deq)
      (mk_system (recv_forget effect q) snd None enq deq).

Definition initial (capacity : nat) : system := mk_system (queue_bounded capacity) [] None [] [].
Definition reachable (capacity : nat) : system → Prop := rtc step (initial capacity).

(** ** Lemmas *)
Lemma is_Some_insert {V} (m : gmap EffectId V) i x j :
  is_Some (<[i := x]> m !! j) ↔ j = i ∨ is_Some (m !! j).
Proof.
  destruct (decide (j = i)) as [->|Hne]; [rewrite lookup_insert_eq|rewrite lookup_insert_ne by done];
    naive_solver.
Qed.

(** An entry leaves with its effect. *)
Lemma is_Some_delete {V} (m : gmap EffectId V) (e : AcceptedEffect) l1 l2 :
  NoDup (accepted_id <$> l1 ++ e :: l2) →
  (∀ id, is_Some (m !! id) ↔ id ∈ accepted_id <$> l1 ++ e :: l2) →
  ∀ id, is_Some (delete (accepted_id e) m !! id) ↔ id ∈ accepted_id <$> l1 ++ l2.
Proof.
  rewrite !fmap_app, fmap_cons. intros (_ & Hn & Hd)%NoDup_app Hm id.
  apply NoDup_cons in Hd as [Hne _]. specialize (Hm id).
  set_unfold.
  destruct (decide (id = accepted_id e)) as [->|Hid].
  - rewrite lookup_delete_eq. split; [by intros [? ?]|]. intros [H|H]; [|done].
    destruct (Hn _ H). set_solver.
  - rewrite lookup_delete_ne by done. rewrite Hm. naive_solver.
Qed.

(** The bookkeeping only depends on which effects are waiting. *)
Definition tracked (m : gmap EffectId Z) (l : list AcceptedEffect) : Prop :=
  NoDup (accepted_id <$> l) ∧ ∀ id, is_Some (m !! id) ↔ id ∈ accepted_id <$> l.

#[local] Instance tracked_proper : Proper ((=) ==> (≡ₚ) ==> iff) tracked.
Proof.
  intros m ? <- l l' Hl. unfold tracked. split; intros [H1 H2]; split;
    [by rewrite <-Hl|intros id; by rewrite <-Hl, H2|by rewrite Hl|intros id; by rewrite Hl, H2].
Qed.

Lemma tracked_remove m e l1 l2 :
  tracked m (l1 ++ e :: l2) → tracked (delete (accepted_id e) m) (l1 ++ l2).
Proof.
  intros [Hn Hm]. split; [|by apply is_Some_delete].
  rewrite fmap_app in *. by apply NoDup_app in Hn as (? & Hx & ?%NoDup_cons); apply NoDup_app;
    split_and!; [done| |naive_solver]; intros x Hx1 Hx2; apply (Hx x); [done|]; apply elem_of_cons; auto.
Qed.

Lemma tracked_add m e t l :
  accepted_id e ∉ accepted_id <$> l → tracked m l → tracked (<[accepted_id e := t]> m) (e :: l).
Proof.
  intros Hf [Hn Hm]. split; [by apply NoDup_cons|]. intros id. rewrite is_Some_insert, Hm. set_solver.
Qed.

Record inv (capacity : nat) (s : system) : Prop := mk_inv {
  inv_capacity : max_capacity (queue s) = capacity;
  inv_bounded : length (channel (queue s)) ≤ capacity;
  inv_fifo : enqueued s = dequeued s ++ channel (queue s);
  inv_tracked : tracked (pending_since (queue s)) (waiting s);
}.

Lemma queue_inv_step capacity s s' : step s s' → inv capacity s → inv capacity s'.
Proof.
  intros Hs [Hc Hb Hf Ht]. destruct Hs; unfold waiting in *; simpl in *.
  - split; simpl; try done. by apply tracked_add.
  - unfold send_poll in H. destruct (receiver_dropped q); [done|].
    destruct (decide _); [|done]. simplify_eq. split; simpl; try done.
    + rewrite length_app. simpl. lia.
    + by rewrite app_assoc.
    + eapply tracked_proper; [done| |exact Ht]. unfold waiting. simpl. solve_Permutation.
  - unfold send_poll in H. destruct (receiver_dropped q); [|by destruct (decide _)]. simplify_eq.
    split; simpl; try done. unfold waiting. simpl. rewrite <-app_assoc in *. by apply tracked_remove.
  - split; simpl; try done. unfold waiting. simpl. rewrite <-app_assoc in *. by apply tracked_remove.
  - unfold recv_pop in H. destruct (channel q) as [|e rest] eqn:Hq; [done|]. simplify_eq.
    split; simpl; try done.
    + simpl in *. lia.
    + by rewrite <-app_assoc.
    + eapply tracked_proper; [done| |exact Ht]. unfold waiting. simpl. solve_Permutation.
  - split; simpl; try done. unfold waiting. simpl.
    rewrite app_assoc in Ht |- *. by apply (tracked_remove _ effect _ []).
Qed.

Lemma queue_reachable_inv capacity s : reachable capacity s → inv capacity s.
Proof.
  intros Hr. assert (inv capacity (initial capacity)) as H0.
  { split; simpl; try done; [lia|]. split; [constructor|]. intros id. rewrite lookup_empty.
    unfold waiting. simpl. set_solver. }
  induction Hr; eauto using queue_inv_step.
Qed.

(** ** Properties *)

(** The queue is a bounded FIFO whose waiting times are exact: over any
    interleaving of sends, cancelled sends and receives, it never holds more than
    its capacity, effects leave in the order their sends succeeded, the side map
    holds exactly the effects that wait to enter or to leave (a cancelled send
    leaves nothing behind), and the reported age is that of the longest waiting
    one, absent only when nothing waits. *)
Lemma queue_is_bounded_fifo capacity s :
  reachable capacity s →
  length (channel (queue s)) ≤ capacity ∧
  enqueued s = dequeued s ++ channel (queue s) ∧
  (∀ id, is_Some (pending_since (queue s) !! id) ↔ id ∈ accepted_id <$> waiting s) ∧
  ∀ now it, iteration (pending_since (queue s)) it →
    match oldest_pending_age now it with
    | None => waiting s = []
    | Some age =>
        (∃ id t, pending_since (queue s) @ id ↦ t ∧ age = (now - t)%Z) ∧
        ∀ id t, pending_since (queue s) @ id ↦ t → (now - t ≤ age)%Z
    end.
Proof.
  intros [_ Hb Hf [_ Ht]]%queue_reachable_inv. split_and!; [done..|]. intros now it Hit.
  unfold oldest_pending_age. pose proof (list_min_spec it.*2) as Hmin.
  destruct (list_min it.*2) as [t|]; simpl.
  - destruct Hmin as [Hin Hle]. split.
    + apply list_elem_of_fmap in Hin as ([id t'] & -> & Hin). exists id, t'.
      by apply (iteration_elem _ _ _ _ Hit) in Hin.
    + intros id t' Hl. assert (t ≤ t')%Z; [|lia]. apply Hle, list_elem_of_fmap.
      exists (id, t'). split; [done|]. by apply (iteration_elem _ _ _ _ Hit).
  - destruct (waiting s) as [|e l] eqn:Hw; [done|].
    destruct (proj2 (Ht (accepted_id e))) as [t Hl]; [set_solver|].
    apply (iteration_elem _ _ _ _ Hit) in Hl. by rewrite (fmap_nil_inv _ _ Hmin) in Hl; apply elem_of_nil in Hl.
Qed.

(** ** Witnesses *)
Definition ex_waiting : system :=
  mk_system (send_begin ex_accepted 7 (queue_bounded 1)) [ex_accepted] None [] [].

Lemma queue_is_bounded_fifo_witness :
  length (channel (queue ex_waiting)) ≤ 1 ∧
  (∀ id, is_Some (pending_since (queue ex_waiting) !! id) ↔ id ∈ accepted_id <$> waiting ex_waiting).
Proof.
  destruct (queue_is_bounded_fifo 1 ex_waiting) as (H1 & _ & H2 & _).
  - eapply rtc_l; [|apply rtc_refl]. apply (step_send ex_accepted 7). simpl. apply not_elem_of_nil.
  - split; [exact H1|exact H2].
Defined.
