(* ===== verification/RetryPolicy.v ===== *)
(** * Retry policy and executor registry

    Bounded exponential backoff with full jitter (crates/runtime,
    effects/policy.rs), the scheduling arithmetic of the runner (runner.rs) and the
    one-owner executor registry (effects/registry.rs).  Durations are in
    nanoseconds; an attempt counter is a [u32]. *)

From S2P Require Import Prelude.

(** [Duration::MAX] *)
Definition DURATION_MAX : Z := u64_max * 10 ^ 9 + 999999999.

Definition DEFAULT_MAX_ATTEMPTS : Z := 3.
Definition DEFAULT_BASE_BACKOFF : Z := 100 * 10 ^ 6.
Definition DEFAULT_MAX_BACKOFF : Z := 10 * 10 ^ 9.

Record RetryPolicy := mk_policy {
  max_attempts : Z;
  base_backoff : Z;
  max_backoff : Z;
}.

Definition RetryPolicy_default : RetryPolicy :=
  mk_policy DEFAULT_MAX_ATTEMPTS DEFAULT_BASE_BACKOFF DEFAULT_MAX_BACKOFF.
Definition RetryPolicy_none : RetryPolicy := mk_policy 0 0 0.

Definition allows_retry (self : RetryPolicy) (attempt : Z) : bool :=
  bool_decide (attempt < max_attempts self)%Z.

(** [Duration::saturating_mul] *)
Definition saturating_mul (d n : Z) : Z := Z.min (d * n) DURATION_MAX.

(** The cap the jitter is drawn under. *)
Definition backoff_cap (self : RetryPolicy) (attempt : Z) : Z :=
  let shift := Z.min (Z.max (attempt - 1) 0) 30 in
  let multiplier := Z.shiftl 1 shift in
  Z.min (saturating_mul (base_backoff self) multiplier) (max_backoff self).

Section jitter.
(** [mul_f64 d n] is [d.mul_f64(n as f64 / u64::MAX as f64)]: floating-point
    arithmetic of the standard library.  [n] is the number drawn. *)
Context (mul_f64 : Z → Z → Z).

Definition full_jitter (capped : Z) (numerator : Z) : Z :=
  if decide (capped = 0)%Z then 0%Z else mul_f64 capped numerator.

Definition backoff (self : RetryPolicy) (attempt : Z) (numerator : Z) : Z :=
  if decide (base_backoff self = 0)%Z then 0%Z
  else full_jitter (backoff_cap self attempt) numerator.
End jitter.

Record RetryPolicies := mk_policies {
  default_retry : RetryPolicy;
  retry_overrides : gmap string RetryPolicy;
}.

Definition RetryPolicies_new (default_retry : RetryPolicy) : RetryPolicies :=
  mk_policies default_retry ∅.
Definition with_override (self : RetryPolicies) (effect_type : string) (policy : RetryPolicy) :
    RetryPolicies :=
  mk_policies (default_retry self) (<[effect_type := policy]> (retry_overrides self)).
Definition policy_for (self : RetryPolicies) (effect_type : string) : RetryPolicy :=
  default (default_retry self) (retry_overrides self !! effect_type).

Inductive RunnerMode := Deferred | Inline.
Record DeliveryConfig := mk_delivery_config {
  queue_capacity : Z;
  config_retry : RetryPolicy;
  runner_mode : RunnerMode;
}.
Definition DEFAULT_QUEUE_CAPACITY : Z := 256.
Definition DeliveryConfig_default : DeliveryConfig :=
  mk_delivery_config DEFAULT_QUEUE_CAPACITY RetryPolicy_default Deferred.
Definition DeliveryConfig_immediate : DeliveryConfig :=
  mk_delivery_config 1 RetryPolicy_none Inline.

(** ** Scheduling

    [chrono::Duration::from_std] refuses durations beyond [i64::MAX] milliseconds. *)
Definition saturated_backoff_fallback : Z := 365 * 100 * 24 * 3600 * 10 ^ 9.
Definition chrono_from_std (duration : Z) : option Z :=
  if decide (duration ≤ i64_max * 10 ^ 6)%Z then Some duration else None.
Definition timestamp_after (now duration : Z) : Z :=
  now + default saturated_backoff_fallback (chrono_from_std duration).

(** ** The executor registry

    [X] is the executor handle. *)
Inductive DuplicateEffectType := AlreadyRegistered (effect_type : string).

Definition registry_is_empty {X} (self : gmap string X) : bool := bool_decide (self = ∅).
Definition register {X} (effect_type : string) (executor : X) (self : gmap string X) :
    result DuplicateEffectType unit * gmap string X :=
  match self !! effect_type with
  | Some _ => (Err (AlreadyRegistered effect_type), self)
  | None => (Ok (), <[effect_type := executor]> self)
  end.
Definition registry_get {X} (effect_type : string) (self : gmap string X) : option X :=
  self !! effect_type.

(** ** Properties *)

(** A policy as its fields' types allow. *)
Definition policy_wf (p : RetryPolicy) : Prop :=
  (0 ≤ max_attempts p ≤ u32_max)%Z ∧ (0 ≤ base_backoff p ≤ DURATION_MAX)%Z ∧
  (0 ≤ max_backoff p ≤ DURATION_MAX)%Z.

Lemma shift_bounds a : (1 ≤ Z.shiftl 1 (Z.min (Z.max (a - 1) 0) 30) ≤ 2 ^ 30)%Z.
Proof.
  rewrite Z.shiftl_1_l. split.
  - pose proof (Z.pow_pos_nonneg 2 (Z.min (Z.max (a - 1) 0) 30)). lia.
  - apply Z.pow_le_mono_r; lia.
Qed.

Lemma backoff_cap_bounds p a :
  policy_wf p → (0 ≤ backoff_cap p a ≤ max_backoff p)%Z.
Proof.
  intros (_ & Hb & Hm). unfold backoff_cap, saturating_mul. pose proof (shift_bounds a).
  unfold DURATION_MAX, u64_max in *. split; [|lia].
  apply Z.min_glb; [apply Z.min_glb; [apply Z.mul_nonneg_nonneg; lia|lia]|lia].
Qed.

Lemma backoff_cap_mono p a b :
  policy_wf p → (a ≤ b)%Z → (backoff_cap p a ≤ backoff_cap p b)%Z.
Proof.
  intros (_ & Hb & _) Hab. unfold backoff_cap, saturating_mul.
  apply Z.min_le_compat_r, Z.min_le_compat_r, Z.mul_le_mono_nonneg_l; [lia|].
  rewrite !Z.shiftl_1_l. apply Z.pow_le_mono_r; lia.
Qed.

(** Backoff is bounded: as long as scaling by a fraction does not enlarge a
    duration, every drawn backoff lies between zero and the policy's maximum,
    whatever the attempt and the draw, the range it is drawn from never shrinks
    with the attempt number, and a scheduled instant never lies in the past and
    for a backoff too long to represent lies a century ahead, never now. *)
Lemma backoff_is_bounded mul_f64 p a n now :
  (∀ d n, (0 ≤ d)%Z → (0 ≤ n ≤ u64_max)%Z → (0 ≤ mul_f64 d n ≤ d)%Z) →
  policy_wf p → (0 ≤ n ≤ u64_max)%Z →
  (0 ≤ backoff mul_f64 p a n ≤ max_backoff p)%Z ∧
  (∀ b, (a ≤ b)%Z → (backoff_cap p a ≤ backoff_cap p b)%Z) ∧
  (now ≤ timestamp_after now (backoff mul_f64 p a n))%Z ∧
  (∀ d, (i64_max * 10 ^ 6 < d)%Z → (now + 100 * 365 * 86400 * 10 ^ 9 ≤ timestamp_after now d)%Z).
Proof.
  intros Hmul Hwf Hn. pose proof (backoff_cap_bounds p a Hwf) as Hcap.
  assert ((0 ≤ backoff mul_f64 p a n ≤ max_backoff p)%Z) as Hb.
  { unfold backoff, full_jitter. destruct Hwf as (_ & _ & ?). repeat case_decide; try lia.
    specialize (Hmul (backoff_cap p a) n). lia. }
  split_and!; [lia|lia| | |].
  - intros b. by apply backoff_cap_mono.
  - unfold timestamp_after, chrono_from_std. case_decide; simpl;
      unfold saturated_backoff_fallback; lia.
  - intros d Hd. unfold timestamp_after, chrono_from_std.
    rewrite decide_False by lia. simpl. unfold saturated_backoff_fallback. lia.
Qed.

Lemma backoff_is_bounded_witness :
  (0 ≤ backoff (λ d n, d * n / u64_max) RetryPolicy_default 4 u64_max
     ≤ DEFAULT_MAX_BACKOFF)%Z.
Proof.
  refine (proj1 (backoff_is_bounded (λ d n, d * n / u64_max)%Z RetryPolicy_default 4 u64_max 0
    _ _ _)).
  - intros d n Hd Hn. split; [apply Z.div_pos; unfold u64_max in *; nia|].
    apply Z.div_le_upper_bound; unfold u64_max in *; nia.
  - unfold policy_wf, RetryPolicy_default, DEFAULT_MAX_ATTEMPTS, DEFAULT_BASE_BACKOFF,
      DEFAULT_MAX_BACKOFF, u32_max, DURATION_MAX, u64_max. simpl. lia.
  - unfold u64_max. lia.
Defined.

(** An effect type has one owner: registering an owned type is refused and leaves
    the registry as it was, a fresh registration is what is looked up from then
    on, whatever is attempted later, and no other type's owner changes. *)
Lemma registry_is_first_wins {X} ty (x : X) self r self' :
  register ty x self = (r, self') →
  match r with
  | Err (AlreadyRegistered ty') => ty' = ty ∧ is_Some (registry_get ty self) ∧ self' = self
  | Ok _ =>
      registry_get ty self = None ∧ registry_get ty self' = Some x ∧
      registry_is_empty self' = false ∧
      (∀ ty', ty' ≠ ty → registry_get ty' self' = registry_get ty' self) ∧
      ∀ y, register ty y self' = (Err (AlreadyRegistered ty), self')
  end.
Proof.
  unfold register, registry_get. destruct (self !! ty) as [o|] eqn:Hs; intros [= <- <-].
  - by split_and!; [|eexists|].
  - split_and!; [done|by rewrite lookup_insert_eq| | |].
    + apply bool_decide_eq_false_2. apply insert_non_empty.
    + intros ty' Hne. by rewrite lookup_insert_ne.
    + intros y. by rewrite lookup_insert_eq.
Qed.

Lemma registry_is_first_wins_witness :
  registry_get "email" (<["email" := 1]> (∅ : gmap string nat)) = Some 1.
Proof. apply (registry_is_first_wins "email" 1 ∅ (Ok ())). reflexivity. Defined.
