(* ===== verification/Acceptor.v ===== *)
(** * Accepting effects

    [RuntimeEffectAcceptor] (crates/runtime, effects/acceptor.rs): the admission
    gate and the shutdown sequence as a step relation, and the acceptance of a
    batch of described effects as a program over the state store, the queue and
    the runner.  A [select!] against the shutdown deadline is a command that may
    answer that the deadline came first. *)

From S2P Require Import Prelude Programs Identity Effect EffectStore RetryPolicy.

(** ** The lifecycle gate *)
Inductive LifecycleState := Running | Draining (deadline : Z) | Closed.
Inductive DrainOutcome := Drained | DeadlineElapsed.

Record LifecycleGate := mk_gate { gate_state : LifecycleState; in_flight : Z }.
Implicit Types (self : LifecycleGate).

Definition gate_new : LifecycleGate := mk_gate Running 0.

Definition enter self : result unit unit * LifecycleGate :=
  match gate_state self with
  | Running => (Ok (), mk_gate Running (in_flight self + 1))
  | Draining _ | Closed => (Err (), self)
  end.

(** [InFlightGuard::drop] *)
Definition leave self : LifecycleGate := mk_gate (gate_state self) (in_flight self - 1).

Definition begin_draining (deadline : Z) self : LifecycleGate :=
  mk_gate (Draining deadline) (in_flight self).
Definition close self : LifecycleGate := mk_gate Closed (in_flight self).

(** What [wait_until_drained] may return at time [now]. *)
Inductive drain_returns (now : Z) self : DrainOutcome → Prop :=
| returns_not_draining :
    (∀ deadline, gate_state self ≠ Draining deadline) → drain_returns now self Drained
| returns_drained deadline :
    gate_state self = Draining deadline → in_flight self = 0%Z → drain_returns now self Drained
| returns_elapsed deadline :
    gate_state self = Draining deadline → (deadline ≤ now)%Z →
    drain_returns now self DeadlineElapsed.

(** *** The shutdown sequence *)
Inductive shutdown_phase :=
| NotStarted
| Published (deadline : Z)     (* the deadline is on its channel *)
| Waiting (deadline : Z)       (* admission is closed *)
| Stopping (deadline : Z)      (* the wait has returned *)
| Signalled (deadline : Z)     (* the runner has been told to stop *)
| Finished (deadline : Z).     (* the gate is closed *)

Record shutdown_system := mk_shutdown {
  gate : LifecycleGate;
  guards : nat;                 (* acceptances holding a guard *)
  clock : Z;
  deadline_signal : option Z;   (* the deadline acceptances race against *)
  stop_signal : bool;           (* the runner's stop signal *)
  sphase : shutdown_phase;
}.

Inductive shutdown_step : shutdown_system → shutdown_system → Prop :=
| step_tick g n now now' dl stop ph :
    (now ≤ now')%Z →
    shutdown_step (mk_shutdown g n now dl stop ph) (mk_shutdown g n now' dl stop ph)
| step_admit g g' n now dl stop ph :
    enter g = (Ok (), g') →
    shutdown_step (mk_shutdown g n now dl stop ph) (mk_shutdown g' (S n) now dl stop ph)
| step_leave g n now dl stop ph :
    shutdown_step (mk_shutdown g (S n) now dl stop ph) (mk_shutdown (leave g) n now dl stop ph)
| step_publish g n now dl stop budget :
    (0 ≤ budget)%Z →
    shutdown_step (mk_shutdown g n now dl stop NotStarted)
      (mk_shutdown g n now (Some (now + budget)%Z) stop (Published (now + budget)))
| step_close_admission g n now dl stop deadline :
    shutdown_step (mk_shutdown g n now dl stop (Published deadline))
      (mk_shutdown (begin_draining deadline g) n now dl stop (Waiting deadline))
| step_waited g n now dl stop deadline outcome :
    drain_returns now g outcome →
    shutdown_step (mk_shutdown g n now dl stop (Waiting deadline))
      (mk_shutdown g n now dl stop (Stopping deadline))
| step_signal g n now dl stop deadline :
    shutdown_step (mk_shutdown g n now dl stop (Stopping deadline))
      (mk_shutdown g n now dl true (Signalled deadline))
| step_finish g n now dl stop deadline :
    shutdown_step (mk_shutdown g n now dl stop (Signalled deadline))
      (mk_shutdown (close g) n now dl stop (Finished deadline)).

Definition shutdown_initial (now : Z) : shutdown_system :=
  mk_shutdown gate_new 0 now None false NotStarted.

(** How the spawned runner task ends, and the final result of [shutdown_and_wait]. *)
Inductive RunnerEnd := RunnerDone | RunnerPanic | RunnerAborted | RunnerLate.
Inductive EffectRuntimeShutdownError := Timeout | RunnerPanicked | RunnerCancelled.

Definition runner_task_result (task : option RunnerEnd) :
    result EffectRuntimeShutdownError unit :=
  match task with
  | None | Some RunnerDone => Ok ()
  | Some RunnerPanic => Err RunnerPanicked
  | Some RunnerAborted => Err RunnerCancelled
  | Some RunnerLate => Err Timeout
  end.

Definition shutdown_result (task : option RunnerEnd) (drained_cleanly : bool) :
    result EffectRuntimeShutdownError unit :=
  match runner_task_result task with
  | Ok _ => if drained_cleanly then Ok () else Err Timeout
  | Err err => Err err
  end.

(** ** Acceptance *)
Definition SHUTDOWN_REJECTED_MSG : string :=
  "effect acceptor is shutting down; new acceptance calls are rejected".
Definition DEADLINE_MSG : string := "effect acceptance interrupted by shutdown deadline".

Definition EffectState_debug (s : EffectState) : string :=
  match s with
  | Pending => "Pending" | InFlight => "InFlight" | Succeeded => "Succeeded"
  | RetryableFailed => "RetryableFailed" | TerminalFailed => "TerminalFailed"
  end.

(** [Display] of the store error. *)
Definition EffectStoreError_to_string `{SU : !ShowUuid} (e : EffectStoreError) : string :=
  match e with
  | SNotFound id => "effect " +:+ show_uuid (effect_uuid id) +:+ " not found"
  | InvalidTransition id from to =>
      "invalid transition for effect " +:+ show_uuid (effect_uuid id) +:+ ": "
      +:+ EffectState_debug from +:+ " -> " +:+ EffectState_debug to
  | SConflict msg => "conflict: " +:+ msg
  | TemporarilyUnavailable msg => "backend temporarily unavailable: " +:+ msg
  | Backend msg => "backend error: " +:+ msg
  end.

Inductive send_outcome := Sent | SendClosed | SendDeadline.

Inductive acmd : Type → Type :=
| QEnter : acmd (result unit unit)
| QLeave : acmd unit                              (* the guard is dropped *)
| QMint : acmd EffectId
| QAccept (effect : AcceptedEffect) :             (* [None]: the deadline came first *)
    acmd (option (result EffectStoreError unit))
| QDraw : acmd Z                                  (* jitter *)
| QSleep (backoff : Z) : acmd bool                (* [false]: the deadline came first *)
| QLock : acmd unit                               (* the inline receiver *)
| QSend (effect : AcceptedEffect) : acmd send_outcome
| QRecv : acmd AcceptedEffect
| QDrain (effect : AcceptedEffect) : acmd unit.   (* [runner.drain_one] *)

Section acceptor.
Context `{SU : !ShowUuid} (accept_retry : RetryPolicy) (runner_mode : RunnerMode)
  (mul_f64 : Z → Z → Z).
Abbreviation prog := (prog acmd).
Abbreviation accepted := (result EffectAcceptanceError unit).

Definition effect_key (effect : AcceptedEffect) : IdempotencyKey :=
  description_idempotency_key (accepted_description effect).

(** [fuel] bounds the loop; [accept_fuel_enough] shows that the bound
    [accept_into_store] gives is never used up. *)
Fixpoint accept_loop (fuel : nat) (attempt : Z) (effect : AcceptedEffect) (index : nat) :
    prog accepted :=
  match fuel with
  | O => Ret (Err (RetriesExhausted "" index (effect_key effect)))
  | S fuel =>
      let! r := exec (QAccept effect) in
      match r with
      | None => Ret (Err (RetriesExhausted DEADLINE_MSG index (effect_key effect)))
      | Some (Ok _) => Ret (Ok ())
      | Some (Err (TemporarilyUnavailable msg)) =>
          if negb (allows_retry accept_retry attempt)
          then Ret (Err (RetriesExhausted msg index (effect_key effect)))
          else
            let! n := exec QDraw in
            let d := backoff mul_f64 accept_retry (attempt + 1) n in
            if decide (d = 0)%Z then accept_loop fuel (attempt + 1) effect index
            else
              let! slept := exec (QSleep d) in
              if slept : bool then accept_loop fuel (attempt + 1) effect index
              else Ret (Err (RetriesExhausted DEADLINE_MSG index (effect_key effect)))
      | Some (Err other) =>
          Ret (Err (Permanent (EffectStoreError_to_string other) index (effect_key effect)))
      end
  end.
Definition accept_into_store (effect : AcceptedEffect) (index : nat) : prog accepted :=
  accept_loop (S (Z.to_nat (max_attempts accept_retry))) 0 effect index.

Definition send_to_queue (effect : AcceptedEffect) (index : nat) : prog accepted :=
  let! r := exec (QSend effect) in
  match r with
  | Sent => Ret (Ok ())
  | SendClosed => Ret (Err (Permanent "effect queue closed" index (effect_key effect)))
  | SendDeadline => Ret (Err (RetriesExhausted DEADLINE_MSG index (effect_key effect)))
  end.

Definition accept_one (effect : AcceptedEffect) (index : nat) : prog accepted :=
  let! stored := accept_into_store effect index in
  match stored with
  | Err e => Ret (Err e)
  | Ok _ =>
      match runner_mode with
      | Deferred => send_to_queue effect index
      | Inline =>
          exec QLock;;
          let! sent := send_to_queue effect index in
          match sent with
          | Err e => Ret (Err e)
          | Ok _ => let! dispatched := exec QRecv in exec (QDrain dispatched);; Ret (Ok ())
          end
      end
  end.

(** [for (index, description) in effects.into_iter().enumerate()] *)
Fixpoint accept_batch (tenant : TenantId) (effects : list ExternalEffectDescription)
    (index : nat) : prog accepted :=
  match effects with
  | [] => Ret (Ok ())
  | description :: effects =>
      let! id := exec QMint in
      let! r := accept_one (mk_accepted id tenant 0 description) index in
      match r with
      | Err e => Ret (Err e)
      | Ok _ => accept_batch tenant effects (S index)
      end
  end.

Definition acceptor_accept (tenant : TenantId) (effects : list ExternalEffectDescription) :
    prog accepted :=
  let! entered := exec QEnter in
  match entered with
  | Err _ =>
      Ret (Err (Permanent SHUTDOWN_REJECTED_MSG 0
        (match effects with
         | d :: _ => description_idempotency_key d
         | [] => mk_id "shutdown-rejected-empty-batch"
         end)))
  | Ok _ =>
      let! r := accept_batch tenant effects 0 in
      exec QLeave;; Ret r
  end.
End acceptor.

(** ** What an acceptance learns *)
Record intake := mk_intake {
  g_open : bool;                      (* the guard is held *)
  g_stored : list AcceptedEffect;     (* confirmed by the store *)
  g_sent : list AcceptedEffect;       (* on the queue *)
}.
Definition intake0 : intake := mk_intake false [] [].

Definition error_index (e : EffectAcceptanceError) : nat :=
  match e with RetriesExhausted _ i _ | Permanent _ i _ => i end.
Definition error_key (e : EffectAcceptanceError) : IdempotencyKey :=
  match e with RetriesExhausted _ _ k | Permanent _ _ k => k end.

(** The store and the queue are touched only under the guard, an effect is stored
    before it is queued and queued before the next one is stored, and every
    stored effect carries the caller's tenant and no charged attempt. *)
Definition intake_allowed (tenant : TenantId) (g : intake) B (c : acmd B) : Prop :=
  match c with
  | QEnter => g = intake0
  | QAccept e =>
      g_open g = true ∧ g_stored g = g_sent g ∧
      accepted_tenant e = tenant ∧ accepted_attempt e = 0%Z
  | QSend e => g_open g = true ∧ g_stored g = g_sent g ++ [e]
  | _ => g_open g = true
  end.

Definition intake_observe (g : intake) B (c : acmd B) : B → intake :=
  match c in acmd B return B → intake with
  | QEnter => λ r, mk_intake (is_ok r) (g_stored g) (g_sent g)
  | QLeave => λ _, mk_intake false (g_stored g) (g_sent g)
  | QAccept e => λ r,
      match r with
      | Some (Ok _) => mk_intake (g_open g) (g_stored g ++ [e]) (g_sent g)
      | _ => g
      end
  | QSend e => λ r,
      match r with
      | Sent => mk_intake (g_open g) (g_stored g) (g_sent g ++ [e])
      | _ => g
      end
  | QMint => λ _, g
  | QDraw => λ _, g
  | QSleep _ => λ _, g
  | QLock => λ _, g
  | QRecv => λ _, g
  | QDrain _ => λ _, g
  end.

Definition any_answer (B : Type) (c : acmd B) (b : B) : Prop := True.

(** What a finished acceptance of [effects] left behind. *)
Definition accepted_prefix (effects : list ExternalEffectDescription)
    (r : result EffectAcceptanceError unit) (g : intake) : Prop :=
  match r with
  | Ok _ => accepted_description <$> g_sent g = effects ∧ g_stored g = g_sent g
  | Err e =>
      ∃ d, effects !! error_index e = Some d ∧ error_key e = description_idempotency_key d ∧
        accepted_description <$> g_sent g = take (error_index e) effects ∧
        (g_stored g = g_sent g ∨
         ∃ x, accepted_description x = d ∧ g_stored g = g_sent g ++ [x])
  end.

Section logic.
Context `{SU : !ShowUuid} (accept_retry : RetryPolicy) (runner_mode : RunnerMode)
  (mul_f64 : Z → Z → Z) (tenant : TenantId).
Abbreviation wp := (wp (intake_allowed tenant) intake_observe any_answer).

(** The fuel of [accept_into_store] is never used up. *)
Lemma accept_fuel_enough n m attempt e i :
  (max_attempts accept_retry - attempt < Z.of_nat n)%Z →
  (max_attempts accept_retry - attempt < Z.of_nat m)%Z →
  (attempt ≤ max_attempts accept_retry)%Z →
  prog_equiv (accept_loop accept_retry mul_f64 n attempt e i)
    (accept_loop accept_retry mul_f64 m attempt e i).
Proof.
  revert m attempt. induction n as [|n IH]; intros m attempt Hn Hm Hle; [lia|].
  destruct m as [|m]; [lia|]. apply prog_equiv_bind. intros [[[]|[]]|]; try constructor.
  destruct (allows_retry accept_retry attempt) eqn:Hal; [|constructor].
  unfold allows_retry in Hal. apply bool_decide_eq_true in Hal.
  apply prog_equiv_bind. intros z. cbv zeta. case_decide; [apply IH; lia|].
  apply prog_equiv_bind. intros []; [apply IH; lia|constructor].
Qed.

Lemma wp_accept_loop fuel attempt e i g (Q : result EffectAcceptanceError unit → intake → Prop) :
  g_open g = true → g_stored g = g_sent g → accepted_tenant e = tenant → accepted_attempt e = 0%Z →
  Q (Ok ()) (mk_intake true (g_stored g ++ [e]) (g_sent g)) →
  (∀ err, error_index err = i → error_key err = effect_key e → Q (Err err) g) →
  wp (accept_loop accept_retry mul_f64 fuel attempt e i) g Q.
Proof.
  intros Ho Hs Ht Ha Hok Herr. revert attempt.
  induction fuel as [|fuel IH]; intros attempt; [by apply Herr|].
  wp_cmd. intros r _. destruct r as [[[]|err]|]; simpl.
  - by rewrite Ho.
  - destruct err; try (by apply Herr). destruct (negb _); [by apply Herr|].
    split; [done|]. intros n _. simpl. case_decide; [apply IH|].
    split; [done|]. intros [] _; simpl; [apply IH|by apply Herr].
  - by apply Herr.
Qed.

Lemma wp_send_to_queue e i g (Q : result EffectAcceptanceError unit → intake → Prop) :
  g_open g = true → g_stored g = g_sent g ++ [e] →
  Q (Ok ()) (mk_intake true (g_stored g) (g_sent g ++ [e])) →
  (∀ err, error_index err = i → error_key err = effect_key e → Q (Err err) g) →
  wp (send_to_queue e i) g Q.
Proof.
  intros Ho Hs Hok Herr. wp_cmd. intros [| |] _; simpl; [by rewrite Ho|by apply Herr..].
Qed.

Lemma wp_accept_one e i g (Q : result EffectAcceptanceError unit → intake → Prop) :
  g_open g = true → g_stored g = g_sent g → accepted_tenant e = tenant → accepted_attempt e = 0%Z →
  Q (Ok ()) (mk_intake true (g_stored g ++ [e]) (g_sent g ++ [e])) →
  (∀ err g', error_index err = i → error_key err = effect_key e → g_open g' = true →
     g_sent g' = g_sent g → g_stored g' = g_sent g ∨ g_stored g' = g_sent g ++ [e] →
     Q (Err err) g') →
  wp (accept_one accept_retry runner_mode mul_f64 e i) g Q.
Proof.
  intros Ho Hs Ht Ha Hok Herr. apply wp_bind, wp_accept_loop; try done; [|by intros; apply Herr; auto].
  destruct runner_mode.
  - apply wp_send_to_queue; simpl; [done|by rewrite Hs|done|].
    intros err Hi Hk. apply Herr; simpl; auto. right. by rewrite Hs.
  - wp_cmd. intros [] _. apply wp_bind, wp_send_to_queue; simpl; [done|by rewrite Hs| |].
    + split; [done|]. intros d _. split; [done|]. intros [] _. exact Hok.
    + intros err Hi Hk. apply Herr; simpl; auto. right. by rewrite Hs.
Qed.

Lemma wp_accept_batch prefix effects g :
  g_open g = true → g_stored g = g_sent g → accepted_description <$> g_sent g = prefix →
  wp (accept_batch accept_retry runner_mode mul_f64 tenant effects (length prefix)) g
    (λ r g', g_open g' = true ∧ accepted_prefix (prefix ++ effects) r g').
Proof.
  revert prefix g. induction effects as [|d effects IH]; intros prefix g Ho Hs Hp.
  { split; [done|]. by rewrite app_nil_r. }
  wp_cmd. intros id _. apply wp_bind, wp_accept_one; simpl; try done.
  - specialize (IH (prefix ++ [d])
      (mk_intake true (g_stored g ++ [mk_accepted id tenant 0 d])
         (g_sent g ++ [mk_accepted id tenant 0 d]))).
    rewrite length_app, Nat.add_1_r, <-app_assoc in IH. apply IH; simpl; [done|by rewrite Hs|].
    by rewrite fmap_app, Hp.
  - intros err g' Hi Hk Ho' Hse Hst. split; [done|]. exists d. rewrite Hi.
    split_and!; [by rewrite list_lookup_middle|done|by rewrite Hse, Hp, take_app_length|].
    rewrite Hse. destruct Hst as [Hst|Hst]; rewrite Hst; [by left|right]. exists (mk_accepted id tenant 0 d). done.
Qed.
End logic.

(** ** Shutdown *)
Definition phase_deadline (ph : shutdown_phase) : option Z :=
  match ph with
  | NotStarted => None
  | Published d | Waiting d | Stopping d | Signalled d | Finished d => Some d
  end.
Definition admission_closed (ph : shutdown_phase) : bool :=
  match ph with NotStarted | Published _ => false | _ => true end.
Definition wait_returned (ph : shutdown_phase) : bool :=
  match ph with NotStarted | Published _ | Waiting _ => false | _ => true end.

Record shutdown_ok (s : shutdown_system) : Prop := mk_shutdown_ok {
  ok_count : in_flight (gate s) = Z.of_nat (guards s);
  ok_signal : deadline_signal s = phase_deadline (sphase s);
  ok_gate : match sphase s with
            | NotStarted | Published _ => gate_state (gate s) = Running
            | Waiting d | Stopping d | Signalled d => gate_state (gate s) = Draining d
            | Finished _ => gate_state (gate s) = Closed
            end;
  ok_waited : wait_returned (sphase s) = true →
    guards s = 0 ∨ ∃ d, phase_deadline (sphase s) = Some d ∧ (d ≤ clock s)%Z;
  ok_stop : stop_signal s = true → wait_returned (sphase s) = true;
}.

(** Admission happens only while the gate runs. *)
Lemma enter_Ok g g' : enter g = (Ok (), g') → gate_state g = Running ∧ g' = mk_gate Running (in_flight g + 1).
Proof. unfold enter. destruct (gate_state g); naive_solver. Qed.

Lemma shutdown_ok_step s s' : shutdown_step s s' → shutdown_ok s → shutdown_ok s'.
Proof.
  intros Hs [Hc Hd Hg Hw Hst]. destruct Hs; simpl in *.
  - split; simpl; auto. intros H1. destruct (Hw H1) as [?|(d & ? & ?)]; [by left|right].
    exists d. split; [done|lia].
  - apply enter_Ok in H as [Hrun ->]. split; simpl; auto; [lia| |].
    + destruct ph; congruence.
    + destruct ph; simpl in *; intros; congruence.
  - split; simpl; auto; [lia|]. intros H1. destruct (Hw H1) as [?|?]; [lia|by right].
  - by split; simpl; auto.
  - by split; simpl; auto.
  - split; simpl; auto. intros _. destruct H as [Hno|d Hgd Hz|d Hgd Hle].
    + by destruct (Hno deadline).
    + left. lia.
    + right. rewrite Hg in Hgd. simplify_eq. eauto.
  - split; simpl; auto.
  - split; simpl; auto.
Qed.

Lemma shutdown_reachable_ok now s : rtc shutdown_step (shutdown_initial now) s → shutdown_ok s.
Proof.
  intros Hr. assert (shutdown_ok (shutdown_initial now)) as H0 by (by split).
  induction Hr; eauto using shutdown_ok_step.
Qed.

(** ** Properties *)

(** Shutdown stops the runner only behind the acceptances it admitted: in every
    reachable state the gate's counter is the number of live guards, so it never
    underflows; once admission is closed no call is admitted any more; and when
    the runner has been told to stop, no admitted acceptance is left or the
    deadline they race against has passed. *)
Lemma shutdown_waits_for_admitted now s :
  rtc shutdown_step (shutdown_initial now) s →
  in_flight (gate s) = Z.of_nat (guards s) ∧
  (admission_closed (sphase s) = true → enter (gate s) = (Err (), gate s)) ∧
  (stop_signal s = true →
   guards s = 0 ∨ ∃ d, deadline_signal s = Some d ∧ (d ≤ clock s)%Z).
Proof.
  intros [Hc Hd Hg Hw Hst]%shutdown_reachable_ok. split_and!; [done| |].
  - intros Hcl. unfold enter. by destruct (sphase s); simpl in *; rewrite ?Hg.
  - intros Hstop. rewrite Hd. auto.
Qed.

(** Accepting a batch takes a prefix of it: whatever the store, the queue, the
    clock and the shutdown deadline do, an acceptance returns with its guard
    released; on success every effect was stored, then queued, in order; on
    failure it names the first effect that was not queued by index and key,
    exactly the effects before it were stored and queued, and nothing after it
    was touched; a call refused by the gate touched nothing.  Every effect is
    stored with the caller's tenant and queued before the next one is stored. *)
Lemma acceptance_is_a_prefix `{SU : !ShowUuid} accept_retry runner_mode mul_f64 tenant effects :
  wp (intake_allowed tenant) intake_observe any_answer
    (acceptor_accept accept_retry runner_mode mul_f64 tenant effects) intake0
    (λ r g, g_open g = false ∧
       (accepted_prefix effects r g ∨
        g_stored g = [] ∧ g_sent g = [] ∧
        ∃ key, r = Err (Permanent SHUTDOWN_REJECTED_MSG 0 key))).
Proof.
  wp_cmd. intros [[]|[]] _; simpl; [|split; [done|]; right; eauto].
  apply wp_bind. eapply wp_mono; [|by apply (wp_accept_batch accept_retry runner_mode mul_f64 tenant [])].
  intros r g [Ho Hr]. split; [done|]. intros [] _. split; [done|]. left. exact Hr.
Qed.

(** The documentation of [failed_at_index] calls it the number of effects already
    durably accepted; when the queue is what failed there is one more. *)
Lemma queue_failure_hides_acceptance `{SU : !ShowUuid} accept_retry mul_f64 tenant d :
  may intake_observe any_answer
    (acceptor_accept accept_retry Deferred mul_f64 tenant [d]) intake0
    (λ r g, ∃ e, r = Err e ∧ error_index e = 0 ∧ length (g_stored g) = 1).
Proof.
  exists (Ok ()). split; [done|]. exists (mk_effect_id 1). split; [done|].
  exists (Some (Ok ())). split; [done|]. exists SendDeadline. split; [done|].
  exists (). split; [done|]. simpl. eauto.
Qed.

(** ** Witnesses *)
Lemma shutdown_waits_for_admitted_witness :
  let s := mk_shutdown (mk_gate (Draining 5) 0) 0 0 (Some 5%Z) true (Signalled 5) in
  enter (gate s) = (Err (), gate s) ∧ guards s = 0.
Proof.
  intros s. split; [|done].
  apply (proj1 (proj2 (shutdown_waits_for_admitted 0 s ltac:(
    eapply rtc_l; [by apply (step_publish _ _ _ _ _ 5)|];
    eapply rtc_l; [by apply step_close_admission|];
    eapply rtc_l; [by eapply step_waited, returns_drained|];
    eapply rtc_l; [by apply step_signal|]; apply rtc_refl)))).
  reflexivity.
Defined.
