(* ===== verification/Runner.v ===== *)
(** * The delivery runner

    One dispatch of an accepted effect (crates/runtime, effects/runner.rs) as a
    program over the two store ports, the executor, the clock and the jitter
    source.  A program is a tree of commands: what each command answers, and what
    other tasks do in between, is up to whoever runs it, so the theorems about a
    program hold for every store, durable or not, failing or not.  Logging is
    left out. *)

From S2P Require Import Prelude Programs Identity Effect EffectStore RetryPolicy.

(** ** Attempts *)
Inductive AttemptOutcome :=
| Success
| RetryableFailure (msg : string)
| TerminalFailure (msg : string).

(** How a spawned executor task ends: [Result<AttemptOutcome, JoinError>]. *)
Inductive JoinResult :=
| Joined (outcome : AttemptOutcome)
| Panicked
| Cancelled.

Inductive ExecutionOutcome :=
| Outcome (outcome : AttemptOutcome)
| CancelledForShutdown.

Definition classify_join_result (r : JoinResult) : ExecutionOutcome :=
  match r with
  | Joined outcome => Outcome outcome
  | Panicked => Outcome (RetryableFailure "executor panicked")
  | Cancelled => CancelledForShutdown
  end.

Record EffectContext := mk_effect_context {
  ctx_effect_id : EffectId;
  ctx_tenant : TenantId;
  ctx_attempt : Z;
  ctx_idempotency_key : IdempotencyKey;
}.

(** ** Programs *)
Section runner.
Context {X : Type}.

Inductive cmd : Type → Type :=
| KInFlight (id : EffectId) : cmd (result EffectStoreError unit)
| KSucceeded (id : EffectId) : cmd (result EffectStoreError unit)
| KRetryable (id : EffectId) (attempt : Z) (next_at : Timestamp) : cmd (result EffectStoreError unit)
| KTerminal (id : EffectId) (reason : TerminalReason) : cmd (result EffectStoreError unit)
| KReserve (scope : DedupScope) (id : EffectId) (fp : EffectFingerprint) :
    cmd (result EffectStoreError DedupOutcome)
| KCommit (scope : DedupScope) : cmd (result EffectStoreError unit)
| KRelease (scope : DedupScope) : cmd (result EffectStoreError unit)
| KExecute (executor : X) (description : ExternalEffectDescription) (ctx : EffectContext) :
    cmd JoinResult
| KNow : cmd Timestamp
| KDraw : cmd Z.

End runner.
Arguments cmd : clear implicits.

(** What a [DeliveryRunner] holds besides the ports. *)
Record RunnerConfig (X : Type) := mk_runner {
  retry : RetryPolicies;
  registry : gmap string X;
  sha256 : list Byte.byte → list Byte.byte;
  mul_f64 : Z → Z → Z;
}.
Arguments retry {X} _.
Arguments registry {X} _.
Arguments sha256 {X} _ _.
Arguments mul_f64 {X} _ _ _.

Definition BOOKKEEPING_RETRY_ATTEMPTS : nat := 3.

Definition effect_scope (effect : AcceptedEffect) : DedupScope :=
  mk_scope (accepted_tenant effect) (description_effect_type (accepted_description effect))
    (description_idempotency_key (accepted_description effect)).

Section methods.
Context {X : Type} (self : RunnerConfig X).
Abbreviation prog := (prog (cmd X)).

(** [policy.backoff(n)], drawing the jitter. *)
Definition draw_backoff (policy : RetryPolicy) (attempt : Z) : prog Z :=
  let! n := exec KDraw in Ret (backoff (mul_f64 self) policy attempt n).

(** The three bounded loops retry only [TemporarilyUnavailable]. *)
Fixpoint mark_in_flight_loop (tries : nat) (id : EffectId) : prog (result unit unit) :=
  match tries with
  | O => Ret (Err ())
  | S tries =>
      let! r := exec (KInFlight id) in
      match r with
      | Ok _ => Ret (Ok ())
      | Err (TemporarilyUnavailable _) => mark_in_flight_loop tries id
      | Err _ => Ret (Err ())
      end
  end.
Definition mark_in_flight_with_retry (id : EffectId) : prog (result unit unit) :=
  mark_in_flight_loop BOOKKEEPING_RETRY_ATTEMPTS id.

Fixpoint mark_retryable_loop (tries : nat) (id : EffectId) (attempt : Z) (next_at : Timestamp) :
    prog (result unit unit) :=
  match tries with
  | O => Ret (Err ())
  | S tries =>
      let! r := exec (KRetryable id attempt next_at) in
      match r with
      | Ok _ => Ret (Ok ())
      | Err (TemporarilyUnavailable _) => mark_retryable_loop tries id attempt next_at
      | Err _ => Ret (Err ())
      end
  end.
Definition mark_retryable_with_retry (id : EffectId) (attempt : Z) (next_at : Timestamp) :
    prog (result unit unit) :=
  mark_retryable_loop BOOKKEEPING_RETRY_ATTEMPTS id attempt next_at.

(** [fuel] bounds the loop; [reserve_with_retry] gives it one more than the
    retries the policy allows, which [reserve_fuel_enough] shows is never used up. *)
Fixpoint reserve_loop (fuel : nat) (policy : RetryPolicy) (attempt : Z)
    (scope : DedupScope) (effect_id : EffectId) (fingerprint : EffectFingerprint) :
    prog (result unit DedupOutcome) :=
  match fuel with
  | O => Ret (Err ())
  | S fuel =>
      let! r := exec (KReserve scope effect_id fingerprint) in
      match r with
      | Ok outcome => Ret (Ok outcome)
      | Err (TemporarilyUnavailable _) =>
          if allows_retry policy attempt
          then draw_backoff policy (attempt + 1);;
               reserve_loop fuel policy (attempt + 1) scope effect_id fingerprint
          else Ret (Err ())
      | Err _ => Ret (Err ())
      end
  end.
Definition reserve_with_retry (scope : DedupScope) (effect_id : EffectId)
    (fingerprint : EffectFingerprint) : prog (result unit DedupOutcome) :=
  let policy := policy_for (retry self) (scope_effect_type scope) in
  reserve_loop (S (Z.to_nat (max_attempts policy))) policy 0 scope effect_id fingerprint.

Definition abandon (id : EffectId) (reason : TerminalReason) : prog unit :=
  exec (KTerminal id reason);; Ret ().

Definition abandon_and_release (id : EffectId) (reason : TerminalReason) (scope : DedupScope) :
    prog unit :=
  let! r := exec (KTerminal id reason) in
  match r with
  | Ok _ => exec (KRelease scope);; Ret ()
  | Err _ => Ret ()
  end.

Definition finish_already_satisfied (id : EffectId) : prog unit :=
  exec (KSucceeded id);; Ret ().

(** [commit_success(..).is_ok() && mark_succeeded(..).is_ok()], a bounded number of times. *)
Fixpoint confirm_loop (tries : nat) (id : EffectId) (scope : DedupScope) : prog bool :=
  match tries with
  | O => Ret false
  | S tries =>
      let! c := exec (KCommit scope) in
      if is_ok c then
        let! s := exec (KSucceeded id) in
        if is_ok s then Ret true else confirm_loop tries id scope
      else confirm_loop tries id scope
  end.

Definition finish_success (effect : AcceptedEffect) (scope : DedupScope) : prog unit :=
  let! confirmed := confirm_loop BOOKKEEPING_RETRY_ATTEMPTS (accepted_id effect) scope in
  if confirmed : bool then Ret () else
  let next_attempt := (accepted_attempt effect + 1)%Z in
  let policy := policy_for (retry self) (scope_effect_type scope) in
  let! backoff := draw_backoff policy (Z.max next_attempt 1) in
  let! now := exec KNow in
  mark_retryable_with_retry (accepted_id effect) next_attempt (timestamp_after now backoff);;
  Ret ().

Definition retry_or_give_up (effect : AcceptedEffect) (scope : DedupScope) : prog unit :=
  let policy := policy_for (retry self) (scope_effect_type scope) in
  if negb (allows_retry policy (accepted_attempt effect)) then
    abandon_and_release (accepted_id effect) (Other "attempt cap exceeded") scope
  else
    let dispatched_attempt := (accepted_attempt effect + 1)%Z in
    let! backoff := draw_backoff policy dispatched_attempt in
    let! now := exec KNow in
    let! r := mark_retryable_with_retry (accepted_id effect) dispatched_attempt
                (timestamp_after now backoff) in
    match r with
    | Ok _ => Ret ()
    | Err _ =>
        abandon_and_release (accepted_id effect)
          (Other "retry bookkeeping exhausted: store unavailable") scope
    end.

Definition requeue_without_charging_attempt (effect : AcceptedEffect) : prog unit :=
  let! now := exec KNow in
  mark_retryable_with_retry (accepted_id effect) (accepted_attempt effect) now;;
  Ret ().

(** The part of [dispatch_in_flight] after the reservation was granted. *)
Definition run_attempt (effect : AcceptedEffect) (scope : DedupScope) : prog unit :=
  match registry_get (description_effect_type (accepted_description effect)) (registry self) with
  | None => abandon_and_release (accepted_id effect) ExecutorMissing scope
  | Some executor =>
      let ctx := mk_effect_context (accepted_id effect) (accepted_tenant effect)
                   (accepted_attempt effect + 1)
                   (description_idempotency_key (accepted_description effect)) in
      let! joined := exec (KExecute executor (accepted_description effect) ctx) in
      match classify_join_result joined with
      | Outcome Success => finish_success effect scope
      | Outcome (RetryableFailure _) => retry_or_give_up effect scope
      | Outcome (TerminalFailure reason) =>
          abandon_and_release (accepted_id effect) (Other reason) scope
      | CancelledForShutdown => requeue_without_charging_attempt effect
      end
  end.

Definition dispatch_in_flight (effect : AcceptedEffect) : prog unit :=
  let scope := effect_scope effect in
  let fingerprint := fingerprint_compute (sha256 self)
    (description_payload (accepted_description effect))
    (description_destination (accepted_description effect)) in
  let! reserved := reserve_with_retry scope (accepted_id effect) fingerprint in
  match reserved with
  | Ok Fresh | Ok OwnedInProgress => run_attempt effect scope
  | Ok OtherSucceeded | Ok OwnedSucceeded => finish_already_satisfied (accepted_id effect)
  | Ok OtherInProgress => requeue_without_charging_attempt effect
  | Ok DedupConflict => abandon (accepted_id effect) (InvalidEffect "dedup scope conflict")
  | Err _ => abandon (accepted_id effect) (Other "dedup store unavailable")
  end.

(** A freshly accepted effect; one the reclaim loop already marked in flight. *)
Definition drain_one (effect : AcceptedEffect) : prog unit :=
  let! r := mark_in_flight_with_retry (accepted_id effect) in
  match r with
  | Ok _ => dispatch_in_flight effect
  | Err _ => Ret ()
  end.
Definition drain_reclaimed (effect : AcceptedEffect) : prog unit := dispatch_in_flight effect.
End methods.

(** ** Reasoning about programs *)

(** More fuel than the retries left changes nothing: the bound of
    [reserve_with_retry] never cuts the loop short. *)
Lemma reserve_fuel_enough {X} (self : RunnerConfig X) pol scope id fp n m attempt :
  (max_attempts pol - attempt < Z.of_nat n)%Z → (max_attempts pol - attempt < Z.of_nat m)%Z →
  (attempt ≤ max_attempts pol)%Z →
  prog_equiv (reserve_loop self n pol attempt scope id fp)
    (reserve_loop self m pol attempt scope id fp).
Proof.
  revert m attempt. induction n as [|n IH]; intros m attempt Hn Hm Hle; [lia|].
  destruct m as [|m]; [lia|]. apply prog_equiv_bind. intros [o|[]]; try constructor.
  destruct (allows_retry pol attempt) eqn:Hal; [|constructor].
  unfold allows_retry in Hal. apply bool_decide_eq_true in Hal.
  apply prog_equiv_bind. intros _. apply IH; lia.
Qed.

Section logic.
Context {X : Type}.

(** What one dispatch has learned so far. *)
Record monitor := mk_monitor {
  m_in_flight : bool;   (* the effect is in flight on behalf of this dispatch *)
  m_reserved : bool;    (* the scope was granted to this effect *)
  m_executed : bool;    (* the executor was called *)
  m_delivered : bool;   (* the executor reported success *)
  m_committed : bool;   (* a success commit was confirmed *)
  m_satisfied : bool;   (* the scope was already delivered *)
  m_terminal : bool;    (* the terminal mark was confirmed *)
  m_settled : bool;     (* a final bookkeeping write was confirmed *)
}.
(** A dispatch that has yet to claim its effect; one the reclaim loop claimed. *)
Definition monitor0 : monitor := mk_monitor false false false false false false false false.
Definition monitor_claimed : monitor := mk_monitor true false false false false false false false.

Context (effect : AcceptedEffect) (policy : RetryPolicy) (fp : EffectFingerprint).

(** The rules of a dispatch of [effect] under [policy]: every command names this
    effect or its scope, and
    - nothing happens before the effect is in flight, and nothing after a confirmed
      final write but the release that follows a terminal mark;
    - the executor is called at most once, only with the reservation granted, with
      the effect's own content and the next attempt number;
    - success is committed only after the executor reported it, and recorded only
      after that commit or for a scope that was already delivered;
    - an attempt is charged only below the attempt cap or after a delivery;
    - a delivered effect is never marked terminal, and a reservation is released
      only after the terminal mark was confirmed. *)
Definition allowed (m : monitor) B (c : cmd X B) : Prop :=
  match c with
  | KInFlight id => id = accepted_id effect ∧ m = monitor0
  | KSucceeded id =>
      id = accepted_id effect ∧ m_in_flight m = true ∧ m_settled m = false ∧
      (m_satisfied m = true ∨ m_committed m = true ∧ m_delivered m = true)
  | KRetryable id attempt _ =>
      id = accepted_id effect ∧ m_in_flight m = true ∧ m_settled m = false ∧
      (attempt = accepted_attempt effect ∧ m_delivered m = false ∨
       attempt = (accepted_attempt effect + 1)%Z ∧
       (allows_retry policy (accepted_attempt effect) = true ∨ m_delivered m = true))
  | KTerminal id _ =>
      id = accepted_id effect ∧ m_in_flight m = true ∧ m_settled m = false ∧
      m_delivered m = false ∧ m_satisfied m = false
  | KReserve scope id fp' =>
      scope = effect_scope effect ∧ id = accepted_id effect ∧ fp' = fp ∧
      m_in_flight m = true ∧ m_settled m = false ∧
      m_reserved m = false ∧ m_executed m = false ∧ m_delivered m = false
  | KCommit scope =>
      scope = effect_scope effect ∧ m_in_flight m = true ∧ m_settled m = false ∧
      m_reserved m = true ∧ m_delivered m = true
  | KRelease scope =>
      scope = effect_scope effect ∧ m_in_flight m = true ∧ m_terminal m = true ∧
      m_reserved m = true ∧ m_delivered m = false
  | KExecute _ description ctx =>
      m_in_flight m = true ∧ m_settled m = false ∧ m_reserved m = true ∧
      m_executed m = false ∧ m_delivered m = false ∧
      description = accepted_description effect ∧
      ctx_effect_id ctx = accepted_id effect ∧ ctx_tenant ctx = accepted_tenant effect ∧
      ctx_attempt ctx = (accepted_attempt effect + 1)%Z
  | KNow | KDraw => True
  end.

Definition learn_reserved (m : monitor) (r : result EffectStoreError DedupOutcome) : monitor :=
  match r with
  | Ok Fresh | Ok OwnedInProgress =>
      mk_monitor (m_in_flight m) true (m_executed m) (m_delivered m) (m_committed m)
        (m_satisfied m) (m_terminal m) (m_settled m)
  | Ok OwnedSucceeded | Ok OtherSucceeded =>
      mk_monitor (m_in_flight m) (m_reserved m) (m_executed m) (m_delivered m) (m_committed m)
        true (m_terminal m) (m_settled m)
  | _ => m
  end.

Definition observe (m : monitor) B (c : cmd X B) : B → monitor :=
  match c in cmd _ B return B → monitor with
  | KInFlight _ => λ r, if is_ok r then monitor_claimed else m
  | KSucceeded _ | KRetryable _ _ _ => λ r,
      mk_monitor (m_in_flight m) (m_reserved m) (m_executed m) (m_delivered m) (m_committed m)
        (m_satisfied m) (m_terminal m) (m_settled m || is_ok r)
  | KTerminal _ _ => λ r,
      mk_monitor (m_in_flight m) (m_reserved m) (m_executed m) (m_delivered m) (m_committed m)
        (m_satisfied m) (m_terminal m || is_ok r) (m_settled m || is_ok r)
  | KReserve _ _ _ => learn_reserved m
  | KCommit _ => λ r,
      mk_monitor (m_in_flight m) (m_reserved m) (m_executed m) (m_delivered m)
        (m_committed m || is_ok r) (m_satisfied m) (m_terminal m) (m_settled m)
  | KExecute _ _ _ => λ r,
      mk_monitor (m_in_flight m) (m_reserved m) true
        (match r with Joined Success => true | _ => m_delivered m end) (m_committed m)
        (m_satisfied m) (m_terminal m) (m_settled m)
  | KRelease _ => λ r,
      mk_monitor (m_in_flight m) (m_reserved m && negb (is_ok r)) (m_executed m)
        (m_delivered m) (m_committed m) (m_satisfied m) (m_terminal m) (m_settled m)
  | KNow | KDraw => λ _, m
  end.

End logic.
Arguments monitor0 : simpl never.
Arguments monitor_claimed : simpl never.

(** Answers a store that is up and holds the effect gives to the bookkeeping
    writes of a dispatch: they succeed. *)
Definition any_answer {X} (B : Type) (c : cmd X B) (b : B) : Prop := True.
Definition bookkeeping_up {X} (B : Type) (c : cmd X B) : B → Prop :=
  match c in cmd _ B return B → Prop with
  | KSucceeded _ | KRetryable _ _ _ | KTerminal _ _ | KCommit _ => λ r, is_ok r = true
  | _ => λ _, True
  end.

(** The policy and the fingerprint a dispatch of [effect] uses. *)
Definition effect_policy {X} (self : RunnerConfig X) (effect : AcceptedEffect) : RetryPolicy :=
  policy_for (retry self) (description_effect_type (accepted_description effect)).
Definition content_fingerprint {X} (self : RunnerConfig X)
    (d : ExternalEffectDescription) : EffectFingerprint :=
  fingerprint_compute (sha256 self) (description_payload d) (description_destination d).
Definition obeys {X} (self : RunnerConfig X) (effect : AcceptedEffect)
    (answers : ∀ B, cmd X B → B → Prop) {A} :
    prog (cmd X) A → monitor → (A → monitor → Prop) → Prop :=
  wp (allowed effect (effect_policy self effect)
        (content_fingerprint self (accepted_description effect))) observe answers.

Section dispatch.
Context {X : Type} (self : RunnerConfig X) (effect : AcceptedEffect).
Context (answers : ∀ B, cmd X B → B → Prop).
Abbreviation wp := (wp (allowed effect (effect_policy self effect)
  (content_fingerprint self (accepted_description effect))) observe answers).

(** Where a dispatch stands between two commands: in flight and unsettled;
    with the scope granted and nothing delivered; after the delivery. *)
Definition open (m : monitor) : Prop := m_in_flight m = true ∧ m_settled m = false.
Definition attempting (m : monitor) : Prop :=
  open m ∧ m_reserved m = true ∧ m_delivered m = false ∧ m_satisfied m = false.
Definition delivered (m : monitor) : Prop :=
  open m ∧ m_reserved m = true ∧ m_delivered m = true.

(** Where a dispatch may stop: nothing to require, or a confirmed final write. *)
Definition store_up : Prop := ∀ B (c : cmd X B) b, answers B c b → bookkeeping_up B c b.
Definition settles (m : monitor) : Prop := store_up → m_settled m = true.

Lemma wp_draw p a m (Q : Z → monitor → Prop) :
  (∀ z, Q z m) → wp (draw_backoff self p a) m Q.
Proof. intros HQ. wp_cmd. intros b _. apply HQ. Qed.

Lemma wp_abandon id reason m :
  id = accepted_id effect → open m → m_delivered m = false → m_satisfied m = false →
  wp (abandon id reason) m (λ _ m', settles m').
Proof.
  intros -> [Hi Hset] Hd Hs. wp_cmd. intros r Hr Hup. simpl.
  rewrite (Hup _ _ _ Hr). apply orb_true_r.
Qed.

Lemma wp_abandon_and_release id reason m :
  id = accepted_id effect → attempting m →
  wp (abandon_and_release id reason (effect_scope effect)) m (λ _ m', settles m').
Proof.
  intros -> ([Hi Hset] & Hr & Hd & Hs). wp_cmd. intros r Hans. simpl.
  destruct r as [[]|e]; simpl.
  - split; [|intros b Hb Hup; simpl; apply orb_true_r]. split_and!; try done.
    by rewrite orb_true_r.
  - intros Hup. by specialize (Hup _ _ _ Hans).
Qed.

(** A bounded bookkeeping loop: it succeeds, or none of its writes was confirmed
    and the monitor is as before. *)
Lemma wp_mark_retryable tries attempt next_at m (Q : result unit unit → monitor → Prop) :
  allowed effect (effect_policy self effect)
    (content_fingerprint self (accepted_description effect)) m _
    (KRetryable (accepted_id effect) attempt next_at : cmd X _) →
  (∀ m', m_settled m' = true → Q (Ok ()) m') →
  ((store_up → tries = 0) → Q (Err ()) m) →
  wp (mark_retryable_loop tries (accepted_id effect) attempt next_at) m Q.
Proof.
  intros Ha Hok Herr. induction tries as [|tries IH]; [by apply Herr|].
  wp_cmd. intros r Hans.
  destruct r as [[]|e]; [apply Hok; simpl; by rewrite ?orb_true_r|].
  assert (store_up → False) as Hup.
  { intros Hup. by specialize (Hup _ _ _ Hans). }
  assert (observe m _ (KRetryable (accepted_id effect) attempt next_at) (Err e) = m) as ->.
  { simpl. rewrite orb_false_r. by destruct m. }
  destruct e; try (apply Herr; intros H; by destruct Hup).
  apply IH. intros _. apply Herr. intros H. by destruct Hup.
Qed.

Lemma wp_reserve fuel pol a m (Q : result unit DedupOutcome → monitor → Prop) :
  open m → m_executed m = false → m_reserved m = false → m_delivered m = false →
  (∀ o, Q (Ok o) (learn_reserved m (Ok o))) → Q (Err ()) m →
  wp (reserve_loop self fuel pol a (effect_scope effect) (accepted_id effect)
        (content_fingerprint self (accepted_description effect))) m Q.
Proof.
  intros [Hi Hset] He Hr Hd Hok Herr. revert a. induction fuel as [|fuel IH]; intros a; [done|].
  wp_cmd. intros r _.
  destruct r as [o|e]; [apply Hok|]. destruct e; simpl; try done.
  destruct (allows_retry pol a); [|done]. split; [done|]. intros b _. apply IH.
Qed.

Lemma wp_confirm tries m (Q : bool → monitor → Prop) :
  delivered m →
  (∀ m', m_settled m' = true → Q true m') →
  (∀ m', delivered m' → (store_up → tries = 0) → Q false m') →
  wp (confirm_loop tries (accepted_id effect) (effect_scope effect)) m Q.
Proof.
  revert m. induction tries as [|tries IH]; intros m Hd Ht Hf; [by apply Hf|].
  assert (∀ m', delivered m' → (store_up → False) →
    wp (confirm_loop tries (accepted_id effect) (effect_scope effect)) m' Q) as Hagain.
  { intros m' Hd' Hno. apply IH; [done|done|]. intros m'' Hd'' _. apply Hf; [done|].
    intros Hup. by destruct Hno. }
  destruct Hd as ([Hi Hset] & Hr & Hdel).
  wp_cmd. intros c Hc. destruct (is_ok c) eqn:Hok.
  - apply wp_bind, wp_exec.
    { simpl. split_and!; [done..|]. right. by rewrite Hok, orb_true_r. }
    intros s Hs. destruct (is_ok s) eqn:Hoks.
    + apply Ht. simpl. by rewrite Hoks, orb_true_r.
    + apply Hagain; [by repeat split; simpl; rewrite ?Hset, ?Hoks|].
      intros Hup. specialize (Hup _ _ _ Hs). simpl in Hup. congruence.
  - apply Hagain; [by repeat split|]. intros Hup. specialize (Hup _ _ _ Hc). simpl in Hup. congruence.
Qed.

Lemma wp_finish_success m :
  delivered m →
  wp (finish_success self effect (effect_scope effect)) m (λ _ m', settles m').
Proof.
  intros Hd. apply wp_bind, wp_confirm; [done|by intros m' Hm' _|].
  intros m' ([Hi Hset] & Hr & Hdel) Hno. apply wp_bind, wp_draw. intros backoff.
  wp_cmd. intros now _. apply wp_bind, wp_mark_retryable.
  - split_and!; [done..|]. right. auto.
  - by intros m'' Hm'' _.
  - intros _ Hup. by specialize (Hno Hup).
Qed.

Lemma wp_requeue m :
  open m → m_delivered m = false →
  wp (requeue_without_charging_attempt effect) m (λ _ m', settles m').
Proof.
  intros [Hi Hset] Hd. wp_cmd. intros now _.
  apply wp_bind, wp_mark_retryable.
  - split_and!; [done..|]. left. auto.
  - by intros m' Hm' _.
  - intros Hno Hup. by specialize (Hno Hup).
Qed.

Lemma wp_retry_or_give_up m :
  attempting m →
  wp (retry_or_give_up self effect (effect_scope effect)) m (λ _ m', settles m').
Proof.
  intros Hm. unfold retry_or_give_up. cbv zeta.
  change (policy_for (retry self) (scope_effect_type (effect_scope effect)))
    with (effect_policy self effect).
  destruct (allows_retry (effect_policy self effect) (accepted_attempt effect)) eqn:Hal;
    cbn [negb]; [|by apply wp_abandon_and_release].
  apply wp_bind, wp_draw. intros backoff. wp_cmd. intros now _.
  apply wp_bind, wp_mark_retryable.
  - destruct Hm as ([Hi Hset] & _). split_and!; [done..|]. right. auto.
  - by intros m' Hm' _.
  - intros _. by apply wp_abandon_and_release.
Qed.

#[local] Hint Extern 1 (attempting _) => by repeat split : ego.
#[local] Hint Extern 1 (delivered _) => by repeat split : ego.
#[local] Hint Extern 1 (open _) => by repeat split : ego.
#[local] Hint Resolve wp_abandon_and_release wp_finish_success wp_requeue
  wp_retry_or_give_up : ego.

Lemma wp_run_attempt m :
  attempting m → m_executed m = false →
  wp (run_attempt self effect (effect_scope effect)) m (λ _ m', settles m').
Proof.
  intros Hm He. unfold run_attempt. destruct (registry_get _ _) as [x|];
    [|by apply wp_abandon_and_release].
  destruct Hm as ([Hi Hset] & Hr & Hd & Hs). wp_cmd.
  intros joined _. destruct joined as [[|msg|msg]| |]; cbn [classify_join_result];
    auto with ego.
Qed.

Lemma wp_dispatch : wp (dispatch_in_flight self effect) monitor_claimed (λ _ m', settles m').
Proof.
  apply wp_bind, wp_reserve; [done..| |by apply wp_abandon].
  intros [| | | | |]; cbv beta iota.
  - by apply wp_run_attempt.
  - by apply wp_run_attempt.
  - wp_cmd. intros r Hr Hup. simpl.
    by rewrite (Hup _ _ _ Hr).
  - by apply wp_requeue.
  - wp_cmd. intros r Hr Hup. simpl.
    by rewrite (Hup _ _ _ Hr).
  - by apply wp_abandon.
Qed.

Lemma wp_mark_in_flight tries (Q : result unit unit → monitor → Prop) :
  Q (Ok ()) monitor_claimed → Q (Err ()) monitor0 →
  wp (mark_in_flight_loop tries (accepted_id effect)) monitor0 Q.
Proof.
  intros Hok Herr. induction tries as [|tries IH]; [done|].
  wp_cmd. intros [[]|e] _; [done|]. by destruct e.
Qed.

(** A dispatch that gives up before marking the effect in flight settles nothing. *)
Lemma wp_drain_one :
  wp (drain_one self effect) monitor0 (λ _ m', m' = monitor0 ∨ settles m').
Proof.
  apply wp_bind, wp_mark_in_flight; [|by left].
  eapply wp_mono; [|apply wp_dispatch]. by right.
Qed.
End dispatch.

(** ** Properties *)

(** Every dispatch obeys the delivery protocol, for any store and any answers: the
    executor is called at most once and only with the reservation granted, with
    the effect's own content, tenant and next attempt number; success is
    committed only after the executor reported it and recorded only then or for
    an already delivered scope; a retry is charged only below the attempt cap or
    after a delivery; a delivered or already satisfied effect is never marked
    terminal; a reservation is released only after this effect was confirmed
    terminal; after a confirmed final write nothing else is written; nothing but
    this effect and its scope is ever touched. *)
Lemma dispatch_obeys_protocol {X} (self : RunnerConfig X) effect :
  obeys self effect any_answer (drain_one self effect) monitor0 (λ _ _, True) ∧
  obeys self effect any_answer (drain_reclaimed self effect) monitor_claimed (λ _ _, True).
Proof.
  split; [eapply wp_mono, wp_drain_one|eapply wp_mono, wp_dispatch]; done.
Qed.

(** C36: A dispatch settles its effect: when the store accepts the bookkeeping writes,
    whatever the reservation, the executor (success, failure, panic or
    cancellation), the clock and the jitter answer, a dispatch of an in-flight
    effect returns with a confirmed final write, so the effect is left succeeded,
    terminal or retryable and never stranded in flight; a dispatch that claims
    the effect itself settles it or never claimed it. *)
Theorem dispatch_settles {X} (self : RunnerConfig X) effect :
  obeys self effect bookkeeping_up (drain_reclaimed self effect) monitor_claimed
    (λ _ m, m_settled m = true) ∧
  obeys self effect bookkeeping_up (drain_one self effect) monitor0
    (λ _ m, m_in_flight m = false ∨ m_settled m = true).
Proof.
  split; [eapply wp_mono, wp_dispatch|eapply wp_mono, wp_drain_one].
  - intros [] m Hm. by apply Hm; intros B c b.
  - intros [] m [->|Hm]; [by left|right]. by apply Hm; intros B c b.
Qed.
