(* ===== verification/Delivery.v ===== *)
(** * The delivery runtime as a concurrent system

    The drain loop of the runner (crates/runtime, effects/runner.rs: [run_inner],
    [reclaim_due], [acquire_permit_and_spawn]) over the in-memory effect store:
    accepted effects wait in a queue, the loop spawns one task per dequeued or
    reclaimed effect, tasks interleave command by command, store calls fail at
    any point without taking effect, tasks are aborted at any point, and the
    process restarts through [recover_in_flight]. *)

From S2P Require Import Prelude Programs Identity Effect EffectStore RetryPolicy Runner.

Definition RECLAIM_BATCH_LIMIT : nat := 32.

Section delivery.
Context `{SU : !ShowUuid} {X : Type} (self : RunnerConfig X).

(** A spawned task: the effect it dispatches, what is left of its program, and
    what it has learned. *)
Record task := mk_task {
  t_effect : AcceptedEffect;
  t_prog : prog (cmd X) unit;
  t_monitor : monitor;
}.

Record system := mk_system {
  sys_store : InMemoryEffectStore;
  sys_queue : list AcceptedEffect;
  sys_claimed : list StoredEffect;                          (* the reclaim batch under way *)
  sys_tasks : gmap nat task;
  sys_delivered : list (DedupScope * EffectFingerprint);    (* what executors reported done *)
}.

Definition system_new : system := mk_system effect_store_new [] [] ∅ [].

(** ** Answers of the store, the executor and the clock *)
Definition on_states {A} (f : gmap EffectId EffectRecord → A * gmap EffectId EffectRecord)
    (s : InMemoryEffectStore) : A * InMemoryEffectStore :=
  let '(a, sts) := f (states s) in (a, mk_effect_store sts (dedup s)).
Definition on_dedup {A} (f : gmap DedupScope ReservationRecord → A * gmap DedupScope ReservationRecord)
    (s : InMemoryEffectStore) : A * InMemoryEffectStore :=
  let '(a, ded) := f (dedup s) in (a, mk_effect_store (states s) ded).

(** A store call answers what the store computes, or fails without effect. *)
Definition fallible {A} (call : InMemoryEffectStore → result EffectStoreError A * InMemoryEffectStore)
    (s : InMemoryEffectStore) (a : result EffectStoreError A) (s' : InMemoryEffectStore) : Prop :=
  call s = (a, s') ∨ (s' = s ∧ ∃ e, a = Err e).

Definition answer (s : InMemoryEffectStore) {B} (c : cmd X B) : B → InMemoryEffectStore → Prop :=
  match c in cmd _ B return B → InMemoryEffectStore → Prop with
  | KInFlight id => fallible (on_states (mark_in_flight id)) s
  | KSucceeded id => fallible (on_states (mark_succeeded id)) s
  | KRetryable id attempt next_at => fallible (on_states (mark_retryable id attempt next_at)) s
  | KTerminal id reason => fallible (on_states (mark_terminal id reason)) s
  | KReserve scope id fp => fallible (on_dedup (reserve scope id fp)) s
  | KCommit scope => fallible (on_dedup (commit_success scope)) s
  | KRelease scope => fallible (on_dedup (release scope)) s
  | KExecute _ _ _ => λ _ s', s' = s
  | KNow => λ _ s', s' = s
  | KDraw => λ _ s', s' = s
  end.

(** What an executor's success delivers. *)
Definition delivery (t : task) {B} (c : cmd X B) : B → list (DedupScope * EffectFingerprint) :=
  match c in cmd _ B return B → list (DedupScope * EffectFingerprint) with
  | KExecute _ description ctx => λ joined,
      match joined with
      | Joined Success =>
          [(mk_scope (ctx_tenant ctx) (description_effect_type description)
              (description_idempotency_key description),
            content_fingerprint self description)]
      | _ => []
      end
  | _ => λ _, []
  end.

Definition reclaimed (e : StoredEffect) : AcceptedEffect :=
  mk_accepted (stored_id e) (stored_tenant e) (stored_attempt e) (stored_description e).

(** ** Steps *)
Inductive step : system → system → Prop :=
| step_accept effect sts st queue claimed tasks dlv :
    (* an acceptance that succeeds puts the effect on the queue *)
    accept effect (states st) = (Ok (), sts) →
    step (mk_system st queue claimed tasks dlv)
      (mk_system (mk_effect_store sts (dedup st)) (queue ++ [effect]) claimed tasks dlv)
| step_recv n effect st queue claimed tasks dlv :
    tasks !! n = None →
    step (mk_system st (effect :: queue) claimed tasks dlv)
      (mk_system st queue claimed
         (<[n := mk_task effect (drain_one self effect) monitor0]> tasks) dlv)
| step_claim now it due st queue tasks dlv :
    iteration (states st) it → claim_due now RECLAIM_BATCH_LIMIT it = Ok due →
    step (mk_system st queue [] tasks dlv) (mk_system st queue due tasks dlv)
| step_reclaim n e sts st queue claimed tasks dlv :
    tasks !! n = None → mark_in_flight (stored_id e) (states st) = (Ok (), sts) →
    step (mk_system st queue (e :: claimed) tasks dlv)
      (mk_system (mk_effect_store sts (dedup st)) queue claimed
         (<[n := mk_task (reclaimed e) (drain_reclaimed self (reclaimed e)) monitor_claimed]> tasks)
         dlv)
| step_reclaim_skip e st queue claimed tasks dlv :
    step (mk_system st queue (e :: claimed) tasks dlv) (mk_system st queue claimed tasks dlv)
| step_task n t B (c : cmd X B) k b st st' queue claimed tasks dlv :
    tasks !! n = Some t → t_prog t = Do c k → answer st c b st' →
    step (mk_system st queue claimed tasks dlv)
      (mk_system st' queue claimed
         (<[n := mk_task (t_effect t) (k b) (observe (t_monitor t) _ c b)]> tasks)
         (delivery t c b ++ dlv))
| step_end n st queue claimed tasks dlv :
    (* a task returns, or is aborted at a shutdown deadline *)
    step (mk_system st queue claimed tasks dlv) (mk_system st queue claimed (delete n tasks) dlv)
| step_restart now st queue claimed tasks dlv :
    step (mk_system st queue claimed tasks dlv)
      (mk_system (mk_effect_store (recover_in_flight now (states st)).2 (dedup st)) [] [] ∅ dlv).

Definition reachable : system → Prop := rtc step system_new.

(** ** Invariant *)
Definition record_scope (r : EffectRecord) : DedupScope :=
  mk_scope (record_tenant r) (description_effect_type (record_description r))
    (description_idempotency_key (record_description r)).
Definition record_fingerprint (r : EffectRecord) : EffectFingerprint :=
  content_fingerprint self (record_description r).
Definition effect_fingerprint (e : AcceptedEffect) : EffectFingerprint :=
  content_fingerprint self (accepted_description e).

(** The record of [e] exists with the content of [e]. *)
Definition known (sts : gmap EffectId EffectRecord) (e : AcceptedEffect) : Prop :=
  ∃ r, sts !! accepted_id e = Some r ∧
    record_tenant r = accepted_tenant e ∧ record_description r = accepted_description e.

(** The effect is this task's: from the claim until a final write, and after a
    terminal mark while the release is outstanding. *)
Definition active (m : monitor) : Prop :=
  m_in_flight m = true ∧ (m_settled m = false ∨ m_terminal m = true).

Record task_ok (st : InMemoryEffectStore) (dlv : list (DedupScope * EffectFingerprint))
    (t : task) : Prop := mk_task_ok {
  ok_known : known (states st) (t_effect t);
  ok_protocol : obeys self (t_effect t) any_answer (t_prog t) (t_monitor t) (λ _ _, True);
  ok_terminal : m_terminal (t_monitor t) = true → m_settled (t_monitor t) = true;
  ok_active : active (t_monitor t) →
    record_state <$> states st !! accepted_id (t_effect t)
    = Some (if m_terminal (t_monitor t) then TerminalFailed else InFlight);
  ok_reserved : active (t_monitor t) → m_reserved (t_monitor t) = true →
    ∃ b, dedup st !! effect_scope (t_effect t)
         = Some (mk_reservation (accepted_id (t_effect t)) (effect_fingerprint (t_effect t)) b) ∧
         (b = true → m_delivered (t_monitor t) = true);
  ok_delivered : m_delivered (t_monitor t) = true ∨ m_satisfied (t_monitor t) = true →
    (effect_scope (t_effect t), effect_fingerprint (t_effect t)) ∈ dlv;
}.

Record store_ok (st : InMemoryEffectStore) (dlv : list (DedupScope * EffectFingerprint)) : Prop :=
  mk_store_ok {
  ok_succeeded : ∀ id r, states st !! id = Some r → record_state r = Succeeded →
    (record_scope r, record_fingerprint r) ∈ dlv;
  ok_committed : ∀ scope r, dedup st !! scope = Some r → reserved_succeeded r = true →
    (scope, reserved_fingerprint r) ∈ dlv;
}.

Definition exclusive (tasks : gmap nat task) : Prop :=
  ∀ n n' t t', tasks !! n = Some t → tasks !! n' = Some t' →
    active (t_monitor t) → active (t_monitor t') →
    accepted_id (t_effect t) = accepted_id (t_effect t') → n = n'.

Record sys_ok (w : system) : Prop := mk_sys_ok {
  sys_ok_store : store_ok (sys_store w) (sys_delivered w);
  sys_ok_queue : Forall (known (states (sys_store w))) (sys_queue w);
  sys_ok_claimed : Forall (λ e, known (states (sys_store w)) (reclaimed e)) (sys_claimed w);
  sys_ok_tasks : map_Forall (λ _ t, task_ok (sys_store w) (sys_delivered w) t) (sys_tasks w);
  sys_ok_exclusive : exclusive (sys_tasks w);
}.

(** ** Lemmas *)
Lemma fallible_transition id from to upd s a s' :
  fallible (on_states (EffectStore.transition id from to upd)) s a s' →
  (s' = s ∧ ∃ e, a = Err e) ∨
  (a = Ok () ∧ ∃ r, states s !! id = Some r ∧ record_state r ∈ from ∧
     s' = mk_effect_store (<[id := upd (set_state to r)]> (states s)) (dedup s)).
Proof.
  intros [Hcall|?]; [|by left]. unfold on_states, EffectStore.transition in Hcall.
  destruct (states s !! id) as [r|] eqn:Hr; [case_decide as Hin|]; simplify_eq.
  - left. split; [by destruct s|eauto].
  - right. split; [done|]. by exists r.
  - left. split; [by destruct s|eauto].
Qed.

(** Rewriting a record with its own content forgets no effect. *)
Lemma known_insert sts id r r' e :
  sts !! id = Some r → record_tenant r' = record_tenant r →
  record_description r' = record_description r → known sts e → known (<[id := r']> sts) e.
Proof.
  intros Hr Ht Hd (r0 & Hr0 & Ht0 & Hd0). unfold known.
  destruct (decide (accepted_id e = id)) as [<-|Hne].
  - rewrite lookup_insert_eq. eexists. split; [done|]. split; congruence.
  - rewrite lookup_insert_ne by done. eauto.
Qed.

(** A task is untouched by what leaves its record and its reservation alone. *)
Lemma task_ok_frame st dlv st' dlv' t :
  task_ok st dlv t →
  (∀ e, known (states st) e → known (states st') e) → (∀ x, x ∈ dlv → x ∈ dlv') →
  (active (t_monitor t) →
   record_state <$> states st' !! accepted_id (t_effect t)
     = record_state <$> states st !! accepted_id (t_effect t) ∧
   (m_reserved (t_monitor t) = true →
    dedup st' !! effect_scope (t_effect t) = dedup st !! effect_scope (t_effect t))) →
  task_ok st' dlv' t.
Proof.
  intros [Hk Hp Ht Ha Hr Hd] Hkn Hdl Hsame. constructor; auto.
  - intros Hact. destruct (Hsame Hact) as [-> _]. auto.
  - intros Hact Hres. destruct (Hsame Hact) as [_ Hded]. rewrite Hded by done. auto.
Qed.

(** Task [n] moves, or starts; the others are framed. *)
Lemma replace_task st queue claimed tasks dlv st' dlv' n e p m :
  sys_ok (mk_system st queue claimed tasks dlv) →
  store_ok st' dlv' →
  (∀ e, known (states st) e → known (states st') e) → (∀ x, x ∈ dlv → x ∈ dlv') →
  (∀ n' t', tasks !! n' = Some t' → n' ≠ n → active (t_monitor t') →
     (active m → accepted_id (t_effect t') ≠ accepted_id e) ∧
     record_state <$> states st' !! accepted_id (t_effect t')
       = record_state <$> states st !! accepted_id (t_effect t') ∧
     (m_reserved (t_monitor t') = true →
      dedup st' !! effect_scope (t_effect t') = dedup st !! effect_scope (t_effect t'))) →
  task_ok st' dlv' (mk_task e p m) →
  sys_ok (mk_system st' queue claimed (<[n := mk_task e p m]> tasks) dlv').
Proof.
  intros [_ Hq Hc Ht Hx] Hst Hkn Hdl Hoth Hnew. simpl in *. constructor; simpl.
  - done.
  - eapply Forall_impl; eauto.
  - eapply Forall_impl; [done|]. simpl. eauto.
  - intros n' t' Hn'. insert_cases Hn'; [done|].
    eapply task_ok_frame; [by eapply Ht|done|done|]. intros Hact.
    by destruct (Hoth n' t' Hn') as (_ & ? & ?).
  - intros n1 n2 t1 t2. destruct (decide (n1 = n)) as [->|H1], (decide (n2 = n)) as [->|H2];
      rewrite ?lookup_insert_eq, ?lookup_insert_ne by done; [done| | |apply Hx].
    + intros [= <-] Ht2 Ha1 Ha2 Hid. simpl in *.
      destruct (Hoth n2 t2 Ht2 H2 Ha2) as (Hno & _). by destruct (Hno Ha1).
    + intros Ht1 [= <-] Ha1 Ha2 Hid. simpl in *.
      destruct (Hoth n1 t1 Ht1 H1 Ha1) as (Hno & _). by destruct (Hno Ha2).
Qed.

(** A record moves on behalf of task [n], which no other active task shares. *)
Lemma update_record st queue claimed tasks dlv n e r r' p m :
  sys_ok (mk_system st queue claimed tasks dlv) →
  states st !! accepted_id e = Some r →
  record_tenant r' = accepted_tenant e → record_description r' = accepted_description e →
  record_tenant r = accepted_tenant e → record_description r = accepted_description e →
  (record_state r' = Succeeded → (effect_scope e, effect_fingerprint e) ∈ dlv) →
  (∀ n' t', tasks !! n' = Some t' → n' ≠ n → active (t_monitor t') →
     accepted_id (t_effect t') ≠ accepted_id e) →
  let st' := mk_effect_store (<[accepted_id e := r']> (states st)) (dedup st) in
  task_ok st' dlv (mk_task e p m) →
  sys_ok (mk_system st' queue claimed (<[n := mk_task e p m]> tasks) dlv).
Proof.
  intros Hok Hr Ht' Hd' Ht Hd Hs Hoth st' Hnew. apply (replace_task st _ _ _ dlv); try done.
  - destruct (sys_ok_store _ Hok) as [H1 H2]. split; [|done]. simpl. intros id r0 Hl. insert_cases Hl; [|by apply H1 with id].
    intros Hst. unfold record_scope, record_fingerprint. rewrite Ht', Hd'. by apply Hs.
  - intros e0. apply (known_insert _ _ r); congruence.
  - intros n' t' Hn' Hne Hact. specialize (Hoth n' t' Hn' Hne Hact).
    split_and!; [done| |done]. simpl. by rewrite lookup_insert_ne.
Qed.

(** A task that learns nothing and changes nothing. *)
Lemma task_quiet st queue claimed tasks dlv n t p :
  sys_ok (mk_system st queue claimed tasks dlv) → tasks !! n = Some t →
  obeys self (t_effect t) any_answer p (t_monitor t) (λ _ _, True) →
  sys_ok (mk_system st queue claimed (<[n := mk_task (t_effect t) p (t_monitor t)]> tasks) dlv).
Proof.
  intros Hok Hn Hp. destruct (sys_ok_tasks _ Hok n t Hn). apply (replace_task st _ _ _ dlv);
    try done; [by apply Hok|].
  intros n' t' Hn' Hne Hact. split_and!; [|done..]. intros Hact' Hid.
  by destruct Hne; eapply (sys_ok_exclusive _ Hok).
Qed.

(** No other active task holds the effect of an active one. *)
Lemma active_alone st queue claimed tasks dlv n t :
  sys_ok (mk_system st queue claimed tasks dlv) → tasks !! n = Some t → active (t_monitor t) →
  ∀ n' t', tasks !! n' = Some t' → n' ≠ n → active (t_monitor t') →
    accepted_id (t_effect t') ≠ accepted_id (t_effect t).
Proof.
  intros Hok Hn Hact n' t' Hn' Hne Hact' Hid. by destruct Hne; eapply (sys_ok_exclusive _ Hok).
Qed.

(** No active task holds an effect that is neither in flight nor terminal. *)
Lemma claimable_alone st queue claimed tasks dlv e r :
  sys_ok (mk_system st queue claimed tasks dlv) → states st !! accepted_id e = Some r →
  record_state r ∈ [Pending; RetryableFailed] →
  ∀ n' t', tasks !! n' = Some t' → active (t_monitor t') →
    accepted_id (t_effect t') ≠ accepted_id e.
Proof.
  intros Hok Hr Hin n' t' Hn' Hact Hid. pose proof (ok_active _ _ _ (sys_ok_tasks _ Hok n' t' Hn') Hact) as Hs.
  simpl in Hs. rewrite Hid, Hr in Hs. simpl in Hs. injection Hs as Hs. rewrite Hs in Hin.
  by destruct (m_terminal (t_monitor t')); set_solver.
Qed.

(** An effect the claim marks in flight starts with a good task. *)
Lemma claim_task st queue claimed tasks dlv n e r p :
  sys_ok (mk_system st queue claimed tasks dlv) → known (states st) e →
  states st !! accepted_id e = Some r → record_state r ∈ [Pending; RetryableFailed] →
  obeys self e any_answer p monitor_claimed (λ _ _, True) →
  sys_ok (mk_system (mk_effect_store (<[accepted_id e := set_state InFlight r]> (states st)) (dedup st))
    queue claimed (<[n := mk_task e p monitor_claimed]> tasks) dlv).
Proof.
  intros Hok (r0 & Hr0 & Ht & Hd) Hr Hin Hp. assert (r0 = r) as -> by congruence.
  apply (update_record _ _ _ _ _ n e r); try done.
  - intros n' t' Hn' _ Hact. by eapply claimable_alone.
  - constructor; simpl; try done.
    + eapply known_insert; [exact Hr|done|done|]. by exists r.
    + intros _. by rewrite lookup_insert_eq.
    + by intros [?|?].
Qed.

(** A final write on the effect of an open task. *)
Lemma settle_task st queue claimed tasks dlv n t r r' p m :
  sys_ok (mk_system st queue claimed tasks dlv) → tasks !! n = Some t →
  open (t_monitor t) → states st !! accepted_id (t_effect t) = Some r →
  record_tenant r' = record_tenant r → record_description r' = record_description r →
  (record_state r' = Succeeded →
   m_delivered (t_monitor t) = true ∨ m_satisfied (t_monitor t) = true) →
  m_in_flight m = m_in_flight (t_monitor t) → m_reserved m = m_reserved (t_monitor t) →
  m_delivered m = m_delivered (t_monitor t) → m_satisfied m = m_satisfied (t_monitor t) →
  m_settled m = true → (m_terminal m = true → record_state r' = TerminalFailed) →
  obeys self (t_effect t) any_answer p m (λ _ _, True) →
  sys_ok (mk_system (mk_effect_store (<[accepted_id (t_effect t) := r']> (states st)) (dedup st))
    queue claimed (<[n := mk_task (t_effect t) p m]> tasks) dlv).
Proof.
  intros Hok Hn [Hi Hset] Hr Ht Hd Hsucc Emi Emr Emd Ems Eset Hterm Hp.
  destruct (sys_ok_tasks _ Hok n t Hn) as [(r0 & Hr0 & Ht0 & Hd0) _ _ Hact Hres Hdel].
  simpl in *. assert (r0 = r) as -> by congruence.
  assert (active (t_monitor t)) as Ha by (split; auto).
  apply (update_record _ _ _ _ _ n _ r); try congruence; auto.
  { intros n' t' Hn' Hne Ha'. by eapply active_alone. }
  constructor; simpl; try done.
  - eapply known_insert; [exact Hr|done|done|]. by exists r.
  - intros [_ [?|Htm]]; [congruence|]. rewrite lookup_insert_eq. simpl.
    rewrite Htm. by rewrite Hterm.
  - rewrite Emr, Emd. auto.
  - rewrite Emd, Ems. auto.
Qed.

(** The reservations move on behalf of an active task. *)
Lemma update_dedup st queue claimed tasks dlv n t ded p m :
  sys_ok (mk_system st queue claimed tasks dlv) → tasks !! n = Some t → active (t_monitor t) →
  (∀ scope r, ded !! scope = Some r → reserved_succeeded r = true →
     (scope, reserved_fingerprint r) ∈ dlv) →
  (∀ scope r, dedup st !! scope = Some r → reserved_by r ≠ accepted_id (t_effect t) →
     ded !! scope = Some r) →
  let st' := mk_effect_store (states st) ded in
  task_ok st' dlv (mk_task (t_effect t) p m) →
  sys_ok (mk_system st' queue claimed (<[n := mk_task (t_effect t) p m]> tasks) dlv).
Proof.
  intros Hok Hn Ha Hcom Hkeep st' Hnew. apply (replace_task st _ _ _ dlv); try done.
  - destruct (sys_ok_store _ Hok). by split.
  - intros n' t' Hn' Hne Ha'. assert (accepted_id (t_effect t') ≠ accepted_id (t_effect t)) as Hid
      by by eapply active_alone.
    split_and!; [done|done|]. intros Hres.
    destruct (ok_reserved _ _ _ (sys_ok_tasks _ Hok n' t' Hn') Ha' Hres) as (b & Hb & _).
    simpl in *. rewrite Hb. by apply Hkeep.
Qed.

Lemma step_reserve st queue claimed tasks dlv n t a ded p :
  sys_ok (mk_system st queue claimed tasks dlv) → tasks !! n = Some t →
  open (t_monitor t) → m_delivered (t_monitor t) = false →
  reserve (effect_scope (t_effect t)) (accepted_id (t_effect t))
    (effect_fingerprint (t_effect t)) (dedup st) = (a, ded) →
  let m := learn_reserved (t_monitor t) a in
  obeys self (t_effect t) any_answer p m (λ _ _, True) →
  sys_ok (mk_system (mk_effect_store (states st) ded)
    queue claimed (<[n := mk_task (t_effect t) p m]> tasks) dlv).
Proof.
  intros Hok Hn [Hi Hset] Hd Hres. cbv zeta. intros Hp. assert (active (t_monitor t)) as Ha by (split; auto).
  destruct (sys_ok_store _ Hok) as [_ Hcom]. simpl in Hcom.
  destruct (sys_ok_tasks _ Hok n t Hn) as [Hk _ Hterm Hact Hr Hdel]. simpl in *.
  unfold reserve in Hres. destruct (dedup st !! effect_scope (t_effect t)) as [r|] eqn:Hs.
  - injection Hres as <- <-. apply (update_dedup _ _ _ _ _ n t); try done.
    revert Hp. case_decide as Efp; intros Hp; [by constructor; simpl; rewrite ?Hs; auto|].
    assert (reserved_succeeded r = true →
      (effect_scope (t_effect t), effect_fingerprint (t_effect t)) ∈ dlv) as Hdlv
      by (intros; rewrite <-Efp; by apply (Hcom _ r)).
    revert Hp. case_decide as Hby; destruct (reserved_succeeded r) eqn:Esucc; intros Hp;
      constructor; simpl; rewrite ?Hs; auto.
    intros _ _. exists false. split; [|done]. destruct r; simpl in *. by subst.
  - injection Hres as <- <-. apply (update_dedup _ _ _ _ _ n t); try done.
    + intros scope r Hl. by insert_cases Hl; [|apply Hcom].
    + intros scope r Hr0 _. rewrite lookup_insert_ne; [done|congruence].
    + constructor; simpl; auto. intros _ _. exists false. by rewrite lookup_insert_eq.
Qed.

Lemma step_commit st queue claimed tasks dlv n t p m :
  sys_ok (mk_system st queue claimed tasks dlv) → tasks !! n = Some t →
  open (t_monitor t) → m_reserved (t_monitor t) = true → m_delivered (t_monitor t) = true →
  m_in_flight m = m_in_flight (t_monitor t) → m_reserved m = m_reserved (t_monitor t) →
  m_delivered m = m_delivered (t_monitor t) → m_satisfied m = m_satisfied (t_monitor t) →
  m_terminal m = m_terminal (t_monitor t) → m_settled m = m_settled (t_monitor t) →
  obeys self (t_effect t) any_answer p m (λ _ _, True) →
  sys_ok (mk_system (mk_effect_store (states st)
      (commit_success (effect_scope (t_effect t)) (dedup st)).2)
    queue claimed (<[n := mk_task (t_effect t) p m]> tasks) dlv).
Proof.
  intros Hok Hn [Hi Hset] Hr Hd Emi Emr Emd Ems Emt Eset Hp.
  assert (active (t_monitor t)) as Ha by (split; auto).
  destruct (sys_ok_store _ Hok) as [_ Hcom]. simpl in Hcom.
  destruct (sys_ok_tasks _ Hok n t Hn) as [Hk _ Hterm Hact Hres Hdel]. simpl in *.
  destruct (Hres Ha Hr) as (b & Hb & _). rewrite Hb. simpl.
  apply (update_dedup _ _ _ _ _ n t); try done.
  - intros scope r Hl. insert_cases Hl; auto.
  - intros scope r Hr0 Hby. rewrite lookup_insert_ne; [done|]. intros <-. rewrite Hb in Hr0.
    by simplify_eq.
  - constructor; simpl; try done; rewrite ?Emt, ?Eset, ?Emd, ?Ems; auto.
    intros _ _. exists true. by rewrite lookup_insert_eq.
Qed.

Lemma step_release st queue claimed tasks dlv n t p m :
  sys_ok (mk_system st queue claimed tasks dlv) → tasks !! n = Some t →
  active (t_monitor t) → m_reserved (t_monitor t) = true →
  m_in_flight m = m_in_flight (t_monitor t) → m_reserved m = false →
  m_delivered m = m_delivered (t_monitor t) → m_satisfied m = m_satisfied (t_monitor t) →
  m_terminal m = m_terminal (t_monitor t) → m_settled m = m_settled (t_monitor t) →
  obeys self (t_effect t) any_answer p m (λ _ _, True) →
  sys_ok (mk_system (mk_effect_store (states st) (delete (effect_scope (t_effect t)) (dedup st)))
    queue claimed (<[n := mk_task (t_effect t) p m]> tasks) dlv).
Proof.
  intros Hok Hn Ha Hr Emi Emr Emd Ems Emt Eset Hp.
  destruct (sys_ok_store _ Hok) as [_ Hcom]. simpl in Hcom.
  destruct (sys_ok_tasks _ Hok n t Hn) as [Hk _ Hterm Hact Hres Hdel]. simpl in *.
  destruct (Hres Ha Hr) as (b & Hb & _). apply (update_dedup _ _ _ _ _ n t); try done.
  - intros scope r [_ Hl]%lookup_delete_Some. by apply Hcom.
  - intros scope r Hr0 Hby. apply lookup_delete_Some. split; [|done]. intros <-.
    rewrite Hb in Hr0. by simplify_eq.
  - constructor; simpl; try done; rewrite ?Emt, ?Eset, ?Emd, ?Ems; auto. congruence.
Qed.

Lemma step_execute st queue claimed tasks dlv n t x d ctx joined p :
  sys_ok (mk_system st queue claimed tasks dlv) → tasks !! n = Some t →
  let c := KExecute x d ctx in
  allowed (t_effect t) (effect_policy self (t_effect t)) (effect_fingerprint (t_effect t))
    (t_monitor t) _ c →
  obeys self (t_effect t) any_answer p (observe (t_monitor t) _ c joined) (λ _ _, True) →
  sys_ok (mk_system st queue claimed
    (<[n := mk_task (t_effect t) p (observe (t_monitor t) _ c joined)]> tasks)
    (delivery t c joined ++ dlv)).
Proof.
  intros Hok Hn c (Hi & Hset & Hr & He & Hd & -> & Hid & Ht & Hatt) Hp.
  assert (active (t_monitor t)) as Ha by (split; auto).
  destruct (sys_ok_tasks _ Hok n t Hn) as [Hk _ Hterm Hact Hres Hdel]. simpl in *.
  assert (∀ x, x ∈ dlv → x ∈ delivery t c joined ++ dlv) as Hsub by set_solver.
  apply (replace_task st _ _ _ dlv); try done.
  - destruct (sys_ok_store _ Hok) as [H1 H2]. split; eauto.
  - intros n' t' Hn' Hne Ha'. split_and!; [|done..]. intros _. by eapply active_alone.
  - constructor; simpl; try done.
    + intros _ _. destruct (Hres Ha Hr) as (b & Hb & Hb'). exists b. split; [done|].
      intros ->. rewrite Hb' in Hd by done. done.
    + intros Hor. destruct joined as [[]| |]; simpl in Hor; [|by apply Hsub, Hdel..].
      simpl. rewrite Ht. apply list_elem_of_here.
Qed.

Lemma monitor_eta (m : monitor) :
  mk_monitor (m_in_flight m) (m_reserved m) (m_executed m) (m_delivered m) (m_committed m)
    (m_satisfied m) (m_terminal m) (m_settled m) = m.
Proof. by destruct m. Qed.

(** A final write, answered by the store or failed. *)
Lemma step_final st queue claimed tasks dlv n t from to upd (r : result EffectStoreError unit) st' b p m :
  sys_ok (mk_system st queue claimed tasks dlv) → tasks !! n = Some t → open (t_monitor t) →
  fallible (on_states (EffectStore.transition (accepted_id (t_effect t)) from to upd)) st r st' →
  (∀ r, record_tenant (upd r) = record_tenant r ∧ record_description (upd r) = record_description r ∧
        record_state (upd r) = record_state r) →
  (to = Succeeded → m_delivered (t_monitor t) = true ∨ m_satisfied (t_monitor t) = true) →
  (b = true → to = TerminalFailed) →
  m = (let m0 := t_monitor t in
       mk_monitor (m_in_flight m0) (m_reserved m0) (m_executed m0) (m_delivered m0)
         (m_committed m0) (m_satisfied m0) (m_terminal m0 || (b && is_ok r))
         (m_settled m0 || is_ok r)) →
  obeys self (t_effect t) any_answer p m (λ _ _, True) →
  sys_ok (mk_system st' queue claimed (<[n := mk_task (t_effect t) p m]> tasks) dlv).
Proof.
  intros Hok Hn [Hi Hset] Hans Hupd Hsucc Hb -> Hp.
  apply fallible_transition in Hans as [[-> [e ->]]|[-> (rec & Hr & Hin & ->)]]; simpl in *.
  - rewrite andb_false_r, !orb_false_r, monitor_eta in *. by apply task_quiet.
  - destruct (Hupd (set_state to rec)) as (H1 & H2 & H3).
    apply (settle_task _ _ _ _ _ n t rec); try done; simpl; rewrite ?orb_true_r, ?H3; try done.
    rewrite andb_true_r. intros [Ht|Hb']%orb_true_iff; [|by auto].
    by rewrite (ok_terminal _ _ _ (sys_ok_tasks _ Hok n t Hn) Ht) in Hset.
Qed.

(** A task's next command preserves the invariant, whatever it answers. *)
Lemma step_task_ok st queue claimed tasks dlv n t B (c : cmd X B) k b st' :
  sys_ok (mk_system st queue claimed tasks dlv) → tasks !! n = Some t →
  t_prog t = Do c k → answer st c b st' →
  sys_ok (mk_system st' queue claimed
    (<[n := mk_task (t_effect t) (k b) (observe (t_monitor t) _ c b)]> tasks)
    (delivery t c b ++ dlv)).
Proof.
  intros Hok Hn Hprog Hans. pose proof (ok_protocol _ _ _ (sys_ok_tasks _ Hok n t Hn)) as Hp.
  rewrite Hprog in Hp. destruct Hp as [Hall Hk]. specialize (Hk b I).
  pose proof (task_quiet _ _ _ _ _ n t (k b) Hok Hn) as Hquiet.
  destruct c; simpl in Hans; cbn [delivery app].
  - (* mark_in_flight *)
    apply fallible_transition in Hans as [[-> [e ->]]|[-> (r & Hr & Hin & ->)]]; [auto|].
    destruct Hall as [-> Hm]. apply (claim_task _ _ _ _ _ n _ r); try done.
    by destruct (sys_ok_tasks _ Hok n t Hn).
  - (* mark_succeeded *)
    destruct Hall as (-> & Hi & Hset & Hor).
    eapply (step_final _ _ _ _ _ _ _ _ _ _ _ _ false); try done; [tauto|].
    simpl. by rewrite orb_false_r.
  - (* mark_retryable *)
    destruct Hall as (-> & Hi & Hset & _).
    eapply (step_final _ _ _ _ _ _ _ _ _ _ _ _ false); try done.
    simpl. by rewrite orb_false_r.
  - (* mark_terminal *)
    destruct Hall as (-> & Hi & Hset & _).
    by eapply (step_final _ _ _ _ _ _ _ _ _ _ _ _ true).
  - (* reserve *)
    destruct Hall as (-> & -> & -> & Hi & Hset & Hr & _ & Hd).
    destruct Hans as [Hcall|[-> [e ->]]]; [|auto]. unfold on_dedup in Hcall.
    destruct (reserve _ _ _ _) as [a ded] eqn:Hres. simplify_eq.
    by apply step_reserve.
  - (* commit_success *)
    destruct Hall as (-> & Hi & Hset & Hr & Hd).
    destruct Hans as [Hcall|[-> [e ->]]].
    + injection Hcall as <- <-. by apply step_commit.
    + simpl in *. rewrite orb_false_r, monitor_eta in *. auto.
  - (* release *)
    destruct Hall as (-> & Hi & Ht & Hr & Hd).
    destruct Hans as [Hcall|[-> [e ->]]].
    + injection Hcall as <- <-. apply step_release; try done.
      * split; auto.
      * simpl. apply andb_false_r.
    + simpl in *. rewrite andb_true_r, monitor_eta in *. auto.
  - simplify_eq. by apply step_execute.
  - simplify_eq. auto.
  - simplify_eq. auto.
Qed.

(** An accepted effect is known, and acceptance disturbs nothing else. *)
Lemma step_accept_ok effect sts st queue claimed tasks dlv :
  accept effect (states st) = (Ok (), sts) → sys_ok (mk_system st queue claimed tasks dlv) →
  sys_ok (mk_system (mk_effect_store sts (dedup st)) (queue ++ [effect]) claimed tasks dlv).
Proof.
  intros Hacc [[Hs Hc] Hq Hcl Ht Hx]. simpl in *. unfold accept in Hacc.
  destruct (states st !! accepted_id effect) as [r|] eqn:Hr.
  - case_decide as Hsame; simplify_eq. destruct Hsame as [Ht' Hd']. destruct st. simpl in *.
    constructor; simpl; try done. apply Forall_app. split; [done|]. constructor; [by exists r|done].
  - injection Hacc as <-.
    assert (∀ e, known (states st) e → known (<[accepted_id effect :=
      mk_effect_record (accepted_tenant effect) (accepted_description effect) Pending
        (accepted_attempt effect) None None]> (states st)) e) as Hkn.
    { intros e (r & Hr' & He). exists r. split; [|done]. rewrite lookup_insert_ne; [done|congruence]. }
    constructor; simpl; try done.
    + split; [|done]. simpl. intros id r Hl. by insert_cases Hl; [|apply (Hs id)].
    + apply Forall_app. split; [by eapply Forall_impl|]. constructor; [|done].
      eexists. rewrite lookup_insert_eq. by split_and!.
    + eapply Forall_impl; [done|]. simpl. eauto.
    + intros n t Hn. eapply task_ok_frame; [by eapply Ht|done|done|]. simpl. intros _.
      destruct (ok_known _ _ _ (Ht n t Hn)) as (r & Hr' & _). split; [|done].
      rewrite lookup_insert_ne; [done|congruence].
Qed.

Lemma exclusive_empty : exclusive ∅.
Proof. intros n n' t t' Hn. by rewrite lookup_empty in Hn. Qed.

Lemma step_restart_ok now st queue claimed tasks dlv :
  sys_ok (mk_system st queue claimed tasks dlv) →
  sys_ok (mk_system (mk_effect_store (recover_in_flight now (states st)).2 (dedup st)) [] [] ∅ dlv).
Proof.
  intros [[Hs Hc] _ _ _ _]. constructor; simpl; try done; try apply map_Forall_empty; try apply exclusive_empty.
  split; [|done]. simpl. intros id r. rewrite lookup_fmap, fmap_Some. intros (r0 & Hr0 & ->).
  unfold recover_record. case_decide; [done|]. by apply (Hs id).
Qed.

(** Claimed snapshots describe known effects. *)
Lemma claimed_known now it due sts :
  iteration sts it → claim_due now RECLAIM_BATCH_LIMIT it = Ok due →
  Forall (λ e, known sts (reclaimed e)) due.
Proof.
  intros Hit [= <-]. apply Forall_fmap, Forall_forall. intros [id r] Hin. simpl.
  apply elem_of_take in Hin as (i & Hi & _). apply list_elem_of_lookup_2 in Hi.
  apply list_elem_of_filter in Hi as [_ Hi]. exists r. split; [|done].
  by apply (iteration_elem _ _ _ _ Hit).
Qed.

Lemma delivery_step_ok w w' : step w w' → sys_ok w → sys_ok w'.
Proof.
  intros Hstep Hok. destruct Hstep.
  - by eapply step_accept_ok.
  - destruct Hok as [Hs Hq Hc Ht Hx]. simpl in *. apply Forall_cons in Hq as [He Hq].
    apply (replace_task st _ _ _ dlv); try done.
    + intros n' t' Hn' _ _. split_and!; [|done..]. by intros [? _].
    + constructor; try done; try (by intros [? _]); [|by intros [?|?]].
      eapply wp_mono, wp_drain_one. done.
  - destruct Hok as [Hs Hq Hc Ht Hx]. simpl in *. constructor; simpl; try done.
    by eapply claimed_known.
  - assert (sys_ok (mk_system st queue claimed tasks dlv) ∧ known (states st) (reclaimed e))
      as [Hok' He].
    { destruct Hok as [Hs Hq Hc Ht Hx]. simpl in *. by apply Forall_cons in Hc as [? ?]. }
    destruct (fallible_transition (stored_id e) [Pending; RetryableFailed] InFlight (λ r, r) st
      (Ok ()) (mk_effect_store sts (dedup st))) as [[_ [? ?]]|[_ (r & Hr & Hin & Hst)]]; [|done|].
    { left. unfold on_states, mark_in_flight in *. by rewrite H0. }
    rewrite Hst. apply (claim_task _ _ _ _ _ n (reclaimed e) r); try done.
    eapply wp_mono, wp_dispatch. done.
  - destruct Hok as [Hs Hq Hc Ht Hx]. simpl in *. apply Forall_cons in Hc as [? ?].
    by constructor.
  - by eapply step_task_ok.
  - destruct Hok as [Hs Hq Hc Ht Hx]. simpl in *. constructor; simpl; try done.
    + intros n' t' [_ Hn']%lookup_delete_Some. by apply (Ht n').
    + intros n1 n2 t1 t2 [_ H1]%lookup_delete_Some [_ H2]%lookup_delete_Some. by apply Hx.
  - by eapply step_restart_ok.
Qed.

Lemma delivery_reachable_ok w : reachable w → sys_ok w.
Proof.
  intros Hr. assert (sys_ok system_new) as H0.
  { constructor; simpl; try done; try apply map_Forall_empty; try apply exclusive_empty. }
  induction Hr; eauto using delivery_step_ok.
Qed.

(** A task at its executor call holds the scope, uncommitted. *)
Lemma executing_holds w n t x d ctx k :
  sys_ok w → sys_tasks w !! n = Some t → t_prog t = Do (KExecute x d ctx) k →
  active (t_monitor t) ∧
  dedup (sys_store w) !! effect_scope (t_effect t)
  = Some (mk_reservation (accepted_id (t_effect t)) (effect_fingerprint (t_effect t)) false).
Proof.
  intros Hok Hn Hp. destruct (sys_ok_tasks _ Hok n t Hn) as [_ Hpr _ _ Hres _].
  rewrite Hp in Hpr. destruct Hpr as [(Hi & Hset & Hr & _ & Hd & _) _].
  assert (active (t_monitor t)) as Ha by (split; auto). split; [done|].
  destruct (Hres Ha Hr) as ([] & Hb & Hb'); [|done]. rewrite Hb' in Hd by done. done.
Qed.
End delivery.

(** ** Properties *)

(** C4: No effect is lost silently: in every reachable state of the concurrent
    runtime, whatever interleaving, failed store calls, aborted tasks and
    restarts led there, an effect recorded as succeeded, and a scope committed
    as succeeded, was delivered: an executor reported success for that tenant,
    effect type and idempotency key, with content of the same fingerprint. *)
Theorem no_silent_loss `{SU : !ShowUuid} {X} (self : RunnerConfig X) w :
  reachable self w →
  (∀ id r, states (sys_store w) @ id ↦ r → record_state r = Succeeded →
     (record_scope r, record_fingerprint self r) ∈ sys_delivered w) ∧
  (∀ scope r, dedup (sys_store w) @ scope ↦ r → reserved_succeeded r = true →
     (scope, reserved_fingerprint r) ∈ sys_delivered w).
Proof. intros Hr. by destruct (delivery_reachable_ok self w Hr) as [[H1 H2] _ _ _ _]. Qed.

(** C5: Execution is exclusive: in every reachable state no two tasks are about to call,
    or are inside, an executor for the same scope, and none is for a scope whose
    success was committed, so a committed delivery is never repeated. *)
Theorem execution_is_exclusive `{SU : !ShowUuid} {X} (self : RunnerConfig X) w n t x d ctx k :
  reachable self w → sys_tasks w !! n = Some t → t_prog t = Do (KExecute x d ctx) k →
  dedup (sys_store w) !! effect_scope (t_effect t)
    = Some (mk_reservation (accepted_id (t_effect t)) (effect_fingerprint self (t_effect t)) false) ∧
  ∀ n' t' x' d' ctx' k', sys_tasks w !! n' = Some t' → t_prog t' = Do (KExecute x' d' ctx') k' →
    effect_scope (t_effect t') = effect_scope (t_effect t) → n' = n.
Proof.
  intros Hr Hn Hp. pose proof (delivery_reachable_ok self w Hr) as Hok.
  destruct (executing_holds self w n t x d ctx k Hok Hn Hp) as [Ha Hd]. split; [done|].
  intros n' t' x' d' ctx' k' Hn' Hp' Hs.
  destruct (executing_holds self w n' t' x' d' ctx' k' Hok Hn' Hp') as [Ha' Hd'].
  rewrite Hs, Hd in Hd'. simplify_eq. by eapply (sys_ok_exclusive _ _ Hok).
Qed.

(** ** Scripted runs *)

(** What the environment does to a task's next command. *)
Inductive reply :=
| RStore                        (* the store answers *)
| RFail (e : EffectStoreError)  (* the store call fails *)
| RJoin (joined : JoinResult)   (* the executor task ends *)
| RTime (z : Z).                (* the clock, or the jitter *)

Section scripts.
Context `{SU : !ShowUuid} {X : Type} (self : RunnerConfig X).

Definition store_reply {A} (r : reply)
    (call : InMemoryEffectStore → result EffectStoreError A * InMemoryEffectStore)
    (s : InMemoryEffectStore) : option (result EffectStoreError A * InMemoryEffectStore) :=
  match r with
  | RStore => Some (call s)
  | RFail e => Some (Err e, s)
  | _ => None
  end.

Definition reply_to (r : reply) (s : InMemoryEffectStore) {B} (c : cmd X B) :
    option (B * InMemoryEffectStore) :=
  match c in cmd _ B return option (B * InMemoryEffectStore) with
  | KInFlight id => store_reply r (on_states (mark_in_flight id)) s
  | KSucceeded id => store_reply r (on_states (mark_succeeded id)) s
  | KRetryable id attempt next_at =>
      store_reply r (on_states (mark_retryable id attempt next_at)) s
  | KTerminal id reason => store_reply r (on_states (mark_terminal id reason)) s
  | KReserve scope id fp => store_reply r (on_dedup (reserve scope id fp)) s
  | KCommit scope => store_reply r (on_dedup (commit_success scope)) s
  | KRelease scope => store_reply r (on_dedup (release scope)) s
  | KExecute _ _ _ => match r with RJoin joined => Some (joined, s) | _ => None end
  | KNow | KDraw => match r with RTime z => Some (z, s) | _ => None end
  end.

Lemma reply_to_answer r s {B} (c : cmd X B) b s' : reply_to r s c = Some (b, s') → answer s c b s'.
Proof.
  destruct c, r; simpl; intros Hr; simplify_eq; try done; try (right; by eauto); left; congruence.
Qed.

Fixpoint run_script (script : list reply) (st : InMemoryEffectStore) (t : task (X:=X))
    (dlv : list (DedupScope * EffectFingerprint)) :
    InMemoryEffectStore * task * list (DedupScope * EffectFingerprint) :=
  match script, t_prog t with
  | r :: script, Do c k =>
      match reply_to r st c with
      | Some (b, st') =>
          run_script script st' (mk_task (t_effect t) (k b) (observe (t_monitor t) _ c b))
            (delivery self t c b ++ dlv)
      | None => (st, t, dlv)
      end
  | _, _ => (st, t, dlv)
  end.

Lemma run_script_steps script n st t dlv queue claimed tasks :
  let '(st', t', dlv') := run_script script st t dlv in
  rtc (step self) (mk_system st queue claimed (<[n := t]> tasks) dlv)
    (mk_system st' queue claimed (<[n := t']> tasks) dlv').
Proof.
  revert st t dlv. induction script as [|r script IH]; intros st t dlv; [apply rtc_refl|].
  simpl. destruct (t_prog t) as [a|B c k] eqn:Hp; [apply rtc_refl|].
  destruct (reply_to r st c) as [[b st']|] eqn:Hr; [|apply rtc_refl].
  specialize (IH st' (mk_task (t_effect t) (k b) (observe (t_monitor t) _ c b))
    (delivery self t c b ++ dlv)).
  destruct (run_script _ _ _ _) as [[st1 t1] dlv1]. eapply rtc_l; [|exact IH].
  rewrite <-(insert_insert_eq tasks n (mk_task _ _ _) t). eapply step_task; [apply lookup_insert_eq|exact Hp|].
  by eapply reply_to_answer.
Qed.
End scripts.

(** ** Stranded scopes *)
Section stranded.
Context `{SU : !ShowUuid} {X : Type} (self : RunnerConfig X) (id : EffectId) (scope : DedupScope).

(** The scope is reserved by an effect that is terminal and that no task acts for. *)
Record stranded (r : ReservationRecord) (w : system (X:=X)) : Prop := mk_stranded {
  stranded_ok : sys_ok self w;
  stranded_by : reserved_by r = id;
  stranded_terminal : record_state <$> states (sys_store w) !! id = Some TerminalFailed;
  stranded_held : dedup (sys_store w) !! scope = Some r;
  stranded_tasks : map_Forall (λ _ t, active (t_monitor t) → accepted_id (t_effect t) ≠ id)
    (sys_tasks w);
}.

Lemma transition_keeps_terminal j from to upd sts :
  TerminalFailed ∉ from → record_state <$> sts !! id = Some TerminalFailed →
  record_state <$> (EffectStore.transition j from to upd sts).2 !! id = Some TerminalFailed.
Proof.
  intros Hfrom Ht. unfold EffectStore.transition. destruct (sts !! j) as [r|] eqn:Hj; [|done].
  case_decide as Hd; [done|]. simpl. destruct (decide (j = id)) as [->|]; [|by rewrite lookup_insert_ne].
  rewrite Hj in Ht. simpl in Ht. injection Ht as Ht. by rewrite Ht in Hd.
Qed.

(** What a task may do to a terminal record and to a reservation its effect does not hold. *)
Lemma answer_keeps_terminal st n t queue claimed tasks dlv B (c : cmd X B) k b st' :
  sys_ok self (mk_system st queue claimed tasks dlv) → tasks !! n = Some t →
  t_prog t = Do c k → answer st c b st' →
  record_state <$> states st !! id = Some TerminalFailed →
  record_state <$> states st' !! id = Some TerminalFailed.
Proof.
  intros Hok Hn Hp Hans Ht. destruct c; simpl in Hans; try (by subst);
    destruct Hans as [Hcall|[-> _]]; try done.
  1-4: unfold on_states, mark_in_flight, mark_succeeded, mark_retryable, mark_terminal in Hcall;
    match type of Hcall with context [EffectStore.transition ?j ?f ?to ?u ?s] =>
      pose proof (transition_keeps_terminal j f to u s ltac:(set_solver) Ht) as Hk;
      destruct (EffectStore.transition j f to u s) end; by simplify_eq.
  all: unfold on_dedup in Hcall; repeat case_match; by simplify_eq.
Qed.

Lemma answer_keeps_held st n t queue claimed tasks dlv B (c : cmd X B) k b st' r :
  sys_ok self (mk_system st queue claimed tasks dlv) → tasks !! n = Some t →
  t_prog t = Do c k → answer st c b st' →
  dedup st !! scope = Some r → (active (t_monitor t) → accepted_id (t_effect t) ≠ reserved_by r) →
  dedup st' !! scope = Some r.
Proof.
  intros Hok Hn Hp Hans Hr Hno. destruct (sys_ok_tasks _ _ Hok n t Hn) as [_ Hpr _ _ Hres _].
  rewrite Hp in Hpr. destruct Hpr as [Hall _]. simpl in *.
  assert (m_reserved (t_monitor t) = true → active (t_monitor t) →
    effect_scope (t_effect t) ≠ scope) as Hne.
  { intros Hr' Ha <-. destruct (Hres Ha Hr') as (b' & Hb' & _). rewrite Hb' in Hr.
    simplify_eq. by apply Hno. }
  destruct c; simpl in Hans; try (by subst);
    destruct Hans as [Hcall|[-> _]]; try done; unfold on_states, on_dedup in Hcall.
  1-4: repeat case_match; by simplify_eq.
  - unfold reserve in Hcall. destruct (dedup st !! scope0) eqn:Hs; simplify_eq; [done|].
    simpl. rewrite lookup_insert_ne; [done|congruence].
  - destruct Hall as (-> & Hi & Hset & Hr' & _). simpl in Hcall. simplify_eq. simpl.
    assert (effect_scope (t_effect t) ≠ scope) by (apply Hne; [done|split; auto]).
    case_match; [|done]. by rewrite lookup_insert_ne.
  - destruct Hall as (-> & Hi & Ht & Hr' & _). simpl in Hcall. simplify_eq. simpl.
    assert (effect_scope (t_effect t) ≠ scope) by (apply Hne; [done|split; auto]).
    by rewrite lookup_delete_ne.
Qed.

(** A task becomes active only by claiming its effect. *)
Lemma active_observe e pol fp m {B} (c : cmd X B) b :
  allowed e pol fp m _ c → active (observe m _ c b) →
  active m ∨ m_terminal (observe m _ c b) = false.
Proof.
  intros Hall Hact. destruct c; simpl in *; try (by left).
  - destruct Hall as [_ ->]. right. by case_match.
  - destruct Hall as (_ & Hi & Hset & _). left. by split; auto.
  - destruct Hall as (_ & Hi & Hset & _). left. by split; auto.
  - destruct Hall as (_ & Hi & Hset & _). left. by split; auto.
  - left. destruct Hall as (_ & _ & _ & Hi & Hset & _). by split; auto.
Qed.

Lemma stranded_terminal_step r w w' :
  step self w w' → stranded r w →
  record_state <$> states (sys_store w') !! id = Some TerminalFailed.
Proof.
  intros Hstep [Hok Hby Ht Hh Hno]. destruct Hstep; simpl in *; try done.
  - unfold accept in H. destruct (states st !! accepted_id effect) eqn:Hl.
    + by case_decide; simplify_eq.
    + simplify_eq. rewrite lookup_insert_ne; [done|]. intros Heq. by rewrite <-Heq, Hl in Ht.
  - pose proof (transition_keeps_terminal (stored_id e) [Pending; RetryableFailed] InFlight
      (λ r, r) (states st) ltac:(set_solver) Ht) as Hk.
    unfold mark_in_flight in H0. by rewrite H0 in Hk.
  - eapply answer_keeps_terminal; [exact Hok|exact H|exact H0|exact H1|exact Ht].
  - rewrite lookup_fmap. destruct (states st !! id) as [r0|]; [|done]. simpl in *.
    unfold recover_record. case_decide; [congruence|done].
Qed.

Lemma stranded_step r w w' : step self w w' → stranded r w → stranded r w'.
Proof.
  intros Hstep Hw. pose proof (stranded_terminal_step r w w' Hstep Hw) as Ht'.
  destruct Hw as [Hok Hby Ht Hh Hno]. pose proof (delivery_step_ok self _ _ Hstep Hok) as Hok'.
  split; [done|done|done|..].
  - destruct Hstep; simpl in *; try done.
    eapply answer_keeps_held; [exact Hok|exact H|exact H0|exact H1|exact Hh|]. rewrite Hby. by apply (Hno n).
  - assert (∀ n t, sys_tasks w' !! n = Some t → active (t_monitor t) →
      m_terminal (t_monitor t) = false → accepted_id (t_effect t) ≠ id) as Hnew.
    { intros n t Hn Ha Hf Heq. pose proof (ok_active _ _ _ _ (sys_ok_tasks _ _ Hok' n t Hn) Ha) as Hs.
      rewrite Hf, Heq, Ht' in Hs. done. }
    intros n' t' Hn' Ha'. specialize (Hnew n' t' Hn' Ha').
    destruct Hstep; simpl in *; try (by apply (Hno n' t')).
    + insert_cases Hn'; [by apply Hnew|by apply (Hno n' t')].
    + insert_cases Hn'; [by apply Hnew|by apply (Hno n' t')].
    + insert_cases Hn'; simpl in *.
      * pose proof (ok_protocol _ _ _ _ (sys_ok_tasks _ _ Hok n' t H)) as Hp. rewrite H0 in Hp.
        destruct Hp as [Hall _].
        destruct (active_observe _ _ _ _ c b Hall Ha'); [by apply (Hno n' t)|auto].
      * by apply (Hno n' t').
    + delete_cases Hn'. by apply (Hno n' t').
Qed.

(** Stranded is forever, and no task executes for a stranded scope. *)
Lemma stranded_forever r w w' :
  rtc (step self) w w' → stranded r w →
  dedup (sys_store w') !! scope = Some r ∧
  ∀ n t x d ctx k, sys_tasks w' !! n = Some t → t_prog t = Do (KExecute x d ctx) k →
    effect_scope (t_effect t) ≠ scope.
Proof.
  intros Hrtc Hw. assert (stranded r w') as [Hok Hby Ht Hh Hno] by (induction Hrtc; eauto using stranded_step).
  split; [done|]. intros n t x d ctx k Hn Hp Hs.
  destruct (executing_holds self w' n t x d ctx k Hok Hn Hp) as [Ha Hd].
  rewrite Hs, Hh in Hd. simplify_eq. by apply (Hno n t).
Qed.
End stranded.
(** ** Witnesses *)
Module Example_email.
#[local] Instance show : ShowUuid := λ _, "id".
Definition self : RunnerConfig unit :=
  mk_runner unit (RetryPolicies_new RetryPolicy_default) {["email" := ()]} (λ bs, bs) (λ d _, d).
Definition st0 : InMemoryEffectStore := mk_effect_store (ex_sts Pending) ∅.
Definition start : task := mk_task ex_accepted (drain_one self ex_accepted) monitor0.

(** The effect accepted, dequeued and run for [script]. *)
Definition ran (script : list reply) : InMemoryEffectStore * task * list (DedupScope * EffectFingerprint) :=
  run_script self script st0 start [].
Definition after (script : list reply) : system :=
  mk_system (ran script).1.1 [] [] (<[0 := (ran script).1.2]> ∅) (ran script).2.

Lemma after_reachable `{SU : !ShowUuid} script : reachable self (after script).
Proof.
  eapply rtc_l; [by apply (step_accept self ex_accepted)|].
  eapply rtc_l; [by apply (step_recv self 0)|].
  pose proof (run_script_steps self script 0 st0 start [] [] [] ∅) as Hs.
  unfold after, ran. destruct (run_script _ _ _ _ _) as [[st t] dlv]. exact Hs.
Qed.

Definition success_script : list reply :=
  [RStore; RStore; RJoin (Joined Success); RStore; RStore].

Lemma no_silent_loss_witness :
  ∃ r, states (sys_store (after success_script)) !! ex_eid = Some r ∧
    record_state r = Succeeded ∧
    (record_scope r, record_fingerprint self r) ∈ sys_delivered (after success_script).
Proof.
  eexists. split; [vm_compute; reflexivity|]. split; [reflexivity|].
  apply (proj1 (no_silent_loss self _ (after_reachable success_script)) ex_eid);
    vm_compute; reflexivity.
Defined.

Lemma execution_is_exclusive_witness :
  dedup (sys_store (after [RStore; RStore])) !! ex_scope
  = Some (mk_reservation ex_eid (content_fingerprint self ex_desc) false).
Proof.
  refine (proj1 (execution_is_exclusive self (after [RStore; RStore]) 0
    (ran [RStore; RStore]).1.2 tt _ _ _ _ _ _)).
  - apply after_reachable.
  - apply lookup_insert_eq.
  - vm_compute. reflexivity.
Defined.

(** A first attempt that fails, and the store after it. *)
Definition retry_script : list reply :=
  [RStore; RStore; RJoin (Joined (RetryableFailure "timeout")); RTime 0; RTime 5; RStore].
Definition retried : EffectRecord :=
  mk_effect_record (mk_id "acme") ex_desc RetryableFailed 1 (Some 100000005)%Z None.
Definition st1 : InMemoryEffectStore := (ran retry_script).1.1.
Definition second : AcceptedEffect := mk_accepted ex_eid (mk_id "acme") 1 ex_desc.
Definition st2 : InMemoryEffectStore :=
  mk_effect_store (mark_in_flight ex_eid (states st1)).2 (dedup st1).
(** The reclaimed second attempt, whose reservation call fails. *)
Definition outage : InMemoryEffectStore * task * list (DedupScope * EffectFingerprint) :=
  run_script self [RFail (Backend "down"); RStore] st2
    (mk_task second (drain_reclaimed self second) monitor_claimed) [].

Definition stuck : system (X:=unit) := mk_system outage.1.1 [] [] ∅ [].

Lemma stuck_reachable `{SU : !ShowUuid} : reachable self stuck.
Proof.
  eapply rtc_trans; [apply (after_reachable retry_script)|].
  eapply rtc_l; [apply (step_end self 0)|].
  rewrite delete_insert_id by apply lookup_empty. change (ran retry_script).1.1 with st1.
  assert (states st1 = {[ex_eid := retried]}) as Hst by (vm_compute; reflexivity).
  assert (iteration (states st1) [(ex_eid, retried)]) as Hit.
  { rewrite Hst. unfold iteration. by rewrite map_to_list_singleton. }
  eapply rtc_l; [eapply (step_claim self 200000000); [exact Hit|reflexivity]|].
  eapply rtc_l; [apply (step_reclaim self 1 _ (states st2)); [done|vm_compute; reflexivity]|].
  pose proof (run_script_steps self [RFail (Backend "down"); RStore] 1 st2
    (mk_task second (drain_reclaimed self second) monitor_claimed) [] [] [] ∅) as Hs.
  change (run_script _ _ _ _ _) with outage in Hs. unfold stuck.
  assert (outage.2 = []) as Hd by (vm_compute; reflexivity).
  destruct outage as [[st t] dlv]. simpl in Hd. subst dlv. eapply rtc_trans; [exact Hs|].
  eapply rtc_l; [apply (step_end self 1)|]. rewrite delete_insert_id by apply lookup_empty.
  apply rtc_refl.
Qed.
End Example_email.

(** A reservation call that fails on a retry strands its scope: the runtime reaches
    a state with no task and an empty queue in which the effect is terminal
    ("dedup store unavailable") but its reservation from the first attempt is
    still held, uncommitted.  From there on, whatever happens, restarts included,
    the reservation is never released or committed, and no effect of that scope
    is ever executed: each is told that another one is in progress. *)
Lemma reserve_outage_strands_scope `{SU : !ShowUuid} :
  ∃ (self : RunnerConfig unit) w id scope fp,
    reachable self w ∧ sys_tasks w = ∅ ∧ sys_queue w = [] ∧
    record_state <$> states (sys_store w) !! id = Some TerminalFailed ∧
    dedup (sys_store w) !! scope = Some (mk_reservation id fp false) ∧
    ∀ w', rtc (step self) w w' →
      (∀ id', id' ≠ id →
         (reserve scope id' fp (dedup (sys_store w'))).1 = Ok OtherInProgress) ∧
      ∀ n t x d ctx k, sys_tasks w' !! n = Some t → t_prog t = Do (KExecute x d ctx) k →
        effect_scope (t_effect t) ≠ scope.
Proof.
  exists Example_email.self, Example_email.stuck, ex_eid, ex_scope,
    (content_fingerprint Example_email.self ex_desc).
  pose proof Example_email.stuck_reachable as Hr.
  assert (record_state <$> states (sys_store Example_email.stuck) !! ex_eid = Some TerminalFailed)
    as Hterm by (vm_compute; reflexivity).
  assert (dedup (sys_store Example_email.stuck) !! ex_scope
    = Some (mk_reservation ex_eid (content_fingerprint Example_email.self ex_desc) false))
    as Hheld by (vm_compute; reflexivity).
  split_and!; try done. intros w' Hw'.
  destruct (stranded_forever Example_email.self ex_eid ex_scope
    (mk_reservation ex_eid (content_fingerprint Example_email.self ex_desc) false) _ w' Hw')
    as [Hd Hx].
  { by split; [by apply delivery_reachable_ok|..|apply map_Forall_empty]. }
  split; [|exact Hx]. intros id' Hne. unfold reserve. rewrite Hd. simpl.
  rewrite !decide_False by naive_solver. done.
Qed.
