(* ===== verification/ReadSide.v ===== *)
(** * The read side: stores and sessions

    Projections consume tagged events in batches (crates/domain, read_side/
    session.rs, runner.rs, config.rs, error.rs).  A session reads its offset,
    fetches a batch, drops what the projection has seen, runs the handler and
    commits the marks and the offset, under a claim of the stream when claiming is
    configured.  The in-memory stores (crates/persistence-memory, read_side) are
    functions on maps; the session is a program over its ports.  [allowed] and
    [observe] are the protocol the session's documentation promises. *)

From stdpp Require Import pretty.
From S2P Require Import Prelude Programs Reservation.

(** ** Data *)
Record EventTag := mk_tag { tag_value : string }.
#[export] Instance EventTag_eq_dec : EqDecision EventTag.
Proof. solve_decision. Defined.

(** [EventTag::new] panics on an empty value: [None]. *)
Definition EventTag_new (value : string) : option EventTag :=
  if decide (value = "") then None else Some (mk_tag value).

(** [EventTag::from_str] *)
Definition EventTag_from_str (s : string) : result string EventTag :=
  if decide (s = "") then Err "EventTag value must not be empty" else ok_or "" (EventTag_new s).

Inductive Offset := Sequence (v : Z).
#[export] Instance Offset_eq_dec : EqDecision Offset.
Proof. solve_decision. Defined.

Definition as_sequence (o : Offset) : option Z := match o with Sequence v => Some v end.

Inductive OffsetStoreError := OTransient (msg : string) | OFatal (msg : string).
Inductive DedupStoreError := DTransient (msg : string) | DFatal (msg : string).
Inductive ReadSideStoreError := FTransient (msg : string) | FFatal (msg : string).

Definition OffsetStoreError_to_string (e : OffsetStoreError) : string :=
  match e with
  | OTransient m => "transient offset store error: " +:+ m
  | OFatal m => "fatal offset store error: " +:+ m
  end.
Definition DedupStoreError_to_string (e : DedupStoreError) : string :=
  match e with
  | DTransient m => "transient dedup store error: " +:+ m
  | DFatal m => "fatal dedup store error: " +:+ m
  end.
Definition ReadSideStoreError_to_string (e : ReadSideStoreError) : string :=
  match e with
  | FTransient m => "transient read side store error: " +:+ m
  | FFatal m => "fatal read side store error: " +:+ m
  end.

Inductive ProjectionError :=
| PTransient (msg : string)
| PFatal (msg : string)
| PoisonEvent (msg : string).

Definition ProjectionError_to_string (e : ProjectionError) : string :=
  match e with
  | PTransient m => "transient error: " +:+ m
  | PFatal m => "fatal error: " +:+ m
  | PoisonEvent m => "poison event: " +:+ m
  end.

Record EventStreamElement (E : Type) := mk_element {
  event_id : string;
  aggregate_id : string;
  tenant_id : string;
  event_type : string;
  payload : E;
  event_version : Z;
  occurred_at : Z;
  tags : list EventTag;
}.
Arguments mk_element {E} _ _ _ _ _ _ _ _.
Arguments event_id {E} _.
Arguments aggregate_id {E} _.
Arguments tenant_id {E} _.
Arguments event_type {E} _.
Arguments payload {E} _.
Arguments event_version {E} _.
Arguments occurred_at {E} _.
Arguments tags {E} _.

(** [EventStreamElement::new]: its assertions panic, here [None]. *)
Definition element_new {E} (id aggregate tenant type : string) (data : E) (version at_ : Z)
    (ts : list EventTag) : option (EventStreamElement E) :=
  if decide (id ≠ "" ∧ aggregate ≠ "" ∧ tenant ≠ "" ∧ type ≠ "" ∧ (1 ≤ version)%Z ∧ ts ≠ [])
  then Some (mk_element id aggregate tenant type data version at_ ts) else None.

Definition has_tag {E} (tag : string) (e : EventStreamElement E) : bool :=
  existsb (λ t, bool_decide (tag_value t = tag)) (tags e).

(** ** The in-memory stores *)
Section memory.
Context {E : Type}.
Abbreviation element := (EventStreamElement E).

(** [Vec::insert] at the first position whose version is greater. *)
Fixpoint insert_sorted (e : element) (stream : list element) : list element :=
  match stream with
  | [] => [e]
  | f :: stream' =>
      if decide (event_version e < event_version f)%Z then e :: f :: stream'
      else f :: insert_sorted e stream'
  end.

(** [InMemoryReadSideStore]: events by tag. *)
Abbreviation Streams := (gmap string (list element)).

Definition all_events (tag : string) (streams : Streams) : list element :=
  default [] (streams !! tag).

(** [InMemoryReadSideStore::insert] *)
Definition store_insert (e : element) (streams : Streams) : Streams :=
  foldl (λ ss tag, <[tag_value tag := insert_sorted e (all_events (tag_value tag) ss)]> ss)
    streams (tags e).

Definition store_len (tag : string) (streams : Streams) : nat := length (all_events tag streams).

(** The sequence number after which a fetch starts. *)
Definition after (offset : option Offset) : Z := default 0%Z (offset ≫= as_sequence).

Definition paginate (events : list element) (tenant : string) (offset : option Offset)
    (batch_size : nat) : list element :=
  if is_blank tenant then []
  else take batch_size
    (filter (λ e, tenant_id e = tenant ∧ (after offset < event_version e)%Z) events).

Definition fetch (tenant : string) (tag : EventTag) (offset : option Offset) (batch_size : nat)
    (streams : Streams) : result ReadSideStoreError (list element) :=
  Ok (paginate (all_events (tag_value tag) streams) tenant offset batch_size).
End memory.
Arguments paginate {E} _ _ _ _.

(** [InMemoryDedupStore]; the key is projection, tag and event. *)
Abbreviation DedupKey := (string * string * string)%type.
Definition seen (projection_id : string) (tag : EventTag) (id : string) (s : gset DedupKey) :
    result DedupStoreError bool :=
  Ok (bool_decide ((projection_id, tag_value tag, id) ∈ s)).
Definition mark_seen (projection_id : string) (tag : EventTag) (id : string) (s : gset DedupKey) :
    result DedupStoreError unit * gset DedupKey :=
  (Ok (), {[ (projection_id, tag_value tag, id) ]} ∪ s).

(** [InMemoryOffsetStore]; the key is projection, tag and tenant. *)
Abbreviation OffsetKey := (string * string * string)%type.
Definition read_offset (projection_id : string) (tag : EventTag) (tenant : string)
    (s : gmap OffsetKey Offset) : result OffsetStoreError (option Offset) :=
  Ok (s !! (projection_id, tag_value tag, tenant)).
Definition write_offset (projection_id : string) (tag : EventTag) (tenant : string)
    (offset : Offset) (s : gmap OffsetKey Offset) :
    result OffsetStoreError unit * gmap OffsetKey Offset :=
  (Ok (), <[(projection_id, tag_value tag, tenant) := offset]> s).

(** ** Configuration and claims *)
Record ReadSideConfig := mk_read_config {
  batch_size : nat;
  max_in_flight : nat;
  concurrency_per_tag : nat;
}.
Definition ReadSideConfig_default : ReadSideConfig := mk_read_config 20 10 4.
(** The builders panic on zero. *)
Definition with_batch_size (n : nat) (c : ReadSideConfig) : option ReadSideConfig :=
  if decide (0 < n) then Some (mk_read_config n (max_in_flight c) (concurrency_per_tag c)) else None.
Definition with_max_in_flight (n : nat) (c : ReadSideConfig) : option ReadSideConfig :=
  if decide (0 < n) then Some (mk_read_config (batch_size c) n (concurrency_per_tag c)) else None.
Definition with_concurrency_per_tag (n : nat) (c : ReadSideConfig) : option ReadSideConfig :=
  if decide (0 < n) then Some (mk_read_config (batch_size c) (max_in_flight c) n) else None.

Record ClaimId := mk_claim_id {
  claim_projection_id : string;
  claim_tag : EventTag;
  claim_tenant : string;
}.
Record ClaimFence := mk_claim_fence {
  claim_fence_id : ClaimId;
  claim_fence_owner : OwnerId;
  claim_fence_token : FencingToken;
}.
Inductive ClaimError :=
| StaleClaim
| ClaimFencingExhausted
| ClaimTransient (msg : string)
| ClaimFatal (msg : string).

Definition ClaimError_to_string (e : ClaimError) : string :=
  match e with
  | StaleClaim => "stale owner: the presented fence no longer matches the current claim"
  | ClaimFencingExhausted => "fencing token sequence exhausted for this claim"
  | ClaimTransient m => "transient claim store error: " +:+ m
  | ClaimFatal m => "fatal claim store error: " +:+ m
  end.

Record ReadSideClaiming := mk_claiming { claiming_owner : OwnerId; claiming_lease : Z }.

(** [ReadSideSession], less its ports. *)
Record ReadSideSession := mk_session {
  session_projection_id : string;
  session_tag : EventTag;
  session_tenant : string;
  session_config : ReadSideConfig;
  session_claiming : option ReadSideClaiming;
}.

Definition with_claiming (claiming : ReadSideClaiming) (s : ReadSideSession) : ReadSideSession :=
  mk_session (session_projection_id s) (session_tag s) (session_tenant s) (session_config s)
    (Some claiming).

(** [ReadSideRunner::create_session] *)
Definition create_session (config : ReadSideConfig) (projection_id : string) (tag : EventTag)
    (tenant : string) : ReadSideSession :=
  mk_session projection_id tag tenant config None.

Definition claim_id (self : ReadSideSession) : ClaimId :=
  mk_claim_id (session_projection_id self) (session_tag self) (session_tenant self).

(** ** The session as a program over its ports *)
Section session.
Context {E : Type}.
Abbreviation element := (EventStreamElement E).

Inductive rcmd : Type → Type :=
| RReadOffset (projection_id : string) (tag : EventTag) (tenant : string) :
    rcmd (result OffsetStoreError (option Offset))
| RFetch (tenant : string) (tag : EventTag) (offset : option Offset) (batch_size : nat) :
    rcmd (result ReadSideStoreError (list element))
| RSeen (projection_id : string) (tag : EventTag) (id : string) : rcmd (result DedupStoreError bool)
| RHandle (events : list element) : rcmd (result ProjectionError unit)
| RMarkSeen (projection_id : string) (tag : EventTag) (id : string) :
    rcmd (result DedupStoreError unit)
| RWriteOffset (projection_id : string) (tag : EventTag) (tenant : string) (offset : Offset) :
    rcmd (result OffsetStoreError unit)
| RTryClaim (id : ClaimId) (owner : OwnerId) (lease_until : Z) :
    rcmd (result ClaimError (option ClaimFence))
| RRenew (fence : ClaimFence) (lease_until : Z) : rcmd (result ClaimError unit)
| RRelease (fence : ClaimFence) : rcmd (result ClaimError unit)
| RNow : rcmd Z
| RBatchCompleted (projection_id : string) (tag : EventTag) (count : nat) (offset : Offset) :
    rcmd unit
| RReportError (projection_id : string) (error : string) : rcmd unit.

Abbreviation prog := (prog rcmd).
Context (self : ReadSideSession).
Let pid := session_projection_id self.
Let tag := session_tag self.
Let tenant := session_tenant self.

(** Phase 2: the events the projection has not seen, in order. *)
Fixpoint filter_duplicates (unique_events events : list element) :
    prog (result ProjectionError (list element)) :=
  match events with
  | [] => Ret (Ok unique_events)
  | event :: events =>
      let! r := exec (RSeen pid tag (event_id event)) in
      match r with
      | Err e => Ret (Err (PTransient ("dedup check failed: " +:+ DedupStoreError_to_string e)))
      | Ok true => filter_duplicates unique_events events
      | Ok false => filter_duplicates (unique_events ++ [event]) events
      end
  end.

(** The fence gate between the handler and the commit loop. *)
Definition reverify (fence : option ClaimFence) : prog (result ProjectionError unit) :=
  match session_claiming self, fence with
  | Some claiming, Some fence =>
      let! now := exec RNow in
      let! r := exec (RRenew fence (now + claiming_lease claiming)) in
      Ret match r with
          | Ok _ => Ok ()
          | Err StaleClaim => Err (PTransient
              "claim lost before commit; this batch's offset and dedup writes were withheld so a replaced owner cannot rewind the current owner's offset")
          | Err other => Err (PTransient ("claim renew failed: " +:+ ClaimError_to_string other))
          end
  | _, _ => Ret (Ok ())
  end.

Fixpoint mark_all (events : list element) : prog (result ProjectionError unit) :=
  match events with
  | [] => Ret (Ok ())
  | event :: events =>
      let! r := exec (RMarkSeen pid tag (event_id event)) in
      match r with
      | Err e => Ret (Err (PTransient ("mark dedup failed: " +:+ DedupStoreError_to_string e)))
      | Ok _ => mark_all events
      end
  end.

(** [unique_events.last().unwrap()] of a non-empty list. *)
Definition last_event (event : element) (events : list element) : element :=
  default event (last events).

(** Phase 4, after a handler that succeeded on [event :: events]. *)
Definition commit_batch (fence : option ClaimFence) (event : element) (events : list element) :
    prog (result ProjectionError (option Offset)) :=
  let! r := reverify fence in
  match r with
  | Err e => Ret (Err e)
  | Ok _ =>
      let new_offset := Sequence (event_version (last_event event events)) in
      let! r := mark_all (event :: events) in
      match r with
      | Err e => Ret (Err e)
      | Ok _ =>
          let! r := exec (RWriteOffset pid tag tenant new_offset) in
          match r with
          | Err e => Ret (Err (PTransient ("write offset failed: " +:+ OffsetStoreError_to_string e)))
          | Ok _ =>
              exec (RBatchCompleted pid tag (length (event :: events)) new_offset);;
              Ret (Ok (Some new_offset))
          end
      end
  end.

Definition run_batch (fence : option ClaimFence) : prog (result ProjectionError (option Offset)) :=
  let! r := exec (RReadOffset pid tag tenant) in
  match r with
  | Err e => Ret (Err (PTransient ("read offset failed: " +:+ OffsetStoreError_to_string e)))
  | Ok last_offset =>
      let! r := exec (RFetch tenant tag last_offset (batch_size (session_config self))) in
      match r with
      | Err e => Ret (Err (PTransient ("fetch failed: " +:+ ReadSideStoreError_to_string e)))
      | Ok [] => Ret (Ok None)
      | Ok events =>
          let! r := filter_duplicates [] events in
          match r with
          | Err e => Ret (Err e)
          | Ok [] => Ret (Ok None)
          | Ok (event :: rest) =>
              let! r := exec (RHandle (event :: rest)) in
              match r with
              | Ok _ => commit_batch fence event rest
              | Err err =>
                  exec (RReportError pid (ProjectionError_to_string err));; Ret (Err err)
              end
          end
      end
  end.

Definition execute : prog (result ProjectionError (option Offset)) :=
  match session_claiming self with
  | None => run_batch None
  | Some claiming =>
      let! now := exec RNow in
      let! r := exec (RTryClaim (claim_id self) (claiming_owner claiming)
                        (now + claiming_lease claiming)) in
      match r with
      | Err e => Ret (Err (PTransient ("claim acquisition failed: " +:+ ClaimError_to_string e)))
      | Ok None => Ret (Ok None)
      | Ok (Some fence) =>
          let! result := run_batch (Some fence) in
          exec (RRelease fence);; Ret result
      end
  end.
End session.
Arguments rcmd : clear implicits.

(** ** The protocol of a session *)
Section protocol.
Context {E : Type}.
Abbreviation element := (EventStreamElement E).
Context (self : ReadSideSession).

(** What a run has learned and done. *)
Record rmonitor := mk_rmonitor {
  rm_granted : option ClaimFence;      (* the claim it holds *)
  rm_offset : option (option Offset);  (* the offset it read *)
  rm_fetched : list element;           (* the batch it fetched *)
  rm_seen : list string;               (* events reported as seen *)
  rm_unseen : list string;             (* events reported as not seen *)
  rm_handled : list element;           (* what the handler accepted *)
  rm_renewed : bool;                   (* its fence was verified after that *)
  rm_marked : list string;             (* events it marked *)
  rm_written : option Offset;          (* the offset it wrote *)
  rm_released : bool;                  (* it gave the claim back *)
}.
Definition rmonitor0 : rmonitor := mk_rmonitor None None [] [] [] [] false [] None false.

(** A claiming session works only under its claim, and commits only under a fence
    verified after the handler ran. *)
Definition may_work (m : rmonitor) : Prop :=
  session_claiming self = None ∨ is_Some (rm_granted m).
Definition may_commit (m : rmonitor) : Prop :=
  session_claiming self = None ∨ rm_renewed m = true.

(** Everything fetched is known to the projection. *)
Definition all_known (m : rmonitor) : Prop :=
  ∀ e, e ∈ rm_fetched m → e ∈ rm_handled m ∨ event_id e ∈ rm_seen m.

Definition allowed (m : rmonitor) B (c : rcmd E B) : Prop :=
  match c with
  | RReadOffset p t n =>
      p = session_projection_id self ∧ t = session_tag self ∧ n = session_tenant self ∧
      may_work m ∧ rm_offset m = None
  | RFetch n t o b =>
      n = session_tenant self ∧ t = session_tag self ∧ rm_offset m = Some o ∧
      b = batch_size (session_config self) ∧ may_work m ∧ rm_fetched m = [] ∧ rm_handled m = []
  | RSeen p t id =>
      p = session_projection_id self ∧ t = session_tag self ∧ id ∈ event_id <$> rm_fetched m
  | RHandle es =>
      es ≠ [] ∧ sublist es (rm_fetched m) ∧ rm_handled m = [] ∧ may_work m ∧
      (∀ e, e ∈ es → event_id e ∈ rm_unseen m) ∧
      (∀ e, e ∈ rm_fetched m → e ∈ es ∨ event_id e ∈ rm_seen m)
  | RMarkSeen p t id =>
      p = session_projection_id self ∧ t = session_tag self ∧
      id ∈ event_id <$> rm_handled m ∧ may_commit m
  | RWriteOffset p t n o =>
      p = session_projection_id self ∧ t = session_tag self ∧ n = session_tenant self ∧
      may_commit m ∧ all_known m ∧ rm_marked m = event_id <$> rm_handled m ∧
      ∃ e, last (rm_handled m) = Some e ∧ o = Sequence (event_version e)
  | RTryClaim id owner _ =>
      id = claim_id self ∧ rm_granted m = None ∧
      ∃ claiming, session_claiming self = Some claiming ∧ owner = claiming_owner claiming
  | RRenew fence _ => rm_granted m = Some fence ∧ rm_handled m ≠ []
  | RRelease fence => rm_granted m = Some fence ∧ rm_released m = false
  | RNow => True
  | RBatchCompleted p t n o =>
      p = session_projection_id self ∧ t = session_tag self ∧
      n = length (rm_handled m) ∧ rm_written m = Some o
  | RReportError p _ => p = session_projection_id self ∧ rm_handled m = []
  end.

Definition observe (m : rmonitor) B (c : rcmd E B) : B → rmonitor :=
  match c in rcmd _ B return B → rmonitor with
  | RTryClaim _ _ _ => λ r,
      match r with
      | Ok (Some f) => mk_rmonitor (Some f) (rm_offset m) (rm_fetched m) (rm_seen m) (rm_unseen m)
          (rm_handled m) (rm_renewed m) (rm_marked m) (rm_written m) (rm_released m)
      | _ => m
      end
  | RReadOffset _ _ _ => λ r,
      match r with
      | Ok o => mk_rmonitor (rm_granted m) (Some o) (rm_fetched m) (rm_seen m) (rm_unseen m)
          (rm_handled m) (rm_renewed m) (rm_marked m) (rm_written m) (rm_released m)
      | _ => m
      end
  | RFetch _ _ _ _ => λ r,
      match r with
      | Ok es => mk_rmonitor (rm_granted m) (rm_offset m) es (rm_seen m) (rm_unseen m)
          (rm_handled m) (rm_renewed m) (rm_marked m) (rm_written m) (rm_released m)
      | _ => m
      end
  | RSeen _ _ id => λ r,
      match r with
      | Ok true => mk_rmonitor (rm_granted m) (rm_offset m) (rm_fetched m) (id :: rm_seen m)
          (rm_unseen m) (rm_handled m) (rm_renewed m) (rm_marked m) (rm_written m) (rm_released m)
      | Ok false => mk_rmonitor (rm_granted m) (rm_offset m) (rm_fetched m) (rm_seen m)
          (id :: rm_unseen m) (rm_handled m) (rm_renewed m) (rm_marked m) (rm_written m) (rm_released m)
      | _ => m
      end
  | RHandle es => λ r,
      match r with
      | Ok _ => mk_rmonitor (rm_granted m) (rm_offset m) (rm_fetched m) (rm_seen m) (rm_unseen m)
          es (rm_renewed m) (rm_marked m) (rm_written m) (rm_released m)
      | _ => m
      end
  | RRenew _ _ => λ r,
      match r with
      | Ok _ => mk_rmonitor (rm_granted m) (rm_offset m) (rm_fetched m) (rm_seen m) (rm_unseen m)
          (rm_handled m) true (rm_marked m) (rm_written m) (rm_released m)
      | _ => m
      end
  | RMarkSeen _ _ id => λ r,
      match r with
      | Ok _ => mk_rmonitor (rm_granted m) (rm_offset m) (rm_fetched m) (rm_seen m) (rm_unseen m)
          (rm_handled m) (rm_renewed m) (rm_marked m ++ [id]) (rm_written m) (rm_released m)
      | _ => m
      end
  | RWriteOffset _ _ _ o => λ r,
      match r with
      | Ok _ => mk_rmonitor (rm_granted m) (rm_offset m) (rm_fetched m) (rm_seen m) (rm_unseen m)
          (rm_handled m) (rm_renewed m) (rm_marked m) (Some o) (rm_released m)
      | _ => m
      end
  | RRelease _ => λ _, mk_rmonitor (rm_granted m) (rm_offset m) (rm_fetched m) (rm_seen m)
      (rm_unseen m) (rm_handled m) (rm_renewed m) (rm_marked m) (rm_written m) true
  | RNow => λ _, m
  | RBatchCompleted _ _ _ _ => λ _, m
  | RReportError _ _ => λ _, m
  end.

(** A run that returns: an advance was written, anything else wrote no offset, and a
    claim it held was given back. *)
Definition run_result (r : result ProjectionError (option Offset)) (m : rmonitor) : Prop :=
  match r with
  | Ok (Some o) => rm_written m = Some o
  | Ok None => rm_handled m = [] ∧ rm_written m = None
  | Err _ => rm_written m = None
  end.

Abbreviation obeys := (wp allowed observe (λ _ _ _, True)).

Lemma filter_duplicates_obeys us es m (Q : result ProjectionError (list element) → rmonitor → Prop) :
  (∃ done, rm_fetched m = done ++ es ∧ sublist us done ∧
     (∀ e, e ∈ us → event_id e ∈ rm_unseen m) ∧
     (∀ e, e ∈ done → e ∈ us ∨ event_id e ∈ rm_seen m)) →
  (∀ e ss ns, Q (Err e) (mk_rmonitor (rm_granted m) (rm_offset m) (rm_fetched m) ss ns
      (rm_handled m) (rm_renewed m) (rm_marked m) (rm_written m) (rm_released m))) →
  (∀ us' ss ns, sublist us' (rm_fetched m) → (∀ e, e ∈ us' → event_id e ∈ ns) →
    (∀ e, e ∈ rm_fetched m → e ∈ us' ∨ event_id e ∈ ss) →
    Q (Ok us') (mk_rmonitor (rm_granted m) (rm_offset m) (rm_fetched m) ss ns
      (rm_handled m) (rm_renewed m) (rm_marked m) (rm_written m) (rm_released m))) →
  obeys (filter_duplicates self us es) m Q.
Proof.
  revert us m. induction es as [|e es IH]; intros us m (done & Hf & Hsub & Hus & Hdone) Herr Hok.
  - simpl. rewrite app_nil_r in Hf. rewrite <-Hf in *.
    destruct m; by apply (Hok us rm_seen0 rm_unseen0).
  - apply wp_bind, wp_exec.
    { split_and!; [done|done|]. rewrite Hf, fmap_app. simpl. set_solver. }
    intros [[]|err] _; simpl.
    + apply IH; [|done..]. exists (done ++ [e]). rewrite <-app_assoc. split_and!; [done| |done|].
      { by apply sublist_inserts_r. }
      simpl. intros x [Hx|Hx]%elem_of_app; [destruct (Hdone _ Hx); set_solver|set_solver].
    + apply IH; [|done..]. exists (done ++ [e]). rewrite <-app_assoc. split_and!; [done| |set_solver|].
      { by apply sublist_app. }
      simpl. intros x [Hx|Hx]%elem_of_app; [destruct (Hdone _ Hx); set_solver|set_solver].
    + destruct m. apply (Herr _ rm_seen0 rm_unseen0).
Qed.

Lemma mark_all_obeys es m (Q : result ProjectionError unit → rmonitor → Prop) :
  (∃ done, rm_handled m = done ++ es ∧ rm_marked m = event_id <$> done) → may_commit m →
  (∀ r ids, (r = Ok () → ids = event_id <$> rm_handled m) →
    Q r (mk_rmonitor (rm_granted m) (rm_offset m) (rm_fetched m) (rm_seen m) (rm_unseen m)
      (rm_handled m) (rm_renewed m) ids (rm_written m) (rm_released m))) →
  obeys (mark_all self es) m Q.
Proof.
  revert m. induction es as [|e es IH]; intros m (done & Hh & Hmk) Hc HQ.
  - simpl. rewrite app_nil_r in Hh. destruct m; apply HQ. simpl in *. by rewrite Hh.
  - apply wp_bind, wp_exec.
    { split_and!; [done|done| |done]. rewrite Hh, fmap_app. simpl. set_solver. }
    intros [[]|err] _; simpl.
    + apply IH; simpl; [|done|done].
      exists (done ++ [e]). rewrite <-app_assoc, fmap_app. simpl. by rewrite Hmk.
    + destruct m; by apply HQ.
Qed.

(** The claim half of the monitor while a batch runs under [fence]. *)
Definition holds (fence : option ClaimFence) (m : rmonitor) : Prop :=
  rm_granted m = fence ∧ rm_released m = false ∧ (is_Some (session_claiming self) ↔ is_Some fence).

Lemma holds_may_work fence m : holds fence m → may_work m.
Proof.
  intros (Hg & _ & Hc). unfold may_work. rewrite Hg.
  destruct (session_claiming self); [right; apply Hc; eauto|by left].
Qed.

Lemma reverify_obeys fence m (Q : result ProjectionError unit → rmonitor → Prop) :
  holds fence m → rm_handled m ≠ [] →
  (∀ r b, (r = Ok () → session_claiming self = None ∨ b = true) →
    Q r (mk_rmonitor (rm_granted m) (rm_offset m) (rm_fetched m) (rm_seen m) (rm_unseen m)
      (rm_handled m) b (rm_marked m) (rm_written m) (rm_released m))) →
  obeys (reverify (E:=E) self fence) m Q.
Proof.
  intros (Hg & Hrel & Hc) Hh HQ. unfold reverify.
  destruct (session_claiming self) as [claiming|] eqn:Hcl.
  - destruct Hc as [[f ->] _]; [eauto|]. wp_cmd. intros now _. wp_cmd. intros r _. simpl.
    destruct m; destruct r as [[]|[]]; simpl; apply HQ; try done. intros _. by right.
  - simpl. destruct m; apply HQ. intros _. by left.
Qed.

Lemma commit_batch_obeys fence e es m (Q : result ProjectionError (option Offset) → rmonitor → Prop) :
  holds fence m → rm_handled m = e :: es → rm_marked m = [] → rm_written m = None → all_known m →
  (∀ r m', holds fence m' → run_result r m' → Q r m') →
  obeys (commit_batch self fence e es) m Q.
Proof.
  intros Hh Hhan Hmk Hw Hall HQ. unfold commit_batch. apply wp_bind, (reverify_obeys fence); [done|by rewrite Hhan|].
  intros r b Hcommit. destruct r as [[]|e1]; [|by apply HQ; simpl; rewrite ?Hw].
  specialize (Hcommit eq_refl). apply wp_bind, mark_all_obeys; [|done|].
  { exists []. simpl. by rewrite Hhan, Hmk. }
  intros r ids Hids. destruct r as [[]|e2]; [|by apply HQ; simpl; rewrite ?Hw].
  simpl in Hids. apply wp_bind, wp_exec.
  { split_and!; try done; [by apply Hids|]. exists (last_event e es). simpl. split; [|done].
    rewrite Hhan. unfold last_event. rewrite last_cons. by destruct (last es). }
  intros [[]|e3] _; [|by apply HQ; simpl; rewrite ?Hw].
  apply wp_bind, wp_exec; [|by intros [] _; apply HQ].
  split_and!; [done|done| |done]. simpl. by rewrite Hhan.
Qed.

Lemma run_batch_obeys fence (Q : result ProjectionError (option Offset) → rmonitor → Prop) m :
  holds fence m →
  m = mk_rmonitor fence None [] [] [] [] false [] None false →
  (∀ r m', holds fence m' → run_result r m' → Q r m') →
  obeys (run_batch self fence) m Q.
Proof.
  intros Hh -> HQ. unfold run_batch. apply wp_bind, wp_exec.
  { split_and!; try done. by eapply holds_may_work. }
  intros [o|e] _; [|by apply HQ]. apply wp_bind, wp_exec.
  { split_and!; try done. by eapply (holds_may_work fence). }
  intros [es|e] _; [|by apply HQ].
  destruct es as [|e0 es]; [by apply HQ|]. cbv beta iota.
  apply wp_bind, filter_duplicates_obeys.
  { exists []. split_and!; [done|apply sublist_nil_l|set_solver..]. }
  { intros e ss ns. by apply HQ. }
  intros us ss ns Hsub Hun Hall. destruct us as [|u us]; [by apply HQ|].
  apply wp_bind, wp_exec; [split_and!; try done; by eapply (holds_may_work fence)|].
  intros [[]|err] _; [by apply commit_batch_obeys|].
  apply wp_bind, wp_exec; [done|]. intros [] _. by apply HQ.
Qed.

Lemma execute_obeys :
  obeys (execute self) rmonitor0
    (λ r m, run_result r m ∧ (is_Some (rm_granted m) → rm_released m = true)).
Proof.
  unfold execute. destruct (session_claiming self) as [claiming|] eqn:Hcl.
  - wp_cmd. intros now _. apply wp_bind, wp_exec; [by split_and!; eauto|].
    intros [[fence|]|e] _; [|split; [done|by intros []]..].
    apply wp_bind, (run_batch_obeys (Some fence)); [|done|].
    { split_and!; [done|done|]. rewrite Hcl. split; eauto. }
    intros r m' (Hg & Hrel & _) Hr. wp_cmd. intros r0 _. simpl. split; [|done].
    by destruct r as [[]|].
  - apply (run_batch_obeys None); [|done|].
    { split_and!; [done|done|]. rewrite Hcl. split; by intros []. }
    intros r m' (Hg & _) Hr. split; [done|]. rewrite Hg. by intros [].
Qed.
End protocol.

(** A read-side session keeps its protocol whatever its ports answer. *)
Lemma session_obeys_protocol {E} (self : ReadSideSession) :
  wp (allowed (E:=E) self) observe (λ _ _ _, True) (execute self) rmonitor0
    (λ r m, run_result r m ∧ (is_Some (rm_granted m) → rm_released m = true)).
Proof. apply execute_obeys. Qed.
