(* ===== verification/Projection.v ===== *)
(** * Projections

    The read side at work: any number of sessions over the stores of [ReadSide],
    interleaved command by command, with calls that fail before or after their
    effect, tasks that die, and events that keep arriving; the tag scheduler
    (crates/runtime, read_side/scheduler.rs, batch_executor.rs, backpressure.rs)
    that polls tag after tag; and the loop around it. *)

From S2P Require Import Prelude Programs Reservation ReadSide.

(** ** The stores as the sessions see them *)
Section system.
Context {E : Type}.
Abbreviation element := (EventStreamElement E).

Record rworld := mk_rworld {
  w_streams : gmap string (list element);
  w_dedup : gset DedupKey;
  w_offsets : gmap OffsetKey Offset;
  w_handled : list (string * string * element); (* what handlers accepted *)
}.
Definition rworld_new : rworld := mk_rworld ∅ ∅ ∅ [].

Abbreviation events_of t w := (all_events t (w_streams w)).

(** A read answers, or fails. *)
Definition reads {F A} (good : result F A) (w : rworld) (r : result F A) (w' : rworld) : Prop :=
  w' = w ∧ (r = good ∨ ∃ e, r = Err e).
(** A write answers, fails without effect, or takes effect and loses its answer. *)
Definition writes {F A} (good : result F A) (w1 : rworld) (w : rworld) (r : result F A) (w' : rworld) :
    Prop :=
  (w' = w ∧ ∃ e, r = Err e) ∨ (w' = w1 ∧ (r = good ∨ ∃ e, r = Err e)).

Definition answer (s : ReadSideSession) (w : rworld) {B} (c : rcmd E B) : B → rworld → Prop :=
  match c in rcmd _ B return B → rworld → Prop with
  | RReadOffset p t n => reads (read_offset p t n (w_offsets w)) w
  | RFetch n t o b => reads (fetch n t o b (w_streams w)) w
  | RSeen p t id => reads (seen p t id (w_dedup w)) w
  | RHandle es => λ r w',
      match r with
      | Ok _ => w' = mk_rworld (w_streams w) (w_dedup w) (w_offsets w)
          (w_handled w ++
             ((λ e, (session_projection_id s, tag_value (session_tag s), e)) <$> es))
      | Err _ => w' = w
      end
  | RMarkSeen p t id =>
      writes (mark_seen p t id (w_dedup w)).1
        (mk_rworld (w_streams w) (mark_seen p t id (w_dedup w)).2 (w_offsets w) (w_handled w)) w
  | RWriteOffset p t n o =>
      writes (write_offset p t n o (w_offsets w)).1
        (mk_rworld (w_streams w) (w_dedup w) (write_offset p t n o (w_offsets w)).2 (w_handled w)) w
  | _ => λ _ w', w' = w
  end.

Record rtask := mk_rtask {
  t_session : ReadSideSession;
  t_prog : prog (rcmd E) (result ProjectionError (option Offset));
  t_monitor : rmonitor (E:=E);
}.

Record rsystem := mk_rsystem { sys_world : rworld; sys_tasks : gmap nat rtask }.

(** An event as the read side's documentation promises it: a fresh identifier, a
    version above those of its tenant in every tag stream it joins. *)
Definition fresh_event (e : element) (w : rworld) : Prop :=
  (1 ≤ event_version e)%Z ∧
  (∀ t f, f ∈ events_of t w → event_id f ≠ event_id e) ∧
  (∀ t f, t ∈ tags e → f ∈ events_of (tag_value t) w → tenant_id f = tenant_id e →
     event_version f < event_version e)%Z.

Inductive step : rsystem → rsystem → Prop :=
| step_event e w ts :
    fresh_event e w →
    step (mk_rsystem w ts)
      (mk_rsystem (mk_rworld (store_insert e (w_streams w)) (w_dedup w) (w_offsets w) (w_handled w)) ts)
| step_start n s w ts :
    ts !! n = None →
    step (mk_rsystem w ts) (mk_rsystem w (<[n := mk_rtask s (execute s) rmonitor0]> ts))
| step_task n t B (c : rcmd E B) k b w w' ts :
    ts !! n = Some t → t_prog t = Do c k → answer (t_session t) w c b w' →
    step (mk_rsystem w ts)
      (mk_rsystem w' (<[n := mk_rtask (t_session t) (k b) (observe (t_monitor t) _ c b)]> ts))
| step_end n w ts : step (mk_rsystem w ts) (mk_rsystem w (delete n ts)).

Definition reachable : rsystem → Prop := rtc step (mk_rsystem rworld_new ∅).

(** ** Streams *)
Lemma elem_of_insert_sorted (x e : element) l : x ∈ insert_sorted e l ↔ x = e ∨ x ∈ l.
Proof. induction l; simpl; [|case_decide]; set_solver. Qed.

Abbreviation sorted := (StronglySorted (λ a b : element, event_version a ≤ event_version b)%Z).

Lemma insert_sorted_sorted e l : sorted l → sorted (insert_sorted e l).
Proof.
  induction 1 as [|f l Hs IH Hf]; simpl; [repeat constructor|]. case_decide.
  - constructor; [by constructor|]. constructor; [lia|]. eapply Forall_impl; [done|]. simpl. lia.
  - constructor; [done|]. apply Forall_forall. intros x [->|Hx]%elem_of_insert_sorted; [lia|].
    by eapply Forall_forall in Hf.
Qed.

Lemma all_events_insert t u l (ss : gmap string (list element)) :
  all_events t (<[u := l]> ss) = if decide (t = u) then l else all_events t ss.
Proof.
  unfold all_events. case_decide; subst; [by rewrite lookup_insert_eq|by rewrite lookup_insert_ne].
Qed.

Lemma all_events_store_insert t e (ss : gmap string (list element)) x :
  x ∈ all_events t (store_insert e ss) ↔
  (x = e ∧ t ∈ tag_value <$> tags e) ∨ x ∈ all_events t ss.
Proof.
  unfold store_insert. revert ss. induction (tags e) as [|u us IH]; intros ss; simpl; [set_solver|].
  rewrite IH, all_events_insert. case_decide; subst; rewrite ?elem_of_insert_sorted; set_solver.
Qed.

Lemma store_insert_sorted e (ss : gmap string (list element)) :
  (∀ t, sorted (all_events t ss)) → ∀ t, sorted (all_events t (store_insert e ss)).
Proof.
  unfold store_insert. revert ss. induction (tags e) as [|u us IH]; intros ss Hs; simpl; [done|].
  apply IH. intros t. rewrite all_events_insert. case_decide; auto using insert_sorted_sorted.
Qed.

Lemma sorted_filter (P : element → Prop) `{!∀ x, Decision (P x)} l : sorted l → sorted (filter P l).
Proof.
  induction 1 as [|f l Hs IH Hf]; simpl; [constructor|]. rewrite filter_cons. case_decide; [|done].
  constructor; [done|].
  apply Forall_forall. intros x [_ Hx]%list_elem_of_filter. by eapply Forall_forall in Hf.
Qed.

Lemma sorted_take_drop n l (e f : element) :
  sorted l → f ∈ take n l → e ∈ drop n l → (event_version f ≤ event_version e)%Z.
Proof.
  intros Hs. revert n. induction Hs as [|x l Hs IH Hx]; intros [|n]; simpl; try set_solver.
  intros [->|Hf]%elem_of_cons He; [|by eapply IH].
  eapply Forall_forall in Hx; [done|]. rewrite <-(take_drop n l). set_solver.
Qed.

(** What a page leaves out comes after everything on it. *)
Lemma paginate_covers l tenant o n (e : element) :
  sorted l → e ∈ l → tenant_id e = tenant → (after o < event_version e)%Z →
  e ∈ paginate l tenant o n ∨
  ∀ f, f ∈ paginate l tenant o n → (event_version f ≤ event_version e)%Z.
Proof.
  intros Hs He Ht Hv. unfold paginate. case_match; [right; set_solver|]. set (P := λ e, _).
  assert (e ∈ filter P l) as Hin by (apply list_elem_of_filter; done).
  rewrite <-(take_drop n (filter P l)) in Hin. apply elem_of_app in Hin as [?|Hin]; [by left|].
  right. intros f Hf. eapply sorted_take_drop; [|done..]. by apply sorted_filter.
Qed.

Lemma elem_of_paginate l tenant o n (e : element) :
  e ∈ paginate l tenant o n → e ∈ l ∧ tenant_id e = tenant ∧ (after o < event_version e)%Z.
Proof.
  unfold paginate. case_match; [set_solver|]. intros He.
  apply list_elem_of_lookup in He as [i He]. rewrite lookup_take in He. case_decide; [|done].
  apply list_elem_of_lookup_2, list_elem_of_filter in He as [[??]?]. done.
Qed.

(** ** Invariant *)
Definition settled (w : rworld) (p t tenant : string) (v : Z) : Prop :=
  (∀ e, e ∈ events_of t w → tenant_id e = tenant → (event_version e ≤ v)%Z →
     (p, t, e) ∈ w_handled w) ∧
  ((v ≤ 0)%Z ∨ ∃ e, e ∈ events_of t w ∧ tenant_id e = tenant ∧ (v ≤ event_version e)%Z).

Record world_ok (w : rworld) : Prop := mk_world_ok {
  ok_sorted : ∀ t, sorted (events_of t w);
  ok_versions : ∀ t e f, e ∈ events_of t w → f ∈ events_of t w → tenant_id e = tenant_id f →
    event_version e = event_version f → e = f;
  ok_ids : ∀ t u e f, e ∈ events_of t w → f ∈ events_of u w → event_id e = event_id f → e = f;
  ok_positive : ∀ t e, e ∈ events_of t w → (1 ≤ event_version e)%Z;
  ok_handled : ∀ p t e, (p, t, e) ∈ w_handled w → e ∈ events_of t w;
  ok_dedup : ∀ p t id, (p, t, id) ∈ w_dedup w →
    ∃ e, (p, t, e) ∈ w_handled w ∧ event_id e = id;
  ok_offsets : ∀ p t n o, w_offsets w !! (p, t, n) = Some o → settled w p t n (after (Some o));
}.

(** What a task believes is true of the stores. *)
Record rtask_ok (w : rworld) (s : ReadSideSession) (m : rmonitor (E:=E)) : Prop := mk_rtask_ok {
  ok_read : ∀ o, rm_offset m = Some o →
    settled w (session_projection_id s) (tag_value (session_tag s)) (session_tenant s) (after o);
  ok_fetched : ∀ e, e ∈ rm_fetched m →
    e ∈ events_of (tag_value (session_tag s)) w ∧ tenant_id e = session_tenant s ∧
    is_Some (rm_offset m);
  ok_covers : ∀ o e, rm_offset m = Some o → e ∈ events_of (tag_value (session_tag s)) w →
    tenant_id e = session_tenant s → (after o < event_version e)%Z →
    e ∈ rm_fetched m ∨ ∀ f, f ∈ rm_fetched m → (event_version f < event_version e)%Z;
  ok_seen : ∀ id, id ∈ rm_seen m → ∃ e,
    (session_projection_id s, tag_value (session_tag s), e) ∈ w_handled w ∧ event_id e = id;
  ok_task_handled : ∀ e, e ∈ rm_handled m → e ∈ rm_fetched m ∧
    (session_projection_id s, tag_value (session_tag s), e) ∈ w_handled w;
}.

Record rsys_ok (sys : rsystem) : Prop := mk_rsys_ok {
  ok_world : world_ok (sys_world sys);
  ok_tasks : map_Forall (λ _ t,
    wp (allowed (t_session t)) observe (λ _ _ _, True) (t_prog t) (t_monitor t) (λ _ _, True) ∧
    rtask_ok (sys_world sys) (t_session t) (t_monitor t)) (sys_tasks sys);
}.

(** [w'] has what [w] has, and new events come last. *)
Definition extends (w w' : rworld) : Prop :=
  (∀ x, x ∈ w_handled w → x ∈ w_handled w') ∧
  (∀ t e, e ∈ events_of t w → e ∈ events_of t w') ∧
  (∀ t e, e ∈ events_of t w' → e ∈ events_of t w ∨
     (1 ≤ event_version e)%Z ∧
     ∀ f, f ∈ events_of t w → tenant_id f = tenant_id e → (event_version f < event_version e)%Z).

Lemma settled_extends w w' p t n v : extends w w' → settled w p t n v → settled w' p t n v.
Proof.
  intros (Hh & He & Hn) [Hs Hv]. split.
  - intros e Hin Ht Hle. destruct (Hn t e Hin) as [?|[H1 H2]]; [by apply Hh, Hs|].
    destruct Hv as [?|(f & Hf & Hft & Hfv)]; [lia|]. specialize (H2 f Hf). rewrite Hft in H2.
    specialize (H2 (eq_sym Ht)). lia.
  - destruct Hv as [?|(f & Hf & ?)]; [by left|]. right. exists f. auto.
Qed.

Lemma rtask_extends w w' s m : extends w w' → rtask_ok w s m → rtask_ok w' s m.
Proof.
  intros Hx [H1 H2 H3 H4 H5]. pose proof Hx as (Hh & He & Hn). constructor.
  - intros o Ho. eapply settled_extends; eauto.
  - intros e Hf. destruct (H2 e Hf) as (?&?&?). eauto.
  - intros o e Ho Hin Ht Hv. destruct (Hn _ _ Hin) as [?|[_ Hnew]]; [by eapply H3|].
    right. intros f Hf. destruct (H2 f Hf) as (?&?&?). apply Hnew; [done|congruence].
  - intros id Hid. destruct (H4 id Hid) as (e&?&?). eauto.
  - intros e Hin. destruct (H5 e Hin). auto.
Qed.

Lemma extends_same_streams w w' :
  w_streams w' = w_streams w → (∀ x, x ∈ w_handled w → x ∈ w_handled w') → extends w w'.
Proof. intros Hs Hh. split_and!; [done| |]; rewrite Hs; auto. Qed.

Lemma extends_insert e w :
  fresh_event e w →
  extends w (mk_rworld (store_insert e (w_streams w)) (w_dedup w) (w_offsets w) (w_handled w)).
Proof.
  intros (H1 & _ & H3). split_and!; simpl; [done| |].
  - intros t f ?. apply all_events_store_insert. auto.
  - intros t f [[-> Ht]|?]%all_events_store_insert; [|by left]. right. split; [done|].
    apply list_elem_of_fmap in Ht as (u & -> & Hu). intros g. by apply H3.
Qed.

(** Frame: a world with the same streams, dedup and offsets is as good. *)
Lemma world_ok_insert e w :
  fresh_event e w → world_ok w →
  world_ok (mk_rworld (store_insert e (w_streams w)) (w_dedup w) (w_offsets w) (w_handled w)).
Proof.
  intros Hf [Hs Hv Hi Hp Hh Hd Ho]. pose proof (extends_insert e w Hf) as Hx.
  destruct Hf as (H1 & H2 & H3). constructor; simpl.
  - by apply store_insert_sorted.
  - intros t a b [[-> Ha]|Ha]%all_events_store_insert [[-> Hb]|Hb]%all_events_store_insert Ht Hver;
      [done| | |by eapply Hv].
    + apply list_elem_of_fmap in Ha as (u & -> & Hu). specialize (H3 u b Hu Hb (eq_sym Ht)). lia.
    + apply list_elem_of_fmap in Hb as (u & -> & Hu). specialize (H3 u a Hu Ha Ht). lia.
  - intros t u a b [[-> Ha]|Ha]%all_events_store_insert [[-> Hb]|Hb]%all_events_store_insert Hid;
      [done| | |by eapply (Hi t u)].
    + by destruct (H2 u b Hb).
    + by destruct (H2 t a Ha).
  - intros t a [[-> Ha]|Ha]%all_events_store_insert; [done|by eapply Hp].
  - intros p t a Ha. apply all_events_store_insert. right. by eapply Hh.
  - done.
  - intros p t n o Hl. eapply settled_extends; [done|]. by apply Ho.
Qed.

(** A task at a command: what it asks is allowed. *)
Lemma task_extends (sys : rsystem) w' : rsys_ok sys → extends (sys_world sys) w' →
  map_Forall (λ _ t,
    wp (allowed (t_session t)) observe (λ _ _ _, True) (t_prog t) (t_monitor t) (λ _ _, True) ∧
    rtask_ok w' (t_session t) (t_monitor t)) (sys_tasks sys).
Proof.
  intros [_ Ht] Hx n t Hn. destruct (Ht n t Hn) as [Hp Hok]. split; [done|].
  by eapply rtask_extends.
Qed.

(** A handler that accepts a batch. *)
Lemma handle_ok s w m es :
  world_ok w → rtask_ok w s m → sublist es (rm_fetched m) → rm_handled m = [] →
  let w' := mk_rworld (w_streams w) (w_dedup w) (w_offsets w)
    (w_handled w ++ ((λ e, (session_projection_id s, tag_value (session_tag s), e)) <$> es)) in
  extends w w' ∧ world_ok w' ∧
  rtask_ok w' s (mk_rmonitor (rm_granted m) (rm_offset m) (rm_fetched m) (rm_seen m) (rm_unseen m)
    es (rm_renewed m) (rm_marked m) (rm_written m) (rm_released m)).
Proof.
  intros [Hs Hv Hi Hp Hh Hd Ho] Ht Hsub Hnone w'.
  assert (extends w w') as Hx by (apply extends_same_streams; set_solver).
  assert (∀ e, e ∈ es → e ∈ rm_fetched m) as Hin by (intros e ?; by eapply elem_of_sublist).
  split; [done|]. split.
  - constructor; simpl; try done.
    + intros p t e [?|(x & ? & Hx')%list_elem_of_fmap]%elem_of_app; simplify_eq; [by eapply Hh|].
      by apply (ok_fetched _ _ _ Ht), Hin.
    + intros p t id Hid. destruct (Hd _ _ _ Hid) as (e & ? & ?). exists e. set_solver.
    + intros p t n o Hl. eapply settled_extends; [done|]. by apply Ho.
  - apply (rtask_extends _ _ _ _ Hx) in Ht. destruct Ht as [T1 T2 T3 T4 T5].
    constructor; simpl; try done. intros e He. split; [by apply Hin|]. set_solver.
Qed.

(** An offset that may be written is settled. *)
Lemma write_settled s w m e :
  world_ok w → rtask_ok w s m → all_known m → last (rm_handled m) = Some e →
  settled w (session_projection_id s) (tag_value (session_tag s)) (session_tenant s)
    (event_version e).
Proof.
  intros Hw Ht Hall He. apply last_Some_elem_of in He.
  destruct (ok_task_handled _ _ _ Ht e He) as [Hef Heh].
  destruct (ok_fetched _ _ _ Ht e Hef) as (Hes & Hten & o & Ho). split.
  - intros f Hf Hft Hfv. destruct (ok_read _ _ _ Ht o Ho) as [Hsettled _].
    destruct (decide (event_version f ≤ after o)%Z); [by apply Hsettled|].
    destruct (ok_covers _ _ _ Ht o f Ho Hf Hft) as [Hin|Hlt]; [lia| |specialize (Hlt e Hef); lia].
    destruct (Hall f Hin) as [Hh|Hseen]; [by apply (ok_task_handled _ _ _ Ht)|].
    destruct (ok_seen _ _ _ Ht _ Hseen) as (g & Hg & Hid).
    assert (f = g) as ->; [|done]. eapply (ok_ids _ Hw); [done| |done]. by eapply (ok_handled _ Hw).
  - right. exists e. split_and!; [done|done|lia].
Qed.

(** The offset a task reads is settled; before it reads one it believes nothing. *)
Lemma read_ok s w m :
  world_ok w → rtask_ok w s m → rm_offset m = None →
  let key := (session_projection_id s, tag_value (session_tag s), session_tenant s) in
  rtask_ok w s (mk_rmonitor (rm_granted m) (Some (w_offsets w !! key)) (rm_fetched m) (rm_seen m)
    (rm_unseen m) (rm_handled m) (rm_renewed m) (rm_marked m) (rm_written m) (rm_released m)).
Proof.
  intros Hw [T1 T2 T3 T4 T5] Hnone. assert (∀ e, e ∈ rm_fetched m → False) as Hno.
  { intros e He. destruct (T2 e He) as (_ & _ & ? & Ho). congruence. }
  constructor; simpl; try done.
  - intros o [= <-]. destruct (w_offsets w !! _) as [o|] eqn:Ho; [by eapply ok_offsets|].
    split; [|by left]. unfold after. simpl. intros e He _ Hle. apply ok_positive in He; [lia|done].
  - intros e He. by destruct (Hno e).
  - intros o e _ _ _ _. right. intros f Hf. by destruct (Hno f).
Qed.

Lemma fetch_ok s w m o n :
  world_ok w → rtask_ok w s m → rm_offset m = Some o → rm_handled m = [] →
  rtask_ok w s (mk_rmonitor (rm_granted m) (rm_offset m)
    (paginate (events_of (tag_value (session_tag s)) w) (session_tenant s) o n) (rm_seen m)
    (rm_unseen m) (rm_handled m) (rm_renewed m) (rm_marked m) (rm_written m) (rm_released m)).
Proof.
  intros Hw [T1 T2 T3 T4 T5] Ho Hnone. constructor; simpl; try done.
  - intros e (?&?&?)%elem_of_paginate. split_and!; [done|done|]. by rewrite Ho.
  - intros o' e Ho' He Hten Hv. assert (o' = o) as -> by congruence.
    destruct (paginate_covers _ _ o n e (ok_sorted _ Hw _) He Hten Hv) as [Hin|Hle]; [by left|].
    set (page := paginate _ _ _ _) in *.
    destruct (decide (Exists (λ f, event_version f = event_version e) page)) as [Hex|Hno].
    + left. apply Exists_exists in Hex as (f & Hf & Heq). apply elem_of_paginate in Hf as Hf'.
      destruct Hf' as (Hf1 & Hf2 & _).
      rewrite <-(ok_versions _ Hw _ f e Hf1 He ltac:(congruence) Heq). done.
    + right. intros f Hf. specialize (Hle f Hf).
      assert (event_version f ≠ event_version e); [|lia]. intros Heq. apply Hno.
      apply Exists_exists. eauto.
  - rewrite Hnone. set_solver.
Qed.

Lemma mark_ok s w m id :
  world_ok w → rtask_ok w s m → id ∈ event_id <$> rm_handled m →
  world_ok (mk_rworld (w_streams w)
    (mark_seen (session_projection_id s) (session_tag s) id (w_dedup w)).2 (w_offsets w) (w_handled w)).
Proof.
  intros [Hs Hv Hi Hp Hh Hd Ho] Ht Hid. constructor; simpl; try done.
  intros p t i [Heq%elem_of_singleton|?]%elem_of_union; [|by apply Hd]. simplify_eq.
  apply list_elem_of_fmap in Hid as (e & -> & He). exists e. by destruct (ok_task_handled _ _ _ Ht e He).
Qed.

Lemma write_ok s w m e :
  world_ok w → rtask_ok w s m → all_known m → last (rm_handled m) = Some e →
  world_ok (mk_rworld (w_streams w) (w_dedup w)
    (write_offset (session_projection_id s) (session_tag s) (session_tenant s)
       (Sequence (event_version e)) (w_offsets w)).2 (w_handled w)).
Proof.
  intros Hw Ht Hk He. pose proof (write_settled s w m e Hw Ht Hk He) as Hset.
  destruct Hw as [Hs Hv Hi Hp Hh Hd Ho]. constructor; simpl; try done.
  intros p t n o Hl. insert_cases Hl; [done|by apply Ho].
Qed.

(** A write to the bookkeeping stores, answered or not. *)
Lemma writes_ok {F A} (good : result F A) w1 w r w' s m m' :
  writes good w1 w r w' → world_ok w → world_ok w1 → extends w w → extends w w1 → rtask_ok w s m →
  (∀ w, rtask_ok w s m → rtask_ok w s m') → extends w w' ∧ world_ok w' ∧ rtask_ok w' s m'.
Proof.
  intros [[-> _]|[-> _]] Hw Hw1 Hx Hx1 Ht Hm; split_and!; try done; apply Hm; [done|].
  by eapply rtask_extends.
Qed.

Lemma answer_ok s w m B (c : rcmd E B) b w' :
  allowed s m B c → answer s w c b w' → world_ok w → rtask_ok w s m →
  extends w w' ∧ world_ok w' ∧ rtask_ok w' s (observe m B c b).
Proof.
  intros Hall Hans Hw Ht. assert (extends w w) as Hrefl by by apply extends_same_streams.
  destruct c; simpl in Hans.
  - destruct Hall as (-> & -> & -> & _ & Hnone). destruct Hans as [-> [->|[e ->]]]; [|done].
    split_and!; [done|done|]. by apply read_ok.
  - destruct Hall as (-> & -> & Ho & -> & _ & _ & Hnone). destruct Hans as [-> [->|[e ->]]]; [|done].
    split_and!; [done|done|]. by apply fetch_ok.
  - destruct Hall as (-> & -> & _). destruct Hans as [-> [->|[e ->]]]; [|done].
    split_and!; [done|done|]. destruct Ht as [T1 T2 T3 T4 T5].
    simpl. case_bool_decide as Hseen; constructor; simpl; try done.
    intros id' [->|?]%elem_of_cons; [by eapply ok_dedup|auto].
  - destruct Hall as (_ & Hsub & Hnone & _). destruct b as [[]|err]; subst w'; [|done].
    by apply handle_ok.
  - destruct Hall as (-> & -> & Hid & _). eapply writes_ok; try done; [by eapply mark_ok|].
    intros w0 []. by destruct b; constructor.
  - destruct Hall as (-> & -> & -> & _ & Hknown & _ & e & Hlast & ->).
    eapply writes_ok; try done; [by eapply write_ok|]. intros w0 []. by destruct b; constructor.
  - subst w'. split_and!; [done|done|]. destruct Ht. by destruct b as [[]|]; constructor.
  - subst w'. split_and!; [done|done|]. destruct Ht. by destruct b; constructor.
  - subst w'. split_and!; [done|done|]. destruct Ht. by constructor.
  - by subst w'.
  - by subst w'.
  - by subst w'.
Qed.

Lemma world_step_ok sys sys' : step sys sys' → rsys_ok sys → rsys_ok sys'.
Proof.
  intros Hstep Hok. destruct Hstep as [e w ts Hf|n s w ts Hn|n t B c k b w w' ts Hn Hp Hans|n w ts].
  - constructor; simpl; [apply world_ok_insert; [done|apply Hok]|].
    apply (task_extends (mk_rsystem w ts)); [done|]. by apply extends_insert.
  - destruct Hok as [Hw Ht]. constructor; simpl in *; [done|]. intros n' t' Hl. insert_cases Hl.
    + split; [|by constructor; simpl; set_solver]. simpl.
      eapply wp_mono; [|apply execute_obeys]. done.
    + by eapply Ht.
  - destruct (ok_tasks _ Hok n t Hn) as [Hwp Ht]. rewrite Hp in Hwp. destruct Hwp as [Hall Hk].
    destruct (answer_ok _ _ _ _ _ _ _ Hall Hans (ok_world _ Hok) Ht) as (Hx & Hw' & Ht').
    constructor; simpl; [done|]. intros n' t' Hl. insert_cases Hl; [split; [by apply Hk|done]|].
    by eapply (task_extends (mk_rsystem w ts)).
  - destruct Hok as [Hw Ht]. constructor; simpl in *; [done|]. intros n' t' Hl. delete_cases Hl.
    by eapply Ht.
Qed.

Lemma world_reachable_ok sys : reachable sys → rsys_ok sys.
Proof.
  intros Hr. assert (rsys_ok (mk_rsystem rworld_new ∅)) as H0.
  { constructor; simpl; [|apply map_Forall_empty].
    constructor; simpl; unfold all_events; intros *; rewrite ?lookup_empty; simpl; try set_solver.
    constructor. }
  induction Hr; eauto using world_step_ok.
Qed.
End system.
Arguments rworld : clear implicits.
Arguments rsystem : clear implicits.
Arguments rtask : clear implicits.

(** ** A session run to its end

    [perform] answers the commands of an unclaimed session from the in-memory stores;
    [handler] is the projection's handler, and [down] says that offset writes fail. *)
Section run.
Context {E : Type} (handler : list (EventStreamElement E) → result ProjectionError unit).
Abbreviation element := (EventStreamElement E).
Abbreviation world := (rworld E).

Definition perform (down : bool) (s : ReadSideSession) (w : world) {B} (c : rcmd E B) : B * world :=
  match c in rcmd _ B return B * world with
  | RReadOffset p t n => (read_offset p t n (w_offsets w), w)
  | RFetch n t o b => (fetch n t o b (w_streams w), w)
  | RSeen p t id => (seen p t id (w_dedup w), w)
  | RHandle es =>
      match handler es with
      | Ok _ => (Ok (), mk_rworld (w_streams w) (w_dedup w) (w_offsets w)
          (w_handled w ++ ((λ e, (session_projection_id s, tag_value (session_tag s), e)) <$> es)))
      | Err e => (Err e, w)
      end
  | RMarkSeen p t id =>
      ((mark_seen p t id (w_dedup w)).1,
       mk_rworld (w_streams w) (mark_seen p t id (w_dedup w)).2 (w_offsets w) (w_handled w))
  | RWriteOffset p t n o =>
      if down then (Err (OTransient "connection lost"), w)
      else ((write_offset p t n o (w_offsets w)).1,
            mk_rworld (w_streams w) (w_dedup w) (write_offset p t n o (w_offsets w)).2 (w_handled w))
  | RTryClaim _ _ _ => (Ok None, w)
  | RRenew _ _ => (Err StaleClaim, w)
  | RRelease _ => (Err StaleClaim, w)
  | RNow => (0%Z, w)
  | RBatchCompleted _ _ _ _ => ((), w)
  | RReportError _ _ => ((), w)
  end.

Lemma poll_answer_performs down s w {B} (c : rcmd E B) :
  answer s w c (perform down s w c).1 (perform down s w c).2.
Proof.
  destruct c; simpl; try done; try (split; [done|by left]).
  - by destruct (handler events) as [[]|].
  - right. split; [done|by left].
  - destruct down; simpl; [left; eauto|right; split; [done|by left]].
Qed.

Fixpoint run (down : bool) (s : ReadSideSession) {A} (p : prog (rcmd E) A) (w : world) : A * world :=
  match p with
  | Ret a => (a, w)
  | Do c k => let '(b, w) := perform down s w c in run down s (k b) w
  end.

Lemma run_bind down s {A B} (p : prog (rcmd E) A) (f : A → prog (rcmd E) B) w :
  run down s (bind p f) w = let '(a, w) := run down s p w in run down s (f a) w.
Proof.
  revert w. induction p as [a|C c k IH]; intros w; simpl; [done|].
  destruct (perform down s w c) as [b w1]. apply IH.
Qed.

(** A run is a sequence of steps of its task. *)
Lemma run_steps down s p w n m ts :
  ∃ m', rtc step (mk_rsystem w (<[n := mk_rtask s p m]> ts))
    (mk_rsystem (run down s p w).2 (<[n := mk_rtask s (Ret (run down s p w).1) m']> ts)).
Proof.
  revert w m. induction p as [a|B c k IH]; intros w m; simpl; [by exists m; auto with ego|].
  pose proof (poll_answer_performs down s w c) as Hans. destruct (perform down s w c) as [b w1] eqn:Hc.
  destruct (IH b w1 (observe m B c b)) as [m' Hr]. exists m'. eapply rtc_l; [|exact Hr].
  rewrite <-(insert_insert_eq ts n (mk_rtask s (k b) (observe m B c b)) (mk_rtask s (Do c k) m)).
  by eapply (step_task n (mk_rtask s (Do c k) m)); [rewrite lookup_insert_eq| |].
Qed.

Lemma reachable_run down s w ts n :
  ts !! n = None → reachable (mk_rsystem w ts) →
  reachable (mk_rsystem (run down s (execute s) w).2 ts).
Proof.
  intros Hn Hr. destruct (run_steps down s (execute s) w n rmonitor0 ts) as [m' Hsteps].
  eapply rtc_r; [transitivity (mk_rsystem w (<[n := mk_rtask s (execute s) rmonitor0]> ts)); [|exact Hsteps]; eapply rtc_r; [exact Hr|by constructor]|].
  rewrite <-(delete_insert_id ts n (mk_rtask s (Ret (run down s (execute s) w).1) m')) at 2 by done.
  constructor.
Qed.

(** The page a session is about to fetch. *)
Definition page (s : ReadSideSession) (w : world) : list element :=
  paginate (all_events (tag_value (session_tag s)) (w_streams w)) (session_tenant s)
    (w_offsets w !! (session_projection_id s, tag_value (session_tag s), session_tenant s))
    (batch_size (session_config s)).

Definition mark (s : ReadSideSession) (e : element) : DedupKey :=
  (session_projection_id s, tag_value (session_tag s), event_id e).

Definition marks (s : ReadSideSession) (es : list element) (d : gset DedupKey) : gset DedupKey :=
  foldl (λ d e, {[ mark s e ]} ∪ d) d es.

Lemma elem_of_marks s es d x : x ∈ marks s es d ↔ x ∈ mark s <$> es ∨ x ∈ d.
Proof.
  clear handler. unfold marks. revert d. induction es as [|e es IH]; intros d; simpl; [set_solver|].
  rewrite IH. set_solver.
Qed.

Lemma run_filter_duplicates down s us es (w : world) :
  run down s (filter_duplicates s us es) w
  = (Ok (us ++ filter (λ e, mark s e ∉ w_dedup w) es), w).
Proof.
  revert us. induction es as [|e es IH]; intros us; [by simpl; rewrite app_nil_r|].
  cbn [filter_duplicates]. rewrite run_bind. simpl. rewrite filter_cons.
  case_bool_decide as He; rewrite IH; case_decide as Hd; try done.
  by rewrite <-app_assoc.
Qed.

Lemma run_mark_all down s es (w : world) :
  run down s (mark_all s es) w
  = (Ok (), mk_rworld (w_streams w) (marks s es (w_dedup w)) (w_offsets w) (w_handled w)).
Proof.
  revert w. induction es as [|e es IH]; intros w; [by destruct w|].
  cbn [mark_all]. rewrite run_bind. simpl. by rewrite IH.
Qed.

(** The three ways a batch of an unclaimed session ends. *)
Lemma run_seen down s (w : world) :
  session_claiming s = None → (∀ e, e ∈ page s w → mark s e ∈ w_dedup w) →
  run down s (execute s) w = (Ok None, w).
Proof.
  intros Hc Hseen. unfold execute. rewrite Hc. unfold run_batch. rewrite run_bind. simpl.
  change (paginate _ _ _ _) with (page s w). destruct (page s w) as [|e es] eqn:Hp; [done|].
  rewrite run_bind. cbv beta iota. rewrite run_filter_duplicates.
  assert (filter (λ e, mark s e ∉ w_dedup w) (e :: es) = []) as ->; [|done].
  apply list_filter_none. intros x Hx Hn. apply Hn, Hseen, Hx.
Qed.

(** A batch of unseen events that the handler accepts. *)
Lemma run_fresh down s (w : world) e es :
  session_claiming s = None → page s w = e :: es → handler (e :: es) = Ok () →
  (∀ x, x ∈ e :: es → mark s x ∉ w_dedup w) →
  let key := (session_projection_id s, tag_value (session_tag s), session_tenant s) in
  let offset := Sequence (event_version (last_event e es)) in
  run down s (execute s) w
  = (if down then Err (PTransient "write offset failed: transient offset store error: connection lost")
     else Ok (Some offset),
     mk_rworld (w_streams w) (marks s (e :: es) (w_dedup w))
       (if down then w_offsets w else <[key := offset]> (w_offsets w))
       (w_handled w ++ ((λ e, (session_projection_id s, tag_value (session_tag s), e)) <$> e :: es))).
Proof.
  intros Hc Hp Hh Hun key offset. unfold execute. rewrite Hc. unfold run_batch. rewrite run_bind. simpl.
  change (paginate _ _ _ _) with (page s w). rewrite Hp. cbv beta iota.
  rewrite run_bind, run_filter_duplicates.
  rewrite list_filter_all by done. cbn [app]. cbv beta iota. cbn [run perform].
 
  rewrite Hh. cbv beta iota. unfold commit_batch, reverify. rewrite Hc. cbn [bind].
  rewrite run_bind, run_mark_all. cbv beta iota. by destruct down.
Qed.

(** A batch the handler refuses leaves the stores alone. *)
Lemma run_refused down s (w : world) e es err :
  session_claiming s = None → page s w = e :: es → handler (e :: es) = Err err →
  (∀ x, x ∈ e :: es → mark s x ∉ w_dedup w) →
  run down s (execute s) w = (Err err, w).
Proof.
  intros Hc Hp Hh Hun. unfold execute. rewrite Hc. unfold run_batch. rewrite run_bind. simpl.
  change (paginate _ _ _ _) with (page s w). rewrite Hp. cbv beta iota.
  rewrite run_bind, run_filter_duplicates. rewrite list_filter_all by done. cbn [app].
  cbv beta iota. cbn [run perform]. by rewrite Hh.
Qed.

(** [n] successful polls of one session. *)
Definition poll (s : ReadSideSession) (w : world) : world := (run false s (execute s) w).2.

(** *** Catching up *)
Abbreviation increasing := (StronglySorted (λ a b : element, event_version a < event_version b)%Z).

Lemma filter_above l n :
  increasing l →
  (∀ e, e ∈ l → (1 ≤ event_version e)%Z) →
  filter (λ e, default 0 (event_version <$> last (take n l)) < event_version e)%Z l = drop n l.
Proof.
  intros Hs. revert n. induction Hs as [|x l Hs IH Hx]; intros n Hpos; [by destruct n|].
  destruct n as [|n]; simpl.
  - apply list_filter_all. intros e He. specialize (Hpos e He). lia.
  - assert (∀ e, e ∈ l → (event_version x < event_version e)%Z) as Hlt
      by (intros e He; by eapply Forall_forall in Hx).
    rewrite last_cons. specialize (IH n (λ e He, Hpos e (list_elem_of_further _ _ _ He))).
    destruct (last (take n l)) as [y|] eqn:Hy; simpl in *.
    + assert (y ∈ l) as Hyl by (apply last_Some_elem_of, elem_of_take in Hy as (i & Hi & _);
        by eapply list_elem_of_lookup_2).
      rewrite filter_cons_False; [done|]. specialize (Hlt y Hyl). lia.
    + rewrite filter_cons_False by lia. rewrite list_filter_all by done.
      destruct n as [|n]; [done|]. destruct l as [|y l]; [done|]. simpl in Hy.
      rewrite last_cons in Hy. by destruct (last (take n l)).
Qed.

(** The events a session is for. *)
Definition own_events (s : ReadSideSession) (w : world) : list element :=
  filter (λ e, tenant_id e = session_tenant s)
    (all_events (tag_value (session_tag s)) (w_streams w)).

Definition own (s : ReadSideSession) (e : element) : string * string * element :=
  (session_projection_id s, tag_value (session_tag s), e).

(** The session has handled the first [n] of its events, since [w0]. *)
Record progress (s : ReadSideSession) (w0 : world) (n : nat) (w : world) : Prop := mk_progress {
  pr_streams : w_streams w = w_streams w0;
  pr_offset : w_offsets w !! (session_projection_id s, tag_value (session_tag s), session_tenant s)
    = (λ e, Sequence (event_version e)) <$> last (take n (own_events s w0));
  pr_dedup : ∀ e, e ∈ drop n (own_events s w0) → mark s e ∉ w_dedup w;
  pr_handled : w_handled w = w_handled w0 ++ (own s <$> take n (own_events s w0));
}.

(** A stream as the documentation has it: versions from one up, increasing for the
    tenant, and identifiers that are unique. *)
Definition well_versioned (l : list element) : Prop :=
  increasing l ∧ (∀ e, e ∈ l → (1 ≤ event_version e)%Z) ∧ NoDup (event_id <$> l).

Lemma page_progress s w0 n w :
  well_versioned (own_events s w0) → is_blank (session_tenant s) = false → progress s w0 n w →
  page s w = take (batch_size (session_config s)) (drop n (own_events s w0)).
Proof.
  intros (Hinc & Hpos & _) Hb [Hs Ho _ _]. unfold page, paginate. rewrite Hb, Ho, Hs. f_equal.
  rewrite <-(filter_above _ n Hinc Hpos). generalize (last (take n (own_events s w0))). intros o.
  unfold own_events. rewrite list_filter_filter.
  apply list_filter_iff. intros e. unfold after. destruct o; simpl; tauto.
Qed.

Lemma poll_progress s w0 n w :
  (∀ es, handler es = Ok ()) → session_claiming s = None → is_blank (session_tenant s) = false →
  well_versioned (own_events s w0) → progress s w0 n w →
  progress s w0 (n + batch_size (session_config s)) (poll s w).
Proof.
  intros Hh Hc Hb Hwv Hpr. pose proof (page_progress s w0 n w Hwv Hb Hpr) as Hpage.
  set (b := batch_size (session_config s)) in *. set (l := own_events s w0) in *.
  destruct Hpr as [Hs Ho Hd Hhan]. fold l in Ho, Hd, Hhan.
  assert (take (n + b) l = take n l ++ take b (drop n l)) as Htake by by rewrite take_take_drop.
  unfold poll. destruct (take b (drop n l)) as [|e es] eqn:Hbatch.
  - rewrite run_seen by (rewrite ?Hpage; set_solver). rewrite app_nil_r in Htake. simpl.
    constructor; fold l; rewrite ?Htake; try done.
    intros e He. apply Hd. rewrite <-drop_drop in He. by eapply elem_of_sublist, sublist_drop.
  - assert (∀ x, x ∈ e :: es → x ∈ drop n l) as Hsub.
    { intros x Hx. rewrite <-Hbatch in Hx. by eapply elem_of_sublist, sublist_take. }
    rewrite (run_fresh false s w e es) by (try done; intros x Hx; auto). constructor; fold l; simpl.
    + done.
    + rewrite lookup_insert_eq, Htake, last_app, last_cons. unfold last_event.
      by destruct (last es).
    + intros x Hx Hin. apply (elem_of_marks s (e :: es)) in Hin as [Hm|Hin].
      * apply list_elem_of_fmap in Hm as (y & Hy & Hye). unfold mark in Hy. simplify_eq.
        destruct Hwv as (_ & _ & Hnd). fold l in Hnd.
        rewrite <-(take_drop (n + b) l), fmap_app in Hnd. apply NoDup_app in Hnd as (_ & Hdis & _).
        apply (Hdis (event_id x)); apply list_elem_of_fmap; [|by exists x].
        exists y. split; [done|]. rewrite Htake. set_solver.
      * revert Hin. apply Hd. rewrite <-drop_drop in Hx. by eapply elem_of_sublist, sublist_drop.
    + by rewrite Hhan, Htake, fmap_app, <-app_assoc.
Qed.

Lemma polls_progress s w k :
  (∀ es, handler es = Ok ()) → session_claiming s = None → is_blank (session_tenant s) = false →
  well_versioned (own_events s w) → progress s w 0 w →
  progress s w (k * batch_size (session_config s)) (Nat.iter k (poll s) w).
Proof.
  intros Hh Hc Hb Hwv Hpr. induction k as [|k IH]; [done|].
  replace (S k * batch_size (session_config s)) with
    (k * batch_size (session_config s) + batch_size (session_config s)) by lia.
  by apply poll_progress.
Qed.

(** *** A batch marked but not recorded *)
Definition arrive (e : element) (w : world) : world :=
  mk_rworld (store_insert e (w_streams w)) (w_dedup w) (w_offsets w) (w_handled w).

(** Events arrive, one after the other. *)
Inductive arrives : world → world → Prop :=
| arrives_refl w : arrives w w
| arrives_step e w w' : fresh_event e w → arrives (arrive e w) w' → arrives w w'.

Abbreviation ordered := (StronglySorted (λ a b : element, event_version a ≤ event_version b)%Z).

(** An event that is the last of its kind goes to the end of a filtered stream. *)
Lemma filter_insert_last (P : element → Prop) `{!∀ x, Decision (P x)} e l :
  ordered l → (∀ f, f ∈ l → P f → P e → (event_version f ≤ event_version e)%Z) →
  filter P (insert_sorted e l) = filter P l ++ (if decide (P e) then [e] else []).
Proof.
  induction 1 as [|f l Hs IH Hf]; intros Hl; cbn [insert_sorted].
  { rewrite filter_cons, filter_nil. by case_decide. }
  destruct (decide (event_version e < event_version f)%Z) as [Hlt|].
  - rewrite filter_cons. destruct (decide (P e)) as [He|]; [|by rewrite app_nil_r].
    rewrite (list_filter_none P (f :: l)); [done|]. intros g Hg Hpg. specialize (Hl g Hg Hpg He).
    apply elem_of_cons in Hg as [->|Hg]; [lia|]. eapply Forall_forall in Hf; [|done]. simpl in Hf. lia.
  - rewrite !filter_cons. rewrite IH by set_solver. by destruct (decide (P f)).
Qed.

Lemma take_filter_insert (P : element → Prop) `{!∀ x, Decision (P x)} e t b ss :
  (∀ u, ordered (all_events u ss)) →
  (∀ u f, u ∈ tags e → f ∈ all_events (tag_value u) ss → P f → P e →
     (event_version f ≤ event_version e)%Z) →
  b ≤ length (filter P (all_events t ss)) →
  take b (filter P (all_events t (store_insert e ss))) = take b (filter P (all_events t ss)).
Proof.
  unfold store_insert. revert ss. induction (tags e) as [|u us IH]; intros ss Hs Hv Hb; [done|].
  cbn [foldl].
  assert (∃ tl, filter P (all_events t (<[tag_value u := insert_sorted e (all_events (tag_value u) ss)]> ss))
    = filter P (all_events t ss) ++ tl) as [tl Htl].
  { rewrite all_events_insert. case_decide; subst; [|exists []; by rewrite app_nil_r].
    rewrite filter_insert_last; eauto. intros f. apply Hv. set_solver. }
  rewrite IH, Htl; [by rewrite take_app_le| | |rewrite Htl, length_app; lia].
  - intros x. rewrite all_events_insert. case_decide; auto using insert_sorted_sorted.
  - intros x f Hx. rewrite all_events_insert.
    case_decide as Heq; [rewrite elem_of_insert_sorted; intros [->|Hf]|]; [lia| |].
    + rewrite <-Heq in Hf. apply (Hv x); set_solver.
    + intros Hf. apply (Hv x); set_solver.
Qed.

Lemma page_arrive s e w :
  (∀ t, ordered (all_events t (w_streams w))) → fresh_event e w →
  length (page s w) = batch_size (session_config s) → page s (arrive e w) = page s w.
Proof.
  intros Hs (_ & _ & Hv) Hlen. unfold page, paginate in *. simpl. case_match; [done|].
  rewrite length_take in Hlen. apply take_filter_insert; [done| |lia].
  intros u f Hu Hf [Ht _] [Ht' _]. enough (event_version f < event_version e)%Z by lia.
  apply (Hv u); [done|done|congruence].
Qed.

(** A full page that is marked is all a session ever fetches. *)
Lemma stalled s w w' k :
  session_claiming s = None → (∀ t, ordered (all_events t (w_streams w))) →
  length (page s w) = batch_size (session_config s) → (∀ e, e ∈ page s w → mark s e ∈ w_dedup w) →
  arrives w w' →
  run false s (execute s) (Nat.iter k (poll s) w') = (Ok None, w').
Proof.
  intros Hc Hs Hlen Hm Har. revert Hs Hlen Hm. induction Har as [w|e w w' Hf _ IH]; intros Hs Hlen Hm.
  - assert (run false s (execute s) w = (Ok None, w)) as Hrun by by apply run_seen.
    assert (Nat.iter k (poll s) w = w) as ->; [|done].
    induction k as [|k IH]; [done|]. simpl. rewrite IH. unfold poll. by rewrite Hrun.
  - assert (page s (arrive e w) = page s w) as Hp by by apply page_arrive. apply IH.
    + simpl. by apply store_insert_sorted.
    + by rewrite Hp.
    + rewrite Hp. done.
Qed.
End run.

(** ** The tag scheduler

    One poll visits the tags in order; a session that fails ends it. *)
Section scheduler.
Context {E : Type}.

(** [ProjectionState] of the scheduler: written, never read. *)
Record ActiveProjection := mk_active { active_tags : list EventTag; is_running : bool }.

Record TagScheduler := mk_scheduler {
  sched_config : ReadSideConfig;
  sched_active : gmap string ActiveProjection;
  sched_claiming : option ReadSideClaiming;
}.

Definition TagScheduler_new (config : ReadSideConfig) : TagScheduler := mk_scheduler config ∅ None.

(** Commands of a poll: the two uses of the semaphore, and those of a session. *)
Inductive tcmd : Type → Type :=
| TCanProcess : tcmd bool
| TAcquire : tcmd (result string unit)
| TSession {B} (s : ReadSideSession) (c : rcmd E B) : tcmd B.

Fixpoint in_session {A} (s : ReadSideSession) (p : prog (rcmd E) A) : prog tcmd A :=
  match p with
  | Ret a => Ret a
  | Do c k => Do (TSession s c) (λ b, in_session s (k b))
  end.

(** [BatchExecutor::execute_session] *)
Definition execute_session (s : ReadSideSession) : prog tcmd (result string unit) :=
  let! permit := exec TAcquire in
  match permit with
  | Err e => Ret (Err e)
  | Ok _ =>
      let! r := in_session s (execute s) in
      match r with
      | Ok _ => Ret (Ok ())
      | Err e => Ret (Err (ProjectionError_to_string e))
      end
  end.

Definition tag_session (self : TagScheduler) (projection_id : string) (tag : EventTag)
    (tenant : string) : ReadSideSession :=
  let session := create_session (sched_config self) projection_id tag tenant in
  match sched_claiming self with
  | Some claiming => with_claiming claiming session
  | None => session
  end.

Fixpoint visit_tags (self : TagScheduler) (projection_id : string)
    (tags : list (EventTag * string)) : prog tcmd (result string unit) :=
  match tags with
  | [] => Ret (Ok ())
  | (tag, tenant) :: tags =>
      let! can := exec TCanProcess in
      match can with
      | true =>
          let! r := execute_session (tag_session self projection_id tag tenant) in
          match r with
          | Err e => Ret (Err e)
          | Ok _ => visit_tags self projection_id tags
          end
      | false => visit_tags self projection_id tags
      end
  end.

(** [TagSchedulerImpl::start_projection] *)
Definition start_projection (self : TagScheduler) (projection_id : string)
    (tags : list (EventTag * string)) : TagScheduler * prog tcmd (result string unit) :=
  (mk_scheduler (sched_config self)
     (<[projection_id := mk_active tags.*1 true]> (sched_active self)) (sched_claiming self),
   visit_tags self projection_id tags).

(** A poll over the in-memory stores; nothing else holds a permit of the scheduler's
    semaphore while it runs. *)
Context (handler : list (EventStreamElement E) → result ProjectionError unit).

Definition tperform (permits : nat) (w : rworld E) {B} (c : tcmd B) : B * rworld E :=
  match c in tcmd B return B * rworld E with
  | TCanProcess => (bool_decide (0 < permits), w)
  | TAcquire => (Ok (), w)
  | TSession s c => perform handler false s w c
  end.

Fixpoint trun (permits : nat) {A} (p : prog tcmd A) (w : rworld E) : A * rworld E :=
  match p with
  | Ret a => (a, w)
  | Do c k => let '(b, w) := tperform permits w c in trun permits (k b) w
  end.

Lemma trun_bind permits {A B} (p : prog tcmd A) (f : A → prog tcmd B) w :
  trun permits (bind p f) w = let '(a, w) := trun permits p w in trun permits (f a) w.
Proof.
  revert w. induction p as [a|C c k IH]; intros w; simpl; [done|].
  destruct (tperform permits w c) as [b w1]. apply IH.
Qed.

Lemma trun_in_session permits s {A} (p : prog (rcmd E) A) w :
  trun permits (in_session s p) w = run handler false s p w.
Proof.
  revert w. induction p as [a|C c k IH]; intros w; simpl; [done|].
  destruct (perform handler false s w c) as [b w1]. apply IH.
Qed.

Lemma trun_visit permits self pid tag tenant tags w :
  0 < permits →
  trun permits (visit_tags self pid ((tag, tenant) :: tags)) w
  = let s := tag_session self pid tag tenant in
    let '(r, w) := run handler false s (execute s) w in
    match r with
    | Err e => (Err (ProjectionError_to_string e), w)
    | Ok _ => trun permits (visit_tags self pid tags) w
    end.
Proof.
  intros Hp. cbn [visit_tags]. rewrite trun_bind. cbn [trun exec tperform].
  rewrite bool_decide_eq_true_2 by done. rewrite trun_bind. unfold execute_session.
  rewrite trun_bind. cbn [trun exec tperform]. cbv beta iota zeta.
  rewrite trun_bind, trun_in_session.
  destruct (run handler false _ _ w) as [[o|e] w1]; done.
Qed.

(** What a poll does to the stores. *)
Definition poll_projection (self : TagScheduler) (pid : string) (tags : list (EventTag * string))
    (w : rworld E) : rworld E :=
  (trun (max_in_flight (sched_config self)) (start_projection self pid tags).2 w).2.
End scheduler.
Arguments tcmd : clear implicits.

(** ** The poll loop of [TagSchedulerImpl::spawn]

    The task alternates between the check at the top, a poll and the [select!]; the
    handle's [watch] channel may be set or dropped at any time, and the task aborted. *)
Inductive LoopPhase := AtTop | InPoll | AtSelect | Exited.

Record poll_loop := mk_loop {
  lp_phase : LoopPhase;
  lp_stop : bool;     (* the value of the channel *)
  lp_changed : bool;  (* a value the receiver has not seen *)
  lp_sender : bool;   (* the sender is alive *)
  lp_polls : nat;     (* polls started *)
}.
Definition loop_start : poll_loop := mk_loop AtTop false false true 0.

Inductive loop_step : poll_loop → poll_loop → Prop :=
| loop_top_stop c s n : loop_step (mk_loop AtTop true c s n) (mk_loop Exited true c s n)
| loop_top_poll c s n : loop_step (mk_loop AtTop false c s n) (mk_loop InPoll false c s (S n))
| loop_polled v c s n : loop_step (mk_loop InPoll v c s n) (mk_loop AtSelect v c s n)
| loop_slept v c s n : loop_step (mk_loop AtSelect v c s n) (mk_loop AtTop v c s n)
| loop_changed_stop s n : loop_step (mk_loop AtSelect true true s n) (mk_loop Exited true false s n)
| loop_changed_other s n : loop_step (mk_loop AtSelect false true s n) (mk_loop AtTop false false s n)
| loop_disconnected v n : loop_step (mk_loop AtSelect v false false n) (mk_loop Exited v false false n)
| loop_send p v c n : loop_step (mk_loop p v c true n) (mk_loop p true true true n)
| loop_drop p v c n : loop_step (mk_loop p v c true n) (mk_loop p v c false n)
| loop_abort p v c s n : loop_step (mk_loop p v c s n) (mk_loop Exited v c s n).

(** What [ReadSideProjectionHandle::stop] reports. *)
Inductive ReadSideStopOutcome := Stopped | PanickedTask (error : string) | TimedOut.
Definition stop_outcome (joined : option (result string unit)) : ReadSideStopOutcome :=
  match joined with
  | Some (Ok _) => Stopped
  | Some (Err e) => PanickedTask e
  | None => TimedOut
  end.

Lemma stopped_starts_no_poll l l' :
  rtc loop_step l l' → lp_stop l = true → lp_stop l' = true ∧ lp_polls l' = lp_polls l.
Proof.
  induction 1 as [|l1 l2 l3 Hstep _ IH]; intros Hs; [done|].
  enough (lp_stop l2 = true ∧ lp_polls l2 = lp_polls l1) as [H1 <-] by auto.
  destruct Hstep; simpl in *; by simplify_eq.
Qed.

(** ** Properties *)

(** C12: A projection never skips an event.  In every reachable state of any number of
    sessions of any projections, whatever the interleaving, with calls that fail
    before or after taking effect, tasks that die anywhere and events that keep
    arriving, each, as the read side documents, with a fresh identifier and a version
    above those of its tags' streams, every event of a tenant's tag stream at or below the offset stored for
    it was accepted by that projection's handler, and so was every event marked as
    seen. *)
Theorem projection_never_skips {E} (sys : rsystem E) p t n :
  reachable sys →
  (∀ v e, w_offsets (sys_world sys) !! (p, t, n) = Some (Sequence v) →
     e ∈ all_events t (w_streams (sys_world sys)) → tenant_id e = n → (event_version e ≤ v)%Z →
     (p, t, e) ∈ w_handled (sys_world sys)) ∧
  (∀ id, (p, t, id) ∈ w_dedup (sys_world sys) →
     ∃ e, (p, t, e) ∈ w_handled (sys_world sys) ∧ event_id e = id).
Proof.
  intros Hr. destruct (ok_world _ (world_reachable_ok _ Hr)) as [_ _ _ _ _ Hd Ho]. split.
  - intros v e Hv. exact (proj1 (Ho _ _ _ _ Hv) e).
  - intros id. apply Hd.
Qed.

(** C13: A projection catches up, in order and exactly once.  Over the in-memory stores,
    with a handler that accepts, [k] executions of a session hand over exactly the
    first [k * batch_size] events of its tenant's tag stream, each once and in order,
    and the stored offset is the version of the last of them. *)
Theorem projection_drains {E} (handler : list (EventStreamElement E) → result ProjectionError unit)
    (s : ReadSideSession) (w : rworld E) k :
  (∀ es, handler es = Ok ()) → session_claiming s = None → is_blank (session_tenant s) = false →
  well_versioned (own_events s w) →
  w_offsets w !! (session_projection_id s, tag_value (session_tag s), session_tenant s) = None →
  (∀ e, e ∈ own_events s w → mark s e ∉ w_dedup w) →
  let n := k * batch_size (session_config s) in
  let w' := Nat.iter k (poll handler s) w in
  w_handled w' = w_handled w ++ (own s <$> take n (own_events s w)) ∧
  w_offsets w' !! (session_projection_id s, tag_value (session_tag s), session_tenant s)
    = (λ e, Sequence (event_version e)) <$> last (take n (own_events s w)).
Proof.
  intros Hh Hc Hb Hwv Ho Hd n w'. assert (progress s w 0 w) as Hpr.
  { constructor; rewrite ?take_0, ?drop_0; simpl; try done. by rewrite app_nil_r. }
  destruct (polls_progress handler s w k Hh Hc Hb Hwv Hpr) as [_ H1 _ H2]. done.
Qed.

(** One lost offset write stops a projection for good.  If the offset write of a full
    batch fails, after the batch was handled and marked, then every later execution
    fetches the same batch, finds it all seen and returns without advancing, whatever
    events arrive: nothing after the batch is ever handled. *)
Lemma lost_offset_write_stalls {E}
    (handler : list (EventStreamElement E) → result ProjectionError unit)
    (s : ReadSideSession) (w : rworld E) e es w' k :
  session_claiming s = None → handler (e :: es) = Ok () →
  (∀ t, StronglySorted (λ a b, event_version a ≤ event_version b)%Z (all_events t (w_streams w))) →
  page s w = e :: es → length (e :: es) = batch_size (session_config s) →
  (∀ x, x ∈ e :: es → mark s x ∉ w_dedup w) →
  arrives (run handler true s (execute s) w).2 w' →
  run handler false s (execute s) (Nat.iter k (poll handler s) w') = (Ok None, w').
Proof.
  intros Hc Hh Hs Hp Hlen Hun Har. rewrite (run_fresh handler true s w e es) in Har by done.
  cbn [snd] in Har. eapply stalled; [done| | | |exact Har]; [done| |];
    change (page s (mk_rworld _ _ _ _)) with (page s w); rewrite Hp; [done|].
  intros x Hx. cbn [w_dedup]. apply (proj2 (elem_of_marks s (e :: es) (w_dedup w) (mark s x))). left.
  by apply list_elem_of_fmap_2.
Qed.

(** A tag that fails starves the tags after it.  If the handler refuses the next batch
    of the first tag, then no number of polls handles anything at all, whatever the
    tags that follow and their events. *)
Lemma failing_tag_starves_later_tags {E}
    (handler : list (EventStreamElement E) → result ProjectionError unit)
    (self : TagScheduler) pid tag tenant later (w : rworld E) e es err k :
  sched_claiming self = None → 0 < max_in_flight (sched_config self) →
  page (tag_session self pid tag tenant) w = e :: es → handler (e :: es) = Err err →
  (∀ x, x ∈ e :: es → mark (tag_session self pid tag tenant) x ∉ w_dedup w) →
  Nat.iter k (poll_projection handler self pid ((tag, tenant) :: later)) w = w.
Proof.
  intros Hc Hmax Hp Hh Hun. induction k as [|k IH]; [done|]. simpl. rewrite IH.
  unfold poll_projection, start_projection. cbn [snd]. rewrite trun_visit by done. cbv zeta.
  rewrite (run_refused _ _ _ _ e es err); try done. unfold tag_session. by rewrite Hc.
Qed.

Module Example_orders.
Definition tag : EventTag := mk_tag "orders".
Definition event (i : string) (v : Z) : EventStreamElement unit :=
  mk_element i "order-1" "acme" "OrderPlaced" () v 0 [tag].
Definition s : ReadSideSession :=
  create_session (mk_read_config 2 10 4) "totals" tag "acme".
Definition accept_all (es : list (EventStreamElement unit)) : result ProjectionError unit := Ok ().
Definition reject_all (es : list (EventStreamElement unit)) : result ProjectionError unit :=
  Err (PoisonEvent "bad").
Definition w1 : rworld unit := arrive (event "a" 1) rworld_new.
Definition w2 : rworld unit := arrive (event "b" 2) w1.
Definition w3 : rworld unit := arrive (event "c" 5) w2.

Lemma events_w1 t : all_events t (w_streams w1) = if decide (t = "orders") then [event "a" 1] else [].
Proof. unfold w1, arrive, store_insert. simpl. by rewrite all_events_insert. Qed.
Lemma events_w2 t :
  all_events t (w_streams w2) = if decide (t = "orders") then [event "a" 1; event "b" 2] else [].
Proof.
  unfold w2, arrive, store_insert. simpl. rewrite all_events_insert.
  case_decide; [done|]. rewrite events_w1. by case_decide.
Qed.
Lemma events_w3 t :
  all_events t (w_streams w3)
  = if decide (t = "orders") then [event "a" 1; event "b" 2; event "c" 5] else [].
Proof.
  unfold w3, arrive, store_insert. simpl. rewrite all_events_insert.
  case_decide; [done|]. rewrite events_w2. by case_decide.
Qed.

Lemma fresh_a : fresh_event (event "a" 1) rworld_new.
Proof. split_and!; [done| |]; intros t f; unfold all_events; simpl; rewrite lookup_empty; set_solver. Qed.
Lemma fresh_b : fresh_event (event "b" 2) w1.
Proof.
  split_and!; [done| |].
  - intros t f. rewrite events_w1. case_decide; [|set_solver]. by intros ->%list_elem_of_singleton.
  - intros t f _. rewrite events_w1. case_decide; [|set_solver]. by intros ->%list_elem_of_singleton.
Qed.

Lemma reachable_w2 : reachable (mk_rsystem w2 ∅).
Proof.
  eapply rtc_r; [|apply step_event, fresh_b]. eapply rtc_r; [apply rtc_refl|].
  apply step_event, fresh_a.
Qed.

(** After one batch both events are below the offset, and handled. *)
Lemma projection_never_skips_witness :
  ("totals", "orders", event "b" 2) ∈ w_handled (poll accept_all s w2).
Proof.
  assert (reachable (mk_rsystem (poll accept_all s w2) ∅)) as Hr
    by (apply (reachable_run accept_all false s w2 ∅ 0); [done|apply reachable_w2]).
  apply (proj1 (projection_never_skips _ "totals" "orders" "acme" Hr) 2%Z (event "b" 2));
    [vm_compute; reflexivity| |done|done].
  vm_compute. right. left.
Defined.

Lemma own_events_w3 : own_events s w3 = [event "a" 1; event "b" 2; event "c" 5].
Proof. unfold own_events. by rewrite events_w3. Qed.

Lemma well_versioned_w3 : well_versioned (own_events s w3).
Proof.
  rewrite own_events_w3. split_and!.
  - repeat constructor.
  - intros e He. repeat (apply elem_of_cons in He as [->|He]; [done|]). set_solver.
  - by apply (bool_decide_unpack _).
Qed.

Lemma projection_drains_witness :
  w_handled (Nat.iter 2 (poll accept_all s) w3)
  = [("totals", "orders", event "a" 1); ("totals", "orders", event "b" 2);
     ("totals", "orders", event "c" 5)] ∧
  w_offsets (Nat.iter 2 (poll accept_all s) w3) !! ("totals", "orders", "acme") = Some (Sequence 5).
Proof.
  destruct (projection_drains accept_all s w3 2) as [H1 H2]; [done|done|done|apply well_versioned_w3
    |done|intros e _; apply not_elem_of_empty|].
  rewrite own_events_w3 in H1, H2. split; [exact H1|exact H2].
Defined.

Lemma ordered_w2 t :
  StronglySorted (λ a b, event_version a ≤ event_version b)%Z (all_events t (w_streams w2)).
Proof. rewrite events_w2. case_decide; repeat constructor; simpl; lia. Qed.

Lemma page_w2 : page s w2 = [event "a" 1; event "b" 2].
Proof. unfold page. by rewrite events_w2. Qed.

Definition lost : rworld unit := (run accept_all true s (execute s) w2).2.

Lemma fresh_c : fresh_event (event "c" 5) lost.
Proof.
  assert (w_streams lost = w_streams w2) as Hs by (vm_compute; reflexivity).
  split_and!; [done| |]; intros t f; rewrite Hs, events_w2; case_decide; set_solver.
Qed.

(** The third event is never handled. *)
Lemma lost_offset_write_stalls_witness :
  ∀ k, run accept_all false s (execute s) (Nat.iter k (poll accept_all s) (arrive (event "c" 5) lost))
       = (Ok None, arrive (event "c" 5) lost).
Proof.
  intros k. apply (lost_offset_write_stalls accept_all s w2 (event "a" 1) [event "b" 2]).
  - done.
  - done.
  - apply ordered_w2.
  - apply page_w2.
  - done.
  - intros x _. apply not_elem_of_empty.
  - eapply arrives_step; [apply fresh_c|constructor].
Defined.

Definition scheduler : TagScheduler := TagScheduler_new (mk_read_config 2 10 4).

Lemma failing_tag_starves_later_tags_witness :
  ∀ k, Nat.iter k (poll_projection reject_all scheduler "totals"
         [(tag, "acme"); (mk_tag "payments", "acme")]) w2 = w2.
Proof.
  intros k. apply (failing_tag_starves_later_tags reject_all scheduler "totals" tag "acme" _ w2
    (event "a" 1) [event "b" 2] (PoisonEvent "bad")).
  - done.
  - simpl. lia.
  - apply page_w2.
  - done.
  - intros x _. apply not_elem_of_empty.
Defined.
End Example_orders.
