(* ===== verification/ActivationScheduler.v ===== *)
(** * The activation scheduler

    Actors report to the scheduler over a bounded bus that drops what does not fit
    (crates/persistent-entity, scheduler_event.rs, scheduler.rs,
    scheduler_policy.rs).  [emit] is two atomic actions, the sequence number and the
    enqueue, so that emitters may overtake each other; the scheduler drains the bus
    item by item under its lock and folds what it drained into its state. *)

From S2P Require Import Prelude Lifecycle Actor.

Definition DEFAULT_REPLAY_BUFFER_CAPACITY : nat := 1024.
Definition DEFAULT_EVENT_BUS_CAPACITY : nat := 4096.

(** [BusItem]: the sequence number and the event. *)
Abbreviation BusItem := (Z * SchedulerEvent)%type.

(** ** The scheduler's state *)
Record SchedulerState := mk_sched_state {
  total_events_consumed : Z;
  last_drain_count : nat;
  last_sequence_id : option Z;
  detected_gaps : Z;
  last_suggestion : option EntityTriple;
  replay_buffer : list BusItem;
}.
Definition SchedulerState_new : SchedulerState := mk_sched_state 0 0 None 0 None [].

Definition u64_wrapping_add (a b : Z) : Z := ((a + b) mod 2 ^ 64)%Z.

(** The body of the loop of [apply_drained_events]. *)
Definition apply_event (s : SchedulerState) (item : BusItem) : SchedulerState :=
  let '(seq, event) := item in
  let gaps :=
    match last_sequence_id s with
    | Some last_seq =>
        if decide (seq ≠ u64_wrapping_succ last_seq) then u64_wrapping_add (detected_gaps s) 1
        else detected_gaps s
    | None => detected_gaps s
    end in
  mk_sched_state (total_events_consumed s) (last_drain_count s) (Some seq) gaps (last_suggestion s)
    (push_bounded DEFAULT_REPLAY_BUFFER_CAPACITY (seq, event) (replay_buffer s)).

Definition apply_drained_events (events : list BusItem) (s : SchedulerState) : SchedulerState :=
  foldl apply_event
    (mk_sched_state (u64_wrapping_add (total_events_consumed s) (Z.of_nat (length events)))
       (length events) (last_sequence_id s) (detected_gaps s) (last_suggestion s) (replay_buffer s))
    events.

Definition clear_replay_buffer (s : SchedulerState) : SchedulerState :=
  mk_sched_state (total_events_consumed s) (last_drain_count s) (last_sequence_id s)
    (detected_gaps s) (last_suggestion s) [].

(** ** The policy

    [HashSet::iter] has no fixed order: [it] is the order of the call. *)
Record RoundRobinPolicy := mk_round_robin { policy_budget_size : nat; policy_fairness_window : Z }.
Definition suggest_activation (policy : RoundRobinPolicy) (it : list EntityTriple) :
    option EntityTriple := head it.

(** [Scheduler::suggest_activation], after the drain. *)
Definition record_suggestion (suggestion : option EntityTriple) (s : SchedulerState) :
    SchedulerState :=
  mk_sched_state (total_events_consumed s) (last_drain_count s) (last_sequence_id s)
    (detected_gaps s) suggestion (replay_buffer s).

(** ** The bus and its users *)
Record bus := mk_bus {
  bus_counter : Z;                      (* [sequence_counter] *)
  bus_items : list BusItem;             (* the channel *)
  bus_open : bool;                      (* the receiver is alive *)
  bus_emitting : gmap nat BusItem;      (* emitters between their two actions *)
  bus_drained : option (list BusItem);  (* a drain in progress, under the lock *)
  bus_state : SchedulerState;
  (* what happened *)
  bus_accepted : list BusItem;
  bus_dropped : list BusItem;
  bus_consumed : list BusItem;
  bus_since_clear : list BusItem;
}.
Definition bus_new : bus :=
  mk_bus 0 [] true ∅ None SchedulerState_new [] [] [] [].

(** [mpsc::Sender::try_send] *)
Definition try_send (capacity : nat) (item : BusItem) (b : bus) : bool :=
  bus_open b && bool_decide (length (bus_items b) < capacity).

Inductive bus_step (capacity : nat) : bus → bus → Prop :=
| bus_number i event c items o em d s acc dr con sc :
    (* [fetch_add] *)
    em !! i = None →
    bus_step capacity (mk_bus c items o em d s acc dr con sc)
      (mk_bus (u64_wrapping_succ c) items o (<[i := (c, event)]> em) d s acc dr con sc)
| bus_enqueue i item c items o em d s acc dr con sc :
    em !! i = Some item → try_send capacity item (mk_bus c items o em d s acc dr con sc) = true →
    bus_step capacity (mk_bus c items o em d s acc dr con sc)
      (mk_bus c (items ++ [item]) o (delete i em) d s (acc ++ [item]) dr con sc)
| bus_drop i item c items o em d s acc dr con sc :
    em !! i = Some item → try_send capacity item (mk_bus c items o em d s acc dr con sc) = false →
    bus_step capacity (mk_bus c items o em d s acc dr con sc)
      (mk_bus c items o (delete i em) d s acc (dr ++ [item]) con sc)
| bus_drain_begin c items o em s acc dr con sc :
    bus_step capacity (mk_bus c items o em None s acc dr con sc)
      (mk_bus c items o em (Some []) s acc dr con sc)
| bus_drain_item item c items o em got s acc dr con sc :
    (* [try_recv] *)
    bus_step capacity (mk_bus c (item :: items) o em (Some got) s acc dr con sc)
      (mk_bus c items o em (Some (got ++ [item])) s acc dr con sc)
| bus_drain_end c o em got s acc dr con sc :
    (* the channel is empty: fold what was drained into the state *)
    bus_step capacity (mk_bus c [] o em (Some got) s acc dr con sc)
      (mk_bus c [] o em None (apply_drained_events got s) acc dr (con ++ got) (sc ++ got))
| bus_suggest policy it c items o em s acc dr con sc :
    bus_step capacity (mk_bus c items o em None s acc dr con sc)
      (mk_bus c items o em None (record_suggestion (suggest_activation policy it) s) acc dr con sc)
| bus_clear c items o em s acc dr con sc :
    bus_step capacity (mk_bus c items o em None s acc dr con sc)
      (mk_bus c items o em None (clear_replay_buffer s) acc dr con [])
| bus_close c items o em s acc dr con sc :
    bus_step capacity (mk_bus c items o em None s acc dr con sc)
      (mk_bus c items false em None s acc dr con sc).

Definition bus_reachable (capacity : nat) : bus → Prop := rtc (bus_step capacity) bus_new.

(** ** What the state says *)

Record state_of (con sc : list BusItem) (s : SchedulerState) : Prop := mk_state_of {
  so_total : total_events_consumed s = (Z.of_nat (length con) mod 2 ^ 64)%Z;
  so_last : last_sequence_id s = fst <$> last con;
  so_gaps : detected_gaps s = (Z.of_nat (gaps_in con.*1) mod 2 ^ 64)%Z;
  so_replay : replay_buffer s = lastn DEFAULT_REPLAY_BUFFER_CAPACITY sc;
}.

(** One event folded in; the total was advanced by the whole drain beforehand. *)
Lemma apply_event_state con sc s item :
  last_sequence_id s = fst <$> last con →
  detected_gaps s = (Z.of_nat (gaps_in con.*1) mod 2 ^ 64)%Z →
  replay_buffer s = lastn DEFAULT_REPLAY_BUFFER_CAPACITY sc →
  let s' := apply_event s item in
  last_sequence_id s' = fst <$> last (con ++ [item]) ∧
  detected_gaps s' = (Z.of_nat (gaps_in (con ++ [item]).*1) mod 2 ^ 64)%Z ∧
  replay_buffer s' = lastn DEFAULT_REPLAY_BUFFER_CAPACITY (sc ++ [item]) ∧
  total_events_consumed s' = total_events_consumed s.
Proof.
  intros Hl Hg Hr. destruct item as [seq event]. simpl. rewrite last_snoc, Hr, Hl, Hg.
  split_and!; [done| |by apply push_bounded_lastn; compute; lia|done].
  rewrite fmap_app. simpl. rewrite gaps_in_snoc, fmap_last. unfold u64_wrapping_add.
  destruct (last con) as [[x ?]|]; simpl; [case_decide|]; rewrite ?Nat.add_0_r; try done.
  rewrite Nat2Z.inj_add. by rewrite Zplus_mod_idemp_l.
Qed.

Lemma apply_drained_state got con sc s :
  state_of con sc s → state_of (con ++ got) (sc ++ got) (apply_drained_events got s).
Proof.
  intros [Ht Hl Hg Hr]. unfold apply_drained_events.
  set (s1 := mk_sched_state _ _ _ _ _ _).
  assert (total_events_consumed s1 = (Z.of_nat (length (con ++ got)) mod 2 ^ 64)%Z) as Ht1.
  { simpl. unfold u64_wrapping_add. by rewrite Ht, Zplus_mod_idemp_l, <-Nat2Z.inj_add, <-length_app. }
  assert (last_sequence_id s1 = fst <$> last con) as Hl1 by done.
  assert (detected_gaps s1 = (Z.of_nat (gaps_in con.*1) mod 2 ^ 64)%Z) as Hg1 by done.
  assert (replay_buffer s1 = lastn DEFAULT_REPLAY_BUFFER_CAPACITY sc) as Hr1 by done.
  clearbody s1. clear Ht Hl Hg Hr. generalize dependent s1. revert con sc.
  induction got as [|item got IH]; intros con sc s1 Ht Hl Hg Hr.
  { rewrite !app_nil_r in *. by constructor. }
  cbn [foldl]. destruct (apply_event_state con sc s1 item Hl Hg Hr) as (Hl' & Hg' & Hr' & Ht').
  rewrite (cons_middle item con), (cons_middle item sc), (app_assoc con), (app_assoc sc).
  apply IH; [|done..]. rewrite Ht', Ht, <-app_assoc. done.
Qed.

(** ** Invariant *)
Record bus_ok (b : bus) : Prop := mk_bus_ok {
  ok_state : state_of (bus_consumed b) (bus_since_clear b) (bus_state b);
  ok_fifo : bus_accepted b = bus_consumed b ++ default [] (bus_drained b) ++ bus_items b;
}.

Lemma bus_step_ok capacity b b' : bus_step capacity b b' → bus_ok b → bus_ok b'.
Proof.
  intros Hstep [Hs Hf]. destruct Hstep; simpl in *; constructor; simpl; try done.
  - by rewrite Hf, <-!app_assoc.
  - by rewrite Hf, <-!app_assoc.
  - by apply apply_drained_state.
  - by rewrite Hf, app_nil_r, app_nil_r.
  - by destruct Hs.
  - by destruct Hs.
Qed.

Lemma bus_reachable_ok capacity b : bus_reachable capacity b → bus_ok b.
Proof. intros Hr. assert (bus_ok bus_new) by done. induction Hr; eauto using bus_step_ok. Qed.

(** ** Emitters that take turns

    Numbers are given out in order, so as long as no emitter is overtaken and the
    counter does not wrap, the numbers on the bus increase. *)
Inductive serial_step (capacity : nat) : bus → bus → Prop :=
| serial_intro b b' :
    bus_step capacity b b' → (∀ i j, is_Some (bus_emitting b' !! i) → is_Some (bus_emitting b' !! j) → i = j) →
    (bus_counter b < u64_max)%Z → serial_step capacity b b'.

Abbreviation ascending := (StronglySorted Z.lt).

Record serial_ok (b : bus) : Prop := mk_serial_ok {
  ser_counter : (0 ≤ bus_counter b ≤ u64_max)%Z;
  ser_sorted : ascending (bus_accepted b).*1;
  ser_below : ∀ x, x ∈ (bus_accepted b).*1 → (0 ≤ x < bus_counter b)%Z;
  ser_emitting : ∀ i x, bus_emitting b !! i = Some x →
    (0 ≤ x.1 < bus_counter b)%Z ∧ (∀ y, y ∈ (bus_accepted b).*1 → (y < x.1)%Z);
  ser_dropped : ∀ x, x ∈ (bus_dropped b).*1 → (x ∉ (bus_accepted b).*1) ∧
    (x < bus_counter b)%Z ∧ (∀ i y, bus_emitting b !! i = Some y → y.1 ≠ x);
  ser_one : ∀ i j, is_Some (bus_emitting b !! i) → is_Some (bus_emitting b !! j) → i = j;
  ser_all : ∀ x, (0 ≤ x < bus_counter b)%Z →
    x ∈ (bus_accepted b).*1 ∨ x ∈ (bus_dropped b).*1 ∨ ∃ i y, bus_emitting b !! i = Some y ∧ y.1 = x;
}.

Lemma ascending_snoc l x : ascending l → (∀ y, y ∈ l → (y < x)%Z) → ascending (l ++ [x]).
Proof.
  induction 1 as [|y l Hs IH Hy]; intros Hx; [repeat constructor|]. simpl. constructor.
  - apply IH. set_solver.
  - apply Forall_app. split; [done|]. repeat constructor. apply Hx. set_solver.
Qed.

Lemma ascending_length l a c :
  ascending l → (∀ x, x ∈ l → a ≤ x < c)%Z → (a ≤ c)%Z → (Z.of_nat (length l) ≤ c - a)%Z.
Proof.
  intros Hs. revert a. induction Hs as [|x l Hs IH Hx]; intros a Hb Hac; simpl; [lia|].
  assert (a ≤ x < c)%Z by (apply Hb; set_solver).
  enough (Z.of_nat (length l) ≤ c - (x + 1))%Z by lia. apply IH; [|lia].
  intros y Hy. assert (a ≤ y < c)%Z by (apply Hb; set_solver).
  eapply Forall_forall in Hx; [|done]. lia.
Qed.

(** In an ascending list without wrap-around, gaps are missing numbers. *)
Lemma gaps_in_zero l x :
  ascending (x :: l) → (∀ y, y ∈ x :: l → 0 ≤ y < u64_max)%Z →
  gaps_in (x :: l) = 0 ↔ (∀ y, x ≤ y ≤ default x (last l) → y ∈ x :: l)%Z.
Proof.
  revert x. induction l as [|z l IH]; intros x Hs Hb.
  { simpl. split; [|done]. intros _ y Hy. assert (y = x) as -> by lia. set_solver. }
  inversion Hs as [|?? Hs' Hx]; subst. specialize (IH z Hs' ltac:(set_solver)).
  assert (x < z)%Z by (eapply Forall_forall in Hx; [done|set_solver]).
  assert (0 ≤ x < u64_max)%Z as Hxb by (apply Hb; set_solver).
  assert (u64_wrapping_succ x = (x + 1)%Z) as Hsucc.
  { unfold u64_wrapping_succ, u64_max in *. rewrite Z.mod_small; lia. }
  rewrite last_cons, gaps_in_cons, Hsucc.
  assert (∀ y, y ∈ z :: l → (z ≤ y)%Z) as Hz.
  { intros y [->|Hy]%elem_of_cons; [lia|]. inversion Hs' as [|?? _ Hz]; subst.
    eapply Forall_forall in Hz; [|done]. lia. }
  replace (default x _) with (default z (last l)) by by destruct (last l).
  split.
  - intros Hg y Hy. case_decide; [lia|]. assert (gaps_in (z :: l) = 0) as Hg' by lia.
    destruct (decide (y = x)) as [->|]; [set_solver|]. apply elem_of_cons. right.
    apply IH; [done|lia].
  - intros Hall. assert (default z (last l) ∈ z :: l) as Hlast.
    { destruct (last l) eqn:Hl; simpl; [|set_solver]. apply last_Some_elem_of in Hl. set_solver. }
    apply Hz in Hlast. case_decide as Hne.
    + assert (x + 1 ∈ x :: z :: l)%Z as [?|Hin]%elem_of_cons by (apply Hall; lia); [lia|].
      apply Hz in Hin. lia.
    + apply IH. intros y Hy. assert (y ∈ x :: z :: l) as [->|?]%elem_of_cons by (apply Hall; lia);
        [lia|done].
Qed.

(** An emitter takes a number. *)
Lemma serial_number i event c items o em d s acc dr con sc :
  em !! i = None → (c < u64_max)%Z →
  (∀ j k, is_Some (<[i := (c, event)]> em !! j) → is_Some (<[i := (c, event)]> em !! k) → j = k) →
  serial_ok (mk_bus c items o em d s acc dr con sc) →
  serial_ok (mk_bus (u64_wrapping_succ c) items o (<[i := (c, event)]> em) d s acc dr con sc).
Proof.
  intros Hi Hc Hone [C S B M D O A]. simpl in *.
  assert (u64_wrapping_succ c = (c + 1)%Z) as Hsucc.
  { unfold u64_wrapping_succ, u64_max in *. rewrite Z.mod_small; lia. }
  constructor; simpl; rewrite ?Hsucc; try done; [lia| | | |].
  - intros x Hx. specialize (B x Hx). lia.
  - intros j x Hx. insert_cases Hx; simpl; [split; [lia|]; intros y Hy; specialize (B y Hy); lia|].
    destruct (M j x Hx). split; [lia|done].
  - intros x Hx. destruct (D x Hx) as (? & ? & Hne). split_and!; [done|lia|].
    intros j y Hy. insert_cases Hy; [simpl; lia|by eapply Hne].
  - intros x Hx. destruct (decide (x = c)) as [->|].
    { right. right. exists i, (c, event). by rewrite lookup_insert_eq. }
    destruct (A x ltac:(lia)) as [?|[?|(j & y & Hy & <-)]]; [by left|by right; left|].
    right. right. exists j, y. split; [|done]. rewrite lookup_insert_ne; [done|congruence].
Qed.

(** The only emitter enqueues its event, or loses it. *)
Lemma serial_send i item c items o em d s acc dr con sc acc' dr' items' :
  em !! i = Some item → (acc' = acc ++ [item] ∧ dr' = dr ∨ acc' = acc ∧ dr' = dr ++ [item]) →
  serial_ok (mk_bus c items o em d s acc dr con sc) →
  serial_ok (mk_bus c items' o (delete i em) d s acc' dr' con sc).
Proof.
  intros Hi Hsend [C S B M D O A]. simpl in *. destruct (M i item Hi) as [M1 M2].
  assert (∀ j y, delete i em !! j = Some y → False) as Hempty.
  { intros j y [Hne Hj]%lookup_delete_Some. apply Hne. apply O; eauto. }
  assert (∀ x, (0 ≤ x < c)%Z → x = item.1 ∨ x ∈ acc.*1 ∨ x ∈ dr.*1) as A'.
  { intros x Hx. destruct (A x Hx) as [?|[?|(j & y & Hy & <-)]]; auto.
    assert (j = i) as -> by (apply O; eauto). left. congruence. }
  constructor; simpl; try done; try (by intros j; intros; exfalso; eauto).
  - destruct Hsend as [[-> _]|[-> _]]; [|done]. rewrite fmap_app. by apply ascending_snoc.
  - destruct Hsend as [[-> _]|[-> _]]; [|done]. rewrite fmap_app. intros x. set_unfold. naive_solver.
  - intros x Hx. assert ((x ∉ acc'.*1) ∧ (x < c)%Z) as [? ?].
    { destruct Hsend as [[-> ->]|[-> ->]]; rewrite fmap_app in *.
      - destruct (D x Hx) as (? & ? & Hne). split; [|done]. specialize (Hne i item Hi). set_solver.
      - apply elem_of_app in Hx as [Hx|Hx]; [by destruct (D x Hx) as (? & ? & _)|].
        assert (x = item.1) as -> by set_solver. split; [|lia]. intros Hin%M2. lia. }
    split_and!; [done|done|]. intros j y Hy. by destruct (Hempty j y).
  - intros j k [y Hy]. by destruct (Hempty j y).
  - intros x Hx. destruct (A' x Hx) as [->|[?|?]], Hsend as [[-> ->]|[-> ->]]; rewrite fmap_app; set_solver.
Qed.

Lemma serial_step_ok capacity b b' : serial_step capacity b b' → serial_ok b → serial_ok b'.
Proof.
  intros [b0 b1 Hstep Hone Hc] Hok. destruct Hstep; simpl in *; try (by destruct Hok).
  - by apply serial_number.
  - by eapply serial_send; [|left|].
  - by eapply serial_send; [|right|].
Qed.

Lemma serial_reachable_ok capacity b :
  rtc (serial_step capacity) bus_new b → serial_ok b ∧ bus_ok b.
Proof.
  intros Hr. assert (serial_ok bus_new) as H0.
  { constructor; simpl.
    - by unfold u64_max.
    - apply SSorted_nil.
    - set_solver.
    - intros i x. by rewrite lookup_empty.
    - set_solver.
    - intros i j. rewrite lookup_empty. by intros [].
    - lia. }
  assert (bus_ok bus_new) as H1 by done.
  induction Hr as [|b1 b2 b3 Hstep _ IH]; [done|]. apply IH; [by eapply serial_step_ok|].
  destruct Hstep. by eapply bus_step_ok.
Qed.

Lemma gaps_in_le l : gaps_in l ≤ length l.
Proof.
  induction l as [|x l IH]; [done|]. destruct l as [|y l]; [simpl; lia|].
  rewrite gaps_in_cons. simpl in *. case_decide; lia.
Qed.

Lemma ascending_app l k x y : ascending (l ++ k) → x ∈ l → y ∈ k → (x < y)%Z.
Proof.
  induction l as [|z l IH]; simpl; [set_solver|]. intros Hs Hx Hy. inversion Hs as [|?? Hs' Hz]; subst.
  apply elem_of_cons in Hx as [->|Hx]; [|by apply IH]. eapply Forall_forall in Hz; [done|]. set_solver.
Qed.

Lemma ascending_prefix l k : ascending (l ++ k) → ascending l.
Proof.
  induction l as [|z l IH]; simpl; [constructor|]. intros Hs. inversion Hs as [|?? Hs' Hz]; subst.
  constructor; [by apply IH|]. by apply Forall_app in Hz as [? _].
Qed.

Lemma ascending_last l x y : ascending l → last l = Some y → x ∈ l → (x ≤ y)%Z.
Proof.
  intros Hs Hl Hx. apply last_Some in Hl as [l' ->]. apply elem_of_app in Hx as [Hx|Hx].
  - assert (x < y)%Z; [|lia]. eapply ascending_app; [done|done|set_solver].
  - set_solver by lia.
Qed.

(** ** Properties *)

(** The scheduler's state is an exact account of the bus.  Whatever actors emit
    concurrently, and however drains, suggestions and clears interleave with them, the
    state counts the events consumed, holds the last sequence number, counts the
    neighbours whose numbers do not follow each other (both modulo 2^64), and its
    replay buffer holds the last 1024 events since it was cleared; and the events
    consumed, those of a drain in progress and those still queued are, in order,
    exactly those the bus accepted. *)
Lemma scheduler_state_is_exact capacity b :
  bus_reachable capacity b →
  state_of (bus_consumed b) (bus_since_clear b) (bus_state b) ∧
  bus_accepted b = bus_consumed b ++ default [] (bus_drained b) ++ bus_items b.
Proof. intros Hr. by destruct (bus_reachable_ok _ _ Hr). Qed.

(** With emitters that take turns, a gap means a loss: the scheduler reports no gap
    exactly when no event numbered between the first and the last it consumed was
    dropped by the bus. *)
Lemma gaps_are_losses capacity b x l :
  rtc (serial_step capacity) bus_new b → (bus_consumed b).*1 = x :: l →
  detected_gaps (bus_state b) = 0%Z ↔
  ∀ y, y ∈ (bus_dropped b).*1 → ¬ (x < y < default x (last l))%Z.
Proof.
  intros Hr Hcon. destruct (serial_reachable_ok _ _ Hr) as [[C S B M D O A] [[_ _ Hg _] Hf]].
  rewrite Hf, fmap_app, Hcon in S, B, M, D, A. rewrite Hcon in Hg.
  pose proof (ascending_prefix _ _ S) as Hs.
  assert (default x (last l) ∈ x :: l) as Hlast.
  { destruct (last l) eqn:Hl; simpl; [|set_solver]. apply last_Some_elem_of in Hl. set_solver. }
  assert (∀ y, y ∈ x :: l → (0 ≤ y < u64_max)%Z) as Hb by (intros y Hy; specialize (B y); set_solver by lia).
  assert (Z.of_nat (gaps_in (x :: l)) < 2 ^ 64)%Z as Hsmall.
  { pose proof (gaps_in_le (x :: l)). pose proof (ascending_length _ 0 u64_max Hs Hb ltac:(done)).
    unfold u64_max in *. lia. }
  rewrite Z.mod_small in Hg by lia. rewrite Hg.
  transitivity (gaps_in (x :: l) = 0); [lia|]. rewrite gaps_in_zero by done. split.
  - intros Hall y Hy Hin. destruct (D y Hy) as [Hn _]. apply Hn. apply elem_of_app. left.
    apply Hall. lia.
  - intros Hno y Hy. destruct (decide (y = x)) as [->|]; [set_solver|].
    destruct (decide (y = default x (last l))) as [->|]; [done|].
    assert (0 ≤ default x (last l) < bus_counter b)%Z by (apply B; set_solver).
    assert (0 ≤ x < bus_counter b)%Z by (apply B; set_solver).
    destruct (A y ltac:(lia)) as [Hin|[Hd|(i & z & Hz & <-)]].
    + apply elem_of_app in Hin as [?|Hin]; [done|].
      pose proof (ascending_app _ _ _ _ S Hlast Hin). lia.
    + destruct (Hno y Hd). lia.
    + destruct (M i z Hz) as [_ Hlt]. specialize (Hlt (default x (last l)) ltac:(set_solver)). lia.
Qed.

(** Emitters that overtake each other make the scheduler report a loss that did not
    happen: with room on the bus and nothing dropped, an emitter that is overtaken
    between taking its number and enqueueing leaves a gap in the scheduler's count. *)
Lemma concurrent_emit_reports_false_gap capacity e1 e2 :
  1 < capacity →
  ∃ b, bus_reachable capacity b ∧ bus_dropped b = [] ∧
    bus_accepted b = [(1%Z, e2); (0%Z, e1)] ∧ bus_consumed b = bus_accepted b ∧
    detected_gaps (bus_state b) = 1%Z.
Proof.
  intros Hcap. eexists. split.
  - eapply rtc_l; [by apply (bus_number _ 1 e1)|].
    eapply rtc_l; [by apply (bus_number _ 2 e2)|].
    eapply rtc_l; [apply (bus_enqueue _ 2 (1%Z, e2)); [done|by apply bool_decide_eq_true_2; simpl; lia]|].
    eapply rtc_l; [apply (bus_enqueue _ 1 (0%Z, e1)); [done|by apply bool_decide_eq_true_2; simpl; lia]|].
    eapply rtc_l; [apply bus_drain_begin|]. eapply rtc_l; [apply bus_drain_item|].
    eapply rtc_l; [apply bus_drain_item|]. eapply rtc_l; [apply bus_drain_end|]. apply rtc_refl.
  - by split_and!.
Qed.

Module Example_bus.
Lemma concurrent_emit_reports_false_gap_witness :
  ∃ b, bus_reachable DEFAULT_EVENT_BUS_CAPACITY b ∧ bus_dropped b = [] ∧
    detected_gaps (bus_state b) = 1%Z.
Proof.
  destruct (concurrent_emit_reports_false_gap DEFAULT_EVENT_BUS_CAPACITY SlotFreed SlotFreed)
    as (b & ? & ? & _ & _ & ?); [unfold DEFAULT_EVENT_BUS_CAPACITY; lia|]. by exists b.
Defined.

(** One slot: the second event is dropped, then the bus is drained and a third arrives. *)
Definition drained_twice : bus :=
  mk_bus 3 [] true ∅ None
    (apply_drained_events [(2%Z, SlotFreed)] (apply_drained_events [(0%Z, SlotFreed)] SchedulerState_new))
    [(0%Z, SlotFreed); (2%Z, SlotFreed)] [(1%Z, SlotFreed)]
    [(0%Z, SlotFreed); (2%Z, SlotFreed)] [(0%Z, SlotFreed); (2%Z, SlotFreed)].

(** A step with at most one emitter on its way. *)
Ltac serially tac := eapply rtc_l; [constructor; [tac|intros i j; cbn [bus_emitting];
  intros [x Hx] [y Hy]; try delete_cases Hx; try delete_cases Hy; try insert_cases Hx; try insert_cases Hy;
  by rewrite ?lookup_empty in *|done]|].
Lemma serial_run : rtc (serial_step 1) bus_new drained_twice.
Proof.
  serially ltac:(by apply (bus_number _ 0 SlotFreed)).
  serially ltac:(by apply (bus_enqueue _ 0 (0%Z, SlotFreed))).
  serially ltac:(by apply (bus_number _ 0 SlotFreed)).
  serially ltac:(by apply (bus_drop _ 0 (1%Z, SlotFreed))).
  serially ltac:(apply bus_drain_begin). serially ltac:(apply bus_drain_item).
  serially ltac:(apply bus_drain_end).
  serially ltac:(by apply (bus_number _ 0 SlotFreed)).
  serially ltac:(by apply (bus_enqueue _ 0 (2%Z, SlotFreed))).
  serially ltac:(apply bus_drain_begin). serially ltac:(apply bus_drain_item).
  serially ltac:(apply bus_drain_end). apply rtc_refl.
Qed.

Lemma gaps_are_losses_witness : detected_gaps (bus_state drained_twice) ≠ 0%Z.
Proof.
  intros Hz. apply (gaps_are_losses 1 drained_twice 0 [2%Z] serial_run eq_refl) with (y := 1%Z) in Hz;
    [|simpl; set_solver]. apply Hz. simpl. lia.
Defined.

Lemma scheduler_state_is_exact_witness :
  bus_reachable 1 drained_twice ∧ state_of [(0%Z, SlotFreed); (2%Z, SlotFreed)]
    [(0%Z, SlotFreed); (2%Z, SlotFreed)] (bus_state drained_twice).
Proof.
  assert (bus_reachable 1 drained_twice) as Hr.
  { eapply rtc_subrel; [|exact serial_run]. by intros ? ? []. }
  split; [exact Hr|]. apply (scheduler_state_is_exact 1 drained_twice Hr).
Defined.
End Example_bus.
