(* ===== verification/AdvisoryScheduler.v ===== *)
(** * The advisory scheduler

    crates/ego-scheduler: a pipeline of six stages that folds the events of a bounded
    bus into a projection state and suggests an entity to activate.  The bus applies
    its drop policy when an event is enqueued; a cycle drains it, collects the
    sources as pending, checks sequence numbers, detects entity switches, applies the
    events and asks the policy.  Counters wrap at 64 bits, as in a release build. *)

From Stdlib Require Import String.
From S2P Require Import Prelude.

(** ** Entities and their order

    [BTreeSet<EntityTriple>] iterates in the derived order: tenant, type, identifier,
    each compared byte by byte. *)
Record Entity := mk_entity {
  entity_tenant : string;
  entity_type : string;
  entity_id : string;
}.
#[export] Instance Entity_eq_dec : EqDecision Entity.
Proof. solve_decision. Defined.

Definition then_compare (a b : comparison) : comparison :=
  match a with Eq => b | _ => a end.

Definition entity_compare (x y : Entity) : comparison :=
  then_compare (String.compare (entity_tenant x) (entity_tenant y))
    (then_compare (String.compare (entity_type x) (entity_type y))
       (String.compare (entity_id x) (entity_id y))).

Definition entity_lt (x y : Entity) : Prop := entity_compare x y = Lt.

(** [BTreeSet::insert] and [BTreeSet::remove] on the sorted list of its elements. *)
Fixpoint pending_insert (e : Entity) (s : list Entity) : list Entity :=
  match s with
  | [] => [e]
  | f :: s' =>
      match entity_compare e f with
      | Lt => e :: s
      | Eq => s
      | Gt => f :: pending_insert e s'
      end
  end.
Definition pending_remove (e : Entity) (s : list Entity) : list Entity := filter (λ f, f ≠ e) s.

(** [pending_from_iter] *)
Definition pending_from_iter (l : list Entity) : list Entity :=
  foldl (λ s e, pending_insert e s) [] l.

(** ** Events *)
Inductive Event :=
| ExecutionCompleted (entity : Entity) (state_version : Z)
| RecoveryCompleted (entity : Entity) (state_version : Z).

Inductive EventType := ExecutionCompletedType | RecoveryCompletedType.
Definition event_type (e : Event) : EventType :=
  match e with
  | ExecutionCompleted _ _ => ExecutionCompletedType
  | RecoveryCompleted _ _ => RecoveryCompletedType
  end.

Record Envelope := mk_envelope {
  envelope_event_id : list Byte.byte;
  envelope_sequence_id : Z;
  envelope_event_type : EventType;
  envelope_payload : Event;
  envelope_source : Entity;
}.

(** [u64::to_le_bytes] *)
Definition to_le_bytes (n : Z) : list Byte.byte := rev (to_be_bytes n).

(** [SchedulerEventEnvelope::new]; SHA-256 and the [Debug] text of the payload are
    arguments. *)
Definition Envelope_new (sha256 : list Byte.byte → list Byte.byte) (debug : Event → string)
    (payload : Event) (source : Entity) (sequence_id : Z) : Envelope :=
  mk_envelope
    (sha256 (string_bytes (debug payload) ++ string_bytes (entity_tenant source)
       ++ string_bytes (entity_type source) ++ string_bytes (entity_id source)
       ++ to_le_bytes sequence_id))
    sequence_id (event_type payload) payload source.

(** ** The bus *)
Inductive DropPolicy := Block | DropNewest | DropOldest.
Inductive SchedulerError := BusFull | ChannelClosed.

Record EventBusConfig := mk_bus_config { config_capacity : nat; config_drop_policy : DropPolicy }.
Definition EventBusConfig_default : EventBusConfig := mk_bus_config 4096 Block.

(** [EventBusConfig::validate]; the error names the field. *)
Definition EventBusConfig_validate (c : EventBusConfig) : result string unit :=
  if decide (config_capacity c = 0) then Err "capacity" else Ok ().

Record channel := mk_channel { channel_items : list Envelope; channel_open : bool }.

(** [SchedulerEventSender::try_send] *)
Definition try_send (config : EventBusConfig) (envelope : Envelope) (c : channel) :
    result SchedulerError unit * channel :=
  if channel_open c then
    if decide (length (channel_items c) < config_capacity config)
    then (Ok (), mk_channel (channel_items c ++ [envelope]) true)
    else (match config_drop_policy config with
          | Block => Err BusFull
          | DropNewest => Ok ()
          | DropOldest => Ok ()
          end, c)
  else (Err ChannelClosed, c).

(** [SchedulerEventReceiver::drain_all], the [ingest] stage. *)
Definition drain_all (c : channel) : list Envelope * channel :=
  (channel_items c, mk_channel [] (channel_open c)).

(** ** State *)
Record State := mk_state {
  total_events_consumed : Z;
  last_sequence_id : option Z;
  detected_gaps : Z;
  last_suggestion : option Entity;
  state_hash : option (list Byte.byte);
  replay_buffer : list (Z * Envelope);
}.
Definition State_new : State := mk_state 0 None 0 None None [].

(** [PartialEq for SchedulerState] leaves the replay buffer out. *)
Definition state_eq (a b : State) : Prop :=
  total_events_consumed a = total_events_consumed b ∧ last_sequence_id a = last_sequence_id b ∧
  detected_gaps a = detected_gaps b ∧ last_suggestion a = last_suggestion b ∧
  state_hash a = state_hash b.

#[export] Instance state_eq_equivalence : Equivalence state_eq.
Proof.
  split; [by intros []; repeat split| |].
  - intros a b (?&?&?&?&?). by repeat split.
  - intros a b c (?&?&?&?&?) (?&?&?&?&?). repeat split; by etrans.
Qed.

Definition replay_capacity : nat := 1024.

(** [SchedulerState::apply] *)
Definition apply (envelope : Envelope) (s : State) : State :=
  mk_state (u64_wrapping_succ (total_events_consumed s)) (Some (envelope_sequence_id envelope))
    (detected_gaps s) (last_suggestion s) (state_hash s)
    (push_bounded replay_capacity (envelope_sequence_id envelope, envelope) (replay_buffer s)).

(** ** The stages of a cycle *)
Definition detect_one (s : State) (item : Envelope) : State :=
  let seq := envelope_sequence_id item in
  let gaps :=
    match last_sequence_id s with
    | Some last => if decide (seq ≠ u64_wrapping_succ last)
                   then u64_wrapping_succ (detected_gaps s) else detected_gaps s
    | None => detected_gaps s
    end in
  mk_state (total_events_consumed s) (Some seq) gaps (last_suggestion s) (state_hash s)
    (replay_buffer s).
Definition detect (events : list Envelope) (s : State) : State := foldl detect_one s events.

(** [route]: on an entity switch the per-entity fields are reset. *)
Definition route_one (acc : State * option Entity) (item : Envelope) : State * option Entity :=
  let '(s, current) := acc in
  match current with
  | Some c =>
      if decide (c ≠ envelope_source item)
      then (mk_state (total_events_consumed s) None 0 (last_suggestion s) (state_hash s)
              (replay_buffer s), Some (envelope_source item))
      else (s, current)
  | None => (s, Some (envelope_source item))
  end.
Definition route (events : list Envelope) (s : State) (current : option Entity) :
    State * option Entity := foldl route_one (s, current) events.

Definition reduce (events : list Envelope) (s : State) : State :=
  foldl (λ s e, apply e s) s events.

Definition emit (s : State) (suggestion : option Entity) : State :=
  mk_state (total_events_consumed s) (last_sequence_id s) (detected_gaps s) suggestion
    (state_hash s) (replay_buffer s).

(** [SchedulingPolicy]: any function of the state and the pending entities. *)
Abbreviation Policy := (State → list Entity → option Entity).

(** [RoundRobin::suggest_activation]; [as usize] keeps 64 bits. *)
Definition round_robin : Policy := λ s pending,
  match pending with
  | [] => None
  | _ => pending !! Z.to_nat (total_events_consumed s mod Z.of_nat (length pending))
  end.

Record Scheduler := mk_scheduler {
  sched_state : State;
  sched_channel : channel;
  sched_current : option Entity;
  sched_pending : list Entity;
}.
Definition Scheduler_new (c : channel) : Scheduler := mk_scheduler State_new c None [].

(** [Scheduler::run_cycle] *)
Definition run_cycle (policy : Policy) (self : Scheduler) : option Entity * Scheduler :=
  let '(events, channel) := drain_all (sched_channel self) in
  match events with
  | [] => (None, mk_scheduler (sched_state self) channel (sched_current self) (sched_pending self))
  | _ =>
      let pending := foldl (λ s e, pending_insert (envelope_source e) s) (sched_pending self) events in
      let state := detect events (sched_state self) in
      let '(state, current) := route events state (sched_current self) in
      let state := reduce events state in
      let suggestion := policy state pending in
      let state := emit state suggestion in
      (suggestion,
       mk_scheduler state channel current
         (match suggestion with Some e => pending_remove e pending | None => pending end))
  end.

(** A batch arrives and a cycle runs. *)
Definition cycle (policy : Policy) (self : Scheduler) (events : list Envelope) : Scheduler :=
  (run_cycle policy (mk_scheduler (sched_state self) (mk_channel events true)
     (sched_current self) (sched_pending self))).2.

(** ** Lemmas *)
Lemma reduce_state events s :
  let s' := reduce events s in
  total_events_consumed s' =
    (if decide (events = []) then total_events_consumed s
     else (total_events_consumed s + Z.of_nat (length events)) mod 2 ^ 64)%Z ∧
  last_sequence_id s' = match last events with Some e => Some (envelope_sequence_id e)
                        | None => last_sequence_id s end ∧
  detected_gaps s' = detected_gaps s ∧ last_suggestion s' = last_suggestion s ∧
  state_hash s' = state_hash s ∧
  ∀ l, replay_buffer s = lastn replay_capacity l →
    replay_buffer s' = lastn replay_capacity (l ++ ((λ e, (envelope_sequence_id e, e)) <$> events)).
Proof.
  unfold reduce. revert s. induction events as [|e events IH] using rev_ind; intros s.
  { cbn [foldl]. split_and!; try done. intros l Hl. by rewrite app_nil_r. }
  rewrite foldl_snoc. destruct (IH s) as (Ht & _ & Hg & Hs & Hh & Hr). cbv zeta in *.
  set (s1 := foldl _ s events) in *. clearbody s1.
  unfold apply. cbn [total_events_consumed last_sequence_id detected_gaps last_suggestion state_hash
    replay_buffer].
  split_and!; [|by rewrite last_snoc|done..|].
  - rewrite decide_False by (by intros [_ ?]%app_nil). rewrite Ht, length_app. unfold u64_wrapping_succ. simpl.
    case_decide; [subst; simpl; f_equal; lia|]. rewrite Zplus_mod_idemp_l. f_equal. lia.
  - intros l Hl. rewrite (Hr l Hl), fmap_app, app_assoc. simpl. apply push_bounded_lastn.
    unfold replay_capacity. lia.
Qed.

Lemma detect_state events s :
  let s' := detect events s in
  total_events_consumed s' = total_events_consumed s ∧ last_suggestion s' = last_suggestion s ∧
  state_hash s' = state_hash s ∧ replay_buffer s' = replay_buffer s ∧
  ∀ l, last_sequence_id s = last l → detected_gaps s = (Z.of_nat (gaps_in l) mod 2 ^ 64)%Z →
    last_sequence_id s' = last (l ++ (envelope_sequence_id <$> events)) ∧
    detected_gaps s' = (Z.of_nat (gaps_in (l ++ (envelope_sequence_id <$> events))) mod 2 ^ 64)%Z.
Proof.
  unfold detect. revert s. induction events as [|e events IH] using rev_ind; intros s.
  { cbn [foldl]. split_and!; try done. intros l. by rewrite app_nil_r. }
  rewrite foldl_snoc. destruct (IH s) as (Ht & Hs & Hh & Hr & Hl). cbv zeta in *.
  set (s1 := foldl _ s events) in *. clearbody s1.
  unfold detect_one. cbn [total_events_consumed last_sequence_id detected_gaps last_suggestion
    state_hash replay_buffer]. split_and!; [done..|].
  intros l H1 H2. destruct (Hl l H1 H2) as [-> ->]. rewrite fmap_app, app_assoc, list_fmap_singleton.
  rewrite last_snoc, gaps_in_snoc. split; [done|]. 
  destruct (last (l ++ (envelope_sequence_id <$> events))) as [x|]; [|by rewrite Nat.add_0_r].
  case_decide; [|by rewrite Nat.add_0_r]. unfold u64_wrapping_succ.
  rewrite Nat2Z.inj_add. by rewrite Zplus_mod_idemp_l.
Qed.

Lemma route_state events s c :
  let '(s', c') := route events s c in
  total_events_consumed s' = total_events_consumed s ∧ last_suggestion s' = last_suggestion s ∧
  state_hash s' = state_hash s ∧ replay_buffer s' = replay_buffer s ∧
  c' = match last events with Some e => Some (envelope_source e) | None => c end.
Proof.
  unfold route. revert s c. induction events as [|e events IH] using rev_ind; intros s c; [done|].
  rewrite foldl_snoc, last_snoc. specialize (IH s c).
  destruct (foldl route_one (s, c) events) as [s1 c1]. destruct IH as (H1 & H2 & H3 & H4 & _).
  unfold route_one. destruct c1 as [c1|]; [|by split_and!]. case_decide as Hne; [by split_and!|].
  split_and!; try done. f_equal. destruct (decide (c1 = envelope_source e)); tauto.
Qed.

(** Routing resets the gap count at a switch, and never raises it. *)
Lemma route_gaps events s c :
  detected_gaps s = 0%Z ∨ (∃ x e, c = Some x ∧ e ∈ events ∧ envelope_source e ≠ x) →
  detected_gaps (route events s c).1 = 0%Z.
Proof.
  unfold route. revert s c. induction events as [|e events IH]; intros s c; cbn [foldl].
  { intros [?|(? & ? & _ & ? & _)]; [done|set_solver]. }
  intros Hor. unfold route_one at 2. destruct c as [x|].
  - destruct (decide (x ≠ envelope_source e)) as [|Heq]; [by apply IH; left|]. apply IH.
    destruct Hor as [?|(y & f & [= <-] & [->|Hf]%elem_of_cons & Hne)]; [by left| |].
    + by destruct Heq.
    + right. eauto.
  - apply IH. left. by destruct Hor as [?|(? & ? & ? & _)].
Qed.

Lemma route_same events s c x :
  (c = None ∨ c = Some x) → (∀ e, e ∈ events → envelope_source e = x) →
  (route events s c).1 = s.
Proof.
  unfold route. revert c. induction events as [|e events IH]; intros c Hc He; [done|].
  cbn [foldl]. assert (envelope_source e = x) as Hx by (apply He; set_solver).
  assert (route_one (s, c) e = (s, Some x)) as ->.
  { unfold route_one. destruct Hc as [->| ->]; rewrite Hx; [done|].
    rewrite decide_False; [done|]. intros Hn. by apply Hn. }
  apply IH; [by right|set_solver].
Qed.

(** *** The order of entities *)
Lemma string_compare_refl (a : string) : String.compare a a = Eq.
Proof. induction a as [|x a IH]; [done|]. simpl. unfold Ascii.compare. by rewrite N.compare_refl. Qed.

Lemma string_compare_lt_trans (a b c : string) :
  String.compare a b = Lt → String.compare b c = Lt → String.compare a c = Lt.
Proof.
  revert b c. induction a as [|x a IH]; intros [|y b] [|z c]; simpl; try done.
  unfold Ascii.compare.
  destruct (N.compare_spec (N_of_ascii x) (N_of_ascii y)) as [H1|H1|H1]; [|intros _|done];
    destruct (N.compare_spec (N_of_ascii y) (N_of_ascii z)) as [H2|H2|H2]; try done; intros.
  - rewrite H1, H2, N.compare_refl. by eapply IH.
  - rewrite H1. apply N.compare_lt_iff in H2. by rewrite H2.
  - rewrite <-H2. apply N.compare_lt_iff in H1. by rewrite H1.
  - assert ((N_of_ascii x ?= N_of_ascii z)%N = Lt) as ->; [|done].
    apply N.compare_lt_iff. by etrans.
Qed.

Lemma then_compare_Lt a b : then_compare a b = Lt ↔ a = Lt ∨ a = Eq ∧ b = Lt.
Proof. destruct a; simpl; naive_solver. Qed.

Lemma entity_compare_Eq x y : entity_compare x y = Eq → x = y.
Proof.
  unfold entity_compare, then_compare. intros H.
  destruct (String.compare (entity_tenant x) _) eqn:H1; try done.
  destruct (String.compare (entity_type x) _) eqn:H2; try done.
  apply String.compare_eq_iff in H1, H2, H. destruct x, y; simpl in *; congruence.
Qed.

#[export] Instance entity_lt_trans : Transitive entity_lt.
Proof.
  unfold entity_lt, entity_compare. intros [a1 a2 a3] [b1 b2 b3] [c1 c2 c3]. simpl.
  rewrite !then_compare_Lt. intros [H1|[E1 [H1|[F1 H1]]]] [H2|[E2 [H2|[F2 H2]]]];
    repeat match goal with H : String.compare _ _ = Eq |- _ => apply String.compare_eq_iff in H; subst end;
    rewrite ?string_compare_refl; eauto 6 using string_compare_lt_trans.
Qed.

Lemma entity_compare_Gt x y : entity_compare x y = Gt → entity_lt y x.
Proof.
  unfold entity_lt, entity_compare, then_compare.
  rewrite (String.compare_antisym (entity_tenant y)), (String.compare_antisym (entity_type y)),
    (String.compare_antisym (entity_id y)).
  destruct (String.compare (entity_tenant x) _); simpl; try done.
  destruct (String.compare (entity_type x) _); simpl; try done.
  by destruct (String.compare (entity_id x) _).
Qed.

Lemma entity_lt_irrefl x : ¬ entity_lt x x.
Proof.
  unfold entity_lt, entity_compare.
  by rewrite !string_compare_refl.
Qed.

Lemma elem_of_pending_insert e s x : x ∈ pending_insert e s ↔ x = e ∨ x ∈ s.
Proof.
  induction s as [|f s IH]; simpl; [set_solver|].
  destruct (entity_compare e f) eqn:H; [apply entity_compare_Eq in H; set_solver|set_solver..].
Qed.

Abbreviation ordered := (StronglySorted entity_lt).

Lemma pending_insert_ordered e s : ordered s → ordered (pending_insert e s).
Proof.
  induction 1 as [|f s Hs IH Hf]; simpl; [repeat constructor|].
  destruct (entity_compare e f) eqn:H; [by constructor| |].
  - constructor; [by constructor|]. constructor; [done|]. eapply Forall_impl; [done|].
    intros x Hx. by etrans.
  - constructor; [done|]. apply Forall_forall. intros x [->|Hx]%elem_of_pending_insert;
      [by apply entity_compare_Gt|]. by eapply Forall_forall in Hf.
Qed.

Lemma pending_remove_ordered e s : ordered s → ordered (pending_remove e s).
Proof.
  unfold pending_remove. induction 1 as [|f s Hs IH Hf]; [constructor|]. rewrite filter_cons.
  case_decide; [|done]. constructor; [done|]. apply Forall_forall.
  intros x [_ Hx]%list_elem_of_filter. by eapply Forall_forall in Hf.
Qed.

Lemma pending_sources events s :
  (∀ x, x ∈ foldl (λ s e, pending_insert (envelope_source e) s) s events ↔
     x ∈ envelope_source <$> events ∨ x ∈ s) ∧
  (ordered s → ordered (foldl (λ s e, pending_insert (envelope_source e) s) s events)).
Proof.
  revert s. induction events as [|e events IH]; intros s; cbn [foldl].
  { split; [set_solver|done]. }
  destruct (IH (pending_insert (envelope_source e) s)) as [H1 H2]. split.
  - intros x. rewrite H1, elem_of_pending_insert. set_solver.
  - intros Hs. by apply H2, pending_insert_ordered.
Qed.

Lemma round_robin_elem s pending :
  pending ≠ [] → ∃ e, round_robin s pending = Some e ∧ e ∈ pending.
Proof.
  intros Hp. destruct pending as [|f l]; [done|]. unfold round_robin.
  destruct (lookup_lt_is_Some_2 (f :: l)
    (Z.to_nat (total_events_consumed s mod Z.of_nat (length (f :: l))))) as [e He].
  { assert (0 < Z.of_nat (length (f :: l)))%Z as Hpos by (simpl; lia).
    pose proof (Z.mod_pos_bound (total_events_consumed s) _ Hpos). lia. }
  exists e. split; [done|]. by eapply list_elem_of_lookup_2.
Qed.

(** One cycle over a non-empty batch. *)
Lemma cycle_eq policy self events :
  events ≠ [] →
  let pending := foldl (λ s e, pending_insert (envelope_source e) s) (sched_pending self) events in
  let '(state, current) := route events (detect events (sched_state self)) (sched_current self) in
  let suggestion := policy (reduce events state) pending in
  cycle policy self events
  = mk_scheduler (emit (reduce events state) suggestion) (mk_channel [] true) current
      (match suggestion with Some e => pending_remove e pending | None => pending end).
Proof.
  intros He. unfold cycle, run_cycle. simpl. destruct events as [|e events]; [done|].
  destruct (route _ _ _) as [state current]. done.
Qed.

(** What a scheduler that consumed [stream] holds, however it was batched. *)
Record accounts (stream : list Envelope) (self : Scheduler) : Prop := mk_accounts {
  acc_total : total_events_consumed (sched_state self) = (Z.of_nat (length stream) mod 2 ^ 64)%Z;
  acc_last : last_sequence_id (sched_state self) = envelope_sequence_id <$> last stream;
  acc_current : sched_current self = envelope_source <$> last stream;
  acc_replay : replay_buffer (sched_state self)
    = lastn replay_capacity ((λ e, (envelope_sequence_id e, e)) <$> stream);
  acc_hash : state_hash (sched_state self) = None;
  acc_pending : ordered (sched_pending self);
}.

Lemma cycle_accounts policy self stream events :
  accounts stream self → accounts (stream ++ events) (cycle policy self events).
Proof.
  intros Hacc. destruct (decide (events = [])) as [->|Hne].
  { rewrite app_nil_r. destruct self. unfold cycle. simpl. by destruct Hacc. }
  destruct Hacc as [Ht Hl Hc Hr Hh Hp]. pose proof (cycle_eq policy self events Hne) as Hcyc.
  cbv zeta in Hcyc. pose proof (route_state events (detect events (sched_state self)) (sched_current self)) as Hroute.
  destruct (route _ _ _) as [st cur]. destruct Hroute as (R1 & _ & R3 & R4 & R5).
  destruct (detect_state events (sched_state self)) as (D1 & _ & D3 & D4 & _). cbv zeta in *.
  destruct (reduce_state events st) as (U1 & U2 & _ & _ & U5 & U6). cbv zeta in *.
  rewrite Hcyc. destruct (last events) as [e|] eqn:He; [|by apply last_None in He].
  constructor; cbn [sched_state sched_current sched_pending emit total_events_consumed last_sequence_id
    replay_buffer state_hash].
  - rewrite U1, decide_False, R1, D1, Ht, Zplus_mod_idemp_l, length_app by done. f_equal. lia.
  - by rewrite U2, last_app, He.
  - by rewrite R5, last_app, He.
  - rewrite fmap_app. apply U6. by rewrite R4, D4.
  - by rewrite U5, R3, D3.
  - destruct (pending_sources events (sched_pending self)) as [_ Hord]. specialize (Hord Hp).
    destruct (policy _ _); [by apply pending_remove_ordered|done].
Qed.

Lemma cycles_accounts policy self stream bs :
  accounts stream self → accounts (stream ++ concat bs) (foldl (cycle policy) self bs).
Proof.
  revert self stream. induction bs as [|b bs IH]; intros self stream Hacc; simpl.
  { by rewrite app_nil_r. }
  rewrite app_assoc. by apply IH, cycle_accounts.
Qed.

Lemma new_accounts c : accounts [] (Scheduler_new c).
Proof. constructor; try done. constructor. Qed.

Lemma cycle_gaps policy self events :
  events ≠ [] →
  detected_gaps (sched_state (cycle policy self events))
  = detected_gaps (route events (detect events (sched_state self)) (sched_current self)).1.
Proof.
  intros Hne. pose proof (cycle_eq policy self events Hne) as Hcyc. cbv zeta in Hcyc.
  destruct (route _ _ _) as [st cur]. rewrite Hcyc. simpl.
  by destruct (reduce_state events st) as (_ & _ & -> & _).
Qed.

Lemma switch_forgets_gaps policy self events x e :
  sched_current self = Some x → e ∈ events → envelope_source e ≠ x →
  detected_gaps (sched_state (cycle policy self events)) = 0%Z.
Proof.
  intros Hcur He Hsrc. rewrite cycle_gaps by (intros ->; by apply not_elem_of_nil in He). apply route_gaps. right. eauto.
Qed.

(** ** Properties *)

(** The scheduler's account of the stream does not depend on how the stream was
    batched: after any cycles the state counts the events consumed, holds the last
    sequence number, the entity it came from and the last 1024 envelopes of the whole
    stream, and the pending entities are in their order without repetition. *)
Lemma cycles_account_for_the_stream policy c bs :
  let self := foldl (cycle policy) (Scheduler_new c) bs in
  let stream := concat bs in
  total_events_consumed (sched_state self) = (Z.of_nat (length stream) mod 2 ^ 64)%Z ∧
  last_sequence_id (sched_state self) = envelope_sequence_id <$> last stream ∧
  sched_current self = envelope_source <$> last stream ∧
  replay_buffer (sched_state self)
    = lastn replay_capacity ((λ e, (envelope_sequence_id e, e)) <$> stream) ∧
  StronglySorted entity_lt (sched_pending self).
Proof.
  destruct (cycles_accounts policy _ _ bs (new_accounts c)) as [H1 H2 H3 H4 _ H5]. done.
Qed.

(** The gap count is not a function of the stream, as the scheduler's invariant I1
    has it.  An actor's number is skipped after an event of another: consumed one by
    one the scheduler counts the gap, in one batch it forgets it; and generally a cycle
    whose batch leaves the current entity ends with no gap on the books, whatever the
    numbers in the batch. *)
Lemma gaps_depend_on_batching policy :
  (∀ self events x e, sched_current self = Some x → e ∈ events → envelope_source e ≠ x →
     detected_gaps (sched_state (cycle policy self events)) = 0%Z) ∧
  (∀ a b p c, a ≠ b →
     let env src n := mk_envelope [] n (event_type p) p src in
     let stream := [env a 1%Z; env b 1%Z; env b 3%Z] in
     detected_gaps (sched_state (foldl (cycle policy) (Scheduler_new c) ((λ e, [e]) <$> stream))) = 1%Z ∧
     detected_gaps (sched_state (foldl (cycle policy) (Scheduler_new c) [stream])) = 0%Z).
Proof.
  split; [by apply switch_forgets_gaps|]. intros a b p c Hab env stream. split.
  - set (self := foldl (cycle policy) (Scheduler_new c) [[env a 1%Z]; [env b 1%Z]]).
    change (foldl _ _ _) with (cycle policy self [env b 3%Z]).
    assert (detected_gaps (sched_state self) = 0%Z) as Hg.
    { apply (switch_forgets_gaps _ _ _ a (env b 1%Z)); [|set_solver|done].
      apply (cycle_accounts policy (Scheduler_new c) [] [env a 1%Z]), new_accounts. }
    destruct (cycles_accounts policy _ _ [[env a 1%Z]; [env b 1%Z]] (new_accounts c)) as [_ Hl Hc _ _ _].
    fold self in Hl, Hc. rewrite cycle_gaps by done.
    rewrite (route_same _ _ _ b); [|by right|by intros e ->%list_elem_of_singleton].
    unfold detect. simpl. unfold detect_one. by rewrite Hl, Hg.
  - cbn [foldl]. rewrite cycle_gaps by done. unfold route. cbn [foldl stream]. unfold route_one at 3.
    apply (route_gaps [_; _]). right. exists a, (env b 1%Z). split_and!; [done|set_solver|done].
Qed.

(** A round-robin cycle over new events suggests one pending entity and takes exactly
    it off the pending set, which otherwise grows by the sources of the events. *)
Lemma round_robin_serves_pending self events :
  events ≠ [] → StronglySorted entity_lt (sched_pending self) →
  ∃ e, last_suggestion (sched_state (cycle round_robin self events)) = Some e ∧
    (e ∈ sched_pending self ∨ e ∈ envelope_source <$> events) ∧
    (∀ x, x ∈ sched_pending (cycle round_robin self events) ↔
       x ≠ e ∧ (x ∈ sched_pending self ∨ x ∈ envelope_source <$> events)) ∧
    StronglySorted entity_lt (sched_pending (cycle round_robin self events)).
Proof.
  intros Hne Hp. pose proof (cycle_eq round_robin self events Hne) as Hcyc. cbv zeta in Hcyc.
  destruct (route _ _ _) as [st cur]. rewrite Hcyc.
  destruct (pending_sources events (sched_pending self)) as [Hin Hord].
  set (pending := foldl _ (sched_pending self) events) in *.
  destruct (round_robin_elem (reduce events st) pending) as (e & -> & He).
  { intros Hnil. rewrite Hnil in Hin. destruct events as [|f events]; [done|].
    specialize (Hin (envelope_source f)). set_solver. }
  exists e. simpl. split_and!; [done| | |by apply pending_remove_ordered, Hord].
  - apply Hin in He. tauto.
  - intros x. unfold pending_remove. rewrite list_elem_of_filter, Hin. tauto.
Qed.

Module Example_advice.
Definition a : Entity := mk_entity "acme" "order" "1".
Definition b : Entity := mk_entity "acme" "order" "2".
Definition env (e : Entity) (n : Z) : Envelope :=
  mk_envelope [] n ExecutionCompletedType (ExecutionCompleted e 0) e.

Lemma round_robin_serves_pending_witness :
  ∃ e, last_suggestion (sched_state (cycle round_robin (Scheduler_new (mk_channel [] true))
         [env a 1; env b 1])) = Some e ∧ (e = a ∨ e = b).
Proof.
  destruct (round_robin_serves_pending (Scheduler_new (mk_channel [] true)) [env a 1; env b 1])
    as (e & He & Hin & _); [done|constructor|]. exists e. split; [exact He|].
  simpl in Hin. set_solver.
Defined.
End Example_advice.
