(* ===== verification/Fingerprint.v ===== *)
(** * Request fingerprints and stored responses

    The canonical bytes of an operation's arguments, their digest, and the codec of a
    stored response (crates/service-sdk, runtime/idempotency.rs).

    [serde_json] is third-party code: its [Number] is an opaque type with the text
    [Number::to_string] renders, its documents are the inductive [Value], and its
    serializers are arguments of the definitions that call them.  An object is the
    list of its entries in the iteration order of the map, which depends on how
    [serde_json] was built. *)

From S2P Require Import Prelude Identity Reservation.

Set Warnings "-register-all".

(** ** Documents *)
Section value.
Context {number : Type}.

Inductive Value :=
| Null
| VBool (b : bool)
| VNumber (n : number)
| VString (s : string)
| VArray (items : list Value)
| VObject (entries : list (string * Value)).

(** Induction with the hypothesis on every item and every entry. *)
Lemma Value_induction (P : Value → Prop) :
  P Null → (∀ b, P (VBool b)) → (∀ n, P (VNumber n)) → (∀ s, P (VString s)) →
  (∀ items, Forall P items → P (VArray items)) →
  (∀ entries, Forall (P ∘ snd) entries → P (VObject entries)) →
  ∀ v, P v.
Proof.
  intros HN HB Hn Hs HA HO. fix IH 1. intros [|b|n|s|items|entries];
    [exact HN|apply HB|apply Hn|apply Hs|..].
  - apply HA. revert items. fix IHl 1. intros [|v l]; constructor; [apply IH|apply IHl].
  - apply HO. revert entries. fix IHl 1. intros [|[k v] l]; constructor; [apply IH|apply IHl].
Qed.

(** [Value::get(key)] and [entries[key]]. *)
Fixpoint assoc {A} (key : string) (entries : list (string * A)) : option A :=
  match entries with
  | [] => None
  | (k, v) :: rest => if decide (k = key) then Some v else assoc key rest
  end.

Definition get (key : string) (v : Value) : option Value :=
  match v with VObject entries => assoc key entries | _ => None end.

(** ** Canonical bytes *)
Context (number_to_string : number → string).

Definition absorb_bytes (bytes : list Byte.byte) : list Byte.byte :=
  to_be_bytes (Z.of_nat (length bytes)) ++ bytes.

(** The bytes [absorb_canonical] feeds the hasher.  The keys of an object are sorted,
    then each is looked up. *)
Fixpoint absorb_canonical (v : Value) : list Byte.byte :=
  match v with
  | Null => [Byte.x00]
  | VBool b => [Byte.x01; if b then Byte.x01 else Byte.x00]
  | VNumber n => Byte.x02 :: absorb_bytes (string_bytes (number_to_string n))
  | VString s => Byte.x03 :: absorb_bytes (string_bytes s)
  | VArray items =>
      Byte.x04 :: to_be_bytes (Z.of_nat (length items)) ++ concat (map absorb_canonical items)
  | VObject entries =>
      Byte.x05 :: to_be_bytes (Z.of_nat (length entries)) ++
      let absorbed := map (λ '(k, v), (k, absorb_canonical v)) entries in
      concat (map (λ key, absorb_bytes (string_bytes key) ++ default [] (assoc key absorbed))
                (merge_sort String.le (map fst entries)))
  end.

(** [OperationFingerprint]: the digest in lower-case hexadecimal.  [to_value] is the
    serializer of the arguments. *)
Definition hex_of (digest : list Byte.byte) : string :=
  foldr (λ b s, hex_byte b +:+ s) "" digest.

Definition digest_of (sha256 : list Byte.byte → list Byte.byte) (v : Value) :
    OperationFingerprint :=
  mk_fingerprint (hex_of (sha256 (absorb_canonical v))).

(** ** Two documents that mean the same

    The same constructor, the same text of every number and string, the same items,
    and for objects the same entries in any order. *)
Inductive same : Value → Value → Prop :=
| same_null : same Null Null
| same_bool b : same (VBool b) (VBool b)
| same_number n m : number_to_string n = number_to_string m → same (VNumber n) (VNumber m)
| same_string s : same (VString s) (VString s)
| same_array l l' : Forall2 same l l' → same (VArray l) (VArray l')
| same_object es es1 ws1 ws :
    es ≡ₚ es1 → Forall2 (λ p q, p.1 = q.1 ∧ same p.2 q.2) es1 ws1 → ws1 ≡ₚ ws →
    same (VObject es) (VObject ws).

(** What every document in memory satisfies: lengths fit in 64 bits and the keys of an
    object are distinct. *)
Definition fits {A} (l : list A) : Prop := (Z.of_nat (length l) < 2 ^ 64)%Z.

Inductive wf : Value → Prop :=
| wf_null : wf Null
| wf_bool b : wf (VBool b)
| wf_number n : fits (string_bytes (number_to_string n)) → wf (VNumber n)
| wf_string s : fits (string_bytes s) → wf (VString s)
| wf_array l : fits l → Forall wf l → wf (VArray l)
| wf_object es :
    fits es → NoDup es.*1 → Forall (λ p, fits (string_bytes p.1) ∧ wf p.2) es →
    wf (VObject es).

(** ** Framing *)
Lemma absorb_bytes_inj b b' r r' :
  fits b → fits b' → absorb_bytes b ++ r = absorb_bytes b' ++ r' → b = b' ∧ r = r'.
Proof.
  unfold fits, absorb_bytes. rewrite <-!app_assoc. intros Hb Hb' Heq.
  apply app_length_inj in Heq as [Hl Heq]; [|done].
  apply to_be_bytes_inj in Hl; [|lia..]. apply app_length_inj in Heq; [done|lia].
Qed.

Lemma length_prefix_inj {A B} (l : list A) (l' : list B) r r' :
  fits l → fits l' →
  to_be_bytes (Z.of_nat (length l)) ++ r = to_be_bytes (Z.of_nat (length l')) ++ r' →
  length l = length l' ∧ r = r'.
Proof.
  unfold fits. intros Hl Hl' Heq. apply app_length_inj in Heq as [Hn ->]; [|done].
  apply to_be_bytes_inj in Hn; [|lia..]. split; [lia|done].
Qed.

(** Blocks that can be told apart from whatever follows them can be told apart in a
    row. *)
Lemma concat_prefix_inj {A} (f : A → list Byte.byte) (R : A → A → Prop) (l l' : list A) r r' :
  Forall (λ x, ∀ y s s', y ∈ l' → f x ++ s = f y ++ s' → R x y ∧ s = s') l →
  length l = length l' →
  concat (map f l) ++ r = concat (map f l') ++ r' → Forall2 R l l' ∧ r = r'.
Proof.
  intros HF. revert l' HF. induction l as [|x l IH]; intros [|y l'] HF Hlen Heq;
    simpl in *; try lia; [by split; [constructor|]|].
  apply Forall_cons in HF as [Hx HF]. rewrite <-!app_assoc in Heq.
  apply Hx in Heq as [HR Heq]; [|set_solver].
  destruct (IH l') as [HR' Hr]; [|lia|done|by split; [constructor|]].
  eapply Forall_impl; [exact HF|]. intros z Hz y' s s' Hy'. apply Hz. set_solver.
Qed.

(** ** Sorted entries *)
Definition frame (p : string * Value) : list Byte.byte :=
  absorb_bytes (string_bytes p.1) ++ absorb_canonical p.2.

Lemma assoc_elem {A} k (v : A) es : NoDup es.*1 → (k, v) ∈ es → assoc k es = Some v.
Proof.
  induction es as [|[k' v'] es IH]; [set_solver|]. rewrite fmap_cons, NoDup_cons. simpl.
  intros [Hn Hnd] [Heq|Hin]%elem_of_cons; [simplify_eq; by rewrite decide_True|].
  rewrite decide_False; [auto|]. intros ->. apply Hn. apply list_elem_of_fmap. by exists (k, v).
Qed.

Lemma assoc_map {A B} (f : A → B) k es :
  assoc k (map (λ '(k, v), (k, f v)) es) = f <$> assoc k es.
Proof. induction es as [|[k' v'] es IH]; [done|]. simpl. by case_decide. Qed.

Lemma sorted_entries es :
  ∃ es1 : list (string * Value), es ≡ₚ es1 ∧ es1.*1 = merge_sort String.le (map fst es).
Proof.
  destruct (Permutation_map_inv fst _ (merge_sort_Permutation String.le (map fst es)))
    as (es1 & -> & Hp). by exists es1.
Qed.

Lemma absorb_object es es1 :
  NoDup es.*1 → es ≡ₚ es1 → es1.*1 = merge_sort String.le (map fst es) →
  absorb_canonical (VObject es) =
    Byte.x05 :: to_be_bytes (Z.of_nat (length es1)) ++ concat (map frame es1).
Proof.
  intros Hnd Hp Hk. cbn [absorb_canonical]. rewrite <-Hk, (Permutation_length Hp).
  do 3 f_equal. change (es1.*1) with (map fst es1). rewrite map_map. apply map_ext_in.
  intros [k v] Hin%list_elem_of_In. unfold frame. simpl. f_equal.
  rewrite assoc_map, (assoc_elem k v es); [done|done|]. by rewrite Hp.
Qed.

Lemma wf_array_inv l : wf (VArray l) → Forall wf l.
Proof. by inversion 1. Qed.

Lemma wf_object_inv es es1 :
  wf (VObject es) → es ≡ₚ es1 →
  fits es1 ∧ NoDup es.*1 ∧ NoDup es1.*1 ∧
  ∀ p, p ∈ es1 → fits (string_bytes p.1) ∧ wf p.2.
Proof.
  intros Hwf Hp. inversion Hwf as [| | | | |? Hf Hnd HF]; simplify_eq.
  unfold fits in *. rewrite <-(Permutation_length Hp). split_and!; [done|done|by rewrite <-Hp|].
  intros p Hin. rewrite Forall_forall in HF. apply HF. by rewrite Hp.
Qed.

Lemma cons_tail {A} (x y : A) l k : x :: l = y :: k → l = k.
Proof. by intros [= _ ?]. Qed.

(** The bytes of a document tell it apart from whatever follows it. *)
Lemma absorb_prefix v : ∀ w r r', wf v → wf w →
  absorb_canonical v ++ r = absorb_canonical w ++ r' → same v w ∧ r = r'.
Proof.
  induction v as [| | | |items IH|es IH] using Value_induction; intros w r r' Hv Hw Heq;
    destruct w as [|b'|m|t|items'|ws]; try discriminate Heq;
    [..|cbn [absorb_canonical app] in Heq; apply cons_tail in Heq
       |cbn [absorb_canonical app] in Heq; apply cons_tail in Heq
       |cbn [absorb_canonical app] in Heq; apply cons_tail in Heq|].
  - injection Heq as ->. by split; [constructor|].
  - injection Heq as Hb ->. split; [|done]. destruct b, b'; try discriminate Hb; constructor.
  - inversion Hv. inversion Hw. subst.
    apply absorb_bytes_inj in Heq as [Hs ->]; [|done..].
    by split; [constructor; apply string_bytes_inj|].
  - inversion Hv. inversion Hw. subst.
    apply absorb_bytes_inj in Heq as [Hs ->]; [|done..].
    apply string_bytes_inj in Hs as ->. by split; [constructor|].
  - inversion Hv as [| | | |? Hf HF|]. inversion Hw as [| | | |? Hf' HF'|].
    subst. rewrite <-!app_assoc in Heq.
    apply length_prefix_inj in Heq as [Hlen Heq]; [|done..].
    eapply concat_prefix_inj in Heq as [HR ->]; [split; [by constructor|done]| |done].
    rewrite Forall_forall in IH, HF, HF' |- *. intros x Hx y s s' Hy. by apply IH; auto.
  - destruct (sorted_entries es) as (es1 & Hp & Hk), (sorted_entries ws) as (ws1 & Hq & Hl).
    destruct (wf_object_inv es es1) as (Hf & Hnd & _ & HF); [done..|].
    destruct (wf_object_inv ws ws1) as (Hf' & Hnd' & _ & HF'); [done..|].
    rewrite (absorb_object es es1), (absorb_object ws ws1) in Heq by done.
    cbn [app] in Heq. apply cons_tail in Heq. rewrite <-!app_assoc in Heq.
    apply length_prefix_inj in Heq as [Hlen Heq]; [|done..].
    eapply concat_prefix_inj in Heq as [HR ->];
      [split; [by eapply same_object|done]| |done].
    rewrite Forall_forall in IH |- *. intros [k x] Hx [k' y] s s' Hy Hxy.
    unfold frame in Hxy. rewrite <-!app_assoc in Hxy. simpl in *.
    destruct (HF _ Hx) as [Hfk Hwx], (HF' _ Hy) as [Hfk' Hwy]. simpl in *.
    apply absorb_bytes_inj in Hxy as [Hkk Hxy]; [|done..].
    apply string_bytes_inj in Hkk as ->. rewrite <-Hp in Hx.
    destruct (IH (k', x) Hx y s s') as [? ->]; auto.
Qed.

Lemma sorted_keys_unique (ks ks' : list string) :
  ks ≡ₚ ks' → merge_sort String.le ks = merge_sort String.le ks'.
Proof.
  intros Hp. apply (Sorted_unique String.le); [apply Sorted_merge_sort, _..|].
  by rewrite !merge_sort_Permutation.
Qed.

Lemma Forall2_keys es1 ws1 :
  Forall2 (λ p q : string * Value, p.1 = q.1 ∧ same p.2 q.2) es1 ws1 → es1.*1 = ws1.*1.
Proof. induction 1 as [|p q ? ? [??]]; [done|]. rewrite !fmap_cons. by f_equal. Qed.

(** Documents that mean the same have the same bytes. *)
Lemma same_absorb v : ∀ w, same v w → wf v → wf w → absorb_canonical v = absorb_canonical w.
Proof.
  induction v as [| | | |items IH|es IH] using Value_induction; intros w Hs Hv Hw.
  1-4: inversion Hs; simplify_eq; simpl; congruence.
  - inversion Hs as [| | | |? items' HR|]; subst.
    apply wf_array_inv in Hv as HF. apply wf_array_inv in Hw as HF'.
    cbn [absorb_canonical]. rewrite (Forall2_length _ _ _ HR). do 3 f_equal.
    clear Hs Hv Hw. induction HR as [|x y k k' Hxy HR IHR]; [done|]. simpl.
    apply Forall_cons in IH as [Hx IH], HF as [? HF], HF' as [? HF'].
    f_equal; [by apply Hx|by apply IHR].
  - inversion Hs as [| | | | |? es1 ws1 ws Hp HR Hq]; subst.
    destruct (wf_object_inv es es1) as (_ & Hnd & Hnd1 & HF); [done..|].
    destruct (wf_object_inv ws ws1) as (_ & Hnd' & Hndw & HF'); [done|by rewrite Hq|].
    cbn [absorb_canonical]. rewrite (Permutation_length Hp), <-(Permutation_length Hq).
    rewrite (Forall2_length _ _ _ HR). do 2 f_equal.
    assert (map fst es ≡ₚ map fst ws) as Hkeys.
    { change (es.*1 ≡ₚ ws.*1). rewrite Hp, <-Hq. by rewrite (Forall2_keys es1 ws1). }
    rewrite <-(sorted_keys_unique _ _ Hkeys). f_equal. apply map_ext_in.
    intros k Hk%list_elem_of_In. rewrite merge_sort_Permutation in Hk. f_equal.
    apply list_elem_of_fmap in Hk as ([k' x] & -> & Hx). simpl.
    assert ((k', x) ∈ es1) as Hx1 by by rewrite <-Hp.
    apply list_elem_of_lookup in Hx1 as (i & Hi).
    destruct (Forall2_lookup_l _ _ _ _ _ HR Hi) as ([k2 y] & Hi' & Hk2 & Hxy). simpl in *. subst k2.
    assert ((k', y) ∈ ws1) as Hy by (by eapply list_elem_of_lookup_2).
    rewrite !assoc_map, (assoc_elem k' x es), (assoc_elem k' y ws); [|done|by rewrite <-Hq|done..].
    simpl. rewrite Forall_forall in IH. apply (IH (k', x) Hx); [done|..].
    + by apply (HF (k', x)); eapply list_elem_of_lookup_2.
    + by apply (HF' (k', y)).
Qed.
End value.
Arguments Value : clear implicits.
Arguments wf {number} _ _.
Arguments same {number} _ _ _.

(** ** Rejections of the idempotency slot *)
Inductive ReservationRejection :=
| SelfInProgress
| RejectedOtherInProgress
| FingerprintConflict
| StoreUnavailable
| StoredResponseIncompatible
| RequestNotFingerprintable
| TenantUnresolved.

#[export] Instance ReservationRejection_eq_dec : EqDecision ReservationRejection.
Proof. solve_decision. Defined.

(** [to_value] is the serializer of the arguments; it may fail. *)
Definition operation_fingerprint {number T} (number_to_string : number → string)
    (sha256 : list Byte.byte → list Byte.byte) (to_value : T → option (Value number))
    (value : T) : result ReservationRejection OperationFingerprint :=
  match to_value value with
  | None => Err RequestNotFingerprintable
  | Some canonical => Ok (digest_of number_to_string sha256 canonical)
  end.

(** ** Stored responses *)
Inductive StoredResponseError :=
| UnknownEnvelope (found expected : Z)
| Malformed.

Definition STORED_RESPONSE_ENVELOPE : Z := 1.

(** What the codec uses of [serde_json] for outputs of one type. *)
Record serde (number T : Type) := mk_serde {
  number_of_u32 : Z → number;
  number_as_u64 : number → option Z;
  to_value : T → option (Value number);
  from_value : Value number → option T;
  to_vec : Value number → list Byte.byte;
  from_slice : list Byte.byte → option (Value number);
}.
Arguments number_of_u32 {number T} _ _.
Arguments number_as_u64 {number T} _ _.
Arguments to_value {number T} _ _.
Arguments from_value {number T} _ _.
Arguments to_vec {number T} _ _.
Arguments from_slice {number T} _ _.

Section codec.
Context {number T : Type} (S : serde number T).

(** [Value::as_u64] *)
Definition as_u64_value (v : Value number) : option Z :=
  match v with VNumber n => number_as_u64 S n | _ => None end.

(** The document of [Envelope { v, payload }]. *)
Definition envelope (v : Z) (payload : Value number) : Value number :=
  VObject [("v", VNumber (number_of_u32 S v)); ("payload", payload)].

Definition encode_stored_response (value : T) :
    result StoredResponseError StoredServiceResponse :=
  match to_value S value with
  | None => Err Malformed
  | Some payload => Ok (mk_response (to_vec S (envelope STORED_RESPONSE_ENVELOPE payload)))
  end.

Definition decode (stored : StoredServiceResponse) : result StoredResponseError T :=
  match from_slice S (response_bytes stored) with
  | None => Err Malformed
  | Some tagged =>
      match get "v" tagged ≫= as_u64_value with
      | None => Err Malformed
      | Some found =>
          if decide (u32_max < found)%Z then Err Malformed
          else if decide (found ≠ STORED_RESPONSE_ENVELOPE)
          then Err (UnknownEnvelope found STORED_RESPONSE_ENVELOPE)
          else match get "payload" tagged with
               | None => Err Malformed
               | Some payload => ok_or Malformed (from_value S payload)
               end
      end
  end.

Definition decode_stored_response (stored : StoredServiceResponse) :
    result ReservationRejection T :=
  map_err (λ _, StoredResponseIncompatible) (decode stored).

(** What [serde_json] documents: reading back an envelope it wrote gives the same
    document, a [u32] reads back as itself, and an output type deserializes what it
    serialized to. *)
Record serde_ok : Prop := mk_serde_ok {
  slice_reads_vec v x d : (0 ≤ v ≤ u32_max)%Z → to_value S x = Some d →
    from_slice S (to_vec S (envelope v d)) = Some (envelope v d);
  u32_reads_back n : (0 ≤ n ≤ u32_max)%Z → number_as_u64 S (number_of_u32 S n) = Some n;
  value_reads_back x d : to_value S x = Some d → from_value S d = Some x;
}.

Lemma decode_envelope v x d :
  serde_ok → (0 ≤ v ≤ u32_max)%Z → to_value S x = Some d →
  decode (mk_response (to_vec S (envelope v d))) =
    if decide (v = STORED_RESPONSE_ENVELOPE) then ok_or Malformed (from_value S d)
    else Err (UnknownEnvelope v STORED_RESPONSE_ENVELOPE).
Proof.
  intros HS Hv Hd. unfold decode. simpl. rewrite (slice_reads_vec HS v x d) by done. simpl.
  rewrite u32_reads_back by done. unfold u32_max in *. rewrite decide_False by lia.
  unfold STORED_RESPONSE_ENVELOPE.
  destruct (decide (v = 1%Z)) as [->|Hn]; [done|by rewrite decide_True].
Qed.

Lemma encode_decode x r :
  serde_ok → encode_stored_response x = Ok r → decode r = Ok x.
Proof.
  intros HS. unfold encode_stored_response. destruct (to_value S x) as [d|] eqn:Hd; [|done].
  intros [= <-]. rewrite (decode_envelope _ x) by done.
  rewrite decide_True by done. by rewrite (value_reads_back HS x d).
Qed.
End codec.

(** ** Hexadecimal *)
Definition unhex_digit (a : ascii) : N :=
  let n := N_of_ascii a in if (n <=? 57)%N then (n - 48)%N else (n - 87)%N.

Definition unhex (s : string) : option (Byte.byte * string) :=
  match s with
  | String a (String b rest) =>
      (λ x, (x, rest)) <$> Byte.of_N (16 * unhex_digit a + unhex_digit b)
  | _ => None
  end.

Lemma unhex_hex_byte b s : unhex (hex_byte b +:+ s) = Some (b, s).
Proof. destruct b; reflexivity. Qed.

Lemma hex_of_inj d d' : hex_of d = hex_of d' → d = d'.
Proof.
  revert d'. induction d as [|b d IH]; intros [|b' d']; cbn [hex_of foldr]; intros Heq; [done|..].
  - apply (f_equal unhex) in Heq. by rewrite unhex_hex_byte in Heq.
  - apply (f_equal unhex) in Heq. by rewrite unhex_hex_byte in Heq.
  - apply (f_equal unhex) in Heq. rewrite !unhex_hex_byte in Heq. injection Heq as -> Heq.
    f_equal. by apply IH.
Qed.

(** ** Properties *)

(** C40: The canonical bytes identify a request: two argument documents (any numbers,
    any nesting, any order of object keys) feed the hasher the same bytes exactly
    when they mean the same, so a retry always has the fingerprint of the first
    attempt, and two different requests share a fingerprint only where SHA-256
    itself collides. *)
Theorem fingerprint_identifies_request {number} (number_to_string : number → string) sha256
    (v w : Value number) :
  wf number_to_string v → wf number_to_string w →
  (same number_to_string v w →
   digest_of number_to_string sha256 v = digest_of number_to_string sha256 w) ∧
  (digest_of number_to_string sha256 v = digest_of number_to_string sha256 w →
   same number_to_string v w ∨
   (absorb_canonical number_to_string v ≠ absorb_canonical number_to_string w ∧
    sha256 (absorb_canonical number_to_string v) = sha256 (absorb_canonical number_to_string w))).
Proof.
  intros Hv Hw. split.
  - intros Hs. unfold digest_of. by rewrite (same_absorb _ v w).
  - intros [= Hh%hex_of_inj]. destruct (decide (absorb_canonical number_to_string v =
      absorb_canonical number_to_string w)) as [Heq|Hne]; [left|by right].
    apply (absorb_prefix number_to_string v w [] []); [done..|]. by rewrite !app_nil_r.
Qed.

(** The codec of stored responses: what was encoded decodes to the same output, and
    a response written under any other envelope version is refused as such, whatever
    its payload is. *)
Lemma stored_response_round_trip {number T} (S : serde number T) :
  serde_ok S →
  (∀ x r, encode_stored_response S x = Ok r → decode_stored_response S r = Ok x) ∧
  (∀ v x d, (0 ≤ v ≤ u32_max)%Z → to_value S x = Some d → v ≠ STORED_RESPONSE_ENVELOPE →
     decode S (mk_response (to_vec S (envelope S v d))) =
       Err (UnknownEnvelope v STORED_RESPONSE_ENVELOPE)).
Proof.
  intros HS. split.
  - intros x r Hr. unfold decode_stored_response. by rewrite (encode_decode S x r).
  - intros v x d Hv Hd Hn. rewrite (decode_envelope S v x) by done. by rewrite decide_False.
Qed.

(** ** Witnesses *)
Module Example_request.
(** Numbers are integers with their decimal text left out; two keys in two orders. *)
Definition text (n : bool) : string := if n then "1" else "2".
Definition a : Value bool := VObject [("id", VString "o-1"); ("qty", VNumber true)].
Definition b : Value bool := VObject [("qty", VNumber true); ("id", VString "o-1")].

Lemma a_wf : wf text a.
Proof. repeat first [constructor | set_solver | by vm_compute]. Qed.
Lemma b_wf : wf text b.
Proof. repeat first [constructor | set_solver | by vm_compute]. Qed.
Lemma a_same_b : same text a b.
Proof.
  apply (same_object text _ [("id", VString "o-1"); ("qty", VNumber true)] [("id", VString "o-1"); ("qty", VNumber true)]); [reflexivity| |].
  - repeat constructor.
  - apply perm_swap.
Qed.

Lemma fingerprint_identifies_request_witness :
  digest_of text (λ bs, bs) a = digest_of text (λ bs, bs) b.
Proof. by apply (fingerprint_identifies_request text (λ bs, bs) a b a_wf b_wf), a_same_b. Defined.

(** Outputs that are one boolean, written as one byte and the version in unary. *)
Definition write (d : Value Z) : list Byte.byte :=
  match d with
  | VObject [(_, VNumber v); (_, VBool b)] =>
      (if b then Byte.x01 else Byte.x00) :: replicate (Z.to_nat v) Byte.x00
  | _ => []
  end.
Definition codec : serde Z bool :=
  mk_serde Z bool (λ n, n) (λ n, Some n) (λ b, Some (VBool b))
    (λ d, match d with VBool b => Some b | _ => None end) write
    (λ bs, match bs with
           | [] => None
           | b :: rest =>
               Some (VObject [("v", VNumber (Z.of_nat (length rest)));
                              ("payload", VBool (bool_decide (b = Byte.x01)))])
           end).

Lemma codec_ok : serde_ok codec.
Proof.
  split; [|done|].
  - intros v [] d Hv [= <-]; simpl; by rewrite length_replicate, Z2Nat.id by lia.
  - by intros x d [= <-].
Qed.

Lemma stored_response_round_trip_witness :
  decode_stored_response codec (mk_response [Byte.x01; Byte.x00]) = Ok true.
Proof. by apply (stored_response_round_trip codec codec_ok). Defined.
End Example_request.
