(* ===== verification/Security.v ===== *)
(** * Security SDK

    Principals, access requests, authorization and authentication of
    crates/security-sdk and the credential and error types of crates/domain, auth.

    An [AuthorizationProvider] is a function from its arguments to its answer, [None]
    when its task panicked; a [RoleStore] and a [CredentialVerifier] are functions
    too, and may fail.  A [BTreeSet<Role>] is a finite set walked in the byte order
    of the names.  Base64 is a third-party crate and is an argument. *)

From S2P Require Import Prelude Identity Fingerprint.

(** ** Errors *)
Inductive SecurityError :=
| AuthenticationFailed (msg : string)
| InvalidCredential (msg : string)
| InvalidSubjectId (msg : string)
| AuthorizationDenied (reason : string)
| MissingContext
| CapabilityNotEnabled
| ProviderError (msg : string)
| InvalidAccessRequest (msg : string)
| TenantMismatch (expected actual : string)
| CrossTenantDenied (reason : string).

#[export] Instance SecurityError_eq_dec : EqDecision SecurityError.
Proof. solve_decision. Defined.

(** [Display]: tenants and the reasons of a cross-tenant denial are not shown. *)
Definition SecurityError_to_string (e : SecurityError) : string :=
  match e with
  | AuthenticationFailed m => "authentication failed: " +:+ m
  | InvalidCredential m => "invalid credential: " +:+ m
  | InvalidSubjectId m => "invalid subject id: " +:+ m
  | AuthorizationDenied r => "authorization denied: " +:+ r
  | MissingContext => "missing security context"
  | CapabilityNotEnabled => "security capability not enabled"
  | ProviderError m => "provider error: " +:+ m
  | InvalidAccessRequest m => "invalid access request: " +:+ m
  | TenantMismatch _ _ => "tenant mismatch"
  | CrossTenantDenied _ => "cross-tenant access denied"
  end.

Inductive AuthenticationError :=
| InvalidToken (msg : string)
| ExpiredToken
| AlgorithmNotSupported (alg : string)
| MissingClaim (claim : string)
| InvalidSignature
| ProviderUnavailable (msg : string).

Definition AuthenticationError_to_string (e : AuthenticationError) : string :=
  match e with
  | InvalidToken m => "invalid token: " +:+ m
  | ExpiredToken => "token has expired"
  | AlgorithmNotSupported a => "algorithm not supported: " +:+ a
  | MissingClaim c => "missing required claim: " +:+ c
  | InvalidSignature => "invalid token signature"
  | ProviderUnavailable m => "authentication provider unavailable: " +:+ m
  end.

(** ** Credentials *)
Inductive Credential :=
| Basic (username secret : string)
| Bearer (token : string)
| Custom (scheme : string) (payload : list Byte.byte).

(** ** Principals *)
Record SubjectId := mk_subject { subject_str : string }.

Definition SubjectId_new (v : string) : result SecurityError SubjectId :=
  if is_blank v then Err (InvalidSubjectId "subject id must not be empty")
  else Ok (mk_subject v).

Inductive PrincipalKind := User | Service | Process | Agent.

(** [Role(String)] *)
Abbreviation Role := string (only parsing).

Record Principal := mk_principal {
  principal_kind : PrincipalKind;
  subject_id : SubjectId;
  principal_tenant : option TenantId;
  roles : gset Role;
  attributes : gmap string string;
}.

Definition Principal_new (kind : PrincipalKind) (subject : SubjectId) : Principal :=
  mk_principal kind subject None ∅ ∅.
Definition with_tenant (t : TenantId) (p : Principal) : Principal :=
  mk_principal (principal_kind p) (subject_id p) (Some t) (roles p) (attributes p).
Definition with_role (r : Role) (p : Principal) : Principal :=
  mk_principal (principal_kind p) (subject_id p) (principal_tenant p) ({[r]} ∪ roles p)
    (attributes p).
Definition with_attribute (k v : string) (p : Principal) : Principal :=
  mk_principal (principal_kind p) (subject_id p) (principal_tenant p) (roles p)
    (<[k := v]> (attributes p)).
Definition has_role (r : Role) (p : Principal) : bool := bool_decide (r ∈ roles p).

(** A JSON number stands for its text. *)
Abbreviation Json := (Value string).

Record StandardClaims := mk_standard {
  exp : option Z;
  nbf : option Z;
  iat : option Z;
  jti : option string;
  iss : option string;
  aud : option (list string);
}.
Definition StandardClaims_default : StandardClaims := mk_standard None None None None None None.

Record Claims := mk_claims { standard : StandardClaims; custom : gmap string Json }.
Definition Claims_empty : Claims := mk_claims StandardClaims_default ∅.

Record SecurityContext := mk_security { principal : Principal; claims : Claims }.
Definition SecurityContext_empty (p : Principal) : SecurityContext := mk_security p Claims_empty.

(** ** Access requests *)
Record Resource := mk_resource { resource_kind : string; resource_id : option string }.
Record AccessRequest := mk_access { resource : Resource; action : string }.

(** [str::split_once(':')] and [str::contains(':')]. *)
Definition colon : ascii := ":"%char.

Fixpoint split_once (c : ascii) (s : string) : option (string * string) :=
  match s with
  | EmptyString => None
  | String a rest =>
      if decide (a = c) then Some ("", rest)
      else prod_map (String a) id <$> split_once c rest
  end.

Fixpoint contains (c : ascii) (s : string) : bool :=
  match s with
  | EmptyString => false
  | String a rest => if decide (a = c) then true else contains c rest
  end.

(** A piece of text between double quotes. *)
Definition quoted (s : string) : string := String "034" (s +:+ String "034" "").

Definition from_static (permission : string) : result string AccessRequest :=
  match split_once colon permission with
  | Some (res, act) =>
      if bool_decide (res ≠ "") && bool_decide (act ≠ "") && negb (contains colon act)
         && bool_decide (res ≠ "*") && bool_decide (act ≠ "*")
      then Ok (mk_access (mk_resource res None) act)
      else if bool_decide (res = "*") || bool_decide (act = "*")
      then Err "wildcard not valid in access request; wildcards belong on the grant side"
      else Err ("permission must be " +:+ quoted "resource:action" +:+ " with non-empty parts")
  | None => Err ("permission must be " +:+ quoted "resource:action" +:+ " with non-empty parts")
  end.

Definition from_permission (descriptor : string) : result SecurityError AccessRequest :=
  match split_once colon descriptor with
  | None =>
      Err (InvalidAccessRequest ("expected 'resource:action', got '" +:+ descriptor +:+ "'"))
  | Some (res, act) =>
      if decide (res = "") then Err (InvalidAccessRequest "resource segment must not be empty")
      else if decide (act = "") then Err (InvalidAccessRequest "action segment must not be empty")
      else if decide (res = "*") then
        Err (InvalidAccessRequest "wildcard resource '*' is not valid in an access request; wildcards belong on the permission/grant side")
      else if decide (act = "*") then
        Err (InvalidAccessRequest "wildcard action '*' is not valid in an access request; wildcards belong on the permission/grant side")
      else if contains colon act then
        Err (InvalidAccessRequest ("permission must have exactly one ':' (form "
               +:+ quoted "resource:action" +:+ ")"))
      else Ok (mk_access (mk_resource res None) act)
  end.

(** ** Authorization *)
Inductive AuthorizationDecision := Allow | Deny (reason : string).

Definition AuthorizationProvider : Type :=
  Principal → AccessRequest → SecurityContext → option (result SecurityError AuthorizationDecision).

Definition authorize_in_context (security : option SecurityContext) (res : Resource)
    (act : string) (provider : AuthorizationProvider) : result SecurityError unit :=
  match security with
  | None => Err CapabilityNotEnabled
  | Some sec =>
      let decision := default (Err (ProviderError "authorization provider panicked"))
                        (provider (principal sec) (mk_access res act) sec) in
      match decision with
      | Err e => Err e
      | Ok Allow => Ok ()
      | Ok (Deny reason) => Err (AuthorizationDenied reason)
      end
  end.

Definition deny_all : AuthorizationProvider := λ _ _ _, Some (Ok (Deny "deny-all")).
Definition allow_all : AuthorizationProvider := λ _ _ _, Some (Ok Allow).

(** ** Role-based access control *)
Record Permission := mk_permission { perm_resource : string; perm_action : string }.

Definition RoleStore : Type := Role → result SecurityError (list Permission).

(** [InMemoryRoleStore] *)
Abbreviation Grants := (gmap Role (list Permission)).
Definition store_with_role (r : Role) (ps : list Permission) (grants : Grants) : Grants :=
  <[r := ps]> grants.
Definition permissions_for_role (grants : Grants) : RoleStore := λ r, Ok (default [] (grants !! r)).

Definition grants_request (request : AccessRequest) (perm : Permission) : bool :=
  bool_decide (perm_resource perm = resource_kind (resource request))
  && (bool_decide (perm_action perm = action request) || bool_decide (perm_action perm = "*")).

Fixpoint rbac_loop (store : RoleStore) (request : AccessRequest) (rs : list Role) :
    result SecurityError AuthorizationDecision :=
  match rs with
  | [] => Ok (Deny ("no permission for " +:+ resource_kind (resource request) +:+ ":"
                      +:+ action request))
  | role :: rest =>
      match store role with
      | Err e => Err e
      | Ok perms =>
          if existsb (grants_request request) perms then Ok Allow
          else rbac_loop store request rest
      end
  end.

(** The roles in the order of the [BTreeSet]. *)
Definition role_order (rs : gset Role) : list Role := merge_sort String.le (elements rs).

Definition rbac_authorize (store : RoleStore) : AuthorizationProvider :=
  λ p request _, Some (rbac_loop store request (role_order (roles p))).

(** ** Credential extraction *)
Record RequestContext := mk_request_context {
  header : string → option string;
  metadata : string → option string;
  query_param : string → option string;
}.

Definition ascii_lowercase (a : ascii) : ascii :=
  if byte_in 65 90 a then ascii_of_N (N_of_ascii a + 32) else a.

Fixpoint to_ascii_lowercase (s : string) : string :=
  match s with
  | EmptyString => ""
  | String a rest => String (ascii_lowercase a) (to_ascii_lowercase rest)
  end.

Fixpoint strip_prefix (p s : string) : option string :=
  match p, s with
  | EmptyString, _ => Some s
  | String a p', String b s' => if decide (a = b) then strip_prefix p' s' else None
  | _, _ => None
  end.

Definition starts_with (p s : string) : bool := bool_decide (is_Some (strip_prefix p s)).

Fixpoint str_drop (n : nat) (s : string) : string :=
  match n, s with
  | O, _ => s
  | S n, EmptyString => ""
  | S n, String _ s => str_drop n s
  end.

(** [s.get(n..)]: [None] past the end or inside a character. *)
Definition str_from (n : nat) (s : string) : option string :=
  if decide (String.length s < n) then None
  else match str_drop n s with
       | String a _ as rest => if byte_in 0x80 0xBF a then None else Some rest
       | EmptyString => Some ""
       end.

Definition bearer_extract (request : RequestContext) :
    result AuthenticationError (option Credential) :=
  match header request "authorization" with
  | None => Ok None
  | Some val =>
      let lower := to_ascii_lowercase val in
      match strip_prefix "bearer " lower with
      | Some token_lower =>
          let offset := String.length val - String.length token_lower in
          match str_from offset val with
          | None => Err (InvalidToken "Authorization header has invalid byte boundary")
          | Some token =>
              if starts_with " " token
              then Err (InvalidToken "Authorization header has extra whitespace after Bearer scheme")
              else Ok (Some (Bearer token))
          end
      | None =>
          if starts_with "bearer" lower
          then Err (InvalidToken "Authorization header uses Bearer scheme with invalid separator")
          else Ok None
      end
  end.

(** [str::from_utf8]: the well-formed sequences of Unicode's table 3-7. *)
Definition cont (a : ascii) : bool := byte_in 0x80 0xBF a.

Fixpoint utf8_valid (s : string) : bool :=
  match s with
  | EmptyString => true
  | String a s1 =>
      if byte_in 0 0x7F a then utf8_valid s1 else
      match s1 with
      | EmptyString => false
      | String b s2 =>
          if byte_in 0xC2 0xDF a then cont b && utf8_valid s2 else
          match s2 with
          | EmptyString => false
          | String c s3 =>
              if byte_in 0xE0 0xEF a then
                (if is_byte 0xE0 a then byte_in 0xA0 0xBF b
                 else if is_byte 0xED a then byte_in 0x80 0x9F b else cont b)
                && cont c && utf8_valid s3
              else
              match s3 with
              | EmptyString => false
              | String d s4 =>
                  byte_in 0xF0 0xF4 a
                  && (if is_byte 0xF0 a then byte_in 0x90 0xBF b
                      else if is_byte 0xF4 a then byte_in 0x80 0x8F b else cont b)
                  && cont c && cont d && utf8_valid s4
              end
          end
      end
  end.

(** [base64_decode] is the standard engine of the [base64] crate. *)
Definition basic_extract (base64_decode : string → option (list Byte.byte))
    (request : RequestContext) : result AuthenticationError (option Credential) :=
  match header request "authorization" with
  | None => Ok None
  | Some val =>
      if negb (starts_with "basic " (to_ascii_lowercase val)) then Ok None
      else match str_from 6 val with
           | None => Err (InvalidToken "Authorization header has invalid byte boundary")
           | Some encoded =>
               match base64_decode encoded with
               | None => Err (InvalidToken "Basic credential is not valid base64")
               | Some decoded =>
                   let text := string_of_list_byte decoded in
                   if negb (utf8_valid text)
                   then Err (InvalidToken "Basic credential is not valid UTF-8")
                   else match split_once colon text with
                        | None => Err (InvalidToken "Basic credential missing ':' separator")
                        | Some (username, secret) => Ok (Some (Basic username secret))
                        end
               end
           end
  end.

Definition api_key_extract (header_name : string) (request : RequestContext) :
    result AuthenticationError (option Credential) :=
  match header request header_name with
  | None => Ok None
  | Some val =>
      if decide (val = "")
      then Err (InvalidToken "API key header present but value is empty")
      else Ok (Some (Bearer val))
  end.

(** ** Authentication *)
Definition AuthenticationProvider : Type := Credential → result AuthenticationError SecurityContext.

(** [verify] is the host's [CredentialVerifier]. *)
Definition basic_authenticate (verify : string → string → result SecurityError (option Principal)) :
    AuthenticationProvider := λ credential,
  match credential with
  | Basic username secret =>
      match verify username secret with
      | Ok (Some p) => Ok (SecurityContext_empty p)
      | Ok None => Err (InvalidToken "invalid username or password")
      | Err e => Err (ProviderUnavailable (SecurityError_to_string e))
      end
  | _ => Err (InvalidToken "BasicAuthenticationProvider requires a Basic credential")
  end.

Definition intercept (extract : RequestContext → result AuthenticationError (option Credential))
    (provider : AuthenticationProvider) (ctx : RequestContext) :
    result AuthenticationError (option SecurityContext) :=
  match extract ctx with
  | Err e => Err e
  | Ok None => Ok None
  | Ok (Some cred) => Some <$> provider cred
  end.

(** ** Access requests *)

(** Decide [P] for the booleans of the goal that mention it. *)
#[local] Ltac settle P :=
  destruct (decide P) as [?|?];
  [ rewrite ?(bool_decide_eq_true_2 P), ?(bool_decide_eq_false_2 (¬P)) by tauto
  | rewrite ?(bool_decide_eq_false_2 P), ?(bool_decide_eq_true_2 (¬P)) by tauto ]; simpl.

(** The two parsers accept the same descriptors and read them the same way. *)
Lemma parsers_agree (d : string) (r : AccessRequest) :
  from_static d = Ok r ↔ from_permission d = Ok r.
Proof.
  unfold from_static, from_permission. destruct (split_once colon d) as [[res act]|];
    [|by forget_errors; split].
  generalize (contains colon act). intros b. forget_errors.
  settle (res = ""); [by destruct (_ || _)|]. settle (act = ""); [by destruct (_ || _)|].
  settle (res = "*"); [by rewrite andb_false_r|].
  settle (act = "*"); [by rewrite andb_false_r|]. destruct b; simpl; [done|].
  split; by intros [= <-].
Qed.

Lemma split_once_Some c s l r :
  split_once c s = Some (l, r) ↔ s = l +:+ String c r ∧ contains c l = false.
Proof.
  revert l r. induction s as [|a s IH]; intros l r; simpl.
  - split; [done|]. by destruct l; intros [? _].
  - destruct (decide (a = c)) as [->|Hn].
    + split; [by intros [= <- <-]|]. destruct l as [|b l]; simpl; [by intros [[= ->] _]|].
      intros [[= -> ->] Hc]. by rewrite decide_True in Hc.
    + destruct (split_once c s) as [[l' r']|] eqn:Hs; simpl.
      * destruct (proj1 (IH l' r') eq_refl) as [-> Hl']. split.
        -- intros [= <- <-]. simpl. by rewrite decide_False by done.
        -- destruct l as [|b l]; simpl; [intros [[= ? ?] _]; congruence|].
           intros [[= -> Heq] Hc]. rewrite decide_False in Hc by done.
           assert (Some (l', r') = Some (l, r)) as [= -> ->]; [|done]. by apply IH.
      * split; [done|]. destruct l as [|b l]; simpl; [intros [[= ? ?] _]; congruence|].
        intros [[= -> ->] Hc]. rewrite decide_False in Hc by done.
        assert (None = Some (l, r)); [|done]. by apply IH.
Qed.

Lemma from_permission_ok d r :
  from_permission d = Ok r ↔
  d = resource_kind (resource r) +:+ String colon (action r) ∧ resource_id (resource r) = None ∧
  contains colon (resource_kind (resource r)) = false ∧ contains colon (action r) = false ∧
  resource_kind (resource r) ≠ "" ∧ action r ≠ "" ∧
  resource_kind (resource r) ≠ "*" ∧ action r ≠ "*".
Proof.
  unfold from_permission. destruct r as [[k i] a]; simpl. forget_errors. split.
  - destruct (split_once colon d) as [[res act]|] eqn:Hd; [|done].
    apply split_once_Some in Hd as [-> Hc]. repeat (case_decide; [done|]).
    destruct (contains colon act) eqn:Ha; [done|]. by intros [= -> <- ->].
  - intros (Hd & -> & Hk & Ha & ? & ? & ? & ?).
    rewrite (proj2 (split_once_Some _ _ _ _) (conj Hd Hk)).
    by rewrite !decide_False, Ha by done.
Qed.

Lemma request_not_wildcard d r : from_permission d = Ok r → resource_kind (resource r) ≠ "*".
Proof. intros H%from_permission_ok. naive_solver. Qed.

(** ** Role-based access control *)
Definition granted (store : RoleStore) (request : AccessRequest) (rs : list Role) : Prop :=
  ∃ role perms, role ∈ rs ∧ store role = Ok perms ∧
    ∃ perm, perm ∈ perms ∧ grants_request request perm = true.

Lemma existsb_elem_of {A} (f : A → bool) l : existsb f l = true ↔ ∃ x, x ∈ l ∧ f x = true.
Proof.
  rewrite existsb_exists. by setoid_rewrite list_elem_of_In.
Qed.

Lemma rbac_loop_sound store request rs :
  rbac_loop store request rs = Ok Allow → granted store request rs.
Proof.
  induction rs as [|r rs IH]; simpl; [done|]. destruct (store r) as [perms|e] eqn:Hr; [|done].
  destruct (existsb (grants_request request) perms) eqn:He.
  - intros _. exists r, perms. apply existsb_elem_of in He. split_and!; [left|done|done].
  - intros H. destruct (IH H) as (r' & ps & Hin & Hps & Hp). exists r', ps. by split_and!; [right|..].
Qed.

Lemma rbac_loop_complete store request rs :
  (∀ r, r ∈ rs → is_ok (store r) = true) → granted store request rs →
  rbac_loop store request rs = Ok Allow.
Proof.
  intros Hok (role & perms & Hin & Hp & Hg). induction rs as [|r rs IH]; simpl; [set_solver|].
  destruct (store r) as [ps|e] eqn:Hr.
  2: { specialize (Hok r ltac:(left)). by rewrite Hr in Hok. }
  destruct (existsb (grants_request request) ps) eqn:He; [done|].
  apply elem_of_cons in Hin as [->|Hin]; [|apply IH; [intros; apply Hok; by right|done]].
  rewrite Hr in Hp. injection Hp as ->. apply existsb_elem_of in Hg. congruence.
Qed.

Lemma elem_of_role_order r rs : r ∈ role_order rs ↔ r ∈ rs.
Proof. unfold role_order. by rewrite merge_sort_Permutation, elem_of_elements. Qed.

(** ** Extraction *)
Lemma str_drop_lower n s : str_drop n (to_ascii_lowercase s) = to_ascii_lowercase (str_drop n s).
Proof. revert s. induction n as [|n IH]; intros [|a s]; simpl; auto. Qed.

Lemma length_lower s : String.length (to_ascii_lowercase s) = String.length s.
Proof. induction s; simpl; congruence. Qed.

Lemma lower_app s t : to_ascii_lowercase (s +:+ t) = to_ascii_lowercase s +:+ to_ascii_lowercase t.
Proof. induction s as [|a s IH]; [done|]. simpl. by rewrite IH. Qed.

Lemma strip_prefix_Some p s r : strip_prefix p s = Some r ↔ s = p +:+ r.
Proof.
  revert s. induction p as [|a p IH]; intros s; simpl; [by split; [intros [= ->]|intros ->]|].
  destruct s as [|b s]; [done|]. destruct (decide (a = b)) as [->|Hn].
  - rewrite IH. split; [by intros ->|by intros [= ->]].
  - split; [done|]. by intros [= -> ->].
Qed.

Lemma str_drop_app p r : str_drop (String.length p) (p +:+ r) = r.
Proof. induction p; simpl; auto. Qed.

Lemma str_length_app' p r : String.length (p +:+ r) = String.length p + String.length r.
Proof. induction p; simpl; auto. Qed.

(** A value without a stray continuation byte at the start of the token: what a
    header in UTF-8 is. *)
Definition at_boundary (s : string) : bool :=
  match s with String a _ => negb (byte_in 0x80 0xBF a) | EmptyString => true end.

Lemma str_from_app p r : at_boundary r = true → str_from (String.length p) (p +:+ r) = Some r.
Proof.
  intros Hb. unfold str_from. rewrite str_length_app', decide_False by lia.
  rewrite str_drop_app. destruct r as [|a r]; [done|]. simpl in Hb.
  by destruct (byte_in 128 191 a).
Qed.

(** The header that the scheme and the token spell. *)
Lemma bearer_extract_token request scheme token :
  header request "authorization" = Some (scheme +:+ token) →
  to_ascii_lowercase scheme = "bearer " → at_boundary token = true →
  bearer_extract request =
    if starts_with " " token
    then Err (InvalidToken "Authorization header has extra whitespace after Bearer scheme")
    else Ok (Some (Bearer token)).
Proof.
  intros Hh Hs Hb. unfold bearer_extract. rewrite Hh.
  assert (to_ascii_lowercase (scheme +:+ token) = "bearer " +:+ to_ascii_lowercase token) as Hl.
  { rewrite <-Hs. apply lower_app. }
  rewrite Hl, (proj2 (strip_prefix_Some _ _ (to_ascii_lowercase token)) eq_refl).
  rewrite length_lower, str_length_app', Nat.add_sub, str_from_app by done. done.
Qed.

(** ** Properties *)

(** Role-based authorization grants exactly what was granted: with the in-memory
    role store a request is allowed if and only if some role of the principal holds a
    permission for that resource and for that action or every action, whatever the
    order of the roles; over a store that may fail an allowed request is still one a
    role of the principal was granted; and a wildcard in the resource position of a
    permission grants nothing that a parsed request can ask for. *)
Lemma rbac_allows_exactly_grants p d request sec :
  from_permission d = Ok request →
  (∀ grants, rbac_authorize (permissions_for_role grants) p request sec = Some (Ok Allow) ↔
     ∃ role perm, role ∈ roles p ∧ perm ∈ default [] (grants !! role) ∧
       perm_resource perm = resource_kind (resource request) ∧
       (perm_action perm = action request ∨ perm_action perm = "*")) ∧
  (∀ store, rbac_authorize store p request sec = Some (Ok Allow) →
     ∃ role perms perm, role ∈ roles p ∧ store role = Ok perms ∧ perm ∈ perms ∧
       perm_resource perm = resource_kind (resource request) ∧ perm_resource perm ≠ "*" ∧
       (perm_action perm = action request ∨ perm_action perm = "*")).
Proof.
  intros Hd.
  assert (∀ perm, grants_request request perm = true ↔
    perm_resource perm = resource_kind (resource request) ∧
    (perm_action perm = action request ∨ perm_action perm = "*")) as Hg.
  { intros perm. unfold grants_request. by rewrite andb_true_iff, orb_true_iff, !bool_decide_eq_true. }
  assert (resource_kind (resource request) ≠ "*") as Hstar by by eapply request_not_wildcard.
  split.
  - intros grants. unfold rbac_authorize. split.
    + intros [= H]. apply rbac_loop_sound in H as (role & perms & Hin & [= <-] & perm & Hp & H).
      exists role, perm. rewrite <-elem_of_role_order, <-Hg. done.
    + intros (role & perm & Hin & Hp & H%Hg). f_equal. apply rbac_loop_complete; [done|].
      exists role, (default [] (grants !! role)). rewrite elem_of_role_order. naive_solver.
  - intros store [= H]. apply rbac_loop_sound in H as (role & perms & Hin & Hs & perm & Hp & [? ?]%Hg).
    exists role, perms, perm. rewrite <-elem_of_role_order. split_and!; congruence || done.
Qed.

(** The parsers of permission descriptors accept the same strings and read them the
    same way, exactly those of the form resource, one colon, action, with both parts
    non-empty, no wildcard and no second colon. *)
Lemma permission_parsers_agree d r :
  (from_static d = Ok r ↔ from_permission d = Ok r) ∧
  (from_permission d = Ok r ↔
     d = resource_kind (resource r) +:+ String colon (action r) ∧ resource_id (resource r) = None ∧
     contains colon (resource_kind (resource r)) = false ∧ contains colon (action r) = false ∧
     resource_kind (resource r) ≠ "" ∧ action r ≠ "" ∧
     resource_kind (resource r) ≠ "*" ∧ action r ≠ "*").
Proof. split; [apply parsers_agree|apply from_permission_ok]. Qed.

(** Authorization fails closed: access is granted only when a security context is
    present and the provider answered with an explicit allow for exactly this request;
    a missing context, a denial, an error and a panic of the provider are all
    refusals. *)
Lemma authorization_fails_closed security res act provider :
  authorize_in_context security res act provider = Ok () ↔
  ∃ sec, security = Some sec ∧
    provider (principal sec) (mk_access res act) sec = Some (Ok Allow).
Proof.
  unfold authorize_in_context. destruct security as [sec|]; [|by split; [|intros (? & ? & _)]].
  destruct (provider (principal sec) (mk_access res act) sec) as [[[|reason]|e]|] eqn:Hp; simpl;
    (split; [try discriminate|intros (sec' & [= <-] & Hp'); rewrite Hp in Hp'; try discriminate]);
    [|done]. intros _. by exists sec.
Qed.

(** A bearer header round trips: for a scheme spelled in any case, one space and a
    token that does not start with a space, exactly that token is extracted and what
    the provider is asked to authenticate is that token; a header of another scheme is
    left to others and a second space is refused. *)
Lemma bearer_token_round_trip request scheme token provider :
  header request "authorization" = Some (scheme +:+ token) →
  to_ascii_lowercase scheme = "bearer " → at_boundary token = true →
  (starts_with " " token = false →
   intercept bearer_extract provider request = Some <$> provider (Bearer token)) ∧
  (starts_with " " token = true →
   intercept bearer_extract provider request =
     Err (InvalidToken "Authorization header has extra whitespace after Bearer scheme")).
Proof.
  intros Hh Hs Hb. unfold intercept. rewrite (bearer_extract_token request scheme token) by done.
  split; by intros ->.
Qed.

(** ** Witnesses *)
Module Example_access.
Definition alice : Principal :=
  with_role "clerk" (Principal_new User (mk_subject "user:alice")).
Definition request : AccessRequest := mk_access (mk_resource "orders" None) "read".
Definition grants : Grants := store_with_role "clerk" [mk_permission "orders" "*"] ∅.

Lemma rbac_allows_exactly_grants_witness :
  rbac_authorize (permissions_for_role grants) alice request (SecurityContext_empty alice)
    = Some (Ok Allow).
Proof.
  apply (rbac_allows_exactly_grants alice "orders:read" request (SecurityContext_empty alice)
           ltac:(vm_compute; reflexivity)).
  exists "clerk", (mk_permission "orders" "*"). vm_compute. split_and!; [done|left|done|by right].
Defined.

Definition req : RequestContext :=
  mk_request_context (λ n, if decide (n = "authorization") then Some "BEARER abc" else None)
    (λ _, None) (λ _, None).

Lemma bearer_token_round_trip_witness :
  intercept bearer_extract (λ c, match c with Bearer t => Err (MissingClaim t) | _ => Err ExpiredToken end)
    req = Err (MissingClaim "abc").
Proof. by apply (bearer_token_round_trip req "BEARER " "abc"). Defined.
End Example_access.
