(* ===== verification/Trace.v ===== *)
(** * Trace identifiers

    The W3C trace context of crates/domain, tracer.rs.  An identifier is its bytes;
    random bytes are arguments.  Slicing a string inside a character panics, which is
    [None]. *)

From S2P Require Import Prelude Identity Fingerprint Security.

Record TraceId := mk_trace_id { trace_bytes : list Byte.byte }.
Record SpanId := mk_span_id { span_bytes : list Byte.byte }.

#[export] Instance TraceId_eq_dec : EqDecision TraceId.
Proof. solve_decision. Defined.
#[export] Instance SpanId_eq_dec : EqDecision SpanId.
Proof. solve_decision. Defined.

Record TraceContext := mk_trace {
  trace_trace_id : TraceId;
  trace_span_id : SpanId;
  trace_parent_span_id : option SpanId;
}.

Inductive TraceParseError := InvalidFormat.

(** ** Hexadecimal *)
Definition encode_hex (bytes : list Byte.byte) : string := hex_of bytes.

Definition hex_value (a : ascii) : option N :=
  let n := N_of_ascii a in
  if byte_in 48 57 a then Some (n - 48)%N
  else if byte_in 97 102 a then Some (n - 87)%N
  else if byte_in 65 70 a then Some (n - 55)%N
  else None.

Fixpoint radix16 (acc : N) (s : string) : option N :=
  match s with
  | EmptyString => Some acc
  | String a rest => hex_value a ≫= λ d, radix16 (16 * acc + d) rest
  end.

(** [u8::from_str_radix(s, 16)]: a leading plus sign is skipped, an empty string and a
    lone sign are refused, and so is a value over 255. *)
Definition u8_from_str_radix16 (s : string) : option Byte.byte :=
  match s with
  | EmptyString => None
  | String "+" EmptyString => None
  | String "+" digits => radix16 0 digits ≫= Byte.of_N
  | digits => radix16 0 digits ≫= Byte.of_N
  end.

Definition is_char_boundary (n : nat) (s : string) : bool :=
  match str_drop n s with String a _ => negb (byte_in 0x80 0xBF a) | EmptyString => true end.

Fixpoint str_take (n : nat) (s : string) : string :=
  match n, s with
  | S n, String a s => String a (str_take n s)
  | _, _ => ""
  end.

(** [&s[i * 2..i * 2 + 2]] *)
Definition pair_at (i : nat) (s : string) : option string :=
  if is_char_boundary (i * 2) s && is_char_boundary (i * 2 + 2) s
  then Some (str_take 2 (str_drop (i * 2) s)) else None.

(** The loop over the output bytes [i], [i + 1], ..., [n] of them. *)
Fixpoint decode_pairs (s : string) (i n : nat) :
    option (result TraceParseError (list Byte.byte)) :=
  match n with
  | O => Some (Ok [])
  | S n =>
      match pair_at i s with
      | None => None
      | Some hex_pair =>
          match u8_from_str_radix16 hex_pair with
          | None => Some (Err InvalidFormat)
          | Some byte => fmap (M:=result TraceParseError) (cons byte) <$> decode_pairs s (S i) n
          end
      end
  end.

Definition decode_hex (s : string) (len : nat) :
    option (result TraceParseError (list Byte.byte)) :=
  if decide (String.length s ≠ len * 2) then Some (Err InvalidFormat)
  else decode_pairs s 0 len.

Definition TraceId_from_hex (s : string) : option (result TraceParseError TraceId) :=
  fmap (M:=result TraceParseError) mk_trace_id <$> decode_hex s 16.
Definition SpanId_from_hex (s : string) : option (result TraceParseError SpanId) :=
  fmap (M:=result TraceParseError) mk_span_id <$> decode_hex s 8.

Definition trace_is_zero (t : TraceId) : bool :=
  bool_decide (trace_bytes t = replicate 16 Byte.x00).
Definition span_is_zero (s : SpanId) : bool :=
  bool_decide (span_bytes s = replicate 8 Byte.x00).

(** ** The header *)
Definition to_traceparent (t : TraceContext) : string :=
  "00-" +:+ encode_hex (trace_bytes (trace_trace_id t)) +:+ "-"
    +:+ encode_hex (span_bytes (trace_span_id t)) +:+ "-01".

(** [str::split('-')] *)
Fixpoint split (c : ascii) (s : string) : list string :=
  match s with
  | EmptyString => [""]
  | String a rest =>
      if decide (a = c) then "" :: split c rest
      else match split c rest with
           | [] => [String a ""]
           | part :: parts => String a part :: parts
           end
  end.

Definition is_ascii_hexdigit (a : ascii) : bool :=
  byte_in 48 57 a || byte_in 97 102 a || byte_in 65 70 a.
Definition is_ascii_uppercase (a : ascii) : bool := byte_in 65 90 a.

Definition parse_traceparent (s : string) : option (result TraceParseError (TraceId * SpanId)) :=
  match split "-" s with
  | [version; trace_id_hex; span_id_hex; flags] =>
      if bool_decide (String.length version ≠ 2) || bool_decide (String.length flags ≠ 2)
      then Some (Err InvalidFormat)
      else if negb (all_bytes is_ascii_hexdigit version) || negb (all_bytes is_ascii_hexdigit flags)
      then Some (Err InvalidFormat)
      else if decide (version ≠ "00") then Some (Err InvalidFormat)
      else if existsb (λ f, negb (all_bytes (λ b, negb (is_ascii_uppercase b)) f))
                [trace_id_hex; span_id_hex; flags]
      then Some (Err InvalidFormat)
      else match TraceId_from_hex trace_id_hex with
           | None => None
           | Some (Err e) => Some (Err e)
           | Some (Ok trace_id) =>
               if trace_is_zero trace_id then Some (Err InvalidFormat)
               else match SpanId_from_hex span_id_hex with
                    | None => None
                    | Some (Err e) => Some (Err e)
                    | Some (Ok span_id) =>
                        if span_is_zero span_id then Some (Err InvalidFormat)
                        else Some (Ok (trace_id, span_id))
                    end
           end
  | _ => Some (Err InvalidFormat)
  end.

(** ** Contexts; [fresh] is what [SpanId::new] and [TraceId::new] drew. *)
Definition trace_root (fresh_trace : TraceId) (fresh : SpanId) : TraceContext :=
  mk_trace fresh_trace fresh None.
Definition from_inbound (fresh : SpanId) (traceparent : string) :
    option (result TraceParseError TraceContext) :=
  fmap (M:=result TraceParseError) (λ '(trace_id, remote), mk_trace trace_id fresh (Some remote))
    <$> parse_traceparent traceparent.
Definition trace_child (fresh : SpanId) (t : TraceContext) : TraceContext :=
  mk_trace (trace_trace_id t) fresh (Some (trace_span_id t)).

(** ** Round trip *)
Lemma from_radix_hex_byte b : u8_from_str_radix16 (hex_byte b) = Some b.
Proof. destruct b; reflexivity. Qed.

Lemma hex_byte_chars b :
  ∃ x y, hex_byte b = String x (String y "") ∧
    is_ascii_hexdigit x = true ∧ is_ascii_hexdigit y = true ∧
    is_ascii_uppercase x = false ∧ is_ascii_uppercase y = false.
Proof. destruct b; by eexists _, _. Qed.

Lemma hexdigit_boundary x s :
  is_ascii_hexdigit x = true → is_char_boundary 0 (String x s) = true.
Proof. destruct x as [[] [] [] [] [] [] [] []]; done. Qed.

Lemma str_drop_plus n m s : str_drop (n + m) s = str_drop m (str_drop n s).
Proof.
  revert s. induction n as [|n IH]; intros [|a s]; simpl; [done..| |apply IH].
  by destruct m.
Qed.

Lemma hex_of_boundary bs : is_char_boundary 0 (hex_of bs) = true.
Proof.
  destruct bs as [|b bs]; [done|]. cbn [hex_of foldr].
  destruct (hex_byte_chars b) as (x & y & -> & Hx & _). by apply (hexdigit_boundary x).
Qed.

Lemma boundary_after p s n :
  String.length p = n → is_char_boundary n (p +:+ s) = is_char_boundary 0 s.
Proof. intros <-. unfold is_char_boundary. by rewrite str_drop_app. Qed.

Lemma length_hex_of bs : String.length (hex_of bs) = 2 * length bs.
Proof.
  induction bs as [|b bs IH]; [done|]. cbn [hex_of foldr length].
  change (foldr _ _ bs) with (hex_of bs). rewrite str_length_app', length_hex_byte, IH. lia.
Qed.

Lemma str_app_assoc (a b c : string) : (a +:+ b) +:+ c = a +:+ (b +:+ c).
Proof.
  induction a as [|x a IH]; [done|].
  change (String x ((a +:+ b) +:+ c) = String x (a +:+ (b +:+ c))). by rewrite IH.
Qed.

Lemma decode_pairs_hex_of bs : ∀ p i, String.length p = i * 2 →
  decode_pairs (p +:+ hex_of bs) i (length bs) = Some (Ok bs).
Proof.
  induction bs as [|b bs IH]; intros p i Hp; [done|].
  cbn [decode_pairs length]. unfold pair_at.
  rewrite (boundary_after p _ (i * 2)), hex_of_boundary by done.
  cbn [hex_of foldr]. change (foldr _ _ bs) with (hex_of bs).
  rewrite <-str_app_assoc, (boundary_after (p +:+ hex_byte b) _ (i * 2 + 2)), hex_of_boundary.
  2: { rewrite str_length_app', length_hex_byte. lia. }
  cbn [andb]. rewrite str_app_assoc, <-Hp, str_drop_app.
  replace (str_take 2 (hex_byte b +:+ hex_of bs)) with (hex_byte b).
  2: { by destruct (hex_byte_chars b) as (x & y & -> & _). }
  rewrite from_radix_hex_byte, <-str_app_assoc, IH; [done|].
  rewrite str_length_app', length_hex_byte. lia.
Qed.

Lemma decode_hex_of bs n : length bs = n → decode_hex (hex_of bs) n = Some (Ok bs).
Proof.
  intros <-. unfold decode_hex. rewrite length_hex_of, decide_False by lia.
  by apply (decode_pairs_hex_of bs "").
Qed.

Lemma all_bytes_app f s t : all_bytes f (s +:+ t) = all_bytes f s && all_bytes f t.
Proof.
  induction s as [|x s IH]; [done|].
  change (f x && all_bytes f (s +:+ t) = f x && all_bytes f s && all_bytes f t).
  by rewrite IH, andb_assoc.
Qed.

Lemma hex_of_all f bs :
  (∀ b, all_bytes f (hex_byte b) = true) → all_bytes f (hex_of bs) = true.
Proof.
  intros Hf. induction bs as [|b bs IH]; [done|]. cbn [hex_of foldr].
  change (foldr _ _ bs) with (hex_of bs). by rewrite all_bytes_app, Hf, IH.
Qed.

Lemma contains_all c s : contains c s = negb (all_bytes (λ b, negb (bool_decide (b = c))) s).
Proof.
  induction s as [|a s IH]; [done|]. simpl. case_decide; case_bool_decide; try done.
Qed.

Lemma hex_of_no_dash bs : contains "-" (hex_of bs) = false.
Proof. rewrite contains_all, hex_of_all; [done|]. intros []; done. Qed.

Lemma hex_of_lower bs : all_bytes (λ b, negb (is_ascii_uppercase b)) (hex_of bs) = true.
Proof. apply hex_of_all. intros []; done. Qed.

Lemma split_none c l : contains c l = false → split c l = [l].
Proof.
  induction l as [|a l IH]; [done|]. simpl. case_decide; [done|]. intros Hl. by rewrite IH.
Qed.

Lemma split_app c l r : contains c l = false → split c (l +:+ String c r) = l :: split c r.
Proof.
  induction l as [|a l IH]; [intros _; simpl; by rewrite decide_True|].
  change (split c (String a l +:+ String c r)) with
    (if decide (a = c) then "" :: split c (l +:+ String c r)
     else match split c (l +:+ String c r) with
          | [] => [String a ""] | part :: parts => String a part :: parts end).
  simpl. case_decide; [done|]. intros Hl. by rewrite IH.
Qed.

(** ** Properties *)

(** The traceparent header round trips: what a context with non-zero identifiers
    sends is accepted by the receiver, which continues the same trace with the sender's
    span as its parent. *)
Lemma traceparent_round_trip t fresh :
  length (trace_bytes (trace_trace_id t)) = 16 → length (span_bytes (trace_span_id t)) = 8 →
  trace_is_zero (trace_trace_id t) = false → span_is_zero (trace_span_id t) = false →
  from_inbound fresh (to_traceparent t) =
    Some (Ok (mk_trace (trace_trace_id t) fresh (Some (trace_span_id t)))).
Proof.
  intros Ht Hs Hzt Hzs. unfold from_inbound, parse_traceparent, to_traceparent, encode_hex.
  change ("00-" +:+ ?x) with ("00" +:+ String "-" x). rewrite split_app by done.
  change ("-" +:+ ?x) with (String "-" x). rewrite split_app by apply hex_of_no_dash.
  change (hex_of (span_bytes (trace_span_id t)) +:+ "-01")
    with (hex_of (span_bytes (trace_span_id t)) +:+ String "-" "01").
  rewrite split_app by apply hex_of_no_dash. rewrite split_none by done.
  cbn [existsb]. rewrite !hex_of_lower.
  unfold TraceId_from_hex, SpanId_from_hex. rewrite !decode_hex_of by done.
  destruct t as [[tb] [sb] par]; simpl in *. unfold trace_is_zero, span_is_zero in *. simpl in *.
  by rewrite Hzt, Hzs.
Qed.

(** The receiver is not strict: a header whose identifiers use plus signs, which the
    format forbids, is accepted and becomes a trace identity, because every pair of
    characters is read as a number and a leading sign is skipped. *)
Lemma signed_traceparent_is_accepted :
  ∃ t s, parse_traceparent "00-+1+1+1+1+1+1+1+1+1+1+1+1+1+1+1+1-+1+1+1+1+1+1+1+1-01" =
    Some (Ok (t, s)).
Proof. by eexists _, _; vm_compute. Qed.

(** A trace identifier of the right length with a character of three bytes in it makes
    the parser slice inside the character, which panics. *)
Lemma non_ascii_traceparent_panics :
  parse_traceparent ("00-" +:+ string_of_list_byte [Byte.xe2; Byte.x82; Byte.xac]
    +:+ "aaaaaaaaaaaaaaaaaaaaaaaaaaaaa" +:+ "-1111111111111111-01") = None.
Proof. by vm_compute. Qed.

(** ** Witnesses *)
Module Example_trace.
Definition t : TraceContext :=
  mk_trace (mk_trace_id (replicate 16 Byte.x0a)) (mk_span_id (replicate 8 Byte.xff)) None.
Lemma traceparent_round_trip_witness :
  from_inbound (mk_span_id (replicate 8 Byte.x01)) (to_traceparent t) =
    Some (Ok (mk_trace (trace_trace_id t) (mk_span_id (replicate 8 Byte.x01))
                (Some (trace_span_id t)))).
Proof. by apply traceparent_round_trip. Defined.
End Example_trace.
