(* ===== verification/Tenancy.v ===== *)
(** * Service contexts and tenants

    The context that travels with a call (crates/service-sdk, context/mod.rs), the
    resolution of its tenant (runtime/tenant.rs), permits for another tenant
    (runtime/permit.rs) and the runtime's methods over them (runtime/
    runtime_builder.rs).  The logger and the cancellation token of a context, which
    nothing here reads, are left out. *)

From S2P Require Import Prelude Identity Fingerprint Security Trace.

(** ** Data *)
Inductive CanonicalTenant := Scoped (t : TenantId) | Systemwide.

Definition canonical_tenant_id (c : CanonicalTenant) : option TenantId :=
  match c with Scoped t => Some t | Systemwide => None end.
Definition is_systemwide (c : CanonicalTenant) : bool :=
  match c with Scoped _ => false | Systemwide => true end.

Record CrossTenantGrant := mk_grant { destination : TenantId }.
Record CrossTenantPermit := mk_permit { permit_destination : TenantId; issued_to : SubjectId }.

Inductive TenantEnforcementMode := AuthenticatedOnly | AllowSystemInternal.

Record ServiceContext := mk_context {
  tenant_hint : option string;
  correlation_id : option string;
  trace_id : option string;
  deadline : option Z;
  timeout : option Z;
  additional_context : gmap string string;
  cross_tenant_grant : option CrossTenantGrant;
  security : option SecurityContext;
  canonical_tenant : option CanonicalTenant;
  trace_context : option TraceContext;
  operation_name : option string;
  operation_key : option OperationKey;
  operation_fingerprint_of : option OperationFingerprint;
}.

Definition ServiceContext_new : ServiceContext :=
  mk_context None None None None None ∅ None None None None None None None.

(** ** Builders *)
Definition with_tenant_id (t : string) (c : ServiceContext) : ServiceContext :=
  mk_context (Some t) (correlation_id c) (trace_id c) (deadline c) (timeout c)
    (additional_context c) (cross_tenant_grant c) (security c) (canonical_tenant c)
    (trace_context c) (operation_name c) (operation_key c) (operation_fingerprint_of c).

Definition with_correlation_id (s : string) (c : ServiceContext) : ServiceContext :=
  mk_context (tenant_hint c) (Some s) (trace_id c) (deadline c) (timeout c)
    (additional_context c) (cross_tenant_grant c) (security c) (canonical_tenant c)
    (trace_context c) (operation_name c) (operation_key c) (operation_fingerprint_of c).

Definition set_trace (tid : option string) (tc : option TraceContext) (c : ServiceContext) :
    ServiceContext :=
  mk_context (tenant_hint c) (correlation_id c) tid (deadline c) (timeout c)
    (additional_context c) (cross_tenant_grant c) (security c) (canonical_tenant c)
    tc (operation_name c) (operation_key c) (operation_fingerprint_of c).

Definition with_trace_id (t : string) (c : ServiceContext) : ServiceContext :=
  match trace_context c with
  | None => set_trace (Some t) None c
  | Some _ => c
  end.

Definition with_trace_context (t : TraceContext) (c : ServiceContext) : ServiceContext :=
  set_trace (Some (encode_hex (trace_bytes (trace_trace_id t)))) (Some t) c.

Definition with_deadline (d : Z) (c : ServiceContext) : ServiceContext :=
  mk_context (tenant_hint c) (correlation_id c) (trace_id c) (Some d) (timeout c)
    (additional_context c) (cross_tenant_grant c) (security c) (canonical_tenant c)
    (trace_context c) (operation_name c) (operation_key c) (operation_fingerprint_of c).

Definition with_timeout (d : Z) (c : ServiceContext) : ServiceContext :=
  mk_context (tenant_hint c) (correlation_id c) (trace_id c) (deadline c) (Some d)
    (additional_context c) (cross_tenant_grant c) (security c) (canonical_tenant c)
    (trace_context c) (operation_name c) (operation_key c) (operation_fingerprint_of c).

Definition with_additional_context (m : gmap string string) (c : ServiceContext) :
    ServiceContext :=
  mk_context (tenant_hint c) (correlation_id c) (trace_id c) (deadline c) (timeout c)
    m (cross_tenant_grant c) (security c) (canonical_tenant c)
    (trace_context c) (operation_name c) (operation_key c) (operation_fingerprint_of c).

Definition with_cross_tenant_access (p : CrossTenantPermit) (c : ServiceContext) :
    ServiceContext :=
  mk_context (tenant_hint c) (correlation_id c) (trace_id c) (deadline c) (timeout c)
    (additional_context c) (Some (mk_grant (permit_destination p))) (security c)
    (canonical_tenant c) (trace_context c) (operation_name c) (operation_key c)
    (operation_fingerprint_of c).

Definition with_security (s : SecurityContext) (c : ServiceContext) : ServiceContext :=
  mk_context (tenant_hint c) (correlation_id c) (trace_id c) (deadline c) (timeout c)
    (additional_context c) (cross_tenant_grant c) (Some s) (canonical_tenant c)
    (trace_context c) (operation_name c) (operation_key c) (operation_fingerprint_of c).

Definition set_resolved_tenant (t : CanonicalTenant) (c : ServiceContext) : ServiceContext :=
  mk_context (tenant_hint c) (correlation_id c) (trace_id c) (deadline c) (timeout c)
    (additional_context c) (cross_tenant_grant c) (security c) (Some t)
    (trace_context c) (operation_name c) (operation_key c) (operation_fingerprint_of c).

Definition with_operation_name (n : string) (c : ServiceContext) : ServiceContext :=
  mk_context (tenant_hint c) (correlation_id c) (trace_id c) (deadline c) (timeout c)
    (additional_context c) (cross_tenant_grant c) (security c) (canonical_tenant c)
    (trace_context c) (Some n) (operation_key c) (operation_fingerprint_of c).

Definition ctx_with_operation_key (k : OperationKey) (c : ServiceContext) : ServiceContext :=
  mk_context (tenant_hint c) (correlation_id c) (trace_id c) (deadline c) (timeout c)
    (additional_context c) (cross_tenant_grant c) (security c) (canonical_tenant c)
    (trace_context c) (operation_name c) (Some k) (operation_fingerprint_of c).

Definition set_operation_fingerprint (f : OperationFingerprint) (c : ServiceContext) :
    ServiceContext :=
  mk_context (tenant_hint c) (correlation_id c) (trace_id c) (deadline c) (timeout c)
    (additional_context c) (cross_tenant_grant c) (security c) (canonical_tenant c)
    (trace_context c) (operation_name c) (operation_key c) (Some f).

(** ** Readers *)
Definition is_cross_tenant_allowed_for (t : TenantId) (c : ServiceContext) : bool :=
  match cross_tenant_grant c with
  | Some g => bool_decide (destination g = t)
  | None => false
  end.

Definition is_deadline_expired (now : Z) (c : ServiceContext) : bool :=
  match deadline c with Some d => bool_decide (d < now)%Z | None => false end.

Definition operation_identity (c : ServiceContext) : option OperationIdentity :=
  match operation_key c, operation_fingerprint_of c with
  | Some key, Some fingerprint => Some (mk_identity key fingerprint)
  | _, _ => None
  end.

Definition require_security (c : ServiceContext) : result SecurityError SecurityContext :=
  ok_or CapabilityNotEnabled (security c).

(** ** Resolution *)
Definition resolve (mode : TenantEnforcementMode) (sec : option SecurityContext)
    (hint : option string) (grant : option CrossTenantGrant) :
    result SecurityError CanonicalTenant :=
  let hint := trim <$> hint in
  match sec with
  | Some sec =>
      match principal_tenant (principal sec) with
      | None => Err MissingContext
      | Some principal_tenant =>
          let expected := id_str principal_tenant in
          match hint with
          | Some hint =>
              if decide (hint ≠ "" ∧ hint ≠ expected) then
                match grant with
                | Some grant =>
                    if decide (id_str (destination grant) = hint)
                    then Ok (Scoped (destination grant))
                    else Err (TenantMismatch expected hint)
                | None => Err (TenantMismatch expected hint)
                end
              else Ok (Scoped principal_tenant)
          | None => Ok (Scoped principal_tenant)
          end
      end
  | None =>
      match mode, hint with
      | AllowSystemInternal, Some hint =>
          map_err (λ _, MissingContext) (Scoped <$> id_new TenantTag hint)
      | _, _ => Err MissingContext
      end
  end.

(** [RuntimeInner::enforce_tenant]: the context is left alone on an error. *)
Definition enforce_tenant (mode : TenantEnforcementMode) (ctx : ServiceContext) :
    result SecurityError unit * ServiceContext :=
  match resolve mode (security ctx) (tenant_hint ctx) (cross_tenant_grant ctx) with
  | Err e => (Err e, ctx)
  | Ok canonical => (Ok (), set_resolved_tenant canonical ctx)
  end.

(** [RuntimeInner::issue_cross_tenant_permit] *)
Definition issue_cross_tenant_permit (provider : option AuthorizationProvider)
    (ctx : ServiceContext) (dest : TenantId) : result SecurityError CrossTenantPermit :=
  match provider with
  | None => Err CapabilityNotEnabled
  | Some provider =>
      match authorize_in_context (security ctx) (mk_resource "tenant" (Some (id_str dest)))
              "cross-tenant-access" provider with
      | Ok _ =>
          match security ctx with
          | None => Err CapabilityNotEnabled
          | Some sec => Ok (mk_permit dest (subject_id (principal sec)))
          end
      | Err (AuthorizationDenied reason) => Err (CrossTenantDenied reason)
      | Err other => Err other
      end
  end.

(** [SecurityDenialKind] *)
Inductive SecurityDenialKind := DeniedMissingContext | DeniedTenantMismatch | DeniedAuthorization.

Definition from_security_error (e : SecurityError) : option SecurityDenialKind :=
  match e with
  | MissingContext => Some DeniedMissingContext
  | TenantMismatch _ _ => Some DeniedTenantMismatch
  | AuthorizationDenied _ => Some DeniedAuthorization
  | _ => None
  end.

Definition SecurityDenialKind_to_string (k : SecurityDenialKind) : string :=
  match k with
  | DeniedMissingContext => "MissingContext"
  | DeniedTenantMismatch => "TenantMismatch"
  | DeniedAuthorization => "AuthorizationDenied"
  end.

(** ** Properties *)
Lemma id_new_ok t s i : id_new t s = Ok i ↔ is_blank s = false ∧ i = mk_id s.
Proof. unfold id_new. destruct (is_blank s); split; naive_solver. Qed.

(** C39: Tenants cannot be borrowed: with an authenticated caller the resolved tenant is
    the principal's own, or the destination of a grant that the caller asked for by
    name; without one it is the caller's word only where the runtime trusts internal
    callers, trimmed and never blank; in every other case nothing is resolved and the
    context is unchanged. *)
Theorem resolved_tenant_is_entitled mode ctx r ctx' :
  enforce_tenant mode ctx = (r, ctx') →
  match r with
  | Ok _ => ∃ t, ctx' = set_resolved_tenant (Scoped t) ctx ∧
      match security ctx with
      | Some sec =>
          principal_tenant (principal sec) = Some t ∨
          (∃ own hint, principal_tenant (principal sec) = Some own ∧ t ≠ own ∧
             cross_tenant_grant ctx = Some (mk_grant t) ∧ tenant_hint ctx = Some hint ∧
             trim hint = id_str t)
      | None => mode = AllowSystemInternal ∧
          ∃ hint, tenant_hint ctx = Some hint ∧ t = mk_id (trim hint) ∧ is_blank hint = false
      end
  | Err e => ctx' = ctx ∧ is_Some (from_security_error e)
  end.
Proof.
  unfold enforce_tenant, resolve. destruct (security ctx) as [sec|].
  - destruct (principal_tenant (principal sec)) as [own|]; [|by intros [= <- <-]].
    destruct (tenant_hint ctx) as [hint|]; simpl; [|intros [= <- <-]; exists own; auto].
    destruct (decide _) as [[Hne Hd]|Hag]; [|intros [= <- <-]; exists own; auto].
    destruct (cross_tenant_grant ctx) as [[d]|]; simpl; [|by intros [= <- <-]].
    destruct (decide (id_str d = trim hint)) as [Heq|]; [|by intros [= <- <-]].
    intros [= <- <-]. exists d. split; [done|]. right. exists own, hint.
    split_and!; [done| |done..]. intros ->. by rewrite Heq in Hd.
  - destruct mode; [by intros [= <- <-]|]. destruct (tenant_hint ctx) as [hint|]; simpl;
      [|by intros [= <- <-]].
    destruct (id_new TenantTag (trim hint)) as [t|] eqn:Ht; simpl; [|by intros [= <- <-]].
    apply id_new_ok in Ht as [Hb ->]. rewrite trim_blank in Hb. intros [= <- <-].
    exists (mk_id (trim hint)). split; [done|]. split; [done|]. by exists hint.
Qed.

(** Permits are earned: a permit for another tenant is issued only to an
    authenticated caller whom the configured provider allowed exactly the cross-tenant
    action on that tenant; it names that caller, and attaching it to a context opens
    that tenant and no other. *)
Lemma permit_is_authorized provider ctx dest p :
  issue_cross_tenant_permit provider ctx dest = Ok p →
  (∃ f sec, provider = Some f ∧ security ctx = Some sec ∧
     f (principal sec) (mk_access (mk_resource "tenant" (Some (id_str dest)))
                          "cross-tenant-access") sec = Some (Ok Allow) ∧
     p = mk_permit dest (subject_id (principal sec))) ∧
  ∀ t, is_cross_tenant_allowed_for t (with_cross_tenant_access p ctx) = bool_decide (dest = t).
Proof.
  unfold issue_cross_tenant_permit. destruct provider as [f|]; [|done].
  destruct (authorize_in_context _ _ _ f) as [[]|e] eqn:Ha; [|by destruct e].
  unfold authorize_in_context in Ha. destruct (security ctx) as [sec|]; [|done].
  intros [= <-]. split; [|done]. exists f, sec. split_and!; [done|done| |done].
  destruct (f _ _ _) as [[[|reason]|e]|]; [done|discriminate Ha..].
Qed.

(** [trace_id] never disagrees with the trace context, whatever order the setters run
    in. *)
Definition trace_ok (c : ServiceContext) : Prop :=
  ∀ t, trace_context c = Some t → trace_id c = Some (encode_hex (trace_bytes (trace_trace_id t))).

Lemma trace_id_mirrors_context c :
  trace_ok ServiceContext_new ∧
  (trace_ok c → ∀ s t, trace_ok (with_trace_id s c) ∧ trace_ok (with_trace_context t c)).
Proof.
  split; [done|]. intros Hc s t. split; [|by intros ? [= <-]].
  unfold with_trace_id. by destruct (trace_context c) eqn:Ht.
Qed.

(** ** Witnesses *)
Module Example_tenants.
Definition acme : TenantId := mk_id "acme".
Definition globex : TenantId := mk_id "globex".
Definition alice : Principal :=
  with_tenant acme (Principal_new User (mk_subject "user:alice")).
Definition ctx : ServiceContext :=
  with_tenant_id " globex " (with_security (SecurityContext_empty alice) ServiceContext_new).
Definition permit : CrossTenantPermit := mk_permit globex (mk_subject "user:alice").

(** Alice of acme, holding a permit for globex, asks for globex by name, with spaces. *)
Definition granted : ServiceContext := with_cross_tenant_access permit ctx.

Lemma resolved_tenant_is_entitled_witness :
  enforce_tenant AuthenticatedOnly granted = (Ok (), set_resolved_tenant (Scoped globex) granted) ∧
  ∃ own hint, principal_tenant alice = Some own ∧ globex ≠ own ∧
    cross_tenant_grant granted = Some (mk_grant globex) ∧
    tenant_hint granted = Some hint ∧ trim hint = id_str globex.
Proof.
  assert (Hr : enforce_tenant AuthenticatedOnly granted =
    (Ok (), set_resolved_tenant (Scoped globex) granted)) by (vm_compute; reflexivity).
  split; [exact Hr|].
  destruct (resolved_tenant_is_entitled AuthenticatedOnly granted (Ok ()) _ Hr) as (t & Ht & Hwho).
  apply (f_equal canonical_tenant) in Ht. injection Ht as <-.
  destruct Hwho as [Hown|Hgrant]; [discriminate Hown|exact Hgrant].
Defined.

Lemma permit_is_authorized_witness :
  is_cross_tenant_allowed_for acme (with_cross_tenant_access permit ctx) = false.
Proof.
  by rewrite (proj2 (permit_is_authorized (Some allow_all) ctx globex permit
    ltac:(vm_compute; reflexivity)) acme).
Defined.
End Example_tenants.
