(* ===== verification/Dispatch.v ===== *)
(** * Dispatch of a service operation

    The proxy method that the [#[operation]] macro generates (crates/
    service-sdk-macros, src/lib.rs) with the runtime methods it calls (crates/
    service-sdk, runtime/idempotency.rs and runtime/runtime_builder.rs), the missing-key
    policy (idempotency/extraction.rs) and the interceptor chain (interceptor/chain.rs).

    A dispatch is a program: every call to a port (the authorization provider, the
    reservation store, an interceptor, the handler, the clock, the counters) is a
    command.  The conversions into the operation's error type are the host's.  Spans
    are left out; they change nothing. *)

From S2P Require Import Prelude Programs Identity Reservation Fingerprint Security Trace Tenancy.

(** ** The missing-key policy *)
Inductive IdempotencyEnforcementMode := MandatoryKey | Compatibility.

Inductive RawOperationKey := KeyAbsent | KeyPresent (raw : string) | KeyUnreadable.

Inductive OperationKeyRejection :=
| RejectMissing (carrier : string)
| RejectInvalid (carrier : string) (source : OperationKeyError)
| RejectUnreadable (carrier : string).

Definition resolve_operation_key (carrier : string) (raw : RawOperationKey)
    (mode : IdempotencyEnforcementMode) : result OperationKeyRejection (option OperationKey) :=
  match raw with
  | KeyPresent raw => map_err (RejectInvalid carrier) (Some <$> OperationKey_parse raw)
  | KeyUnreadable => Err (RejectUnreadable carrier)
  | KeyAbsent =>
      match mode with
      | MandatoryKey => Err (RejectMissing carrier)
      | Compatibility => Ok None
      end
  end.

(** ** Configuration *)
Record ReservationConfig := mk_reservation { owner_id : OwnerId; lease_duration : Z }.
Inductive ReservationConfigError := ZeroLease.

Definition ReservationConfig_new (owner : OwnerId) (lease : Z) :
    result ReservationConfigError ReservationConfig :=
  if decide (lease = 0%Z) then Err ZeroLease else Ok (mk_reservation owner lease).

(** What a dispatch reads of [RuntimeInner]. *)
Record Runtime := mk_runtime {
  rt_provider : bool;
  rt_mode : TenantEnforcementMode;
  rt_reservation : option ReservationConfig;
  rt_observability : bool;
}.

(** The attributes of one operation. *)
Record Op := mk_op {
  op_name : string;
  op_authorize : option (string * string);
  op_tenant_scoped : bool;
  op_idempotent : bool;
}.

Inductive ReservationDecision :=
| Proceed (permit : OwnerFence)
| Replay (response : StoredServiceResponse).

Definition outcome_value (o : ReservationOutcome) : string :=
  match o with
  | Fresh _ => "fresh"
  | TakenOver _ => "taken_over"
  | OwnedInProgress _ => "owned_in_progress"
  | OtherInProgress => "other_in_progress"
  | Succeeded _ => "succeeded"
  | ConflictingFingerprint => "conflict"
  end.

Definition lease_event_value (o : ReservationOutcome) : option string :=
  match o with
  | Fresh _ => Some "acquired"
  | TakenOver _ => Some "taken_over"
  | _ => None
  end.

Definition fence_of (l : Lease) : OwnerFence :=
  mk_fence (lease_operation_id l) (lease_owner_id l) (lease_fencing_token l).

(** The final match of [ReservationConfig::reserve]. *)
Definition decide_outcome (o : ReservationOutcome) :
    result ReservationRejection ReservationDecision :=
  match o with
  | Fresh lease | TakenOver lease => Ok (Proceed (fence_of lease))
  | OwnedInProgress _ => Err SelfInProgress
  | OtherInProgress => Err RejectedOtherInProgress
  | Succeeded response => Ok (Replay response)
  | ConflictingFingerprint => Err FingerprintConflict
  end.

Inductive OperatorAction := ReviewLeaseDuration | MonitorRate | Investigate.
Inductive Phase := OnRequest | OnResponse | OnError.

Section dispatch.
Context {number T E : Type}.
Context (number_to_string : number → string) (sha256 : list Byte.byte → list Byte.byte).
Context (S : serde number T).
Context (from_security : SecurityError → E) (from_reservation : ReservationRejection → E).

(** ** Ports *)
Inductive dcmd : Type → Type :=
| DUpgrade : dcmd bool
| DAuthorize (sec : SecurityContext) (res : Resource) (act : string) : dcmd (result SecurityError unit)
| DDenial (op : string) (kind : SecurityDenialKind) : dcmd unit
| DClock : dcmd Z
| DReserve (req : ReserveRequest) : dcmd (result ReservationError ReservationOutcome)
| DCounter (name value : string) : dcmd unit
| DHook (phase : Phase) (i : nat) (ctx : ServiceContext) : dcmd (result string unit)
| DHandle (ctx : ServiceContext) : dcmd (result E T)
| DComplete (fence : OwnerFence) (response : StoredServiceResponse) : dcmd (result ReservationError unit)
| DLost (reason : string) (action : OperatorAction) : dcmd unit.

(** ** The runtime's methods *)
Definition record_denial (op : string) (e : SecurityError) : prog dcmd unit :=
  match from_security_error e with
  | Some kind => exec (DDenial op kind)
  | None => Ret ()
  end.

Definition count (rt : Runtime) (name value : string) : prog dcmd unit :=
  if rt_observability rt then exec (DCounter name value) else Ret ().

Definition config_reserve (rt : Runtime) (config : ReservationConfig) (tenant : option TenantId)
    (key : OperationKey) (fingerprint : OperationFingerprint) :
    prog dcmd (result ReservationRejection ReservationDecision) :=
  let! now := exec DClock in
  let! outcome := exec (DReserve (mk_request tenant key fingerprint (owner_id config)
                                    (now + lease_duration config))) in
  match outcome with
  | Err _ => Ret (Err StoreUnavailable)
  | Ok outcome =>
      count rt "idempotency.reservation.outcome" (outcome_value outcome);;
      (match lease_event_value outcome with
       | Some event => count rt "idempotency.lease.event" event
       | None => Ret ()
       end);;
      Ret (decide_outcome outcome)
  end.

Definition reserve_idempotent_operation (rt : Runtime) (ctx : ServiceContext)
    (fingerprint : OperationFingerprint) :
    prog dcmd (result ReservationRejection (option ReservationDecision) * ServiceContext) :=
  match rt_reservation rt, operation_key ctx with
  | Some config, Some key =>
      match canonical_tenant ctx with
      | None => Ret (Err TenantUnresolved, ctx)
      | Some resolved =>
          let! outcome := config_reserve rt config (canonical_tenant_id resolved) key fingerprint in
          match outcome with
          | Err e => Ret (Err e, ctx)
          | Ok decision => Ret (Ok (Some decision), set_operation_fingerprint fingerprint ctx)
          end
      end
  | _, _ => Ret (Ok None, ctx)
  end.

Definition record_completion_lost (rt : Runtime) (reason : string) (action : OperatorAction) :
    prog dcmd unit :=
  if rt_observability rt then exec (DLost reason action) else Ret ().

Definition complete_idempotent_operation (rt : Runtime)
    (reservation : option ReservationDecision) (output : T) : prog dcmd unit :=
  match reservation with
  | Some (Proceed permit) =>
      match rt_reservation rt with
      | None => Ret ()
      | Some _ =>
          match encode_stored_response S output with
          | Err _ => record_completion_lost rt "not_encodable" Investigate
          | Ok stored =>
              let! r := exec (DComplete permit stored) in
              match r with
              | Ok _ => Ret ()
              | Err StaleOwner =>
                  count rt "idempotency.lease.stale_owner" "complete";;
                  record_completion_lost rt "stale_owner" ReviewLeaseDuration
              | Err _ => record_completion_lost rt "store_unavailable" MonitorRate
              end
          end
      end
  | _ => Ret ()
  end.

(** ** Interceptors: the hooks run in order and stop at the first error. *)
Fixpoint run_hooks (phase : Phase) (ctx : ServiceContext) (hooks : list nat) :
    prog dcmd (result string unit) :=
  match hooks with
  | [] => Ret (Ok ())
  | i :: rest =>
      let! r := exec (DHook phase i ctx) in
      match r with
      | Err e => Ret (Err e)
      | Ok _ => run_hooks phase ctx rest
      end
  end.

Definition chain (phase : Phase) (ctx : ServiceContext) (interceptors : nat) :
    prog dcmd (result string unit) := run_hooks phase ctx (seq 0 interceptors).

(** ** The generated method *)
Context (rt : Runtime) (op : Op) (interceptors : nat) (args : option (Value number)).

Definition authorize_guard (ctx : ServiceContext) : prog dcmd (result E unit) :=
  match op_authorize op with
  | None => Ret (Ok ())
  | Some (resource_str, action_str) =>
      let! alive := exec DUpgrade in
      match security ctx with
      | None =>
          (if (alive : bool) then exec (DDenial (op_name op) DeniedMissingContext) else Ret ());;
          Ret (Err (from_security MissingContext))
      | Some sec_ctx =>
          if (alive : bool) then
            if rt_provider rt then
              let! r := exec (DAuthorize sec_ctx (mk_resource resource_str None) action_str) in
              match r with
              | Ok _ => Ret (Ok ())
              | Err e => record_denial (op_name op) e;; Ret (Err (from_security e))
              end
            else Ret (Err (from_security CapabilityNotEnabled))
          else Ret (Err (from_security
                 (ProviderError "authorization provider unavailable: runtime dropped")))
      end
  end.

Definition enforce_tenant_block (ctx : ServiceContext) : prog dcmd (result E ServiceContext) :=
  if op_tenant_scoped op then
    let! alive := exec DUpgrade in
    if (alive : bool) then
      match enforce_tenant (rt_mode rt) ctx with
      | (Ok _, ctx) => Ret (Ok ctx)
      | (Err e, _) => record_denial (op_name op) e;; Ret (Err (from_security e))
      end
    else Ret (Err (from_security MissingContext))
  else Ret (Ok ctx).

(** Either the stored answer, or the reservation to run under. *)
Inductive slot := Answered (out : T) | Go (reservation : option ReservationDecision).

Definition idempotency_slot (ctx : ServiceContext) :
    prog dcmd (result E slot * ServiceContext) :=
  if op_idempotent op then
    let! alive := exec DUpgrade in
    if (alive : bool) then
      match operation_fingerprint number_to_string sha256 (λ a, a) args with
      | Err e => Ret (Err (from_reservation e), ctx)
      | Ok fingerprint =>
          let! r := reserve_idempotent_operation rt ctx fingerprint in
          match r with
          | (Err e, ctx) => Ret (Err (from_reservation e), ctx)
          | (Ok (Some (Replay stored)), ctx) =>
              Ret (match decode_stored_response S stored with
                   | Ok out => Ok (Answered out)
                   | Err e => Err (from_reservation e)
                   end, ctx)
          | (Ok reservation, ctx) => Ret (Ok (Go reservation), ctx)
          end
      end
    else Ret (Err (from_reservation StoreUnavailable), ctx)
  else Ret (Ok (Go None), ctx).

Definition idempotency_epilogue (reservation : option ReservationDecision) (r : result E T) :
    prog dcmd unit :=
  if op_idempotent op then
    match r with
    | Ok output =>
        let! alive := exec DUpgrade in
        if (alive : bool) then complete_idempotent_operation rt reservation output else Ret ()
    | Err _ => Ret ()
    end
  else Ret ().

Definition invoke (reservation : option ReservationDecision) (ctx : ServiceContext) :
    prog dcmd (result E T) :=
  chain OnRequest ctx interceptors;;
  let! r := exec (DHandle ctx) in
  idempotency_epilogue reservation r;;
  chain (match r with Ok _ => OnResponse | Err _ => OnError end) ctx interceptors;;
  Ret r.

Definition dispatch (ctx : ServiceContext) : prog dcmd (result E T) :=
  let ctx := with_operation_name (op_name op) ctx in
  let! authorized := authorize_guard ctx in
  match authorized with
  | Err e => Ret (Err e)
  | Ok _ =>
      let! scoped := enforce_tenant_block ctx in
      match scoped with
      | Err e => Ret (Err e)
      | Ok ctx =>
          let! s := idempotency_slot ctx in
          match s with
          | (Err e, _) => Ret (Err e)
          | (Ok (Answered out), _) => Ret (Ok out)
          | (Ok (Go reservation), ctx) => invoke reservation ctx
          end
      end
  end.
End dispatch.
Arguments dcmd : clear implicits.

(** ** The protocol of a dispatch *)
Section protocol.
Context {number T E : Type}.
Context (number_to_string : number → string) (sha256 : list Byte.byte → list Byte.byte).
Context (S : serde number T).
Context (from_security : SecurityError → E) (from_reservation : ReservationRejection → E).
Context (rt : Runtime) (op : Op) (interceptors : nat) (args : option (Value number)).
Context (ctx0 : ServiceContext).

(** The context with the operation's name, and after its tenant was enforced. *)
Definition named : ServiceContext := with_operation_name (op_name op) ctx0.
Definition scoped : ServiceContext :=
  if op_tenant_scoped op then (enforce_tenant (rt_mode rt) named).2 else named.
Definition tenant_ok : Prop :=
  op_tenant_scoped op = true → (enforce_tenant (rt_mode rt) named).1 = Ok ().

(** The operation a dispatch reserves: its identity and its fingerprint. *)
Definition guarded : option (OperationId * OperationFingerprint) :=
  if op_idempotent op then
    match rt_reservation rt, operation_key scoped, canonical_tenant scoped, args with
    | Some _, Some key, Some c, Some v =>
        Some (mk_operation_id (canonical_tenant_id c) key, digest_of number_to_string sha256 v)
    | _, _, _, _ => None
    end
  else None.

(** Nothing to reserve: no such attribute, no store, or no key. *)
Definition unreserved : Prop :=
  op_idempotent op = false ∨ rt_reservation rt = None ∨ operation_key scoped = None.

(** What a run has learned and done. *)
Record dmonitor := mk_dm {
  dm_auth : bool;                           (* the provider allowed it *)
  dm_tried : bool;                          (* the store was asked *)
  dm_lease : option Lease;                  (* the lease it was granted *)
  dm_replay : option StoredServiceResponse; (* the response it was given *)
  dm_handled : option (result E T);         (* what the handler answered *)
  dm_completed : bool;                      (* the response was handed in *)
}.
Definition dm0 : dmonitor := mk_dm false false None None None false.

Definition authorized (m : dmonitor) : Prop := op_authorize op = None ∨ dm_auth m = true.

Definition allowed (m : dmonitor) B (c : dcmd T E B) : Prop :=
  match c with
  | DAuthorize sec res act =>
      security ctx0 = Some sec ∧ op_authorize op = Some (resource_kind res, act) ∧
      resource_id res = None ∧ m = dm0
  | DReserve req =>
      authorized m ∧ tenant_ok ∧ dm_tried m = false ∧ dm_handled m = None ∧
      guarded = Some (request_id req, req_fingerprint req) ∧
      ∃ config, rt_reservation rt = Some config ∧ req_owner_id req = owner_id config
  | DHandle ctx =>
      authorized m ∧ tenant_ok ∧ dm_handled m = None ∧
      (unreserved ∧ ctx = scoped ∨
       ∃ l id fp, guarded = Some (id, fp) ∧ dm_lease m = Some l ∧
         ctx = set_operation_fingerprint fp scoped)
  | DComplete fence response =>
      dm_completed m = false ∧ fence_of <$> dm_lease m = Some fence ∧
      ∃ out, dm_handled m = Some (Ok out) ∧ encode_stored_response S out = Ok response
  | DHook phase i ctx =>
      i < interceptors ∧ authorized m ∧ tenant_ok ∧
      match phase with
      | OnRequest => dm_handled m = None
      | OnResponse => ∃ out, dm_handled m = Some (Ok out)
      | OnError => ∃ e, dm_handled m = Some (Err e)
      end
  | DDenial _ _ | DLost _ _ | DUpgrade | DClock | DCounter _ _ => True
  end.

Definition observe (m : dmonitor) B (c : dcmd T E B) : B → dmonitor :=
  match c in dcmd _ _ B return B → dmonitor with
  | DAuthorize _ _ _ => λ r,
      match r with
      | Ok _ => mk_dm true (dm_tried m) (dm_lease m) (dm_replay m) (dm_handled m) (dm_completed m)
      | Err _ => m
      end
  | DReserve _ => λ r,
      match r with
      | Ok (Fresh l) | Ok (TakenOver l) =>
          mk_dm (dm_auth m) true (Some l) (dm_replay m) (dm_handled m) (dm_completed m)
      | Ok (Succeeded resp) =>
          mk_dm (dm_auth m) true (dm_lease m) (Some resp) (dm_handled m) (dm_completed m)
      | _ => mk_dm (dm_auth m) true (dm_lease m) (dm_replay m) (dm_handled m) (dm_completed m)
      end
  | DHandle _ => λ r,
      mk_dm (dm_auth m) (dm_tried m) (dm_lease m) (dm_replay m) (Some r) (dm_completed m)
  | DComplete _ _ => λ _,
      mk_dm (dm_auth m) (dm_tried m) (dm_lease m) (dm_replay m) (dm_handled m) true
  | DUpgrade => λ _, m
  | DDenial _ _ => λ _, m
  | DClock => λ _, m
  | DCounter _ _ => λ _, m
  | DHook _ _ _ => λ _, m
  | DLost _ _ => λ _, m
  end.

(** What the caller is answered: what the handler answered if it ran, else the stored
    response if there was one, else an error. *)
Definition caller_result (r : result E T) (m : dmonitor) : Prop :=
  match dm_handled m with
  | Some h => r = h
  | None =>
      match dm_replay m with
      | Some resp => r = map_err from_reservation (decode_stored_response S resp)
      | None => ∃ e, r = Err e
      end
  end.

Abbreviation obeys := (wp allowed observe (λ _ _ _, True)).

Lemma count_obeys name value m (Q : unit → dmonitor → Prop) :
  Q () m → obeys (count rt name value) m Q.
Proof. intros HQ. unfold count. case_match; [|done]. apply wp_exec; [done|]. by intros [] _. Qed.

Lemma lost_obeys reason action m (Q : unit → dmonitor → Prop) :
  Q () m → obeys (record_completion_lost rt reason action) m Q.
Proof.
  intros HQ. unfold record_completion_lost. case_match; [|done].
  apply wp_exec; [done|]. by intros [] _.
Qed.

Lemma denial_obeys e m (Q : unit → dmonitor → Prop) :
  Q () m → obeys (record_denial (op_name op) e) m Q.
Proof.
  intros HQ. unfold record_denial. case_match; [|done]. apply wp_exec; [done|]. by intros [] _.
Qed.

Lemma chain_obeys phase ctx m (Q : result string unit → dmonitor → Prop) :
  (∀ i, i < interceptors → allowed m _ (DHook phase i ctx)) → (∀ r, Q r m) →
  obeys (chain phase ctx interceptors) m Q.
Proof.
  intros Ha HQ. unfold chain.
  assert (∀ i, i ∈ seq 0 interceptors → allowed m _ (DHook phase i ctx)) as Hin.
  { intros i Hi%elem_of_seq. apply Ha. lia. }
  clear Ha. induction (seq 0 interceptors) as [|i l IH]; [apply HQ|].
  apply wp_bind, wp_exec; [apply Hin; left|]. intros [[]|e] _; [|apply HQ].
  apply IH. intros j Hj. apply Hin. by right.
Qed.

Lemma guard_obeys (Q : result E unit → dmonitor → Prop) :
  (∀ e, Q (Err e) dm0) →
  (∀ a, op_authorize op = None ∨ a = true → Q (Ok ()) (mk_dm a false None None None false)) →
  obeys (authorize_guard from_security rt op named) dm0 Q.
Proof.
  intros Herr Hok. unfold authorize_guard. destruct (op_authorize op) as [[res act]|] eqn:Ho.
  2: { apply Hok. by left. }
  apply wp_bind, wp_exec; [done|]. intros alive _.
  change (security named) with (security ctx0). destruct (security ctx0) as [sec|] eqn:Hs.
  - destruct alive; [|apply Herr]. destruct (rt_provider rt); [|apply Herr].
    apply wp_bind, wp_exec; [by split_and!|]. intros [[]|e] _.
    + apply Hok. by right.
    + apply wp_bind, denial_obeys, Herr.
  - apply wp_bind. destruct alive; [|apply Herr]. apply wp_exec; [done|]. intros [] _. apply Herr.
Qed.

Lemma tenant_obeys m (Q : result E ServiceContext → dmonitor → Prop) :
  (∀ e, Q (Err e) m) → (tenant_ok → Q (Ok scoped) m) →
  obeys (enforce_tenant_block from_security rt op named) m Q.
Proof.
  intros Herr Hok. unfold enforce_tenant_block. unfold scoped, tenant_ok in Hok.
  destruct (op_tenant_scoped op); [|by apply Hok].
  apply wp_bind, wp_exec; [done|]. intros [] _; [|apply Herr].
  destruct (enforce_tenant (rt_mode rt) named) as [[[]|e] ctx']; [by apply Hok|].
  apply wp_bind, denial_obeys, Herr.
Qed.

(** What the slot leaves for the rest of the dispatch. *)
Definition slot_post (s : result E slot * ServiceContext) (m : dmonitor) : Prop :=
  match s.1 with
  | Err e => caller_result (Err e) m
  | Ok (Answered out) => caller_result (Ok out) m
  | Ok (Go reservation) =>
      authorized m ∧ dm_handled m = None ∧ dm_completed m = false ∧
      (unreserved ∧ s.2 = scoped ∧ reservation = None ∨
       ∃ l id fp, guarded = Some (id, fp) ∧ dm_lease m = Some l ∧
         s.2 = set_operation_fingerprint fp scoped ∧ reservation = Some (Proceed (fence_of l)))
  end.

Lemma slot_obeys a :
  op_authorize op = None ∨ a = true → tenant_ok →
  obeys (idempotency_slot number_to_string sha256 S from_reservation rt op args scoped)
    (mk_dm a false None None None false) slot_post.
Proof.
  intros Ha Ht. unfold idempotency_slot. destruct (op_idempotent op) eqn:Hi.
  2: { split_and!; [done..|]. left. split_and!; [by left|done..]. }
  apply wp_bind, wp_exec; [done|]. intros [] _; [|by eexists].
  unfold operation_fingerprint. destruct args as [v|] eqn:Hargs; [|by eexists].
  unfold reserve_idempotent_operation.
  destruct (rt_reservation rt) as [config|] eqn:Hc.
  2: { split_and!; [done..|]. left. split_and!; [by right; left|done..]. }
  destruct (operation_key scoped) as [key|] eqn:Hk.
  2: { split_and!; [done..|]. left. split_and!; [by right; right|done..]. }
  destruct (canonical_tenant scoped) as [c|] eqn:Hct; [|by eexists].
  assert (guarded = Some (mk_operation_id (canonical_tenant_id c) key,
    digest_of number_to_string sha256 v)) as Hg.
  { unfold guarded. by rewrite Hi, Hc, Hk, Hct, Hargs. }
  apply wp_bind, wp_bind. unfold config_reserve.
  apply wp_bind, wp_exec; [done|]. intros now _.
  apply wp_bind, wp_exec.
  { split_and!; [done..|]. by exists config. }
  intros [o|e] _; [|by eexists].
  apply wp_bind, count_obeys, wp_bind.
  assert (∀ m Q, Q () m → obeys (match lease_event_value o with
    | Some event => count rt "idempotency.lease.event" event | None => Ret () end) m Q) as Hev.
  { intros m Q HQ. destruct (lease_event_value o); [by apply count_obeys|done]. }
  apply Hev. destruct o as [l|l|l| |resp|]; simpl; try by eexists.
  1-2: split_and!; [done..|]; right; by eexists l, _, _.
  unfold slot_post, caller_result. simpl.
  by destruct (decode_stored_response S resp).
Qed.

Lemma epilogue_obeys reservation r m (Q : unit → dmonitor → Prop) :
  dm_handled m = Some r → dm_completed m = false →
  (reservation = None ∨ ∃ l, dm_lease m = Some l ∧ reservation = Some (Proceed (fence_of l))) →
  (∀ b, Q () (mk_dm (dm_auth m) (dm_tried m) (dm_lease m) (dm_replay m) (dm_handled m) b)) →
  obeys (idempotency_epilogue S rt op reservation r) m Q.
Proof.
  intros Hh Hc Hr HQ. assert (Q () m) as HQm by (specialize (HQ (dm_completed m)); by destruct m).
  unfold idempotency_epilogue. destruct (op_idempotent op); [|done]. destruct r as [out|]; [|done].
  apply wp_bind, wp_exec; [done|]. intros [] _; [|done].
  unfold complete_idempotent_operation. destruct Hr as [->|(l & Hl & ->)]; [done|].
  destruct (rt_reservation rt); [|done].
  destruct (encode_stored_response S out) as [stored|] eqn:He; [|by apply lost_obeys].
  apply wp_bind, wp_exec.
  { cbn [allowed observe]. split_and!; [done|by rewrite Hl|]. by exists out. }
  intros r' _. assert (Q () (observe m _ (DComplete (fence_of l) stored) r')) as HQ' by apply HQ.
  destruct r' as [[]|[]]; [done|apply wp_bind, count_obeys, lost_obeys, HQ'|by apply lost_obeys..].
Qed.

Lemma invoke_obeys reservation ctx m :
  tenant_ok → slot_post (Ok (Go reservation), ctx) m →
  obeys (invoke S rt op interceptors reservation ctx) m caller_result.
Proof.
  intros Ht (Ha & Hh & Hc & Hr). simpl in *. unfold invoke.
  apply wp_bind, chain_obeys; [intros i Hi; by split_and!|]. intros _.
  apply wp_bind, wp_exec.
  { split_and!; [done..|]. destruct Hr as [(? & -> & _)|(l & id & fp & ? & ? & -> & _)]; [by left|].
    right. by exists l, id, fp. }
  intros r _. simpl. apply wp_bind, epilogue_obeys; [done|done| |].
  { destruct Hr as [(? & _ & ->)|(l & id & fp & ? & ? & _ & ->)]; [by left|]. right. by exists l. }
  intros b. apply wp_bind, chain_obeys; [|done].
  intros i Hi. destruct r as [out|e]; split_and!; try done; by eexists.
Qed.

Lemma dispatch_obeys :
  obeys (dispatch number_to_string sha256 S from_security from_reservation rt op interceptors args
           ctx0) dm0 caller_result.
Proof.
  unfold dispatch. fold named. apply wp_bind, guard_obeys; [intros e; by eexists|]. intros a Ha.
  apply wp_bind, tenant_obeys; [intros e; by eexists|]. intros Ht.
  apply wp_bind. eapply wp_mono; [|by apply slot_obeys].
  intros [[[out|reservation]|e] ctx] m Hm; [exact Hm| |exact Hm]. by apply invoke_obeys.
Qed.
End protocol.

(** ** Properties *)

(** C11: Every dispatch of a generated operation obeys the protocol, whatever the
    provider, the store, the interceptors, the handler and the clock answer: the
    handler runs at most once and the store is asked at most once, both only after an
    explicit authorization and a resolved tenant where the operation asks for them; the
    store is asked for the operation's own tenant, key and fingerprint under the
    runtime's owner; an idempotent call with a key and a store runs its handler only
    under a lease, with the reserved fingerprint in its context; a response is handed
    in at most once, under the fence of that lease, and is the encoding of what the
    handler answered; and the caller gets the handler's answer if it ran, the decoded
    stored response if there was one, and an error otherwise. *)
Theorem dispatch_obeys_its_protocol {number T E} (number_to_string : number → string) sha256
    (S : serde number T) (from_security : SecurityError → E) from_reservation rt op n args ctx :
  wp (allowed number_to_string sha256 S rt op n args ctx) observe (λ _ _ _, True)
    (dispatch number_to_string sha256 S from_security from_reservation rt op n args ctx) dm0
    (caller_result S from_reservation).
Proof. apply dispatch_obeys. Qed.

(** An interceptor cannot stop a call: when its hook before the call answers with an
    error the very next command of the dispatch is the handler, because the result of
    the chain is discarded. *)
Lemma interceptor_veto_is_ignored {number T E} (S : serde number T) rt op n reservation ctx e :
  ∃ k k', invoke (E:=E) S rt op (Datatypes.S n) reservation ctx = Do (DHook OnRequest 0 ctx) k ∧
    k (Err e) = Do (DHandle ctx) k'.
Proof. by eexists _, _. Qed.

(** A supplied key is never dropped: a request goes on without a key only when none
    was supplied and the deployment chose the compatibility mode; it goes on with a key
    only with exactly the one supplied, non-blank and at most 255 bytes long; an
    unreadable or invalid key is refused in every mode. *)
Lemma supplied_key_is_never_dropped carrier raw mode :
  (resolve_operation_key carrier raw mode = Ok None ↔ raw = KeyAbsent ∧ mode = Compatibility) ∧
  (∀ key, resolve_operation_key carrier raw mode = Ok (Some key) ↔
     raw = KeyPresent (key_str key) ∧ is_blank (key_str key) = false ∧
     (str_len (key_str key) ≤ MAX_LEN)%Z).
Proof.
  destruct raw as [|raw|]; simpl.
  - destruct mode; (split; [naive_solver|]); by intros key; split; [|intros [? _]].
  - unfold OperationKey_parse. destruct (is_blank raw) eqn:Hb; simpl.
    { split; [by split; [|intros [? _]]|]. intros key. split; [done|]. intros ([= <-] & Hk & _). congruence. }
    case_decide as Hl; simpl; (split; [by split; [|intros [? _]]|]); intros [k]; simpl.
    + split; [done|]. intros ([= ->] & _ & Hlen). lia.
    + split; [intros [= ->]; split_and!; [done|done|lia]|by intros ([= ->] & _)].
  - split; [by split; [|intros [? _]]|]. intros key. by split; [|intros [? _]].
Qed.
