(* ===== verification/Idempotency.v ===== *)
(** * Idempotent operations end to end

    Any number of dispatches, of any operations of any runtimes, over one in-memory
    reservation store: the programs of [Dispatch] with the store of [Reservation].
    A step is one command of one dispatch, the start of a dispatch, the death of one, or
    the passing of time.  The store may be unreachable at any call.  The record of a
    completed operation is kept: this is the system between two retention purges. *)

From S2P Require Import Prelude Programs Identity Reservation Fingerprint Security Trace Tenancy Dispatch.

Section system.
Context {number T E : Type}.
Context (number_to_string : number → string) (sha256 : list Byte.byte → list Byte.byte).
Context (S : serde number T).
Context (from_security : SecurityError → E) (from_reservation : ReservationRejection → E).

(** One call of an operation. *)
Record invocation := mk_invocation {
  i_rt : Runtime;
  i_op : Op;
  i_interceptors : nat;
  i_args : option (Value number);
  i_ctx : ServiceContext;
}.

Definition reserves (i : invocation) : option (OperationId * OperationFingerprint) :=
  guarded number_to_string sha256 (i_rt i) (i_op i) (i_args i) (i_ctx i).

Abbreviation mon := (dmonitor (T:=T) (E:=E)).
Abbreviation may_do i :=
  (allowed number_to_string sha256 S (i_rt i) (i_op i) (i_interceptors i) (i_args i) (i_ctx i)).
Abbreviation obeys i := (wp (may_do i) observe (λ _ _ _, True)).

Record dtask := mk_dtask {
  dt_call : invocation;
  dt_prog : prog (dcmd T E) (result E T);
  dt_monitor : mon;
}.

(** The store, its clock, and what handlers answered, newest first. *)
Record dworld := mk_dworld {
  dw_records : Records;
  dw_now : Z;
  dw_log : list (invocation * T);
}.

Record dsystem := mk_dsystem { d_world : dworld; d_tasks : gmap nat dtask }.

Definition answer (i : invocation) (w : dworld) {B} (c : dcmd T E B) : B → dworld → Prop :=
  match c in dcmd _ _ B return B → dworld → Prop with
  | DReserve req => λ r w',
      (∃ s', reserve (dw_now w) req (dw_records w) = (r, s') ∧
         w' = mk_dworld s' (dw_now w) (dw_log w)) ∨
      (∃ msg, r = Err (ReservationBackend msg) ∧ w' = w)
  | DComplete fence response => λ r w',
      (∃ s', complete (dw_now w) fence response (dw_records w) = (r, s') ∧
         w' = mk_dworld s' (dw_now w) (dw_log w)) ∨
      (∃ msg, r = Err (ReservationBackend msg) ∧ w' = w)
  | DHandle _ => λ r w',
      w' = match r with
           | Ok out => mk_dworld (dw_records w) (dw_now w) ((i, out) :: dw_log w)
           | Err _ => w
           end
  | _ => λ _ w', w' = w
  end.

Definition start (i : invocation) : dtask :=
  mk_dtask i (dispatch number_to_string sha256 S from_security from_reservation (i_rt i) (i_op i)
                (i_interceptors i) (i_args i) (i_ctx i)) dm0.

Inductive step : dsystem → dsystem → Prop :=
| step_time w ts now' :
    (dw_now w ≤ now')%Z →
    step (mk_dsystem w ts) (mk_dsystem (mk_dworld (dw_records w) now' (dw_log w)) ts)
| step_start n i w ts :
    ts !! n = None → step (mk_dsystem w ts) (mk_dsystem w (<[n := start i]> ts))
| step_command n t B (c : dcmd T E B) k b w w' ts :
    ts !! n = Some t → dt_prog t = Do c k → answer (dt_call t) w c b w' →
    step (mk_dsystem w ts)
      (mk_dsystem w' (<[n := mk_dtask (dt_call t) (k b) (observe (dt_monitor t) _ c b)]> ts))
| step_crash n w ts : step (mk_dsystem w ts) (mk_dsystem w (delete n ts)).

Definition initial (now : Z) : dsystem := mk_dsystem (mk_dworld ∅ now []) ∅.
Definition reachable (s : dsystem) : Prop := ∃ now, rtc step (initial now) s.

(** ** The invariant *)

(** Some call of the same tenant, key and fingerprint was handled with this output. *)
Definition handled (log : list (invocation * T)) (id : OperationId) (fp : OperationFingerprint)
    (out : T) : Prop :=
  ∃ i, (i, out) ∈ log ∧ reserves i = Some (id, fp).

(** A stored response is the encoding of what a handler answered for that request. *)
Definition records_ok (w : dworld) : Prop :=
  ∀ id fp resp at_, dw_records w !! id = Some (mk_record fp (Completed resp at_)) →
    ∃ out, handled (dw_log w) id fp out ∧ encode_stored_response S out = Ok resp.

(** A lease is of the operation it was asked for, whose record keeps the fingerprint;
    it is the current one, or it has expired, or the operation is done. *)
Definition lease_ok (w : dworld) (id : OperationId) (fp : OperationFingerprint) (l : Lease) : Prop :=
  lease_operation_id l = id ∧
  ∃ st, dw_records w !! id = Some (mk_record fp st) ∧
    match st with
    | InProgress o t u =>
        (o = lease_owner_id l ∧ t = lease_fencing_token l ∧ u = lease_lease_until l) ∨
        (lease_lease_until l ≤ dw_now w)%Z
    | Completed _ _ => True
    end.

Record task_ok (w : dworld) (i : invocation) (m : mon) : Prop := mk_task_ok {
  ok_lease l : dm_lease m = Some l → ∃ id fp, reserves i = Some (id, fp) ∧ lease_ok w id fp l;
  ok_handled out id fp : dm_handled m = Some (Ok out) → reserves i = Some (id, fp) →
    handled (dw_log w) id fp out;
  ok_replay resp : dm_replay m = Some resp →
    ∃ id fp out, reserves i = Some (id, fp) ∧ handled (dw_log w) id fp out ∧
      encode_stored_response S out = Ok resp;
}.

Record sys_ok (s : dsystem) : Prop := mk_sys_ok {
  ok_records : records_ok (d_world s);
  ok_tasks n t : d_tasks s !! n = Some t →
    task_ok (d_world s) (dt_call t) (dt_monitor t) ∧
    obeys (dt_call t) (dt_prog t) (dt_monitor t) (caller_result S from_reservation);
  ok_overlap n n' t t' l l' : n ≠ n' → d_tasks s !! n = Some t → d_tasks s !! n' = Some t' →
    dm_lease (dt_monitor t) = Some l → dm_lease (dt_monitor t') = Some l' →
    lease_operation_id l = lease_operation_id l' →
    (lease_lease_until l ≤ dw_now (d_world s) ∨ lease_lease_until l' ≤ dw_now (d_world s))%Z;
}.

(** One world after another: time passes, nothing is forgotten, and the record of an
    operation keeps its fingerprint and, once completed, its response. *)
Record evolves (w w' : dworld) : Prop := mk_evolves {
  ev_now : (dw_now w ≤ dw_now w')%Z;
  ev_log x : x ∈ dw_log w → x ∈ dw_log w';
  ev_lease id fp l : lease_ok w id fp l → lease_ok w' id fp l;
  ev_completed id fp resp at_ :
    dw_records w !! id = Some (mk_record fp (Completed resp at_)) →
    dw_records w' !! id = Some (mk_record fp (Completed resp at_));
}.

Lemma handled_mono log log' id fp out :
  (∀ x, x ∈ log → x ∈ log') → handled log id fp out → handled log' id fp out.
Proof. intros Hsub (i & Hin & Hi). exists i. auto. Qed.

Lemma task_ok_mono w w' i m : evolves w w' → task_ok w i m → task_ok w' i m.
Proof.
  intros [Hn Hl Hls _] [H1 H2 H3]. split.
  - intros l Hm. destruct (H1 l Hm) as (id & fp & Hr & Ho). exists id, fp. auto.
  - intros out id fp Hm Hr. eapply handled_mono; [done|]. eauto.
  - intros resp Hm. destruct (H3 resp Hm) as (id & fp & out & Hr & Hh & He).
    exists id, fp, out. split_and!; [done| |done]. by eapply handled_mono.
Qed.

Lemma evolves_refl w : evolves w w.
Proof. by split. Qed.

(** ** What the store does *)
Lemma evolves_time w now' :
  (dw_now w ≤ now')%Z → evolves w (mk_dworld (dw_records w) now' (dw_log w)).
Proof.
  intros Hn. split; [done..| |done]. intros id fp l (Hid & st & Hst & Hl). split; [done|].
  exists st. split; [done|]. destruct st; [|done]. destruct Hl; [by left|right; simpl; lia].
Qed.

(** The record a reservation leaves. *)
Lemma reserve_lookup now req s r s' :
  reserve now req s = (r, s') →
  (s' = s ∧ match r with
            | Ok (Fresh _) | Ok (TakenOver _) => False
            | Ok (Succeeded resp) => ∃ at_, s !! request_id req =
                Some (mk_record (req_fingerprint req) (Completed resp at_))
            | _ => True
            end) ∨
  ∃ l, (r = Ok (Fresh l) ∧ s !! request_id req = None ∨
        r = Ok (TakenOver l) ∧ ∃ o t u, (u ≤ now)%Z ∧
          s !! request_id req = Some (mk_record (req_fingerprint req) (InProgress o t u))) ∧
    lease_operation_id l = request_id req ∧ lease_lease_until l = req_lease_until req ∧
    s' = <[request_id req := mk_record (req_fingerprint req)
             (InProgress (lease_owner_id l) (lease_fencing_token l) (lease_lease_until l))]> s.
Proof.
  unfold reserve. destruct (s !! request_id req) as [[fp st]|] eqn:Hs; simpl.
  2: { intros [= <- <-]. right. eexists. split_and!; [by left|done..]. }
  destruct (decide (fp = req_fingerprint req)) as [->|Hne].
  2: { rewrite decide_True by done. intros [= <- <-]. by left. }
  rewrite decide_False by tauto. destruct st as [o t u|resp at_].
  - case_decide as Hu.
    + destruct (token_next t) as [t'|]; intros [= <- <-]; [|by left].
      right. eexists. split_and!; [right; split; [done|]|done..]. by exists o, t, u.
    + case_decide; intros [= <- <-]; by left.
  - intros [= <- <-]. left. split; [done|]. by exists at_.
Qed.

(** Whoever held a lease when another was granted had let it expire. *)
Lemma grant_expires w req r s' l id fp l' :
  reserve (dw_now w) req (dw_records w) = (r, s') → r = Ok (Fresh l) ∨ r = Ok (TakenOver l) →
  id = request_id req → lease_ok w id fp l' → (lease_lease_until l' ≤ dw_now w)%Z.
Proof.
  intros Hr Hg -> (_ & st & Hst & Hl).
  destruct (reserve_lookup _ _ _ _ _ Hr) as [[_ Hno]|(l0 & Hcase & _)].
  { destruct Hg; subst; done. }
  destruct Hcase as [[_ Hs]|[_ (o & t & u & Hu & Hs)]]; [congruence|].
  rewrite Hs in Hst. injection Hst as <- <-. destruct Hl as [(_ & _ & ->)|]; done.
Qed.

Lemma evolves_reserve w req r s' :
  reserve (dw_now w) req (dw_records w) = (r, s') →
  evolves w (mk_dworld s' (dw_now w) (dw_log w)).
Proof.
  intros Hr. destruct (reserve_lookup _ _ _ _ _ Hr) as [[-> _]|(l & Hcase & Hid & _ & ->)];
    [by destruct w; apply evolves_refl|].
  split; [done|done| |].
  - intros id fp l' Hl'. pose proof Hl' as (Hid' & st & Hst & Hl). split; [done|]. simpl.
    destruct (decide (id = request_id req)) as [->|Hne].
    + eexists. rewrite lookup_insert_eq. split.
      * destruct Hcase as [[_ Hs]|[_ (o & t & u & _ & Hs)]]; rewrite Hs in Hst; [done|].
        by injection Hst as <- <-.
      * right. eapply (grant_expires w req r _ l (request_id req) fp); [exact Hr| |done|exact Hl'].
        destruct Hcase as [[-> _]|[-> _]]; eauto.
    + exists st. by rewrite lookup_insert_ne.
  - intros id fp resp at_ Hs. simpl. rewrite lookup_insert_ne; [done|]. intros <-.
    destruct Hcase as [[_ Hs']|[_ (o & t & u & _ & Hs')]]; rewrite Hs' in Hs; done.
Qed.

Lemma complete_lookup now f resp s r s' :
  complete now f resp s = (r, s') →
  s' = s ∨ ∃ fp o t u, s !! fence_operation_id f = Some (mk_record fp (InProgress o t u)) ∧
    s' = <[fence_operation_id f := mk_record fp (Completed resp now)]> s.
Proof.
  unfold complete. destruct (s !! fence_operation_id f) as [[fp st]|] eqn:Hs; [|intros [= _ <-]; by left].
  simpl. destruct st as [o t u|]; [|intros [= _ <-]; by left].
  destruct (fence_holds now f (InProgress o t u)); intros [= _ <-]; [|by left].
  right. by exists fp, o, t, u.
Qed.

Lemma evolves_complete w f resp r s' :
  complete (dw_now w) f resp (dw_records w) = (r, s') →
  evolves w (mk_dworld s' (dw_now w) (dw_log w)).
Proof.
  intros Hc. destruct (complete_lookup _ _ _ _ _ _ Hc) as [->|(fp0 & o & t & u & Hs & ->)];
    [by destruct w; apply evolves_refl|].
  split; [done|done| |].
  - intros id fp l (Hid & st & Hst & Hl). split; [done|]. simpl.
    destruct (decide (id = fence_operation_id f)) as [->|Hne].
    + rewrite lookup_insert_eq, Hs in *. injection Hst as -> _. by eexists.
    + exists st. by rewrite lookup_insert_ne.
  - intros id fp resp' at_ Hs'. simpl. rewrite lookup_insert_ne; [done|]. intros <-. congruence.
Qed.

Lemma evolves_handle w i r :
  evolves w match r : result E T with
            | Ok out => mk_dworld (dw_records w) (dw_now w) ((i, out) :: dw_log w)
            | Err _ => w
            end.
Proof. destruct r; [|apply evolves_refl]. split; [done| |done|done]. simpl. set_solver. Qed.

Lemma evolves_answer i w B (c : dcmd T E B) b w' : answer i w c b w' → evolves w w'.
Proof.
  destruct c; simpl; try (intros ->; apply evolves_refl).
  - intros [(s' & Hr & ->)|(msg & _ & ->)]; [by eapply evolves_reserve|apply evolves_refl].
  - intros ->. apply evolves_handle.
  - intros [(s' & Hr & ->)|(msg & _ & ->)]; [by eapply evolves_complete|apply evolves_refl].
Qed.

(** Responses in the store stay genuine. *)
Lemma answer_records i w m B (c : dcmd T E B) b w' :
  records_ok w → task_ok w i m → may_do i m B c → answer i w c b w' → records_ok w'.
Proof.
  intros Hw Ht Ha Hans. destruct c; simpl in Hans; try (by subst w').
  - destruct Hans as [(s' & Hr & ->)|(msg & _ & ->)]; [|done].
    intros id fp resp at_ Hs. apply (Hw id fp resp at_).
    destruct (reserve_lookup _ _ _ _ _ Hr) as [[-> _]|(l & _ & _ & _ & ->)]; [done|].
    simpl in Hs. destruct (decide (id = request_id req)) as [->|Hne];
      [by rewrite lookup_insert_eq in Hs|by rewrite lookup_insert_ne in Hs].
  - subst w'. destruct b as [out|e]; [|done]. intros id fp resp at_ Hs.
    destruct (Hw id fp resp at_ Hs) as (o & Hh & He). exists o. split; [|done].
    eapply handled_mono; [|done]. simpl. set_solver.
  - destruct Hans as [(s' & Hr & ->)|(msg & _ & ->)]; [|done].
    destruct Ha as (_ & Hf & out & Hout & He).
    apply fmap_Some in Hf as (l & Hl & ->).
    destruct (ok_lease _ _ _ Ht l Hl) as (id0 & fp0 & Hres & Hid & st & Hst & _).
    intros id fp resp at_ Hs. simpl in *.
    destruct (complete_lookup _ _ _ _ _ _ Hr) as [->|(fp' & o & t & u & Hs' & ->)]; [by eapply Hw|].
    simpl in Hs, Hs'. rewrite Hid in Hs, Hs'. destruct (decide (id = id0)) as [->|Hne].
    + rewrite lookup_insert_eq in Hs. rewrite Hst in Hs'. simplify_eq.
      exists out. split; [|done]. by eapply ok_handled.
    + rewrite lookup_insert_ne in Hs by done. by eapply Hw.
Qed.

(** A dispatch after one of its commands. *)
Lemma answer_task i w m B (c : dcmd T E B) b w' :
  records_ok w → task_ok w i m → may_do i m B c → answer i w c b w' →
  task_ok w' i (observe m _ c b).
Proof.
  intros Hw Ht Ha Hans. pose proof (evolves_answer _ _ _ _ _ _ Hans) as Hev.
  pose proof (task_ok_mono _ _ _ _ Hev Ht) as Ht'. destruct c; try exact Ht'.
  - destruct b; [|exact Ht']. destruct Ht'; by split.
  - destruct Ha as (_ & _ & _ & _ & Hg & _). change (reserves i = Some (request_id req, req_fingerprint req)) in Hg.
    assert (∀ a p, task_ok w' i (mk_dm a true (dm_lease m) (dm_replay m) (dm_handled m) p)) as Hsame.
    { intros a p. destruct Ht'; by split. }
    destruct Hans as [(s' & Hr & ->)|(msg & -> & ->)]; [|apply Hsame].
    destruct (reserve_lookup _ _ _ _ _ Hr) as [[-> Hno]|(l & Hcase & Hid & Hu & ->)].
    + destruct b as [[l|l|l| |resp|]|e]; try done; try apply Hsame.
      destruct Hno as (at_ & Hs). destruct (Hw _ _ _ _ Hs) as (out & Hh & He).
      destruct Ht' as [H1 H2 H3]. split; [done|done|]. simpl. intros ? [= <-].
      by exists (request_id req), (req_fingerprint req), out.
    + assert (task_ok (mk_dworld (<[request_id req := mk_record (req_fingerprint req)
        (InProgress (lease_owner_id l) (lease_fencing_token l) (lease_lease_until l))]> (dw_records w))
        (dw_now w) (dw_log w)) i
        (mk_dm (dm_auth m) true (Some l) (dm_replay m) (dm_handled m) (dm_completed m))) as Hnew.
      { destruct Ht' as [H1 H2 H3]. split; [|done|done]. simpl. intros ? [= <-].
        exists (request_id req), (req_fingerprint req). split; [done|]. split; [done|].
        eexists. simpl. rewrite lookup_insert_eq. split; [done|]. by left. }
      destruct Hcase as [[-> _]|[-> _]]; exact Hnew.
  - simpl in Hans. subst w'. destruct Ht' as [H1 H2 H3]. split; [done| |done].
    simpl. intros out id fp [= ->] Hres. exists i. split; [|done]. simpl. set_solver.
  - destruct Ht'; by split.
Qed.

(** A lease a dispatch holds after a command it held before, or everyone else's lease on
    the operation has expired. *)
Lemma lease_change i w m B (c : dcmd T E B) b w' l :
  answer i w c b w' → dm_lease (observe m _ c b) = Some l →
  dm_lease m = Some l ∨
  ∀ id fp l', lease_operation_id l = lease_operation_id l' → lease_ok w id fp l' →
    (lease_lease_until l' ≤ dw_now w)%Z.
Proof.
  intros Hans. destruct c; try (intros ?; by left).
  { destruct b; by left. }
  assert (∀ l0, b = Ok (Fresh l0) ∨ b = Ok (TakenOver l0) → Some l0 = Some l →
    ∀ id fp l', lease_operation_id l = lease_operation_id l' → lease_ok w id fp l' →
      (lease_lease_until l' ≤ dw_now w)%Z) as Hgrant.
  { intros l0 Hb [= ->] id fp l' Hid Hl'.
    destruct Hans as [(s' & Hr & _)|(msg & -> & _)]; [|by destruct Hb].
    eapply (grant_expires w req b s' l id fp); [done|done| |done].
    destruct (reserve_lookup _ _ _ _ _ Hr) as [[_ Hno]|(l1 & Hcase & Hid1 & _)];
      [by destruct Hb; subst b|].
    destruct Hl' as [<- _]. rewrite <-Hid, <-Hid1. by destruct Hcase as [[-> _]|[-> _]], Hb; simplify_eq. }
  destruct b as [[l0|l0|l0| |resp|]|e]; simpl; try (intros ?; by left); right; eapply Hgrant; eauto.
Qed.

Lemma sys_ok_step s s' : sys_ok s → step s s' → sys_ok s'.
Proof.
  intros [Hw Hts Hov] Hstep. destruct Hstep as [w ts now' Hn|n i w ts Hfree|n t B c k b w w' ts Ht Hp Hans|n w ts];
    simpl in *.
  - split; simpl; [exact Hw| |].
    + intros n t Ht. destruct (Hts n t Ht) as [Hok Hob]. split; [|done].
      by eapply task_ok_mono; [apply evolves_time|].
    + intros n n' t t' l l' Hne Ht Ht' Hl Hl' Hid. destruct (Hov n n' t t' l l'); auto; lia.
  - split; simpl; [done| |].
    + intros m t Hm. insert_cases Hm; [|by apply (Hts m)]. split; [by split|apply dispatch_obeys].
    + intros m m' t t' l l' Hne Hm Hm' Hl Hl' Hid. insert_cases Hm. insert_cases Hm'.
      by eapply (Hov m m').
  - destruct (Hts n t Ht) as [Hok Hob]. rewrite Hp in Hob. destruct Hob as [Ha Hk].
    pose proof (evolves_answer _ _ _ _ _ _ Hans) as Hev. split; simpl.
    + by eapply answer_records.
    + intros m t' Hm. insert_cases Hm.
      * split; [by eapply answer_task|by apply Hk].
      * destruct (Hts m t') as [Hok' Hob']; [done|]. split; [by eapply task_ok_mono|done].
    + pose proof (ev_now _ _ Hev) as Hnow.
      assert (∀ m t' l l', n ≠ m → ts !! m = Some t' → dm_lease (observe (dt_monitor t) _ c b) = Some l →
        dm_lease (dt_monitor t') = Some l' → lease_operation_id l = lease_operation_id l' →
        lease_lease_until l ≤ dw_now w' ∨ lease_lease_until l' ≤ dw_now w')%Z as Hpair.
      { intros m t' l l' Hne Hm Hl Hl' Hid.
        destruct (lease_change _ _ _ _ _ _ _ _ Hans Hl) as [Hold|Hexp].
        - destruct (Hov n m t t' l l'); auto; lia.
        - destruct (Hts m t' Hm) as [Hok' _].
          destruct (ok_lease _ _ _ Hok' l' Hl') as (id & fp & _ & Hlo).
          right. specialize (Hexp id fp l' Hid Hlo). lia. }
      intros m m' t1 t2 l l' Hne Hm Hm' Hl Hl' Hid. insert_cases Hm; insert_cases Hm'.
      * by eapply Hpair.
      * apply or_comm. by eapply Hpair.
      * destruct (Hov m m' t1 t2 l l'); auto; lia.
  - split; simpl; [done| |].
    + intros m t Hm. delete_cases Hm. by apply (Hts m).
    + intros m m' t t' l l' Hne Hm Hm'. delete_cases Hm. delete_cases Hm'. by apply (Hov m m').
Qed.

Lemma sys_reachable_ok s : reachable s → sys_ok s.
Proof.
  intros (now & Hr). assert (sys_ok (initial now)) as H0.
  { split; simpl; [by intros ? ? ? ?|by intros ? ?|by intros ? ? ? ? ? ? _ ?]. }
  revert H0. induction Hr as [|s s1 s' Hstep _ IH]; [done|]. eauto using sys_ok_step.
Qed.

(** ** After a completion *)
Lemma step_completed s s' id fp resp at_ :
  sys_ok s → step s s' →
  dw_records (d_world s) !! id = Some (mk_record fp (Completed resp at_)) →
  dw_records (d_world s') !! id = Some (mk_record fp (Completed resp at_)) ∧
  ∀ n t l, d_tasks s' !! n = Some t → dm_lease (dt_monitor t) = Some l → lease_operation_id l = id →
    ∃ t0, d_tasks s !! n = Some t0 ∧ dm_lease (dt_monitor t0) = Some l.
Proof.
  intros [Hw Hts _] Hstep Hs. destruct Hstep as [w ts now' Hn|n i w ts Hfree|n t B c k b w w' ts Ht Hp Hans|n w ts];
    simpl in *; (split; [try done|]).
  - intros n t l Hn' Hl _. by exists t.
  - intros m t l Hm Hl _. insert_cases Hm. by exists t.
  - by eapply ev_completed; [eapply evolves_answer|].
  - intros m t' l Hm Hl Hid. insert_cases Hm; [|by exists t'].
    exists t. split; [done|]. simpl in Hl. destruct c; try exact Hl.
    + destruct b; exact Hl.
    + destruct (Hts m t Ht) as [_ Hob]. rewrite Hp in Hob. destruct Hob as [(_ & _ & _ & _ & _ & _) _].
      destruct Hans as [(s' & Hr & ->)|(msg & -> & ->)]; [|exact Hl].
      destruct (reserve_lookup _ _ _ _ _ Hr) as [[-> Hno]|(l0 & Hcase & Hid0 & _)].
      * destruct b as [[]|]; try exact Hl; done.
      * destruct Hcase as [[-> Hn]|[-> (o & t' & u & _ & Hu)]]; simpl in Hl; simplify_eq; congruence.
  - intros m t l Hm Hl _. delete_cases Hm. by exists t.
Qed.

Lemma run_completed s s' id fp resp at_ :
  sys_ok s → rtc step s s' →
  dw_records (d_world s) !! id = Some (mk_record fp (Completed resp at_)) →
  dw_records (d_world s') !! id = Some (mk_record fp (Completed resp at_)) ∧
  ∀ n t l, d_tasks s' !! n = Some t → dm_lease (dt_monitor t) = Some l → lease_operation_id l = id →
    ∃ t0, d_tasks s !! n = Some t0 ∧ dm_lease (dt_monitor t0) = Some l.
Proof.
  intros Hok Hr. revert Hok. induction Hr as [s|s s1 s' Hstep Hr IH]; intros Hok Hs.
  - split; [done|]. intros n t l Hn Hl _. by exists t.
  - destruct (step_completed _ _ _ _ _ _ Hok Hstep Hs) as [Hs1 H1].
    destruct (IH (sys_ok_step _ _ Hok Hstep) Hs1) as [Hs2 H2]. split; [done|].
    intros n t l Hn Hl Hid. destruct (H2 n t l Hn Hl Hid) as (t0 & Ht0 & Hl0). by eapply H1.
Qed.

(** ** A dispatch that runs alone, with every port up and a handler that answers [h] *)
Definition perform (h : T) (i : invocation) (w : dworld) {B} (c : dcmd T E B) : B * dworld :=
  match c in dcmd _ _ B return B * dworld with
  | DUpgrade => (true, w)
  | DAuthorize _ _ _ => (Ok (), w)
  | DDenial _ _ => ((), w)
  | DClock => (dw_now w, w)
  | DReserve req =>
      let '(r, s) := reserve (dw_now w) req (dw_records w) in
      (r, mk_dworld s (dw_now w) (dw_log w))
  | DCounter _ _ => ((), w)
  | DHook _ _ _ => (Ok (), w)
  | DHandle _ => (Ok h, mk_dworld (dw_records w) (dw_now w) ((i, h) :: dw_log w))
  | DComplete fence response =>
      let '(r, s) := complete (dw_now w) fence response (dw_records w) in
      (r, mk_dworld s (dw_now w) (dw_log w))
  | DLost _ _ => ((), w)
  end.

Fixpoint drive (h : T) (i : invocation) {A} (p : prog (dcmd T E) A) (w : dworld) : A * dworld :=
  match p with
  | Ret a => (a, w)
  | Do c k => let '(b, w') := perform h i w c in drive h i (k b) w'
  end.

Lemma perform_answer h i w B (c : dcmd T E B) : answer i w c (perform h i w c).1 (perform h i w c).2.
Proof.
  destruct c; simpl; try done.
  - destruct (reserve _ req _) as [r s'] eqn:Hr. left. by exists s'.
  - destruct (complete _ fence response _) as [r s'] eqn:Hr. left. by exists s'.
Qed.

(** Driving a dispatch is a run of the system. *)
Lemma drive_runs h i p : ∀ m w n ts, ∃ m',
  rtc step (mk_dsystem w (<[n := mk_dtask i p m]> ts))
    (mk_dsystem (drive h i p w).2 (<[n := mk_dtask i (Ret (drive h i p w).1) m']> ts)).
Proof.
  induction p as [a|B c k IH]; intros m w n ts; [by exists m|].
  pose proof (perform_answer h i w B c) as Ha. cbn [drive].
  destruct (perform h i w c) as [b w'] eqn:Hp. simpl in Ha.
  destruct (IH b (observe m _ c b) w' n ts) as (m' & Hm'). exists m'.
  eapply rtc_l; [|exact Hm'].
  rewrite <-(insert_insert_eq ts n (mk_dtask i (k b) (observe m _ c b)) (mk_dtask i (Do c k) m)).
  exact (step_command n (mk_dtask i (Do c k) m) B c k b w w' _ (lookup_insert_eq _ _ _) eq_refl Ha).
Qed.

Lemma drive_bind h i {A B} (p : prog (dcmd T E) A) (f : A → prog (dcmd T E) B) w :
  drive h i (bind p f) w = let '(a, w') := drive h i p w in drive h i (f a) w'.
Proof.
  revert w. induction p as [a|C c k IH]; intros w; [done|]. cbn [bind drive].
  destruct (perform h i w c) as [b w']. apply IH.
Qed.

Lemma drive_count h i rt name value w : drive h i (count rt name value) w = ((), w).
Proof. unfold count. by case_match. Qed.

Lemma drive_chain h i phase ctx n w : drive h i (chain phase ctx n) w = (Ok (), w).
Proof. unfold chain. by induction (seq 0 n). Qed.

(** The guards of the call let it pass when the ports answer. *)
Definition admitted (i : invocation) : Prop :=
  (op_authorize (i_op i) = None ∨ rt_provider (i_rt i) = true ∧ is_Some (security (i_ctx i))) ∧
  tenant_ok (i_rt i) (i_op i) (i_ctx i).

Lemma drive_guards h i w :
  admitted i →
  drive h i (authorize_guard from_security (i_rt i) (i_op i) (named (i_op i) (i_ctx i))) w = (Ok (), w) ∧
  drive h i (enforce_tenant_block from_security (i_rt i) (i_op i) (named (i_op i) (i_ctx i))) w
    = (Ok (scoped (i_rt i) (i_op i) (i_ctx i)), w).
Proof.
  intros [Ha Ht]. split.
  - unfold authorize_guard. destruct (op_authorize (i_op i)) as [[res act]|]; [|done].
    destruct Ha as [|[Hp [sec Hs]]]; [done|]. cbn [bind exec drive perform].
    change (security (named (i_op i) (i_ctx i))) with (security (i_ctx i)). by rewrite Hs, Hp.
  - unfold enforce_tenant_block, scoped. unfold tenant_ok in Ht.
    destruct (op_tenant_scoped (i_op i)); [|done]. cbn [bind exec drive perform].
    specialize (Ht eq_refl). destruct (enforce_tenant _ _) as [[[]|e] ctx']; [done|discriminate Ht].
Qed.

(** The slot of a call that reserves, for what the store answers. *)
Lemma drive_slot h i w id fp :
  reserves i = Some (id, fp) → ∃ config req,
  rt_reservation (i_rt i) = Some config ∧
  request_id req = id ∧ req_fingerprint req = fp ∧ req_owner_id req = owner_id config ∧
  req_lease_until req = (dw_now w + lease_duration config)%Z ∧
  ∀ o s', reserve (dw_now w) req (dw_records w) = (Ok o, s') →
  drive h i (idempotency_slot number_to_string sha256 S from_reservation (i_rt i) (i_op i) (i_args i)
               (scoped (i_rt i) (i_op i) (i_ctx i))) w =
    (match decide_outcome o with
     | Err e => (Err (from_reservation e), scoped (i_rt i) (i_op i) (i_ctx i))
     | Ok (Replay stored) =>
         (match decode_stored_response S stored with
          | Ok out => Ok (Answered out) | Err e => Err (from_reservation e) end,
          set_operation_fingerprint fp (scoped (i_rt i) (i_op i) (i_ctx i)))
     | Ok d => (Ok (Go (Some d)), set_operation_fingerprint fp (scoped (i_rt i) (i_op i) (i_ctx i)))
     end, mk_dworld s' (dw_now w) (dw_log w)).
Proof.
  unfold reserves, guarded. destruct (op_idempotent (i_op i)) eqn:Hi; [|done].
  destruct (rt_reservation (i_rt i)) as [config|] eqn:Hc; [|done].
  destruct (operation_key _) as [key|] eqn:Hk; [|done].
  destruct (canonical_tenant _) as [c|] eqn:Hct; [|done].
  destruct (i_args i) as [v|]; [|done]. intros [= <- <-].
  exists config, (mk_request (canonical_tenant_id c) key (digest_of number_to_string sha256 v)
    (owner_id config) (dw_now w + lease_duration config)%Z). split_and!; [done..|].
  intros o s' Hr. unfold idempotency_slot. rewrite Hi. cbn [bind exec drive perform].
  unfold operation_fingerprint, reserve_idempotent_operation. rewrite Hc, Hk, Hct.
  rewrite !drive_bind. unfold config_reserve. cbn [bind exec drive perform]. rewrite Hr. cbn [drive].
  rewrite drive_bind, drive_count, drive_bind.
  replace (drive h i _ (mk_dworld s' (dw_now w) (dw_log w)))
    with ((), mk_dworld s' (dw_now w) (dw_log w)).
  2: { destruct (lease_event_value o); [by rewrite drive_count|done]. }
  by destruct o.
Qed.

Abbreviation call i := (dispatch number_to_string sha256 S from_security from_reservation (i_rt i)
  (i_op i) (i_interceptors i) (i_args i) (i_ctx i)).

Lemma drive_call h i w id fp r w' :
  admitted i → reserves i = Some (id, fp) →
  drive h i (idempotency_slot number_to_string sha256 S from_reservation (i_rt i) (i_op i) (i_args i)
               (scoped (i_rt i) (i_op i) (i_ctx i))) w = (r, w') →
  drive h i (call i) w =
    match r with
    | (Err e, _) => (Err e, w')
    | (Ok (Answered out), _) => (Ok out, w')
    | (Ok (Go reservation), ctx) =>
        drive h i (invoke S (i_rt i) (i_op i) (i_interceptors i) reservation ctx) w'
    end.
Proof.
  intros Ha Hr Hs. destruct (drive_guards h i w Ha) as [H1 H2].
  unfold dispatch. fold (named (i_op i) (i_ctx i)). rewrite drive_bind, H1. cbn beta iota.
  rewrite drive_bind, H2. cbn beta iota. rewrite drive_bind, Hs.
  by destruct r as [[[out|res]|e] ctx].
Qed.

(** A completed operation is answered from the store. *)
Lemma drive_replay h i w id fp resp at_ out :
  admitted i → reserves i = Some (id, fp) →
  dw_records w !! id = Some (mk_record fp (Completed resp at_)) →
  decode_stored_response S resp = Ok out →
  drive h i (call i) w = (Ok out, w).
Proof.
  intros Ha Hr Hs Hd. destruct (drive_slot h i w id fp Hr) as (config & req & _ & Hid & Hfp & _ & _ & Hslot).
  assert (reserve (dw_now w) req (dw_records w) = (Ok (Succeeded resp), dw_records w)) as Hres.
  { unfold reserve. rewrite Hid, Hs, Hfp. simpl. by rewrite decide_False by tauto. }
  rewrite (drive_call h i w id fp _ _ Ha Hr (Hslot _ _ Hres)).
  simpl. rewrite Hd. by destruct w.
Qed.

Lemma drive_invoke h i w id fp l ctx config resp u :
  reserves i = Some (id, fp) → rt_reservation (i_rt i) = Some config →
  encode_stored_response S h = Ok resp → lease_operation_id l = id →
  dw_records w !! id = Some (mk_record fp (InProgress (lease_owner_id l) (lease_fencing_token l) u)) →
  (dw_now w < u)%Z →
  drive h i (invoke S (i_rt i) (i_op i) (i_interceptors i) (Some (Proceed (fence_of l))) ctx) w =
    (Ok h, mk_dworld (<[id := mk_record fp (Completed resp (dw_now w))]> (dw_records w)) (dw_now w)
             ((i, h) :: dw_log w)).
Proof.
  intros Hr Hc He Hid Hs Hu. unfold invoke. rewrite drive_bind, drive_chain. cbn [bind exec drive perform].
  unfold idempotency_epilogue. unfold reserves, guarded in Hr.
  destruct (op_idempotent (i_op i)); [|done]. cbn [bind exec drive perform].
  unfold complete_idempotent_operation. rewrite drive_bind, Hc, He. cbn [bind exec drive perform].
  unfold complete. simpl. rewrite Hid, Hs. simpl.
  rewrite !bool_decide_true by done. simpl. by rewrite drive_bind, drive_chain.
Qed.

(** An operation seen for the first time runs and is recorded. *)
Lemma drive_first h i w id fp resp :
  admitted i → reserves i = Some (id, fp) → dw_records w !! id = None →
  (∀ config, rt_reservation (i_rt i) = Some config → 0 < lease_duration config)%Z →
  encode_stored_response S h = Ok resp →
  ∃ w', drive h i (call i) w = (Ok h, w') ∧ dw_log w' = (i, h) :: dw_log w ∧
    dw_records w' !! id = Some (mk_record fp (Completed resp (dw_now w))).
Proof.
  intros Ha Hr Hs Hl He.
  destruct (drive_slot h i w id fp Hr) as (config & req & Hc & Hid & Hfp & Ho & Hu & Hslot).
  specialize (Hl config Hc). subst id fp.
  eassert (reserve (dw_now w) req (dw_records w) = (Ok (Fresh _), _)) as Hres.
  { unfold reserve. by rewrite Hs. }
  specialize (Hslot _ _ Hres). cbn [decide_outcome] in Hslot.
  rewrite (drive_call h i w _ _ _ _ Ha Hr Hslot). eexists. split.
  - rewrite (drive_invoke h i _ _ _ _ _ config resp (req_lease_until req) Hr Hc He);
      [done|done|by simpl; rewrite lookup_insert_eq|simpl; lia].
  - split; [done|]. simpl. by rewrite lookup_insert_eq.
Qed.
End system.
Arguments step {number T E} _ _ _ _ _ _ _.
Arguments reachable {number T E} _ _ _ _ _ _.

(** ** Properties *)

(** C10: Answers are genuine: in every reachable state of any number of concurrent
    dispatches over one store, with crashes, expiring leases and store outages, an
    idempotent call that was answered with an output was answered with what a handler
    really returned for a call of the same tenant, the same key and the same
    fingerprint; in particular a tenant is never given another tenant's response. *)
Theorem answers_are_genuine {number T E} (number_to_string : number → string) sha256
    (S : serde number T) (from_security : SecurityError → E) from_reservation s n t id fp out :
  serde_ok S → reachable number_to_string sha256 S from_security from_reservation s →
  d_tasks s !! n = Some t → dt_prog t = Ret (Ok out) →
  reserves number_to_string sha256 (dt_call t) = Some (id, fp) →
  ∃ i, (i, out) ∈ dw_log (d_world s) ∧ reserves number_to_string sha256 i = Some (id, fp).
Proof.
  intros HS Hreach Ht Hp Hr. apply sys_reachable_ok in Hreach as [_ Hts _].
  destruct (Hts n t Ht) as [Hok Hob]. rewrite Hp in Hob. simpl in Hob. unfold caller_result in Hob.
  destruct (dm_handled (dt_monitor t)) as [h|] eqn:Hh.
  - subst h. by apply (ok_handled _ _ _ _ _ _ Hok out id fp).
  - destruct (dm_replay (dt_monitor t)) as [resp|] eqn:Hrep; [|by destruct Hob].
    destruct (ok_replay _ _ _ _ _ _ Hok resp Hrep) as (id' & fp' & out' & Hr' & Hh' & He).
    unfold decode_stored_response in Hob. rewrite (encode_decode S out' resp HS He) in Hob.
    injection Hob as <-. rewrite Hr in Hr'. injection Hr' as <- <-. exact Hh'.
Qed.

(** C9: A completed operation is never executed again: once the response of an operation
    is recorded, in every later state the record is still there and every dispatch that
    holds a lease on that operation held it already then; no dispatch that comes later
    ever reaches its handler. *)
Theorem completed_operation_never_reruns {number T E} (number_to_string : number → string) sha256
    (S : serde number T) (from_security : SecurityError → E) from_reservation s s' id fp resp at_ :
  reachable number_to_string sha256 S from_security from_reservation s →
  dw_records (d_world s) !! id = Some (mk_record fp (Completed resp at_)) →
  rtc (step number_to_string sha256 S from_security from_reservation) s s' →
  dw_records (d_world s') !! id = Some (mk_record fp (Completed resp at_)) ∧
  ∀ n t ctx k, d_tasks s' !! n = Some t → dt_prog t = Do (DHandle ctx) k →
    reserves number_to_string sha256 (dt_call t) = Some (id, fp) →
    ∃ t0 l, d_tasks s !! n = Some t0 ∧ dm_lease (dt_monitor t0) = Some l ∧
      dm_lease (dt_monitor t) = Some l.
Proof.
  intros Hreach Hs Hrun. apply sys_reachable_ok in Hreach as Hok.
  destruct (run_completed _ _ _ _ _ s s' id fp resp at_ Hok Hrun Hs) as [Hs' Hl]. split; [done|].
  intros n t ctx k Ht Hp Hr.
  assert (reachable number_to_string sha256 S from_security from_reservation s') as Hreach'.
  { destruct Hreach as (now & H0). exists now. by etrans. }
  apply sys_reachable_ok in Hreach' as [_ Hts _]. destruct (Hts n t Ht) as [Htok Hob].
  rewrite Hp in Hob. destruct Hob as [(_ & _ & _ & Hcase) _].
  destruct Hcase as [[Hun _]|(l & id' & fp' & Hg & Hlease & _)].
  - unfold reserves, guarded in Hr. unfold unreserved in Hun.
    destruct Hun as [Hun|[Hun|Hun]]; rewrite Hun in Hr; repeat case_match; done.
  - change (reserves number_to_string sha256 (dt_call t) = Some (id', fp')) in Hg.
    rewrite Hr in Hg. injection Hg as <- <-.
    destruct (ok_lease _ _ _ _ _ _ Htok l Hlease) as (id' & fp' & Hr' & Hid & _).
    rewrite Hr in Hr'. injection Hr' as <- <-.
    destruct (Hl n t l Ht Hlease Hid) as (t0 & Ht0 & Hl0). by exists t0, l.
Qed.

(** Executions of one operation overlap only after a lease ran out: of two dispatches
    that hold leases on the same operation at the same time at least one's lease has
    expired, so while leases are kept the operation is executed by one dispatch at a
    time. *)
Lemma executions_overlap_only_after_expiry {number T E} (number_to_string : number → string) sha256
    (S : serde number T) (from_security : SecurityError → E) from_reservation s n n' t t' l l' :
  reachable number_to_string sha256 S from_security from_reservation s →
  n ≠ n' → d_tasks s !! n = Some t → d_tasks s !! n' = Some t' →
  dm_lease (dt_monitor t) = Some l → dm_lease (dt_monitor t') = Some l' →
  lease_operation_id l = lease_operation_id l' →
  (lease_lease_until l ≤ dw_now (d_world s) ∨ lease_lease_until l' ≤ dw_now (d_world s))%Z.
Proof. intros Hreach. apply sys_reachable_ok in Hreach as [_ _ Hov]. by apply Hov. Qed.

(** Retries work: a call that is admitted, has a key the store does not know and
    runs with its ports up is answered with its handler's output, and any later retry of
    the same request, at any later time and whatever happened in the store since, is
    answered with the same output without running its handler. *)
Lemma retry_is_answered_alike {number T E} (number_to_string : number → string) sha256
    (S : serde number T) (from_security : SecurityError → E) from_reservation i w id fp h resp :
  serde_ok S → admitted i → reserves number_to_string sha256 i = Some (id, fp) →
  dw_records w !! id = None →
  (∀ config, rt_reservation (i_rt i) = Some config → 0 < lease_duration config)%Z →
  encode_stored_response S h = Ok resp →
  ∃ w1, drive (E:=E) h i (dispatch number_to_string sha256 S from_security from_reservation (i_rt i)
                  (i_op i) (i_interceptors i) (i_args i) (i_ctx i)) w = (Ok h, w1) ∧
    dw_log w1 = (i, h) :: dw_log w ∧
    ∀ i' h' w2, evolves w1 w2 → admitted i' →
      reserves number_to_string sha256 i' = Some (id, fp) →
      drive (E:=E) h' i' (dispatch number_to_string sha256 S from_security from_reservation (i_rt i')
                    (i_op i') (i_interceptors i') (i_args i') (i_ctx i')) w2 = (Ok h, w2).
Proof.
  intros HS Ha Hr Hs Hl He.
  destruct (drive_first number_to_string sha256 S from_security from_reservation h i w id fp resp)
    as (w1 & Hd & Hlog & Hrec); [done..|].
  exists w1. split_and!; [done|done|]. intros i' h' w2 Hev Ha' Hr'.
  apply (drive_replay number_to_string sha256 S from_security from_reservation h' i' w2 id fp resp (dw_now w));
    [done|done| |].
  - by eapply ev_completed.
  - unfold decode_stored_response. by rewrite (encode_decode S h resp).
Qed.

(** The same call of an operation with another name and other permissions. *)
Definition renamed {number} (i : invocation (number:=number)) name auth : invocation :=
  mk_invocation (i_rt i) (mk_op name auth (op_tenant_scoped (i_op i)) (op_idempotent (i_op i)))
    (i_interceptors i) (i_args i) (i_ctx i).

Lemma renamed_reserves {number} (number_to_string : number → string) sha256 i name auth :
  reserves number_to_string sha256 (renamed i name auth) = reserves number_to_string sha256 i.
Proof.
  unfold reserves, guarded, scoped, enforce_tenant. simpl.
  destruct (op_idempotent (i_op i)), (rt_reservation (i_rt i)), (op_tenant_scoped (i_op i)); try done.
  by destruct (resolve _ _ _ _).
Qed.

(** The operation is not part of what a key is bound to: the fingerprint covers the
    arguments alone, so after one operation completed under a key a call of another
    operation with the same key and the same arguments is answered with the first one's
    response, without running its handler, instead of being refused as a different
    request. *)
Lemma other_operation_is_answered {number T E} (number_to_string : number → string) sha256
    (S : serde number T) (from_security : SecurityError → E) from_reservation i w id fp h resp name auth :
  serde_ok S → admitted i → admitted (renamed i name auth) →
  reserves number_to_string sha256 i = Some (id, fp) → dw_records w !! id = None →
  (∀ config, rt_reservation (i_rt i) = Some config → 0 < lease_duration config)%Z →
  encode_stored_response S h = Ok resp →
  ∃ w1, drive (E:=E) h i (dispatch number_to_string sha256 S from_security from_reservation (i_rt i)
                  (i_op i) (i_interceptors i) (i_args i) (i_ctx i)) w = (Ok h, w1) ∧
    let j := renamed i name auth in
    ∀ h', drive (E:=E) h' j (dispatch number_to_string sha256 S from_security from_reservation (i_rt j)
                  (i_op j) (i_interceptors j) (i_args j) (i_ctx j)) w1 = (Ok h, w1).
Proof.
  intros HS Ha Ha' Hr Hs Hl He.
  destruct (drive_first number_to_string sha256 S from_security from_reservation h i w id fp resp)
    as (w1 & Hd & _ & Hrec); [done..|].
  exists w1. split; [done|]. intros j h'.
  apply (drive_replay number_to_string sha256 S from_security from_reservation h' j w1 id fp resp (dw_now w));
    [done|by rewrite <-(renamed_reserves number_to_string sha256 i name auth) in Hr|done|].
  unfold decode_stored_response. by rewrite (encode_decode S h resp).
Qed.

(** ** Witnesses *)
Module Example_pay.
Import Fingerprint.Example_request.

Definition digits (_ : Z) : string := "0".
Definition sha (bs : list Byte.byte) : list Byte.byte := bs.
Definition fs (_ : SecurityError) : unit := ().
Definition fr (_ : ReservationRejection) : unit := ().

Definition alice : Principal :=
  with_tenant (mk_id "acme") (Principal_new User (mk_subject "user:alice")).
Definition ctx : ServiceContext :=
  ctx_with_operation_key (mk_key "op-1")
    (with_security (SecurityContext_empty alice) ServiceContext_new).
Definition rt : Runtime :=
  mk_runtime true AuthenticatedOnly (Some (mk_reservation (mk_owner "node-1") 30)) false.
Definition op : Op := mk_op "pay" (Some ("orders", "pay")) true true.
Definition i : invocation (number:=Z) := mk_invocation rt op 1 (Some (VString "o-1")) ctx.
Definition w0 : dworld (number:=Z) (T:=bool) := mk_dworld ∅ 100 [].
Definition id : OperationId := mk_operation_id (Some (mk_id "acme")) (mk_key "op-1").
Definition fp : OperationFingerprint := digest_of digits sha (VString "o-1").

Abbreviation pay := (dispatch (E:=unit) digits sha codec fs fr rt op 1 (Some (VString "o-1")) ctx).
Definition w1 : dworld := (drive (E:=unit) true i pay w0).2.

Lemma i_admitted : admitted i.
Proof. split; [right; split; [done|by eexists]|done]. Qed.

Lemma i_reserves : reserves digits sha i = Some (id, fp).
Proof. by vm_compute. Qed.

(** A dispatch driven for a number of commands. *)
Fixpoint advance (h : bool) (k : nat) (t : dtask (number:=Z) (T:=bool) (E:=unit)) (w : dworld) :
    dtask * dworld :=
  match k with
  | O => (t, w)
  | Datatypes.S k =>
      match dt_prog t with
      | Ret _ => (t, w)
      | Do c kk =>
          let '(b, w') := perform h (dt_call t) w c in
          advance h k (mk_dtask (dt_call t) (kk b) (observe (dt_monitor t) _ c b)) w'
      end
  end.

Lemma advance_runs h k : ∀ t w n ts,
  rtc (step digits sha codec fs fr) (mk_dsystem w (<[n := t]> ts))
    (mk_dsystem (advance h k t w).2 (<[n := (advance h k t w).1]> ts)).
Proof.
  induction k as [|k IH]; intros [j p m] w n ts; [done|]. cbn [advance dt_prog dt_call dt_monitor].
  destruct p as [a|B c kk]; [done|]. pose proof (perform_answer h j w B c) as Ha.
  destruct (perform h j w c) as [b w'] eqn:Hp. simpl in Ha.
  eapply rtc_l; [|apply IH].
  rewrite <-(insert_insert_eq ts n (mk_dtask j (kk b) (observe m _ c b)) (mk_dtask j (Do c kk) m)).
  exact (step_command _ _ _ _ _ n (mk_dtask j (Do c kk) m) B c kk b w w' _ (lookup_insert_eq _ _ _) eq_refl Ha).
Qed.

(** The first call, run to its end. *)
Definition t1 : dtask := (advance true 20 (start digits sha codec fs fr i) w0).1.
Definition s1 : dsystem := mk_dsystem (advance true 20 (start digits sha codec fs fr i) w0).2 (<[0 := t1]> ∅).

Lemma s1_reachable : reachable digits sha codec fs fr s1.
Proof.
  exists 100%Z. eapply rtc_l; [by apply (step_start _ _ _ _ _ 0 i)|]. apply advance_runs.
Qed.

Lemma answers_are_genuine_witness :
  ∃ j, (j, true) ∈ dw_log (d_world s1) ∧ reserves digits sha j = Some (id, fp).
Proof.
  by apply (answers_are_genuine digits sha codec fs fr s1 0 t1 id fp true codec_ok s1_reachable).
Defined.

Lemma completed_operation_never_reruns_witness :
  dw_records (d_world s1) !! id =
    Some (mk_record fp (Completed (mk_response [Byte.x01; Byte.x00]) 100)).
Proof.
  apply (completed_operation_never_reruns digits sha codec fs fr s1 s1 id fp
           (mk_response [Byte.x01; Byte.x00]) 100 s1_reachable); [by vm_compute|done].
Defined.

(** A call that stops at its handler, and one that takes it over later. *)
Definition stuck := advance true 7 (start digits sha codec fs fr i) w0.
Definition later : dworld := mk_dworld (dw_records stuck.2) 200 (dw_log stuck.2).
Definition second := advance true 7 (start digits sha codec fs fr i) later.
Definition s2 : dsystem := mk_dsystem second.2 (<[1 := second.1]> (<[0 := stuck.1]> ∅)).

Lemma s2_reachable : reachable digits sha codec fs fr s2.
Proof.
  exists 100%Z. eapply rtc_l; [by apply (step_start _ _ _ _ _ 0 i)|].
  etrans; [apply (advance_runs true 7)|]. fold stuck.
  eapply rtc_l; [by apply (step_time _ _ _ _ _ stuck.2 _ 200)|]. fold later.
  eapply rtc_l; [by apply (step_start _ _ _ _ _ 1 i)|]. apply advance_runs.
Qed.

Lemma executions_overlap_only_after_expiry_witness : (130 ≤ 200 ∨ 230 ≤ 200)%Z.
Proof.
  apply (executions_overlap_only_after_expiry digits sha codec fs fr s2 0 1 stuck.1 second.1
    (mk_lease id (mk_owner "node-1") (mk_token 1) 130) (mk_lease id (mk_owner "node-1") (mk_token 2) 230)
    s2_reachable); [done|by vm_compute..].
Defined.

Lemma retry_is_answered_alike_witness :
  ∃ w, drive (E:=unit) true i pay w0 = (Ok true, w) ∧ drive (E:=unit) false i pay w = (Ok true, w).
Proof.
  destruct (retry_is_answered_alike digits sha codec fs fr i w0 id fp true
    (mk_response [Byte.x01; Byte.x00]) codec_ok i_admitted i_reserves eq_refl) as (w & H1 & _ & H2).
  - by intros ? [= <-].
  - by vm_compute.
  - exists w. split; [exact H1|]. apply (H2 i false w (evolves_refl w) i_admitted i_reserves).
Defined.

Lemma other_operation_is_answered_witness :
  ∃ w, drive (E:=unit) true i pay w0 = (Ok true, w) ∧
    ∀ h, drive (E:=unit) h (renamed i "cancel" None)
      (dispatch digits sha codec fs fr rt (mk_op "cancel" None true true) 1 (Some (VString "o-1")) ctx) w
      = (Ok true, w).
Proof.
  destruct (other_operation_is_answered digits sha codec fs fr i w0 id fp true
    (mk_response [Byte.x01; Byte.x00]) "cancel" None codec_ok i_admitted
    (conj (or_introl eq_refl) (proj2 i_admitted)) i_reserves eq_refl) as (w & H1 & H2).
  - by intros ? [= <-].
  - by vm_compute.
  - exists w. split; [exact H1|exact H2].
Defined.
End Example_pay.
