(* ===== verification/ClaimSet.v ===== *)
(** * Claims of a verified token

    The claim values and accessors of crates/domain, auth/claim_set.rs, and the
    boundary conversions and the default principal mapping of crates/security-jwt,
    principal_mapper.rs.

    A number of [serde_json] stands for its text, and its accessors and constructors
    are arguments.  An [f64] is a [spec_float] of the Standard Library, with the casts
    of the language.  A time is a number of nanoseconds; [dt_min] and [dt_max] are
    [chrono]'s [DateTime::MIN_UTC] and [MAX_UTC].  The entries of a nested
    [BTreeMap] are listed in key order. *)

From Stdlib Require Import Floats.SpecFloat.
From S2P Require Import Prelude Identity Fingerprint Security.

Set Warnings "-register-all".

(** ** Floats *)
Definition f64 : Type := spec_float.

(** [u as f64] rounds to the nearest. *)
Definition f64_of_u64 (u : Z) : f64 := binary_normalize 53 1024 u 0 false.

(** [f as i64] truncates, saturates, and sends NaN to zero. *)
Definition i64_min : Z := (- i64_max - 1)%Z.
Definition f64_as_i64 (f : f64) : Z :=
  match f with
  | S754_zero _ | S754_nan => 0
  | S754_infinity s => if s then i64_min else i64_max
  | S754_finite s m e =>
      let t := Z.shiftl (Z.pos m) e in
      Z.max i64_min (Z.min i64_max (if s then - t else t))
  end%Z.

(** ** Claim values *)
Inductive ClaimValue :=
| CString (s : string)
| CInteger (n : Z)
| CFloat (f : f64)
| CBool (b : bool)
| CArray (items : list ClaimValue)
| CMap (entries : list (string * ClaimValue))
| CNull.

Definition as_str (v : ClaimValue) : option string :=
  match v with CString s => Some s | _ => None end.

(** [ClaimSet { raw }] *)
Definition ClaimSet : Type := gmap string ClaimValue.

Definition get_str (key : string) (cs : ClaimSet) : option string := cs !! key ≫= as_str.

Definition get_array (key : string) (cs : ClaimSet) : option (list ClaimValue) :=
  match cs !! key with Some (CArray arr) => Some arr | _ => None end.

Definition get_nested_array (outer inner : string) (cs : ClaimSet) : option (list ClaimValue) :=
  match cs !! outer with
  | Some (CMap m) => match assoc inner m with Some (CArray arr) => Some arr | _ => None end
  | _ => None
  end.

Definition get_i64 (key : string) (cs : ClaimSet) : option Z :=
  match cs !! key with
  | Some (CInteger n) => Some n
  | Some (CFloat f) => Some (f64_as_i64 f)
  | _ => None
  end.

(** [a.or_else(|| b)] *)
Definition or_else {A} (a b : option A) : option A :=
  match a with Some x => Some x | None => b end.

(** [.iter().filter_map(ClaimValue::as_str)] *)
Definition strings_of (l : list ClaimValue) : list string := omap as_str l.

Definition claim_subject (cs : ClaimSet) : option string := get_str "sub" cs.
Definition claim_roles (cs : ClaimSet) : list string :=
  default [] (strings_of <$>
    or_else (or_else (get_array "roles" cs) (get_nested_array "realm_access" "roles" cs))
      (get_array "groups" cs)).
Definition claim_tenant (cs : ClaimSet) : option string :=
  or_else (or_else (get_str "tenant_id" cs) (get_str "tid" cs)) (get_str "tenant" cs).
Definition claim_scope (cs : ClaimSet) : option string :=
  or_else (get_str "scp" cs) (get_str "scope" cs).
Definition claim_organization (cs : ClaimSet) : option string :=
  or_else (get_str "organization" cs) (get_str "org_id" cs).
Definition claim_expiry (cs : ClaimSet) : option Z := get_i64 "exp" cs.
Definition claim_issuer (cs : ClaimSet) : option string := get_str "iss" cs.

(** ** Times *)
Definition nanos (secs : Z) : Z := (secs * 1000000000)%Z.

Section conversions.
Context (num_as_i64 num_as_u64 : string → option Z) (num_as_f64 : string → option f64).
Context (num_from_i64 : Z → string) (num_from_f64 : f64 → option string).
Context (dt_min dt_max : Z).

(** [DateTime::from_timestamp(secs, 0)] *)
Definition from_timestamp (secs : Z) : option Z :=
  if decide (dt_min ≤ nanos secs ≤ dt_max)%Z then Some (nanos secs) else None.

(** ** Boundary conversions *)
Definition key_le : relation (string * ClaimValue) := λ p q, String.le p.1 q.1.
#[local] Instance key_le_dec : RelDecision key_le := λ p q, _.

Fixpoint value_to_claim_value (v : Json) : ClaimValue :=
  match v with
  | Null => CNull
  | VBool b => CBool b
  | VNumber n =>
      match num_as_i64 n with
      | Some i => CInteger i
      | None =>
          match num_as_u64 n with
          | Some u => CFloat (f64_of_u64 u)
          | None => CFloat (default (S754_zero false) (num_as_f64 n))
          end
      end
  | VString s => CString s
  | VArray arr => CArray (map value_to_claim_value arr)
  | VObject m => CMap (merge_sort key_le (map (λ '(k, v), (k, value_to_claim_value v)) m))
  end.

Definition claims_map_to_claim_set (m : gmap string Json) : ClaimSet :=
  value_to_claim_value <$> m.

Fixpoint claim_value_to_json (v : ClaimValue) : Json :=
  match v with
  | CNull => Null
  | CBool b => VBool b
  | CInteger i => VNumber (num_from_i64 i)
  | CFloat f => match num_from_f64 f with Some n => VNumber n | None => Null end
  | CString s => VString s
  | CArray arr => VArray (map claim_value_to_json arr)
  | CMap m => VObject (map (λ '(k, v), (k, claim_value_to_json v)) m)
  end.

(** ** The default mapping *)
Definition PrincipalMapper : Type := ClaimSet → result AuthenticationError (Principal * Claims).

Definition STANDARD_JWT_CLAIM_KEYS : list string := ["exp"; "nbf"; "iat"; "jti"; "iss"; "aud"].

Definition build_standard_from_claim_set (cs : ClaimSet) : StandardClaims :=
  mk_standard (get_i64 "exp" cs ≫= from_timestamp) (get_i64 "nbf" cs ≫= from_timestamp)
    (get_i64 "iat" cs ≫= from_timestamp) (get_str "jti" cs) (get_str "iss" cs)
    (or_else (strings_of <$> get_array "aud" cs) ((λ s, [s]) <$> get_str "aud" cs)).

(** The claim the roles were read from. *)
Definition roles_source_key (cs : ClaimSet) : option string :=
  if decide (claim_roles cs = []) then None
  else if decide (is_Some (get_array "roles" cs)) then Some "roles"
  else if decide (is_Some (get_nested_array "realm_access" "roles" cs)) then Some "realm_access"
  else Some "groups".

(** The tenant and the claim it was read from. *)
Definition tenant_source (cs : ClaimSet) : option (string * string) :=
  match get_str "tenant_id" cs with
  | Some t => Some (t, "tenant_id")
  | None =>
      match get_str "tid" cs with
      | Some t => Some (t, "tid")
      | None => (λ t, (t, "tenant")) <$> get_str "tenant" cs
      end
  end.

Definition remove_opt {V} (k : option string) (m : gmap string V) : gmap string V :=
  match k with Some k => delete k m | None => m end.

(** The value found first is promoted under [key], and [alias] is dropped. *)
Definition promote (key alias : string) (v : option string) (m : gmap string Json) :
    gmap string Json :=
  match v with Some s => delete alias (<[key := VString s]> m) | None => m end.

Definition default_principal_map : PrincipalMapper := λ cs,
  sub ← match cs !! "sub" with
        | None => Err (MissingClaim "sub")
        | Some v => ok_or (InvalidToken "sub claim is not a string") (as_str v)
        end;
  subject ← map_err (λ _, InvalidToken "invalid subject id") (SubjectId_new sub);
  let p := foldl (λ p r, with_role r p) (Principal_new User subject) (claim_roles cs) in
  p ← match tenant_source cs with
      | None => Ok p
      | Some (t, _) =>
          tenant ← map_err (λ _, InvalidToken "invalid tenant claim") (id_new TenantTag t);
          Ok (with_tenant tenant p)
      end;
  let std := build_standard_from_claim_set cs in
  let custom := claim_value_to_json <$> cs in
  let custom := delete "sub" custom in
  let custom := remove_keys STANDARD_JWT_CLAIM_KEYS custom in
  let custom := remove_opt (roles_source_key cs) custom in
  let custom := remove_opt (snd <$> tenant_source cs) custom in
  let custom := promote "scope" "scp" (claim_scope cs) custom in
  let custom := promote "organization" "org_id" (claim_organization cs) custom in
  Ok (p, mk_claims std custom).

(** ** The conversions are inverse on integers *)

(** Every number of the document is an [i64]. *)
Fixpoint integral (v : Json) : bool :=
  match v with
  | VNumber n => bool_decide (is_Some (num_as_i64 n))
  | VArray items => forallb integral items
  | VObject entries => forallb (λ '(_, v), integral v) entries
  | _ => true
  end.

(** [Number::from(i)] is the number [i] was read from. *)
Definition integers_read_back : Prop := ∀ n i, num_as_i64 n = Some i → num_from_i64 i = n.

Lemma claims_survive_conversion (v : Json) :
  integers_read_back → integral v = true →
  same (λ n, n) v (claim_value_to_json (value_to_claim_value v)).
Proof.
  intros Hnum. induction v as [|b|n|s|items IH|entries IH] using Value_induction; simpl;
    try (intros _; by constructor).
  - intros [i Hi]%bool_decide_eq_true. rewrite Hi. simpl. constructor. by rewrite (Hnum n i).
  - intros Hall. constructor. rewrite map_map.
    rewrite forallb_forall in Hall. rewrite Forall_forall in IH. apply Forall2_fmap_r, Forall_Forall2_diag.
    apply Forall_forall. intros x Hx. apply IH; [done|]. by apply Hall, list_elem_of_In.
  - intros Hall. rewrite forallb_forall in Hall. rewrite Forall_forall in IH.
    set (f := λ '(k, v), (k, value_to_claim_value v)).
    set (g := λ '(k, v), (k, claim_value_to_json v)).
    apply (same_object _ entries entries (map g (map f entries))); [done| |].
    + rewrite map_map. apply Forall2_fmap_r, Forall_Forall2_diag, Forall_forall.
      intros [k x] Hx. split; [done|]. apply (IH (k, x) Hx), (Hall (k, x)). by apply list_elem_of_In.
    + apply Permutation_map. by rewrite merge_sort_Permutation.
Qed.

(** ** What the mapping keeps *)
Definition consumed (cs : ClaimSet) : list string :=
  ["sub"] ++ STANDARD_JWT_CLAIM_KEYS ++ option_list (roles_source_key cs) ++
  option_list (snd <$> tenant_source cs) ++
  (if decide (is_Some (claim_scope cs)) then ["scp"] else []) ++
  (if decide (is_Some (claim_organization cs)) then ["org_id"] else []).

(** The custom claim [key] of the context. *)
Definition kept (cs : ClaimSet) (key : string) : option Json :=
  if decide (key = "scope" ∧ is_Some (claim_scope cs)) then VString <$> claim_scope cs
  else if decide (key = "organization" ∧ is_Some (claim_organization cs))
       then VString <$> claim_organization cs
  else if decide (key ∈ consumed cs) then None
  else claim_value_to_json <$> cs !! key.

Lemma lookup_remove_opt {V} (o : option string) (m : gmap string V) k :
  remove_opt o m !! k = if decide (k ∈ option_list o) then None else m !! k.
Proof.
  destruct o as [k'|]; cbn [remove_opt option_list]; [rewrite lookup_delete|];
    repeat case_decide; set_solver.
Qed.

Lemma lookup_promote key alias v m k :
  key ≠ alias →
  promote key alias v m !! k =
    if decide (k = key ∧ is_Some v) then VString <$> v
    else if decide (k ∈ (if decide (is_Some v) then [alias] else [])) then None else m !! k.
Proof.
  intros Hne. destruct v as [s|]; cbn [promote].
  - rewrite lookup_delete, lookup_insert. repeat case_decide; naive_solver set_solver.
  - repeat case_decide; naive_solver set_solver.
Qed.

Lemma tenant_source_claim cs : fst <$> tenant_source cs = claim_tenant cs.
Proof.
  unfold tenant_source, claim_tenant.
  destruct (get_str "tenant_id" cs), (get_str "tid" cs), (get_str "tenant" cs); done.
Qed.

Lemma roles_fold rs p :
  let p' := foldl (λ p r, with_role r p) p rs in
  roles p' = list_to_set rs ∪ roles p ∧ subject_id p' = subject_id p ∧
  principal_kind p' = principal_kind p ∧ principal_tenant p' = principal_tenant p ∧
  attributes p' = attributes p.
Proof.
  revert p. induction rs as [|r rs IH]; intros p; simpl; [by split_and!; [set_solver|..]|].
  destruct (IH (with_role r p)) as (Hr & -> & -> & -> & ->). simpl in *. split_and!; [|done..].
  rewrite Hr. set_solver.
Qed.

Lemma custom_claims_kept cs k :
  promote "organization" "org_id" (claim_organization cs)
    (promote "scope" "scp" (claim_scope cs)
      (remove_opt (snd <$> tenant_source cs)
        (remove_opt (roles_source_key cs)
          (remove_keys STANDARD_JWT_CLAIM_KEYS (delete "sub" (claim_value_to_json <$> cs)))))) !! k =
  kept cs k.
Proof.
  rewrite !lookup_promote, !lookup_remove_opt, lookup_remove_keys, lookup_delete, lookup_fmap
    by done.
  unfold kept, consumed.
  generalize (roles_source_key cs), (snd <$> tenant_source cs); intros o1 o2.
  generalize (claim_scope cs), (claim_organization cs); intros s g.
  destruct (decide (k = "scope" ∧ is_Some s)) as [[-> Hs]|Hs].
  { rewrite !decide_False by (repeat case_decide; set_solver). done. }
  destruct (decide (k = "organization" ∧ is_Some g)) as [Hg|Hg]; [done|].
  repeat case_decide; try done; exfalso; set_solver.
Qed.

(** The mapping in terms of the accessors. *)
Lemma default_mapping_computed (cs : ClaimSet) :
  match default_principal_map cs with
  | Ok (p, c) =>
      ∃ s, get_str "sub" cs = Some s ∧ is_blank s = false ∧
        (∀ t, claim_tenant cs = Some t → is_blank t = false) ∧
        p = mk_principal User (mk_subject s) (mk_id <$> claim_tenant cs)
              (list_to_set (claim_roles cs)) ∅ ∧
        standard c = build_standard_from_claim_set cs ∧ ∀ k, custom c !! k = kept cs k
  | Err e =>
      (e = MissingClaim "sub" ∧ cs !! "sub" = None) ∨
      (e = InvalidToken "sub claim is not a string" ∧
       ∃ v, cs !! "sub" = Some v ∧ as_str v = None) ∨
      (e = InvalidToken "invalid subject id" ∧
       ∃ s, get_str "sub" cs = Some s ∧ is_blank s = true) ∨
      (e = InvalidToken "invalid tenant claim" ∧
       ∃ t, claim_tenant cs = Some t ∧ is_blank t = true)
  end.
Proof.
  unfold default_principal_map, get_str.
  destruct (cs !! "sub") as [v|] eqn:Hsub; cbn [mbind result_bind]; [|by left].
  destruct (as_str v) as [s|] eqn:Hv; cbn [ok_or mbind option_bind result_bind];
    [|by right; left; eauto].
  unfold SubjectId_new. destruct (is_blank s) eqn:Hs; cbn [map_err mbind result_bind].
  { right; right; left. eauto. }
  rewrite <-tenant_source_claim. destruct (roles_fold (claim_roles cs) (Principal_new User (mk_subject s)))
    as (Hr & Hsu & Hk & Ht & Ha).
  revert Hr Hsu Hk Ht Ha.
  generalize (foldl (λ p r, with_role r p) (Principal_new User (mk_subject s)) (claim_roles cs)).
  intros p Hr Hsu Hk Ht Ha.
  assert (p = mk_principal User (mk_subject s) None (list_to_set (claim_roles cs)) ∅) as ->.
  { destruct p; simpl in *. subst. by rewrite union_empty_r_L. }
  pose proof (custom_claims_kept cs) as Hkept.
  destruct (tenant_source cs) as [[t key]|] eqn:Hts; cbn [mbind result_bind id_new].
  - unfold id_new. destruct (is_blank t) eqn:Hb; cbn [map_err mbind result_bind].
    { right; right; right. eauto. }
    exists s. split_and!; [done..| |done|done|exact Hkept]. by intros ? [= <-].
  - exists s. split_and!; [done..| |done|done|exact Hkept]. by intros ? [=].
Qed.

(** ** The mapping, claim by claim

    What the documentation of the mapper says of the claims themselves, without its
    accessors: which claim a field comes from, and which claims are left over. *)

(** The first of [keys] that is a string claim, with its text. *)
Inductive first_text (cs : ClaimSet) : list string → option (string * string) → Prop :=
| FtNone : first_text cs [] None
| FtHere k keys s : cs !! k = Some (CString s) → first_text cs (k :: keys) (Some (k, s))
| FtLater k keys r :
    (∀ s, cs !! k ≠ Some (CString s)) → first_text cs keys r → first_text cs (k :: keys) r.

(** The array [realm_access.roles]. *)
Definition realm_roles (cs : ClaimSet) (arr : list ClaimValue) : Prop :=
  ∃ m, cs !! "realm_access" = Some (CMap m) ∧ assoc "roles" m = Some (CArray arr).

(** The first array among [roles], [realm_access.roles] and [groups], with the claim it is
    in; an empty array counts. *)
Inductive first_array (cs : ClaimSet) : option (string * list ClaimValue) → Prop :=
| FaRoles arr : cs !! "roles" = Some (CArray arr) → first_array cs (Some ("roles", arr))
| FaRealm arr :
    (∀ a, cs !! "roles" ≠ Some (CArray a)) → realm_roles cs arr →
    first_array cs (Some ("realm_access", arr))
| FaGroups arr :
    (∀ a, cs !! "roles" ≠ Some (CArray a)) → (∀ a, ¬ realm_roles cs a) →
    cs !! "groups" = Some (CArray arr) → first_array cs (Some ("groups", arr))
| FaNone :
    (∀ a, cs !! "roles" ≠ Some (CArray a)) → (∀ a, ¬ realm_roles cs a) →
    (∀ a, cs !! "groups" ≠ Some (CArray a)) → first_array cs None.

(** The texts of an array, in order; what is not a text is skipped. *)
Inductive texts : list ClaimValue → list string → Prop :=
| TextsNil : texts [] []
| TextsText s arr l : texts arr l → texts (CString s :: arr) (s :: l)
| TextsOther v arr l : (∀ s, v ≠ CString s) → texts arr l → texts (v :: arr) l.

(** The claim [key] is the number [n], a fraction truncated. *)
Definition number_claim (cs : ClaimSet) (key : string) (n : Z) : Prop :=
  cs !! key = Some (CInteger n) ∨ ∃ f, cs !! key = Some (CFloat f) ∧ n = f64_as_i64 f.

(** A time in seconds, if it is one [chrono] can hold. *)
Definition time_claim (cs : ClaimSet) (key : string) (t : option Z) : Prop :=
  match t with
  | Some t => ∃ n, number_claim cs key n ∧ t = (n * 10 ^ 9)%Z ∧ (dt_min ≤ t ≤ dt_max)%Z
  | None => ∀ n, number_claim cs key n → ¬ (dt_min ≤ n * 10 ^ 9 ≤ dt_max)%Z
  end.

Definition text_claim (cs : ClaimSet) (key : string) (s : option string) : Prop :=
  match s with
  | Some s => cs !! key = Some (CString s)
  | None => ∀ s, cs !! key ≠ Some (CString s)
  end.

(** One audience or several. *)
Definition audience_claim (cs : ClaimSet) (a : option (list string)) : Prop :=
  match a with
  | Some l => (∃ arr, cs !! "aud" = Some (CArray arr) ∧ texts arr l) ∨
              (∃ s, cs !! "aud" = Some (CString s) ∧ l = [s])
  | None => ∀ v, cs !! "aud" = Some v → (∀ arr, v ≠ CArray arr) ∧ ∀ s, v ≠ CString s
  end.

Definition standard_claims (cs : ClaimSet) (std : StandardClaims) : Prop :=
  time_claim cs "exp" (exp std) ∧ time_claim cs "nbf" (nbf std) ∧ time_claim cs "iat" (iat std) ∧
  text_claim cs "jti" (jti std) ∧ text_claim cs "iss" (iss std) ∧ audience_claim cs (aud std).

(** The JSON of a claim. *)
Inductive json_of : ClaimValue → Json → Prop :=
| JsonNull : json_of CNull Null
| JsonBool b : json_of (CBool b) (VBool b)
| JsonInteger i : json_of (CInteger i) (VNumber (num_from_i64 i))
| JsonFloat f n : num_from_f64 f = Some n → json_of (CFloat f) (VNumber n)
| JsonNotFinite f : num_from_f64 f = None → json_of (CFloat f) Null
| JsonString s : json_of (CString s) (VString s)
| JsonArray arr js : Forall2 json_of arr js → json_of (CArray arr) (VArray js)
| JsonMap m js :
    Forall2 (λ p q, p.1 = q.1 ∧ json_of p.2 q.2) m js → json_of (CMap m) (VObject js).

(** The custom claim [key], when the roles came from [A], the tenant from [T], the scope
    from [S] and the organization from [O]. *)
Definition custom_claim (cs : ClaimSet) (A : option (string * list ClaimValue))
    (T S O : option (string * string)) (key : string) (v : option Json) : Prop :=
  let used :=
    key ∈ ["sub"; "exp"; "nbf"; "iat"; "jti"; "iss"; "aud"] ∨
    (∃ arr s, A = Some (key, arr) ∧ CString s ∈ arr) ∨ (∃ t, T = Some (key, t)) ∨
    (key = "scp" ∧ S ≠ None) ∨ (key = "org_id" ∧ O ≠ None) in
  if decide (key = "scope" ∧ S ≠ None) then v = (λ x, VString x.2) <$> S
  else if decide (key = "organization" ∧ O ≠ None) then v = (λ x, VString x.2) <$> O
  else (used ∧ v = None) ∨ (¬ used ∧ option_Forall2 json_of (cs !! key) v).

Lemma get_str_text cs key s : get_str key cs = Some s ↔ cs !! key = Some (CString s).
Proof. unfold get_str, as_str. destruct (cs !! key) as [[]|]; naive_solver. Qed.

Lemma get_str_no_text cs key : get_str key cs = None ↔ ∀ s, cs !! key ≠ Some (CString s).
Proof. unfold get_str, as_str. destruct (cs !! key) as [[]|]; naive_solver. Qed.

Lemma get_array_Some cs key arr : get_array key cs = Some arr ↔ cs !! key = Some (CArray arr).
Proof. unfold get_array. destruct (cs !! key) as [[]|]; naive_solver. Qed.

Lemma get_array_None cs key : get_array key cs = None ↔ ∀ arr, cs !! key ≠ Some (CArray arr).
Proof. unfold get_array. destruct (cs !! key) as [[]|]; naive_solver. Qed.

Lemma get_realm_Some cs arr :
  get_nested_array "realm_access" "roles" cs = Some arr ↔ realm_roles cs arr.
Proof.
  unfold get_nested_array, realm_roles.
  destruct (cs !! "realm_access") as [[| | | | |m|]|]; try naive_solver.
  destruct (assoc "roles" m) as [[]|] eqn:Hm; naive_solver.
Qed.

Lemma get_realm_None cs :
  get_nested_array "realm_access" "roles" cs = None ↔ ∀ arr, ¬ realm_roles cs arr.
Proof.
  split.
  - intros Hn arr Hr%get_realm_Some. congruence.
  - intros Hn. destruct (get_nested_array _ _ cs) as [arr|] eqn:Ha; [|done].
    apply get_realm_Some in Ha. by apply Hn in Ha.
Qed.

(** The array the roles come from. *)
Definition roles_array (cs : ClaimSet) : option (string * list ClaimValue) :=
  or_else (or_else ((λ a, ("roles", a)) <$> get_array "roles" cs)
             ((λ a, ("realm_access", a)) <$> get_nested_array "realm_access" "roles" cs))
    ((λ a, ("groups", a)) <$> get_array "groups" cs).

Lemma roles_array_first cs : first_array cs (roles_array cs).
Proof.
  unfold roles_array.
  destruct (get_array "roles" cs) as [a|] eqn:H1; cbn; [by apply FaRoles, get_array_Some|].
  pose proof (proj1 (get_array_None _ _) H1) as H1'.
  destruct (get_nested_array _ _ cs) as [a|] eqn:H2; cbn; [by apply FaRealm; [|apply get_realm_Some]|].
  pose proof (proj1 (get_realm_None _) H2) as H2'.
  destruct (get_array "groups" cs) as [a|] eqn:H3; cbn; [by apply FaGroups, get_array_Some|].
  apply FaNone; [done..|by apply get_array_None].
Qed.

Lemma claim_roles_array cs : claim_roles cs = default [] (strings_of ∘ snd <$> roles_array cs).
Proof.
  unfold claim_roles, roles_array.
  by destruct (get_array "roles" cs), (get_nested_array _ _ cs), (get_array "groups" cs).
Qed.

Lemma roles_source_array cs :
  roles_source_key cs
  = '(k, arr) ← roles_array cs; if decide (strings_of arr = []) then None else Some k.
Proof.
  unfold roles_source_key. rewrite claim_roles_array. unfold roles_array.
  destruct (get_array "roles" cs) as [a|] eqn:H1; cbn -[strings_of].
  { case_decide; [done|]. by rewrite decide_True by eauto. }
  rewrite (decide_False (P := is_Some None)) by by intros [].
  destruct (get_nested_array _ _ cs) as [b|] eqn:H2; cbn -[strings_of].
  { case_decide; [done|]. by rewrite decide_True by eauto. }
  rewrite (decide_False (P := is_Some None)) by by intros [].
  by destruct (get_array "groups" cs) as [c|] eqn:H3; cbn -[strings_of].
Qed.

Lemma elem_of_strings_of s arr : s ∈ strings_of arr ↔ CString s ∈ arr.
Proof.
  unfold strings_of. rewrite list_elem_of_omap. split.
  - intros (v & Hin & Hv). destruct v; try done. by injection Hv as ->.
  - intros Hin. by exists (CString s).
Qed.

Lemma texts_strings_of arr : texts arr (strings_of arr).
Proof.
  induction arr as [|v arr IH]; [constructor|].
  destruct v; cbn; try (by apply TextsOther); by apply TextsText.
Qed.

Lemma tenant_source_first cs :
  first_text cs ["tenant_id"; "tid"; "tenant"] ((λ '(t, k), (k, t)) <$> tenant_source cs).
Proof.
  unfold tenant_source.
  destruct (get_str "tenant_id" cs) as [t|] eqn:H1; cbn; [by apply FtHere, get_str_text|].
  apply FtLater; [by apply get_str_no_text|].
  destruct (get_str "tid" cs) as [t|] eqn:H2; cbn; [by apply FtHere, get_str_text|].
  apply FtLater; [by apply get_str_no_text|].
  destruct (get_str "tenant" cs) as [t|] eqn:H3; cbn; [by apply FtHere, get_str_text|].
  apply FtLater; [by apply get_str_no_text|constructor].
Qed.

(** The first of two text claims. *)
Definition two_texts (a b : string) (cs : ClaimSet) : option (string * string) :=
  or_else (pair a <$> get_str a cs) (pair b <$> get_str b cs).

Lemma two_texts_first a b cs : first_text cs [a; b] (two_texts a b cs).
Proof.
  unfold two_texts.
  destruct (get_str a cs) as [t|] eqn:H1; cbn; [by apply FtHere, get_str_text|].
  apply FtLater; [by apply get_str_no_text|].
  destruct (get_str b cs) as [t|] eqn:H2; cbn; [by apply FtHere, get_str_text|].
  apply FtLater; [by apply get_str_no_text|constructor].
Qed.

Lemma get_i64_number cs key n : get_i64 key cs = Some n ↔ number_claim cs key n.
Proof. unfold get_i64, number_claim. destruct (cs !! key) as [[]|]; naive_solver. Qed.

Lemma time_claim_read cs key : time_claim cs key (get_i64 key cs ≫= from_timestamp).
Proof.
  unfold time_claim. change (10 ^ 9)%Z with 1000000000%Z.
  destruct (get_i64 key cs) as [n|] eqn:Hn; cbn [mbind option_bind].
  - unfold from_timestamp, nanos. case_decide as Ht.
    + exists n. by apply get_i64_number in Hn.
    + intros n' Hn'%get_i64_number. by simplify_eq.
  - intros n Hn'%get_i64_number. congruence.
Qed.

Lemma text_claim_read cs key : text_claim cs key (get_str key cs).
Proof.
  unfold text_claim. destruct (get_str key cs) eqn:Hs; [by apply get_str_text|].
  by apply get_str_no_text.
Qed.

Lemma audience_claim_read cs :
  audience_claim cs (or_else (strings_of <$> get_array "aud" cs) ((λ s, [s]) <$> get_str "aud" cs)).
Proof.
  unfold audience_claim. destruct (get_array "aud" cs) as [arr|] eqn:Ha; cbn.
  - left. exists arr. split; [by apply get_array_Some|apply texts_strings_of].
  - pose proof (proj1 (get_array_None _ _) Ha) as Ha'.
    destruct (get_str "aud" cs) as [s|] eqn:Hs; cbn.
    + right. exists s. by rewrite <-get_str_text.
    + pose proof (proj1 (get_str_no_text _ _) Hs) as Hs'. intros v Hv. naive_solver.
Qed.

Lemma json_of_computed v : json_of v (claim_value_to_json v).
Proof.
  revert v. fix IH 1. intros [s|n|f|b|arr|m|]; simpl; try constructor.
  - destruct (num_from_f64 f) eqn:Hf; by constructor.
  - induction arr as [|x arr IHarr]; simpl; constructor; [apply IH|apply IHarr].
  - induction m as [|[k x] m IHm]; simpl; constructor; [split; [done|apply IH]|apply IHm].
Qed.

Lemma kept_custom cs k :
  custom_claim cs (roles_array cs) ((λ '(t, k), (k, t)) <$> tenant_source cs)
    (two_texts "scp" "scope" cs) (two_texts "organization" "org_id" cs) k (kept cs k).
Proof.
  assert (∀ a b, or_else (get_str a cs) (get_str b cs) = snd <$> two_texts a b cs) as Htwo.
  { intros a b. unfold two_texts. by destruct (get_str a cs), (get_str b cs). }
  unfold custom_claim, kept, consumed, claim_scope, claim_organization. rewrite !Htwo.
  assert (∀ k, k ∈ option_list (roles_source_key cs) ↔
    ∃ arr s, roles_array cs = Some (k, arr) ∧ CString s ∈ arr) as Hroles.
  { intros k'. rewrite roles_source_array. destruct (roles_array cs) as [[k0 arr]|]; cbn; [|set_solver].
    case_decide as Hs.
    - split; [set_solver|]. intros (arr' & s & [= <- <-] & Hin%elem_of_strings_of).
      rewrite Hs in Hin. set_solver.
    - cbn. rewrite list_elem_of_singleton. split; [intros ->|naive_solver].
      destruct (strings_of arr) as [|s l] eqn:Hl; [done|]. exists arr, s. split; [done|].
      apply elem_of_strings_of. rewrite Hl. by left. }
  assert (∀ k, k ∈ option_list (snd <$> tenant_source cs) ↔
    ∃ t, (λ '(t, k), (k, t)) <$> tenant_source cs = Some (k, t)) as Htenant.
  { intros k'. destruct (tenant_source cs) as [[t k0]|]; cbn; [|set_solver].
    rewrite list_elem_of_singleton. naive_solver. }
  generalize (two_texts "scp" "scope" cs), (two_texts "organization" "org_id" cs). intros S O.
  assert (∀ X : option (string * string), is_Some (snd <$> X) ↔ X ≠ None) as Hsome.
  { intros [x|]; cbn; split; [done|by eexists|by intros [? ?]|done]. }
  assert (∀ X : option (string * string),
    (VString <$> (snd <$> X) : option Json) = (λ x, VString x.2) <$> X) as Hv by by intros [x|].
  rewrite !Hv.
  destruct (decide (k = "scope" ∧ S ≠ None)) as [H1|H1].
  { by rewrite decide_True by by rewrite Hsome. }
  rewrite (decide_False (P := k = "scope" ∧ is_Some (snd <$> S))) by by rewrite Hsome.
  destruct (decide (k = "organization" ∧ O ≠ None)) as [H2|H2].
  { by rewrite decide_True by by rewrite Hsome. }
  rewrite (decide_False (P := k = "organization" ∧ is_Some (snd <$> O))) by by rewrite Hsome.
  assert (∀ (X : option (string * string)) (key : string),
    k ∈ (if decide (is_Some (snd <$> X)) then [key] else []) ↔
    k = key ∧ X ≠ None) as Hpromoted.
  { intros X key. rewrite <-Hsome. case_decide; [rewrite list_elem_of_singleton|]; set_solver. }
  case_decide as H3; rewrite !elem_of_app, Hroles, Htenant, !Hpromoted in H3.
  - left. split; [|done]. set_solver.
  - right. split; [set_solver|]. destruct (cs !! k); constructor. apply json_of_computed.
Qed.

End conversions.
