(* ===== verification/Jwt.v ===== *)
(** * JSON web token providers

    Configuration, key resolution, the validation engine and the three
    single-algorithm providers of crates/security-jwt (config.rs, key_resolver.rs,
    validation.rs, authenticator.rs).

    [jsonwebtoken] is third-party code: [Lib] holds the functions the providers call.
    A key resolver answers [None] when its task did not complete.  A call that panics
    ([chrono]'s arithmetic panics out of range) ends in [Panicked], every other
    failure in [Returned].  Times are nanoseconds, between [dt_min] and [dt_max]. *)

From S2P Require Import Prelude Identity Fingerprint Security ClaimSet.

(** ** Configuration *)
Inductive JwtAlgorithm := Hs256 | Rs256 | Es256.
#[export] Instance JwtAlgorithm_eq_dec : EqDecision JwtAlgorithm.
Proof. solve_decision. Defined.

Definition JwtAlgorithm_debug (a : JwtAlgorithm) : string :=
  match a with Hs256 => "Hs256" | Rs256 => "Rs256" | Es256 => "Es256" end.

Record JwtProviderConfig := mk_jwt_config {
  expected_iss : option string;
  expected_aud : option (list string);
  leeway_seconds : option N;
}.

(** [ConfigError::Invalid { field, reason }] *)
Inductive ConfigError := ConfigInvalid (field reason : string).
Definition not_empty (field : string) : ConfigError := ConfigInvalid field "must not be empty".

Definition MAX_LEEWAY_SECONDS : N := 300.

Definition jwt_config_validate (c : JwtProviderConfig) : result ConfigError () :=
  _ ← match leeway_seconds c with
      | Some leeway =>
          if decide (MAX_LEEWAY_SECONDS < leeway)%N
          then Err (ConfigInvalid "leeway_seconds" "must not exceed 300 seconds") else Ok ()
      | None => Ok ()
      end;
  _ ← match expected_iss c with
      | Some iss => if decide (iss = "") then Err (not_empty "expected_iss") else Ok ()
      | None => Ok ()
      end;
  match expected_aud c with
  | None =>
      Err (ConfigInvalid "expected_aud" "is required — without it, a signature-valid token for any audience is accepted (audience-confusion / token-reuse risk)")
  | Some aud =>
      if decide (aud = []) then Err (ConfigInvalid "expected_aud" "must not be empty when set")
      else if decide ("" ∈ aud)
           then Err (ConfigInvalid "expected_aud" "must not contain empty string entries")
      else Ok ()
  end.

(** ** Key resolution *)
Inductive KeyResolverError :=
| KeyNotFound (kid : option string)
| AlgorithmMismatch (expected requested : JwtAlgorithm)
| InvalidKeyMaterial (msg : string).

Inductive VerificationKey :=
| Hmac (secret : list Byte.byte)
| RsaPem (pem : string)
| EcPem (pem : string).

Definition KeyResolver : Type :=
  option string → JwtAlgorithm → option (result KeyResolverError VerificationKey).

Definition local_resolve (algorithm : JwtAlgorithm) (key : VerificationKey) : KeyResolver :=
  λ _ requested,
  if decide (requested = algorithm) then Some (Ok key)
  else Some (Err (AlgorithmMismatch algorithm requested)).

Definition map_resolver_error (e : KeyResolverError) : AuthenticationError :=
  match e with
  | KeyNotFound _ => InvalidSignature
  | AlgorithmMismatch ex rq =>
      AlgorithmNotSupported ("algorithm mismatch: expected " +:+ JwtAlgorithm_debug ex +:+
                             ", requested " +:+ JwtAlgorithm_debug rq)
  | InvalidKeyMaterial msg => InvalidToken ("key material: " +:+ msg)
  end.

(** ** The token library *)
Inductive Algorithm :=
| HS256 | HS384 | HS512 | ES256 | ES384 | RS256 | RS384 | RS512 | PS256 | PS384 | PS512 | EdDSA.
#[export] Instance Algorithm_eq_dec : EqDecision Algorithm.
Proof. solve_decision. Defined.

Definition Algorithm_debug (a : Algorithm) : string :=
  match a with
  | HS256 => "HS256" | HS384 => "HS384" | HS512 => "HS512" | ES256 => "ES256" | ES384 => "ES384"
  | RS256 => "RS256" | RS384 => "RS384" | RS512 => "RS512" | PS256 => "PS256"
  | PS384 => "PS384" | PS512 => "PS512" | EdDSA => "EdDSA"
  end.

Record Header := mk_header { alg : Algorithm; kid : option string }.

Inductive ErrorKind :=
| KindInvalidSignature | KindInvalidAlgorithm | KindInvalidAlgorithmName | KindOther.
Record JwtError := mk_jwt_error { error_kind : ErrorKind; error_text : string }.

(** [decode] checks the signature under the key and the algorithm, and nothing else:
    the engine disables the library's own claim checks. *)
Record Lib := mk_lib {
  DecodingKey : Type;
  decode_header : string → result JwtError Header;
  decode : string → DecodingKey → Algorithm → result JwtError (gmap string Json);
  from_secret : list Byte.byte → DecodingKey;
  from_rsa_pem : string → result string DecodingKey;
  from_ec_pem : string → result string DecodingKey;
}.

(** ** Outcomes *)
Inductive fault := Returned (e : AuthenticationError) | Panicked.
Abbreviation outcome := (result fault).
Definition returned {A} (r : result AuthenticationError A) : outcome A := map_err Returned r.

(** A value of [None] stands for a panic. *)
Definition or_panic {A} (o : option A) : outcome A := ok_or Panicked o.

Definition reject {A} (e : AuthenticationError) : outcome A := Err (Returned e).

Section engine.
Context (num_as_i64 num_as_u64 : string → option Z) (num_as_f64 : string → option f64).
Context (dt_min dt_max : Z) (L : Lib).

(** ** Times *)
Definition dt_add (t d : Z) : option Z :=
  if decide (dt_min ≤ t + d ≤ dt_max)%Z then Some (t + d)%Z else None.

(** [chrono::Duration::seconds] *)
Definition duration_seconds (n : Z) : option Z :=
  if decide (Z.abs n ≤ i64_max / 1000)%Z then Some (nanos n) else None.

Definition parse_timestamp (v : Json) : option Z :=
  match v with
  | VNumber n =>
      or_else (num_as_i64 n)
        (num_as_u64 n ≫= λ u, if decide (u ≤ i64_max)%Z then Some u else None)
        ≫= from_timestamp dt_min dt_max
  | _ => None
  end.

(** [i64::try_from(leeway.unwrap_or(0)).unwrap_or(0)] *)
Definition leeway_of (c : JwtProviderConfig) : Z :=
  let n := Z.of_N (default 0%N (leeway_seconds c)) in
  if decide (n ≤ i64_max)%Z then n else 0.

(** ** The engine *)
Definition decode_error (e : JwtError) : AuthenticationError :=
  match error_kind e with
  | KindInvalidSignature => InvalidSignature
  | KindInvalidAlgorithm | KindInvalidAlgorithmName => AlgorithmNotSupported (error_text e)
  | KindOther => InvalidToken (error_text e)
  end.

Definition check_exp (now leeway : Z) (v : Json) : outcome () :=
  match parse_timestamp v with
  | Some exp_dt =>
      limit ← or_panic (dt_add exp_dt leeway);
      if decide (limit ≤ now)%Z then reject ExpiredToken else Ok ()
  | None => reject (InvalidToken "exp claim is not a valid integer")
  end.

Definition check_nbf (now leeway : Z) (all_claims : gmap string Json) : outcome () :=
  match all_claims !! "nbf" with
  | Some v =>
      match parse_timestamp v with
      | Some nbf_dt =>
          late ← or_panic (dt_add now leeway);
          if decide (late < nbf_dt)%Z then reject (InvalidToken "token not yet valid") else Ok ()
      | None => reject (InvalidToken "nbf claim is not a valid integer")
      end
  | None => Ok ()
  end.

Definition check_iss (expected : option string) (all_claims : gmap string Json) : outcome () :=
  match expected with
  | Some i =>
      match all_claims !! "iss" with
      | Some (VString s) =>
          if decide (s = i) then Ok () else reject (InvalidToken "issuer mismatch")
      | _ => reject (InvalidToken "issuer mismatch")
      end
  | None => Ok ()
  end.

Definition json_str (v : Json) : option string := match v with VString s => Some s | _ => None end.

Definition token_auds (v : option Json) : outcome (list string) :=
  match v with
  | Some (VString s) => Ok [s]
  | Some (VArray arr) => Ok (omap json_str arr)
  | None => Ok []
  | Some _ => reject (InvalidToken "aud claim is not a string or array")
  end.

Definition check_aud (expected : option (list string)) (all_claims : gmap string Json) :
    outcome () :=
  match expected with
  | Some expected_auds =>
      auds ← token_auds (all_claims !! "aud");
      if existsb (λ ea, bool_decide (ea ∈ auds)) expected_auds then Ok ()
      else reject (InvalidToken "aud mismatch")
  | None => Ok ()
  end.

Definition validate_with_mapper (token : string) (key : DecodingKey L) (a : Algorithm)
    (params : JwtProviderConfig) (now : Z) (mapper : PrincipalMapper) : outcome SecurityContext :=
  all_claims ← returned (map_err decode_error (decode L token key a));
  exp_val ← returned (ok_or (InvalidToken "missing required claim: exp") (all_claims !! "exp"));
  leeway ← or_panic (duration_seconds (leeway_of params));
  _ ← check_exp now leeway exp_val;
  _ ← check_nbf now leeway all_claims;
  _ ← check_iss (expected_iss params) all_claims;
  _ ← check_aud (expected_aud params) all_claims;
  '(p, c) ← returned (mapper (claims_map_to_claim_set num_as_i64 num_as_u64 num_as_f64 all_claims));
  Ok (mk_security p c).

(** ** The providers *)
Definition MAX_TOKEN_BYTES : Z := 8192.

Definition resolve_key_sync (resolver : KeyResolver) (kid : option string) (a : JwtAlgorithm) :
    result AuthenticationError VerificationKey :=
  match resolver kid a with
  | None =>
      Err (ProviderUnavailable "key resolver did not complete (pool exhausted or task dropped)")
  | Some r => map_err map_resolver_error r
  end.

Definition bearer_token (credential : Credential) : result AuthenticationError string :=
  match credential with
  | Bearer t =>
      if decide (MAX_TOKEN_BYTES < str_len t)%Z
      then Err (InvalidToken "token exceeds maximum allowed size") else Ok t
  | _ => Err (InvalidToken "expected Bearer credential")
  end.

Definition rsa_decoding_key (pem : string) : result AuthenticationError (DecodingKey L) :=
  map_err (λ e, InvalidToken ("bad RSA public key: " +:+ e)) (from_rsa_pem L pem).
Definition ec_decoding_key (pem : string) : result AuthenticationError (DecodingKey L) :=
  map_err (λ e, InvalidToken ("bad EC public key: " +:+ e)) (from_ec_pem L pem).

Definition authenticate_inner (token : string) (config : JwtProviderConfig)
    (resolver : KeyResolver) (now : Z) (expected_alg : Algorithm) (jwt_alg : JwtAlgorithm)
    (mapper : PrincipalMapper)
    (build_decoding_key : VerificationKey → result AuthenticationError (DecodingKey L)) :
    outcome SecurityContext :=
  header ← returned (map_err (λ e, InvalidToken (error_text e)) (decode_header L token));
  if decide (alg header ≠ expected_alg) then
    reject (AlgorithmNotSupported ("expected " +:+ Algorithm_debug expected_alg +:+
                                   " but token uses " +:+ Algorithm_debug (alg header)))
  else
    verification_key ← returned (resolve_key_sync resolver (kid header) jwt_alg);
    decoding_key ← returned (build_decoding_key verification_key);
    validate_with_mapper token decoding_key expected_alg config now mapper.

(** The structure [define_provider!] generates. *)
Record JwtProvider := mk_jwt_provider {
  jwt_config : JwtProviderConfig;
  jwt_resolver : KeyResolver;
  jwt_mapper : PrincipalMapper;
}.

Definition jwt_try_new (default_mapper : PrincipalMapper) (config : JwtProviderConfig)
    (resolver : KeyResolver) : result ConfigError JwtProvider :=
  _ ← jwt_config_validate config;
  Ok (mk_jwt_provider config resolver default_mapper).

Definition with_mapper (m : PrincipalMapper) (p : JwtProvider) : JwtProvider :=
  mk_jwt_provider (jwt_config p) (jwt_resolver p) m.

Definition hs256_key (key : VerificationKey) : result AuthenticationError (DecodingKey L) :=
  match key with
  | Hmac bytes =>
      if decide (length bytes < 32)
      then Err (ProviderUnavailable "HMAC secret must be at least 32 bytes (NIST SP 800-107)")
      else Ok (from_secret L bytes)
  | _ => Err (InvalidToken "expected HMAC key")
  end.
Definition rs256_key (key : VerificationKey) : result AuthenticationError (DecodingKey L) :=
  match key with
  | RsaPem pem => rsa_decoding_key pem
  | _ => Err (InvalidToken "expected RSA PEM key")
  end.
Definition es256_key (key : VerificationKey) : result AuthenticationError (DecodingKey L) :=
  match key with
  | EcPem pem => ec_decoding_key pem
  | _ => Err (InvalidToken "expected EC PEM key")
  end.

Definition hs256_authenticate (p : JwtProvider) (now : Z) (credential : Credential) :
    outcome SecurityContext :=
  token ← returned (bearer_token credential);
  authenticate_inner token (jwt_config p) (jwt_resolver p) now HS256 Hs256 (jwt_mapper p) hs256_key.
Definition rs256_authenticate (p : JwtProvider) (now : Z) (credential : Credential) :
    outcome SecurityContext :=
  token ← returned (bearer_token credential);
  authenticate_inner token (jwt_config p) (jwt_resolver p) now RS256 Rs256 (jwt_mapper p) rs256_key.
Definition es256_authenticate (p : JwtProvider) (now : Z) (credential : Credential) :
    outcome SecurityContext :=
  token ← returned (bearer_token credential);
  authenticate_inner token (jwt_config p) (jwt_resolver p) now ES256 Es256 (jwt_mapper p) es256_key.

(** ** What a provider accepts *)
Definition algorithm_of (a : JwtAlgorithm) : Algorithm :=
  match a with Hs256 => HS256 | Rs256 => RS256 | Es256 => ES256 end.

Definition kind_of (k : VerificationKey) : JwtAlgorithm :=
  match k with Hmac _ => Hs256 | RsaPem _ => Rs256 | EcPem _ => Es256 end.

Definition decoding_key (a : JwtAlgorithm) (k : VerificationKey) :
    result AuthenticationError (DecodingKey L) :=
  match a with Hs256 => hs256_key k | Rs256 => rs256_key k | Es256 => es256_key k end.

Definition jwt_authenticate (a : JwtAlgorithm) (p : JwtProvider) (now : Z) (c : Credential) :
    outcome SecurityContext :=
  match a with
  | Hs256 => hs256_authenticate p now c
  | Rs256 => rs256_authenticate p now c
  | Es256 => es256_authenticate p now c
  end.

(** The claims are in force at [now] for the configured issuer and audience. *)
Definition in_force (c : JwtProviderConfig) (leeway now : Z) (claims : gmap string Json) : Prop :=
  (∃ e limit, (claims !! "exp" ≫= parse_timestamp) = Some e ∧ dt_add e leeway = Some limit ∧
     (now < limit)%Z) ∧
  (∀ v, claims !! "nbf" = Some v →
     ∃ n late, parse_timestamp v = Some n ∧ dt_add now leeway = Some late ∧ (n ≤ late)%Z) ∧
  (∀ i, expected_iss c = Some i → claims !! "iss" = Some (VString i)) ∧
  (∀ es, expected_aud c = Some es →
     ∃ auds e, token_auds (claims !! "aud") = Ok auds ∧ e ∈ es ∧ e ∈ auds).

(** [inv_step]: one more step of a successful computation. *)
#[local] Ltac inv_step := setoid_rewrite bind_Ok.

Lemma check_exp_Ok now leeway v u :
  check_exp now leeway v = Ok u ↔
  ∃ e limit, parse_timestamp v = Some e ∧ dt_add e leeway = Some limit ∧ (now < limit)%Z.
Proof.
  destruct u. unfold check_exp. destruct (parse_timestamp v) as [e|]; [|naive_solver].
  rewrite bind_Ok. unfold or_panic. setoid_rewrite ok_or_Ok. split.
  - intros (limit & Hl & Hd). exists e, limit. case_decide; [done|]. split_and!; [done..|lia].
  - intros (? & limit & [= <-] & Hl & Hn). exists limit. split; [done|]. case_decide; [lia|done].
Qed.

Lemma check_nbf_Ok now leeway claims u :
  check_nbf now leeway claims = Ok u ↔
  ∀ v, claims !! "nbf" = Some v →
    ∃ n late, parse_timestamp v = Some n ∧ dt_add now leeway = Some late ∧ (n ≤ late)%Z.
Proof.
  destruct u. unfold check_nbf. destruct (claims !! "nbf") as [v|]; [|naive_solver].
  destruct (parse_timestamp v) as [n|] eqn:Hp.
  - rewrite bind_Ok. unfold or_panic. setoid_rewrite ok_or_Ok. split.
    + intros (late & Hl & Hd) ? [= <-]. exists n, late. case_decide; [done|].
      split_and!; [done..|lia].
    + intros H. destruct (H v eq_refl) as (? & late & Hn & Hl & Hle). simplify_eq.
      exists late. split; [done|]. case_decide; [lia|done].
  - split; [intros [=]|]. intros H. destruct (H v eq_refl) as (? & ? & Hn & _). congruence.
Qed.

Lemma check_iss_Ok expected claims u :
  check_iss expected claims = Ok u ↔
  ∀ i, expected = Some i → claims !! "iss" = Some (VString i).
Proof.
  destruct u. unfold check_iss. destruct expected as [i|]; [|naive_solver].
  destruct (claims !! "iss") as [[| | |s| |]|]; try case_decide; naive_solver.
Qed.

Lemma check_aud_Ok expected claims u :
  check_aud expected claims = Ok u ↔
  ∀ es, expected = Some es → ∃ auds e, token_auds (claims !! "aud") = Ok auds ∧ e ∈ es ∧ e ∈ auds.
Proof.
  destruct u. unfold check_aud. destruct expected as [es|]; [|naive_solver].
  rewrite bind_Ok. split.
  - intros (auds & Ha & He) ? [= <-].
    destruct (existsb _ es) eqn:Hex; [|done]. apply existsb_elem_of in Hex as (e & Hin & Hb).
    exists auds, e. split_and!; [done..|]. by apply bool_decide_eq_true in Hb.
  - intros H. destruct (H es eq_refl) as (auds & e & Ha & He & Hin). exists auds. split; [done|].
    assert (existsb (λ ea, bool_decide (ea ∈ auds)) es = true) as ->; [|done].
    apply existsb_elem_of. exists e. by rewrite bool_decide_eq_true.
Qed.

Lemma validate_Ok token key a c now mapper leeway ctx :
  duration_seconds (leeway_of c) = Some leeway →
  validate_with_mapper token key a c now mapper = Ok ctx ↔
  ∃ claims, decode L token key a = Ok claims ∧ in_force c leeway now claims ∧
    mapper (claims_map_to_claim_set num_as_i64 num_as_u64 num_as_f64 claims) =
      Ok (principal ctx, Security.claims ctx).
Proof.
  intros Hl. unfold validate_with_mapper, in_force, returned, or_panic. rewrite Hl. cbn [ok_or].
  repeat setoid_rewrite bind_Ok. repeat setoid_rewrite map_err_Ok. setoid_rewrite ok_or_Ok.
  setoid_rewrite check_exp_Ok. setoid_rewrite check_nbf_Ok. setoid_rewrite check_iss_Ok.
  setoid_rewrite check_aud_Ok. split.
  - intros (cl & Hd & v & Hv & ? & [= <-] & [] & He & [] & Hn & [] & Hi & [] & Ha & [p q] & Hm & [= <-]).
    exists cl. rewrite Hv. by split_and!.
  - intros (cl & Hd & (He & Hn & Hi & Ha) & Hm). exists cl. split; [done|].
    destruct He as (e & limit & He & Hr). destruct (cl !! "exp") as [v|]; [|done].
    exists v. split; [done|]. exists leeway. split; [done|]. exists tt. split; [by exists e, limit|].
    exists tt. split; [done|]. exists tt. split; [done|]. exists tt. split; [done|].
    exists (principal ctx, Security.claims ctx). split; [done|]. by destruct ctx.
Qed.

Lemma inner_Ok token c resolver now ea a mapper build leeway ctx :
  duration_seconds (leeway_of c) = Some leeway →
  authenticate_inner token c resolver now ea a mapper build = Ok ctx ↔
  ∃ h k dk claims,
    decode_header L token = Ok h ∧ alg h = ea ∧ resolver (kid h) a = Some (Ok k) ∧
    build k = Ok dk ∧ decode L token dk ea = Ok claims ∧ in_force c leeway now claims ∧
    mapper (claims_map_to_claim_set num_as_i64 num_as_u64 num_as_f64 claims) =
      Ok (principal ctx, Security.claims ctx).
Proof.
  intros Hl. unfold authenticate_inner, returned, resolve_key_sync. rewrite bind_Ok.
  setoid_rewrite map_err_Ok. setoid_rewrite map_err_Ok. split.
  - intros (h & Hh & Hd). case_decide as Ha; [done|].
    apply bind_Ok in Hd as (k & Hk%map_err_Ok & (dk & Hdk%map_err_Ok & Hv)%bind_Ok).
    apply (validate_Ok _ _ _ _ _ _ leeway) in Hv as (cl & Hd & Hf & Hm); [|done].
    exists h, k, dk, cl. split_and!; try done.
    destruct (resolver (kid h) a) as [[]|]; try done. by simplify_eq/=.
  - intros (h & k & dk & cl & Hh & Ha & Hr & Hk & Hd & Hf & Hm). exists h. split; [done|].
    case_decide; [done|]. rewrite Hr. cbn. rewrite Hk. cbn. apply (validate_Ok _ _ _ _ _ _ leeway); eauto.
Qed.

(** A token is only accepted when the leeway is a duration. *)
Lemma inner_leeway token c resolver now ea a mapper build ctx :
  authenticate_inner token c resolver now ea a mapper build = Ok ctx →
  ∃ leeway, duration_seconds (leeway_of c) = Some leeway.
Proof.
  unfold authenticate_inner, validate_with_mapper. intros (h & _ & Hd)%bind_Ok.
  case_decide; [done|].
  apply bind_Ok in Hd as (k & _ & (dk & _ & (cl & _ & (v & _ & (l & Hl & _)%bind_Ok)%bind_Ok)%bind_Ok)%bind_Ok).
  unfold or_panic in Hl. rewrite ok_or_Ok in Hl. eauto.
Qed.

Lemma validated_config c u :
  jwt_config_validate c = Ok u →
  duration_seconds (leeway_of c) = Some (nanos (leeway_of c)) ∧ (0 ≤ leeway_of c ≤ 300)%Z ∧
  ∃ es, expected_aud c = Some es ∧ es ≠ [] ∧ "" ∉ es.
Proof.
  unfold jwt_config_validate. intros (? & Hl & (? & _ & Ha)%bind_Ok)%bind_Ok.
  assert (0 ≤ leeway_of c ≤ 300)%Z as Hb.
  { unfold leeway_of. destruct (leeway_seconds c) as [l|]; cbn [default from_option id];
      [|by vm_compute].
    unfold MAX_LEEWAY_SECONDS in Hl. destruct (decide (300 < l)%N); [done|].
    case_decide; lia. }
  split_and!; [|lia..|].
  - unfold duration_seconds. rewrite decide_True; [done|]. 
    apply (Z.le_trans _ 300); [lia|by vm_compute].
  - destruct (expected_aud c) as [es|]; [|done]. repeat case_decide; try done. eauto.
Qed.

Lemma decoding_key_kind a k dk : decoding_key a k = Ok dk → kind_of k = a.
Proof. by destruct a, k. Qed.

Lemma jwt_authenticate_inner a p now c :
  jwt_authenticate a p now c =
  token ← returned (bearer_token c);
  authenticate_inner token (jwt_config p) (jwt_resolver p) now (algorithm_of a) a (jwt_mapper p)
    (decoding_key a).
Proof. by destruct a. Qed.


(** A properly signed token whose expiry lies within the leeway of the last
    representable instant makes the provider panic instead of answering: the leeway
    is added to the expiry with an operator that panics out of range. *)
Lemma late_expiry_panics (a : JwtAlgorithm) default_mapper config resolver p now token h k dk claims e :
  jwt_try_new default_mapper config resolver = Ok p → (str_len token ≤ 8192)%Z →
  decode_header L token = Ok h → alg h = algorithm_of a → resolver (kid h) a = Some (Ok k) →
  decoding_key a k = Ok dk → decode L token dk (algorithm_of a) = Ok claims →
  (claims !! "exp" ≫= parse_timestamp) = Some e → (dt_max < e + nanos (leeway_of config))%Z →
  jwt_authenticate a p now (Bearer token) = Err Panicked.
Proof.
  unfold jwt_try_new. intros ([] & Hv & [= <-])%bind_Ok Hlen Hh Ha Hr Hdk Hdec He Hmax.
  destruct (validated_config config () Hv) as (Hl & _).
  rewrite jwt_authenticate_inner. cbn [jwt_config jwt_resolver jwt_mapper].
  unfold bearer_token, MAX_TOKEN_BYTES. rewrite decide_False by lia. cbn.
  unfold authenticate_inner. rewrite Hh. cbn. rewrite decide_False by tauto.
  unfold resolve_key_sync. rewrite Hr. cbn. rewrite Hdk. cbn.
  unfold validate_with_mapper. rewrite Hdec. cbn.
  destruct (claims !! "exp") as [v|]; [|done]. cbn in He |- *. rewrite Hl. cbn.
  unfold check_exp. rewrite He. unfold dt_add. rewrite decide_False by lia. done.
Qed.
End engine.

(** ** Witnesses *)
Module Example_jwt.
Definition last_second : Z := 8210266876799.
Definition as_int (n : string) : option Z :=
  if decide (n = "100") then Some 100%Z
  else if decide (n = "8210266876799") then Some last_second else None.
Definition late : string := "late".

Definition lib : Lib := {|
  DecodingKey := list Byte.byte;
  decode_header := λ t, if decide (t = "") then Err (mk_jwt_error KindOther "empty")
                        else Ok (mk_header HS256 (Some "k1"));
  decode := λ t k a,
    if decide (k = replicate 32 Byte.x01 ∧ a = HS256) then
      Ok {[ "sub" := VString "u1"; "aud" := VArray [VString "api"];
            "exp" := VNumber (if decide (t = late) then "8210266876799" else "100") ]}
    else Err (mk_jwt_error KindInvalidSignature "bad");
  from_secret := λ b, b;
  from_rsa_pem := λ _, Err "none";
  from_ec_pem := λ _, Err "none";
|}.

Definition config : JwtProviderConfig := mk_jwt_config None (Some ["api"]) (Some 30%N).
Definition resolver : KeyResolver := local_resolve Hs256 (Hmac (replicate 32 Byte.x01)).
Definition mapper : PrincipalMapper :=
  default_principal_map (λ _, "") (λ _, None) 0 (nanos last_second).
Definition provider : JwtProvider := mk_jwt_provider config resolver mapper.

Definition context_of (r : outcome SecurityContext) : SecurityContext :=
  match r with
  | Ok ctx => ctx
  | Err _ => SecurityContext_empty (Principal_new User (mk_subject ""))
  end.

(** Ten seconds past its expiry the token is still within the leeway. *)
Definition answer : outcome SecurityContext :=
  jwt_authenticate as_int as_int (λ _, None) 0 (nanos last_second) lib Hs256
    (with_mapper mapper provider) (nanos 110) (Bearer "token").


Lemma late_expiry_panics_witness :
  jwt_authenticate as_int as_int (λ _, None) 0 (nanos last_second) lib Hs256 provider (nanos 110)
    (Bearer late) = Err Panicked.
Proof.
  apply (late_expiry_panics as_int as_int (λ _, None) 0 (nanos last_second) lib Hs256 mapper config
           resolver provider (nanos 110) late (mk_header HS256 (Some "k1"))
           (Hmac (replicate 32 Byte.x01)) (replicate 32 Byte.x01)
           {[ "sub" := VString "u1"; "aud" := VArray [VString "api"];
              "exp" := VNumber "8210266876799" ]} (nanos last_second));
    [reflexivity|by vm_compute..].
Defined.
End Example_jwt.
