(* ===== verification/Der.v ===== *)
(** * Public keys of a key set

    The DER encoding of the RSA and P-256 public keys of a JSON web key set
    (crates/security-jwt, jwks.rs).  Base64 and the key set's parser are third-party:
    the codecs are arguments, and a key is what the parser hands over. *)

From S2P Require Import Prelude Fingerprint Security ClaimSet Jwt.

(** ** Encoding *)

(** [n as u8] *)
Definition low_byte (n : Z) : Byte.byte := be_byte n 0.

Definition der_length (n : nat) : list Byte.byte :=
  let z := Z.of_nat n in
  if decide (n < 128) then [low_byte z]
  else if decide (n < 256) then [Byte.x81; low_byte z]
  else [Byte.x82; low_byte (Z.shiftr z 8); low_byte (Z.land z 255)].

Definition der_sequence (content : list Byte.byte) : list Byte.byte :=
  Byte.x30 :: der_length (length content) ++ content.

Definition der_bitstring (content : list Byte.byte) : list Byte.byte :=
  Byte.x03 :: der_length (length content + 1) ++ Byte.x00 :: content.

(** [b & 0x80 != 0] *)
Definition high_bit (b : Byte.byte) : bool := Z.testbit (Z.of_N (Byte.to_N b)) 7.

Definition der_integer (bytes : list Byte.byte) : list Byte.byte :=
  let needs_pad := match bytes with b :: _ => high_bit b | [] => false end in
  let content := (if needs_pad then [Byte.x00] else []) ++ bytes in
  Byte.x02 :: der_length (length content) ++ content.

(** The algorithm identifiers. *)
Definition rsa_encryption : list Byte.byte :=
  [Byte.x06; Byte.x09; Byte.x2a; Byte.x86; Byte.x48; Byte.x86; Byte.xf7; Byte.x0d; Byte.x01;
   Byte.x01; Byte.x01; Byte.x05; Byte.x00].
Definition ec_p256 : list Byte.byte :=
  [Byte.x06; Byte.x07; Byte.x2a; Byte.x86; Byte.x48; Byte.xce; Byte.x3d; Byte.x02; Byte.x01;
   Byte.x06; Byte.x08; Byte.x2a; Byte.x86; Byte.x48; Byte.xce; Byte.x3d; Byte.x03; Byte.x01;
   Byte.x07].

Definition rsa_spki (n e : list Byte.byte) : list Byte.byte :=
  let inner_seq := der_sequence (der_integer n ++ der_integer e) in
  der_sequence (der_sequence rsa_encryption ++ der_bitstring inner_seq).

Definition P256_COORD_BYTES : nat := 32.

Definition pad_coord (x : list Byte.byte) : list Byte.byte :=
  replicate (P256_COORD_BYTES - length x) Byte.x00 ++ x.

Definition ec_spki (x y : list Byte.byte) : list Byte.byte :=
  let point := Byte.x04 :: pad_coord x ++ pad_coord y in
  der_sequence (der_sequence ec_p256 ++ der_bitstring point).

Section keys.
Context (base64_encode : list Byte.byte → string).
Context (base64url_decode : string → result string (list Byte.byte)).

(** [chunks(64)], joined by line feeds. *)
Definition newline : string := String "010" "".

Fixpoint chunk_lines (fuel room : nat) (s : string) : string :=
  match s with
  | EmptyString => ""
  | String a rest =>
      match fuel with
      | 0 => newline +:+ String a (chunk_lines (room - 1) room rest)
      | S fuel' => String a (chunk_lines fuel' room rest)
      end
  end.

Definition der_to_pem (der : list Byte.byte) : string :=
  "-----BEGIN PUBLIC KEY-----" +:+ newline +:+ chunk_lines 64 64 (base64_encode der) +:+
  newline +:+ "-----END PUBLIC KEY-----" +:+ newline.

Definition rsa_components_to_pem (n_b64 e_b64 : string) : result AuthenticationError string :=
  n ← map_err (λ e, ProviderUnavailable ("bad RSA n: " +:+ e)) (base64url_decode n_b64);
  e ← map_err (λ e, ProviderUnavailable ("bad RSA e: " +:+ e)) (base64url_decode e_b64);
  if decide (n = [] ∨ e = []) then Err (InvalidToken "RSA key has zero-length modulus or exponent")
  else Ok (der_to_pem (rsa_spki n e)).

Definition ec_components_to_pem (x_b64 y_b64 : string) : result AuthenticationError string :=
  x ← map_err (λ e, ProviderUnavailable ("bad EC x: " +:+ e)) (base64url_decode x_b64);
  y ← map_err (λ e, ProviderUnavailable ("bad EC y: " +:+ e)) (base64url_decode y_b64);
  if decide (x = [] ∨ y = [] ∨ P256_COORD_BYTES < length x ∨ P256_COORD_BYTES < length y)
  then Err (ProviderUnavailable "EC P-256 coordinate must be 1–32 bytes — malformed JWK")
  else Ok (der_to_pem (ec_spki x y)).

(** ** Keys *)
Inductive EllipticCurve := P256 | P384 | P521 | Ed25519.
#[export] Instance EllipticCurve_eq_dec : EqDecision EllipticCurve.
Proof. solve_decision. Defined.
Definition EllipticCurve_debug (c : EllipticCurve) : string :=
  match c with P256 => "P256" | P384 => "P384" | P521 => "P521" | Ed25519 => "Ed25519" end.

Inductive AlgorithmParameters :=
| RSA (n e : string)
| EllipticCurveKey (curve : EllipticCurve) (x y : string)
| OtherKey.
Record Jwk := mk_jwk { key_id : option string; jwk_algorithm : AlgorithmParameters }.

Definition jwk_to_verification_key (jwk : Jwk) : result AuthenticationError VerificationKey :=
  match jwk_algorithm jwk with
  | RSA n e => RsaPem <$> rsa_components_to_pem n e
  | EllipticCurveKey curve x y =>
      if decide (curve ≠ P256) then
        Err (AlgorithmNotSupported ("EC curve " +:+ EllipticCurve_debug curve +:+
                                    " is not supported; only P-256 (ES256)"))
      else EcPem <$> ec_components_to_pem x y
  | OtherKey => Err (AlgorithmNotSupported "unsupported JWK algorithm type")
  end.

(** The loop of [HttpJwksProvider::fetch_jwks]: a key that cannot be used is skipped. *)
Fixpoint usable_keys (jwks : list Jwk) : list (option string * VerificationKey) :=
  match jwks with
  | [] => []
  | jwk :: rest =>
      match jwk_to_verification_key jwk with
      | Ok vk => (key_id jwk, vk) :: usable_keys rest
      | Err _ => usable_keys rest
      end
  end.
End keys.

(** ** Reading DER

    A reader of definite lengths in the short form or with one or two length octets,
    of tagged values, and of the two key structures. *)
Definition byte_val (b : Byte.byte) : Z := Z.of_N (Byte.to_N b).
Definition value (l : list Byte.byte) : Z := foldl (λ acc b, acc * 256 + byte_val b)%Z 0%Z l.

(** The two's complement integer of a content. *)
Definition signed (l : list Byte.byte) : Z :=
  match l with
  | b :: _ => if high_bit b then value l - 256 ^ Z.of_nat (length l) else value l
  | [] => 0
  end%Z.

Definition read_length (l : list Byte.byte) : option (nat * list Byte.byte) :=
  match l with
  | [] => None
  | b :: rest =>
      if decide (byte_val b < 128)%Z then Some (Z.to_nat (byte_val b), rest)
      else if decide (b = Byte.x81) then
        match rest with c :: r => Some (Z.to_nat (byte_val c), r) | _ => None end
      else if decide (b = Byte.x82) then
        match rest with
        | c :: d :: r => Some (Z.to_nat (byte_val c * 256 + byte_val d), r)
        | _ => None
        end
      else None
  end.

Definition read_tlv (tag : Byte.byte) (l : list Byte.byte) :
    option (list Byte.byte * list Byte.byte) :=
  match l with
  | t :: l' =>
      if decide (t = tag) then
        '(n, r) ← read_length l';
        if decide (n ≤ length r) then Some (take n r, drop n r) else None
      else None
  | [] => None
  end.

(** A tagged value and nothing after it. *)
Definition read_only (tag : Byte.byte) (l : list Byte.byte) : option (list Byte.byte) :=
  '(content, r) ← read_tlv tag l;
  if decide (r = []) then Some content else None.

Definition read_spki (algorithm l : list Byte.byte) : option (list Byte.byte) :=
  body ← read_only Byte.x30 l;
  '(a, r) ← read_tlv Byte.x30 body;
  if decide (a = algorithm) then
    bits ← read_only Byte.x03 r;
    match bits with Byte.x00 :: key => Some key | _ => None end
  else None.

Definition read_rsa_spki (l : list Byte.byte) : option (Z * Z) :=
  key ← read_spki rsa_encryption l;
  ints ← read_only Byte.x30 key;
  '(n, r) ← read_tlv Byte.x02 ints;
  e ← read_only Byte.x02 r;
  Some (signed n, signed e).

Definition read_ec_spki (l : list Byte.byte) : option (Z * Z) :=
  point ← read_spki ec_p256 l;
  match point with
  | Byte.x04 :: xy =>
      if decide (length xy = 2 * P256_COORD_BYTES)
      then Some (value (take P256_COORD_BYTES xy), value (drop P256_COORD_BYTES xy)) else None
  | _ => None
  end.

(** ** The reader inverts the encoder *)
Lemma byte_val_bound b : (0 ≤ byte_val b < 256)%Z.
Proof. unfold byte_val. pose proof (Byte.to_N_bounded b). lia. Qed.

Lemma low_byte_val n : byte_val (low_byte n) = (n mod 256)%Z.
Proof. unfold byte_val, low_byte. rewrite be_byte_val by lia. by rewrite Z.mul_0_r, Z.div_1_r. Qed.

Lemma read_length_der n rest :
  read_length (der_length n ++ rest) =
    Some (if decide (n < 256) then n else Z.to_nat (Z.of_nat n mod 65536), rest).
Proof.
  unfold der_length. case_decide as H1; [|case_decide as H2]; cbn [app].
  - unfold read_length. rewrite low_byte_val, Z.mod_small, decide_True, decide_True by lia.
    by rewrite Nat2Z.id.
  - unfold read_length. rewrite decide_False, decide_True by (by vm_compute).
    rewrite low_byte_val, Z.mod_small, Nat2Z.id by lia. done.
  - unfold read_length. rewrite decide_False, decide_False, decide_True by (by vm_compute).
    rewrite !low_byte_val. do 3 f_equal.
    rewrite Z.shiftr_div_pow2 by lia. change 255%Z with (Z.ones 8). rewrite Z.land_ones by lia.
    change (2 ^ 8)%Z with 256%Z. rewrite Z.mod_mod by lia.
    change 65536%Z with (256 * 256)%Z.
    rewrite (Z.rem_mul_r (Z.of_nat n) 256 256) by lia. lia.
Qed.

Lemma read_tlv_der tag content rest :
  (Z.of_nat (length content) < 65536)%Z →
  read_tlv tag (tag :: (der_length (length content) ++ content) ++ rest) = Some (content, rest).
Proof.
  intros Hlen. unfold read_tlv. rewrite decide_True by done. rewrite <-app_assoc, read_length_der.
  assert ((if decide (length content < 256) then length content
           else Z.to_nat (Z.of_nat (length content) mod 65536)) = length content) as ->.
  { case_decide; [done|]. rewrite Z.mod_small by lia. apply Nat2Z.id. }
  cbn. rewrite decide_True by (rewrite length_app; lia). by rewrite take_app_length, drop_app_length.
Qed.

Lemma read_only_der tag content :
  (Z.of_nat (length content) < 65536)%Z →
  read_only tag (tag :: der_length (length content) ++ content) = Some content.
Proof.
  intros Hlen. unfold read_only. pose proof (read_tlv_der tag content [] Hlen) as H.
  rewrite app_nil_r in H. by rewrite H.
Qed.

Lemma value_cons b l : value (b :: l) = (byte_val b * 256 ^ Z.of_nat (length l) + value l)%Z.
Proof.
  unfold value. cbn [foldl]. rewrite Z.mul_0_l, Z.add_0_l. generalize (byte_val b) as acc.
  induction l as [|c l IH]; intros acc; [by cbn; lia|].
  cbn [foldl length]. rewrite IH, (IH (0 * 256 + byte_val c)%Z), Nat2Z.inj_succ, Z.pow_succ_r by lia.
  lia.
Qed.

Lemma value_pad k l : value (replicate k Byte.x00 ++ l) = value l.
Proof. induction k as [|k IH]; [done|]. cbn [replicate app]. rewrite value_cons, IH. done. Qed.

Definition integer_content (bytes : list Byte.byte) : list Byte.byte :=
  (if match bytes with b :: _ => high_bit b | [] => false end then [Byte.x00] else []) ++ bytes.

Lemma signed_content bytes : bytes ≠ [] → signed (integer_content bytes) = value bytes.
Proof.
  unfold integer_content. destruct bytes as [|b l]; [done|]. intros _.
  destruct (high_bit b) eqn:Hb; cbn [app]; unfold signed.
  - change (high_bit Byte.x00) with false. cbn iota. by rewrite value_cons.
  - by rewrite Hb.
Qed.

Lemma length_der_length n : length (der_length n) ≤ 3.
Proof. unfold der_length. repeat case_decide; simpl; lia. Qed.

Lemma length_integer_content bytes : length (integer_content bytes) ≤ length bytes + 1.
Proof. unfold integer_content. rewrite length_app. destruct (match bytes with [] => _ | _ => _ end); cbn [length]; lia. Qed.

(** Both key structures: an algorithm identifier, then the key as a bit string. *)
Lemma read_spki_der a key :
  (Z.of_nat (length a) < 200)%Z → (Z.of_nat (length key) < 65300)%Z →
  read_spki a (der_sequence (der_sequence a ++ der_bitstring key)) = Some key.
Proof.
  intros Ha Hk. unfold read_spki, der_sequence at 1.
  pose proof (length_der_length (length a)). pose proof (length_der_length (length key + 1)).
  rewrite read_only_der; cbn [mbind option_bind].
  2: { rewrite length_app. unfold der_sequence, der_bitstring. cbn [length].
       rewrite !length_app. cbn [length]. lia. }
  unfold der_sequence. rewrite <-app_comm_cons, read_tlv_der by lia. cbn [mbind option_bind].
  rewrite decide_True by done. unfold der_bitstring.
  replace (length key + 1) with (length (Byte.x00 :: key)) by (cbn; lia).
  rewrite read_only_der by (cbn [length]; lia). done.
Qed.

(** A length is encoded so that a reader gets it back exactly when it is below
    65536; from there on the two length octets hold it modulo 65536. *)
Lemma der_length_exact (n : nat) (rest : list Byte.byte) :
  read_length (der_length n ++ rest) = Some (n, rest) ↔ (Z.of_nat n < 65536)%Z.
Proof.
  rewrite read_length_der. split.
  - intros [= Hn]. case_decide; [lia|]. pose proof (Z.mod_pos_bound (Z.of_nat n) 65536). lia.
  - intros Hn. case_decide; [done|]. rewrite Z.mod_small by lia. by rewrite Nat2Z.id.
Qed.

(** The public key written for an RSA or P-256 key of a key set reads back as the
    same numbers: the modulus and the exponent as positive integers whatever their top
    bit, the coordinates padded to 32 bytes. *)
Lemma public_key_round_trip :
  (∀ n e, n ≠ [] → e ≠ [] → (Z.of_nat (length n) + Z.of_nat (length e) < 65000)%Z →
     read_rsa_spki (rsa_spki n e) = Some (value n, value e)) ∧
  (∀ x y, length x ≤ 32 → length y ≤ 32 → read_ec_spki (ec_spki x y) = Some (value x, value y)).
Proof.
  split.
  - intros n e Hn He Hlen. unfold read_rsa_spki, rsa_spki.
    pose proof (length_integer_content n). pose proof (length_integer_content e).
    pose proof (length_der_length (length (integer_content n))).
    pose proof (length_der_length (length (integer_content e))).
    assert (Z.of_nat (length (der_integer n ++ der_integer e)) < 65100)%Z as Hints.
    { rewrite length_app. unfold der_integer. fold (integer_content n) (integer_content e).
      cbn [length]. rewrite !length_app. lia. }
    pose proof (length_der_length (length (der_integer n ++ der_integer e))).
    rewrite read_spki_der; [|by vm_compute|unfold der_sequence; cbn [length]; rewrite length_app; lia].
    cbn [mbind option_bind]. unfold der_sequence. rewrite read_only_der by lia. cbn [mbind option_bind].
    unfold der_integer. fold (integer_content n) (integer_content e).
    rewrite <-app_comm_cons, read_tlv_der by lia. cbn [mbind option_bind].
    rewrite read_only_der by lia. cbn [mbind option_bind]. by rewrite !signed_content.
  - intros x y Hx Hy. unfold read_ec_spki, ec_spki.
    assert (length (pad_coord x) = 32 ∧ length (pad_coord y) = 32) as [Lx Ly].
    { unfold pad_coord, P256_COORD_BYTES. rewrite !length_app, !length_replicate. lia. }
    rewrite read_spki_der; [|by vm_compute|cbn [length]; rewrite length_app; lia].
    cbn [mbind option_bind]. rewrite decide_True by (rewrite length_app; unfold P256_COORD_BYTES; lia).
    unfold P256_COORD_BYTES. rewrite take_app_length', drop_app_length' by done.
    unfold pad_coord. by rewrite !value_pad.
Qed.

(** ** Witness *)
Module Example_der.
Lemma public_key_round_trip_witness :
  read_rsa_spki (rsa_spki [Byte.xff; Byte.x01] [Byte.x01; Byte.x00; Byte.x01]) =
    Some (65281, 65537)%Z ∧
  read_ec_spki (ec_spki [Byte.x07] [Byte.x80; Byte.x00]) = Some (7, 32768)%Z.
Proof.
  split.
  - apply (proj1 public_key_round_trip); by vm_compute.
  - apply (proj2 public_key_round_trip); cbn [length]; lia.
Defined.
End Example_der.
