(* ===== verification/Jwks.v ===== *)
(** * The key set cache

    [JwksKeyResolver] of crates/security-jwt, jwks.rs: a cache of the keys of a key
    set endpoint, shared by every authentication.

    A call of [resolve] runs on a thread of its own, so calls interleave at the points
    where they take or release a lock: each constructor of [Call] is one such point.
    The answer of the endpoint, a panic of the fetching thread included, is part of
    the action that receives it.  Times are seconds of the monotonic clock. *)

From S2P Require Import Prelude Fingerprint Security ClaimSet Jwt.

Definition FORCE_REFRESH_DEBOUNCE_SECS : Z := 30.
Definition FORCE_REFRESH_INITIAL_AGE_SECS : Z := FORCE_REFRESH_DEBOUNCE_SECS + 1.

Definition vk_to_result (vk : VerificationKey) (algorithm : JwtAlgorithm) :
    result KeyResolverError VerificationKey :=
  match vk, algorithm with
  | Hmac _, Hs256 | RsaPem _, Rs256 | EcPem _, Es256 => Ok vk
  | Hmac _, a => Err (AlgorithmMismatch Hs256 a)
  | RsaPem _, a => Err (AlgorithmMismatch Rs256 a)
  | EcPem _, a => Err (AlgorithmMismatch Es256 a)
  end.

Definition Keys : Type := list (option string * VerificationKey).
Abbreviation Cache := (gmap (option string) VerificationKey).

(** [keys.into_iter().collect()]: the last entry of a key id wins. *)
Definition collect_keys (keys : Keys) : Cache :=
  foldl (λ m kv, <[kv.1 := kv.2]> m) ∅ keys.

(** What a fetch comes back with: keys, an error, or [None] for a panic. *)
Definition Fetched : Type := option (result AuthenticationError Keys).

(** Where a call of [resolve] stands. *)
Inductive Call :=
| Looking                                  (* about to read the cache *)
| Deciding                                 (* missed, about to lock the debounce timer *)
| Fetching                                 (* in [force_refresh], waiting for the thread *)
| Storing (keys : Keys)                    (* about to write the cache *)
| Stamping                                 (* about to set the debounce timer *)
| Rereading                                (* refreshed, about to read the cache again *)
| Releasing (r : result KeyResolverError VerificationKey)  (* about to clear the flag *)
| Answered (r : result KeyResolverError VerificationKey).

Record Resolve := mk_resolve {
  requested_kid : option string;
  requested_alg : JwtAlgorithm;
  phase : Call;
}.

(** What the run has done, most recent first. *)
Inductive Event :=
| Started (t : Z)       (* a forced fetch was started *)
| Ended                 (* the in-flight flag was cleared *)
| Stamped (t : Z).      (* a forced fetch that brought keys was recorded *)

Record Jwks := mk_jwks {
  cache : Cache;
  last_force_refresh : Z;
  refresh_in_flight : bool;
  now : Z;
  calls : gmap nat Resolve;
  published : list Keys;
  log : list Event;
}.

(** The constructor: a warm-up fetch, and a timer old enough for the first miss. *)
Definition with_provider (start : Z) (warmup : Fetched) : Jwks :=
  match warmup with
  | Some (Ok keys) =>
      mk_jwks (if decide (keys = []) then ∅ else collect_keys keys)
        (start - FORCE_REFRESH_INITIAL_AGE_SECS) false start ∅ [keys] []
  | _ => mk_jwks ∅ (start - FORCE_REFRESH_INITIAL_AGE_SECS) false start ∅ [] []
  end.

Inductive Action :=
| Begin (i : nat) (kid : option string) (algorithm : JwtAlgorithm)
| Proceed (i : nat)                   (* the next step of call [i] *)
| Receive (i : nat) (r : Fetched)     (* the fetch of call [i] comes back *)
| Background (r : result AuthenticationError Keys)
| Tick (d : Z).

Definition set_phase (i : nat) (c : Resolve) (ph : Call) (s : Jwks) : Jwks :=
  mk_jwks (cache s) (last_force_refresh s) (refresh_in_flight s) (now s)
    (<[i := mk_resolve (requested_kid c) (requested_alg c) ph]> (calls s)) (published s) (log s).
Definition set_cache (m : Cache) (s : Jwks) : Jwks :=
  mk_jwks m (last_force_refresh s) (refresh_in_flight s) (now s) (calls s) (published s) (log s).
Definition set_flag (b : bool) (s : Jwks) : Jwks :=
  mk_jwks (cache s) (last_force_refresh s) b (now s) (calls s) (published s) (log s).
Definition set_timer (t : Z) (s : Jwks) : Jwks :=
  mk_jwks (cache s) t (refresh_in_flight s) (now s) (calls s) (published s) (log s).
Definition publish (keys : Keys) (s : Jwks) : Jwks :=
  mk_jwks (cache s) (last_force_refresh s) (refresh_in_flight s) (now s) (calls s)
    (keys :: published s) (log s).
Definition note (e : Event) (s : Jwks) : Jwks :=
  mk_jwks (cache s) (last_force_refresh s) (refresh_in_flight s) (now s) (calls s)
    (published s) (e :: log s).

(** The next step of a call. *)
Definition resolve_step (i : nat) (c : Resolve) (s : Jwks) : option Jwks :=
  match phase c with
  | Looking =>
      match cache s !! requested_kid c with
      | Some vk => Some (set_phase i c (Answered (vk_to_result vk (requested_alg c))) s)
      | None => Some (set_phase i c Deciding s)
      end
  | Deciding =>
      if decide (now s - last_force_refresh s < FORCE_REFRESH_DEBOUNCE_SECS)%Z
      then Some (set_phase i c (Answered (Err (KeyNotFound (requested_kid c)))) s)
      else if refresh_in_flight s
      then Some (set_phase i c (Answered (Err (KeyNotFound (requested_kid c)))) s)
      else Some (set_phase i c Fetching (note (Started (now s)) (set_flag true s)))
  | Storing keys => Some (set_phase i c Stamping (set_cache (collect_keys keys) s))
  | Stamping => Some (set_phase i c Rereading (note (Stamped (now s)) (set_timer (now s) s)))
  | Rereading =>
      match cache s !! requested_kid c with
      | Some vk => Some (set_phase i c (Releasing (vk_to_result vk (requested_alg c))) s)
      | None => Some (set_phase i c (Releasing (Err (KeyNotFound (requested_kid c)))) s)
      end
  | Releasing r => Some (set_phase i c (Answered r) (note Ended (set_flag false s)))
  | Fetching | Answered _ => None
  end.

(** [force_refresh] after the join. *)
Definition force_refresh (i : nat) (c : Resolve) (r : Fetched) (s : Jwks) : Jwks :=
  match r with
  | Some (Ok keys) =>
      if decide (keys = []) then set_phase i c Rereading s
      else set_phase i c (Storing keys) (publish keys s)
  | _ => set_phase i c Rereading s
  end.

(** The body of the background loop. *)
Definition background_refresh (r : result AuthenticationError Keys) (s : Jwks) : Jwks :=
  match r with
  | Ok keys => if decide (keys = []) then s else publish keys (set_cache (collect_keys keys) s)
  | Err _ => s
  end.

Definition perform (a : Action) (s : Jwks) : option Jwks :=
  match a with
  | Begin i kid algorithm =>
      match calls s !! i with
      | Some _ => None
      | None => Some (set_phase i (mk_resolve kid algorithm Looking) Looking s)
      end
  | Proceed i => c ← calls s !! i; resolve_step i c s
  | Receive i r =>
      c ← calls s !! i;
      match phase c with Fetching => Some (force_refresh i c r s) | _ => None end
  | Background r => Some (background_refresh r s)
  | Tick d =>
      if decide (0 ≤ d)%Z then
        Some (mk_jwks (cache s) (last_force_refresh s) (refresh_in_flight s) (now s + d)
                (calls s) (published s) (log s))
      else None
  end.

Definition step (s s' : Jwks) : Prop := ∃ a, perform a s = Some s'.
Definition reachable (s : Jwks) : Prop := ∃ start warmup, rtc step (with_provider start warmup) s.

(** ** The discipline of forced refreshes *)

(** Between claiming and clearing the in-flight flag. *)
Definition critical (ph : Call) : bool :=
  match ph with
  | Fetching | Storing _ | Stamping | Rereading | Releasing _ => true
  | _ => false
  end.

(** A fetch was started and has not ended. *)
Fixpoint open_fetch (l : list Event) : bool :=
  match l with
  | [] => false
  | Started _ :: _ => true
  | Ended :: _ => false
  | Stamped _ :: l' => open_fetch l'
  end.

(** Fetches do not overlap, and each starts at least 30 seconds after every earlier one
    that brought keys. *)
Fixpoint spaced (l : list Event) : Prop :=
  match l with
  | [] => True
  | Started t :: l' =>
      (∀ t0, Stamped t0 ∈ l' → (t0 + FORCE_REFRESH_DEBOUNCE_SECS ≤ t)%Z) ∧
      open_fetch l' = false ∧ spaced l'
  | Ended :: l' | Stamped _ :: l' => open_fetch l' = true ∧ spaced l'
  end.

(** The key under [kid] is of the kind [a] and some key set of the endpoint bound it. *)
Definition published_key (pub : list Keys) (kid : option string) (a : JwtAlgorithm)
    (vk : VerificationKey) : Prop :=
  kind_of vk = a ∧ ∃ keys, keys ∈ pub ∧ collect_keys keys !! kid = Some vk.

Definition call_ok (pub : list Keys) (c : Resolve) : Prop :=
  match phase c with
  | Storing keys => keys ∈ pub ∧ keys ≠ []
  | Releasing (Ok vk) | Answered (Ok vk) =>
      published_key pub (requested_kid c) (requested_alg c) vk
  | _ => True
  end.

Definition cache_ok (pub : list Keys) (m : Cache) : Prop :=
  m = ∅ ∨ ∃ keys, keys ∈ pub ∧ keys ≠ [] ∧ m = collect_keys keys.

Record Inv (s : Jwks) : Prop := {
  inv_time : (last_force_refresh s ≤ now s)%Z;
  inv_cache : cache_ok (published s) (cache s);
  inv_calls : map_Forall (λ _, call_ok (published s)) (calls s);
  inv_flag : ∀ i c, calls s !! i = Some c → critical (phase c) = true →
    refresh_in_flight s = true;
  inv_unique : ∀ i j c d, calls s !! i = Some c → calls s !! j = Some d →
    critical (phase c) = true → critical (phase d) = true → i = j;
  inv_open : open_fetch (log s) = refresh_in_flight s;
  inv_stamps : ∀ t, Stamped t ∈ log s → (t ≤ last_force_refresh s)%Z;
  inv_spaced : spaced (log s);
}.

Lemma vk_to_result_Ok vk a vk' : vk_to_result vk a = Ok vk' → vk' = vk ∧ kind_of vk = a.
Proof. destruct vk, a; by intros [= <-]. Qed.

Lemma published_mono pub keys kid a vk :
  published_key pub kid a vk → published_key (keys :: pub) kid a vk.
Proof. intros [Hk (ks & Hin & Hl)]. split; [done|]. exists ks. split; [by right|done]. Qed.

Lemma call_ok_mono pub keys c : call_ok pub c → call_ok (keys :: pub) c.
Proof.
  unfold call_ok. destruct (phase c) as [| | | | | |[]|[]]; auto using published_mono.
  intros []. split; [by right|done].
Qed.

Lemma cache_ok_mono pub keys m : cache_ok pub m → cache_ok (keys :: pub) m.
Proof. intros [->|(ks & ? & ? & ?)]; [by left|]. right. exists ks. split_and!; [by right|done..]. Qed.

(** What the cache answers is published. *)
Lemma cached_is_published pub m kid a vk vk' :
  cache_ok pub m → m !! kid = Some vk → vk_to_result vk a = Ok vk' → published_key pub kid a vk'.
Proof.
  intros Hm Hl [-> Hk]%vk_to_result_Ok. split; [done|].
  destruct Hm as [->|(keys & Hin & _ & ->)]; [by rewrite lookup_empty in Hl|]. eauto.
Qed.

(** A call moves to a phase: the rest of the state is as it was, up to the flag. *)
Lemma Inv_move s s' i c ph :
  Inv s → calls s !! i = Some c → calls s' = calls s →
  (critical ph = true → refresh_in_flight s' = true ∧
     (critical (phase c) = true ∨ refresh_in_flight s = false)) →
  (refresh_in_flight s' = refresh_in_flight s ∨ refresh_in_flight s' = true ∨
   critical (phase c) = true) →
  (∃ extra, published s' = extra ++ published s) →
  call_ok (published s') (mk_resolve (requested_kid c) (requested_alg c) ph) →
  cache_ok (published s') (cache s') →
  (last_force_refresh s' ≤ now s')%Z →
  open_fetch (log s') = refresh_in_flight s' →
  (∀ t, Stamped t ∈ log s' → (t ≤ last_force_refresh s')%Z) →
  spaced (log s') → Inv (set_phase i c ph s').
Proof.
  intros HI Hi Hc Hcrit Hflag [extra Hpub] Hok Hca Ht Ho Hst Hsp.
  assert (∀ c', call_ok (published s) c' → call_ok (published s') c') as Hmono.
  { intros c' Hc'. rewrite Hpub. clear -Hc'. induction extra; simpl; auto using call_ok_mono. }
  split; try done; cbn [calls set_phase]; rewrite Hc.
  - apply map_Forall_insert_2; [done|]. intros j d Hd. apply Hmono. eapply (inv_calls s HI), Hd.
  - intros j d Hd Hcd. insert_cases Hd; [by apply Hcrit|].
    pose proof (inv_flag s HI j d Hd Hcd) as Hf. cbn.
    destruct Hflag as [->|[?|Hp]]; [done..|]. by destruct (inv_unique s HI i j c d Hi Hd Hp Hcd).
  - assert (∀ j d, calls s !! j = Some d → critical (phase d) = true → critical ph = true → i = j)
      as Hone.
    { intros j d Hd Hcd Hph. destruct (Hcrit Hph) as [_ [Hp|Hf]].
      - by apply (inv_unique s HI i j c d).
      - pose proof (inv_flag s HI j d Hd Hcd). congruence. }
    intros j k d e Hd He Hcd Hce. insert_cases Hd; insert_cases He; try done.
    + by apply (Hone k e).
    + symmetry. by apply (Hone j d).
    + by apply (inv_unique s HI j k d e).
Qed.

Lemma Inv_init start warmup : Inv (with_provider start warmup).
Proof.
  unfold with_provider, FORCE_REFRESH_INITIAL_AGE_SECS, FORCE_REFRESH_DEBOUNCE_SECS.
  assert (∀ m pub, cache_ok pub m → Inv (mk_jwks m (start - (30 + 1)) false start ∅ pub [])) as H.
  { intros m pub Hm. split; simpl; try done; try lia; try (intros *; rewrite lookup_empty; done).
    set_solver. }
  destruct warmup as [[keys|]|]; apply H; [|by left..].
  case_decide; [by left|]. right. exists keys. split_and!; [left|done..].
Qed.

(** [move_call HI Hi]: the call moves; what is left is what the move changed. *)
#[local] Ltac move_call HI Hi :=
  match type of Hi with
  | calls ?s !! ?i = Some ?c =>
      apply (Inv_move s _ i c _ HI Hi); simpl;
      try match goal with H : phase c = _ |- _ => rewrite H end; simpl;
      try done; try lia; auto; try congruence; try (by exists [])
  end.

Lemma Inv_resolve_step s s' i c :
  Inv s → calls s !! i = Some c → resolve_step i c s = Some s' → Inv s'.
Proof.
  intros HI Hi. pose proof (inv_cache s HI) as Hca. pose proof (inv_time s HI) as Ht.
  pose proof (inv_open s HI) as Ho. pose proof (inv_stamps s HI) as Hst.
  pose proof (inv_spaced s HI) as Hsp. pose proof (inv_calls s HI i c Hi) as Hok.
  pose proof (inv_flag s HI i c Hi) as Hf.
  unfold call_ok in Hok. unfold resolve_step. destruct (phase c) as [| | |keys| | |r|r] eqn:Hph;
    try done; simpl in Hf.
  - (* Looking *)
    destruct (cache s !! requested_kid c) as [vk|] eqn:Hl; intros [= <-]; move_call HI Hi.
    unfold call_ok; simpl. destruct (vk_to_result vk (requested_alg c)) eqn:Hr; [|done].
    eauto using cached_is_published.
  - (* Deciding *)
    case_decide as Hd; [|destruct (refresh_in_flight s) eqn:Hfl]; intros [= <-]; move_call HI Hi.
    + intros t [Heq|Hin]%elem_of_cons; [done|]. by apply Hst.
    + split_and!; [|done..]. intros t0 Ht0. apply Hst in Ht0.
      unfold FORCE_REFRESH_DEBOUNCE_SECS in *. lia.
  - (* Storing *)
    intros [= <-]. specialize (Hf eq_refl). destruct Hok as [Hin Hne]. move_call HI Hi.
    right. eauto.
  - (* Stamping *)
    intros [= <-]. specialize (Hf eq_refl). move_call HI Hi.
    + intros t [[= ->]|Hin]%elem_of_cons; [lia|]. apply Hst in Hin. lia.
    + split; [by rewrite Ho|done].
  - (* Rereading *)
    specialize (Hf eq_refl).
    destruct (cache s !! requested_kid c) as [vk|] eqn:Hl; intros [= <-]; move_call HI Hi.
    unfold call_ok; simpl. destruct (vk_to_result vk (requested_alg c)) eqn:Hr; [|done].
    eauto using cached_is_published.
  - (* Releasing *)
    intros [= <-]. specialize (Hf eq_refl). move_call HI Hi.
    + intros t [Heq|Hin]%elem_of_cons; [done|]. by apply Hst.
    + split; [by rewrite Ho|done].
Qed.

(** New keys appear, in the cache or not. *)
Lemma Inv_publish s keys m :
  Inv s → m = cache s ∨ keys ≠ [] ∧ m = collect_keys keys → Inv (publish keys (set_cache m s)).
Proof.
  intros HI Hm. destruct HI as [Ht Hca Hc Hf Hu Ho Hst Hsp]. split; simpl; try done.
  - destruct Hm as [->|[Hne ->]]; [by apply cache_ok_mono|]. right. exists keys.
    split_and!; [left|done..].
  - eapply map_Forall_impl; [done|]. intros; by apply call_ok_mono.
Qed.

Lemma Inv_perform a s s' : Inv s → perform a s = Some s' → Inv s'.
Proof.
  intros HI. destruct a as [i kid a|i|i r|r|d]; simpl.
  - destruct (calls s !! i) eqn:Hi; [done|]. intros [= <-].
    destruct HI as [Ht Hca Hc Hf Hu Ho Hst Hsp]. split; simpl; try done.
    + by apply map_Forall_insert_2.
    + intros j c Hj Hcr. insert_cases Hj; eauto.
    + intros j k c e Hj Hk Hcc Hce. insert_cases Hj; try done; insert_cases Hk; eauto.
  - destruct (calls s !! i) as [c|] eqn:Hi; simpl; [|done]. by apply Inv_resolve_step.
  - destruct (calls s !! i) as [c|] eqn:Hi; simpl; [|done].
    destruct (phase c) eqn:Hph; try done. intros [= <-].
    assert (critical (phase c) = true) as Hcr by (by rewrite Hph).
    pose proof (inv_flag s HI i c Hi Hcr) as Hf.
    assert (Inv (set_phase i c Rereading s)) as Hre by (move_call HI Hi; apply HI).
    unfold force_refresh. destruct r as [[keys|e]|]; [|exact Hre..].
    case_decide as Hne; [exact Hre|]. move_call HI Hi; try apply HI.
    + by exists [keys].
    + split; [left|done].
    + apply cache_ok_mono, HI.
  - intros [= <-]. unfold background_refresh. destruct r as [keys|]; [|done].
    case_decide as Hne; [done|]. apply Inv_publish; auto.
  - case_decide; [|done]. intros [= <-]. destruct HI. split; simpl; try done. lia.
Qed.

Lemma reachable_Inv s : reachable s → Inv s.
Proof.
  intros (start & warmup & Hr). pose proof (Inv_init start warmup) as HI.
  induction Hr as [|s s1 s' [a Ha] _ IH]; [done|]. apply IH. by eapply Inv_perform.
Qed.

(** A sequence of actions. *)
Fixpoint run (acts : list Action) (s : Jwks) : option Jwks :=
  match acts with
  | [] => Some s
  | a :: acts' => s' ← perform a s; run acts' s'
  end.

Lemma jwks_run_steps acts s s' : run acts s = Some s' → rtc step s s'.
Proof.
  revert s. induction acts as [|a acts IH]; intros s; simpl; [by intros [= ->]|].
  destruct (perform a s) as [s1|] eqn:Ha; simpl; [|done]. intros Hr.
  eapply rtc_l; [by exists a|by apply IH].
Qed.

(** A lone call that misses, fetches [keys] and answers. *)
Definition lone_refresh (i : nat) (kid : option string) (a : JwtAlgorithm) (keys : Keys) :
    list Action :=
  [Begin i kid a; Proceed i; Proceed i; Receive i (Some (Ok keys)); Proceed i; Proceed i;
   Proceed i; Proceed i].

Lemma run_cons a acts s s1 r : perform a s = Some s1 → run acts s1 = r → run (a :: acts) s = r.
Proof. intros Ha <-. cbn [run]. by rewrite Ha. Qed.

Lemma perform_proceed i c s s' :
  calls s !! i = Some c → resolve_step i c s = Some s' → perform (Proceed i) s = Some s'.
Proof. intros Hi Hr. cbn [perform]. by rewrite Hi. Qed.

Lemma perform_receive i c r s :
  calls s !! i = Some c → phase c = Fetching →
  perform (Receive i r) s = Some (force_refresh i c r s).
Proof. intros Hi Hp. cbn [perform]. rewrite Hi. cbn. by rewrite Hp. Qed.

Lemma calls_set_phase i c ph s :
  calls (set_phase i c ph s) !! i = Some (mk_resolve (requested_kid c) (requested_alg c) ph).
Proof. apply lookup_insert_eq. Qed.

(** A fetch that brings no keys changes neither the cache nor the timer. *)
Lemma failed_fetch_keeps_cache s j c r :
  (∀ ks, r = Some (Ok ks) → ks = []) → force_refresh j c r s = set_phase j c Rereading s.
Proof.
  intros Hr. unfold force_refresh. destruct r as [[ks|]|]; [|done..].
  rewrite (Hr ks eq_refl). by rewrite decide_True.
Qed.

(** A miss within the debounce window is answered at once. *)
Lemma miss_is_debounced s j c :
  phase c = Deciding → (now s - last_force_refresh s < FORCE_REFRESH_DEBOUNCE_SECS)%Z →
  resolve_step j c s = Some (set_phase j c (Answered (Err (KeyNotFound (requested_kid c)))) s).
Proof. intros Hp Ht. unfold resolve_step. rewrite Hp. by rewrite decide_True. Qed.

(** The state a lone refresh ends in. *)
Definition refreshed (i : nat) (kid : option string) (a : JwtAlgorithm) (keys : Keys)
    (r : result KeyResolverError VerificationKey) (s s' : Jwks) : Prop :=
  calls s' !! i = Some (mk_resolve kid a (Answered r)) ∧ cache s' = collect_keys keys ∧
  last_force_refresh s' = now s ∧ now s' = now s ∧ refresh_in_flight s' = false.

Lemma lone_refresh_runs s i kid a keys vk :
  calls s !! i = None → cache s !! kid = None → refresh_in_flight s = false →
  (FORCE_REFRESH_DEBOUNCE_SECS ≤ now s - last_force_refresh s)%Z →
  keys ≠ [] → collect_keys keys !! kid = Some vk →
  ∃ s', run (lone_refresh i kid a keys) s = Some s' ∧
    refreshed i kid a keys (vk_to_result vk a) s s'.
Proof.
  intros Hi Hl Hf Ht Hne Hk. eexists. split.
  - unfold lone_refresh.
    eapply run_cons; [cbn [perform]; rewrite Hi; reflexivity|].
    eapply run_cons; [eapply perform_proceed; [apply calls_set_phase|];
      unfold resolve_step; cbn [phase requested_kid cache set_phase]; rewrite Hl; reflexivity|].
    eapply run_cons; [eapply perform_proceed; [apply calls_set_phase|];
      unfold resolve_step; cbn [phase now last_force_refresh refresh_in_flight set_phase];
      rewrite decide_False by lia; rewrite Hf; reflexivity|].
    eapply run_cons; [eapply perform_receive; [apply calls_set_phase|reflexivity]|].
    unfold force_refresh. rewrite decide_False by done.
    do 2 (eapply run_cons; [eapply perform_proceed; [apply calls_set_phase|reflexivity]|]).
    eapply run_cons; [eapply perform_proceed; [apply calls_set_phase|];
      unfold resolve_step; cbn [phase requested_kid cache set_phase set_cache note set_timer];
      rewrite Hk; reflexivity|].
    eapply run_cons; [eapply perform_proceed; [apply calls_set_phase|reflexivity]|]. reflexivity.
  - split_and!; [apply calls_set_phase|reflexivity..].
Qed.

(** C16: However the calls of [resolve] and the background task interleave, at most one
    forced fetch is in flight, and a forced fetch starts only when at least 30 seconds
    have passed since every earlier one that brought keys: unknown key ids cannot make
    the resolver flood a healthy endpoint. *)
Theorem forced_refreshes_are_spaced (s : Jwks) :
  reachable s →
  spaced (log s) ∧ open_fetch (log s) = refresh_in_flight s ∧
  ∀ i j c d, calls s !! i = Some c → calls s !! j = Some d →
    critical (phase c) = true → critical (phase d) = true → i = j.
Proof. intros HI%reachable_Inv. split_and!; apply HI. Qed.

(** A key the resolver answers for a key id and an algorithm is of that
    algorithm's kind, and some key set the endpoint returned bound it to that key id:
    keys are never mixed up, whatever the interleaving and however stale the cache. *)
Lemma resolved_key_was_published (s : Jwks) (i : nat) (c : Resolve) (vk : VerificationKey) :
  reachable s → calls s !! i = Some c → phase c = Answered (Ok vk) →
  kind_of vk = requested_alg c ∧
  ∃ keys, keys ∈ published s ∧ collect_keys keys !! requested_kid c = Some vk.
Proof.
  intros HI%reachable_Inv Hi Hph. pose proof (inv_calls s HI i c Hi) as Hok.
  unfold call_ok in Hok. by rewrite Hph in Hok.
Qed.

(** A miss with no other fetch in flight and no refresh in the last 30 seconds
    fetches, and is answered with the new key set; a miss within 30 seconds of that is
    answered without a fetch.  A failed, empty or panicked fetch leaves the cache and
    the timer alone, so known keys keep working and the next miss may try again. *)
Lemma rotated_key_is_found (s : Jwks) (i : nat) (kid : option string) (a : JwtAlgorithm)
    (keys : Keys) (vk : VerificationKey) :
  calls s !! i = None → cache s !! kid = None → refresh_in_flight s = false →
  (FORCE_REFRESH_DEBOUNCE_SECS ≤ now s - last_force_refresh s)%Z →
  keys ≠ [] → collect_keys keys !! kid = Some vk →
  (∃ s', run (lone_refresh i kid a keys) s = Some s' ∧
     refreshed i kid a keys (vk_to_result vk a) s s' ∧
     ∀ j c, calls s' !! j = Some c → phase c = Deciding →
       perform (Proceed j) s' =
         Some (set_phase j c (Answered (Err (KeyNotFound (requested_kid c)))) s')) ∧
  (∀ j c r, calls s !! j = Some c → phase c = Fetching → (∀ ks, r = Some (Ok ks) → ks = []) →
     perform (Receive j r) s = Some (set_phase j c Rereading s)).
Proof.
  intros Hi Hl Hf Ht Hne Hk. split.
  - destruct (lone_refresh_runs s i kid a keys vk) as (s' & Hrun & Href); [done..|].
    exists s'. split_and!; [done..|]. intros j c Hj Hp. apply (perform_proceed j c); [done|].
    apply miss_is_debounced; [done|]. destruct Href as (_ & _ & -> & -> & _).
    unfold FORCE_REFRESH_DEBOUNCE_SECS. lia.
  - intros j c r Hj Hp Hr. rewrite (perform_receive j c) by done. by rewrite failed_fetch_keeps_cache.
Qed.

(** ** Witnesses *)
Module Example_jwks.
Definition keys : Keys := [(Some "k1", RsaPem "pem1"); (Some "k2", EcPem "pem2")].
Definition initial : Jwks := with_provider 100 None.

(** Two calls miss together: one fetches, the other is turned away. *)
Definition acts : list Action :=
  [Begin 0 (Some "k1") Rs256; Begin 1 (Some "k2") Es256; Proceed 0; Proceed 1; Proceed 1;
   Proceed 0; Tick 2; Receive 1 (Some (Ok keys)); Proceed 1; Proceed 1; Proceed 1; Proceed 1].
Definition final : Jwks := default initial (run acts initial).

Lemma final_reachable : reachable final.
Proof. exists 100%Z, None. apply (jwks_run_steps acts). by vm_compute. Qed.

Lemma forced_refreshes_are_spaced_witness :
  log final = [Ended; Stamped 102; Started 100] ∧ spaced (log final).
Proof. split; [by vm_compute|]. apply (forced_refreshes_are_spaced final final_reachable). Defined.

Lemma resolved_key_was_published_witness :
  kind_of (EcPem "pem2") = Es256 ∧
  ∃ ks, ks ∈ published final ∧ collect_keys ks !! Some "k2" = Some (EcPem "pem2").
Proof.
  apply (resolved_key_was_published final 1 (mk_resolve (Some "k2") Es256 (Answered (Ok (EcPem "pem2"))))
           (EcPem "pem2") final_reachable); by vm_compute.
Defined.

Lemma rotated_key_is_found_witness :
  ∃ s', run (lone_refresh 7 (Some "k1") Rs256 keys) initial = Some s' ∧
    calls s' !! 7 = Some (mk_resolve (Some "k1") Rs256 (Answered (Ok (RsaPem "pem1")))).
Proof.
  destruct (rotated_key_is_found initial 7 (Some "k1") Rs256 keys (RsaPem "pem1"))
    as [(s' & Hrun & [Hans _] & _) _]; [by vm_compute..|]. by exists s'.
Defined.
End Example_jwks.
