(* ===== verification/Introspection.v ===== *)
(** * OIDC configuration and token introspection

    The configuration of crates/security-jwt, oidc_config.rs, and the introspection
    provider with its cache, introspection.rs.

    A [url::Url] is the scheme and the host its accessors return.  The introspection
    endpoint, the digest and the mapper are arguments.  A call reads the cache,
    introspects, and only then locks the cache to store, so it takes two states: the
    one it looked up in and the one it stores into, with other calls in between. *)

From S2P Require Import Prelude Identity Fingerprint Security ClaimSet Jwt.

(** ** Configuration *)
Record Url := mk_url { scheme : string; host_str : option string }.

Inductive TokenFormat := FormatJwt | FormatOpaque | FormatAuto.

Record OidcProviderConfig := mk_oidc_config {
  issuer_url : option Url;
  jwks_uri : option Url;
  oidc_expected_iss : option string;
  oidc_expected_aud : option (list string);
  oidc_leeway_seconds : option N;
  jwks_refresh_ttl_seconds : option N;
  token_format : option TokenFormat;
  introspection_endpoint : option Url;
  introspection_client_id : option string;
  introspection_client_secret : option string;
  introspection_cache_ttl_seconds : option N;
  allowed_algorithms : option (list JwtAlgorithm);
}.

Definition OidcProviderConfig_default : OidcProviderConfig :=
  mk_oidc_config None None None None None None None None None None None None.

Definition validate_url_requires_https (url : Url) (field : string) :
    result AuthenticationError () :=
  if decide (scheme url = "https") then Ok ()
  else if decide (scheme url = "http") then
    let host := default "" (host_str url) in
    if decide (host = "localhost" ∨ host = "127.0.0.1" ∨ host = "[::1]") then Ok ()
    else Err (ProviderUnavailable
                (field +:+ " must use https (http allowed only for localhost/127.0.0.1/[::1])"))
  else Err (ProviderUnavailable
              (field +:+ " has unsupported scheme '" +:+ scheme url +:+ "' — must be https")).

(** [if let Some(url) = … { validate_url_requires_https(url, field)?; }] *)
Definition validate_opt (url : option Url) (field : string) : result AuthenticationError () :=
  match url with Some u => validate_url_requires_https u field | None => Ok () end.

(** A guard of a function that returns early. *)
Definition refuse_if (b : bool) (msg : string) : result AuthenticationError () :=
  if b then Err (ProviderUnavailable msg) else Ok ().

Definition is_none {A} (o : option A) : bool := match o with None => true | Some _ => false end.
Definition is_some {A} (o : option A) : bool := negb (is_none o).

Definition MAX_INTROSPECTION_CACHE_TTL_SECS : N := 300.

Definition oidc_validate (c : OidcProviderConfig) : result AuthenticationError () :=
  _ ← refuse_if (is_none (issuer_url c) && is_none (jwks_uri c))
        "either issuer_url or jwks_uri must be configured";
  _ ← validate_opt (jwks_uri c) "jwks_uri";
  _ ← validate_opt (issuer_url c) "issuer_url";
  _ ← validate_opt (introspection_endpoint c) "introspection_endpoint";
  _ ← refuse_if (is_some (introspection_endpoint c) &&
                 (is_none (introspection_client_id c) || is_none (introspection_client_secret c)))
        "introspection_endpoint requires introspection_client_id and introspection_client_secret";
  _ ← refuse_if (is_none (introspection_endpoint c) &&
                 (is_some (introspection_client_id c) || is_some (introspection_client_secret c)))
        "introspection_client_id/secret set without introspection_endpoint";
  _ ← match introspection_cache_ttl_seconds c with
      | None => Ok ()
      | Some ttl =>
          _ ← refuse_if (bool_decide (ttl = 0%N))
                "introspection_cache_ttl_seconds must be >= 1 (use None to disable cache)";
          refuse_if (bool_decide (MAX_INTROSPECTION_CACHE_TTL_SECS < ttl)%N)
            "introspection_cache_ttl_seconds must be <= 300 (longer TTLs defeat token revocation)"
      end;
  _ ← match allowed_algorithms c with
      | None => Ok ()
      | Some algs => refuse_if (bool_decide (algs = [])) "allowed_algorithms must not be empty"
      end;
  refuse_if (is_some (jwks_uri c) && is_none (oidc_expected_iss c))
    "expected_iss is required when jwks_uri is configured — without it, tokens from any issuer are accepted".

(** ** The cache *)
Record IntrospectionResult := mk_introspection {
  active : bool;
  introspected_claims : option ClaimSet;
}.

Abbreviation Key := (list Byte.byte).
#[export] Instance byte_countable : Countable Byte.byte :=
  inj_countable Byte.to_N Byte.of_N Byte.of_to_N.

Record IntroCache := mk_intro {
  entries : gmap Key (Z * SecurityContext);
  eviction_queue : list (Key * Z);
}.

Definition intro_empty : IntroCache := mk_intro ∅ [].

Definition MAX_INTROSPECTION_CACHE_ENTRIES : Z := 10000.

(** [now.saturating_sub(inserted_at)] *)
Definition saturating_sub_i64 (a b : Z) : Z := Z.max i64_min (Z.min i64_max (a - b)).

(** [u64::try_from(…).unwrap_or(u64::MAX)] *)
Definition age (now inserted_at : Z) : Z :=
  let d := saturating_sub_i64 now inserted_at in if decide (0 ≤ d)%Z then d else u64_max.

Definition fresh (ttl : N) (now inserted_at : Z) : bool :=
  bool_decide (age now inserted_at < Z.of_N ttl)%Z.

Definition cached (ttl : N) (now : Z) (key : Key) (s : IntroCache) : option SecurityContext :=
  match entries s !! key with
  | Some (inserted_at, ctx) => if fresh ttl now inserted_at then Some ctx else None
  | None => None
  end.

(** The eviction loop: pop until a live entry goes. *)
Fixpoint evict (queue : list (Key * Z)) (m : gmap Key (Z * SecurityContext)) :
    list (Key * Z) * gmap Key (Z * SecurityContext) :=
  match queue with
  | [] => ([], m)
  | (k, queued_at) :: q =>
      match m !! k with
      | Some (inserted_at, _) =>
          if decide (inserted_at = queued_at) then (q, delete k m) else evict q m
      | None => evict q m
      end
  end.

Definition store (ttl : N) (now : Z) (key : Key) (ctx : SecurityContext) (s : IntroCache) :
    SecurityContext * IntroCache :=
  match cached ttl now key s with
  | Some existing => (existing, s)
  | None =>
      let '(q, m) :=
        if decide (MAX_INTROSPECTION_CACHE_ENTRIES ≤ Z.of_nat (size (entries s)))%Z
        then evict (eviction_queue s) (entries s) else (eviction_queue s, entries s) in
      if decide (Z.of_nat (size m) < MAX_INTROSPECTION_CACHE_ENTRIES)%Z
      then (ctx, mk_intro (<[key := (now, ctx)]> m) (q ++ [(key, now)]))
      else (ctx, mk_intro m q)
  end.

(** ** The provider *)
Section provider.
Context (introspect : string → option (result AuthenticationError IntrospectionResult)).
Context (sha256 : list Byte.byte → Key).

Record IntrospectionProvider := mk_intro_provider {
  endpoint : Url;
  credentials : string * string;
  cache_ttl : option N;
  intro_mapper : PrincipalMapper;
}.

Definition MAX_CACHE_TTL : N := 300.

Definition intro_with_provider (config : OidcProviderConfig) (mapper : PrincipalMapper) :
    result AuthenticationError IntrospectionProvider :=
  endpoint ← ok_or (ProviderUnavailable "introspection_endpoint is required")
               (introspection_endpoint config);
  _ ← validate_url_requires_https endpoint "introspection_endpoint";
  client_id ← ok_or (ProviderUnavailable "introspection_client_id is required")
                (introspection_client_id config);
  client_secret ← ok_or (ProviderUnavailable "introspection_client_secret is required")
                    (introspection_client_secret config);
  ttl ← match introspection_cache_ttl_seconds config with
        | None => Ok None
        | Some ttl =>
            if decide (ttl = 0%N ∨ (MAX_CACHE_TTL < ttl)%N)
            then Err (ProviderUnavailable "introspection_cache_ttl_seconds must be 1..=300")
            else Ok (Some ttl)
        end;
  Ok (mk_intro_provider endpoint (client_id, client_secret) ttl mapper).

Definition cache_key (token : string) : Key := sha256 (string_bytes token).

Definition call_introspect (token : string) : result AuthenticationError IntrospectionResult :=
  match introspect token with
  | Some r => r
  | None => Err (ProviderUnavailable
                   "introspection did not complete (pool exhausted or task dropped)")
  end.

(** What the endpoint and the mapper make of a token. *)
Definition introspected (p : IntrospectionProvider) (token : string) :
    result AuthenticationError SecurityContext :=
  r ← call_introspect token;
  if active r then
    claim_set ← ok_or (ProviderUnavailable "active:true but claims absent — protocol error")
                  (introspected_claims r);
    '(pr, cl) ← intro_mapper p claim_set;
    Ok (mk_security pr cl)
  else Err (InvalidToken "token is not active").

(** [now] is [clock.now().timestamp()]; [s] is the cache when the call looks, [s'] when
    it stores. *)
Definition intro_authenticate (p : IntrospectionProvider) (now : Z) (credential : Credential)
    (s s' : IntroCache) : result AuthenticationError SecurityContext * IntroCache :=
  match credential with
  | Bearer token =>
      if decide (MAX_TOKEN_BYTES < str_len token)%Z
      then (Err (InvalidToken "token exceeds 8 KiB limit"), s')
      else
        match cache_ttl p ≫= λ ttl, cached ttl now (cache_key token) s with
        | Some ctx => (Ok ctx, s')
        | None =>
            match introspected p token with
            | Err e => (Err e, s')
            | Ok ctx =>
                match cache_ttl p with
                | None => (Ok ctx, s')
                | Some ttl =>
                    let '(answer, s'') := store ttl now (cache_key token) ctx s' in
                    (Ok answer, s'')
                end
            end
        end
  | _ => (Err (InvalidToken "unsupported credential type"), s')
  end.
End provider.

(** ** The cache is bounded, live and honest *)

(** Contexts the endpoint vouched for, with the key and the time of the call. *)
Definition Vouched : Type := list (Key * Z * SecurityContext).

Inductive intro_step (ttl : N) : IntroCache * Vouched → IntroCache * Vouched → Prop :=
| intro_stores s v key now ctx :
    intro_step ttl (s, v) ((store ttl now key ctx s).2, (key, now, ctx) :: v).

Definition intro_reachable (ttl : N) (s : IntroCache) (v : Vouched) : Prop :=
  rtc (intro_step ttl) (intro_empty, []) (s, v).

(** Every entry is queued for eviction under its own time. *)
Definition queued (q : list (Key * Z)) (m : gmap Key (Z * SecurityContext)) : Prop :=
  ∀ k t ctx, m !! k = Some (t, ctx) → (k, t) ∈ q.

Lemma evict_spec q m q' m' :
  queued q m → evict q m = (q', m') →
  queued q' m' ∧ m' ⊆ m ∧ (m ≠ ∅ → S (size m') = size m).
Proof.
  revert m. induction q as [|[k t] q IH]; intros m Hq; simpl.
  { intros [= <- <-]. split_and!; [done..|]. intros Hm. exfalso. apply Hm, map_empty.
    intros k. destruct (m !! k) as [[t ctx]|] eqn:Hk; [|done]. by apply Hq, not_elem_of_nil in Hk. }
  assert (∀ t', (∃ ctx, m !! k = Some (t', ctx)) → t' ≠ t → queued q m) as Hskip.
  { intros t' [ctx Hk] Hne k' u ctx' Hk'. pose proof (Hq k' u ctx' Hk') as Hin.
    apply elem_of_cons in Hin as [[= -> ->]|Hin]; [|done]. simplify_eq. }
  destruct (m !! k) as [[t' ctx]|] eqn:Hk.
  - case_decide as Ht.
    + intros [= <- <-]. split_and!.
      * intros k' u ctx' Hk'. delete_cases Hk'. pose proof (Hq k' u ctx' Hk') as Hin.
        apply elem_of_cons in Hin as [[= -> ->]|Hin]; [|done]. done.
      * apply delete_subseteq.
      * intros _. rewrite map_size_delete_Some by eauto.
        assert (size m ≠ 0) by (intros ->%map_size_empty_inv; by rewrite lookup_empty in Hk). lia.
    + apply IH. eapply Hskip; eauto.
  - apply IH. intros k' u ctx' Hk'. pose proof (Hq k' u ctx' Hk') as Hin.
    apply elem_of_cons in Hin as [[= -> ->]|Hin]; [|done]. simplify_eq.
Qed.

Definition intro_ok (s : IntroCache) (v : Vouched) : Prop :=
  queued (eviction_queue s) (entries s) ∧
  (Z.of_nat (size (entries s)) ≤ MAX_INTROSPECTION_CACHE_ENTRIES)%Z ∧
  ∀ k t ctx, entries s !! k = Some (t, ctx) → (k, t, ctx) ∈ v.

(** A context that is not cached fresh is stored, whatever the cache holds. *)
Lemma store_spec ttl now key ctx s v :
  intro_ok s v → cached ttl now key s = None →
  ∃ q m, store ttl now key ctx s = (ctx, mk_intro (<[key := (now, ctx)]> m) (q ++ [(key, now)])) ∧
    queued q m ∧ m ⊆ entries s ∧ (Z.of_nat (size m) < MAX_INTROSPECTION_CACHE_ENTRIES)%Z.
Proof.
  intros (Hq & Hsz & _) Hc. unfold store. rewrite Hc. case_decide as Hfull.
  - destruct (evict (eviction_queue s) (entries s)) as [q m] eqn:He.
    destruct (evict_spec _ _ _ _ Hq He) as (Hq' & Hsub & Hone).
    assert (Z.of_nat (size m) < MAX_INTROSPECTION_CACHE_ENTRIES)%Z as Hlt.
    { specialize (Hone ltac:(intros H; rewrite H in Hfull; vm_compute in Hfull; done)).
      unfold MAX_INTROSPECTION_CACHE_ENTRIES in *. lia. }
    rewrite decide_True by done. by exists q, m.
  - rewrite decide_True by lia. exists (eviction_queue s), (entries s). split_and!; [done..|lia].
Qed.

Lemma intro_ok_step ttl s v now key ctx :
  intro_ok s v → intro_ok (store ttl now key ctx s).2 ((key, now, ctx) :: v).
Proof.
  intros Hok. destruct (cached ttl now key s) as [old|] eqn:Hc.
  - unfold store. rewrite Hc. destruct Hok as (Hq & Hsz & Hv). split_and!; [done..|].
    intros k t c Hk. right. by apply Hv.
  - destruct (store_spec ttl now key ctx s v Hok Hc) as (q & m & -> & Hq & Hsub & Hlt).
    destruct Hok as (_ & _ & Hv). split_and!; simpl.
    + intros k t c Hk. insert_cases Hk; apply elem_of_app; [right; left|left; by eapply Hq].
    + rewrite map_size_insert. destruct (m !! key); simpl; lia.
    + intros k t c Hk. insert_cases Hk; [left|]. right. apply Hv. by eapply lookup_weaken.
Qed.

Lemma intro_reachable_ok ttl s v : intro_reachable ttl s v → intro_ok s v.
Proof.
  unfold intro_reachable. intros Hr.
  enough (∀ x y, rtc (intro_step ttl) x y → intro_ok x.1 x.2 → intro_ok y.1 y.2) as H.
  { apply (H _ _ Hr). split_and!; [|by vm_compute|]; intros k t c Hk; simpl in Hk;
      by rewrite lookup_empty in Hk. }
  clear. intros x y Hr. induction Hr as [|x x1 y Hs _ IH]; [done|]. intros Hx. apply IH.
  destruct Hs as [s v key now ctx]. by apply intro_ok_step.
Qed.

Lemma cached_vouched ttl now key s v ctx :
  intro_ok s v → cached ttl now key s = Some ctx →
  ∃ t, (key, t, ctx) ∈ v ∧ (age now t < Z.of_N ttl)%Z.
Proof.
  intros (_ & _ & Hv). unfold cached. destruct (entries s !! key) as [[t c]|] eqn:Hk; [|done].
  unfold fresh. case_bool_decide; [|done]. intros [= <-]. exists t. split; [by apply Hv|done].
Qed.

Lemma intro_steps_mono ttl s v s' v' :
  rtc (intro_step ttl) (s, v) (s', v') → v ⊆ v'.
Proof.
  intros Hr. change (v ⊆ v') with ((s, v).2 ⊆ (s', v').2). induction Hr as [|x x1 y Hs _ IH]; [done|].
  destruct Hs. simpl in *. set_solver.
Qed.

(** A fresh age is the true one. *)
Lemma age_recent now t (ttl : N) :
  (ttl ≤ MAX_CACHE_TTL)%N → (age now t < Z.of_N ttl)%Z → (0 ≤ now - t < Z.of_N ttl)%Z.
Proof.
  unfold age, saturating_sub_i64, MAX_CACHE_TTL, i64_min, i64_max, u64_max. case_decide; lia.
Qed.

Lemma provider_ttl config mapper p ttl :
  intro_with_provider config mapper = Ok p → cache_ttl p = Some ttl → (1 ≤ ttl ≤ MAX_CACHE_TTL)%N.
Proof.
  unfold intro_with_provider. intros (ep & _ & (u & _ & (id & _ & (sc & _ & Hp)%bind_Ok)%bind_Ok)%bind_Ok)%bind_Ok.
  apply bind_Ok in Hp as (o & Ho & [= <-]). simpl. intros ->.
  destruct (introspection_cache_ttl_seconds config) as [t|]; [|done].
  case_decide; [done|]. simplify_eq. lia.
Qed.

(** C17: Whatever tokens arrive and however the clock moves, the introspection cache
    never holds more than its limit, and a context just obtained is always cached: the
    branch that gives up storing for want of a live entry to evict is never taken. *)
Theorem introspection_cache_is_live (ttl : N) (s : IntroCache) (v : Vouched) (now : Z) (key : Key)
    (ctx : SecurityContext) :
  intro_reachable ttl s v → (0 < ttl)%N →
  (Z.of_nat (size (entries s)) ≤ MAX_INTROSPECTION_CACHE_ENTRIES)%Z ∧
  cached ttl now key (store ttl now key ctx s).2 = Some (store ttl now key ctx s).1.
Proof.
  intros Hok%intro_reachable_ok Httl. split; [apply Hok|].
  destruct (cached ttl now key s) as [old|] eqn:Hc.
  - unfold store. by rewrite Hc.
  - destruct (store_spec ttl now key ctx s v Hok Hc) as (q & m & -> & _). simpl.
    unfold cached. simpl. rewrite lookup_insert_eq. unfold fresh, age, saturating_sub_i64.
    rewrite Z.sub_diag. by rewrite bool_decide_true by (vm_compute Z.max; rewrite decide_True; lia).
Qed.

(** A context answered for an opaque token is what the endpoint and the mapper make
    of it now, or what they made of a token of the same digest less than the cache's
    lifetime ago, which is at most 300 seconds: a revoked token is refused within five
    minutes.  Without a cache the endpoint is asked every time. *)
Lemma cached_context_is_recent introspect sha256 config mapper p ttl s v s' v' now token ctx :
  intro_with_provider config mapper = Ok p → default 1%N (cache_ttl p) = ttl →
  intro_reachable ttl s v → rtc (intro_step ttl) (s, v) (s', v') →
  (intro_authenticate introspect sha256 p now (Bearer token) s s').1 = Ok ctx →
  (str_len token ≤ 8192)%Z ∧
  (introspected introspect p token = Ok ctx ∨
   cache_ttl p = Some ttl ∧ (1 ≤ ttl ≤ 300)%N ∧
   ∃ t, (cache_key sha256 token, t, ctx) ∈ v' ∧ (0 ≤ now - t < Z.of_N ttl)%Z).
Proof.
  intros Hp Httl Hr Hrr. pose proof (intro_reachable_ok _ _ _ Hr) as Hok.
  assert (intro_ok s' v') as Hok' by (apply (intro_reachable_ok ttl); unfold intro_reachable in *; by etrans).
  pose proof (intro_steps_mono _ _ _ _ _ Hrr) as Hmono. unfold intro_authenticate.
  unfold MAX_TOKEN_BYTES. case_decide as Hlen; [done|]. intros H. split; [lia|]. revert H.
  destruct (cache_ttl p) as [ttl'|] eqn:Hct; simpl in *; subst.
  - pose proof (provider_ttl _ _ _ _ Hp Hct) as Hb.
    destruct (cached ttl now _ s) as [old|] eqn:Hc.
    + intros [= ->]. destruct (cached_vouched _ _ _ _ _ _ Hok Hc) as (t & Hin & Ha).
      right. split_and!; [done|apply Hb|apply Hb|]. exists t. split; [by apply Hmono|]. apply age_recent; [apply Hb|done].
    + destruct (introspected introspect p token) as [c|]; [|done]. unfold store.
      destruct (cached ttl now _ s') as [old|] eqn:Hc'; simpl.
      * intros [= ->]. destruct (cached_vouched _ _ _ _ _ _ Hok' Hc') as (t & Hin & Ha).
        right. split_and!; [done|apply Hb|apply Hb|]. exists t. split; [done|]. apply age_recent; [apply Hb|done].
      * destruct (if decide _ then _ else _) as [q m]. case_decide; simpl; intros [= ->]; by left.
  - destruct (introspected introspect p token) as [c|]; [|done]. intros [= ->]. by left.
Qed.

(** One key stored again each time its entry has just gone stale. *)
Lemma restored_grows ttl key ctx n :
  (0 < ttl ≤ MAX_CACHE_TTL)%N → (Z.of_nat n * Z.of_N ttl < i64_max)%Z →
  ∃ s v, intro_reachable ttl s v ∧ entries s = {[ key := ((Z.of_nat n * Z.of_N ttl)%Z, ctx) ]} ∧
    length (eviction_queue s) = S n.
Proof.
  unfold MAX_CACHE_TTL. intros Httl. induction n as [|n IH]; intros Hn.
  - eexists _, _. split_and!; [eapply rtc_once, (intro_stores ttl intro_empty [] key 0 ctx)|done|done].
  - destruct IH as (s & v & Hr & He & Hq); [lia|].
    set (now := (Z.of_nat (S n) * Z.of_N ttl)%Z).
    assert (cached ttl now key s = None) as Hc.
    { unfold cached. rewrite He, lookup_singleton_eq. unfold fresh, age, saturating_sub_i64.
      rewrite bool_decide_false; [done|]. subst now. unfold i64_min, i64_max in *. case_decide; lia. }
    exists (store ttl now key ctx s).2, ((key, now, ctx) :: v).
    split; [eapply rtc_r; [exact Hr|constructor]|]. unfold store. rewrite Hc, He, map_size_singleton.
    rewrite decide_False by (unfold MAX_INTROSPECTION_CACHE_ENTRIES; lia).
    rewrite map_size_singleton. rewrite decide_True by (unfold MAX_INTROSPECTION_CACHE_ENTRIES; lia).
    simpl. split; [by rewrite insert_singleton_eq|]. rewrite length_app, Hq. simpl. lia.
Qed.

(** The eviction queue is not bounded by the cache: a single token, introspected
    again whenever its entry goes stale, leaves one entry in the cache and one more in
    the queue each time, for as long as the clock can run. *)
Lemma eviction_queue_leaks (ttl : N) (key : Key) (ctx : SecurityContext) (n : nat) :
  (0 < ttl ≤ MAX_CACHE_TTL)%N → (Z.of_nat n * Z.of_N ttl < i64_max)%Z →
  ∃ s v, intro_reachable ttl s v ∧ size (entries s) = 1 ∧ length (eviction_queue s) = S n.
Proof.
  intros Httl Hn. destruct (restored_grows ttl key ctx n Httl Hn) as (s & v & Hr & He & Hq).
  exists s, v. split_and!; [done| |done]. rewrite He. apply map_size_singleton.
Qed.

(** ** Witnesses *)
Module Example_intro.
Definition config : OidcProviderConfig :=
  mk_oidc_config (Some (mk_url "https" (Some "id.example"))) None None None None None None
    (Some (mk_url "https" (Some "id.example"))) (Some "client") (Some "secret") (Some 60%N) None.
Definition mapper : PrincipalMapper := default_principal_map (λ _, "") (λ _, None) 0 1000.
Definition introspect (token : string) : option (result AuthenticationError IntrospectionResult) :=
  Some (Ok (if decide (token = "good")
            then mk_introspection true (Some {[ "sub" := CString "u1" ]})
            else mk_introspection false None)).
Definition sha256 (l : list Byte.byte) : Key := l.
Definition provider : IntrospectionProvider :=
  mk_intro_provider (mk_url "https" (Some "id.example")) ("client", "secret") (Some 60%N) mapper.
Definition key : Key := cache_key sha256 "good".
Definition ctx : SecurityContext :=
  match introspected introspect provider "good" with
  | Ok c => c
  | Err _ => SecurityContext_empty (Principal_new User (mk_subject ""))
  end.
Definition warm : IntroCache := (store 60 100 key ctx intro_empty).2.

Lemma warm_reachable : intro_reachable 60 warm [(key, 100%Z, ctx)].
Proof. apply rtc_once. apply (intro_stores 60 intro_empty []). Qed.

Lemma introspection_cache_is_live_witness :
  cached 60 500 key (store 60 500 key ctx warm).2 = Some (store 60 500 key ctx warm).1.
Proof.
  apply (introspection_cache_is_live 60 warm [(key, 100%Z, ctx)] 500 key ctx warm_reachable).
  by vm_compute.
Defined.

(** The endpoint has since revoked the token; its context is served for a minute. *)
Definition revoked (token : string) : option (result AuthenticationError IntrospectionResult) :=
  Some (Ok (mk_introspection false None)).

Lemma cached_context_is_recent_witness :
  (intro_authenticate revoked sha256 provider 159 (Bearer "good") warm warm).1 = Ok ctx ∧
  (introspected revoked provider "good" = Ok ctx ∨
   cache_ttl provider = Some 60%N ∧ (1 ≤ 60 ≤ 300)%N ∧
   ∃ t, (cache_key sha256 "good", t, ctx) ∈ [(key, 100%Z, ctx)] ∧ (0 ≤ 159 - t < Z.of_N 60)%Z).
Proof.
  split; [by vm_compute|].
  apply (cached_context_is_recent revoked sha256 config mapper provider 60 warm [(key, 100%Z, ctx)]
           warm [(key, 100%Z, ctx)] 159 "good" ctx); [reflexivity..|exact warm_reachable|done|by vm_compute].
Defined.

Lemma eviction_queue_leaks_witness :
  ∃ s v, intro_reachable 60 s v ∧ size (entries s) = 1 ∧ length (eviction_queue s) = 1001.
Proof. apply (eviction_queue_leaks 60 key ctx 1000); by vm_compute. Defined.
End Example_intro.
