(* ===== verification/Oidc.v ===== *)
(** * OpenID Connect providers

    Discovery, the composite provider and issuer routing of crates/security-jwt
    (discovery.rs, oidc_provider.rs, multi_issuer.rs).

    The discovery endpoint, the key set cache and the introspection provider are
    arguments with the interfaces of Jwks.v and Introspection.v: a key resolver, and a
    function from the credential to an answer.  The Base64 and JSON readers of
    the unverified payload are third-party and arguments too. *)

From S2P Require Import Prelude Identity Fingerprint Security ClaimSet Jwt Introspection.

(** ** Discovery *)
Record OidcEndpoints := mk_endpoints {
  discovered_jwks_uri : Url;
  discovered_introspection : option Url;
}.

(** The document as parsed, [fetch_configuration] from there on. *)
Record OidcConfiguration := mk_configuration {
  doc_jwks_uri : option Url;
  doc_introspection : option Url;
}.

Definition endpoints_of (doc : OidcConfiguration) : result AuthenticationError OidcEndpoints :=
  uri ← ok_or (ProviderUnavailable "discovery document missing required jwks_uri") (doc_jwks_uri doc);
  _ ← validate_url_requires_https uri "jwks_uri (from discovery)";
  _ ← validate_opt (doc_introspection doc) "introspection_endpoint (from discovery)";
  Ok (mk_endpoints uri (doc_introspection doc)).

(** ** The shape of a token *)
Fixpoint split_on (c : ascii) (s : string) : list string :=
  match s with
  | EmptyString => [""]
  | String a rest =>
      if decide (a = c) then "" :: split_on c rest
      else match split_on c rest with
           | part :: parts => String a part :: parts
           | [] => [String a ""]
           end
  end.

Definition dot : ascii := ".".

Definition is_ascii_alphanumeric (a : ascii) : bool :=
  byte_in 48 57 a || byte_in 65 90 a || byte_in 97 122 a.

Definition base64url_byte (a : ascii) : bool :=
  is_ascii_alphanumeric a || is_byte 45 a || is_byte 95 a || is_byte 61 a.

Definition looks_like_jwt (token : string) : bool :=
  let parts := split_on dot token in
  bool_decide (length parts = 3) &&
  forallb (λ part, bool_decide (part ≠ "") && all_bytes base64url_byte part) parts.

Section oidc.
Context (num_as_i64 num_as_u64 : string → option Z) (num_as_f64 : string → option f64).
Context (dt_min dt_max : Z) (L : Lib).

(** ** The JWT path *)
Definition oidc_rsa_key (key : VerificationKey) : result AuthenticationError (DecodingKey L) :=
  match key with
  | RsaPem pem => map_err (λ e, InvalidToken ("bad RSA key: " +:+ e)) (from_rsa_pem L pem)
  | _ => Err (InvalidToken "expected RSA PEM key")
  end.
Definition oidc_ec_key (key : VerificationKey) : result AuthenticationError (DecodingKey L) :=
  match key with
  | EcPem pem => map_err (λ e, InvalidToken ("bad EC key: " +:+ e)) (from_ec_pem L pem)
  | _ => Err (InvalidToken "expected EC PEM key")
  end.

Definition try_jwt_path (token : string) (resolver : KeyResolver) (config : JwtProviderConfig)
    (now : Z) (mapper : PrincipalMapper) (allowed : list JwtAlgorithm) : outcome SecurityContext :=
  header ← returned (map_err (λ e, InvalidToken (error_text e)) (decode_header L token));
  match alg header with
  | RS256 =>
      if decide (Rs256 ∈ allowed) then
        authenticate_inner num_as_i64 num_as_u64 num_as_f64 dt_min dt_max L token config resolver
          now (alg header) Rs256 mapper oidc_rsa_key
      else reject (AlgorithmNotSupported "RS256 is not in the allowed algorithms list")
  | ES256 =>
      if decide (Es256 ∈ allowed) then
        authenticate_inner num_as_i64 num_as_u64 num_as_f64 dt_min dt_max L token config resolver
          now (alg header) Es256 mapper oidc_ec_key
      else reject (AlgorithmNotSupported "ES256 is not in the allowed algorithms list")
  | a => reject (AlgorithmNotSupported ("OIDC provider does not support " +:+ Algorithm_debug a))
  end.

(** ** The composite provider *)
Record OidcProvider := mk_oidc {
  jwks_resolver : KeyResolver;
  oidc_jwt_config : JwtProviderConfig;
  introspection : option IntrospectionProvider;
  oidc_format : TokenFormat;
  oidc_mapper : PrincipalMapper;
  oidc_algorithms : list JwtAlgorithm;
}.

Definition jwt_config_of (config : OidcProviderConfig) : JwtProviderConfig :=
  mk_jwt_config (oidc_expected_iss config) (oidc_expected_aud config) (oidc_leeway_seconds config).

Definition build_introspection (config : OidcProviderConfig) (mapper : PrincipalMapper) :
    result AuthenticationError (option IntrospectionProvider) :=
  if is_some (introspection_endpoint config) && is_some (introspection_client_id config) &&
     is_some (introspection_client_secret config)
  then
    let intro_config :=
      mk_oidc_config None None None None None None None (introspection_endpoint config)
        (introspection_client_id config) (introspection_client_secret config)
        (introspection_cache_ttl_seconds config) None in
    Some <$> intro_with_provider intro_config mapper
  else Ok None.

Definition discover_sync (discovery : Url → option (result AuthenticationError OidcEndpoints))
    (url : Url) : result AuthenticationError OidcEndpoints :=
  match discovery url with
  | Some r => r
  | None => Err (ProviderUnavailable "discovery did not complete (pool exhausted or task dropped)")
  end.

(** [jwks_at] builds the key set cache of an endpoint with its refresh interval. *)
Definition with_discovery_and_jwks_provider
    (discovery : Url → option (result AuthenticationError OidcEndpoints))
    (jwks_at : Url → N → KeyResolver) (config : OidcProviderConfig) (mapper : PrincipalMapper) :
    outcome OidcProvider :=
  _ ← returned (oidc_validate config);
  uri ← match jwks_uri config with
        | Some uri => Ok uri
        | None =>
            issuer ← or_panic (issuer_url config);
            e ← returned (discover_sync discovery issuer);
            Ok (discovered_jwks_uri e)
        end;
  let ttl := default 300%N (jwks_refresh_ttl_seconds config) in
  intro ← returned (build_introspection config mapper);
  Ok (mk_oidc (jwks_at uri ttl) (jwt_config_of config) intro
        (default FormatAuto (token_format config)) mapper
        (default [Rs256; Es256] (allowed_algorithms config))).

(** [opaque] is [IntrospectionAuthenticationProvider::authenticate]. *)
Context (opaque : IntrospectionProvider → Credential → result AuthenticationError SecurityContext).

Definition authenticate_jwt (p : OidcProvider) (now : Z) (token : string) : outcome SecurityContext :=
  try_jwt_path token (jwks_resolver p) (oidc_jwt_config p) now (oidc_mapper p) (oidc_algorithms p).

Definition authenticate_opaque (p : OidcProvider) (credential : Credential) :
    outcome SecurityContext :=
  match introspection p with
  | Some intro => returned (opaque intro credential)
  | None => reject (InvalidToken "opaque token but no introspection endpoint configured")
  end.

Definition oidc_authenticate (p : OidcProvider) (now : Z) (credential : Credential) :
    outcome SecurityContext :=
  match credential with
  | Bearer token =>
      if decide (MAX_TOKEN_BYTES < str_len token)%Z
      then reject (InvalidToken "token exceeds 8 KiB limit")
      else
        match oidc_format p with
        | FormatJwt => authenticate_jwt p now token
        | FormatOpaque => authenticate_opaque p credential
        | FormatAuto =>
            if looks_like_jwt token then authenticate_jwt p now token
            else authenticate_opaque p credential
        end
  | _ => reject (InvalidToken "unsupported credential type")
  end.

(** ** What the provider accepts *)
(** [dk] is the decoding key the library reads from the key [k] of a key set, of the
    kind the algorithm [a] needs. *)
Definition decoding_key_of (a : JwtAlgorithm) (k : VerificationKey) (dk : DecodingKey L) : Prop :=
  (a = Rs256 ∧ ∃ pem, k = RsaPem pem ∧ from_rsa_pem L pem = Ok dk) ∨
  (a = Es256 ∧ ∃ pem, k = EcPem pem ∧ from_ec_pem L pem = Ok dk).

Lemma oidc_key_decodes a k dk :
  (a = Rs256 ∧ oidc_rsa_key k = Ok dk) ∨ (a = Es256 ∧ oidc_ec_key k = Ok dk) →
  decoding_key_of a k dk.
Proof.
  unfold decoding_key_of, oidc_rsa_key, oidc_ec_key.
  destruct k as [| |]; intros [[-> H]|[-> H]]; try done; apply map_err_Ok in H; [left|right];
    (split; [done|]; by eexists).
Qed.

(** The token was verified under a key of the key set, and its claims are in force. *)
Definition jwt_verified (resolver : KeyResolver) (c : JwtProviderConfig) (allowed : list JwtAlgorithm)
    (mapper : PrincipalMapper) (now : Z) (token : string) (ctx : SecurityContext)
    (claims : gmap string Json) : Prop :=
  ∃ h a k dk leeway,
    decode_header L token = Ok h ∧ alg h = algorithm_of a ∧ a ∈ allowed ∧
    resolver (kid h) a = Some (Ok k) ∧ decoding_key_of a k dk ∧
    decode L token dk (algorithm_of a) = Ok claims ∧
    duration_seconds (leeway_of c) = Some leeway ∧
    in_force num_as_i64 num_as_u64 dt_min dt_max c leeway now claims ∧
    mapper (claims_map_to_claim_set num_as_i64 num_as_u64 num_as_f64 claims) =
      Ok (principal ctx, Security.claims ctx).

Lemma jwt_path_verified token resolver c now mapper allowed ctx :
  try_jwt_path token resolver c now mapper allowed = Ok ctx →
  ∃ claims, jwt_verified resolver c allowed mapper now token ctx claims.
Proof.
  unfold try_jwt_path, returned. intros (h & Hh%map_err_Ok%map_err_Ok & Hd)%bind_Ok.
  destruct (alg h) eqn:Ha; try done; case_decide as Hin; try done;
    pose proof Hd as Hl; apply inner_leeway in Hl as [leeway Hl];
    apply (inner_Ok _ _ _ _ _ _ _ _ _ _ _ _ _ _ leeway) in Hd; try done;
    destruct Hd as (h' & k & dk & cl & Hh' & Ha' & Hr & Hk & Hdec & Hf & Hm);
    assert (h' = h) as -> by congruence;
    exists cl; [exists h, Es256, k, dk, leeway | exists h, Rs256, k, dk, leeway];
    split_and!; try done; eapply oidc_key_decodes; eauto.
Qed.

(** Where a provider reads its keys: the configured address, or else the one the
    issuer's discovery document names. *)
Definition key_set_address (discovery : Url → option (result AuthenticationError OidcEndpoints))
    (config : OidcProviderConfig) (uri : Url) : Prop :=
  match jwks_uri config with
  | Some configured => uri = configured
  | None => ∃ issuer e, issuer_url config = Some issuer ∧ discovery issuer = Some (Ok e) ∧
              uri = discovered_jwks_uri e
  end.

Lemma validated_issuer config :
  oidc_validate config = Ok () → is_Some (jwks_uri config) → is_Some (oidc_expected_iss config).
Proof.
  unfold oidc_validate. intros H. do 8 apply bind_Ok in H as (? & _ & H).
  intros [u Hu]. rewrite Hu in H. by destruct (oidc_expected_iss config).
Qed.

Lemma built_introspection config mapper i :
  build_introspection config mapper = Ok (Some i) →
  introspection_endpoint config = Some (endpoint i) ∧
  validate_url_requires_https (endpoint i) "introspection_endpoint" = Ok ().
Proof.
  unfold build_introspection. destruct (_ && _); [|done].
  destruct (intro_with_provider _ _) as [i'|] eqn:Hw; [|done]. intros [= ->].
  unfold intro_with_provider in Hw.
  apply bind_Ok in Hw as (ep & Hep%ok_or_Ok & ([] & Hu & Hw)%bind_Ok).
  apply bind_Ok in Hw as (id & _ & (sc & _ & (t & _ & [= <-])%bind_Ok)%bind_Ok). done.
Qed.

Lemma found_key_set discovery config uri :
  match jwks_uri config with
  | Some uri => Ok uri
  | None =>
      issuer ← or_panic (issuer_url config);
      e ← returned (discover_sync discovery issuer);
      Ok (discovered_jwks_uri e)
  end = Ok uri → key_set_address discovery config uri.
Proof.
  unfold key_set_address, returned, discover_sync.
  destruct (jwks_uri config) as [u|]; [by intros [= <-]|].
  destruct (issuer_url config) as [issuer|]; [|done]. simpl.
  destruct (discovery issuer) as [[e|]|] eqn:Hd; try done. intros [= <-]. by exists issuer, e.
Qed.

(** C15: A provider built from a configuration accepts a bearer token of at most 8192
    bytes only in one of two ways.  Either the header names an allowed algorithm, RS256
    or ES256 and so never an HMAC, the key set at the configured or discovered address
    holds a key for the token's key id, the library verifies the token's signature under
    the decoding key read from that very key, which is of the algorithm's kind, the
    claims are in force, and, when the key set's address is configured, issued by the
    configured issuer; or the configured introspection endpoint, reached over a secure
    URL, vouches for the token. *)
Theorem oidc_accepts_only_verified discovery jwks_at config mapper p now token ctx :
  with_discovery_and_jwks_provider discovery jwks_at config mapper = Ok p →
  oidc_authenticate p now (Bearer token) = Ok ctx →
  (str_len token ≤ 8192)%Z ∧
  ((∃ uri claims,
      key_set_address discovery config uri ∧
      jwt_verified (jwks_at uri (default 300%N (jwks_refresh_ttl_seconds config)))
        (jwt_config_of config)
        (default [Rs256; Es256] (allowed_algorithms config)) mapper now token ctx claims ∧
      (is_Some (jwks_uri config) →
       ∃ i, oidc_expected_iss config = Some i ∧ claims !! "iss" = Some (VString i))) ∨
   (∃ intro, introspection p = Some intro ∧
      introspection_endpoint config = Some (endpoint intro) ∧
      validate_url_requires_https (endpoint intro) "introspection_endpoint" = Ok () ∧
      opaque intro (Bearer token) = Ok ctx)).
Proof.
  intros Hp Hauth. unfold with_discovery_and_jwks_provider, returned in Hp.
  apply bind_Ok in Hp as ([] & Hv%map_err_Ok & (uri & Huri & Hp)%bind_Ok).
  apply bind_Ok in Hp as (intro & Hi%map_err_Ok & [= <-]).
  pose proof (validated_issuer config Hv) as Hiss.
  revert Hauth. unfold oidc_authenticate, MAX_TOKEN_BYTES. case_decide as Hlen; [done|]. intros H.
  split; [lia|]. cbn [oidc_format] in H.
  set (p := mk_oidc _ _ _ _ _ _) in *.
  assert (authenticate_jwt p now token = Ok ctx ∨ authenticate_opaque p (Bearer token) = Ok ctx)
    as [Hj|Ho].
  { destruct (default FormatAuto (token_format config)); [..|destruct (looks_like_jwt token)]; auto. }
  - left. apply jwt_path_verified in Hj as [cl Hcl]. exists uri, cl. split_and!; [|exact Hcl|].
    { by apply found_key_set. }
    intros [i Hc]%Hiss. exists i. split; [done|].
    destruct Hcl as (h & a & k & dk & l & _ & _ & _ & _ & _ & _ & _ & (_ & _ & Hi' & _) & _).
    by apply Hi'.
  - right. unfold authenticate_opaque in Ho. cbn [introspection p] in Ho |- *.
    destruct intro as [i|]; [|done]. exists i. apply map_err_Ok in Ho.
    destruct (built_introspection config mapper i Hi). by split_and!.
Qed.

(** The audience is optional: a configuration without one passes validation, though
    the single-algorithm providers refuse it, and whether the claims of a token are in
    force then does not depend on whom the token was issued for. *)
Lemma oidc_audience_is_optional :
  ∃ config, oidc_validate config = Ok () ∧
    (∃ e, jwt_config_validate (jwt_config_of config) = Err e) ∧
    ∀ leeway now claims v,
      in_force num_as_i64 num_as_u64 dt_min dt_max (jwt_config_of config) leeway now
        (<["aud" := v]> claims) ↔
      in_force num_as_i64 num_as_u64 dt_min dt_max (jwt_config_of config) leeway now claims.
Proof.
  exists (mk_oidc_config None (Some (mk_url "https" (Some "id.example"))) (Some "https://id.example")
            None None None None None None None None None).
  split; [done|]. split; [by eexists|]. intros leeway now claims v. unfold in_force.
  rewrite !(lookup_insert_ne claims "aud") by done. cbn [jwt_config_of expected_iss expected_aud].
  split; intros (He & Hn & Hi & _); by split_and!.
Qed.
End oidc.

(** ** Issuer routing *)
Section multi_issuer.
Context (url_safe_no_pad url_safe : string → option (list Byte.byte)).
Context (from_slice : list Byte.byte → option Json).

Definition unverified_iss (token : string) : option string :=
  match split_on dot token with
  | [_; payload; _] =>
      bytes ← or_else (url_safe_no_pad payload) (url_safe payload);
      v ← from_slice bytes;
      get "iss" v ≫= json_str
  | _ => None
  end.

(** [.chars().take(128)] of a text in UTF-8: up to 128 characters. *)
Fixpoint take_chars (n : nat) (s : string) : string :=
  match s with
  | EmptyString => ""
  | String a rest =>
      if cont a then String a (take_chars n rest)
      else match n with 0 => "" | S n' => String a (take_chars n' rest) end
  end.

(** [providers] is the table of a [StaticIssuerResolver]. *)
Definition static_resolve {P} (providers : gmap string P) (issuer : string) : option P :=
  providers !! issuer.

Definition multi_issuer_authenticate
    (resolver : string → option (Credential → outcome SecurityContext))
    (credential : Credential) : outcome SecurityContext :=
  match credential with
  | Bearer token =>
      if decide (MAX_TOKEN_BYTES < str_len token)%Z
      then reject (InvalidToken "token exceeds 8 KiB limit")
      else
        iss ← returned (ok_or (InvalidToken "missing or unreadable iss claim") (unverified_iss token));
        provider ← returned (ok_or (InvalidToken ("unknown issuer: " +:+ take_chars 128 iss))
                               (resolver iss));
        provider credential
  | _ => reject (InvalidToken "unsupported credential type")
  end.

(** ** Routing and verification agree *)
Section routed.
Context (num_as_i64 num_as_u64 : string → option Z) (num_as_f64 : string → option f64).
Context (dt_min dt_max : Z) (L : Lib).

(** The table of providers, each for one algorithm. *)
Definition route (table : gmap string (JwtAlgorithm * JwtProvider)) (now : Z) (issuer : string) :
    option (Credential → outcome SecurityContext) :=
  (λ '(a, p), jwt_authenticate num_as_i64 num_as_u64 num_as_f64 dt_min dt_max L a p now) <$>
  static_resolve table issuer.

(** When each provider of the table expects the issuer it is registered under, the
    issuer a token was routed by, read before any verification, is the issuer claim of
    the verified token: a token cannot be routed to the keys of one issuer and speak
    for another. *)
Lemma routed_issuer_is_verified table now token ctx :
  map_Forall (λ i ap, expected_iss (jwt_config ap.2) = Some i) table →
  multi_issuer_authenticate (route table now) (Bearer token) = Ok ctx →
  ∃ iss a p dk claims,
    unverified_iss token = Some iss ∧ table !! iss = Some (a, p) ∧
    decode L token dk (algorithm_of a) = Ok claims ∧ claims !! "iss" = Some (VString iss).
Proof.
  intros Htable. unfold multi_issuer_authenticate, MAX_TOKEN_BYTES, returned.
  case_decide; [done|]. intros (iss & Hiss%map_err_Ok%ok_or_Ok & Hd)%bind_Ok.
  apply bind_Ok in Hd as (provider & Hp%map_err_Ok%ok_or_Ok & Hd).
  unfold route, static_resolve in Hp. destruct (table !! iss) as [[a p]|] eqn:Ht; [|done].
  injection Hp as <-. pose proof (Htable iss (a, p) Ht) as Hexp. simpl in Hexp.
  rewrite jwt_authenticate_inner in Hd. apply bind_Ok in Hd as (t & Hb%map_err_Ok & Hd).
  assert (t = token) as ->. { unfold bearer_token in Hb. case_decide; [done|]. by injection Hb. }
  pose proof Hd as Hl. apply inner_leeway in Hl as [leeway Hl].
  apply (inner_Ok _ _ _ _ _ _ _ _ _ _ _ _ _ _ leeway) in Hd; [|done].
  destruct Hd as (h & k & dk & cl & _ & _ & _ & _ & Hdec & (_ & _ & Hi & _) & _).
  exists iss, a, p, dk, cl. split_and!; [done..|]. by apply Hi.
Qed.
End routed.
End multi_issuer.

(** ** Witnesses *)
Module Example_oidc.
Definition as_int (n : string) : option Z := if decide (n = "100") then Some 100%Z else None.
Definition doc : gmap string Json :=
  {[ "sub" := VString "u1"; "iss" := VString "https://id.example"; "exp" := VNumber "100" ]}.

Definition lib : Lib := {|
  DecodingKey := string;
  decode_header := λ _, Ok (mk_header RS256 (Some "k1"));
  decode := λ _ k a, if decide (k = "pem1" ∧ a = RS256) then Ok doc
                     else Err (mk_jwt_error KindInvalidSignature "bad");
  from_secret := λ _, "";
  from_rsa_pem := λ p, Ok p;
  from_ec_pem := λ p, Ok p;
|}.

Definition config : OidcProviderConfig :=
  mk_oidc_config None (Some (mk_url "https" (Some "id.example"))) (Some "https://id.example")
    None None None None None None None None None.
Definition jwks : KeyResolver := λ _ _, Some (Ok (RsaPem "pem1")).
(** The key set at the configured address; there is none elsewhere. *)
Definition jwks_at (u : Url) (ttl : N) : KeyResolver :=
  if decide (host_str u = Some "id.example") then jwks else λ _ _, None.

Definition mapper : PrincipalMapper :=
  default_principal_map (λ _, "") (λ _, None) 0 (nanos 1000).
Definition provider : OidcProvider :=
  mk_oidc jwks (jwt_config_of config) None FormatAuto mapper [Rs256; Es256].
Definition no_opaque : IntrospectionProvider → Credential → result AuthenticationError SecurityContext :=
  λ _ _, Err ExpiredToken.

Definition context_of (r : outcome SecurityContext) : SecurityContext :=
  match r with
  | Ok ctx => ctx
  | Err _ => SecurityContext_empty (Principal_new User (mk_subject ""))
  end.
Definition answer : outcome SecurityContext :=
  oidc_authenticate as_int as_int (λ _, None) 0 (nanos 1000) lib no_opaque provider (nanos 50)
    (Bearer "aa.bb.cc").

(** The token was verified with the key the configured key set holds, and speaks for
    the configured issuer. *)
Lemma oidc_accepts_only_verified_witness :
  subject_id (principal (context_of answer)) = mk_subject "u1" ∧
  ∃ uri claims,
    key_set_address (λ _, None) config uri ∧
    jwt_verified as_int as_int (λ _, None) 0 (nanos 1000) lib (jwks_at uri 300)
      (jwt_config_of config) [Rs256; Es256] mapper (nanos 50) "aa.bb.cc"
      (context_of answer) claims ∧
    claims !! "iss" = Some (VString "https://id.example").
Proof.
  split; [by vm_compute|].
  pose proof (oidc_accepts_only_verified as_int as_int (λ _, None) 0 (nanos 1000) lib no_opaque
    (λ _, None) jwks_at config mapper provider (nanos 50) "aa.bb.cc" (context_of answer)
    ltac:(reflexivity) ltac:(by vm_compute)) as [_ [(uri & cl & H1 & H2 & H3)|(i & H & _)]].
  - exists uri, cl. split; [exact H1|]. split; [exact H2|].
    destruct (H3 ltac:(by eexists)) as (i & [= <-] & Hi). exact Hi.
  - discriminate H.
Defined.

Definition table : gmap string (JwtAlgorithm * JwtProvider) :=
  {[ "https://id.example" := (Rs256, mk_jwt_provider (jwt_config_of config) jwks mapper) ]}.
Definition payload (_ : string) : option (list Byte.byte) := Some [].
Definition parse (_ : list Byte.byte) : option Json :=
  Some (VObject [("iss", VString "https://id.example")]).

Lemma routed_issuer_is_verified_witness :
  ∃ iss a p dk claims,
    unverified_iss payload payload parse "aa.bb.cc" = Some iss ∧ table !! iss = Some (a, p) ∧
    decode lib "aa.bb.cc" dk (algorithm_of a) = Ok claims ∧ claims !! "iss" = Some (VString iss).
Proof.
  apply (routed_issuer_is_verified payload payload parse as_int as_int (λ _, None) 0 (nanos 1000) lib
           table (nanos 50) "aa.bb.cc" (context_of answer)); [|by vm_compute].
  apply map_Forall_singleton. reflexivity.
Defined.
End Example_oidc.
