(* ===== verification/ApiKey.v ===== *)
(** * API keys

    Identifiers, parsing, the in-memory resolver and the provider of
    crates/security-apikey.

    The digest is an argument.  A [SystemTime] is a number of nanoseconds since the
    epoch; an expiry may lie before it.  The resolver of the provider may fail, the
    in-memory one never does.  The metadata of a record is not read. *)

From S2P Require Import Prelude Identity Fingerprint Security ClaimSet Jwt Oidc.

(** ** Identifiers *)
Record ApiKeyId := mk_api_key_id { api_key_id : string }.
#[export] Instance ApiKeyId_eq_dec : EqDecision ApiKeyId.
Proof. solve_decision. Defined.
#[export] Instance ApiKeyId_countable : Countable ApiKeyId.
Proof. by apply (inj_countable' api_key_id mk_api_key_id); intros []. Defined.

Definition API_KEY_MAX_LEN : Z := 128.

Definition key_id_byte (a : ascii) : bool :=
  is_ascii_alphanumeric a || is_byte 95 a || is_byte 45 a.

Definition ApiKeyId_new (s : string) : result AuthenticationError ApiKeyId :=
  if decide (s = "") then Err (InvalidToken "api key id must not be empty")
  else if decide (API_KEY_MAX_LEN < str_len s)%Z
  then Err (InvalidToken "api key id exceeds maximum length")
  else if all_bytes key_id_byte s then Ok (mk_api_key_id s)
  else Err (InvalidToken "api key id contains forbidden characters").

(** ** Parsing *)
Definition Secret : Type := list Byte.byte.
Definition ApiKeyParser : Type := string → result AuthenticationError (ApiKeyId * Secret).

Definition default_api_key_parse : ApiKeyParser := λ raw,
  match split_once dot raw with
  | None => Err (InvalidToken "api key must contain a '.' separator")
  | Some (id_part, secret_part) =>
      if decide (id_part = "") then Err (InvalidToken "api key id part must not be empty")
      else if decide (secret_part = "")
      then Err (InvalidToken "api key secret part must not be empty")
      else
        key_id ← map_err (λ _, InvalidToken "invalid key id format") (ApiKeyId_new id_part);
        Ok (key_id, string_bytes secret_part)
  end.

(** ** Records *)
Record ApiKeyRecord := mk_api_record {
  record_principal : Principal;
  scopes : list string;
  expires_at : option Z;
  key_hash : list Byte.byte;
}.

(** [ApiKeyResolverError::Backend] *)
Inductive ApiKeyResolverError := ApiBackend (msg : string).
Definition ApiKeyResolver : Type := ApiKeyId → result ApiKeyResolverError (option ApiKeyRecord).

Definition ApiKeyTable : Type := gmap ApiKeyId ApiKeyRecord.
Definition api_key_insert (id : ApiKeyId) (r : ApiKeyRecord) (t : ApiKeyTable) : ApiKeyTable :=
  <[id := r]> t.
Definition api_key_lookup (t : ApiKeyTable) : ApiKeyResolver := λ id, Ok (t !! id).

(** ** The provider *)
Section provider.
Context (sha256 : list Byte.byte → list Byte.byte).
Context (dt_min dt_max : Z).

Definition hash_of (secret : Secret) : list Byte.byte := sha256 secret.
Definition verify_secret (digest : list Byte.byte) (secret : Secret) : bool :=
  bool_decide (sha256 secret = digest).

Definition MAX_KEY_BYTES : Z := 1024.
Definition invalid_token : AuthenticationError := InvalidToken "invalid token".

(** The [exp] claim: none before the epoch or out of range, whole seconds otherwise. *)
Definition exp_claim (t : Z) : option Z :=
  if decide (t < 0)%Z then None
  else if decide (t / 1000000000 ≤ i64_max)%Z
  then from_timestamp dt_min dt_max (t / 1000000000) else None.

Definition key_claims (r : ApiKeyRecord) : Claims :=
  mk_claims (mk_standard (expires_at r ≫= exp_claim) None None None None None)
    {[ "scopes" := VArray (map VString (scopes r)) ]}.

Definition api_key_authenticate (resolver : ApiKeyResolver) (parse : ApiKeyParser) (now : Z)
    (credential : Credential) : result AuthenticationError SecurityContext :=
  match credential with
  | Bearer raw =>
      if decide (MAX_KEY_BYTES < str_len raw)%Z then Err invalid_token
      else
        '(key_id, secret) ← map_err (λ _, invalid_token) (parse raw);
        record ← map_err (λ _, invalid_token) (resolver key_id);
        let dummy_hash := replicate 32 Byte.x00 in
        let hash_ok := verify_secret (from_option key_hash dummy_hash record) secret in
        let not_expired :=
          match record with
          | Some r => match expires_at r with Some e => bool_decide (now < e)%Z | None => true end
          | None => false
          end in
        match record with
        | Some r =>
            if hash_ok && not_expired then Ok (mk_security (record_principal r) (key_claims r))
            else Err invalid_token
        | None => Err invalid_token
        end
  | _ => Err invalid_token
  end.

(** ** What the provider answers *)
Definition valid_key_id (s : string) : Prop :=
  s ≠ "" ∧ (str_len s ≤ API_KEY_MAX_LEN)%Z ∧ all_bytes key_id_byte s = true.

Lemma ApiKeyId_new_Ok s id : ApiKeyId_new s = Ok id ↔ id = mk_api_key_id s ∧ valid_key_id s.
Proof.
  unfold ApiKeyId_new, valid_key_id. split.
  - repeat case_decide; try done. destruct (all_bytes key_id_byte s); [|done]. intros [= <-].
    split_and!; [done..|lia|done].
  - intros (-> & Hne & Hle & Hall). by rewrite !decide_False, Hall by (done || lia).
Qed.

Lemma key_id_no_dot s : all_bytes key_id_byte s = true → contains dot s = false.
Proof.
  induction s as [|a s IH]; cbn [all_bytes contains]; [done|]. intros [Ha Hs]%andb_true_iff.
  rewrite decide_False; [by apply IH|]. by intros ->.
Qed.

Lemma default_parse_Ok raw id secret :
  default_api_key_parse raw = Ok (id, secret) ↔
  ∃ sec, raw = api_key_id id +:+ String dot sec ∧ valid_key_id (api_key_id id) ∧ sec ≠ "" ∧
    secret = string_bytes sec.
Proof.
  unfold default_api_key_parse. split.
  - destruct (split_once dot raw) as [[l r]|] eqn:Hs; [|done]. apply split_once_Some in Hs as [-> _].
    repeat case_decide; try done. intros (k & Hk%map_err_Ok%ApiKeyId_new_Ok & [= <- <-])%bind_Ok.
    destruct Hk as [-> Hv]. by exists r.
  - intros (sec & -> & Hv & Hne & ->). destruct id as [id]; simpl in *.
    assert (split_once dot (id +:+ String dot sec) = Some (id, sec)) as ->.
    { apply split_once_Some. split; [done|]. by apply key_id_no_dot, Hv. }
    rewrite !decide_False by (done || apply Hv).
    assert (ApiKeyId_new id = Ok (mk_api_key_id id)) as -> by (by apply ApiKeyId_new_Ok). done.
Qed.

(** The provider accepts a bearer credential of at most 1024 bytes exactly when it
    is a valid key id, a dot and a non-empty secret, the resolver has a record for that
    id, the secret has the record's digest and the record has not expired; the context
    is then the record's principal with its scopes.  Every other credential, and every
    failure of the resolver or of the parser, gets the same error: the answer does not
    tell an unknown key from a wrong secret or an expired key. *)
Lemma api_key_accepts_exactly (resolver : ApiKeyResolver) (now : Z) :
  (∀ parse credential,
     is_ok (api_key_authenticate resolver parse now credential) = true ∨
     api_key_authenticate resolver parse now credential = Err invalid_token) ∧
  ∀ raw ctx,
    api_key_authenticate resolver default_api_key_parse now (Bearer raw) = Ok ctx ↔
    (str_len raw ≤ 1024)%Z ∧
    ∃ id sec r,
      raw = api_key_id id +:+ String dot sec ∧ valid_key_id (api_key_id id) ∧ sec ≠ "" ∧
      resolver id = Ok (Some r) ∧ sha256 (string_bytes sec) = key_hash r ∧
      (∀ e, expires_at r = Some e → (now < e)%Z) ∧
      ctx = mk_security (record_principal r) (key_claims r).
Proof.
  split.
  - intros parse [u p|raw|sch pl]; cbn [api_key_authenticate]; [by right| |by right].
    case_decide; [by right|]. destruct (parse raw) as [[id secret]|]; [|by right]. cbn [map_err mbind result_bind].
    destruct (resolver id) as [[r|]|]; cbn [map_err mbind result_bind]; [|by right..].
    destruct (_ && _); auto.
  - intros raw ctx. cbn [api_key_authenticate]. unfold MAX_KEY_BYTES. split.
    + case_decide; [done|]. intros ([id secret] & Hp%map_err_Ok & Hd)%bind_Ok.
      apply default_parse_Ok in Hp as (sec & -> & Hv & Hne & ->).
      apply bind_Ok in Hd as ([r|] & Hr%map_err_Ok & Hd); [|done].
      destruct (_ && _) eqn:Hb; [|done]. apply andb_true_iff in Hb as [Hh He].
      split; [lia|]. exists id, sec, r. split_and!; try done.
      * by apply bool_decide_eq_true in Hh.
      * intros e Hee. rewrite Hee in He. by apply bool_decide_eq_true in He.
      * by injection Hd.
    + intros (Hle & id & sec & r & -> & Hv & Hne & Hr & Hh & He & ->). rewrite decide_False by lia.
      assert (default_api_key_parse (api_key_id id +:+ String dot sec) = Ok (id, string_bytes sec)) as ->
        by (apply default_parse_Ok; eauto).
      cbn [map_err mbind result_bind]. rewrite Hr. cbn [map_err mbind result_bind from_option].
      unfold verify_secret. rewrite bool_decide_true by done. simpl.
      destruct (expires_at r) as [e|]; [|done]. by rewrite bool_decide_true by auto.
Qed.
End provider.
