(* ===== verification/Retention.v ===== *)
(** * Retention

    The retention policies and workers of crates/service-sdk, runtime/retention.rs and
    runtime/effect_retention.rs.

    A [std::time::Duration] is a number of nanoseconds.  [dt_min] and [dt_max] are
    [chrono]'s first and last instants: its subtraction panics outside them.  The loops
    around a tick, and what it reports, are in [RetentionWorkers]. *)

From S2P Require Import Prelude Identity Reservation ClaimSet Jwt.

(** ** Policies *)
Inductive RetentionPolicyError := ZeroRetention | ZeroInterval | ZeroBatch.

Record RetentionPolicy := mk_retention {
  retention : Z;
  interval : Z;
  batch_size : nat;
}.

Definition RetentionPolicy_new (retention interval : Z) (batch_size : nat) :
    result RetentionPolicyError RetentionPolicy :=
  if decide (retention = 0%Z) then Err ZeroRetention
  else if decide (interval = 0%Z) then Err ZeroInterval
  else if decide (batch_size = 0) then Err ZeroBatch
  else Ok (mk_retention retention interval batch_size).

Inductive EffectRetentionPolicyError := EffectZeroRetention | EffectZeroInterval | EffectZeroBatch.

Record EffectRetentionPolicy := mk_effect_retention {
  effect_retention : Z;
  effect_interval : Z;
  effect_batch_size : nat;
}.

Definition EffectRetentionPolicy_new (retention interval : Z) (batch_size : nat) :
    result EffectRetentionPolicyError EffectRetentionPolicy :=
  if decide (retention = 0%Z) then Err EffectZeroRetention
  else if decide (interval = 0%Z) then Err EffectZeroInterval
  else if decide (batch_size = 0) then Err EffectZeroBatch
  else Ok (mk_effect_retention retention interval batch_size).

(** ** A tick *)

(** [chrono::Duration::from_std] fails above [i64::MAX] milliseconds. *)
Definition chrono_max : Z := (i64_max * 1000000)%Z.

Definition retention_window (d : Z) : Z :=
  if decide (d ≤ chrono_max)%Z then d else nanos (i64_max / 1000).

Section worker.
Context (dt_min dt_max : Z).

(** [clock.now() - window] *)
Definition retention_cutoff (d now : Z) : option Z :=
  dt_add dt_min dt_max now (- retention_window d).

(** The purge of one tick, [None] when the task panics; [it] is the order in which the
    store walks its map. *)
Definition retention_tick (p : RetentionPolicy) (now : Z)
    (it : list (OperationId * ReservationRecord)) (records : Records) :
    option (result ReservationError Z * Records) :=
  cutoff ← retention_cutoff (retention p) now;
  Some (purge_completed_before cutoff (batch_size p) it records).

(** The effect worker purges through [RetentionMaintenance], an argument. *)
Definition effect_retention_tick {R} (purge_before : Z → nat → R) (p : EffectRetentionPolicy)
    (now : Z) : option R :=
  cutoff ← retention_cutoff (effect_retention p) now;
  Some (purge_before cutoff (effect_batch_size p)).

(** ** Stopping *)
Inductive RetentionShutdown := Stopped | RetentionPanicked | TimedOut.

(** How the task ended within the deadline, if it did. *)
Inductive Joined := JoinedOk | JoinedPanic | JoinedCancelled.

Definition retention_stop (joined : option Joined) : RetentionShutdown :=
  match joined with
  | Some JoinedOk => Stopped
  | Some JoinedPanic => RetentionPanicked
  | Some JoinedCancelled => Stopped
  | None => TimedOut
  end.

(** ** The window holds *)

(** Every purge of the run is a tick of the worker, and all of it happens no later than
    [until]. *)
Definition worker_only (p : RetentionPolicy) (until : Z) (e : Z * call * answer) : Prop :=
  (e.1.1 ≤ until)%Z ∧
  match e.1.2 with
  | CPurge cutoff batch _ => retention_cutoff (retention p) e.1.1 = Some cutoff ∧ batch = batch_size p
  | _ => True
  end.

Lemma cutoff_window d now cutoff :
  retention_cutoff d now = Some cutoff → cutoff = (now - retention_window d)%Z.
Proof. unfold retention_cutoff, dt_add. case_decide; [|done]. intros [= <-]. lia. Qed.

(** The worker keeps what it promises: while no more than the retention window has
    passed since an operation was completed, whatever calls and ticks of the worker
    intervene, a repeated request is answered with the stored response, or with a
    conflict when it is another request. *)
Lemma completion_outlives_window p now f resp s r s1 tr s2 now' req :
  s !! fence_operation_id f = Some r →
  complete now f resp s = (Ok (), s1) →
  run s1 tr s2 → Forall (worker_only p (now + retention_window (retention p))) tr →
  request_id req = fence_operation_id f →
  reserve now' req s2 =
    (Ok (if decide (req_fingerprint req = rec_fingerprint r)
         then Succeeded resp else ConflictingFingerprint), s2).
Proof.
  intros Hr Hc Hrun HQ Hid. eapply completed_replays; [done..| |done].
  eapply Forall_impl; [exact HQ|]. intros [[t c] a] [Ht Hcut]. unfold keeps_completed. simpl in *.
  destruct c; try done. destruct Hcut as [->%cutoff_window _]. lia.
Qed.

(** A retention too long for a [chrono] duration, the natural way to say forever,
    kills the worker at its first tick: the fallback window reaches back past the first
    representable instant, and the subtraction panics. *)
Lemma endless_retention_panics p now it records :
  (dt_min ≤ now ≤ dt_max)%Z → (dt_max - dt_min < nanos (i64_max / 1000))%Z →
  (chrono_max < retention p)%Z → retention_tick p now it records = None.
Proof.
  intros Hnow Hrange Hlong. unfold retention_tick, retention_cutoff, dt_add, retention_window.
  rewrite (decide_False (P := (retention p ≤ chrono_max)%Z)) by lia.
  by rewrite decide_False by lia.
Qed.
End worker.

(** ** Witnesses *)
Module Example_retention.
Definition policy : RetentionPolicy := mk_retention 100 10 5.
Definition held : Records := {[ex_id := ex_held "b" 2 20]}.

(** A tick at the very end of the window removes nothing. *)
Definition tick : list (Z * call * answer) := [(115%Z, CPurge 15 5 ex_it, APurge (Ok 0%Z))].

Lemma completion_outlives_window_witness :
  reserve 116 (ex_req "c" 120) ex_s4 = (Ok (Succeeded ex_resp), ex_s4).
Proof.
  apply (completion_outlives_window 0 1000 policy 15 (ex_fence "b" 2) ex_resp held
           (ex_held "b" 2 20) ex_s4 tick ex_s4 116 (ex_req "c" 120)).
  - apply lookup_singleton_eq.
  - by vm_compute.
  - apply run_cons with (s1 := ex_s4); [exact ex_iteration|by vm_compute|constructor].
  - constructor; [|constructor]. split; [by vm_compute|]. by vm_compute.
  - reflexivity.
Defined.

Definition forever : RetentionPolicy := mk_retention (nanos u64_max) 10 5.

Lemma endless_retention_panics_witness : retention_tick 0 1000000 forever 500 ex_it ex_s4 = None.
Proof. apply endless_retention_panics; by vm_compute. Defined.
End Example_retention.
