(* ===== verification/Health.v ===== *)
(** * Health aggregation

    The health model of crates/domain, health/mod.rs, the concurrent aggregator of
    crates/service-sdk, health/mod.rs, and the reservation store's contributor,
    health/reservation_store.rs.

    A contributor is its name, its requirement and what its check comes to: a result, a
    panic, or nothing within its own time limit.  The order in which checks complete,
    and the moment the global budget elapses, are the events the aggregator sees; the
    order in which the pending map is drained is an argument. *)

From S2P Require Import Prelude Reservation.

(** ** The model *)
Inductive ProbeKind := Liveness | Readiness | Startup.
Inductive HealthStatus := Healthy | Degraded | Unhealthy.
Inductive DependencyRequirement := Required | Optional.
Inductive HealthCode :=
| Timeout | Unavailable | InitializationPending | DependencyFailure | InternalFailure.

#[export] Instance HealthStatus_eq_dec : EqDecision HealthStatus.
Proof. solve_decision. Defined.
#[export] Instance DependencyRequirement_eq_dec : EqDecision DependencyRequirement.
Proof. solve_decision. Defined.

Record HealthCheck := mk_check { check_status : HealthStatus; check_code : option HealthCode }.

Record ContributorReport := mk_contributor_report {
  report_name : string;
  report_status : HealthStatus;
  report_requirement : DependencyRequirement;
  report_code : option HealthCode;
}.

Record HealthReport := mk_health_report {
  report_probe : ProbeKind;
  overall : HealthStatus;
  report_contributors : list ContributorReport;
}.

Definition contribution (s : HealthStatus) (r : DependencyRequirement) : HealthStatus :=
  match s, r with
  | Healthy, _ => Healthy
  | Degraded, _ => Degraded
  | Unhealthy, Required => Unhealthy
  | Unhealthy, Optional => Degraded
  end.

Definition severity (s : HealthStatus) : nat :=
  match s with Healthy => 0 | Degraded => 1 | Unhealthy => 2 end.

(** [Iterator::max_by_key]: the last of the largest. *)
Fixpoint max_by_severity (l : list HealthStatus) : option HealthStatus :=
  match l with
  | [] => None
  | s :: l' =>
      match max_by_severity l' with
      | None => Some s
      | Some m => Some (if decide (severity m < severity s) then s else m)
      end
  end.

Definition fold (reports : list ContributorReport) : HealthStatus :=
  default Healthy
    (max_by_severity (map (λ r, contribution (report_status r) (report_requirement r)) reports)).

(** ** The aggregator *)
Record Contributor := mk_contributor {
  contributor_name : string;
  contributor_requirement : DependencyRequirement;
}.

(** What a check comes to. *)
Inductive Outcome := Checked (c : HealthCheck) | CheckPanicked | Elapsed.

Definition report_of (c : Contributor) (o : Outcome) : ContributorReport :=
  match o with
  | Checked h =>
      mk_contributor_report (contributor_name c) (check_status h) (contributor_requirement c)
        (check_code h)
  | CheckPanicked =>
      mk_contributor_report (contributor_name c) Unhealthy (contributor_requirement c)
        (Some InternalFailure)
  | Elapsed =>
      mk_contributor_report (contributor_name c) Unhealthy (contributor_requirement c) (Some Timeout)
  end.

(** [sort_by_key(|(id, _)| *id)] *)
Definition id_le : relation (nat * ContributorReport) := λ p q, p.1 ≤ q.1.
#[export] Instance id_le_dec : RelDecision id_le := λ p q, decide (p.1 ≤ q.1).
#[export] Instance id_le_trans : Transitive id_le.
Proof. unfold id_le. intros p q r. lia. Qed.
#[export] Instance id_le_total : Total id_le.
Proof. unfold id_le. intros p q. lia. Qed.

Definition in_order (reports : list (nat * ContributorReport)) : list ContributorReport :=
  (merge_sort id_le reports).*2.

(** What [select!] sees: a check completed, or the budget elapsed with the pending map
    drained in the order [drained]. *)
Inductive Event :=
| Completed (id : nat) (r : ContributorReport)
| BudgetElapsed (drained : list (nat * Contributor)).

(** Without a budget: checks complete until none is left. *)
Fixpoint collect_all (events : list Event) : list (nat * ContributorReport) :=
  match events with
  | Completed id r :: rest => (id, r) :: collect_all rest
  | _ => []
  end.

Fixpoint collect_within (events : list Event) (pending : gmap nat Contributor)
    (reports : list (nat * ContributorReport)) : list (nat * ContributorReport) :=
  match events with
  | [] => reports
  | Completed id r :: rest =>
      let pending := delete id pending in
      let reports := reports ++ [(id, r)] in
      if decide (pending = ∅) then reports else collect_within rest pending reports
  | BudgetElapsed drained :: _ => reports ++ ((λ '(i, c), (i, report_of c Elapsed)) <$> drained)
  end.

(** The registry as the pending map. *)
Definition pending_of (registry : list Contributor) : gmap nat Contributor :=
  map_seq 0 registry.

(** [per_contributor] decides when a check counts as [Elapsed]. *)
Record HealthAggregationConfig := mk_aggregation {
  per_contributor : Z;
  global_budget : option Z;
}.

Definition collect_reports (registry : list Contributor) (config : HealthAggregationConfig)
    (events : list Event) : list ContributorReport :=
  match global_budget config with
  | None => in_order (collect_all events)
  | Some _ => in_order (collect_within events (pending_of registry) [])
  end.

Definition aggregate (probe : ProbeKind) (registry : list Contributor)
    (config : HealthAggregationConfig) (events : list Event) : HealthReport :=
  let contributors := collect_reports registry config events in
  mk_health_report probe (fold contributors) contributors.

Definition readiness := aggregate Readiness.
Definition startup := aggregate Startup.

(** ** The reservation store's contributor *)
Definition OPERATION_RESERVATION_STORE_CONTRIBUTOR : string := "operation-reservation-store".

Definition reservation_contributor : Contributor :=
  mk_contributor OPERATION_RESERVATION_STORE_CONTRIBUTOR Required.

Definition reservation_check (probe : result ReservationError ()) : HealthCheck :=
  match probe with
  | Ok _ => mk_check Healthy None
  | Err (ReservationBackend _) => mk_check Unhealthy (Some Unavailable)
  | Err StaleOwner | Err FencingExhausted => mk_check Unhealthy (Some InternalFailure)
  end.

(** ** Runs of the aggregator *)
Section runs.
(** What each check comes to if it is waited for. *)
Context (outcome : nat → Outcome).

(** The events a pending map can see: a pending check completes, or the budget elapses
    and what is pending is drained, or nothing is pending any more. *)
Inductive sees : gmap nat Contributor → list Event → Prop :=
| sees_none : sees ∅ []
| sees_completed pending id c rest :
    pending !! id = Some c → sees (delete id pending) rest →
    sees pending (Completed id (report_of c (outcome id)) :: rest)
| sees_budget pending drained rest :
    iteration pending drained → sees pending (BudgetElapsed drained :: rest).

(** The checks that completed before the budget elapsed. *)
Fixpoint completed (events : list Event) : list nat :=
  match events with
  | Completed id _ :: rest => id :: completed rest
  | _ => []
  end.

Definition final_outcome (events : list Event) (id : nat) : Outcome :=
  if decide (id ∈ completed events) then outcome id else Elapsed.

Definition final_report (events : list Event) (p : nat * Contributor) : nat * ContributorReport :=
  (p.1, report_of p.2 (final_outcome events p.1)).

Lemma completed_pending pending events id :
  sees pending events → id ∈ completed events → is_Some (pending !! id).
Proof.
  induction 1 as [|pending i c rest Hi _ IH|pending drained rest Hit]; simpl.
  - by intros ?%not_elem_of_nil.
  - intros [->|Hin]%elem_of_cons; [eauto|]. apply IH in Hin as [c' Hc']. delete_cases Hc'. eauto.
  - by intros ?%not_elem_of_nil.
Qed.

Lemma collect_within_perm pending events reports :
  sees pending events → pending ≠ ∅ →
  collect_within events pending reports ≡ₚ
    reports ++ (final_report events <$> map_to_list pending).
Proof.
  intros Hs. revert reports. induction Hs as [|pending i c rest Hi Hs IH|pending drained rest Hit];
    intros reports Hne; cbn [collect_within]; [done| |].
  - assert (final_report (Completed i (report_of c (outcome i)) :: rest) <$> map_to_list pending ≡ₚ
            (i, report_of c (outcome i)) :: (final_report rest <$> map_to_list (delete i pending)))
      as ->.
    { rewrite <-(insert_delete_id pending i c) at 1 by done.
      rewrite map_to_list_insert by apply lookup_delete_eq. cbn [fmap list_fmap].
      assert (final_report (Completed i (report_of c (outcome i)) :: rest) (i, c) =
              (i, report_of c (outcome i))) as ->.
      { unfold final_report, final_outcome. cbn [completed fst snd].
        by rewrite decide_True by apply list_elem_of_here. }
      apply Permutation_cons; [done|]. apply reflexive_eq, list_fmap_ext.
      intros k [j d] Hk. apply list_elem_of_lookup_2 in Hk.
      apply elem_of_map_to_list, lookup_delete_Some in Hk as [Hne' _].
      unfold final_report, final_outcome. cbn [completed fst snd]. f_equal.
      destruct (decide (j ∈ completed rest)), (decide (j ∈ i :: completed rest)); set_solver. }
    case_decide as Hemp.
    + rewrite Hemp, map_to_list_empty. done.
    + rewrite IH by done. by rewrite <-app_assoc.
  - apply Permutation_app_head. unfold iteration in Hit. rewrite <-Hit.
    apply reflexive_eq, list_fmap_ext. by intros ? [j d] _.
Qed.

(** Without a budget the two collections agree. *)
Lemma collect_all_within pending events reports :
  sees pending events → (∀ drained, BudgetElapsed drained ∉ events) →
  collect_within events pending reports = reports ++ collect_all events.
Proof.
  intros Hs. revert reports. induction Hs as [|pending i c rest Hi Hs IH|pending drained rest Hit];
    intros reports Hno; cbn [collect_within collect_all].
  - by rewrite app_nil_r.
  - case_decide as Hemp; [|rewrite IH by set_solver; by rewrite <-app_assoc].
    destruct rest as [|[j r|drained] rest]; cbn [collect_all]; [done| |set_solver].
    rewrite Hemp in Hs. inversion Hs as [|? ? ? ? Hj|]; subst. by rewrite lookup_empty in Hj.
  - set_solver.
Qed.

(** Reports by position, sorted by position, are the reports of the registry. *)
Lemma in_order_registry (registry : list Contributor) (o : nat → Outcome)
    (l : list (nat * ContributorReport)) :
  l ≡ₚ ((λ p, (p.1, report_of p.2 (o p.1))) <$> zip (seq 0 (length registry)) registry) →
  in_order l = imap (λ id c, report_of c (o id)) registry.
Proof.
  set (T := imap (λ id c, (id, report_of c (o id))) registry). intros Hl.
  assert ((λ p, (p.1, report_of p.2 (o p.1))) <$> zip (seq 0 (length registry)) registry = T) as HT.
  { subst T. apply list_eq. intros i. rewrite list_lookup_fmap, list_lookup_imap, lookup_zip_with.
    destruct (registry !! i) as [c|] eqn:Hc; simpl.
    - apply lookup_lt_Some in Hc as Hlt. rewrite lookup_seq_lt by done. done.
    - by destruct (seq 0 (length registry) !! i). }
  rewrite HT in Hl.
  assert (∀ x, x ∈ T → ∃ c, registry !! x.1 = Some c ∧ x.2 = report_of c (o x.1)) as HinT.
  { subst T. intros x (i & Hi)%list_elem_of_lookup. rewrite list_lookup_imap in Hi.
    destruct (registry !! i) eqn:Hc; [|done]. simplify_eq/=. eauto. }
  assert (merge_sort id_le l = T) as Hsort.
  { apply (StronglySorted_unique_strong id_le).
    - intros [i r] [j r'] Hx Hy Hij Hji. unfold id_le in *. simpl in *. assert (i = j) as -> by lia.
      rewrite merge_sort_Permutation, Hl in Hx. apply HinT in Hx as (c & Hc & Hr), Hy as (d & Hd & Hr').
      simpl in *. congruence.
    - apply (StronglySorted_merge_sort _).
    - clear. subst T. generalize registry as reg. intros reg.
      assert (∀ k, StronglySorted id_le (imap (λ i c, (k + i, report_of c (o (k + i)))) reg)) as H;
        [|exact (H 0)].
      induction reg as [|c reg IH]; intros k; [constructor|]. cbn [imap]. constructor.
      + erewrite imap_ext; [apply (IH (S k))|]. intros i x _. simpl. by rewrite Nat.add_succ_r.
      + apply Forall_forall. intros x (i & Hi)%list_elem_of_lookup. rewrite list_lookup_imap in Hi.
        destruct (reg !! i); [|done]. simplify_eq/=. unfold id_le. simpl. lia.
    - by rewrite merge_sort_Permutation. }
  unfold in_order. rewrite Hsort. subst T. by rewrite fmap_imap.
Qed.

Lemma max_by_severity_spec l :
  match max_by_severity l with
  | None => l = []
  | Some m => m ∈ l ∧ ∀ s, s ∈ l → severity s ≤ severity m
  end.
Proof.
  induction l as [|s l IH]; simpl; [done|]. destruct (max_by_severity l) as [m|].
  - destruct IH as [Hm Hle]. case_decide.
    + split; [left|]. intros s' [->|Hs]%elem_of_cons; [done|]. apply Hle in Hs. lia.
    + split; [by right|]. intros s' [->|Hs]%elem_of_cons; [lia|by apply Hle].
  - subst. split; [left|]. intros s' [->|[]%not_elem_of_nil]%elem_of_cons; done.
Qed.

Lemma fold_spec reports :
  (fold reports = Unhealthy ↔
     ∃ r, r ∈ reports ∧ report_status r = Unhealthy ∧ report_requirement r = Required) ∧
  (fold reports = Healthy ↔ ∀ r, r ∈ reports → report_status r = Healthy).
Proof.
  unfold fold. pose proof (max_by_severity_spec
    (map (λ r, contribution (report_status r) (report_requirement r)) reports)) as H.
  set (f := λ r, contribution (report_status r) (report_requirement r)) in *.
  destruct (max_by_severity (map f reports)) as [m|]; simpl.
  - destruct H as [Hm Hle].
    assert (∀ r, r ∈ reports → severity (f r) ≤ severity m) as Hle'.
    { intros r Hr. apply Hle. apply list_elem_of_fmap. eauto. }
    apply list_elem_of_fmap in Hm as (r & -> & Hr). subst f. split; split.
    + intros Hu. exists r. destruct (report_status r), (report_requirement r); done.
    + intros (q & Hq & Hu & Hreq). apply Hle' in Hq. simpl in Hq. rewrite Hu, Hreq in Hq. simpl in Hq.
      destruct (report_status r), (report_requirement r); simpl in *; done || lia.
    + intros Hh q Hq. apply Hle' in Hq. simpl in Hq. rewrite Hh in Hq. simpl in Hq.
      destruct (report_status q), (report_requirement q); simpl in *; done || lia.
    + intros Hall. by rewrite (Hall r Hr).
  - destruct reports; [|done]. split; split; try done.
    + by intros (r & ?%not_elem_of_nil & _).
    + by intros _ r ?%not_elem_of_nil.
Qed.

Lemma collect_reports_exact registry config events :
  sees (pending_of registry) events →
  (global_budget config = None → ∀ drained, BudgetElapsed drained ∉ events) →
  collect_reports registry config events =
    imap (λ id c, report_of c (final_outcome events id)) registry.
Proof.
  intros Hs Hno.
  assert (collect_reports registry config events =
          in_order (collect_within events (pending_of registry) [])) as ->.
  { unfold collect_reports. destruct (global_budget config); [done|].
    by rewrite (collect_all_within _ _ _ Hs) by auto. }
  destruct registry as [|c0 reg].
  - inversion Hs as [|? ? ? ? Hi|? ? ? Hit]; subst; [done|done|].
    unfold iteration in Hit. change (pending_of []) with (∅ : gmap nat Contributor) in Hit.
    rewrite map_to_list_empty in Hit. by apply Permutation_nil_r in Hit as ->.
  - apply in_order_registry. rewrite collect_within_perm; [|done|].
    + unfold pending_of. by rewrite map_to_list_seq.
    + intros He. apply (f_equal (.!! 0)) in He. unfold pending_of in He.
      by rewrite lookup_map_seq_0, lookup_empty in He.
Qed.

(** However the checks of the contributors interleave and wherever the global budget
    cuts them off, the report has exactly one entry for each contributor, in the order of
    registration, same-named ones included: what the check came to if it completed in
    time, and a timeout if it did not.  The probe fails exactly when a required
    contributor is unhealthy, and is healthy exactly when all are. *)
Lemma aggregation_loses_nobody (probe : ProbeKind) (registry : list Contributor)
    (config : HealthAggregationConfig) (events : list Event) :
  sees (pending_of registry) events →
  (global_budget config = None → ∀ drained, BudgetElapsed drained ∉ events) →
  let r := aggregate probe registry config events in
  report_probe r = probe ∧
  report_contributors r = imap (λ id c, report_of c (final_outcome events id)) registry ∧
  (overall r = Unhealthy ↔
     ∃ id c, registry !! id = Some c ∧ contributor_requirement c = Required ∧
       report_status (report_of c (final_outcome events id)) = Unhealthy) ∧
  (overall r = Healthy ↔
     ∀ id c, registry !! id = Some c →
       report_status (report_of c (final_outcome events id)) = Healthy).
Proof.
  intros Hs Hno r. pose proof (collect_reports_exact registry config events Hs Hno) as Hr.
  change (collect_reports registry config events) with (report_contributors r) in Hr.
  assert (∀ q, q ∈ report_contributors r ↔
            ∃ id c, registry !! id = Some c ∧ q = report_of c (final_outcome events id)) as Hin.
  { intros q. rewrite Hr, list_elem_of_lookup. setoid_rewrite list_lookup_imap. split.
    - intros (id & Hq). destruct (registry !! id) as [c|] eqn:Hc; [|done]. simplify_eq/=. eauto.
    - intros (id & c & Hc & ->). exists id. by rewrite Hc. }
  assert (∀ c o, report_requirement (report_of c o) = contributor_requirement c) as Hreq
    by (by intros c []).
  split; [done|]. split; [done|]. change (overall r) with (fold (report_contributors r)).
  destruct (fold_spec (report_contributors r)) as [-> ->]. setoid_rewrite Hin. split; split.
  - intros (q & (id & c & Hc & ->) & Hu & Hq). rewrite Hreq in Hq. eauto.
  - intros (id & c & Hc & Hq & Hu). eexists. rewrite <-(Hreq c (final_outcome events id)) in Hq. eauto 10.
  - intros H id c Hc. apply H. eauto.
  - intros H q (id & c & Hc & ->). eauto.
Qed.
End runs.

(** ** Witness *)
Module Example_health.
Definition registry : list Contributor :=
  [reservation_contributor; mk_contributor "cache" Optional; mk_contributor "cache" Optional].
Definition outcome (id : nat) : Outcome :=
  match id with 0 => Checked (reservation_check (Ok ())) | 1 => CheckPanicked | _ => Elapsed end.

(** The second check panics first, the first is fine, the third runs out of budget. *)
Definition events : list Event :=
  [Completed 1 (report_of (mk_contributor "cache" Optional) CheckPanicked);
   Completed 0 (report_of reservation_contributor (outcome 0));
   BudgetElapsed [(2, mk_contributor "cache" Optional)]].

Definition config : HealthAggregationConfig := mk_aggregation 5000 (Some 9000%Z).

Lemma aggregation_loses_nobody_witness :
  overall (readiness registry config events) = Degraded ∧
  report_contributors (readiness registry config events) =
    imap (λ id c, report_of c (final_outcome outcome events id)) registry.
Proof.
  split; [by vm_compute|].
  apply (aggregation_loses_nobody outcome Readiness registry config events); [|done].
  apply (sees_completed outcome _ 1 (mk_contributor "cache" Optional)); [reflexivity|].
  apply (sees_completed outcome _ 0 reservation_contributor); [reflexivity|].
  apply sees_budget. by vm_compute.
Defined.
End Example_health.
