(* ===== verification/ServiceRegistry.v ===== *)
(** * Contract versions and the service registry

    crates/service-sdk, contract/version.rs and registry/registry.rs.

    The [TypeId] of a tag is a text, an implementation an element of any type.
    [semver] is third-party: a requirement is the predicate its [matches] decides.
    Merging walks the other registry in an order that is an argument. *)

From Stdlib Require Import Decimal DecimalString DecimalPos DecimalN.
From S2P Require Import Prelude Fingerprint Security ClaimSet Jwt Introspection Oidc.

(** ** Versions *)
Record ContractVersion := mk_version { major : N; minor : N; patch : N }.
#[export] Instance ContractVersion_eq_dec : EqDecision ContractVersion.
Proof. solve_decision. Defined.

(** A decimal numeral. *)
Definition u32_to_string (n : N) : string := NilZero.string_of_uint (N.to_uint n).

Definition ContractVersion_to_string (v : ContractVersion) : string :=
  u32_to_string (major v) +:+ "." +:+ u32_to_string (minor v) +:+ "." +:+ u32_to_string (patch v).

(** [str::parse::<u32>]: an optional plus sign and at least one digit, no overflow. *)
Definition parse_u32 (s : string) : option N :=
  let digits := match s with String "+" rest => rest | _ => s end in
  d ← NilZero.uint_of_string digits;
  let n := N.of_uint d in
  if decide (Z.of_N n ≤ u32_max)%Z then Some n else None.

Definition ContractVersion_from_str (s : string) : result string ContractVersion :=
  match split_on dot s with
  | [a; b; c] =>
      major ← ok_or "Invalid major version" (parse_u32 a);
      minor ← ok_or "Invalid minor version" (parse_u32 b);
      patch ← ok_or "Invalid patch version" (parse_u32 c);
      Ok (mk_version major minor patch)
  | _ => Err "Invalid version format. Expected format: major.minor.patch"
  end.

(** [Ord::cmp] *)
Definition version_cmp (v w : ContractVersion) : comparison :=
  match (major v ?= major w)%N with
  | Eq => match (minor v ?= minor w)%N with Eq => (patch v ?= patch w)%N | c => c end
  | c => c
  end.

Inductive VersionConstraint :=
| Exact (v : ContractVersion)
| LatestCompatible (req : N * N * N → bool).

Definition to_semver (v : ContractVersion) : N * N * N := (major v, minor v, patch v).

Definition constraint_matches (c : VersionConstraint) (v : ContractVersion) : bool :=
  match c with
  | Exact w => bool_decide (w = v)
  | LatestCompatible req => req (to_semver v)
  end.

Definition constraint_exact (s : string) : result string VersionConstraint :=
  Exact <$> ContractVersion_from_str s.

(** ** The registry *)
Inductive RegistryError :=
| DuplicateService (name version : string)
| ServiceNotFound
| DependencyNotFound
| DependencyCycle.

Section registry.
Context {I : Type}.

Abbreviation VersionList := (list (ContractVersion * I)).
Abbreviation ServiceRegistry := (gmap string VersionList).

Definition has_version (v : ContractVersion) (l : VersionList) : bool :=
  existsb (λ e, bool_decide (e.1 = v)) l.

Definition versions_of (tag : string) (r : ServiceRegistry) : VersionList := default [] (r !! tag).

(** [name] is [type_name::<Tag>()].  The entry of the tag exists afterwards either way. *)
Definition register (name tag : string) (version : ContractVersion) (impl : I) (r : ServiceRegistry) :
    result RegistryError () * ServiceRegistry :=
  let entries := versions_of tag r in
  if has_version version entries
  then (Err (DuplicateService name (ContractVersion_to_string version)), <[tag := entries]> r)
  else (Ok (), <[tag := entries ++ [(version, impl)]]> r).

(** [max_by_key]: the last of the largest. *)
Fixpoint max_version (l : VersionList) : option (ContractVersion * I) :=
  match l with
  | [] => None
  | e :: l' =>
      match max_version l' with
      | None => Some e
      | Some m => match version_cmp e.1 m.1 with Gt => Some e | _ => Some m end
      end
  end.

Definition resolve_raw (tag : string) (c : VersionConstraint) (r : ServiceRegistry) :
    result RegistryError I :=
  entries ← ok_or ServiceNotFound (r !! tag);
  ok_or ServiceNotFound (snd <$> max_version (filter (λ e, constraint_matches c e.1) entries)).

(** The inner loop of [merge]: the versions of one tag. *)
Fixpoint merge_versions (tag : string) (l : VersionList) (r : ServiceRegistry) :
    result RegistryError () * ServiceRegistry :=
  match l with
  | [] => (Ok (), r)
  | (v, impl) :: rest =>
      match register ("TypeId(" +:+ tag +:+ ")") tag v impl r with
      | (Ok _, r') => merge_versions tag rest r'
      | (Err e, r') => (Err e, r')
      end
  end.

Fixpoint merge (other : list (string * VersionList)) (r : ServiceRegistry) :
    result RegistryError () * ServiceRegistry :=
  match other with
  | [] => (Ok (), r)
  | (tag, l) :: rest =>
      match merge_versions tag l r with
      | (Ok _, r') => merge rest r'
      | (Err e, r') => (Err e, r')
      end
  end.
End registry.
Arguments register {I} name tag version impl r.

(** ** Numerals *)
Lemma uint_chars (d : uint) :
  contains dot (NilEmpty.string_of_uint d) = false ∧
  (∀ rest, NilEmpty.string_of_uint d ≠ String "+" rest).
Proof. induction d as [|d IH|d IH|d IH|d IH|d IH|d IH|d IH|d IH|d IH|d IH]; [by vm_compute|..];
  destruct IH as [IH _]; cbn [NilEmpty.string_of_uint contains];
  (split; [rewrite decide_False by done; exact IH|done]).
Qed.

Lemma u32_to_string_chars n :
  contains dot (u32_to_string n) = false ∧ (∀ rest, u32_to_string n ≠ String "+" rest).
Proof.
  unfold u32_to_string, NilZero.string_of_uint. destruct (N.to_uint n) eqn:Hd; [by vm_compute|..];
    rewrite <-Hd; apply uint_chars.
Qed.

Lemma parse_u32_to_string n : (Z.of_N n ≤ u32_max)%Z → parse_u32 (u32_to_string n) = Some n.
Proof.
  intros Hn. destruct (u32_to_string_chars n) as [_ Hplus].
  assert (NilZero.uint_of_string (u32_to_string n) = Some (N.to_uint n)) as Hs.
  { unfold u32_to_string. apply NilZero.usu.
    destruct n; [done|]. apply DecimalPos.Unsigned.to_uint_nonnil. }
  assert (parse_u32 (u32_to_string n) =
          d ← NilZero.uint_of_string (u32_to_string n);
          if decide (Z.of_N (N.of_uint d) ≤ u32_max)%Z then Some (N.of_uint d) else None) as ->.
  { unfold parse_u32. destruct (u32_to_string n) as [|a rest]; [done|].
    destruct (decide (a = "+"%char)) as [->|Hne]; [by destruct (Hplus rest)|].
    destruct a as [[] [] [] [] [] [] [] []]; done || by destruct Hne. }
  rewrite Hs. cbn [mbind option_bind]. rewrite DecimalN.Unsigned.of_to. by rewrite decide_True.
Qed.

Lemma parse_u32_bound s n : parse_u32 s = Some n → (Z.of_N n ≤ u32_max)%Z.
Proof.
  unfold parse_u32. generalize (match s with String "+" rest => rest | _ => s end). intros digits.
  destruct (NilZero.uint_of_string digits); simpl; [|done]. case_decide; [|done]. by intros [= <-].
Qed.

Lemma split_on_last c l : contains c l = false → split_on c l = [l].
Proof.
  induction l as [|a l IH]; cbn [contains split_on]; [done|]. case_decide; [done|]. intros Hl.
  by rewrite IH.
Qed.

Lemma split_on_app c l r : contains c l = false → split_on c (l +:+ String c r) = l :: split_on c r.
Proof.
  induction l as [|a l IH]; intros Hl.
  - change ("" +:+ String c r) with (String c r). cbn [split_on]. by rewrite decide_True.
  - change (String a l +:+ String c r) with (String a (l +:+ String c r)).
    cbn [contains split_on] in *. case_decide; [done|]. by rewrite IH.
Qed.

(** A version survives printing and parsing, and parsing only yields versions of
    32-bit numbers. *)
Lemma version_round_trip (v : ContractVersion) :
  (Z.of_N (major v) ≤ u32_max)%Z ∧ (Z.of_N (minor v) ≤ u32_max)%Z ∧ (Z.of_N (patch v) ≤ u32_max)%Z ↔
  ContractVersion_from_str (ContractVersion_to_string v) = Ok v.
Proof.
  unfold ContractVersion_from_str, ContractVersion_to_string.
  pose proof (proj1 (u32_to_string_chars (major v))) as Ha.
  pose proof (proj1 (u32_to_string_chars (minor v))) as Hb.
  pose proof (proj1 (u32_to_string_chars (patch v))) as Hc.
  change (u32_to_string (major v) +:+ "." +:+ u32_to_string (minor v) +:+ "." +:+ u32_to_string (patch v))
    with (u32_to_string (major v) +:+ String dot (u32_to_string (minor v) +:+ String dot (u32_to_string (patch v)))).
  rewrite !split_on_app, split_on_last by done. split.
  - intros (H1 & H2 & H3). rewrite !parse_u32_to_string by done. by destruct v.
  - intros (a & Ha'%ok_or_Ok & (b & Hb'%ok_or_Ok & (c & Hc'%ok_or_Ok & [= <-])%bind_Ok)%bind_Ok)%bind_Ok.
    split_and!; by eapply parse_u32_bound.
Qed.

(** ** Order *)
Lemma version_cmp_Gt v w :
  version_cmp v w = Gt ↔
  (major w < major v)%N ∨ major w = major v ∧
    ((minor w < minor v)%N ∨ minor w = minor v ∧ (patch w < patch v)%N).
Proof.
  unfold version_cmp.
  destruct (N.compare_spec (major v) (major w)), (N.compare_spec (minor v) (minor w)),
    (N.compare_spec (patch v) (patch w)); split; intros; try done; lia.
Qed.

Lemma version_cmp_antisym v w : version_cmp v w ≠ Gt → version_cmp w v ≠ Gt → v = w.
Proof.
  rewrite !version_cmp_Gt. destruct v as [a b c], w as [a' b' c']; simpl. intros.
  assert (a = a' ∧ b = b' ∧ c = c') as (-> & -> & ->) by lia. done.
Qed.

(** ** What the registry holds *)
Section held.
Context {I : Type}.
Implicit Types (r : gmap string (list (ContractVersion * I))).

Definition Registration : Type := string * ContractVersion * I.

(** Calls of [register], oldest first, whatever each answered. *)
Definition registered (ops : list Registration) : gmap string (list (ContractVersion * I)) :=
  foldl (λ r op, (register op.1.1 op.1.1 op.1.2 op.2 r).2) ∅ ops.

(** The first implementation offered for a version of a tag. *)
Fixpoint first_impl (ops : list Registration) (tag : string) (v : ContractVersion) : option I :=
  match ops with
  | [] => None
  | (t, w, i) :: rest => if decide (t = tag ∧ w = v) then Some i else first_impl rest tag v
  end.

Lemma first_impl_snoc ops op tag v :
  first_impl (ops ++ [op]) tag v =
    match first_impl ops tag v with
    | Some i => Some i
    | None => if decide (op.1.1 = tag ∧ op.1.2 = v) then Some op.2 else None
    end.
Proof.
  induction ops as [|[[t w] i] ops IH]; simpl; [by destruct op as [[] ?]|].
  destruct (decide (t = tag ∧ w = v)); [done|exact IH].
Qed.

Lemma has_version_true v (l : list (ContractVersion * I)) :
  has_version v l = true ↔ ∃ i, (v, i) ∈ l.
Proof.
  unfold has_version. rewrite existsb_elem_of. split.
  - intros ([w i] & Hin & Hw%bool_decide_eq_true). simpl in Hw. subst. eauto.
  - intros [i Hin]. exists (v, i). split; [done|]. by apply bool_decide_eq_true.
Qed.

Lemma versions_of_register name tag v (i : I) r tag' :
  versions_of tag' (register name tag v i r).2 =
    if decide (tag' = tag ∧ has_version v (versions_of tag r) = false)
    then versions_of tag r ++ [(v, i)] else versions_of tag' r.
Proof.
  unfold register. destruct (has_version v (versions_of tag r)) eqn:Hh; simpl; unfold versions_of;
    rewrite lookup_insert; destruct (decide (tag = tag')) as [->|Hne]; simpl;
    [rewrite decide_False by naive_solver|rewrite decide_False by naive_solver
    |rewrite decide_True by done|rewrite decide_False by naive_solver]; done.
Qed.

(** The registry holds, for each version of each tag, the first implementation. *)
Lemma versions_registered ops tag v i :
  (v, i) ∈ versions_of tag (registered ops) ↔ first_impl ops tag v = Some i.
Proof.
  revert v i. induction ops as [|[[t w] j] ops IH] using rev_ind; intros v i.
  { simpl. split; [by intros ?%not_elem_of_nil|done]. }
  unfold registered. rewrite foldl_app. cbn [foldl fst snd]. fold (registered ops).
  rewrite versions_of_register, first_impl_snoc. cbn [fst snd]. case_decide as Hd.
  - destruct Hd as [-> Hno]. rewrite elem_of_app, list_elem_of_singleton, IH.
    assert (first_impl ops t w = None) as Hw.
    { destruct (first_impl ops t w) as [k|] eqn:Hk; [|done]. apply IH in Hk.
      apply not_true_iff_false in Hno. destruct Hno. apply has_version_true. eauto. }
    destruct (first_impl ops t v) as [k|] eqn:Hv.
    + split; [intros [?|?]; [done|simplify_eq]|intros [= ->]; by left].
    + case_decide as Hd; split; naive_solver.
  - rewrite IH. destruct (first_impl ops tag v) as [k|] eqn:Hv; [done|].
    case_decide as Hd'; [|done]. destruct Hd' as [-> ->]. split; [done|].
    destruct Hd. split; [done|]. apply not_true_iff_false. intros [k Hk]%has_version_true.
    apply IH in Hk. congruence.
Qed.

Lemma max_version_spec (l : list (ContractVersion * I)) :
  match max_version l with
  | None => l = []
  | Some m => m ∈ l ∧ ∀ e, e ∈ l → version_cmp e.1 m.1 ≠ Gt
  end.
Proof.
  induction l as [|x l IH]; cbn [max_version]; [done|]. destruct (max_version l) as [m|].
  - destruct IH as [Hm Hle].
    assert (version_cmp x.1 x.1 ≠ Gt) as Hxx by (rewrite version_cmp_Gt; lia).
    destruct (version_cmp x.1 m.1) eqn:Hc; (split; [by (left || right)|]);
      intros e [->|He]%elem_of_cons; try done; try congruence; try by apply Hle.
    apply Hle in He. rewrite version_cmp_Gt in *. lia.
  - subst. split; [left|]. intros e [->|[]%not_elem_of_nil]%elem_of_cons. rewrite version_cmp_Gt. lia.
Qed.

(** Whatever registrations were made, resolving a tag under a constraint answers the
    implementation first registered for the highest version that satisfies it, and
    fails exactly when no registered version does: a rejected duplicate never replaces
    the one before it. *)
Lemma resolution_is_highest (ops : list Registration) (tag : string) (c : VersionConstraint) :
  match resolve_raw tag c (registered ops) with
  | Ok impl =>
      ∃ v, first_impl ops tag v = Some impl ∧ constraint_matches c v = true ∧
        ∀ w j, first_impl ops tag w = Some j → constraint_matches c w = true →
          version_cmp w v = Gt → False
  | Err e =>
      e = ServiceNotFound ∧
      ∀ v i, first_impl ops tag v = Some i → constraint_matches c v = true → False
  end.
Proof.
  unfold resolve_raw. pose proof (versions_registered ops tag) as Hv. unfold versions_of in Hv.
  destruct (registered ops !! tag) as [l|]; cbn [ok_or mbind result_bind default from_option id] in *.
  2: { split; [done|]. intros v i Hi%Hv. by apply not_elem_of_nil in Hi. }
  pose proof (max_version_spec (filter (λ e, constraint_matches c e.1) l)) as Hmax.
  destruct (max_version _) as [[v impl]|]; simpl.
  - destruct Hmax as [[Hm Hin]%list_elem_of_filter Hle]. exists v. split; [by apply Hv|].
    split; [by apply Is_true_eq_true in Hm|]. intros w j Hj%Hv Hw Hgt.
    apply (Hle (w, j)); [|done]. apply list_elem_of_filter. split; [by apply Is_true_eq_left|done].
  - split; [done|]. intros v i Hi%Hv Hm. assert ((v, i) ∈ filter (λ e, constraint_matches c e.1) l) as Hin.
    { apply list_elem_of_filter. split; [by apply Is_true_eq_left|done]. }
    rewrite Hmax in Hin. by apply not_elem_of_nil in Hin.
Qed.

(** ** Merging *)
Definition entries_of (other : list (string * list (ContractVersion * I))) : list Registration :=
  concat (map (λ '(tag, l), map (λ '(v, i), (tag, v, i)) l) other).

(** What merging [es] into [r] comes to. *)
Definition merged (es : list Registration) r (res : result RegistryError ())
    (r' : gmap string (list (ContractVersion * I))) : Prop :=
  match res with
  | Ok _ =>
      (∀ tag v i, (v, i) ∈ versions_of tag r' ↔ (v, i) ∈ versions_of tag r ∨ (tag, v, i) ∈ es) ∧
      (∀ tag v i, (tag, v, i) ∈ es → has_version v (versions_of tag r) = false)
  | Err _ =>
      (∃ tag v i, (tag, v, i) ∈ es ∧ has_version v (versions_of tag r) = true) ∧
      (∀ tag v i, (v, i) ∈ versions_of tag r → (v, i) ∈ versions_of tag r')
  end.

(** One more entry before the rest. *)
Lemma merged_cons tag v i es r name res r' :
  (tag, v) ∉ es.*1 → has_version v (versions_of tag r) = false →
  merged es (register name tag v i r).2 res r' → merged ((tag, v, i) :: es) r res r'.
Proof.
  intros Hnew Hno.
  assert (∀ t w j, (w, j) ∈ versions_of t (register name tag v i r).2 ↔
            (w, j) ∈ versions_of t r ∨ (t, w, j) = (tag, v, i)) as Hreg.
  { intros t w j. rewrite versions_of_register. case_decide as Hd.
    - destruct Hd as [-> _]. rewrite elem_of_app, list_elem_of_singleton. naive_solver.
    - split; [by left|]. intros [?|[= -> -> ->]]; [done|]. destruct Hd. done. }
  assert (∀ t w, has_version w (versions_of t (register name tag v i r).2) = true ↔
            has_version w (versions_of t r) = true ∨ (t, w) = (tag, v)) as Hhas.
  { intros t w. rewrite !has_version_true. setoid_rewrite Hreg. naive_solver. }
  destruct res as [u|e]; intros [Ha Hb]; split.
  - intros t w j. rewrite Ha, Hreg, elem_of_cons. naive_solver.
  - intros t w j [[= -> -> ->]|Hin]%elem_of_cons; [done|]. apply not_true_iff_false. intros Hw.
    apply Hb in Hin as Hf. rewrite <-not_true_iff_false, Hhas in Hf. naive_solver.
  - destruct Ha as (t & w & j & Hin & [Hw|[= -> ->]]%Hhas).
    + exists t, w, j. split; [by right|done].
    + destruct Hnew. apply list_elem_of_fmap. by exists (tag, v, j).
  - intros t w j Hin. apply Hb, Hreg. by left.
Qed.

Lemma merge_versions_spec tag l rest r :
  NoDup (entries_of ((tag, l) :: rest)).*1 →
  match merge_versions tag l r with
  | (Ok _, r1) => ∀ res r', merged (entries_of rest) r1 res r' →
      merged (entries_of ((tag, l) :: rest)) r res r'
  | (Err e, r1) => merged (entries_of ((tag, l) :: rest)) r (Err e) r1
  end.
Proof.
  revert r. induction l as [|[v i] l IH]; intros r Hnd; [by intros res r'|]. cbn [merge_versions].
  change (entries_of ((tag, (v, i) :: l) :: rest)) with ((tag, v, i) :: entries_of ((tag, l) :: rest)) in *.
  apply NoDup_cons in Hnd as [Hnew Hnd]. cbn [fst] in Hnew.
  destruct (has_version v (versions_of tag r)) eqn:Hh.
  - unfold register. rewrite Hh. split.
    + exists tag, v, i. split; [left|done].
    + intros t w j Hin. unfold versions_of in *. rewrite lookup_insert.
      case_decide as Ht; [by subst|done].
  - set (name := "TypeId(" +:+ tag +:+ ")").
    assert (register name tag v i r = (Ok (), (register name tag v i r).2)) as Heq
      by (unfold register; by rewrite Hh).
    rewrite Heq. specialize (IH (register name tag v i r).2 Hnd).
    destruct (merge_versions tag l (register name tag v i r).2) as [[u|e] r1].
    + intros res r' Hm. eapply merged_cons; eauto.
    + eapply merged_cons; eauto.
Qed.

(** Merging succeeds exactly when no version of a tag is in both registries, and
    then holds what either held; when it fails, a version in both is the reason, and
    every entry of the receiving registry is still there. *)
Lemma merge_exact (other : list (string * list (ContractVersion * I))) r :
  NoDup (entries_of other).*1 →
  merged (entries_of other) r (merge other r).1 (merge other r).2.
Proof.
  revert r. induction other as [|[tag l] rest IH]; intros r Hnd; cbn [merge].
  - split; [|by intros ??? ?%not_elem_of_nil]. intros t v i. cbn [snd]. set_solver.
  - pose proof (merge_versions_spec tag l rest r Hnd) as H.
    destruct (merge_versions tag l r) as [[u|e] r1]; [|done]. apply H, IH.
    unfold entries_of in Hnd. cbn [map concat] in Hnd. rewrite fmap_app in Hnd.
    by apply NoDup_app in Hnd as (_ & _ & ?).
Qed.
End held.

(** ** Witness *)
Module Example_registry.
Definition v1 : ContractVersion := mk_version 1 0 0.
Definition mine : gmap string (list (ContractVersion * nat)) := {[ "orders" := [(v1, 7)] ]}.

Lemma merge_exact_witness :
  merged (entries_of [("orders", [(v1, 8)])]) mine
    (merge [("orders", [(v1, 8)])] mine).1 (merge [("orders", [(v1, 8)])] mine).2 ∧
  is_ok (merge [("orders", [(v1, 8)])] mine).1 = false.
Proof.
  split; [|by vm_compute]. apply (merge_exact [("orders", [(v1, 8)])] mine).
  apply NoDup_singleton.
Defined.
End Example_registry.
