(* ===== verification/Sql.v ===== *)
(** * Tables, statements and programs over a database

    The durable stores (crates/persistence, crates/persistence-stoolap,
    crates/effect-store) keep their state in tables of a database and change it
    with single conditional statements.  A table whose rows are identified by a
    UNIQUE constraint is a finite map from the identifying columns to the others;
    a statement is one of the shapes below, with its WHERE clause as a predicate
    on rows and its SET clause as a function.  The database itself is not part of
    the repository: all that is assumed of it is the meaning of SQL, that one
    statement is atomic, and that a statement which reports an error changed
    nothing ([effect]).  Which errors it reports, and when, is left open.

    A method of a store is a program whose commands are statements and clock
    readings, so between two statements of one call any other call may run
    ([step]).  [runs] is the part of an interleaving that one call sees. *)

From S2P Require Import Prelude Programs.

(** ** Statements *)
Section statements.
Context {K R : Type} `{Countable K}.

(** The rows a WHERE clause selects. *)
Definition matching (where_ : K → R → bool) (t : gmap K R) : gmap K R :=
  filter (λ kr, where_ kr.1 kr.2 = true) t.

(** INSERT ... ON CONFLICT DO NOTHING: the rows inserted. *)
Definition insert_or_ignore (k : K) (r : R) (t : gmap K R) : Z * gmap K R :=
  match t !! k with Some _ => (0%Z, t) | None => (1%Z, <[k := r]> t) end.

(** INSERT ... ON CONFLICT DO UPDATE SET ... WHERE ... RETURNING: the row written.  A SET
    clause that cannot be evaluated, as on an integer overflow, fails the statement. *)
Definition insert_or_update (k : K) (r : R) (set : R → option R) (where_ : R → bool)
    (t : gmap K R) : option (option R * gmap K R) :=
  match t !! k with
  | Some old =>
      if where_ old then new ← set old; Some (Some new, <[k := new]> t) else Some (None, t)
  | None => Some (Some r, <[k := r]> t)
  end.

(** UPDATE ... SET ... WHERE: the rows affected.  No statement of the stores changes an
    identifying column. *)
Definition update (where_ : K → R → bool) (set : R → R) (t : gmap K R) : Z * gmap K R :=
  (Z.of_nat (size (matching where_ t)),
   map_imap (λ k r, Some (if where_ k r then set r else r)) t).

(** DELETE ... WHERE: the rows affected. *)
Definition delete_where (where_ : K → R → bool) (t : gmap K R) : Z * gmap K R :=
  (Z.of_nat (size (matching where_ t)),
   filter (λ kr, where_ kr.1 kr.2 = false) t).

(** [n] rows chosen by a LIMIT clause among those selected; a clause that skips
    locked rows may choose fewer. *)
Definition chosen (where_ : K → R → bool) (limit : Z) (t : gmap K R) (ks : list K) : Prop :=
  NoDup ks ∧ (Z.of_nat (length ks) ≤ Z.max 0 limit)%Z ∧
  ∀ k, k ∈ ks → is_Some (matching where_ t !! k).

Inductive stmt : Type → Type :=
| InsertOrIgnore (k : K) (r : R) : stmt Z
| InsertOrUpdate (k : K) (r : R) (set : R → option R) (where_ : R → bool) : stmt (option R)
| Update (where_ : K → R → bool) (set : R → R) : stmt Z
| Delete (where_ : K → R → bool) : stmt Z
(** SELECT ... WHERE [ORDER BY ...] [LIMIT ...]: without ORDER BY the order is open. *)
| Select (where_ : K → R → bool) (order : K * R → K * R → Prop) (limit : option Z) :
    stmt (list (K * R))
(** DELETE of, and UPDATE ... RETURNING over, rows chosen by a subquery with LIMIT. *)
| DeleteSome (where_ : K → R → bool) (limit : Z) : stmt Z
| UpdateSome (where_ : K → R → bool) (limit : Z) (set : R → R) : stmt (list (K * R)).

Definition any_order (_ _ : K * R) : Prop := True.

(** [meaning s t b t']: on table [t] the statement may answer [b] and leave [t']. *)
Definition meaning {B} (s : stmt B) (t : gmap K R) : B → gmap K R → Prop :=
  match s in stmt B return B → gmap K R → Prop with
  | InsertOrIgnore k r => λ b t', insert_or_ignore k r t = (b, t')
  | InsertOrUpdate k r set where_ => λ b t', insert_or_update k r set where_ t = Some (b, t')
  | Update where_ set => λ b t', update where_ set t = (b, t')
  | Delete where_ => λ b t', delete_where where_ t = (b, t')
  | Select where_ order limit => λ b t',
      t' = t ∧ ∃ it, iteration (matching where_ t) it ∧ StronglySorted order it ∧
        b = match limit with Some n => take (Z.to_nat n) it | None => it end
  | DeleteSome where_ limit => λ b t',
      ∃ ks, chosen where_ limit t ks ∧ b = Z.of_nat (length ks) ∧ t' = remove_keys ks t
  | UpdateSome where_ limit set => λ b t',
      ∃ ks, chosen where_ limit t ks ∧
        t' = map_imap (λ k r, Some (if decide (k ∈ ks) then set r else r)) t ∧
        b = omap (λ k, r ← t' !! k; Some (k, r)) ks
  end.
End statements.
Arguments stmt : clear implicits.

(** A predicate on the row with one identity. *)
Definition at_key `{EqDecision K} {R} (k : K) (p : R → bool) (k' : K) (r : R) : bool :=
  bool_decide (k' = k) && p r.

Section statement_lemmas.
Context {K R : Type} `{Countable K}.
Implicit Types (t : gmap K R) (k : K) (p : R → bool).

Lemma lookup_matching (where_ : K → R → bool) t k r :
  matching where_ t !! k = Some r ↔ t !! k = Some r ∧ where_ k r = true.
Proof. unfold matching. by rewrite map_lookup_filter_Some. Qed.

Lemma matching_at k p t :
  matching (at_key k p) t = match t !! k with
                            | Some r => if p r then {[k := r]} else ∅
                            | None => ∅
                            end.
Proof.
  unfold matching, at_key. apply map_eq. intros k'. apply option_eq. intros r.
  rewrite map_lookup_filter_Some. simpl. rewrite andb_true_iff, bool_decide_eq_true.
  destruct (t !! k) as [r0|] eqn:Hk; [destruct (p r0) eqn:Hp|].
  - rewrite lookup_singleton_Some. split; [intros (? & -> & ?); split; congruence|].
    by intros [-> ->].
  - rewrite lookup_empty. split; [intros (? & -> & ?); congruence|done].
  - rewrite lookup_empty. split; [intros (? & -> & ?); congruence|done].
Qed.

(** An UPDATE of the row with one identity changes that row, if its condition holds. *)
Lemma update_at k p set t :
  update (at_key k p) set t =
  match t !! k with
  | Some r => if p r then (1%Z, <[k := set r]> t) else (0%Z, t)
  | None => (0%Z, t)
  end.
Proof.
  unfold update. rewrite matching_at.
  assert (∀ u, (∀ k', map_imap (λ k' r, Some (if at_key k p k' r then set r else r)) t !! k'
                  = u !! k') →
               map_imap (λ k' r, Some (if at_key k p k' r then set r else r)) t = u) as Hu
    by (intros u Hu; by apply map_eq).
  assert (∀ k' r, t !! k' = Some r → at_key k p k' r = bool_decide (k' = k) && p r) by done.
  destruct (t !! k) as [r|] eqn:Hk; [destruct (p r) eqn:Hp|].
  - rewrite map_size_singleton. f_equal. apply Hu. intros k'. rewrite map_lookup_imap.
    destruct (decide (k' = k)) as [->|Hne].
    + rewrite Hk, lookup_insert_eq. simpl. unfold at_key.
      by rewrite bool_decide_eq_true_2, Hp by done.
    + rewrite lookup_insert_ne by done. destruct (t !! k'); simpl; [|done].
      unfold at_key. by rewrite bool_decide_eq_false_2.
  - rewrite map_size_empty. f_equal. apply Hu. intros k'. rewrite map_lookup_imap.
    destruct (t !! k') as [r'|] eqn:Hk'; simpl; [|done]. unfold at_key.
    case_bool_decide; simplify_eq; simpl; by rewrite ?Hp.
  - rewrite map_size_empty. f_equal. apply Hu. intros k'. rewrite map_lookup_imap.
    destruct (t !! k') as [r'|] eqn:Hk'; simpl; [|done]. unfold at_key.
    by case_bool_decide; simplify_eq.
Qed.

Lemma delete_at k p t :
  delete_where (at_key k p) t =
  match t !! k with
  | Some r => if p r then (1%Z, delete k t) else (0%Z, t)
  | None => (0%Z, t)
  end.
Proof.
  unfold delete_where. rewrite matching_at.
  assert (∀ u, (∀ k' r, t !! k' = Some r ∧ at_key k p k' r = false ↔ u !! k' = Some r) →
     filter (λ kr, at_key k p kr.1 kr.2 = false) t = u) as Hu.
  { intros u Hu. apply map_eq. intros k'. apply option_eq. intros r.
    by rewrite map_lookup_filter_Some, <-Hu. }
  unfold at_key in Hu.
  destruct (t !! k) as [r|] eqn:Hk; [destruct (p r) eqn:Hp|];
    rewrite ?map_size_singleton, ?map_size_empty; f_equal; apply Hu; intros k' r';
    rewrite ?lookup_delete_Some; (case_bool_decide as Hkk; [subst k'|]); simpl.
  - split; [intros [? ?]; congruence|by intros [? ?]].
  - split; [by intros [? _]|by intros [_ ?]].
  - split; [by intros [? _]|intros ?; split; congruence].
  - split; [by intros [? _]|done].
  - split; [intros [? ?]; congruence|congruence].
  - split; [by intros [? _]|done].
Qed.

(** A SELECT of the row with one identity. *)
Lemma select_at k p t it :
  iteration (matching (at_key k p) t) it →
  it = match t !! k with Some r => if p r then [(k, r)] else [] | None => [] end.
Proof.
  unfold iteration. rewrite matching_at.
  destruct (t !! k) as [r|]; [destruct (p r)|];
    rewrite ?map_to_list_singleton, ?map_to_list_empty;
    intros ?; by first [apply Permutation_singleton_r|apply Permutation_nil_r].
Qed.
End statement_lemmas.

(** ** Commands and calls *)
Inductive sql (K R E : Type) : Type → Type :=
| Stmt {B} (s : stmt K R B) : sql K R E (result E B)
| Now : sql K R E Z
(** Whether reading the next row of an answered query fails. *)
| NextRow : sql K R E (option E).
Arguments Stmt {K R E B} s.
Arguments Now {K R E}.
Arguments NextRow {K R E}.

(** The [?] operator on a statement's answer. *)
Notation "'try!' x := p 'in' q" :=
  (bind p (λ r, match r with Ok x => q | Err e => Ret (Err e) end))
  (at level 10, x pattern, p at level 100, q at level 200) : prog_scope.

Section calls.
Context {K R E : Type} `{Countable K}.
Abbreviation table := (gmap K R).
Abbreviation method := (prog (sql K R E)).

Definition run_stmt {B} (s : stmt K R B) : method (result E B) := exec (Stmt s).
Definition clock : method Z := exec Now.
Definition next_row : method (option E) := exec NextRow.

(** What one command may answer.  A statement that fails has changed nothing. *)
Definition effect {B} (c : sql K R E B) (t : table) : B → table → Prop :=
  match c in sql _ _ _ B return B → table → Prop with
  | Stmt s => λ r t', match r with Ok b => meaning s t b t' | Err _ => t' = t end
  | Now => λ _ t', t' = t
  | NextRow => λ _ t', t' = t
  end.

(** One call among others: [evs] lists the tables before and after each of its own
    commands, and [q] is what is left of it. *)
Fixpoint runs {A} (p : method A) (evs : list (table * table)) (q : method A)
    {struct evs} : Prop :=
  match evs with
  | [] => q = p
  | (x, y) :: evs =>
      match p with
      | Ret _ => False
      | Do c k => ∃ b, effect c x b y ∧ runs (k b) evs q
      end
  end.

Lemma runs_snoc {A B} (p : method A) evs (c : sql K R E B) k b x y :
  runs p evs (Do c k) → effect c x b y → runs p (evs ++ [(x, y)]) (k b).
Proof.
  revert p. induction evs as [|[x' y'] evs IH]; intros p; simpl; [intros <-; by eauto|].
  destruct p as [a|B' c' k']; [done|]. intros (b' & Hc' & Hr) Hc. eauto.
Qed.

Lemma runs_bind {A C} (p : method A) (f : A → method C) evs c :
  runs (bind p f) evs (Ret c) →
  ∃ evs1 evs2 a, evs = evs1 ++ evs2 ∧ runs p evs1 (Ret a) ∧ runs (f a) evs2 (Ret c).
Proof.
  revert evs. induction p as [a|B k q IH]; intros evs; simpl; [by exists [], evs, a|].
  destruct evs as [|[x y] evs]; simpl; [done|]. intros (b & Hb & Hr).
  destruct (IH b evs Hr) as (evs1 & evs2 & a & -> & H1 & H2).
  exists ((x, y) :: evs1), evs2, a. simpl. eauto.
Qed.

(** The end of a program that has returned. *)
Lemma runs_ret {A} (a b : A) evs : runs (Ret b) evs (Ret a) → evs = [] ∧ a = b.
Proof. destruct evs as [|[? ?] ?]; simpl; [by intros [= ->]|done]. Qed.

(** The program with the clock standing at [now]. *)
Definition tell (now : Z) {A B} (c : sql K R E B) : (B → method A) → method A :=
  match c in sql _ _ _ B return (B → method A) → method A with
  | Now => λ k, k now
  | Stmt s => λ k, Do (Stmt s) k
  | NextRow => λ k, Do NextRow k
  end.
Fixpoint at_time (now : Z) {A} (p : method A) : method A :=
  match p with
  | Ret a => Ret a
  | Do c k => tell now c (λ b, at_time now (k b))
  end.

(** Commands that changed nothing. *)
Definition silent (evs : list (table * table)) : Prop := Forall (λ e, e.2 = e.1) evs.

(** One of the call's own commands takes the table from [x] to [y]; the others change
    nothing. *)
Definition at_point (evs : list (table * table)) (x y : table) : Prop :=
  ∃ before after, evs = before ++ (x, y) :: after ∧ silent before ∧ silent after.

Lemma silent_one x : silent [(x, x)].
Proof. by repeat constructor. Qed.

Lemma at_point_last before x y : silent before → at_point (before ++ [(x, y)]) x y.
Proof. intros ?. exists before, []. split_and!; [done..|constructor]. Qed.

(** Every command of [p], whatever was answered before, takes the table along [Q]. *)
Fixpoint issues (Q : table → table → Prop) {A} (p : method A) : Prop :=
  match p with
  | Ret _ => True
  | Do c k => (∀ t b t', effect c t b t' → Q t t') ∧ ∀ b, issues Q (k b)
  end.

Lemma issues_bind Q {A C} (p : method A) (f : A → method C) :
  issues Q p → (∀ a, issues Q (f a)) → issues Q (bind p f).
Proof. induction p as [a|B c k IH]; simpl; [auto|]. intros [Hc Hk] Hf. eauto. Qed.

Lemma issues_stmt (Q : table → table → Prop) {B} (s : stmt K R B) :
  (∀ t, Q t t) → (∀ t b t', meaning s t b t' → Q t t') → issues Q (run_stmt s).
Proof.
  intros Hrefl Hs. split; [|done]. intros t [b|e] t' He; simpl in He; [eauto|].
  subst t'. apply Hrefl.
Qed.

Lemma issues_select (Q : table → table → Prop) where_ order limit :
  (∀ t, Q t t) → issues Q (run_stmt (Select where_ order limit)).
Proof. intros Hrefl. apply issues_stmt; [done|]. by intros t b t' [-> _]. Qed.

Lemma issues_clock (Q : table → table → Prop) : (∀ t, Q t t) → issues Q clock.
Proof. intros Hrefl. split; [|done]. by intros t b t' ->. Qed.

Lemma issues_runs Q {A} (p : method A) evs q x y :
  issues Q p → runs p evs q → (x, y) ∈ evs → Q x y.
Proof.
  revert p. induction evs as [|[x' y'] evs IH]; intros p; simpl; [by intros _ _ ?%not_elem_of_nil|].
  destruct p as [a|B c k]; [done|]. intros [Hc Hk] (b & Hb & Hr) [[= -> ->]|Hin]%elem_of_cons.
  - eauto.
  - by eapply IH.
Qed.

(** The same with what the call has seen: [Q] also gets the tables before and after each
    of its commands so far. *)
Fixpoint issues_after (Q : list (table * table) → table → table → Prop)
    (seen : list (table * table)) {A} (p : method A) : Prop :=
  match p with
  | Ret _ => True
  | Do c k => ∀ t b t', effect c t b t' →
      Q seen t t' ∧ issues_after Q (seen ++ [(t, t')]) (k b)
  end.

Lemma issues_after_issues (Q' : table → table → Prop) Q seen {A} (p : method A) :
  (∀ seen t t', Q' t t' → Q seen t t') → issues Q' p → issues_after Q seen p.
Proof.
  intros HQ. revert seen. induction p as [a|B c k IH]; intros seen; simpl; [done|].
  intros [Hc Hk] t b t' He. eauto.
Qed.

Lemma issues_after_bind Q seen {A C} (p : method A) (f : A → method C) :
  issues_after Q seen p →
  (∀ evs a, runs p evs (Ret a) → issues_after Q (seen ++ evs) (f a)) →
  issues_after Q seen (bind p f).
Proof.
  revert seen. induction p as [a|B c k IH]; intros seen; simpl.
  - intros _ Hf. specialize (Hf [] a eq_refl). by rewrite app_nil_r in Hf.
  - intros Hc Hf t b t' He. destruct (Hc t b t' He) as [HQ Hk]. split; [done|].
    apply IH; [done|]. intros evs a Hr. rewrite <-app_assoc. apply (Hf ((t, t') :: evs)).
    simpl. eauto.
Qed.

Lemma issues_after_runs Q seen {A} (p : method A) evs x y evs' q :
  issues_after Q seen p → runs p (evs ++ (x, y) :: evs') q → Q (seen ++ evs) x y.
Proof.
  revert seen p. induction evs as [|[x' y'] evs IH]; intros seen p; simpl;
    (destruct p as [a|B c k]; [done|]); intros Hi (b & Hb & Hr);
    destruct (Hi _ _ _ Hb) as [HQ Hk]; [by rewrite app_nil_r|].
  specialize (IH _ _ Hk Hr). by rewrite <-app_assoc in IH.
Qed.

(** ** Concurrent calls *)
Context {A : Type}.

(** The table, the running calls with the program each was started with, and the
    history: which call took the table from which state to which. *)
Record state := mk_state {
  db_table : table;
  db_calls : gmap nat (method A * method A);
  db_history : list (nat * table * table);
}.

Inductive step (offered : method A → Prop) : state → state → Prop :=
| step_start t calls h i p :
    offered p → calls !! i = None →
    step offered (mk_state t calls h) (mk_state t (<[i := (p, p)]> calls) h)
| step_command t calls h i p B (c : sql K R E B) k b t' :
    calls !! i = Some (p, Do c k) → effect c t b t' →
    step offered (mk_state t calls h)
      (mk_state t' (<[i := (p, k b)]> calls) (h ++ [(i, t, t')])).

Definition initial (t : table) : state := mk_state t ∅ [].

Definition of_call (i : nat) (h : list (nat * table * table)) : list (table * table) :=
  omap (λ e : nat * table * table, if decide (e.1.1 = i) then Some (e.1.2, e.2) else None) h.

(** The history is a path from the first table to the present one. *)
Inductive path : table → list (nat * table * table) → table → Prop :=
| path_nil t : path t [] t
| path_snoc t h i x y : path t h x → path t (h ++ [(i, x, y)]) y.

Lemma path_split t h i x y h' t' :
  path t (h ++ (i, x, y) :: h') t' → path t h x ∧ path y h' t'.
Proof.
  revert t'. induction h' as [|[[i' x'] y'] h' IH] using rev_ind; intros t' Hp.
  - inversion Hp as [t0 H1 H2|t0 h0 i0 x0 y0 Hp0 H1 H2 H3]; simplify_eq/=.
    + by destruct h.
    + apply app_inj_tail in H2 as [-> [= -> -> ->]]. split; [done|constructor].
  - rewrite app_comm_cons, app_assoc in Hp.
    inversion Hp as [t0 H1 H2|t0 h0 i0 x0 y0 Hp0 H1 H2 H3]; simplify_eq/=.
    + by destruct h.
    + apply app_inj_tail in H2 as [-> [= -> -> ->]]. apply IH in Hp0 as [? ?].
      split; [done|by constructor].
Qed.

Lemma of_call_app i h h' : of_call i (h ++ h') = of_call i h ++ of_call i h'.
Proof. unfold of_call. apply omap_app. Qed.

Lemma elem_of_of_call (i : nat) (x y : table) (h : list (nat * table * table)) :
  (x, y) ∈ of_call i h ↔ (i, x, y) ∈ h.
Proof.
  unfold of_call. rewrite list_elem_of_omap. split.
  - intros ([[i' x'] y'] & Hin & Heq). simpl in Heq. case_decide; simplify_eq. done.
  - intros Hin. exists (i, x, y). simpl. by rewrite decide_True.
Qed.

(** What a reachable state is made of: each call has run its own program on the
    tables the history lists for it, and nothing else changed the table. *)
Definition history_ok (offered : method A → Prop) (t : table) (s : state) : Prop :=
  path t (db_history s) (db_table s) ∧
  (∀ e, e ∈ db_history s → is_Some (db_calls s !! e.1.1)) ∧
  ∀ i p q, db_calls s !! i = Some (p, q) →
    offered p ∧ runs p (of_call i (db_history s)) q.

Lemma reachable_history offered t s :
  rtc (step offered) (initial t) s → history_ok offered t s.
Proof.
  revert s. apply (rtc_ind_r (history_ok offered t)).
  { split_and!; simpl; [constructor|set_solver|by intros ? ? ?; rewrite lookup_empty]. }
  intros s1 s2 _ Hstep (Hpath & Hids & Hcalls).
  destruct Hstep as [t1 calls h i p Ho Hi|t1 calls h i p B c k b t' Hi Hc];
    unfold history_ok; simpl in *.
  - split_and!; [done|..].
    + intros e He. rewrite lookup_insert. case_decide; [by eauto|by apply Hids].
    + intros j p' q' [[<- [= <- <-]]|[Hne Hj]]%lookup_insert_Some; [|by apply Hcalls].
      split; [done|]. replace (of_call i h) with (@nil (table * table)); [done|].
      symmetry. unfold of_call. clear -Hi Hids. induction h as [|e h IH]; [done|]. simpl.
      rewrite decide_False; [apply IH; intros; apply Hids; set_solver|].
      intros <-. destruct (Hids e) as [? Hx]; [set_solver|]. by rewrite Hi in Hx.
  - split_and!; [by constructor|..].
    + intros e He. rewrite lookup_insert. case_decide; [by eauto|].
      apply elem_of_app in He as [He|He%list_elem_of_singleton]; [by apply Hids|by subst e].
    + intros j p' q'. rewrite of_call_app.
      intros [[<- [= <- <-]]|[Hne Hj]]%lookup_insert_Some.
      * destruct (Hcalls i p (Do c k)) as [? Hruns]; [done|]. split; [done|].
        simpl. rewrite decide_True by done. by eapply runs_snoc.
      * destruct (Hcalls j p' q') as [? Hruns]; [done|]. split; [done|].
        simpl. rewrite decide_False, app_nil_r by done. done.
Qed.

(** What every step of the history keeps holds of every table in it. *)
Lemma path_invariant (P : table → Prop) t h t' :
  path t h t' → P t → (∀ i x y, (i, x, y) ∈ h → P x → P y) →
  P t' ∧ ∀ i x y, (i, x, y) ∈ h → P x ∧ P y.
Proof.
  intros Hpath Ht Hstep. induction Hpath as [|t h i x y Hpath IH]; [set_solver|].
  destruct IH as [Hx Hh]; [done|set_solver|]. assert (P y) by (apply (Hstep i x y); set_solver).
  split; [done|]. intros i' x' y' [?|[= -> -> ->]%list_elem_of_singleton]%elem_of_app; eauto.
Qed.

(** An invariant of the table that every command of every offered call keeps. *)
Lemma history_invariant (P : table → Prop) offered t s :
  (∀ p evs q x y, offered p → runs p evs q → (x, y) ∈ evs → P x → P y) →
  P t → rtc (step offered) (initial t) s →
  P (db_table s) ∧ ∀ i x y, (i, x, y) ∈ db_history s → P x ∧ P y.
Proof.
  intros Hp Ht Hr. pose proof (reachable_history _ _ _ Hr) as (Hpath & Hids & Hcalls).
  apply (path_invariant P t); [done..|]. intros i x y Hin.
  destruct (Hids _ Hin) as [[p q] Hi]. destruct (Hcalls i p q Hi) as [Ho Hruns].
  apply (Hp _ _ _ _ _ Ho Hruns). by apply elem_of_of_call.
Qed.
End calls.
Arguments state K R E {_ _} A.
