(* ===== verification/Drivers.v ===== *)
(** * Database drivers: errors, tenants and data source names

    What the durable stores share: the classification of driver errors
    (crates/persistence-stoolap, persistence/stoolap_common.rs; crates/effect-store,
    stoolap/mod.rs and postgres/mod.rs; crates/persistence, postgres/mod.rs), the
    encoding of tenants, and the check that a data source name asks for durable
    writes.  An error carries the text the driver displays for it. *)

From S2P Require Import Prelude Identity Security Oidc ServiceRegistry.

(** [{:?}] of a string. *)
Class DebugStr := debug_text : string → string.

(** [collect] into a [Result], and a loop that pushes what each element is converted to: the
    first error wins. *)
Fixpoint collect_results {E A B} (f : A → result E B) (l : list A) : result E (list B) :=
  match l with
  | [] => Ok []
  | x :: l => y ← f x; ys ← collect_results f l; Ok (y :: ys)
  end.

(** ** Stoolap *)
Inductive StoolapError :=
| UniqueConstraint (text : string)
| TransactionAborted (text : string)
| LockAcquisitionFailed (text : string)
| DatabaseLocked (text : string)
| StoolapInternal (message text : string)
| StoolapOther (text : string).

Definition stoolap_text (e : StoolapError) : string :=
  match e with
  | UniqueConstraint t | TransactionAborted t | LockAcquisitionFailed t | DatabaseLocked t
  | StoolapInternal _ t | StoolapOther t => t
  end.

(** [str::contains] *)
Definition str_contains (pat s : string) : bool :=
  match String.index 0 pat s with Some _ => true | None => false end.

Definition is_write_conflict (e : StoolapError) : bool :=
  match e with
  | UniqueConstraint _ | TransactionAborted _ | LockAcquisitionFailed _ | DatabaseLocked _ => true
  | StoolapInternal message _ =>
      str_contains "uncommitted changes from transaction" message
      || String.prefix "write conflict:" message
  | StoolapOther _ => false
  end.

Definition internal_err (e : StoolapError) : PersistenceError := PInternal (stoolap_text e).

(** The scope a missing tenant is stored under. *)
Definition SYSTEMWIDE_SCOPE : string := "".
Definition encode_tenant (resolved : option string) : string := default SYSTEMWIDE_SCOPE resolved.

Definition ampersand : ascii := "&".
Definition question : ascii := "?".

(** A data source name for the file at [path] that asks for durable writes. *)
Definition dsn_for (path : string) : string := "file://" +:+ path +:+ "?sync=full".

Definition dsn_declares_sync_full (dsn : string) : bool :=
  match split_once question dsn with
  | Some (_, query) => existsb (λ param, bool_decide (param = "sync=full")) (split_on ampersand query)
  | None => false
  end.

(** ** Postgres, through sqlx *)
Inductive SqlxError :=
| SqlxDatabase (code : option string) (text : string)
| PoolTimedOut (text : string)
| SqlxIo (text : string)
| PoolClosed (text : string)
| RowNotFound (text : string)
| ColumnDecode (text : string)
| SqlxDecode (text : string)
| SqlxOther (text : string).

Definition sqlx_text (e : SqlxError) : string :=
  match e with
  | SqlxDatabase _ t | PoolTimedOut t | SqlxIo t | PoolClosed t | RowNotFound t
  | ColumnDecode t | SqlxDecode t | SqlxOther t => t
  end.

Definition is_fatal (err : SqlxError) : bool :=
  match err with
  | SqlxDatabase (Some code) _ => bool_decide (code ∈ ["42P01"; "42703"; "22001"; "23514"])
  | ColumnDecode _ | SqlxDecode _ => true
  | _ => false
  end.

(** SQLSTATE 23505: a unique violation. *)
Definition is_identity_collision (e : SqlxError) : bool :=
  match e with
  | SqlxDatabase code _ => bool_decide (code = Some "23505")
  | _ => false
  end.

(** ** Properties *)

(** A store opened at a path without a question mark is opened for durable writes, and
    the check that guards [open] sees it. *)
Lemma dsn_for_declares path :
  contains question path = false → dsn_declares_sync_full (dsn_for path) = true.
Proof.
  intros Hp. unfold dsn_declares_sync_full.
  assert (split_once question (dsn_for path) = Some ("file://" +:+ path, "sync=full")) as ->.
  { apply split_once_Some. split; [done|].
    change ("file://" +:+ path) with
      (String "f" (String "i" (String "l" (String "e" (String ":" (String "/" (String "/" path))))))).
    done. }
  by vm_compute.
Qed.

(** A path that itself contains a question mark can hide the parameter: the guard then
    refuses to open the store. *)
Lemma dsn_for_hidden : dsn_declares_sync_full (dsn_for "data?backup/db") = false.
Proof. by vm_compute. Qed.

(** No tenant that [resolve_tenant] lets through is stored in the systemwide scope. *)
Lemma encode_tenant_inj t t' o o' :
  resolve_tenant t = Ok o → resolve_tenant t' = Ok o' →
  encode_tenant o = encode_tenant o' → t = t'.
Proof.
  intros [-> Ht]%resolve_tenant_Ok [-> Ht']%resolve_tenant_Ok.
  destruct t as [t|], t' as [t'|]; unfold encode_tenant, SYSTEMWIDE_SCOPE; simpl; congruence.
Qed.
