(* ===== verification/SqlReservation.v ===== *)
(** * Durable operation reservations

    The reservation stores over a database: crates/persistence-stoolap,
    operation/reservation.rs, and crates/persistence, postgres/reservation.rs.
    Both keep one table, [operation_reservations], and verify a fence in the WHERE
    clause of the statement that changes the row.  They differ in how a missing
    tenant and a response are stored and in how a purge bounds its batch: a
    [Dialect].  The port they implement is that of [Reservation]: every call of
    every interleaving either takes one step of the port's state machine, at one of
    its own statements, or fails without changing anything, or loses a race for an
    expired lease, or takes over a row whose fingerprint changed after it was read. *)

From stdpp Require Import pretty.
From S2P Require Import Prelude Programs Identity Reservation Sql Drivers.

(** ** The table *)
Record Row (RC : Type) := mk_row {
  fingerprint : string;
  owner_id : string;
  fencing_token : Z;
  lease_until : Z;
  row_state : string;
  completed_at : option Z;
  response : option RC;
}.
Arguments mk_row {RC} _ _ _ _ _ _ _.
Arguments fingerprint {RC} _.
Arguments owner_id {RC} _.
Arguments fencing_token {RC} _.
Arguments lease_until {RC} _.
Arguments row_state {RC} _.
Arguments completed_at {RC} _.
Arguments response {RC} _.

Definition STATE_COMPLETED : string := "completed".
Definition STATE_IN_PROGRESS : string := "in_progress".

(** ** Encodings *)
Definition token_for_storage (token : FencingToken) : result ReservationError Z :=
  if decide (token_value token ≤ i64_max)%Z then Ok (token_value token)
  else Err FencingExhausted.

(** [rule] is the reason the message of each store goes on to give. *)
Definition token_from_storage (rule : string) (raw : Z) : result ReservationError FencingToken :=
  if decide (raw ≤ 0)%Z then
    Err (ReservationBackend
      ("stored fencing_token " +:+ pretty raw +:+ " is not positive; " +:+ rule))
  else Ok (mk_token raw).

Definition batch_for_storage (batch : nat) : Z := Z.min (Z.of_nat batch) i64_max.

(** What the two stores do not share. *)
Record Dialect (TC RC E : Type) := mk_dialect {
  tenant_column : option TenantId → TC;
  encode_response : StoredServiceResponse → RC;
  decode_response : RC → result string StoredServiceResponse;
  no_response : string;
  token_rule : string;
  err_to_string : E → string;
}.
Arguments mk_dialect {TC RC E} _ _ _ _ _ _.
Arguments tenant_column {TC RC E} _ _.
Arguments encode_response {TC RC E} _ _.
Arguments decode_response {TC RC E} _ _.
Arguments no_response {TC RC E} _.
Arguments token_rule {TC RC E} _.
Arguments err_to_string {TC RC E} _ _.

Section store.
Context {TC RC E : Type} `{Countable TC}.
Abbreviation method := (prog (sql (TC * string) (Row RC) E)).
Context (self : Dialect TC RC E).

Definition backend_err (e : E) : ReservationError := ReservationBackend (err_to_string self e).

(** ** Operations *)
Definition current (k : TC * string) : method (result ReservationError (option (Row RC))) :=
  let! r := run_stmt (Select (at_key k (λ _, true)) any_order None) in
  Ret (rows ← map_err backend_err r; Ok (snd <$> head rows)).

(** The answer of a reservation that the row already completes. *)
Definition replay (existing : Row RC) : result ReservationError ReservationOutcome :=
  response ← ok_or (ReservationBackend (no_response self)) (response existing);
  bytes ← map_err ReservationBackend (decode_response self response);
  Ok (Succeeded bytes).

(** The lease of a row that already belongs to the caller. *)
Definition owned (operation_id : OperationId) (owner : OwnerId) (row : Row RC) :
    result ReservationError ReservationOutcome :=
  token ← token_from_storage (token_rule self) (fencing_token row);
  Ok (OwnedInProgress (mk_lease operation_id owner token (lease_until row))).

Definition vanished_before_read : string :=
  "the reservation disappeared between the insert conflict and the read; retry the reserve".
Definition vanished_in_race : string :=
  "the reservation disappeared during a takeover race; retry the reserve".

(** The UPDATE of a takeover. *)
Definition take_over_row (k : TC * string) (req : ReserveRequest) (existing : Row RC)
    (next : Z) (now : Z) : stmt (TC * string) (Row RC) Z :=
  Update
    (at_key k (λ r, bool_decide (row_state r = STATE_IN_PROGRESS)
                    && bool_decide (fencing_token r = fencing_token existing)
                    && bool_decide (lease_until r ≤ now)%Z))
    (λ r, mk_row (fingerprint r) (owner_str (req_owner_id req)) next (req_lease_until req)
            (row_state r) (completed_at r) (response r)).

Definition take_over (k : TC * string) (req : ReserveRequest) (existing : Row RC) (now : Z) :
    method (result ReservationError ReservationOutcome) :=
  match displaced ← token_from_storage (token_rule self) (fencing_token existing);
        next ← ok_or FencingExhausted (token_next displaced);
        stored ← token_for_storage next;
        Ok (next, stored) with
  | Err e => Ret (Err e)
  | Ok (next, stored) =>
      let! r := run_stmt (take_over_row k req existing stored now) in
      match map_err backend_err r with
      | Err e => Ret (Err e)
      | Ok took_over =>
          if decide (took_over = 1)%Z then
            Ret (Ok (TakenOver (mk_lease (request_id req) (req_owner_id req) next
                                  (req_lease_until req))))
          else
            try! after := current k in
            match after with
            | None => Ret (Err (ReservationBackend vanished_in_race))
            | Some after =>
                if decide (owner_id after = owner_str (req_owner_id req))
                then Ret (owned (request_id req) (req_owner_id req) after)
                else Ret (Ok OtherInProgress)
            end
      end
  end.

Definition row_key (id : OperationId) : TC * string :=
  (tenant_column self (op_tenant id), key_str (op_operation_key id)).

Definition reserve (req : ReserveRequest) : method (result ReservationError ReservationOutcome) :=
  let k := row_key (request_id req) in
  match token_for_storage token_initial with
  | Err e => Ret (Err e)
  | Ok initial =>
      let! r := run_stmt (InsertOrIgnore k
        (mk_row (fingerprint_str (req_fingerprint req)) (owner_str (req_owner_id req)) initial
           (req_lease_until req) STATE_IN_PROGRESS None None)) in
      match map_err backend_err r with
      | Err e => Ret (Err e)
      | Ok inserted =>
          if decide (inserted = 1)%Z then
            Ret (Ok (Fresh (mk_lease (request_id req) (req_owner_id req) token_initial
                              (req_lease_until req))))
          else
            try! existing := current k in
            match existing with
            | None => Ret (Err (ReservationBackend vanished_before_read))
            | Some existing =>
                if decide (fingerprint existing ≠ fingerprint_str (req_fingerprint req))
                then Ret (Ok ConflictingFingerprint)
                else if decide (row_state existing = STATE_COMPLETED)
                then Ret (replay existing)
                else
                  let! now := clock in
                  if decide (lease_until existing ≤ now)%Z then take_over k req existing now
                  else if decide (owner_id existing = owner_str (req_owner_id req))
                  then Ret (owned (request_id req) (req_owner_id req) existing)
                  else Ret (Ok OtherInProgress)
            end
      end
  end.

(** The condition the three mutators share. *)
Definition owned_by (fence : OwnerFence) (token now : Z) (r : Row RC) : bool :=
  bool_decide (owner_id r = owner_str (fence_owner_id fence))
  && bool_decide (fencing_token r = token)
  && bool_decide (row_state r = STATE_IN_PROGRESS)
  && bool_decide (now < lease_until r)%Z.

Definition mutate_owned (fence : OwnerFence)
    (build : TC * string → Z → Z → stmt (TC * string) (Row RC) Z) :
    method (result ReservationError unit) :=
  match token_for_storage (fence_fencing_token fence) with
  | Err e => Ret (Err e)
  | Ok token =>
      let! now := clock in
      let! r := run_stmt (build (row_key (fence_operation_id fence)) token now) in
      Ret (affected ← map_err backend_err r;
           if decide (affected = 0)%Z then Err StaleOwner else Ok ())
  end.

Definition renew (fence : OwnerFence) (until : Z) : method (result ReservationError unit) :=
  mutate_owned fence (λ k token now,
    Update (at_key k (owned_by fence token now))
      (λ r, mk_row (fingerprint r) (owner_id r) (fencing_token r) until (row_state r)
              (completed_at r) (response r))).

Definition complete (fence : OwnerFence) (resp : StoredServiceResponse) :
    method (result ReservationError unit) :=
  mutate_owned fence (λ k token now,
    Update (at_key k (owned_by fence token now))
      (λ r, mk_row (fingerprint r) (owner_id r) (fencing_token r) (lease_until r)
              STATE_COMPLETED (Some now) (Some (encode_response self resp)))).

Definition abandon (fence : OwnerFence) : method (result ReservationError unit) :=
  mutate_owned fence (λ k token now, Delete (at_key k (owned_by fence token now))).

(** [state = 'completed' AND completed_at < cutoff]; a comparison with NULL selects nothing. *)
Definition purgeable (cutoff : Z) (r : Row RC) : bool :=
  bool_decide (row_state r = STATE_COMPLETED)
  && match completed_at r with Some at_ => bool_decide (at_ < cutoff)%Z | None => false end.

(** Stoolap: the candidates are selected, then deleted one by one. *)
Fixpoint purge_each (cutoff : Z) (candidates : list (TC * string)) (deleted : Z) :
    method (result ReservationError Z) :=
  match candidates with
  | [] => Ret (Ok deleted)
  | k :: candidates =>
      let! r := run_stmt (Delete (at_key k (purgeable cutoff))) in
      match map_err backend_err r with
      | Err e => Ret (Err e)
      | Ok affected => purge_each cutoff candidates (deleted + Z.max affected 0)
      end
  end.

Definition stoolap_purge (cutoff : Z) (batch : nat) : method (result ReservationError Z) :=
  let! r := run_stmt (Select (λ _, purgeable cutoff) any_order (Some (batch_for_storage batch))) in
  match map_err backend_err r with
  | Err e => Ret (Err e)
  | Ok rows => purge_each cutoff rows.*1 0
  end.

(** Postgres: one DELETE over a subquery with LIMIT and SKIP LOCKED. *)
Definition postgres_purge (cutoff : Z) (batch : nat) : method (result ReservationError Z) :=
  let! r := run_stmt (DeleteSome (λ _, purgeable cutoff) (batch_for_storage batch)) in
  Ret (map_err backend_err r).

(** [SELECT MIN(completed_at) ... WHERE state = 'completed']; MIN skips NULLs. *)
Definition oldest_completed : method (result ReservationError OldestCompleted) :=
  let! r := run_stmt (Select (λ _ r, bool_decide (row_state r = STATE_COMPLETED)) any_order None) in
  Ret (rows ← map_err backend_err r;
       Ok match list_min (omap (completed_at ∘ snd) rows) with
          | Some at_ => OldestAt at_
          | None => OldestEmpty
          end).

Definition probe : method (result ReservationError unit) :=
  let! r := run_stmt (Select (λ _ _, true) any_order (Some 1%Z)) in
  Ret (_ ← map_err backend_err r; Ok ()).
End store.

(** ** The two stores *)

(** Stoolap stores a missing tenant as the empty scope and a response in base64; the
    base64 crate is a parameter. *)
Definition stoolap_dialect (base64_encode : list Byte.byte → string)
    (base64_decode : string → result string (list Byte.byte)) :
    Dialect string string StoolapError :=
  mk_dialect
    (λ tenant, encode_tenant (id_str <$> tenant))
    (λ r, base64_encode (response_bytes r))
    (λ s, mk_response <$> map_err (λ e, "response decode: " +:+ e) (base64_decode s))
    "a completed reservation has no stored response"
    "the sequence starts at 1"
    stoolap_text.

(** Postgres stores a missing tenant as NULL and a response as bytes. *)
Definition postgres_dialect : Dialect (option string) (list Byte.byte) SqlxError :=
  mk_dialect
    (λ tenant, id_str <$> tenant)
    response_bytes
    (λ bytes, Ok (mk_response bytes))
    ("a completed reservation has no stored response, which the table's own " +:+
     "CHECK constraint forbids")
    "the sequence starts at 1 and the table's own CHECK forbids anything else"
    sqlx_text.

(** The methods of each store. *)
Section methods.
Context (base64_encode : list Byte.byte → string)
  (base64_decode : string → result string (list Byte.byte)).
Abbreviation stoolap_method := (prog (sql (string * string) (Row string) StoolapError)).
Abbreviation postgres_method := (prog (sql (option string * string) (Row (list Byte.byte)) SqlxError)).

Definition stoolap_reserve (req : ReserveRequest) :
    stoolap_method (result ReservationError ReservationOutcome) :=
  reserve (stoolap_dialect base64_encode base64_decode) req.
Definition stoolap_renew (fence : OwnerFence) (until : Z) : stoolap_method (result ReservationError unit) :=
  renew (stoolap_dialect base64_encode base64_decode) fence until.
Definition stoolap_complete (fence : OwnerFence) (resp : StoredServiceResponse) :
    stoolap_method (result ReservationError unit) :=
  complete (stoolap_dialect base64_encode base64_decode) fence resp.
Definition stoolap_abandon (fence : OwnerFence) : stoolap_method (result ReservationError unit) :=
  abandon (stoolap_dialect base64_encode base64_decode) fence.
Definition stoolap_oldest_completed : stoolap_method (result ReservationError OldestCompleted) :=
  oldest_completed (stoolap_dialect base64_encode base64_decode).
Definition stoolap_probe : stoolap_method (result ReservationError unit) :=
  probe (stoolap_dialect base64_encode base64_decode).

Definition postgres_reserve (req : ReserveRequest) :
    postgres_method (result ReservationError ReservationOutcome) := reserve postgres_dialect req.
Definition postgres_renew (fence : OwnerFence) (until : Z) :
    postgres_method (result ReservationError unit) := renew postgres_dialect fence until.
Definition postgres_complete (fence : OwnerFence) (resp : StoredServiceResponse) :
    postgres_method (result ReservationError unit) := complete postgres_dialect fence resp.
Definition postgres_abandon (fence : OwnerFence) : postgres_method (result ReservationError unit) :=
  abandon postgres_dialect fence.
Definition postgres_oldest_completed : postgres_method (result ReservationError OldestCompleted) :=
  oldest_completed postgres_dialect.
Definition postgres_probe : postgres_method (result ReservationError unit) := probe postgres_dialect.
End methods.

(** ** The port over a table *)
Section port.
Context {TC RC E : Type} `{Countable TC}.
Abbreviation method := (prog (sql (TC * string) (Row RC) E)).
Abbreviation table := (gmap (TC * string) (Row RC)).
Context (self : Dialect TC RC E).
Context (purge : Z → nat → method (result ReservationError Z)).

(** A call of the port.  The order a purge iterates in is the database's. *)
Definition method_of (c : call) : method answer :=
  match c with
  | CReserve req => let! r := reserve self req in Ret (AReserve r)
  | CRenew f until => let! r := renew self f until in Ret (AUnit r)
  | CComplete f resp => let! r := complete self f resp in Ret (AUnit r)
  | CAbandon f => let! r := abandon self f in Ret (AUnit r)
  | CPurge cutoff batch _ => let! r := purge cutoff batch in Ret (APurge r)
  end.

(** The reservation a row stands for. *)
Definition record_of (r : Row RC) : ReservationRecord :=
  mk_record (mk_fingerprint (fingerprint r))
    match decide (row_state r = STATE_COMPLETED), response r, completed_at r with
    | left _, Some enc, Some at_ =>
        match decode_response self enc with
        | Ok resp => Completed resp at_
        | Err _ => InProgress (mk_owner (owner_id r)) (mk_token (fencing_token r)) (lease_until r)
        end
    | _, _, _ => InProgress (mk_owner (owner_id r)) (mk_token (fencing_token r)) (lease_until r)
    end.

Definition cell_of (t : table) (id : OperationId) : cell := record_of <$> t !! row_key self id.

(** A tenant identifier is never empty. *)
Definition valid_tenant (t : option TenantId) : Prop := t ≠ Some (mk_id "").
Definition valid_id (id : OperationId) : Prop := valid_tenant (op_tenant id).
Definition valid_call (c : call) : Prop :=
  match c with
  | CReserve req => valid_id (request_id req)
  | CRenew f _ | CComplete f _ | CAbandon f => valid_id (fence_operation_id f)
  | CPurge _ _ _ => True
  end.

(** What the proofs use of a dialect. *)
Record dialect_ok : Prop := {
  tenant_column_inj t t' :
    valid_tenant t → valid_tenant t' → tenant_column self t = tenant_column self t' → t = t';
  response_round_trip r : decode_response self (encode_response self r) = Ok r;
}.

(** The rows the stores write: the constraints the Postgres schema states. *)
Definition row_ok (r : Row RC) : Prop :=
  (0 < fencing_token r ≤ i64_max)%Z ∧
  ((row_state r = STATE_IN_PROGRESS ∧ completed_at r = None ∧ response r = None) ∨
   (row_state r = STATE_COMPLETED ∧ is_Some (completed_at r) ∧
    ∃ enc resp, response r = Some enc ∧ decode_response self enc = Ok resp)).
Definition table_ok (t : table) : Prop := map_Forall (λ _, row_ok) t.

(** Only reservation [id] changes. *)
Definition frames (id : OperationId) (x y : table) : Prop :=
  ∀ id', valid_id id' → id' ≠ id → cell_of y id' = cell_of x id'.

(** What a reservation that lost the race for an expired lease reports of the row [r]
    it reads afterwards: its owner decides. *)
Definition race_report (req : ReserveRequest) (r : Row RC) : ReservationOutcome :=
  if decide (owner_id r = owner_str (req_owner_id req)) then
    OwnedInProgress (mk_lease (request_id req) (req_owner_id req) (mk_token (fencing_token r))
                       (lease_until r))
  else OtherInProgress.

(** How a call on reservation [id] that has returned [a] relates to the port.  [Stepped]
    is the normal case: one step of the port's state machine, with the answer returned,
    at one of the call's own statements.  [Failed] is an error of the store.  [Raced] is
    a reservation that read an expired lease, of its own fingerprint, and found the
    lease renewed, taken, completed or gone when it wrote; it answers from the row it
    reads after that and changes nothing. *)
Inductive settled (id : OperationId) (c : call) (a : answer) (evs : list (table * table)) : Prop :=
| Stepped now x y :
    at_point evs x y → cell_step id now c a (cell_of x id) (cell_of y id) → frames id x y →
    settled id c a evs
| Failed e :
    silent evs → e ≠ StaleOwner → (a = AReserve (Err e) ∨ a = AUnit (Err e)) →
    settled id c a evs
| Raced req x o t u now y z r :
    c = CReserve req → silent evs →
    (x, x) ∈ evs →
    cell_of x id = Some (mk_record (req_fingerprint req) (InProgress o t u)) → (u ≤ now)%Z →
    (y, y) ∈ evs →
    (∀ fp o' u', cell_of y id = Some (mk_record fp (InProgress o' t u')) → (now < u')%Z) →
    (z, z) ∈ evs → z !! row_key self id = Some r → a = AReserve (Ok (race_report req r)) →
    settled id c a evs.

(** A takeover checks the fingerprint in the row it reads and not in the row it writes:
    the call read its own fingerprint under an expired lease of token [t], and its
    statement found the same token, expired, under another fingerprint. *)
Definition mistaken (req : ReserveRequest) (a : answer) (evs : list (table * table)) : Prop :=
  ∃ x0 x y fp o0 u0 o u t t' now,
    (x0, x0) ∈ evs ∧
    cell_of x0 (request_id req)
      = Some (mk_record (req_fingerprint req) (InProgress o0 t u0)) ∧ (u0 ≤ now)%Z ∧
    at_point evs x y ∧ frames (request_id req) x y ∧
    fp ≠ req_fingerprint req ∧ (u ≤ now)%Z ∧ (token_value t < token_value t')%Z ∧
    cell_of x (request_id req) = Some (mk_record fp (InProgress o t u)) ∧
    cell_of y (request_id req)
      = Some (mk_record fp (InProgress (req_owner_id req) t' (req_lease_until req))) ∧
    a = AReserve (Ok (TakenOver (mk_lease (request_id req) (req_owner_id req) t'
                                   (req_lease_until req)))).

(** ** Lemmas *)
Context (Hself : dialect_ok).

Lemma row_key_inj id id' :
  valid_id id → valid_id id' → row_key self id = row_key self id' → id = id'.
Proof.
  destruct id as [t [k]], id' as [t' [k']]; unfold row_key; simpl. intros Ht Ht' [= Htc ->].
  f_equal. by eapply tenant_column_inj.
Qed.

Lemma cell_insert t id r : cell_of (<[row_key self id := r]> t) id = Some (record_of r).
Proof. unfold cell_of. by rewrite lookup_insert_eq. Qed.

Lemma cell_delete t id : cell_of (delete (row_key self id) t) id = None.
Proof. unfold cell_of. by rewrite lookup_delete_eq. Qed.

Lemma frames_refl id t : frames id t t.
Proof. by intros ? ? ?. Qed.

Lemma frames_insert id t r : valid_id id → frames id t (<[row_key self id := r]> t).
Proof.
  intros Hid id' Hid' Hne. unfold cell_of. rewrite lookup_insert_ne; [done|].
  intros Hk. apply Hne. symmetry. by apply row_key_inj.
Qed.

Lemma frames_delete id t : valid_id id → frames id t (delete (row_key self id) t).
Proof.
  intros Hid id' Hid' Hne. unfold cell_of. rewrite lookup_delete_ne; [done|].
  intros Hk. apply Hne. symmetry. by apply row_key_inj.
Qed.

Lemma record_in_progress r :
  row_state r = STATE_IN_PROGRESS →
  record_of r = mk_record (mk_fingerprint (fingerprint r))
    (InProgress (mk_owner (owner_id r)) (mk_token (fencing_token r)) (lease_until r)).
Proof. unfold record_of. intros ->. by rewrite decide_False. Qed.

(** The commands of a lookup by identity. *)
Lemma current_runs k evs a :
  runs (current self k) evs (Ret a) →
  ∃ x, evs = [(x, x)] ∧ (a = Ok (x !! k) ∨ ∃ e, a = Err (ReservationBackend e)).
Proof.
  unfold current, run_stmt, exec. destruct evs as [|[x y] evs]; cbn [runs bind]; [done|].
  intros (b & Hb & Hr). destruct evs as [|? ?]; cbn in Hr; [|by destruct_and?; case_match].
  destruct b as [rows|e]; simpl in Hb.
  - destruct Hb as (-> & it & Hit & _ & ->). apply select_at in Hit as ->. exists x.
    split; [done|]. left. injection Hr as ->. by destruct (x !! k).
  - subst y. exists x. split; [done|]. right. injection Hr as ->. by eexists.
Qed.

Lemma token_for_storage_Ok t z :
  token_for_storage t = Ok z → z = token_value t ∧ (z ≤ i64_max)%Z.
Proof. unfold token_for_storage. case_decide; [by intros [= <-]|done]. Qed.

Lemma token_for_storage_Err t e : token_for_storage t = Err e → e = FencingExhausted.
Proof. unfold token_for_storage. case_decide; [done|by intros [= <-]]. Qed.

(** A mutator reads the clock and issues one statement on its own row. *)
Lemma mutate_owned_runs fence build evs a :
  runs (mutate_owned self fence build) evs (Ret a) →
  (evs = [] ∧ a = Err FencingExhausted) ∨
  ∃ now x y z token, evs = [(x, x); (y, z)] ∧ token = token_value (fence_fencing_token fence) ∧
    ((z = y ∧ ∃ e, a = Err (ReservationBackend e)) ∨
     ∃ n, meaning (build (row_key self (fence_operation_id fence)) token now) y n z ∧
       a = if decide (n = 0)%Z then Err StaleOwner else Ok ()).
Proof.
  unfold mutate_owned. destruct (token_for_storage _) as [token|e] eqn:Ht.
  - apply token_for_storage_Ok in Ht as [-> _]. unfold clock, run_stmt, exec.
    destruct evs as [|[x x'] [|[y z] evs]]; cbn [runs bind];
      [done|by intros (? & _ & ?)|].
    intros (now & Hx & b & Hb & Hr). simpl in Hx. subst x'. right.
    destruct evs as [|? ?]; cbn in Hr; [|by destruct_and?; case_match].
    exists now, x, y, z, (token_value (fence_fencing_token fence)). split_and!; [done..|].
    destruct b as [n|e]; simpl in Hb; injection Hr as ->.
    + right. eauto.
    + subst z. left. split; [done|]. by eexists.
  - apply token_for_storage_Err in Ht as ->. destruct evs as [|[x y] evs]; cbn; [|done].
    intros [= ->]. by left.
Qed.

Lemma owned_by_true fence now (r : Row RC) :
  owned_by fence (token_value (fence_fencing_token fence)) now r = true →
  mk_owner (owner_id r) = fence_owner_id fence ∧
  mk_token (fencing_token r) = fence_fencing_token fence ∧
  row_state r = STATE_IN_PROGRESS ∧ (now < lease_until r)%Z.
Proof.
  unfold owned_by. rewrite !andb_true_iff, !bool_decide_eq_true. intros [[[-> ->] ->] Hl].
  by destruct fence as [? [?] [?]].
Qed.

(** A fence that the WHERE clause rejects is stale. *)
Lemma owned_by_false fence now r fp o t u :
  row_ok r →
  owned_by fence (token_value (fence_fencing_token fence)) now r = false →
  record_of r = mk_record fp (InProgress o t u) → (now < u)%Z →
  fence ≠ mk_fence (fence_operation_id fence) o t.
Proof.
  intros [_ Hst] Hf Hr Hu Heq. destruct fence as [id o' t']. simpl in *. injection Heq as -> ->.
  apply not_true_iff_false in Hf. apply Hf.
  unfold owned_by. rewrite !andb_true_iff, !bool_decide_eq_true.
  destruct Hst as [(Hst & _ & _)|(Hst & [at_ Hat] & enc & resp & He & Hd)].
  - rewrite (record_in_progress r Hst) in Hr. by injection Hr as <- <- <- <-.
  - unfold record_of in Hr. by rewrite decide_True, He, Hat, Hd in Hr by done.
Qed.

(** The two outcomes of a fenced statement. *)
Lemma mutated now c fence y z n (p : Row RC → bool) after :
  table_ok y → call_fence c = Some fence → valid_id (fence_operation_id fence) →
  p = owned_by fence (token_value (fence_fencing_token fence)) now →
  (match y !! row_key self (fence_operation_id fence) with
   | Some r => if p r then (1%Z, after r) else (0%Z, y)
   | None => (0%Z, y)
   end = (n, z)) →
  (∀ r, y !! row_key self (fence_operation_id fence) = Some r → p r = true →
     cell_step (fence_operation_id fence) now c (AUnit (Ok ())) (Some (record_of r))
       (cell_of (after r) (fence_operation_id fence)) ∧
     frames (fence_operation_id fence) y (after r)) →
  cell_step (fence_operation_id fence) now c
    (AUnit (if decide (n = 0)%Z then Err StaleOwner else Ok ()))
    (cell_of y (fence_operation_id fence)) (cell_of z (fence_operation_id fence)) ∧
  frames (fence_operation_id fence) y z.
Proof.
  intros Hok Hc Hid -> Hmatch Hafter. unfold cell_of at 1.
  destruct (y !! row_key self (fence_operation_id fence)) as [r|] eqn:Hr; simpl.
  - destruct (owned_by _ _ _ r) eqn:Hp; injection Hmatch as <- <-.
    + by apply Hafter.
    + unfold cell_of. rewrite Hr. simpl. split; [|apply frames_refl].
      apply CellStale with fence; [done..|]. intros fp o t u Hrec%(inj Some) Hu.
      eapply owned_by_false; [by eapply Hok|done..].
  - injection Hmatch as <- <-. unfold cell_of. rewrite Hr. split; [|apply frames_refl].
    apply CellStale with fence; [done..|by intros ? ? ? ? [=]].
Qed.

Lemma settled_mutator c fence build evs a :
  (∀ x y, (x, y) ∈ evs → table_ok x) →
  valid_id (fence_operation_id fence) →
  (∀ now y z n, table_ok y →
     meaning (build (row_key self (fence_operation_id fence))
                (token_value (fence_fencing_token fence)) now) y n z →
     cell_step (fence_operation_id fence) now c
       (AUnit (if decide (n = 0)%Z then Err StaleOwner else Ok ()))
       (cell_of y (fence_operation_id fence)) (cell_of z (fence_operation_id fence)) ∧
     frames (fence_operation_id fence) y z) →
  runs (mutate_owned self fence build) evs (Ret a) →
  settled (fence_operation_id fence) c (AUnit a) evs.
Proof.
  intros Hok Hid Hmeaning
    [[-> ->]|(now & x & y & z & token & -> & -> & [[-> [e ->]]|(n & Hn & ->)])]%mutate_owned_runs.
  - by apply Failed with FencingExhausted; [constructor|..|right].
  - apply Failed with (ReservationBackend e); [by repeat constructor|done|by right].
  - assert (table_ok y) as Hy by (apply (Hok y z); set_solver).
    destruct (Hmeaning now y z n Hy Hn) as [Hstep Hframe].
    apply (Stepped _ _ _ _ now y z); [|done..].
    apply (at_point_last [(x, x)]). apply silent_one.
Qed.

(** The statements of the three mutators. *)
Lemma renew_statement fence until now y z n :
  table_ok y → valid_id (fence_operation_id fence) →
  update (at_key (row_key self (fence_operation_id fence))
            (owned_by fence (token_value (fence_fencing_token fence)) now))
    (λ r, mk_row (fingerprint r) (owner_id r) (fencing_token r) until (row_state r)
            (completed_at r) (response r)) y = (n, z) →
  cell_step (fence_operation_id fence) now (CRenew fence until)
    (AUnit (if decide (n = 0)%Z then Err StaleOwner else Ok ()))
    (cell_of y (fence_operation_id fence)) (cell_of z (fence_operation_id fence)) ∧
  frames (fence_operation_id fence) y z.
Proof.
  intros Hy Hid Hm. rewrite update_at in Hm.
  eapply mutated in Hm; [done..|]. intros r Hr Hp.
  apply owned_by_true in Hp as (Ho & Ht & Hst & Hu). split; [|by apply frames_insert].
  rewrite cell_insert, !record_in_progress by done. simpl. rewrite Ho, Ht.
  destruct fence as [id o t]. simpl in *. by apply CellRenewed.
Qed.

Lemma complete_statement fence resp now y z n :
  table_ok y → valid_id (fence_operation_id fence) →
  update (at_key (row_key self (fence_operation_id fence))
            (owned_by fence (token_value (fence_fencing_token fence)) now))
    (λ r, mk_row (fingerprint r) (owner_id r) (fencing_token r) (lease_until r)
            STATE_COMPLETED (Some now) (Some (encode_response self resp))) y = (n, z) →
  cell_step (fence_operation_id fence) now (CComplete fence resp)
    (AUnit (if decide (n = 0)%Z then Err StaleOwner else Ok ()))
    (cell_of y (fence_operation_id fence)) (cell_of z (fence_operation_id fence)) ∧
  frames (fence_operation_id fence) y z.
Proof.
  intros Hy Hid Hm. rewrite update_at in Hm.
  eapply mutated in Hm; [done..|]. intros r Hr Hp.
  apply owned_by_true in Hp as (Ho & Ht & Hst & Hu). split; [|by apply frames_insert].
  rewrite cell_insert, (record_in_progress r Hst), Ho, Ht.
  unfold record_of. rewrite decide_True by done. simpl. rewrite (response_round_trip Hself).
  destruct fence as [id o t]. simpl in *. by apply CellCompleted.
Qed.

Lemma abandon_statement fence now y z n :
  table_ok y → valid_id (fence_operation_id fence) →
  delete_where (at_key (row_key self (fence_operation_id fence))
    (owned_by fence (token_value (fence_fencing_token fence)) now)) y = (n, z) →
  cell_step (fence_operation_id fence) now (CAbandon fence)
    (AUnit (if decide (n = 0)%Z then Err StaleOwner else Ok ()))
    (cell_of y (fence_operation_id fence)) (cell_of z (fence_operation_id fence)) ∧
  frames (fence_operation_id fence) y z.
Proof.
  intros Hy Hid Hm. rewrite delete_at in Hm.
  eapply mutated in Hm; [done..|]. intros r Hr Hp.
  apply owned_by_true in Hp as (Ho & Ht & Hst & Hu). split; [|by apply frames_delete].
  rewrite cell_delete, (record_in_progress r Hst), Ho, Ht.
  destruct fence as [id o t]. simpl in *. by apply CellAbandoned.
Qed.

Lemma settled_fenced c fence evs a :
  (∀ x y, (x, y) ∈ evs → table_ok x) → valid_call c → call_fence c = Some fence →
  runs (method_of c) evs (Ret a) → settled (fence_operation_id fence) c a evs.
Proof.
  intros Hok Hid Hc Hr. destruct c; simplify_eq/=;
    apply runs_bind in Hr as (evs1 & evs2 & r & -> & Hr & Ha);
    assert (evs2 = [] ∧ a = AUnit r) as [-> ->]
      by (destruct evs2 as [|[? ?] ?]; simpl in Ha; [by injection Ha as ->|done]);
    rewrite app_nil_r in *; (eapply settled_mutator; [done|done| |exact Hr]);
    intros now y z n Hy Hm;
    eauto using renew_statement, complete_statement, abandon_statement.
Qed.

Lemma token_from_storage_Ok rule raw :
  (0 < raw)%Z → token_from_storage rule raw = Ok (mk_token raw).
Proof. intros ?. unfold token_from_storage. rewrite decide_False by lia. done. Qed.

(** The statements of a takeover of the row [r] read as expired. *)
Lemma take_over_runs req r now evs a :
  row_ok r → row_state r = STATE_IN_PROGRESS →
  runs (take_over self (row_key self (request_id req)) req r now) evs (Ret a) →
  (evs = [] ∧ a = Err FencingExhausted) ∨
  (∃ y e, a = Err (ReservationBackend e) ∧
     (evs = [(y, y)] ∨ ∃ w, evs = [(y, y); (w, w)])) ∨
  (∃ y z r' next, evs = [(y, z)] ∧ y !! row_key self (request_id req) = Some r' ∧
     row_state r' = STATE_IN_PROGRESS ∧ fencing_token r' = fencing_token r ∧
     (lease_until r' ≤ now)%Z ∧ (fencing_token r < next ≤ i64_max)%Z ∧
     z = <[row_key self (request_id req) :=
            mk_row (fingerprint r') (owner_str (req_owner_id req)) next (req_lease_until req)
              (row_state r') (completed_at r') (response r')]> y ∧
     a = Ok (TakenOver (mk_lease (request_id req) (req_owner_id req) (mk_token next)
                          (req_lease_until req)))) ∨
  ∃ y w r', evs = [(y, y); (w, w)] ∧
    (∀ r0, y !! row_key self (request_id req) = Some r0 → row_state r0 = STATE_IN_PROGRESS →
       fencing_token r0 = fencing_token r → (now < lease_until r0)%Z) ∧
    w !! row_key self (request_id req) = Some r' ∧
    a = if decide (owner_id r' = owner_str (req_owner_id req))
        then owned self (request_id req) (req_owner_id req) r' else Ok OtherInProgress.
Proof.
  intros [[Hpos Hmax] _] Hst. unfold take_over. rewrite token_from_storage_Ok by done.
  cbn [mbind result_bind]. destruct (token_next _) as [next|] eqn:Hn; cbn [ok_or mbind result_bind].
  2: { intros [-> ->]%runs_ret. by left. }
  apply token_next_Some in Hn as [Hn _]. simpl in Hn.
  destruct (token_for_storage next) as [stored|e] eqn:Hs; cbn [mbind result_bind].
  2: { apply token_for_storage_Err in Hs as ->. intros [-> ->]%runs_ret. by left. }
  apply token_for_storage_Ok in Hs as [-> Hle]. unfold run_stmt, exec.
  destruct evs as [|[y z] evs]; cbn [runs bind]; [done|]. intros (b & Hb & Hr). right.
  destruct b as [n|e]; simpl in Hb; cbn [map_err] in Hr.
  2: { apply runs_ret in Hr as [-> ->]. subst z. left. by eauto 6. }
  rewrite update_at in Hb.
  destruct (decide (n = 1)%Z) as [->|Hn1].
  - destruct (y !! row_key self (request_id req)) as [r'|] eqn:Hy; [|by injection Hb].
    destruct (_ && _ && _) eqn:Hp; [injection Hb as <-|by injection Hb].
    apply runs_ret in Hr as [-> ->]. right. left.
    rewrite !andb_true_iff, !bool_decide_eq_true in Hp. destruct Hp as [[Hs Ht] Hl].
    eexists y, _, r', (token_value next). split_and!; try done; try lia. by destruct next.
  - assert (z = y ∧ ∀ r0, y !! row_key self (request_id req) = Some r0 →
       row_state r0 = STATE_IN_PROGRESS → fencing_token r0 = fencing_token r →
       (now < lease_until r0)%Z) as [-> Hlost].
    { destruct (y !! _) as [r'|]; [|by injection Hb].
      destruct (_ && _ && _) eqn:Hp; [injection Hb; congruence|]. injection Hb as <- <-.
      split; [done|]. intros r0 [= <-] Hs Ht. apply not_true_iff_false in Hp.
      rewrite !andb_true_iff, !bool_decide_eq_true in Hp. apply Z.nle_gt. intros Hexp. by apply Hp. }
    apply runs_bind in Hr as (evs1 & evs2 & after & -> & H1 & H2).
    apply current_runs in H1 as (w & -> & [->|[e ->]]); simpl.
    + destruct (w !! row_key self (request_id req)) as [r'|] eqn:Hw.
      * right. right. exists y, w, r'.
        by case_decide; apply runs_ret in H2 as [-> ->].
      * apply runs_ret in H2 as [-> ->]. left. by eauto 6.
    + apply runs_ret in H2 as [-> ->]. left. by eauto 6.
Qed.

(** What a call that has only read the row [r] of the table [x1] may answer. *)
Lemma settled_reading id c a now before x1 after r :
  x1 !! row_key self id = Some r → silent before → silent after →
  cell_step id now c a (Some (record_of r)) (Some (record_of r)) →
  settled id c a (before ++ (x1, x1) :: after).
Proof.
  intros Hx1 Hb Ha Hstep. apply (Stepped _ _ _ _ now x1 x1); [|unfold cell_of|apply frames_refl].
  - by exists before, after.
  - by rewrite Hx1.
Qed.

Lemma owner_eta o : mk_owner (owner_str o) = o.
Proof. by destruct o. Qed.

Lemma in_progress_record r fp o t u :
  row_ok r → record_of r = mk_record fp (InProgress o t u) →
  row_state r = STATE_IN_PROGRESS ∧ fencing_token r = token_value t ∧ lease_until r = u.
Proof.
  intros [_ [(Hst & _)|(Hst & [at_ Hat] & enc & resp & He & Hd)]] Hr.
  - rewrite (record_in_progress r Hst) in Hr. by injection Hr as _ _ <- <-.
  - unfold record_of in Hr. by rewrite decide_True, He, Hat, Hd in Hr by done.
Qed.

(** The ways a reservation that has answered may have gone. *)
Definition reserved (req : ReserveRequest) (a : answer) (evs : list (table * table)) : Prop :=
  settled (request_id req) (CReserve req) a evs ∨ mistaken req a evs.

(** A reservation that reads an expired row, and tries to take it over, settles. *)
Lemma settled_take_over req r now before x1 mid evs a :
  (∀ x y, (x, y) ∈ evs → table_ok x) → valid_id (request_id req) →
  silent before → silent mid → x1 !! row_key self (request_id req) = Some r →
  row_ok r → row_state r = STATE_IN_PROGRESS →
  mk_fingerprint (fingerprint r) = req_fingerprint req → (lease_until r ≤ now)%Z →
  runs (take_over self (row_key self (request_id req)) req r now) evs (Ret a) →
  reserved req (AReserve a) (before ++ (x1, x1) :: mid ++ evs).
Proof.
  intros Hok Hid Hb Hmid Hx1 Hrow Hst Hfp Hl Hr.
  assert (cell_of x1 (request_id req) = Some (mk_record (req_fingerprint req)
    (InProgress (mk_owner (owner_id r)) (mk_token (fencing_token r)) (lease_until r)))) as Hcx
    by (unfold cell_of; by rewrite Hx1, <-Hfp, <-(record_in_progress r)).
  assert (silent (before ++ (x1, x1) :: mid)) as Hs
    by (apply Forall_app; split; [done|by constructor]).
  apply take_over_runs in Hr; [|done..].
  assert (before ++ (x1, x1) :: mid ++ evs = (before ++ (x1, x1) :: mid) ++ evs) as Heq
    by by rewrite <-app_assoc.
  destruct Hr as [[-> ->]|[(y & e & -> & Hevs)|[Htook|Hlost]]].
  - left. rewrite app_nil_r. by apply Failed with FencingExhausted; [..|left].
  - left. apply Failed with (ReservationBackend e); [|done|by left]. rewrite Heq.
    apply Forall_app. split; [done|]. destruct Hevs as [->|[w ->]]; by repeat constructor.
  - destruct Htook as (y & z & r' & next & -> & Hy & Hst' & Htok & Hle & Hnext & -> & ->).
    assert (cell_of y (request_id req) = Some (record_of r')) as Hcy
      by (unfold cell_of; by rewrite Hy).
    rewrite record_in_progress in Hcy by done. rewrite Heq.
    destruct (decide (mk_fingerprint (fingerprint r') = req_fingerprint req)) as [Hf|Hf].
    + left. eapply Stepped; [by apply at_point_last| |by apply frames_insert].
      rewrite Hcy, cell_insert, record_in_progress by done. simpl. rewrite owner_eta.
      apply (CellTakenOver _ now); simpl; [done..|lia|]. unfold u64_max, i64_max in *. lia.
    + right. rewrite Htok in Hcy.
      eexists x1, y, _, _, _, _, _, _, _, (mk_token next), now.
      split; [set_solver|]. split; [exact Hcx|]. split; [done|].
      split; [by apply at_point_last|]. split; [by apply frames_insert|].
      split; [exact Hf|]. split; [exact Hle|]. split; [simpl; lia|]. split; [exact Hcy|].
      split; [|done]. rewrite cell_insert, record_in_progress by done. simpl.
      by rewrite owner_eta.
  - destruct Hlost as (y & w & r' & -> & Hy & Hw & ->). left.
    assert (row_ok r') as [[Hpos _] _] by (eapply (Hok w w); [set_solver|done]).
    eapply (Raced _ _ _ _ req x1 _ _ _ now y w r');
      [done|rewrite Heq; apply Forall_app; split; [done|by repeat constructor]|set_solver
      |exact Hcx|done|set_solver| |set_solver|done|].
    + intros fp o' u' Hcy. unfold cell_of in Hcy.
      destruct (y !! row_key self (request_id req)) as [r0|] eqn:Hr0; [|done].
      assert (row_ok r0) as Hok0 by (eapply (Hok y y); [set_solver|done]).
      apply (inj Some) in Hcy. apply in_progress_record in Hcy as (Hs0 & Ht0 & <-); [|done].
      by apply Hy.
    + unfold race_report. case_decide; [|done]. unfold owned.
      by rewrite token_from_storage_Ok by done.
Qed.

(** A reservation that has read a row settles. *)
Lemma settled_existing req x1 r before evs a :
  (∀ x y, (x, y) ∈ evs → table_ok x) → valid_id (request_id req) → silent before →
  x1 !! row_key self (request_id req) = Some r → row_ok r →
  runs (if decide (fingerprint r ≠ fingerprint_str (req_fingerprint req))
        then Ret (Ok ConflictingFingerprint)
        else if decide (row_state r = STATE_COMPLETED) then Ret (replay self r)
        else let! now := clock in
             if decide (lease_until r ≤ now)%Z
             then take_over self (row_key self (request_id req)) req r now
             else if decide (owner_id r = owner_str (req_owner_id req))
             then Ret (owned self (request_id req) (req_owner_id req) r)
             else Ret (Ok OtherInProgress)) evs (Ret a) →
  reserved req (AReserve a) (before ++ (x1, x1) :: evs).
Proof.
  intros Hok Hid Hb Hx1 Hrow Hr. case_decide as Hfp.
  { left. apply runs_ret in Hr as [-> ->]. eapply (settled_reading _ _ _ 0); [done|done|constructor|].
    apply CellConflict; [done|]. destruct req as [? ? [fp] ? ?]. unfold record_of. simpl in *.
    congruence. }
  assert (mk_fingerprint (fingerprint r) = req_fingerprint req) as Hfp'
    by (rewrite Hfp; by destruct (req_fingerprint req)).
  case_decide as Hst.
  { left. apply runs_ret in Hr as [-> ->]. eapply (settled_reading _ _ _ 0); [done|done|constructor|].
    destruct Hrow as [_ [(Hst' & _)|(_ & [at_ Hat] & enc & resp & He & Hd)]];
      [by rewrite Hst in Hst'|].
    unfold record_of, replay. rewrite decide_True, Hat, He by done. simpl.
    rewrite Hd. simpl. by apply CellSucceeded. }
  assert (row_state r = STATE_IN_PROGRESS) as Hprog by by destruct Hrow as [_ [[? _]|[? _]]].
  unfold clock, exec in Hr. destruct evs as [|[x2 x2'] evs]; cbn [runs bind] in Hr; [done|].
  destruct Hr as (now & Hx2 & Hr). simpl in Hx2. subst x2'.
  case_decide as Hexp.
  { apply (settled_take_over req r now before x1 [(x2, x2)]); try done; [|apply silent_one].
    intros. eapply Hok. by right. }
  left. case_decide as Ho; apply runs_ret in Hr as [-> ->];
    (eapply (settled_reading _ _ _ now); [done|done|apply silent_one|]);
    rewrite record_in_progress, Hfp' by done.
  - unfold owned. rewrite token_from_storage_Ok, Ho, owner_eta by apply Hrow.
    apply CellOwned; [done..|lia].
  - apply CellOther; [done..|lia|]. intros Heq. apply Ho. by rewrite <-Heq.
Qed.

(** A reservation settles against the port. *)
Lemma settled_reserve req evs a :
  (∀ x y, (x, y) ∈ evs → table_ok x) → valid_id (request_id req) →
  runs (reserve self req) evs (Ret a) →
  reserved req (AReserve a) evs.
Proof.
  intros Hok Hid. unfold reserve.
  assert (token_for_storage token_initial = Ok 1%Z) as -> by done. unfold run_stmt, exec.
  destruct evs as [|[x y] evs]; cbn [runs bind]; [done|]. intros (b & Hb & Hr).
  destruct b as [n|e]; simpl in Hb; cbn [map_err] in Hr.
  2: { left. apply runs_ret in Hr as [-> ->]. subst y.
       apply Failed with (backend_err self e); [apply silent_one|done|by left]. }
  unfold insert_or_ignore in Hb.
  destruct (x !! row_key self (request_id req)) as [r0|] eqn:Hx; injection Hb as <- <-.
  2: { left. rewrite decide_True in Hr by done. apply runs_ret in Hr as [-> ->].
       eapply Stepped; [apply (at_point_last [])|..]; [constructor| |by apply frames_insert].
       rewrite cell_insert, record_in_progress by done. unfold cell_of. rewrite Hx. simpl.
       destruct req as [? ? [fp] [o] u]. by apply (CellFresh _ 0). }
  rewrite decide_False in Hr by done.
  apply runs_bind in Hr as (evs1 & evs2 & existing & -> & H1 & H2).
  apply current_runs in H1 as (x1 & -> & [->|[e ->]]).
  2: { left. apply runs_ret in H2 as [-> ->].
       apply Failed with (ReservationBackend e); [by repeat constructor|done|by left]. }
  destruct (x1 !! row_key self (request_id req)) as [r|] eqn:Hx1.
  2: { left. apply runs_ret in H2 as [-> ->].
       apply Failed with (ReservationBackend vanished_before_read);
         [by repeat constructor|done|by left]. }
  apply (settled_existing req x1 r [(x, x)]); [|done|apply silent_one|done| |done].
  - intros x0 y0 Hin. apply (Hok x0 y0). set_solver.
  - eapply (Hok x1 x1); [set_solver|done].
Qed.

(** ** Every command *)

(** Each change of the table is a step of the port by the call that makes it, or the
    takeover of a row whose fingerprint has changed since it was read. *)
Definition explained (c : call) (x y : table) : Prop :=
  ∀ id, valid_id id →
    cell_of y id = cell_of x id ∨
    (concerns c id ∧ ∃ now a, cell_step id now c a (cell_of x id) (cell_of y id)) ∨
    ∃ req fp o t u t' now, c = CReserve req ∧ request_id req = id ∧
      fp ≠ req_fingerprint req ∧ (u ≤ now)%Z ∧ (token_value t < token_value t')%Z ∧
      cell_of x id = Some (mk_record fp (InProgress o t u)) ∧
      cell_of y id = Some (mk_record fp (InProgress (req_owner_id req) t' (req_lease_until req))).

Definition good (c : call) (x y : table) : Prop := table_ok x → table_ok y ∧ explained c x y.

Lemma explained_refl c t : explained c t t.
Proof. intros ? ?. by left. Qed.

Lemma good_refl c t : good c t t.
Proof. intros ?. split; [done|apply explained_refl]. Qed.

(** A change of the row of one reservation. *)
Lemma explained_frame c id x y :
  valid_id id → concerns c id → frames id x y →
  (∃ now a, cell_step id now c a (cell_of x id) (cell_of y id)) → explained c x y.
Proof.
  intros Hid Hc Hf Hstep id' Hid'. destruct (decide (id' = id)) as [->|Hne]; [by right; left|].
  left. by apply Hf.
Qed.
#[local] Hint Resolve good_refl : core.

Lemma issues_current c k : issues (good c) (current self k).
Proof. unfold current. apply issues_bind; [by apply issues_select|done]. Qed.

Lemma issues_mutate c fence build :
  (∀ token now, token = token_value (fence_fencing_token fence) → (token ≤ i64_max)%Z →
     ∀ t b t', meaning (build (row_key self (fence_operation_id fence)) token now) t b t' →
     good c t t') →
  issues (good c) (mutate_owned self fence build).
Proof.
  intros Hb. unfold mutate_owned. destruct (token_for_storage _) as [token|e] eqn:Ht; [|done].
  apply token_for_storage_Ok in Ht as [-> Ht]. apply issues_bind; [by apply issues_clock|].
  intros now. apply issues_bind; [|done]. apply issues_stmt; [done|]. by apply Hb.
Qed.

Lemma table_ok_update (p : Row RC → bool) set k t n t' :
  (∀ r, row_ok r → p r = true → row_ok (set r)) → table_ok t →
  update (at_key k p) set t = (n, t') → table_ok t'.
Proof.
  intros Hset Ht. rewrite update_at. destruct (t !! k) as [r|] eqn:Hk; [|by intros [= _ <-]].
  destruct (p r) eqn:Hp; intros [= _ <-]; [|done].
  apply map_Forall_insert_2; [|done]. apply Hset; [by eapply Ht|done].
Qed.

Lemma table_ok_delete (p : Row RC → bool) k t n t' :
  table_ok t → delete_where (at_key k p) t = (n, t') → table_ok t'.
Proof.
  intros Ht. rewrite delete_at. destruct (t !! k) as [r|]; [|by intros [= _ <-]].
  destruct (p r); intros [= _ <-]; [|done]. by apply map_Forall_delete.
Qed.

Lemma owned_by_in_progress fence token now (r : Row RC) :
  owned_by fence token now r = true → row_state r = STATE_IN_PROGRESS.
Proof. unfold owned_by. rewrite !andb_true_iff, !bool_decide_eq_true. by intros [[_ ?] _]. Qed.

Lemma in_progress_parts r :
  row_ok r → row_state r = STATE_IN_PROGRESS →
  (0 < fencing_token r ≤ i64_max)%Z ∧ completed_at r = None ∧ response r = None.
Proof. intros [? [(_ & ? & ?)|(Hst & _)]] Hst'; [done|]. by rewrite Hst in Hst'. Qed.

Lemma issues_fenced c fence :
  valid_call c → call_fence c = Some fence → issues (good c) (method_of c).
Proof.
  intros Hid Hc. destruct c as [|f until|f resp|f|]; simplify_eq/=;
    (apply issues_bind; [|done]); apply issues_mutate; intros token now -> _ t n t' Hm Ht.
  - destruct (renew_statement fence until now t t' n) as [Hstep Hf]; [done..|].
    split; [|by eapply explained_frame; eauto].
    eapply table_ok_update; [|done|exact Hm]. intros r Hr Hp%owned_by_in_progress.
    apply in_progress_parts in Hr as (? & ? & ?); [|done]. split; [done|]. by left.
  - destruct (complete_statement fence resp now t t' n) as [Hstep Hf]; [done..|].
    split; [|by eapply explained_frame; eauto].
    eapply table_ok_update; [|done|exact Hm]. intros r Hr _. split; [apply Hr|]. right.
    split_and!; [done|by eauto|]. eexists _, resp. split; [done|]. apply (response_round_trip Hself).
  - destruct (abandon_statement fence now t t' n) as [Hstep Hf]; [done..|].
    split; [|by eapply explained_frame; eauto]. by eapply table_ok_delete.
Qed.

(** The takeover statement of a reservation. *)
Lemma good_take_over req r stored now t n t' :
  valid_id (request_id req) → (fencing_token r < stored ≤ i64_max)%Z → (0 < stored)%Z →
  meaning (take_over_row (row_key self (request_id req)) req r stored now) t n t' →
  good (CReserve req) t t'.
Proof.
  intros Hid Hstored Hpos Hm Ht. simpl in Hm.
  assert (table_ok t') as Ht'.
  { eapply table_ok_update; [|done|exact Hm]. intros r' Hr' Hp.
    rewrite !andb_true_iff, !bool_decide_eq_true in Hp. destruct Hp as [[Hst _] _].
    apply in_progress_parts in Hr' as (? & ? & ?); [|done]. split; [simpl; lia|]. by left. }
  split; [done|]. rewrite update_at in Hm.
  destruct (t !! row_key self (request_id req)) as [r'|] eqn:Hr'; [|injection Hm as _ <-; apply explained_refl].
  destruct (_ && _ && _) eqn:Hp; injection Hm as _ <-; [|apply explained_refl].
  rewrite !andb_true_iff, !bool_decide_eq_true in Hp. destruct Hp as [[Hst Htok] Hl].
  assert (cell_of t (request_id req) = Some (record_of r')) as Hcell
    by (unfold cell_of; by rewrite Hr').
  rewrite record_in_progress in Hcell by done.
  intros id Hid'. destruct (decide (id = request_id req)) as [->|Hne];
    [|left; by apply frames_insert]. right.
  rewrite cell_insert, record_in_progress by done. simpl. rewrite owner_eta.
  destruct (decide (mk_fingerprint (fingerprint r') = req_fingerprint req)) as [Hf|Hf].
  - left. split; [done|]. exists now. eexists. rewrite Hcell.
    apply CellTakenOver; simpl; [done..|lia|]. unfold u64_max, i64_max in *. lia.
  - right. eexists req, _, _, _, _, _, now. split_and!; try done. simpl. lia.
Qed.

Lemma issues_reserve req : valid_id (request_id req) → issues (good (CReserve req)) (reserve self req).
Proof.
  intros Hid. unfold reserve.
  assert (token_for_storage token_initial = Ok 1%Z) as -> by done.
  apply issues_bind.
  { apply issues_stmt; [done|]. intros t n t' Hm Ht. simpl in Hm. unfold insert_or_ignore in Hm.
    destruct (t !! row_key self (request_id req)) as [r|] eqn:Hr; injection Hm as _ <-; [by apply good_refl|].
    split; [by apply map_Forall_insert_2; [split; [done|by left]|]|].
    apply explained_frame with (request_id req); [done..|by apply frames_insert|].
    rewrite cell_insert, record_in_progress by done. unfold cell_of. rewrite Hr. simpl.
    exists 0%Z. eexists. destruct req as [? ? [fp] [o] u]. by apply CellFresh. }
  intros [n|e]; cbn [map_err]; [|done]. case_decide; [done|].
  apply issues_bind; [apply issues_current|]. intros [[r|]|e]; [|done..].
  case_decide; [done|]. case_decide; [done|]. apply issues_bind; [by apply issues_clock|].
  intros now. case_decide; [|by case_decide]. unfold take_over.
  destruct (token_from_storage _ _) as [displaced|e] eqn:Hd; [|done]. cbn [mbind result_bind].
  unfold token_from_storage in Hd. case_decide as Hpos; [done|]. injection Hd as <-.
  destruct (token_next _) as [next|] eqn:Hn; [|done]. cbn [ok_or mbind result_bind].
  apply token_next_Some in Hn as [Hn _]. simpl in Hn.
  destruct (token_for_storage next) as [stored|e] eqn:Hs; [|done]. cbn [mbind result_bind].
  apply token_for_storage_Ok in Hs as [-> Hle].
  apply issues_bind.
  { apply issues_stmt; [done|]. intros t m t'. apply good_take_over; [done|lia..]. }
  intros [m|e]; cbn [map_err]; [|done]. case_decide; [done|].
  apply issues_bind; [apply issues_current|]. intros [[r'|]|e]; [by case_decide|done..].
Qed.

(** ** Purging *)
Definition purged (cutoff : Z) (t t' : table) : Prop :=
  ∀ k, t' !! k = t !! k ∨ (t' !! k = None ∧ ∃ r, t !! k = Some r ∧ purgeable cutoff r = true).

Lemma good_purged cutoff batch it t t' : purged cutoff t t' → good (CPurge cutoff batch it) t t'.
Proof.
  intros Hp Ht. split.
  - intros k r Hk. destruct (Hp k) as [Heq|[Heq _]]; [|by rewrite Heq in Hk].
    rewrite Heq in Hk. by eapply Ht.
  - intros id Hid. unfold cell_of. destruct (Hp (row_key self id)) as [->|(-> & r & Hr & Hpu)];
      [by left|]. right. left. split; [done|]. exists 0%Z, (APurge (Ok 0%Z)). rewrite Hr. simpl.
    unfold purgeable in Hpu. apply andb_true_iff in Hpu as [Hst%bool_decide_eq_true Hat].
    destruct (Ht _ _ Hr) as [_ [(Hst' & _)|(_ & [at_ Ha] & enc & resp & He & Hd)]];
      [by rewrite Hst in Hst'|].
    unfold record_of. rewrite Ha in Hat. apply bool_decide_eq_true in Hat.
    rewrite decide_True, He, Ha, Hd by done. by apply CellPurged.
Qed.

(** The rows a call has removed. *)
Definition removed (evs : list (table * table)) : Z :=
  foldr (λ e n, Z.of_nat (size e.1) - Z.of_nat (size e.2) + n)%Z 0%Z evs.

Definition purge_ok : Prop :=
  ∀ cutoff batch,
    (∀ it, issues (good (CPurge cutoff batch it)) (purge cutoff batch)) ∧
    ∀ evs n, runs (purge cutoff batch) evs (Ret (Ok n)) →
      n = removed evs ∧ (0 ≤ n ≤ Z.of_nat batch)%Z.

(** What the port's proofs use of a store. *)
Class DurableReservations : Prop := {
  durable_dialect : dialect_ok;
  durable_purge : purge_ok;
}.
End port.

Section purges.
Context {TC RC E : Type} `{Countable TC} (self : Dialect TC RC E).
Abbreviation table := (gmap (TC * string) (Row RC)).

Lemma purge_statement (cutoff : Z) (k : TC * string) (t : table) (n : Z) (t' : table) :
  delete_where (at_key k (purgeable cutoff)) t = (n, t') →
  purged cutoff t t' ∧ (n = Z.of_nat (size t) - Z.of_nat (size t'))%Z ∧ (0 ≤ n ≤ 1)%Z.
Proof.
  rewrite delete_at. destruct (t !! k) as [r|] eqn:Hk;
    [|by intros [= <- <-]; split_and!; [by left|lia..]].
  destruct (purgeable cutoff r) eqn:Hp; intros [= <- <-];
    [|by split_and!; [by left|lia..]].
  assert (size t ≠ 0). { intros ->%map_size_empty_inv. by rewrite lookup_empty in Hk. }
  split_and!; [|rewrite map_size_delete_Some by eauto; lia|lia..].
  intros k'. destruct (decide (k' = k)) as [->|Hne];
    [right; rewrite lookup_delete_eq; by eauto|left; by rewrite lookup_delete_ne].
Qed.

Lemma issues_purge_each cutoff batch it ks d :
  issues (good self (CPurge cutoff batch it)) (purge_each self cutoff ks d).
Proof.
  revert d. induction ks as [|k ks IH]; intros d; [done|]. apply issues_bind.
  - apply issues_stmt; [apply good_refl|]. intros t n t' Hm.
    apply good_purged. by eapply purge_statement.
  - by intros [n|e]; simpl.
Qed.

Lemma purge_each_runs cutoff ks d evs n :
  runs (purge_each self cutoff ks d) evs (Ret (Ok n)) →
  (n = d + removed evs)%Z ∧ (d ≤ n ≤ d + Z.of_nat (length ks))%Z.
Proof.
  revert d evs. induction ks as [|k ks IH]; intros d evs.
  - intros [-> [= ->]]%runs_ret. simpl. lia.
  - cbn [purge_each]. unfold run_stmt, exec.
    destruct evs as [|[x y] evs]; cbn [runs bind]; [done|]. intros (b & Hb & Hr).
    destruct b as [m|e]; simpl in Hb; cbn [map_err] in Hr; [|by apply runs_ret in Hr as [_ ?]].
    apply purge_statement in Hb as (_ & Hm & Hbound). apply IH in Hr as [-> Hr].
    cbn [removed foldr length fst snd]. fold (removed evs). lia.
Qed.

Lemma stoolap_purge_ok : purge_ok self (stoolap_purge self).
Proof.
  intros cutoff batch. split.
  - intros it. unfold stoolap_purge. apply issues_bind; [apply issues_select, good_refl|].
    intros [rows|e]; simpl; [apply issues_purge_each|done].
  - intros evs n. unfold stoolap_purge, run_stmt, exec.
    destruct evs as [|[x y] evs]; cbn [runs bind]; [done|]. intros (b & Hb & Hr).
    destruct b as [rows|e]; simpl in Hb; cbn [map_err] in Hr; [|by apply runs_ret in Hr as [_ ?]].
    destruct Hb as (-> & it & _ & _ & Hrows). apply purge_each_runs in Hr as [-> Hr].
    assert (length rows.*1 ≤ Z.to_nat (batch_for_storage batch)).
    { rewrite length_fmap, Hrows, length_take. lia. }
    cbn [removed foldr fst snd]. fold (removed evs). unfold batch_for_storage in *. lia.
Qed.

Lemma postgres_purge_ok : purge_ok self (postgres_purge self).
Proof.
  intros cutoff batch.
  assert (∀ t (ks : list (TC * string)), chosen (λ _, purgeable cutoff) (batch_for_storage batch) t ks →
    purged (RC := RC) cutoff t (remove_keys ks t)) as Hpurged.
  { intros t ks (_ & _ & Hks) k. rewrite lookup_remove_keys. case_decide as Hk; [|by left].
    right. split; [done|]. destruct (Hks k Hk) as [r [Hr Hp]%lookup_matching]. eauto. }
  split.
  - intros it. unfold postgres_purge. apply issues_bind; [|done].
    apply issues_stmt; [apply good_refl|]. intros t n t' (ks & Hks & _ & ->).
    apply good_purged. by apply Hpurged.
  - intros evs n. unfold postgres_purge, run_stmt, exec.
    destruct evs as [|[x y] evs]; cbn [runs bind]; [done|]. intros (b & Hb & Hr).
    apply runs_ret in Hr as [-> Hn].
    destruct b as [m|e]; simpl in Hb; [injection Hn as ->|done].
    destruct Hb as (ks & (Hnd & Hlen & Hks) & -> & ->). cbn [removed foldr fst snd].
    pose proof (size_remove_keys ks x Hnd) as Hsize.
    rewrite <-Hsize; [|intros k Hk; destruct (Hks k Hk) as [r [Hr _]%lookup_matching]; by eauto].
    unfold batch_for_storage in Hlen. lia.
Qed.
End purges.

(** ** The two stores implement the port *)
Lemma postgres_dialect_ok : dialect_ok postgres_dialect.
Proof.
  split; [|by intros []]. intros [[t]|] [[t']|] _ _; simpl; congruence.
Qed.

(** Of the base64 crate only the round trip is used. *)
Lemma stoolap_dialect_ok base64_encode base64_decode :
  (∀ bytes, base64_decode (base64_encode bytes) = Ok bytes) →
  dialect_ok (stoolap_dialect base64_encode base64_decode).
Proof.
  intros Hb. split.
  - intros [[t]|] [[t']|] Ht Ht'; simpl; unfold SYSTEMWIDE_SCOPE, valid_tenant in *; try congruence.
    + intros ->. by destruct Ht.
    + intros <-. by destruct Ht'.
  - intros [bytes]. simpl. by rewrite Hb.
Qed.

#[export] Instance postgres_durable : DurableReservations postgres_dialect (postgres_purge postgres_dialect).
Proof. split; [apply postgres_dialect_ok|apply postgres_purge_ok]. Qed.

Lemma stoolap_durable base64_encode base64_decode :
  (∀ bytes, base64_decode (base64_encode bytes) = Ok bytes) →
  DurableReservations (stoolap_dialect base64_encode base64_decode)
    (stoolap_purge (stoolap_dialect base64_encode base64_decode)).
Proof. split; [by apply stoolap_dialect_ok|apply stoolap_purge_ok]. Qed.

(** ** Theorems *)
Section theorems.
Context {TC RC E : Type} `{Countable TC} (self : Dialect TC RC E).
Abbreviation method := (prog (sql (TC * string) (Row RC) E)).
Context (purge : Z → nat → method (result ReservationError Z)).

(** The calls a client can make. *)
Definition offered (p : method answer) : Prop :=
  ∃ c, valid_call c ∧ p = method_of self purge c.

Context `{D : !DurableReservations self purge}.

Lemma issues_method c : valid_call c → issues (good self c) (method_of self purge c).
Proof.
  intros Hc. destruct D as [Hd Hpurge]. destruct (call_fence c) as [f|] eqn:Hf.
  - by eapply issues_fenced.
  - destruct c as [req| | | |cutoff batch it]; try done; unfold method_of;
      (apply issues_bind; [|done]).
    + by apply issues_reserve.
    + apply Hpurge.
Qed.

Lemma reachable_table_ok t s :
  table_ok self t → rtc (step offered) (initial t) s →
  table_ok self (db_table s) ∧
  ∀ i x y, (i, x, y) ∈ db_history s → table_ok self x ∧ table_ok self y.
Proof.
  apply history_invariant. intros p evs q x y (c & Hc & ->) Hr Hin.
  eapply issues_runs in Hr; [|by apply issues_method|exact Hin]. by intros [? _]%Hr.
Qed.

(** Every request made so far for reservation [id], and the reservation the table began
    with, have the fingerprint [F]. *)
Definition agreed (id : OperationId) (F : OperationFingerprint) (t : gmap (TC * string) (Row RC))
    (s : state (TC * string) (Row RC) E answer) : Prop :=
  (∀ r, cell_of self t id = Some r → rec_fingerprint r = F) ∧
  ∀ j req q, valid_id (request_id req) →
    db_calls s !! j = Some (method_of self purge (CReserve req), q) →
    request_id req = id → req_fingerprint req = F.

Lemma changes_explained t s :
  table_ok self t → rtc (step offered) (initial t) s →
  ∀ i x y, (i, x, y) ∈ db_history s →
    ∃ c q, valid_call c ∧ db_calls s !! i = Some (method_of self purge c, q) ∧
      explained self c x y.
Proof.
  intros Ht Hr i x y Hin. pose proof (reachable_table_ok t s Ht Hr) as [_ Hh].
  pose proof (reachable_history _ _ _ Hr) as (_ & Hids & Hcalls).
  destruct (Hids _ Hin) as [[p q] Hi]. simpl in Hi.
  destruct (Hcalls i p q Hi) as [(c & Hc & ->) Hruns]. exists c, q. split_and!; [done..|].
  eapply issues_runs in Hruns; [|by apply issues_method|by apply elem_of_of_call].
  apply Hruns. by apply (Hh i x y).
Qed.

(** A step of the port keeps the fingerprint a reservation has. *)
Lemma cell_step_fingerprint id now c a x y r r' :
  cell_step id now c a x y → x = Some r → y = Some r' → rec_fingerprint r' = rec_fingerprint r.
Proof. destruct 1; naive_solver. Qed.

Lemma agreed_tables id F t s :
  valid_id id → table_ok self t → rtc (step offered) (initial t) s → agreed id F t s →
  ∀ i x y, (i, x, y) ∈ db_history s →
    (∀ r, cell_of self x id = Some r → rec_fingerprint r = F) ∧
    (∀ r, cell_of self y id = Some r → rec_fingerprint r = F).
Proof.
  intros Hid Ht Hr [Hinit Hreqs].
  pose proof (reachable_history _ _ _ Hr) as (Hpath & _ & _).
  refine (proj2 (path_invariant (λ x, ∀ r, cell_of self x id = Some r → rec_fingerprint r = F)
    t (db_history s) (db_table s) Hpath Hinit _)).
  intros i x y Hin Hx r Hy.
  destruct (changes_explained t s Ht Hr i x y Hin) as (c & q & Hc & Hi & Hex).
  destruct (Hex id Hid) as [Heq|[(Hcon & now & a & Hst)|
    (req & fp & o & tk & u & tk' & now & _ & _ & _ & _ & _ & Hcx & Hcy)]].
  - apply Hx. by rewrite <-Heq.
  - destruct (cell_of self x id) as [r0|] eqn:Hr0.
    + rewrite <-(Hx r0 eq_refl). by eapply cell_step_fingerprint.
    + rewrite Hy in Hst. inversion Hst; subst. simpl. by eapply Hreqs.
  - rewrite Hcy in Hy. injection Hy as <-. simpl. by apply (Hx _ Hcx).
Qed.

Lemma returned_calls t s :
  table_ok self t → rtc (step offered) (initial t) s →
  ∀ i c a, valid_call c → db_calls s !! i = Some (method_of self purge c, Ret a) →
    match c with
    | CReserve req => reserved self req a (of_call i (db_history s))
    | CRenew f _ | CComplete f _ | CAbandon f =>
        settled self (fence_operation_id f) c a (of_call i (db_history s))
    | CPurge _ batch _ => ∀ n, a = APurge (Ok n) →
        n = removed (of_call i (db_history s)) ∧ (0 ≤ n ≤ Z.of_nat batch)%Z
    end.
Proof.
  intros Ht Hr i c a Hc Hi. pose proof (reachable_table_ok t s Ht Hr) as [_ Hh].
  pose proof (reachable_history _ _ _ Hr) as (_ & _ & Hcalls).
  destruct (Hcalls i _ _ Hi) as [_ Hruns].
  assert (∀ x y, (x, y) ∈ of_call i (db_history s) → table_ok self x) as Hev
    by (intros x y Hin%elem_of_of_call; by apply (Hh i x y)).
  destruct D as [Hd Hpurge]. destruct c as [req|f until|f resp|f|cutoff batch it].
  2-4: by eapply settled_fenced.
  - apply runs_bind in Hruns as (evs1 & evs2 & r & Heq & Hruns & [-> ->]%runs_ret).
    rewrite app_nil_r in Heq. rewrite Heq in *. by apply settled_reserve.
  - intros n ->.
    apply runs_bind in Hruns as (evs1 & evs2 & r & Heq & Hruns & [-> [= <-]]%runs_ret).
    rewrite app_nil_r in Heq. rewrite Heq. by eapply Hpurge.
Qed.

(** C23: The durable reservation stores implement the port under any interleaving of any
    number of calls, with any database errors.  The table stays well formed.  Every
    change any statement makes takes each reservation it touches one step of the
    port's state machine by a call that concerns it, or is a takeover of a row whose
    fingerprint is another request's.  Every reserve, renew, complete or abandon that
    has returned either took exactly one step of the port, with the answer it
    returned, at one of its own statements; or failed with a store error and changed
    nothing; or, a reserve, lost the race for an expired lease, changed nothing and
    reports the owner of the row it read afterwards; or, a reserve, was mistaken: it
    read its own fingerprint and took over another one under the same token.  When
    the requests for a reservation agree on its fingerprint the last never happens,
    and every change of it is a step of the port.  A purge reports the rows it
    removed, at most the batch. *)
Theorem durable_reservations_settle t s :
  table_ok self t → rtc (step offered) (initial t) s →
  table_ok self (db_table s) ∧
  (∀ i x y, (i, x, y) ∈ db_history s →
     ∃ c q, valid_call c ∧ db_calls s !! i = Some (method_of self purge c, q) ∧
       explained self c x y) ∧
  (∀ i c a, valid_call c → db_calls s !! i = Some (method_of self purge c, Ret a) →
     match c with
     | CReserve req => reserved self req a (of_call i (db_history s))
     | CRenew f _ | CComplete f _ | CAbandon f =>
         settled self (fence_operation_id f) c a (of_call i (db_history s))
     | CPurge _ batch _ => ∀ n, a = APurge (Ok n) →
         n = removed (of_call i (db_history s)) ∧ (0 ≤ n ≤ Z.of_nat batch)%Z
     end) ∧
  ∀ id F, valid_id id → agreed id F t s →
    (∀ i req a, request_id req = id →
       db_calls s !! i = Some (method_of self purge (CReserve req), Ret a) →
       settled self id (CReserve req) a (of_call i (db_history s))) ∧
    ∀ i x y, (i, x, y) ∈ db_history s → cell_of self y id ≠ cell_of self x id →
      ∃ c q now a, db_calls s !! i = Some (method_of self purge c, q) ∧ concerns c id ∧
        cell_step id now c a (cell_of self x id) (cell_of self y id).
Proof.
  intros Ht Hr. pose proof (reachable_table_ok t s Ht Hr) as [Hok Hh].
  pose proof (changes_explained t s Ht Hr) as Hex.
  pose proof (returned_calls t s Ht Hr) as Hret.
  split; [exact Hok|]. split; [exact Hex|]. split; [exact Hret|].
  intros id F Hid Hag. pose proof (agreed_tables id F t s Hid Ht Hr Hag) as Htables. split.
  - intros i req a <- Hi. destruct (Hret i (CReserve req) a Hid Hi) as [Hs|Hm]; [done|].
    destruct Hm as (x0 & x & y & fp & o0 & u0 & o & u & tk & tk' & now & _ & _ & _
      & (before & after & Hevs & _) & _ & Hfp & _ & _ & Hcx & _). exfalso. apply Hfp.
    assert ((i, x, y) ∈ db_history s) as Hin by (apply elem_of_of_call; rewrite Hevs; set_solver).
    destruct Hag as [_ Hreqs]. rewrite (Hreqs i req _ Hid Hi eq_refl).
    by apply (proj1 (Htables i x y Hin) _ Hcx).
  - intros i x y Hin Hne. destruct (Hex i x y Hin) as (c & q & Hc & Hi & Hx).
    destruct (Hx id Hid) as [Heq|[(Hcon & now & a & Hst)|
      (req & fp & o & tk & u & tk' & now & -> & Hreq & Hfp & _ & _ & Hcx & _)]]; [done| |].
    + by exists c, q, now, a.
    + exfalso. apply Hfp. destruct Hag as [_ Hreqs]. subst id.
      rewrite (Hreqs i req _ Hid Hi eq_refl). by apply (proj1 (Htables i x y Hin) _ Hcx).
Qed.
End theorems.

(** ** Examples *)
Module Example_ledger.
Definition tenant : option TenantId := Some (mk_id "acme").
Definition id : OperationId := mk_operation_id tenant (mk_key "pay-1").
Definition ask (fp owner : string) (until : Z) : call :=
  CReserve (mk_request tenant (mk_key "pay-1") (mk_fingerprint fp) (mk_owner owner) until).
Definition call_ (c : call) := method_of postgres_dialect (postgres_purge postgres_dialect) c.

Lemma offers c : valid_call c → offered postgres_dialect (postgres_purge postgres_dialect) (call_ c).
Proof. intros. by exists c. Qed.

Definition k : option string * string := (Some "acme", "pay-1").
Abbreviation reachable :=
  (rtc (step (offered postgres_dialect (postgres_purge postgres_dialect))) (initial ∅)).

Ltac start i c :=
  eapply rtc_l; [apply (step_start _ _ _ _ i (call_ c)); [by apply offers|reflexivity]|].
Ltac act n ans tac :=
  eapply rtc_l; [eapply step_command with (i := n) (b := ans); [reflexivity|tac]|].
Ltac statement n ans := act n (Ok ans : result SqlxError _) ltac:(reflexivity).
Ltac reads_clock n now := act n (now : Z) ltac:(reflexivity).
Ltac reads_row n r := act n (Ok [(k, r)] : result SqlxError _) ltac:(split; [reflexivity|
  exists [(k, r)]; split_and!; [vm_compute; apply Permutation_refl|repeat constructor|reflexivity]]).

(** The fingerprint a method would insert first. *)
Definition first_fingerprint
    (p : prog (sql (option string * string) (Row (list Byte.byte)) SqlxError) answer) : string :=
  match p with
  | Do (Stmt (InsertOrIgnore _ r)) _ => fingerprint r
  | _ => ""
  end.

Lemma requests_agree req fp owner until :
  method_of postgres_dialect (postgres_purge postgres_dialect) (CReserve req)
    = call_ (ask fp owner until) → req_fingerprint req = mk_fingerprint fp.
Proof.
  intros Heq%(f_equal first_fingerprint). destruct req as [? ? [fp'] ? ?].
  simpl in *. by rewrite Heq.
Qed.

(** [x] reserves; [y] asks for the same and is told that another owner holds it. *)
Lemma held_reachable :
  ∃ s, reachable s ∧
    agreed postgres_dialect (postgres_purge postgres_dialect) id (mk_fingerprint "A") ∅ s ∧
    db_calls s !! 1 = Some (call_ (ask "A" "y" 30), Ret (AReserve (Ok OtherInProgress))).
Proof.
  eexists. split_and!.
  - start 0 (ask "A" "x" 10). statement 0 1%Z.
    start 1 (ask "A" "y" 30). statement 1 0%Z.
    reads_row 1 (mk_row "A" "x" 1 10 STATE_IN_PROGRESS None (@None (list Byte.byte))).
    reads_clock 1 5%Z. apply rtc_refl.
  - split; [by unfold cell_of; intros r; rewrite lookup_empty|].
    intros j req q _ Hj _. cbn [db_calls] in Hj.
    repeat (rewrite lookup_insert in Hj; case_decide;
      [apply (inj Some), (f_equal fst) in Hj; exact (requests_agree _ _ _ _ (eq_sym Hj))|]).
    cbn in Hj. by rewrite lookup_empty in Hj.
  - reflexivity.
Qed.

Lemma durable_reservations_settle_witness :
  ∃ s, reachable s ∧
    db_calls s !! 1 = Some (call_ (ask "A" "y" 30), Ret (AReserve (Ok OtherInProgress))) ∧
    settled postgres_dialect id (ask "A" "y" 30) (AReserve (Ok OtherInProgress))
      (of_call 1 (db_history s)).
Proof.
  destruct held_reachable as (s & Hs & Hag & Hc). exists s. split; [exact Hs|].
  split; [exact Hc|].
  pose proof (durable_reservations_settle postgres_dialect (postgres_purge postgres_dialect) ∅ s
    (map_Forall_empty _) Hs) as (_ & _ & _ & H).
  refine (proj1 (H id (mk_fingerprint "A") _ Hag) 1
    (mk_request tenant (mk_key "pay-1") (mk_fingerprint "A") (mk_owner "y") 30) _ eq_refl Hc).
  discriminate.
Defined.

(** A client [y] reads the expired lease of [x]; before it writes, [x] abandons under a
    clock reading from before the expiry and a delayed reservation of another request
    [B] takes the key, with a lease that has lapsed by then.  The takeover then
    succeeds: [y] holds a reservation of request [B] for its own request [A]. *)
Lemma takeover_ignores_fingerprint :
  ∃ s r, reachable s ∧ db_table s !! k = Some r ∧ fingerprint r = "B" ∧
    db_calls s !! 1 = Some (call_ (ask "A" "y" 30),
      Ret (AReserve (Ok (TakenOver (mk_lease id (mk_owner "y") (mk_token 2) 30))))).
Proof.
  eexists _, _. split_and!.
  - start 0 (ask "A" "x" 10). statement 0 1%Z.
    start 1 (ask "A" "y" 30). statement 1 0%Z.
    reads_row 1 (mk_row "A" "x" 1 10 STATE_IN_PROGRESS None (@None (list Byte.byte))).
    reads_clock 1 11%Z.
    start 2 (CAbandon (mk_fence id (mk_owner "x") token_initial)).
    reads_clock 2 9%Z. statement 2 1%Z.
    start 3 (ask "B" "z" 10). statement 3 1%Z.
    statement 1 1%Z. apply rtc_refl.
  - reflexivity.
  - reflexivity.
  - reflexivity.
Qed.
End Example_ledger.
