(* ===== verification/SqlReadSide.v ===== *)
(** * Durable read-side stores

    The claim, offset and dedup stores of the read side over a database:
    crates/persistence-stoolap, read_side/{claim,offset,dedup}.rs, and
    crates/persistence, postgres/read_side_{claim,offset,dedup}.rs.  A claim row is
    never deleted, so the fencing token of a claim only grows. *)

From stdpp Require Import pretty.
From S2P Require Import Prelude Programs Identity Reservation Sql Drivers SqlReservation ReadSide.

(** ** Claims *)
Record ClaimRow := mk_claim_row {
  claim_owner_id : string;
  claim_fencing_token : Z;
  claim_lease_until : Z;
}.

(** [projection_claims], identified by projection, tag and tenant. *)
Abbreviation ClaimKey := (string * string * string)%type.
Definition claim_key (id : ClaimId) : ClaimKey :=
  (claim_projection_id id, tag_value (claim_tag id), claim_tenant id).

Definition ReservationError_to_string (e : ReservationError) : string :=
  match e with
  | StaleOwner => "stale owner: the presented fence no longer matches the current reservation"
  | FencingExhausted => "fencing token sequence exhausted for this reservation"
  | ReservationBackend m => "reservation backend error: " +:+ m
  end.

Definition to_claim_error (err : ReservationError) : ClaimError :=
  match err with
  | FencingExhausted => ClaimFencingExhausted
  | ReservationBackend msg => ClaimFatal msg
  | other => ClaimFatal ("unexpected reservation error: " +:+ ReservationError_to_string other)
  end.

(** The condition under which a holder may change its claim. *)
Definition held_by (fence : ClaimFence) (token now : Z) (r : ClaimRow) : bool :=
  bool_decide (claim_owner_id r = owner_str (claim_fence_owner fence))
  && bool_decide (claim_fencing_token r = token)
  && bool_decide (now < claim_lease_until r)%Z.

Definition set_lease_row (until : Z) (r : ClaimRow) : ClaimRow :=
  mk_claim_row (claim_owner_id r) (claim_fencing_token r) until.

(** *** Stoolap *)
Definition classify_claim_error (e : StoolapError) : ClaimError :=
  if is_write_conflict e then ClaimTransient (stoolap_text e) else ClaimFatal (stoolap_text e).

Definition stoolap_rule : string := "the sequence starts at 1".

Abbreviation stoolap_claims := (prog (sql ClaimKey ClaimRow StoolapError)).

Definition current_claim (k : ClaimKey) : stoolap_claims (result ClaimError (option ClaimRow)) :=
  let! r := run_stmt (Select (at_key k (λ _, true)) any_order None) in
  Ret (rows ← map_err classify_claim_error r; Ok (snd <$> head rows)).

Definition stoolap_try_claim (claim_id : ClaimId) (owner : OwnerId) (until : Z) :
    stoolap_claims (result ClaimError (option ClaimFence)) :=
  let k := claim_key claim_id in
  match map_err to_claim_error (token_for_storage token_initial) with
  | Err e => Ret (Err e)
  | Ok initial =>
      let! r := run_stmt (InsertOrIgnore k (mk_claim_row (owner_str owner) initial until)) in
      match map_err classify_claim_error r with
      | Err e => Ret (Err e)
      | Ok inserted =>
          if decide (inserted = 1)%Z
          then Ret (Ok (Some (mk_claim_fence claim_id owner token_initial)))
          else
            try! existing := current_claim k in
            match existing with
            | None => Ret (Err (ClaimTransient
                                  "claim row vanished after the insert conflict; retry"))
            | Some existing =>
                let! now := clock in
                if decide (now < claim_lease_until existing)%Z then Ret (Ok None)
                else
                  match displaced ← map_err to_claim_error
                                      (token_from_storage stoolap_rule (claim_fencing_token existing));
                        next ← ok_or ClaimFencingExhausted (token_next displaced);
                        stored ← map_err to_claim_error (token_for_storage next);
                        Ok (next, stored) with
                  | Err e => Ret (Err e)
                  | Ok (next, stored) =>
                      let! r := run_stmt (Update
                        (at_key k (λ r,
                           bool_decide (claim_fencing_token r = claim_fencing_token existing)
                           && bool_decide (claim_lease_until r ≤ now)%Z))
                        (λ _, mk_claim_row (owner_str owner) stored until)) in
                      Ret (took_over ← map_err classify_claim_error r;
                           if decide (took_over = 1)%Z
                           then Ok (Some (mk_claim_fence claim_id owner next))
                           else Ok None)
                  end
            end
      end
  end.

Definition stoolap_set_lease (fence : ClaimFence) (until : Z) :
    stoolap_claims (result ClaimError unit) :=
  match map_err to_claim_error (token_for_storage (claim_fence_token fence)) with
  | Err e => Ret (Err e)
  | Ok token =>
      let! now := clock in
      let! r := run_stmt (Update (at_key (claim_key (claim_fence_id fence)) (held_by fence token now))
                           (set_lease_row until)) in
      Ret (affected ← map_err classify_claim_error r;
           if decide (affected = 0)%Z then Err StaleClaim else Ok ())
  end.

Definition stoolap_renew_claim (fence : ClaimFence) (until : Z) :
    stoolap_claims (result ClaimError unit) := stoolap_set_lease fence until.

Definition stoolap_release_claim (fence : ClaimFence) : stoolap_claims (result ClaimError unit) :=
  let! now := clock in stoolap_set_lease fence now.

(** *** Postgres *)
Definition claim_error (err : SqlxError) : ClaimError :=
  match err with
  | SqlxDatabase (Some "22003") _ => ClaimFencingExhausted
  | _ => if is_fatal err then ClaimFatal (sqlx_text err) else ClaimTransient (sqlx_text err)
  end.

Definition postgres_rule : string :=
  "the sequence starts at 1 and the table's own CHECK forbids anything else".

Abbreviation postgres_claims := (prog (sql ClaimKey ClaimRow SqlxError)).

(** BIGINT addition: out of range fails the statement. *)
Definition bigint_succ (n : Z) : option Z := if decide (n < i64_max)%Z then Some (n + 1)%Z else None.

Definition postgres_try_claim (claim_id : ClaimId) (owner : OwnerId) (until : Z) :
    postgres_claims (result ClaimError (option ClaimFence)) :=
  let! now := clock in
  let! r := run_stmt (InsertOrUpdate (claim_key claim_id)
    (mk_claim_row (owner_str owner) 1 until)
    (λ old, token ← bigint_succ (claim_fencing_token old);
            Some (mk_claim_row (owner_str owner) token until))
    (λ old, bool_decide (claim_lease_until old ≤ now)%Z)) in
  Ret (row ← map_err claim_error r;
       match row with
       | None => Ok None
       | Some row =>
           token ← map_err to_claim_error (token_from_storage postgres_rule (claim_fencing_token row));
           Ok (Some (mk_claim_fence claim_id owner token))
       end).

Definition mutate_claimed (fence : ClaimFence)
    (build : ClaimKey → Z → Z → stmt ClaimKey ClaimRow Z) : postgres_claims (result ClaimError unit) :=
  match map_err to_claim_error (token_for_storage (claim_fence_token fence)) with
  | Err e => Ret (Err e)
  | Ok token =>
      let! now := clock in
      let! r := run_stmt (build (claim_key (claim_fence_id fence)) token now) in
      Ret (affected ← map_err claim_error r;
           if decide (affected = 0)%Z then Err StaleClaim else Ok ())
  end.

Definition postgres_renew_claim (fence : ClaimFence) (until : Z) :
    postgres_claims (result ClaimError unit) :=
  mutate_claimed fence (λ k token now,
    Update (at_key k (held_by fence token now)) (set_lease_row until)).

Definition postgres_release_claim (fence : ClaimFence) : postgres_claims (result ClaimError unit) :=
  mutate_claimed fence (λ k token now,
    Update (at_key k (held_by fence token now)) (set_lease_row now)).

(** ** Offsets *)

(** [projection_offsets], identified by projection, tag and tenant. *)
Abbreviation offsets E := (prog (sql OffsetKey Z E)).
Definition offset_key (projection_id : string) (tag : EventTag) (tenant : string) : OffsetKey :=
  (projection_id, tag_value tag, tenant).

Definition classify_offset_error (e : StoolapError) : OffsetStoreError :=
  if is_write_conflict e then OTransient (stoolap_text e) else OFatal (stoolap_text e).

Definition stoolap_read_offset (projection_id : string) (tag : EventTag) (tenant : string) :
    offsets StoolapError (result OffsetStoreError (option Offset)) :=
  let! r := run_stmt (Select (at_key (offset_key projection_id tag tenant) (λ _, true))
                        any_order None) in
  Ret (rows ← map_err classify_offset_error r; Ok (Sequence ∘ snd <$> head rows)).

(** UPDATE first, then INSERT, then UPDATE again for a lost first-write race. *)
Definition stoolap_write_offset (projection_id : string) (tag : EventTag) (tenant : string)
    (offset : Offset) : offsets StoolapError (result OffsetStoreError unit) :=
  let k := offset_key projection_id tag tenant in
  let value := match offset with Sequence v => v end in
  let! r := run_stmt (Update (at_key k (λ _, true)) (λ _, value)) in
  match map_err classify_offset_error r with
  | Err e => Ret (Err e)
  | Ok affected =>
      if decide (1 ≤ affected)%Z then Ret (Ok ())
      else
        let! r := run_stmt (InsertOrIgnore k value) in
        match map_err classify_offset_error r with
        | Err e => Ret (Err e)
        | Ok inserted =>
            if decide (inserted = 1)%Z then Ret (Ok ())
            else
              let! r := run_stmt (Update (at_key k (λ _, true)) (λ _, value)) in
              Ret (affected ← map_err classify_offset_error r;
                   if decide (affected = 0)%Z
                   then Err (OTransient ("write_offset: row vanished between the fallback insert " +:+
                                         "and the re-UPDATE; retry"))
                   else Ok ())
        end
  end.

Definition offset_error (err : SqlxError) : OffsetStoreError :=
  if is_fatal err then OFatal (sqlx_text err) else OTransient (sqlx_text err).

Definition postgres_read_offset (projection_id : string) (tag : EventTag) (tenant : string) :
    offsets SqlxError (result OffsetStoreError (option Offset)) :=
  let! r := run_stmt (Select (at_key (offset_key projection_id tag tenant) (λ _, true))
                        any_order None) in
  Ret (rows ← map_err offset_error r; Ok (Sequence ∘ snd <$> head rows)).

Definition postgres_write_offset (projection_id : string) (tag : EventTag) (tenant : string)
    (offset : Offset) : offsets SqlxError (result OffsetStoreError unit) :=
  let value := match offset with Sequence v => v end in
  let! r := run_stmt (InsertOrUpdate (offset_key projection_id tag tenant) value
                        (λ _, Some value) (λ _, true)) in
  Ret (_ ← map_err offset_error r; Ok ()).

(** ** Seen events *)

(** [projection_dedup], identified by all its columns. *)
Abbreviation seen_events E := (prog (sql DedupKey unit E)).
Definition dedup_key (projection_id : string) (tag : EventTag) (event_id : string) : DedupKey :=
  (projection_id, tag_value tag, event_id).

Definition classify_dedup_error (e : StoolapError) : DedupStoreError :=
  if is_write_conflict e then DTransient (stoolap_text e) else DFatal (stoolap_text e).

(** [rows.next().is_some()]: a row that cannot be read counts as a row. *)
Definition stoolap_seen (projection_id : string) (tag : EventTag) (event_id : string) :
    seen_events StoolapError (result DedupStoreError bool) :=
  let! r := run_stmt (Select (at_key (dedup_key projection_id tag event_id) (λ _, true))
                        any_order (Some 1%Z)) in
  match map_err classify_dedup_error r with
  | Err e => Ret (Err e)
  | Ok rows =>
      let! failed := next_row in
      let next := match failed with Some e => Some (Err e) | None => Ok <$> head rows end in
      Ret (Ok (bool_decide (is_Some next)))
  end.

Definition stoolap_mark_seen (projection_id : string) (tag : EventTag) (event_id : string) :
    seen_events StoolapError (result DedupStoreError unit) :=
  let! r := run_stmt (InsertOrIgnore (dedup_key projection_id tag event_id) ()) in
  Ret (_ ← map_err classify_dedup_error r; Ok ()).

Definition dedup_error (err : SqlxError) : DedupStoreError :=
  if is_fatal err then DFatal (sqlx_text err) else DTransient (sqlx_text err).

Definition postgres_seen (projection_id : string) (tag : EventTag) (event_id : string) :
    seen_events SqlxError (result DedupStoreError bool) :=
  let! r := run_stmt (Select (at_key (dedup_key projection_id tag event_id) (λ _, true))
                        any_order None) in
  Ret (rows ← map_err dedup_error r; Ok (bool_decide (is_Some (head rows)))).

Definition postgres_mark_seen (projection_id : string) (tag : EventTag) (event_id : string) :
    seen_events SqlxError (result DedupStoreError unit) :=
  let! r := run_stmt (InsertOrIgnore (dedup_key projection_id tag event_id) ()) in
  Ret (_ ← map_err dedup_error r; Ok ()).

(** ** The claim port *)
Record ClaimStore (E : Type) := mk_claim_store {
  try_claim : ClaimId → OwnerId → Z → prog (sql ClaimKey ClaimRow E) (result ClaimError (option ClaimFence));
  renew_claim : ClaimFence → Z → prog (sql ClaimKey ClaimRow E) (result ClaimError unit);
  release_claim : ClaimFence → prog (sql ClaimKey ClaimRow E) (result ClaimError unit);
}.
Arguments mk_claim_store {E} _ _ _.
Arguments try_claim {E} _ _ _ _.
Arguments renew_claim {E} _ _ _.
Arguments release_claim {E} _ _.

Definition stoolap_claim_store : ClaimStore StoolapError :=
  mk_claim_store stoolap_try_claim stoolap_renew_claim stoolap_release_claim.
Definition postgres_claim_store : ClaimStore SqlxError :=
  mk_claim_store postgres_try_claim postgres_renew_claim postgres_release_claim.

Inductive claim_call :=
| TryClaim (id : ClaimId) (owner : OwnerId) (until : Z)
| RenewClaim (fence : ClaimFence) (until : Z)
| ReleaseClaim (fence : ClaimFence).

Inductive claim_answer :=
| Claimed (r : result ClaimError (option ClaimFence))
| Kept (r : result ClaimError unit).

Definition call_claim_id (c : claim_call) : ClaimId :=
  match c with
  | TryClaim id _ _ => id
  | RenewClaim f _ | ReleaseClaim f => claim_fence_id f
  end.

Definition claim_method {E} (store : ClaimStore E) (c : claim_call) :
    prog (sql ClaimKey ClaimRow E) claim_answer :=
  match c with
  | TryClaim id owner until => let! r := try_claim store id owner until in Ret (Claimed r)
  | RenewClaim f until => let! r := renew_claim store f until in Ret (Kept r)
  | ReleaseClaim f => let! r := release_claim store f in Ret (Kept r)
  end.

(** The contract of the port on one claim: a call at time [now] that answers [a] and
    takes the claim from one state to the next. *)
Inductive claim_step (now : Z) : claim_call → claim_answer → option ClaimRow → option ClaimRow → Prop :=
| ClaimFresh id owner until :
    claim_step now (TryClaim id owner until)
      (Claimed (Ok (Some (mk_claim_fence id owner token_initial))))
      None (Some (mk_claim_row (owner_str owner) 1 until))
| ClaimTaken id owner until o n u n' :
    (u ≤ now)%Z → (n < n' ≤ i64_max)%Z →
    claim_step now (TryClaim id owner until)
      (Claimed (Ok (Some (mk_claim_fence id owner (mk_token n')))))
      (Some (mk_claim_row o n u)) (Some (mk_claim_row (owner_str owner) n' until))
| ClaimRefused id owner until o n u :
    (now < u)%Z →
    claim_step now (TryClaim id owner until) (Claimed (Ok None))
      (Some (mk_claim_row o n u)) (Some (mk_claim_row o n u))
| ClaimRenewed fence until u :
    (now < u)%Z →
    claim_step now (RenewClaim fence until) (Kept (Ok ()))
      (Some (mk_claim_row (owner_str (claim_fence_owner fence)) (token_value (claim_fence_token fence)) u))
      (Some (mk_claim_row (owner_str (claim_fence_owner fence)) (token_value (claim_fence_token fence)) until))
| ClaimReleased fence u u' :
    (now < u)%Z →
    claim_step now (ReleaseClaim fence) (Kept (Ok ()))
      (Some (mk_claim_row (owner_str (claim_fence_owner fence)) (token_value (claim_fence_token fence)) u))
      (Some (mk_claim_row (owner_str (claim_fence_owner fence)) (token_value (claim_fence_token fence)) u'))
| ClaimStale c fence x :
    (c = ReleaseClaim fence ∨ ∃ until, c = RenewClaim fence until) →
    (∀ u, x = Some (mk_claim_row (owner_str (claim_fence_owner fence))
                      (token_value (claim_fence_token fence)) u) → (u ≤ now)%Z) →
    claim_step now c (Kept (Err StaleClaim)) x x.

(** ** Lemmas on claims *)
Section claims.
Context {E : Type}.
Abbreviation table := (gmap ClaimKey ClaimRow).
Abbreviation method := (prog (sql ClaimKey ClaimRow E)).

Definition claims_ok (t : table) : Prop :=
  map_Forall (λ _ r, 0 < claim_fencing_token r ≤ i64_max)%Z t.

Definition only_at (k : ClaimKey) (x y : table) : Prop := ∀ k', k' ≠ k → y !! k' = x !! k'.

(** How a call that has returned relates to the port. *)
Inductive claim_settled (c : claim_call) (a : claim_answer) (evs : list (table * table)) : Prop :=
| ClaimStepped now x y :
    at_point evs x y →
    claim_step now c a (x !! claim_key (call_claim_id c)) (y !! claim_key (call_claim_id c)) →
    only_at (claim_key (call_claim_id c)) x y → claim_settled c a evs
| ClaimFailed e :
    silent evs → e ≠ StaleClaim → (a = Claimed (Err e) ∨ a = Kept (Err e)) →
    claim_settled c a evs
| ClaimRaced :
    silent evs → a = Claimed (Ok None) → claim_settled c a evs.

(** A change of the table: tokens stay in range and never decrease, rows stay. *)
Definition claims_grow (x y : table) : Prop :=
  claims_ok x → claims_ok y ∧
  ∀ k r, x !! k = Some r →
    ∃ r', y !! k = Some r' ∧ (claim_fencing_token r ≤ claim_fencing_token r')%Z.

(** What a claim store guarantees. *)
Class DurableClaims (store : ClaimStore E) : Prop := {
  claims_issue c : issues claims_grow (claim_method store c);
  claims_settle c evs a :
    (∀ x y, (x, y) ∈ evs → claims_ok x) →
    runs (claim_method store c) evs (Ret a) → claim_settled c a evs;
}.

Lemma claims_grow_refl t : claims_grow t t.
Proof. intros ?. split; [done|]. intros k r Hk. by exists r. Qed.
#[local] Hint Resolve claims_grow_refl : core.

Lemma claims_grow_insert t k r :
  (0 < claim_fencing_token r ≤ i64_max)%Z →
  (∀ r0, t !! k = Some r0 → claim_fencing_token r0 ≤ claim_fencing_token r)%Z →
  claims_grow t (<[k := r]> t).
Proof.
  intros Hr Hle Ht. split; [by apply map_Forall_insert_2|]. intros k' r' Hk'.
  destruct (decide (k' = k)) as [->|Hne].
  - exists r. rewrite lookup_insert_eq. eauto.
  - exists r'. by rewrite lookup_insert_ne.
Qed.

Lemma only_at_refl k t : only_at k t t.
Proof. by intros ? ?. Qed.
Lemma only_at_insert k t r : only_at k t (<[k := r]> t).
Proof. intros k' Hne. by rewrite lookup_insert_ne. Qed.

Lemma held_by_true fence now r :
  held_by fence (token_value (claim_fence_token fence)) now r = true →
  ∃ u, r = mk_claim_row (owner_str (claim_fence_owner fence)) (token_value (claim_fence_token fence)) u ∧
    (now < u)%Z.
Proof.
  unfold held_by. rewrite !andb_true_iff, !bool_decide_eq_true. destruct r as [o n u].
  simpl. intros [[-> ->] ?]. by exists u.
Qed.

Lemma held_by_false fence now r u :
  held_by fence (token_value (claim_fence_token fence)) now r = false →
  r = mk_claim_row (owner_str (claim_fence_owner fence)) (token_value (claim_fence_token fence)) u →
  (u ≤ now)%Z.
Proof.
  intros Hf ->. apply not_true_iff_false in Hf. apply Z.nlt_ge. intros Hu. apply Hf.
  unfold held_by. by rewrite !andb_true_iff, !bool_decide_eq_true.
Qed.

(** The statement that changes the lease of a holder. *)
Lemma set_lease_statement c fence now until y n z :
  (c = ReleaseClaim fence ∨ c = RenewClaim fence until) →
  update (at_key (claim_key (claim_fence_id fence))
            (held_by fence (token_value (claim_fence_token fence)) now)) (set_lease_row until) y
    = (n, z) →
  claim_step now c (Kept (if decide (n = 0)%Z then Err StaleClaim else Ok ()))
    (y !! claim_key (claim_fence_id fence)) (z !! claim_key (claim_fence_id fence)) ∧
  only_at (claim_key (claim_fence_id fence)) y z ∧ claims_grow y z.
Proof.
  intros Hc. rewrite update_at.
  assert (c = ReleaseClaim fence ∨ ∃ until, c = RenewClaim fence until) as Hc' by naive_solver.
  destruct (y !! claim_key (claim_fence_id fence)) as [r|] eqn:Hr.
  - destruct (held_by _ _ _ r) eqn:Hh; intros [= <- <-].
    + apply held_by_true in Hh as (u & -> & Hu). rewrite lookup_insert_eq.
      split_and!; [|apply only_at_insert|].
      * simpl. unfold set_lease_row. simpl. destruct Hc as [->| ->]; by constructor.
      * intros Hy. apply claims_grow_insert; [by apply (Hy _ _ Hr)| |done].
        intros r0. rewrite Hr. by intros [= <-].
    + rewrite Hr. split_and!; [|apply only_at_refl|done]. simpl. apply (ClaimStale _ _ fence); [done|].
      intros u [= Heq]. by eapply held_by_false.
  - intros [= <- <-]. rewrite Hr. split_and!; [|apply only_at_refl|done].
    apply (ClaimStale _ _ fence); [done|]. by intros u [=].
Qed.
End claims.

(** *** The two stores *)
Lemma map_err_token_Err t e :
  map_err to_claim_error (token_for_storage t) = Err e → e = ClaimFencingExhausted.
Proof.
  destruct (token_for_storage t) as [z|e'] eqn:Ht; simpl; [done|]. intros [= <-].
  by apply token_for_storage_Err in Ht as ->.
Qed.

Section lease_calls.
Context {E : Type} (err : E → ClaimError) (Herr : ∀ e, err e ≠ StaleClaim).
Abbreviation method := (prog (sql ClaimKey ClaimRow E)).

(** The shape of the calls that change a lease: a clock reading and one statement. *)
Definition lease_call (fence : ClaimFence) (until : Z → Z) : method (result ClaimError unit) :=
  match map_err to_claim_error (token_for_storage (claim_fence_token fence)) with
  | Err e => Ret (Err e)
  | Ok token =>
      let! now := clock in
      let! r := run_stmt (Update (at_key (claim_key (claim_fence_id fence)) (held_by fence token now))
                           (set_lease_row (until now))) in
      Ret (affected ← map_err err r; if decide (affected = 0)%Z then Err StaleClaim else Ok ())
  end.

Lemma lease_call_issues c fence until :
  (∀ u, c = ReleaseClaim fence ∨ c = RenewClaim fence (until u)) →
  issues claims_grow (lease_call fence until).
Proof.
  intros Hc. unfold lease_call. destruct (map_err _ _) as [token|e] eqn:Ht; [|done].
  apply map_err_Ok, token_for_storage_Ok in Ht as [-> _].
  apply issues_bind; [apply issues_clock, claims_grow_refl|]. intros now.
  apply issues_bind; [|done]. apply issues_stmt; [apply claims_grow_refl|].
  intros t n t' Hm. by eapply set_lease_statement.
Qed.

Lemma lease_call_settles c fence until before evs a :
  (∀ u, c = ReleaseClaim fence ∨ c = RenewClaim fence (until u)) → silent before →
  runs (lease_call fence until) evs (Ret a) → claim_settled c (Kept a) (before ++ evs).
Proof.
  intros Hc Hb. unfold lease_call. destruct (map_err _ _) as [token|e] eqn:Ht.
  2: { apply map_err_token_Err in Ht as ->. intros [-> ->]%runs_ret. rewrite app_nil_r.
       by apply (ClaimFailed _ _ _ ClaimFencingExhausted); [..|right]. }
  apply map_err_Ok, token_for_storage_Ok in Ht as [-> _]. unfold clock, run_stmt, exec.
  destruct evs as [|[x x'] [|[y z] evs]]; cbn [runs bind]; [done|by intros (? & _ & ?)|].
  intros (now & Hx & b & Hm & Hr). simpl in Hx. subst x'. apply runs_ret in Hr as [-> ->].
  assert (silent (before ++ [(x, x)])) as Hs by (apply Forall_app; split; [done|apply silent_one]).
  replace (before ++ [(x, x); (y, z)]) with ((before ++ [(x, x)]) ++ [(y, z)])
    by by rewrite <-app_assoc.
  destruct b as [n|e]; simpl in Hm.
  - destruct (set_lease_statement c fence now (until now) y n z (Hc now) Hm) as (Hstep & Ho & _).
    assert (call_claim_id c = claim_fence_id fence) as Hid by (by destruct (Hc 0%Z) as [-> | ->]).
    apply (ClaimStepped _ _ _ now y z); [by apply at_point_last|by rewrite Hid..].
  - subst z. apply (ClaimFailed _ _ _ (err e)); [|done|by right].
    apply Forall_app. split; [done|apply silent_one].
Qed.
End lease_calls.

Lemma classify_claim_stale e : classify_claim_error e ≠ StaleClaim.
Proof. unfold classify_claim_error. by destruct (is_write_conflict e). Qed.

Lemma claim_error_stale e : claim_error e ≠ StaleClaim.
Proof.
  unfold claim_error. repeat case_match; done.
Qed.

Lemma current_claim_runs k evs a :
  runs (current_claim k) evs (Ret a) →
  ∃ x, evs = [(x, x)] ∧ (a = Ok (x !! k) ∨ ∃ e, a = Err (classify_claim_error e)).
Proof.
  unfold current_claim, run_stmt, exec. destruct evs as [|[x y] evs]; cbn [runs bind]; [done|].
  intros (b & Hb & [-> ->]%runs_ret). destruct b as [rows|e]; simpl in Hb.
  - destruct Hb as (-> & it & Hit & _ & ->). apply select_at in Hit as ->. exists x.
    split; [done|]. left. simpl. by destruct (x !! k).
  - subst y. exists x. split; [done|]. right. simpl. by eexists.
Qed.

(** The UPDATE of a takeover of the row [r]. *)
Lemma take_claim_statement (r : ClaimRow) k owner until now next y n z :
  (claim_fencing_token r < next ≤ i64_max)%Z → (0 < next)%Z →
  update (at_key k (λ r', bool_decide (claim_fencing_token r' = claim_fencing_token r)
                          && bool_decide (claim_lease_until r' ≤ now)%Z))
    (λ _, mk_claim_row owner next until) y = (n, z) →
  claims_grow y z ∧
  (((n ≠ 1)%Z ∧ z = y) ∨
   (n = 1%Z ∧ ∃ o u, y !! k = Some (mk_claim_row o (claim_fencing_token r) u) ∧ (u ≤ now)%Z ∧
      z = <[k := mk_claim_row owner next until]> y)).
Proof.
  intros Hn Hpos. rewrite update_at. destruct (y !! k) as [r'|] eqn:Hr;
    [|by intros [= <- <-]; split; [apply claims_grow_refl|left]].
  destruct (_ && _) eqn:Hp; intros [= <- <-]; [|by split; [apply claims_grow_refl|left]].
  rewrite andb_true_iff, !bool_decide_eq_true in Hp. destruct Hp as [Ht Hu]. split.
  - apply claims_grow_insert; simpl; [lia|]. intros r0. rewrite Hr. intros [= <-]. lia.
  - right. split; [done|]. destruct r' as [o t u]; simpl in *. subst t. by exists o, u.
Qed.

Lemma claims_grow_fresh t k owner until :
  t !! k = None → claims_grow t (<[k := mk_claim_row owner 1 until]> t).
Proof. intros Hk. apply claims_grow_insert; [done|]. intros r0. by rewrite Hk. Qed.

Lemma stoolap_try_issues id owner until :
  issues claims_grow (stoolap_try_claim id owner until).
Proof.
  unfold stoolap_try_claim.
  assert (map_err to_claim_error (token_for_storage token_initial) = Ok 1%Z) as -> by done.
  apply issues_bind.
  { apply issues_stmt; [apply claims_grow_refl|]. intros t n t' Hm. simpl in Hm.
    unfold insert_or_ignore in Hm. destruct (t !! _) eqn:Hk; injection Hm as _ <-;
      [apply claims_grow_refl|by apply claims_grow_fresh]. }
  intros [n|e]; cbn [map_err]; [|done]. case_decide; [done|].
  apply issues_bind.
  { unfold current_claim. apply issues_bind; [apply issues_select, claims_grow_refl|done]. }
  intros [[r|]|e]; [|done..]. apply issues_bind; [apply issues_clock, claims_grow_refl|].
  intros now. case_decide; [done|].
  destruct (token_from_storage _ _) as [d|e] eqn:Hd; [|done]. cbn [map_err mbind result_bind].
  unfold token_from_storage in Hd. case_decide as Hpos; [done|]. injection Hd as <-.
  destruct (token_next _) as [next|] eqn:Hn; [|done]. cbn [ok_or mbind result_bind].
  apply token_next_Some in Hn as [Hn _]. simpl in Hn.
  destruct (token_for_storage next) as [stored|e] eqn:Hs; [|done]. cbn [map_err mbind result_bind].
  apply token_for_storage_Ok in Hs as [-> Hle].
  apply issues_bind; [|done]. apply issues_stmt; [apply claims_grow_refl|].
  intros t m t' Hm. eapply take_claim_statement; [| |exact Hm]; lia.
Qed.

(** A claim attempt that has read the row [r] of the table [x1]. *)
Lemma stoolap_existing_settles id owner until x1 r before evs a :
  x1 !! claim_key id = Some r → (0 < claim_fencing_token r ≤ i64_max)%Z → silent before →
  runs (let! now := clock in
        if decide (now < claim_lease_until r)%Z then Ret (Ok None)
        else match displaced ← map_err to_claim_error
                                 (token_from_storage stoolap_rule (claim_fencing_token r));
                   next ← ok_or ClaimFencingExhausted (token_next displaced);
                   stored ← map_err to_claim_error (token_for_storage next);
                   Ok (next, stored) with
             | Err e => Ret (Err e)
             | Ok (next, stored) =>
                 let! r := run_stmt (Update
                   (at_key (claim_key id) (λ r',
                      bool_decide (claim_fencing_token r' = claim_fencing_token r)
                      && bool_decide (claim_lease_until r' ≤ now)%Z))
                   (λ _, mk_claim_row (owner_str owner) stored until)) in
                 Ret (took_over ← map_err classify_claim_error r;
                      if decide (took_over = 1)%Z
                      then Ok (Some (mk_claim_fence id owner next)) else Ok None)
             end) evs (Ret a) →
  claim_settled (TryClaim id owner until) (Claimed a) (before ++ (x1, x1) :: evs).
Proof.
  intros Hx1 Hr Hb. unfold clock, exec.
  destruct evs as [|[x2 x2'] evs]; cbn [runs bind]; [done|].
  intros (now & Hx2 & Hrun). simpl in Hx2. subst x2'.
  assert (silent (before ++ [(x1, x1); (x2, x2)])) as Hs
    by (apply Forall_app; split; [done|by repeat constructor]).
  assert (before ++ (x1, x1) :: (x2, x2) :: evs = (before ++ [(x1, x1); (x2, x2)]) ++ evs) as Heq
    by by rewrite <-app_assoc.
  case_decide as Hnow.
  { apply runs_ret in Hrun as [-> ->]. apply (ClaimStepped _ _ _ now x1 x1);
      [by exists before, [(x2, x2)]; split_and!; [..|apply silent_one]| |apply only_at_refl].
    simpl. rewrite Hx1. destruct r as [o n u]. by apply ClaimRefused. }
  rewrite token_from_storage_Ok in Hrun by lia. cbn [map_err mbind result_bind] in Hrun.
  destruct (token_next _) as [next|] eqn:Hn; cbn [ok_or mbind result_bind] in Hrun.
  2: { apply runs_ret in Hrun as [-> ->].
       apply (ClaimFailed _ _ _ ClaimFencingExhausted); [done|done|by left]. }
  apply token_next_Some in Hn as [Hn _]. simpl in Hn.
  destruct (token_for_storage next) as [stored|e] eqn:Hst; cbn [map_err mbind result_bind] in Hrun.
  2: { apply token_for_storage_Err in Hst as ->. apply runs_ret in Hrun as [-> ->].
       apply (ClaimFailed _ _ _ ClaimFencingExhausted); [done|done|by left]. }
  apply token_for_storage_Ok in Hst as [-> Hle]. unfold run_stmt, exec in Hrun.
  destruct evs as [|[y z] evs]; cbn [runs bind] in Hrun; [done|].
  destruct Hrun as (b & Hm & [-> ->]%runs_ret). rewrite Heq.
  destruct b as [n|e]; simpl in Hm.
  2: { subst z. apply (ClaimFailed _ _ _ (classify_claim_error e));
         [apply Forall_app; by split; [|apply silent_one]|apply classify_claim_stale|by left]. }
  apply take_claim_statement in Hm as (_ & [[Hn1 ->]|(-> & o & u & Hy & Hu & ->)]); [..|lia|lia].
  - cbn [map_err mbind result_bind]. rewrite decide_False by done.
    apply ClaimRaced; [|done]. apply Forall_app; by split; [|apply silent_one].
  - eapply (ClaimStepped _ _ _ now); [by apply at_point_last| |apply only_at_insert].
    simpl. rewrite Hy, lookup_insert_eq. destruct next as [n']. simpl in *.
    apply ClaimTaken; [done|]. lia.
Qed.

Lemma stoolap_try_settles id owner until evs a :
  (∀ x y, (x, y) ∈ evs → claims_ok x) →
  runs (stoolap_try_claim id owner until) evs (Ret a) →
  claim_settled (TryClaim id owner until) (Claimed a) evs.
Proof.
  intros Hok. unfold stoolap_try_claim.
  assert (map_err to_claim_error (token_for_storage token_initial) = Ok 1%Z) as -> by done.
  unfold run_stmt at 1, exec at 1.
  destruct evs as [|[x y] evs]; cbn [runs bind]; [done|]. intros (b & Hb & Hr).
  destruct b as [n|e]; simpl in Hb; cbn [map_err] in Hr.
  2: { apply runs_ret in Hr as [-> ->]. subst y. apply (ClaimFailed _ _ _ (classify_claim_error e));
         [apply silent_one|apply classify_claim_stale|by left]. }
  unfold insert_or_ignore in Hb. destruct (x !! claim_key id) as [r0|] eqn:Hx; injection Hb as <- <-.
  2: { rewrite decide_True in Hr by done. apply runs_ret in Hr as [-> ->].
       eapply (ClaimStepped _ _ _ 0); [apply (at_point_last []); constructor| |apply only_at_insert].
       simpl. rewrite Hx, lookup_insert_eq. constructor. }
  rewrite decide_False in Hr by done.
  apply runs_bind in Hr as (evs1 & evs2 & existing & -> & H1 & H2).
  apply current_claim_runs in H1 as (x1 & -> & [->|[e ->]]).
  2: { apply runs_ret in H2 as [-> ->]. apply (ClaimFailed _ _ _ (classify_claim_error e));
         [by repeat constructor|apply classify_claim_stale|by left]. }
  destruct (x1 !! claim_key id) as [r|] eqn:Hx1.
  2: { apply runs_ret in H2 as [-> ->]. eapply ClaimFailed; [by repeat constructor| |by left]. done. }
  apply (stoolap_existing_settles id owner until x1 r [(x, x)]); [done| |apply silent_one|done].
  apply (Hok x1 x1) in Hx1; [done|set_solver].
Qed.

#[export] Instance stoolap_durable_claims : DurableClaims stoolap_claim_store.
Proof.
  split.
  - intros [id owner until|f until|f]; cbn [claim_method].
    + apply issues_bind; [apply stoolap_try_issues|done].
    + apply issues_bind; [|done].
      apply (lease_call_issues classify_claim_error (RenewClaim f until) f (λ _, until)); by right.
    + apply issues_bind; [|done]. apply issues_bind; [apply issues_clock, claims_grow_refl|].
      intros now.
      apply (lease_call_issues classify_claim_error (ReleaseClaim f) f (λ _, now)); by left.
  - intros [id owner until|f until|f] evs a Hok;
      intros (evs1 & evs2 & r & -> & Hr & [-> ->]%runs_ret)%runs_bind; rewrite app_nil_r in *.
    + by apply stoolap_try_settles.
    + apply (lease_call_settles classify_claim_error classify_claim_stale _ f (λ _, until) []);
        [by right|constructor|done].
    + cbn [release_claim stoolap_claim_store] in Hr. unfold stoolap_release_claim in Hr.
      apply runs_bind in Hr as (evs2 & evs3 & now & -> & Hc & Hr).
      assert (silent evs2) as Hs.
      { unfold clock, exec in Hc. destruct evs2 as [|[x y] evs2]; [done|].
        destruct Hc as (? & Hx & [-> _]%runs_ret). simpl in Hx. subst y. apply silent_one. }
      apply (lease_call_settles classify_claim_error classify_claim_stale _ f (λ _, now) evs2);
        [by left|done..].
Qed.

Lemma postgres_try_statement (owner : string) (until now : Z) (x y : gmap ClaimKey ClaimRow)
    (k : ClaimKey) (row : option ClaimRow) :
  insert_or_update k (mk_claim_row owner 1 until)
    (λ old, token ← bigint_succ (claim_fencing_token old); Some (mk_claim_row owner token until))
    (λ old, bool_decide (claim_lease_until old ≤ now)%Z) x = Some (row, y) →
  claims_grow x y ∧ only_at k x y ∧
  ((row = Some (mk_claim_row owner 1 until) ∧ x !! k = None ∧ y !! k = row) ∨
   (∃ o n u, x !! k = Some (mk_claim_row o n u) ∧ (u ≤ now)%Z ∧ (n < n + 1 ≤ i64_max)%Z ∧
      row = Some (mk_claim_row owner (n + 1) until) ∧ y !! k = row) ∨
   (∃ o n u, x !! k = Some (mk_claim_row o n u) ∧ (now < u)%Z ∧ row = None ∧ y = x)).
Proof.
  unfold insert_or_update. destruct (x !! k) as [[o n u]|] eqn:Hk; simpl.
  - case_bool_decide as Hu.
    + unfold bigint_succ. case_decide as Hn; [|done]. cbn [mbind option_bind]. intros [= <- <-].
      rewrite lookup_insert_eq. split_and!; [|apply only_at_insert|].
      * intros Hx. apply claims_grow_insert; [|intros r0; rewrite Hk; intros [= <-]; simpl; lia|done].
        apply Hx in Hk. simpl in *. lia.
      * right. left. exists o, n, u. split_and!; try done; lia.
    + intros [= <- <-]. split_and!; [apply claims_grow_refl|apply only_at_refl|].
      right. right. exists o, n, u. split_and!; try done; lia.
  - intros [= <- <-]. rewrite lookup_insert_eq. split_and!;
      [by apply claims_grow_fresh|apply only_at_insert|by left].
Qed.

#[export] Instance postgres_durable_claims : DurableClaims postgres_claim_store.
Proof.
  split.
  - intros [id owner until|f until|f]; cbn [claim_method].
    + apply issues_bind; [|done]. cbn [try_claim postgres_claim_store].
      unfold postgres_try_claim. apply issues_bind; [apply issues_clock, claims_grow_refl|].
      intros now. apply issues_bind; [|done]. apply issues_stmt; [apply claims_grow_refl|].
      intros t b t' Hm. by eapply postgres_try_statement.
    + apply issues_bind; [|done].
      apply (lease_call_issues claim_error (RenewClaim f until) f (λ _, until)); by right.
    + apply issues_bind; [|done].
      apply (lease_call_issues claim_error (ReleaseClaim f) f (λ now, now)); by left.
  - intros [id owner until|f until|f] evs a Hok;
      intros (evs1 & evs2 & r & -> & Hr & [-> ->]%runs_ret)%runs_bind; rewrite app_nil_r in *.
    2: { apply (lease_call_settles claim_error claim_error_stale _ f (λ _, until) []);
           [by right|constructor|done]. }
    2: { apply (lease_call_settles claim_error claim_error_stale _ f (λ now, now) []);
           [by left|constructor|done]. }
    cbn [try_claim postgres_claim_store] in Hr. unfold postgres_try_claim, clock, run_stmt, exec in Hr.
    destruct evs1 as [|[x x'] [|[y z] evs1]]; cbn [runs bind] in Hr; [done|by destruct Hr as (? & _ & ?)|].
    destruct Hr as (now & Hx & b & Hm & [-> ->]%runs_ret). simpl in Hx. subst x'.
    destruct b as [row|e]; simpl in Hm.
    2: { subst z. apply (ClaimFailed _ _ _ (claim_error e));
           [by repeat constructor|apply claim_error_stale|by left]. }
    apply postgres_try_statement in Hm as (_ & Ho & Hcases).
    apply (ClaimStepped _ _ _ now y z); [apply (at_point_last [(x, x)]), silent_one| |done]. simpl.
    destruct Hcases as [(-> & -> & ->)|[(o & n & u & Hy & Hu & Hn & -> & ->)|(o & n & u & Hy & Hu & -> & ->)]].
    + apply ClaimFresh.
    + assert (0 < n)%Z by (apply (Hok y z) in Hy; [simpl in Hy; lia|set_solver]).
      rewrite Hy. simpl. rewrite token_from_storage_Ok by (simpl; lia). simpl.
      apply ClaimTaken; [done|lia].
    + rewrite Hy. by apply ClaimRefused.
Qed.

(** ** Theorems *)
Section claim_theorems.
Context {E : Type} (store : ClaimStore E) `{D : !DurableClaims store}.
Abbreviation table := (gmap ClaimKey ClaimRow).

Definition claims_offered (p : prog (sql ClaimKey ClaimRow E) claim_answer) : Prop :=
  ∃ c, p = claim_method store c.

Lemma claims_event p evs q x y :
  claims_offered p → runs p evs q → (x, y) ∈ evs → claims_grow x y.
Proof. intros [c ->] Hr Hin. eapply issues_runs; [apply claims_issue|done..]. Qed.

Lemma claims_reachable_ok t s :
  claims_ok t → rtc (step claims_offered) (initial t) s →
  claims_ok (db_table s) ∧ ∀ i x y, (i, x, y) ∈ db_history s → claims_ok x ∧ claims_ok y.
Proof.
  apply history_invariant. intros p evs q x y Hp Hr Hin Hx.
  by apply (claims_event p evs q x y) in Hx as [? _].
Qed.

(** Along a path of changes the token of a row only grows. *)
Lemma token_grows t h t' k r :
  path t h t' → (∀ i x y, (i, x, y) ∈ h → claims_grow x y ∧ claims_ok x) → t !! k = Some r →
  ∃ r', t' !! k = Some r' ∧ (claim_fencing_token r ≤ claim_fencing_token r')%Z.
Proof.
  intros Hpath Hh Hk. induction Hpath as [|t h i x y Hpath IH]; [by exists r|].
  destruct IH as (r1 & H1 & Hle); [|done|].
  { intros. apply (Hh i0). set_solver. }
  destruct (Hh i x y) as [Hg Hx]; [set_solver|].
  apply Hg in Hx as [_ Hgrow]. destruct (Hgrow k r1 H1) as (r2 & ? & ?). exists r2. split; [done|lia].
Qed.

(** The fencing token an answer speaks of, and whether the answer grants it. *)
Definition granted (c : claim_call) (a : claim_answer) : option (bool * Z) :=
  match c, a with
  | TryClaim _ _ _, Claimed (Ok (Some f)) => Some (true, token_value (claim_fence_token f))
  | RenewClaim f _, Kept (Ok ()) | ReleaseClaim f, Kept (Ok ()) =>
      Some (false, token_value (claim_fence_token f))
  | _, _ => None
  end.

Lemma granted_after now c a x y b n :
  claim_step now c a x y → granted c a = Some (b, n) →
  ∃ r, y = Some r ∧ claim_fencing_token r = n.
Proof.
  intros Hs Hg. destruct Hs as [| | | | |c fence x [->|[? ->]] _]; simplify_eq/=; by eexists.
Qed.

Lemma granted_before now c a r y b n :
  claim_step now c a (Some r) y → granted c a = Some (b, n) →
  if b then (claim_fencing_token r < n)%Z else claim_fencing_token r = n.
Proof.
  intros Hs Hg. inversion Hs as [| | | | |? ? ? [->|[? ->]] _]; subst; simplify_eq/=; lia || done.
Qed.

(** C24: C42 (safety): the durable claim stores fence.  Under any interleaving of any number
    of calls, with any database errors, every call that has returned took exactly one
    step of the claim port at one of its statements, with the answer it returned, or
    failed or lost a race and changed nothing.  Once a claim has been granted under a
    token, every later grant of that claim has a greater token, and no holder of a
    smaller token renews or releases it. *)
Theorem claims_are_fenced t s :
  claims_ok t → rtc (step claims_offered) (initial t) s →
  (∀ i c a, db_calls s !! i = Some (claim_method store c, Ret a) →
     claim_settled c a (of_call i (db_history s))) ∧
  ∀ h1 j x y h2 i x' y' h3 now c a b n now' c' a' b' n',
    db_history s = h1 ++ (j, x, y) :: h2 ++ (i, x', y') :: h3 →
    claim_key (call_claim_id c) = claim_key (call_claim_id c') →
    claim_step now c a (x !! claim_key (call_claim_id c)) (y !! claim_key (call_claim_id c)) →
    claim_step now' c' a' (x' !! claim_key (call_claim_id c')) (y' !! claim_key (call_claim_id c')) →
    granted c a = Some (b, n) → granted c' a' = Some (b', n') →
    if b' then (n < n')%Z else (n ≤ n')%Z.
Proof.
  intros Ht Hr. pose proof (claims_reachable_ok t s Ht Hr) as [_ Hh].
  pose proof (reachable_history _ _ _ Hr) as (Hpath & Hids & Hcalls). split.
  - intros i c a Hi. destruct (Hcalls _ _ _ Hi) as [_ Hruns]. eapply claims_settle; [|done].
    intros x y Hin%elem_of_of_call. by apply (Hh i x y).
  - intros * Heq Hk Hs Hs' Hg Hg'. rewrite Hk in Hs.
    assert (∀ i x y, (i, x, y) ∈ db_history s → claims_grow x y ∧ claims_ok x) as Hall.
    { intros i0 x0 y0 Hin. split; [|by apply (Hh i0 x0 y0)].
      destruct (Hids _ Hin) as [[p q] Hi]. destruct (Hcalls _ _ _ Hi) as [Ho Hruns].
      eapply claims_event; [done..|]. by apply elem_of_of_call. }
    rewrite Heq in Hpath, Hall. apply path_split in Hpath as [_ Hpath].
    apply path_split in Hpath as [Hpath _].
    destruct (granted_after _ _ _ _ _ _ _ Hs Hg) as (r & Hy & <-).
    destruct (token_grows y h2 x' (claim_key (call_claim_id c')) r Hpath) as (r' & Hx' & Hle); [|done|].
    { intros i0 x0 y0 Hin. apply (Hall i0). set_solver. }
    rewrite Hx' in Hs'. apply (granted_before _ _ _ _ _ _ _ Hs') in Hg'. destruct b'; lia.
Qed.
End claim_theorems.

(** An event store that cannot read the marker of an event reports the event as seen,
    so the session drops it as a duplicate. *)
Lemma unread_marker_counts_as_seen projection_id tag event_id (e : StoolapError) :
  runs (stoolap_seen projection_id tag event_id) [(∅, ∅); (∅, ∅)] (Ret (Ok true)).
Proof.
  exists (Ok []). split.
  - split; [done|]. exists []. split_and!; [|constructor|done].
    unfold iteration, matching. by rewrite map_filter_empty, map_to_list_empty.
  - exists (Some e). by split.
Qed.

(** A write of an offset that succeeds has stored it, in one statement that changes no
    other row: the two stores agree with the in-memory one. *)
Lemma durable_offset_written projection_id tag tenant v evs :
  runs (stoolap_write_offset projection_id tag tenant (Sequence v)) evs (Ret (Ok ())) ∨
  runs (postgres_write_offset projection_id tag tenant (Sequence v)) evs (Ret (Ok ())) →
  ∃ x y, at_point evs x y ∧
    y = fmap (λ o, match o with Sequence n => n end)
          (write_offset projection_id tag tenant (Sequence v) (Sequence <$> x)).2.
Proof.
  set (k := offset_key projection_id tag tenant).
  enough (runs (stoolap_write_offset projection_id tag tenant (Sequence v)) evs (Ret (Ok ())) ∨
          runs (postgres_write_offset projection_id tag tenant (Sequence v)) evs (Ret (Ok ())) →
          ∃ x, at_point evs x (<[k := v]> x)) as Hk.
  { intros [x Hx]%Hk. eexists x, _. split; [done|]. simpl. rewrite fmap_insert. f_equal.
    rewrite <-map_fmap_compose. symmetry. apply map_fmap_id. }
  assert (∀ (y z : gmap OffsetKey Z) n, update (at_key k (λ _, true)) (λ _, v) y = (n, z) →
    (n = 1%Z ∧ z = <[k := v]> y) ∨ (n = 0%Z ∧ z = y)) as Hup.
  { intros y z n. rewrite update_at. destruct (y !! k); intros [= <- <-]; auto. }
  intros [Hr|Hr]; unfold stoolap_write_offset, postgres_write_offset, run_stmt, exec in Hr;
    fold k in Hr; destruct evs as [|[x y] evs]; cbn [runs bind] in Hr; try done;
    destruct Hr as ([n|e] & Hm & Hr); cbn [map_err] in Hr;
    try (by apply runs_ret in Hr as [_ ?]); simpl in Hm.
  - apply Hup in Hm as [[-> ->]|[-> ->]].
    { rewrite decide_True in Hr by lia. apply runs_ret in Hr as [-> _]. exists x.
      apply (at_point_last []). constructor. }
    rewrite decide_False in Hr by lia. destruct evs as [|[x1 y1] evs]; cbn [runs bind] in Hr; [done|].
    destruct Hr as ([n|e] & Hm & Hr); cbn [map_err] in Hr; [|by apply runs_ret in Hr as [_ ?]].
    simpl in Hm. unfold insert_or_ignore in Hm. destruct (x1 !! k) eqn:Hx1; injection Hm as <- <-.
    2: { rewrite decide_True in Hr by lia. apply runs_ret in Hr as [-> _]. exists x1.
         apply (at_point_last [(x, x)]), silent_one. }
    rewrite decide_False in Hr by lia. destruct evs as [|[x2 y2] evs]; cbn [runs bind] in Hr; [done|].
    destruct Hr as ([n|e] & Hm & [-> Ha]%runs_ret); simpl in Ha; [|done].
    apply Hup in Hm as [[-> ->]|[-> ->]]; [|by rewrite decide_True in Ha].
    exists x2. apply (at_point_last [(x, x); (x1, x1)]). by repeat constructor.
  - unfold insert_or_update in Hm. apply runs_ret in Hr as [-> _].
    exists x. destruct (x !! k); simplify_eq/=; apply (at_point_last []); constructor.
Qed.

(** ** Examples *)
Module Example_claims.
Definition id : ClaimId := mk_claim_id "orders" (mk_tag "order") "acme".
Definition call_ (c : claim_call) := claim_method postgres_claim_store c.
Definition first_ : claim_call := TryClaim id (mk_owner "a") 10.
Definition second : claim_call := TryClaim id (mk_owner "b") 30.
Definition k : ClaimKey := claim_key id.
Definition t1 : gmap ClaimKey ClaimRow := {[ k := mk_claim_row "a" 1 10 ]}.
Definition t2 : gmap ClaimKey ClaimRow := {[ k := mk_claim_row "b" 2 30 ]}.

Lemma claimed_twice :
  ∃ s, rtc (step (claims_offered postgres_claim_store)) (initial ∅) s ∧
    db_history s = [(0, ∅, ∅)] ++ (0, ∅, t1) :: [(1, t1, t1)] ++ (1, t1, t2) :: [].
Proof.
  eexists. split.
  - eapply rtc_l; [apply (step_start _ _ _ _ 0 (call_ first_)); [by eexists|reflexivity]|].
    eapply rtc_l; [eapply step_command with (i := 0) (b := 0%Z); reflexivity|].
    eapply rtc_l; [eapply step_command with (i := 0)
      (b := Ok (Some (mk_claim_row "a" 1 10)) : result SqlxError _); reflexivity|].
    eapply rtc_l; [apply (step_start _ _ _ _ 1 (call_ second)); [by eexists|reflexivity]|].
    eapply rtc_l; [eapply step_command with (i := 1) (b := 10%Z); reflexivity|].
    eapply rtc_l; [eapply step_command with (i := 1)
      (b := Ok (Some (mk_claim_row "b" 2 30)) : result SqlxError _); reflexivity|].
    apply rtc_refl.
  - reflexivity.
Qed.

Lemma claims_are_fenced_witness :
  ∃ s, rtc (step (claims_offered postgres_claim_store)) (initial ∅) s ∧
    db_history s = [(0, ∅, ∅)] ++ (0, ∅, t1) :: [(1, t1, t1)] ++ (1, t1, t2) :: [] ∧
    (token_value token_initial < token_value (mk_token 2))%Z.
Proof.
  destruct claimed_twice as (s & Hs & Hh). exists s. split_and!; [done..|].
  pose proof (claims_are_fenced postgres_claim_store ∅ s (map_Forall_empty _) Hs) as [_ H].
  apply (H [(0, ∅, ∅)] 0 ∅ t1 [(1, t1, t1)] 1 t1 t2 [] 0%Z first_
    (Claimed (Ok (Some (mk_claim_fence id (mk_owner "a") token_initial)))) true 1%Z 10%Z second
    (Claimed (Ok (Some (mk_claim_fence id (mk_owner "b") (mk_token 2))))) true 2%Z).
  - exact Hh.
  - reflexivity.
  - apply ClaimFresh.
  - apply (ClaimTaken 10 id (mk_owner "b") 30 "a" 1 10 2); by vm_compute.
  - reflexivity.
  - reflexivity.
Defined.
End Example_claims.
