(* ===== verification/SqlEffects.v ===== *)
(** * Durable effect stores

    The stores of delivery states and idempotency reservations over a database:
    crates/effect-store, stoolap/mod.rs and postgres/mod.rs.  Both guard every
    transition in the WHERE clause of one UPDATE; the Postgres store also leases a
    row to the worker that claimed it.  The port and the delivery diagram are those of
    [EffectStore].  Timestamps are nanoseconds; [Utc::now()] and the database's [now()]
    are clock readings. *)

From S2P Require Import Prelude Programs Identity Effect Fingerprint EffectStore Sql Drivers.

(** ** The tables *)

(** The columns both stores have.  The identifier of an effect is the row's identity. *)
Record EffectRow (PC : Type) := mk_effect_row {
  col_tenant : string;
  col_effect_type : string;
  col_destination : string;
  col_idempotency_key : string;
  col_payload : PC;
  col_attempt : Z;
  col_state : string;
  col_next_at : option Z;
  col_terminal_reason : option string;
  col_settled_at : option Z;
}.
Arguments mk_effect_row {PC} _ _ _ _ _ _ _ _ _ _.
Arguments col_tenant {PC} _.
Arguments col_effect_type {PC} _.
Arguments col_destination {PC} _.
Arguments col_idempotency_key {PC} _.
Arguments col_payload {PC} _.
Arguments col_attempt {PC} _.
Arguments col_state {PC} _.
Arguments col_next_at {PC} _.
Arguments col_terminal_reason {PC} _.
Arguments col_settled_at {PC} _.

(** [effect_dedup]; a row is identified by tenant, effect type and idempotency key. *)
Record DedupRow (IC FC : Type) := mk_dedup_row {
  dedup_effect_id : IC;
  dedup_fingerprint : FC;
  dedup_succeeded : bool;
  dedup_settled_at : option Z;
}.
Arguments mk_dedup_row {IC FC} _ _ _ _.
Arguments dedup_effect_id {IC FC} _.
Arguments dedup_fingerprint {IC FC} _.
Arguments dedup_succeeded {IC FC} _.
Arguments dedup_settled_at {IC FC} _.
Abbreviation ScopeKey := (string * string * string)%type.
Definition scope_columns (s : DedupScope) : ScopeKey :=
  (id_str (scope_tenant s), scope_effect_type s, id_str (scope_key s)).

(** ** Encodings *)

Definition state_from_str `{DS : !DebugStr} (s : string) : result EffectStoreError EffectState :=
  if decide (s = "pending") then Ok Pending
  else if decide (s = "in_flight") then Ok InFlight
  else if decide (s = "succeeded") then Ok Succeeded
  else if decide (s = "retryable_failed") then Ok RetryableFailed
  else if decide (s = "terminal_failed") then Ok TerminalFailed
  else Err (Backend ("unknown persisted state " +:+ debug_text s)).

Definition encode_reason (reason : TerminalReason) : string :=
  match reason with
  | ExecutorMissing => "executor_missing"
  | InvalidEffect msg => "invalid_effect:" +:+ msg
  | Other msg => "other:" +:+ msg
  end.

(** Comparisons with a nullable column: NULL satisfies none. *)
Definition sql_is {A} `{EqDecision A} (c : option A) (v : A) : bool := bool_decide (c = Some v).
Definition sql_lt (c : option Z) (v : Z) : bool :=
  match c with Some x => bool_decide (x < v)%Z | None => false end.
Definition sql_le (c : option Z) (v : Z) : bool :=
  match c with Some x => bool_decide (x ≤ v)%Z | None => false end.
Definition sql_gt (c : option Z) (v : Z) : bool :=
  match c with Some x => bool_decide (v < x)%Z | None => false end.
Definition is_null {A} (c : option A) : bool := match c with Some _ => false | None => true end.

(** [attempt as i32] and back. *)
Definition as_i32 (n : Z) : Z := ((n + 2 ^ 31) mod 2 ^ 32 - 2 ^ 31)%Z.
Definition as_u32 (n : Z) : Z := (n mod 2 ^ 32)%Z.

(** ** Errors *)
Definition stoolap_backend_err (e : StoolapError) : EffectStoreError :=
  match e with
  | LockAcquisitionFailed t | DatabaseLocked t => TemporarilyUnavailable t
  | _ => Backend (stoolap_text e)
  end.

Definition postgres_backend_err (e : SqlxError) : EffectStoreError :=
  match e with
  | PoolTimedOut t | SqlxIo t | PoolClosed t => TemporarilyUnavailable t
  | SqlxDatabase (Some code) t =>
      if decide (code ∈ ["40001"; "40P01"; "53300"; "55P03"])
      then TemporarilyUnavailable t else Backend t
  | _ => Backend (sqlx_text e)
  end.

Definition dedup_row_vanished_error : EffectStoreError :=
  TemporarilyUnavailable "dedup row vanished after ON CONFLICT DO NOTHING — retry reserve".

(** ** Reservations, which the two stores share but for the columns' types *)
Record EffectColumns (IC PC FC E : Type) := mk_effect_columns {
  id_column : EffectId → IC;
  payload_column : list Byte.byte → PC;
  fingerprint_column : EffectFingerprint → FC;
  store_error : E → EffectStoreError;
}.
Arguments mk_effect_columns {IC PC FC E} _ _ _ _.
Arguments id_column {IC PC FC E} _ _.
Arguments payload_column {IC PC FC E} _ _.
Arguments fingerprint_column {IC PC FC E} _ _.
Arguments store_error {IC PC FC E} _ _.

Section reservations.
Context {IC PC FC E : Type} `{EqDecision IC, EqDecision FC}.
Context (self : EffectColumns IC PC FC E).
Abbreviation method := (prog (sql ScopeKey (DedupRow IC FC) E)).

Definition sql_reserve (scope : DedupScope) (effect_id : EffectId) (fp : EffectFingerprint) :
    method (result EffectStoreError DedupOutcome) :=
  let! r := run_stmt (InsertOrIgnore (scope_columns scope)
    (mk_dedup_row (id_column self effect_id) (fingerprint_column self fp) false None)) in
  match map_err (store_error self) r with
  | Err e => Ret (Err e)
  | Ok affected =>
      if decide (affected = 1)%Z then Ret (Ok Fresh)
      else
        let! r := run_stmt (Select (at_key (scope_columns scope) (λ _, true)) any_order None) in
        Ret (rows ← map_err (store_error self) r;
             row ← ok_or dedup_row_vanished_error (snd <$> head rows);
             Ok (if decide (dedup_fingerprint row ≠ fingerprint_column self fp) then DedupConflict
                 else if decide (dedup_effect_id row = id_column self effect_id) then
                   if dedup_succeeded row then OwnedSucceeded else OwnedInProgress
                 else if dedup_succeeded row then OtherSucceeded else OtherInProgress))
  end.

Definition sql_commit_success (scope : DedupScope) : method (result EffectStoreError unit) :=
  let! now := clock in
  let! r := run_stmt (Update (at_key (scope_columns scope) (λ _, true))
    (λ row, mk_dedup_row (dedup_effect_id row) (dedup_fingerprint row) true (Some now))) in
  Ret (_ ← map_err (store_error self) r; Ok ()).

Definition sql_release (scope : DedupScope) : method (result EffectStoreError unit) :=
  let! r := run_stmt (Delete (at_key (scope_columns scope) (λ _, true))) in
  Ret (_ ← map_err (store_error self) r; Ok ()).
End reservations.

(** ** Delivery states: what the two stores share *)
Definition state_in {PC} (states : list string) (r : EffectRow PC) : bool :=
  bool_decide (col_state r ∈ states).

(** The SET clauses. *)
Definition set_in_flight {PC} (r : EffectRow PC) : EffectRow PC :=
  mk_effect_row (col_tenant r) (col_effect_type r) (col_destination r) (col_idempotency_key r)
    (col_payload r) (col_attempt r) "in_flight" (col_next_at r) (col_terminal_reason r)
    (col_settled_at r).
Definition set_succeeded {PC} (settled_at : Z) (r : EffectRow PC) : EffectRow PC :=
  mk_effect_row (col_tenant r) (col_effect_type r) (col_destination r) (col_idempotency_key r)
    (col_payload r) (col_attempt r) "succeeded" (col_next_at r) (col_terminal_reason r)
    (Some settled_at).
Definition set_retryable {PC} (attempt next_at : Z) (r : EffectRow PC) : EffectRow PC :=
  mk_effect_row (col_tenant r) (col_effect_type r) (col_destination r) (col_idempotency_key r)
    (col_payload r) attempt "retryable_failed" (Some next_at) (col_terminal_reason r)
    (col_settled_at r).
Definition set_terminal {PC} (reason : string) (settled_at : Z) (r : EffectRow PC) : EffectRow PC :=
  mk_effect_row (col_tenant r) (col_effect_type r) (col_destination r) (col_idempotency_key r)
    (col_payload r) (col_attempt r) "terminal_failed" (col_next_at r) (Some reason)
    (Some settled_at).
Definition set_recovered {PC} (now : Z) (r : EffectRow PC) : EffectRow PC :=
  mk_effect_row (col_tenant r) (col_effect_type r) (col_destination r) (col_idempotency_key r)
    (col_payload r) (col_attempt r) "pending" (Some now) (col_terminal_reason r)
    (col_settled_at r).

(** The condition of retention. *)
Definition settled_before {PC} (cutoff : Z) (r : EffectRow PC) : bool :=
  state_in ["succeeded"; "terminal_failed"] r && negb (is_null (col_settled_at r))
  && sql_lt (col_settled_at r) cutoff.
Definition dedup_settled_before {IC FC} (cutoff : Z) (r : DedupRow IC FC) : bool :=
  dedup_succeeded r && negb (is_null (dedup_settled_at r)) && sql_lt (dedup_settled_at r) cutoff.

(** ORDER BY next_at; where NULL sorts is up to the database. *)
Definition by_next_at {K R} (next_at : R → option Z) (a b : K * R) : Prop :=
  match next_at a.2, next_at b.2 with Some x, Some y => (x ≤ y)%Z | _, _ => True end.

Section delivery.
Context `{SU : !ShowUuid, DS : !DebugStr}.
Context {IC PC FC E R : Type} `{EqDecision IC, EqDecision PC}.
Context (self : EffectColumns IC PC FC E) (base : R → EffectRow PC).
Abbreviation method := (prog (sql IC R E)).

Definition same_content (effect : AcceptedEffect) (r : EffectRow PC) : bool :=
  bool_decide (col_tenant r = id_str (accepted_tenant effect))
  && bool_decide (col_effect_type r = description_effect_type (accepted_description effect))
  && bool_decide (col_destination r = description_destination (accepted_description effect))
  && bool_decide (col_idempotency_key r =
       id_str (description_idempotency_key (accepted_description effect)))
  && bool_decide (col_payload r =
       payload_column self (description_payload (accepted_description effect))).

(** The row an acceptance inserts, its attempt already converted. *)
Definition accepted_row (effect : AcceptedEffect) (attempt : Z) : EffectRow PC :=
  mk_effect_row (id_str (accepted_tenant effect))
    (description_effect_type (accepted_description effect))
    (description_destination (accepted_description effect))
    (id_str (description_idempotency_key (accepted_description effect)))
    (payload_column self (description_payload (accepted_description effect)))
    attempt "pending" None None None.

Definition sql_accept (effect : AcceptedEffect) (row : R) : method (result EffectStoreError unit) :=
  let id := id_column self (accepted_id effect) in
  let! r := run_stmt (InsertOrIgnore id row) in
  match map_err (store_error self) r with
  | Err e => Ret (Err e)
  | Ok affected =>
      if decide (affected = 1)%Z then Ret (Ok ())
      else
        let! r := run_stmt (Select (at_key id (λ _, true)) any_order None) in
        Ret (rows ← map_err (store_error self) r;
             row ← ok_or (SNotFound (accepted_id effect)) (snd <$> head rows);
             if same_content effect (base row) then Ok ()
             else Err (SConflict ("effect " +:+ show_uuid (effect_uuid (accepted_id effect))
               +:+ " already accepted with different tenant/description")))
  end.

(** The state a transition that affected no row found. *)
Definition select_state (id : EffectId) : method (result EffectStoreError (option string)) :=
  let! r := run_stmt (Select (at_key (id_column self id) (λ _, true)) any_order None) in
  Ret (rows ← map_err (store_error self) r; Ok (col_state ∘ base ∘ snd <$> head rows)).

(** One guarded UPDATE of the row, and the error to report when it affected none. *)
Definition transition_with (id : EffectId) (where_ : R → bool) (set : R → R)
    (explain : method (result EffectStoreError EffectStoreError)) :
    method (result EffectStoreError unit) :=
  let! r := run_stmt (Update (at_key (id_column self id) where_) set) in
  match map_err (store_error self) r with
  | Err e => Ret (Err e)
  | Ok affected =>
      if decide (affected = 1)%Z then Ret (Ok ())
      else let! e := explain in Ret (e ← e; Err e)
  end.
End delivery.

(** ** Retention over both tables *)

(** [PartialRetentionFailure], and [PostgresRetentionFailure]. *)
Record RetentionFailure := mk_retention_failure {
  failure_deleted : Z;
  failure_source : EffectStoreError;
}.

(** A command on one of the two tables. *)
Inductive effect_sql (K1 R1 K2 R2 E : Type) : Type → Type :=
| OnStates {B} (c : sql K1 R1 E B) : effect_sql K1 R1 K2 R2 E B
| OnDedup {B} (c : sql K2 R2 E B) : effect_sql K1 R1 K2 R2 E B.
Arguments OnStates {K1 R1 K2 R2 E B} c.
Arguments OnDedup {K1 R1 K2 R2 E B} c.

Section retention.
Context {K1 R1 K2 R2 E : Type}.

Fixpoint on_states {A} (p : prog (sql K1 R1 E) A) : prog (effect_sql K1 R1 K2 R2 E) A :=
  match p with Ret a => Ret a | Do c k => Do (OnStates c) (λ b, on_states (k b)) end.
Fixpoint on_dedup {A} (p : prog (sql K2 R2 E) A) : prog (effect_sql K1 R1 K2 R2 E) A :=
  match p with Ret a => Ret a | Do c k => Do (OnDedup c) (λ b, on_dedup (k b)) end.

(** The states first, then the reservations, which are counted on top. *)
Definition retention (states : prog (sql K1 R1 E) (result RetentionFailure Z))
    (reservations : Z → prog (sql K2 R2 E) (result RetentionFailure Z)) :
    prog (effect_sql K1 R1 K2 R2 E) (result RetentionFailure Z) :=
  let! r := on_states states in
  match r with
  | Err f => Ret (Err f)
  | Ok deleted => on_dedup (reservations deleted)
  end.
End retention.

(** [i64::try_from(batch).unwrap_or(i64::MAX)] *)
Definition batch_of (batch : nat) : Z :=
  if decide (Z.of_nat batch ≤ i64_max)%Z then Z.of_nat batch else i64_max.

(** [purge_before]: retention up to a cutoff that is already computed. *)
Definition purge_before {cmd}
    (run_retention : Timestamp → Z → Z → prog cmd (result RetentionFailure Z))
    (cutoff : Timestamp) (batch : nat) : prog cmd (result EffectStoreError Z) :=
  let! r := run_retention cutoff 0%Z (batch_of batch) in
  Ret (map_err failure_source r).

(** ** Stoolap *)
Section stoolap.
Context `{SU : !ShowUuid, DS : !DebugStr}.
(** The [base64] and [uuid] crates. *)
Context (base64_encode : list Byte.byte → string)
  (base64_decode : string → result string (list Byte.byte)) (parse_uuid : string → result string N).
Abbreviation state_method := (prog (sql string (EffectRow string) StoolapError)).
Abbreviation dedup_method := (prog (sql ScopeKey (DedupRow string string) StoolapError)).

Definition hex_encode (bytes : list Byte.byte) : string := hex_of bytes.

Definition stoolap_columns : EffectColumns string string string StoolapError :=
  mk_effect_columns (λ id, show_uuid (effect_uuid id)) base64_encode
    (λ fp, hex_encode (fingerprint_bytes fp)) stoolap_backend_err.

Definition stoolap_transition_error (id : EffectId) (to : EffectState) :
    state_method (result EffectStoreError EffectStoreError) :=
  let! r := select_state stoolap_columns (λ row, row) id in
  Ret (found ← r;
       match found with
       | None => Ok (SNotFound id)
       | Some from => from ← state_from_str from; Ok (InvalidTransition id from to)
       end).

Definition stoolap_transition (id : EffectId) (allowed_from : list string)
    (set : EffectRow string → EffectRow string) (to : EffectState) :
    state_method (result EffectStoreError unit) :=
  transition_with stoolap_columns id (state_in allowed_from) set (stoolap_transition_error id to).

Definition stoolap_accept (effect : AcceptedEffect) : state_method (result EffectStoreError unit) :=
  sql_accept stoolap_columns (λ row, row) effect
    (accepted_row stoolap_columns effect (accepted_attempt effect)).

Definition stoolap_mark_in_flight (id : EffectId) : state_method (result EffectStoreError unit) :=
  stoolap_transition id ["pending"; "retryable_failed"] set_in_flight InFlight.

Definition stoolap_mark_succeeded (id : EffectId) : state_method (result EffectStoreError unit) :=
  let! now := clock in
  stoolap_transition id ["in_flight"] (set_succeeded now) Succeeded.

Definition stoolap_mark_retryable (id : EffectId) (attempt : Z) (next_at : Timestamp) :
    state_method (result EffectStoreError unit) :=
  stoolap_transition id ["in_flight"] (set_retryable attempt next_at) RetryableFailed.

Definition stoolap_mark_terminal (id : EffectId) (reason : TerminalReason) :
    state_method (result EffectStoreError unit) :=
  let encoded := encode_reason reason in
  let! now := clock in
  stoolap_transition id ["in_flight"; "retryable_failed"] (set_terminal encoded now) TerminalFailed.

(** A row of [claim_due]'s answer; the texts of the two identifier errors are fixed. *)
Definition stoolap_decode (now : Timestamp) (p : string * EffectRow string) :
    result EffectStoreError StoredEffect :=
  payload ← map_err (λ e, Backend ("payload decode: " +:+ e)) (base64_decode (col_payload p.2));
  id ← map_err (λ e, Backend ("effect_id decode: " +:+ e)) (parse_uuid p.1);
  tenant ← map_err (λ _, Backend "tenant decode: tenant_id must not be empty")
    (id_new TenantTag (col_tenant p.2));
  key ← map_err (λ _, Backend "idempotency_key decode: idempotency_key must not be empty")
    (id_new IdempotencyTag (col_idempotency_key p.2));
  state ← state_from_str (col_state p.2);
  Ok (mk_stored_effect (mk_effect_id id) tenant
        (mk_description key (col_effect_type p.2) payload (col_destination p.2))
        (as_u32 (col_attempt p.2)) state (default now (col_next_at p.2))).

Definition stoolap_is_due (now : Timestamp) (r : EffectRow string) : bool :=
  state_in ["pending"; "retryable_failed"] r
  && (is_null (col_next_at r) || sql_le (col_next_at r) now).

Definition stoolap_claim_due (now : Timestamp) (limit : nat) :
    state_method (result EffectStoreError (list StoredEffect)) :=
  let! r := run_stmt (Select (λ _, stoolap_is_due now) (by_next_at col_next_at)
    (Some (as_i64 (Z.of_nat limit)))) in
  Ret (rows ← map_err stoolap_backend_err r; collect_results (stoolap_decode now) rows).

Definition stoolap_recover_in_flight (now : Timestamp) : state_method (result EffectStoreError Z) :=
  let! r := run_stmt (Update (λ _, state_in ["in_flight"]) (set_recovered now)) in
  Ret (affected ← map_err stoolap_backend_err r; Ok (Z.max affected 0)).

(** The count of rows deleted survives a failure half way. *)
Fixpoint delete_batch_preserving_partial_count {cmd T} (items : list T) (deleted_so_far : Z)
    (delete_one : T → prog cmd (result EffectStoreError Z)) : prog cmd (result RetentionFailure Z) :=
  match items with
  | [] => Ret (Ok deleted_so_far)
  | item :: items =>
      let! r := delete_one item in
      match r with
      | Ok affected =>
          delete_batch_preserving_partial_count items (deleted_so_far + Z.max affected 0)%Z delete_one
      | Err source => Ret (Err (mk_retention_failure deleted_so_far source))
      end
  end.

Definition stoolap_retain_states (cutoff batch : Z) : state_method (result RetentionFailure Z) :=
  let! r := run_stmt (Select (λ _, settled_before cutoff) any_order (Some batch)) in
  match map_err stoolap_backend_err r with
  | Err source => Ret (Err (mk_retention_failure 0 source))
  | Ok rows =>
      delete_batch_preserving_partial_count (fst <$> rows) 0%Z (λ id,
        let! r := run_stmt (Delete (at_key id (λ _, true))) in
        Ret (map_err stoolap_backend_err r))
  end.

Definition delete_eligible_dedup_scope (scope : ScopeKey) (cutoff : Z) :
    dedup_method (result EffectStoreError Z) :=
  let! r := run_stmt (Delete (at_key scope (dedup_settled_before cutoff))) in
  Ret (map_err stoolap_backend_err r).

Definition stoolap_retain_dedup (cutoff batch deleted : Z) :
    dedup_method (result RetentionFailure Z) :=
  let! r := run_stmt (Select (λ _, dedup_settled_before cutoff) any_order (Some batch)) in
  match map_err stoolap_backend_err r with
  | Err source => Ret (Err (mk_retention_failure deleted source))
  | Ok rows =>
      delete_batch_preserving_partial_count (fst <$> rows) deleted
        (λ scope, delete_eligible_dedup_scope scope cutoff)
  end.

Definition stoolap_run_retention (now : Timestamp) (ttl batch : Z) :
    prog (effect_sql string (EffectRow string) ScopeKey (DedupRow string string) StoolapError)
      (result RetentionFailure Z) :=
  let cutoff := (now - ttl)%Z in
  retention (stoolap_retain_states cutoff batch) (stoolap_retain_dedup cutoff batch).

Definition stoolap_reserve (scope : DedupScope) (effect_id : EffectId) (fp : EffectFingerprint) :
    dedup_method (result EffectStoreError DedupOutcome) := sql_reserve stoolap_columns scope effect_id fp.
Definition stoolap_commit_success (scope : DedupScope) : dedup_method (result EffectStoreError unit) :=
  sql_commit_success stoolap_columns scope.
Definition stoolap_release (scope : DedupScope) : dedup_method (result EffectStoreError unit) :=
  sql_release stoolap_columns scope.
End stoolap.

(** ** Postgres *)

(** The columns of [effect_state] that only this store has. *)
Record PgRow := mk_pg_row {
  pg_base : EffectRow (list Byte.byte);
  claim_owner : option N;
  claim_expires_at : option Z;
  claim_epoch : Z;
}.

Section postgres.
Context `{SU : !ShowUuid, DS : !DebugStr}.
(** The store's own identity and the length of its leases. *)
Context (worker_id : N) (lease : Z).
Abbreviation state_method := (prog (sql N PgRow SqlxError)).
Abbreviation dedup_method := (prog (sql ScopeKey (DedupRow N (list Byte.byte)) SqlxError)).

Definition postgres_columns : EffectColumns N (list Byte.byte) (list Byte.byte) SqlxError :=
  mk_effect_columns effect_uuid (λ payload, payload) fingerprint_bytes postgres_backend_err.

Definition postgres_transition_error (id : EffectId) (allowed_from : list EffectState)
    (to : EffectState) : state_method (result EffectStoreError EffectStoreError) :=
  let! r := select_state postgres_columns pg_base id in
  Ret (found ← r;
       match found with
       | None => Ok (SNotFound id)
       | Some from =>
           from ← state_from_str from;
           if decide (from ∉ allowed_from) then Ok (InvalidTransition id from to)
           else Ok (SConflict ("effect " +:+ show_uuid (effect_uuid id)
                  +:+ " is claimed by another worker, or its lease has expired"))
       end).

Definition postgres_transition (id : EffectId) (where_ : PgRow → bool) (set : PgRow → PgRow)
    (allowed_from : list EffectState) (to : EffectState) :
    state_method (result EffectStoreError unit) :=
  transition_with postgres_columns id where_ set (postgres_transition_error id allowed_from to).

Definition postgres_accept (effect : AcceptedEffect) : state_method (result EffectStoreError unit) :=
  sql_accept postgres_columns pg_base effect
    (mk_pg_row (accepted_row postgres_columns effect (as_i32 (accepted_attempt effect)))
       None None 0).

(** Rows this worker may take: its own, or nobody's, with no lease that has run out. *)
Definition claimable (now : Z) (r : PgRow) : bool :=
  (is_null (claim_owner r) || sql_is (claim_owner r) worker_id)
  && (is_null (claim_expires_at r) || sql_gt (claim_expires_at r) now).

(** The guard of every verb after the first. *)
Definition holds_lease (now : Z) (r : PgRow) : bool :=
  sql_is (claim_owner r) worker_id && sql_gt (claim_expires_at r) now.

Definition postgres_mark_in_flight (id : EffectId) : state_method (result EffectStoreError unit) :=
  let! now := clock in
  let expires_at := (now + lease)%Z in
  postgres_transition id
    (λ r, state_in ["pending"; "retryable_failed"] (pg_base r) && claimable now r)
    (λ r, mk_pg_row (set_in_flight (pg_base r)) (Some worker_id) (Some expires_at) (claim_epoch r))
    [Pending; RetryableFailed] InFlight.

(** [db_now] is the database's [now()]. *)
Definition postgres_mark_succeeded (id : EffectId) : state_method (result EffectStoreError unit) :=
  let! now := clock in
  let! db_now := clock in
  postgres_transition id
    (λ r, state_in ["in_flight"] (pg_base r) && holds_lease now r)
    (λ r, mk_pg_row (set_succeeded db_now (pg_base r)) (claim_owner r) (claim_expires_at r)
            (claim_epoch r))
    [InFlight] Succeeded.

Definition postgres_mark_retryable (id : EffectId) (attempt : Z) (next_at : Timestamp) :
    state_method (result EffectStoreError unit) :=
  let! now := clock in
  postgres_transition id
    (λ r, state_in ["in_flight"] (pg_base r) && holds_lease now r)
    (λ r, mk_pg_row (set_retryable (as_i32 attempt) next_at (pg_base r)) None None (claim_epoch r))
    [InFlight] RetryableFailed.

Definition postgres_mark_terminal (id : EffectId) (reason : TerminalReason) :
    state_method (result EffectStoreError unit) :=
  let encoded := encode_reason reason in
  let! now := clock in
  let! db_now := clock in
  postgres_transition id
    (λ r, state_in ["in_flight"; "retryable_failed"] (pg_base r) && holds_lease now r)
    (λ r, mk_pg_row (set_terminal encoded db_now (pg_base r)) (claim_owner r) (claim_expires_at r)
            (claim_epoch r))
    [InFlight; RetryableFailed] TerminalFailed.

(** The rows [claim_due] looks for; which of them the LIMIT clause and the locks leave is
    open. *)
Definition due_for_claim (now : Z) (r : PgRow) : bool :=
  (state_in ["pending"; "retryable_failed"] (pg_base r)
   && (is_null (col_next_at (pg_base r)) || sql_le (col_next_at (pg_base r)) now)
   && (is_null (claim_owner r) || sql_lt (claim_expires_at r) now))
  || (state_in ["in_flight"] (pg_base r) && sql_lt (claim_expires_at r) now).

Definition stamp (now : Z) (r : PgRow) : PgRow :=
  mk_pg_row (pg_base r) (Some worker_id) (Some (now + lease)%Z) (claim_epoch r + 1)%Z.

Definition postgres_decode (now : Timestamp) (p : N * PgRow) :
    result EffectStoreError StoredEffect :=
  let row := pg_base p.2 in
  tenant ← map_err (λ _, Backend "tenant decode: tenant_id must not be empty")
    (id_new TenantTag (col_tenant row));
  key ← map_err (λ _, Backend "idempotency_key decode: idempotency_key must not be empty")
    (id_new IdempotencyTag (col_idempotency_key row));
  state ← state_from_str (col_state row);
  Ok (mk_stored_effect (mk_effect_id p.1) tenant
        (mk_description key (col_effect_type row) (col_payload row) (col_destination row))
        (as_u32 (col_attempt row)) state (default now (col_next_at row))).

Definition postgres_claim_due (now : Timestamp) (limit : nat) :
    state_method (result EffectStoreError (list StoredEffect)) :=
  let! r := run_stmt (UpdateSome (λ _, due_for_claim now) (as_i64 (Z.of_nat limit)) (stamp now)) in
  Ret (rows ← map_err postgres_backend_err r; collect_results (postgres_decode now) rows).

Definition postgres_recover_in_flight (now : Timestamp) :
    state_method (result EffectStoreError Z) :=
  let! r := run_stmt (Update
    (λ _ r, state_in ["in_flight"] (pg_base r) && sql_lt (claim_expires_at r) now)
    (λ r, mk_pg_row (set_recovered now (pg_base r)) (claim_owner r) (claim_expires_at r)
            (claim_epoch r))) in
  Ret (map_err postgres_backend_err r).

Definition postgres_retain_states (cutoff batch : Z) : state_method (result RetentionFailure Z) :=
  let! r := run_stmt (DeleteSome (λ _ r, settled_before cutoff (pg_base r)) batch) in
  Ret (map_err (mk_retention_failure 0 ∘ postgres_backend_err) r).

Definition postgres_retain_dedup (cutoff batch deleted : Z) :
    dedup_method (result RetentionFailure Z) :=
  let! r := run_stmt (DeleteSome (λ _, dedup_settled_before cutoff) batch) in
  Ret (affected ← map_err (mk_retention_failure deleted ∘ postgres_backend_err) r;
       Ok (deleted + affected)%Z).

Definition postgres_run_retention (now : Timestamp) (ttl batch : Z) :
    prog (effect_sql N PgRow ScopeKey (DedupRow N (list Byte.byte)) SqlxError)
      (result RetentionFailure Z) :=
  let cutoff := (now - ttl)%Z in
  retention (postgres_retain_states cutoff batch) (postgres_retain_dedup cutoff batch).

Definition postgres_reserve (scope : DedupScope) (effect_id : EffectId) (fp : EffectFingerprint) :
    dedup_method (result EffectStoreError DedupOutcome) := sql_reserve postgres_columns scope effect_id fp.
Definition postgres_commit_success (scope : DedupScope) : dedup_method (result EffectStoreError unit) :=
  sql_commit_success postgres_columns scope.
Definition postgres_release (scope : DedupScope) : dedup_method (result EffectStoreError unit) :=
  sql_release postgres_columns scope.

(** [validate_schema_identifier] *)
Definition is_ascii_alphanumeric (c : ascii) : bool :=
  let n := Ascii.N_of_ascii c in
  ((48 <=? n) && (n <=? 57) || (65 <=? n) && (n <=? 90) || (97 <=? n) && (n <=? 122))%N.
Definition validate_schema_identifier (schema : string) : result EffectStoreError unit :=
  if bool_decide (schema = EmptyString)
     || negb (forallb (λ c, is_ascii_alphanumeric c || Ascii.eqb c "_") (String.list_ascii_of_string schema))
  then Err (Backend ("invalid schema identifier: " +:+ debug_text schema
         +:+ " (must be non-empty ASCII alphanumeric/underscore)"))
  else Ok ().
End postgres.

(** ** Delivery follows its diagram *)
Definition state_name (s : EffectState) : string :=
  match s with
  | Pending => "pending"
  | InFlight => "in_flight"
  | Succeeded => "succeeded"
  | RetryableFailed => "retryable_failed"
  | TerminalFailed => "terminal_failed"
  end.

Lemma state_from_str_name `{DS : !DebugStr} s : state_from_str (state_name s) = Ok s.
Proof. by destruct s. Qed.

Definition named_edge (from to : string) : Prop :=
  ∃ a b, delivery_edge a b ∧ from = state_name a ∧ to = state_name b.

(** What an effect asks for. *)
Definition content {PC} (r : EffectRow PC) : string * string * string * string * PC :=
  (col_tenant r, col_effect_type r, col_destination r, col_idempotency_key r, col_payload r).

Definition settled_row {PC} (r : EffectRow PC) : Prop :=
  col_state r ∈ ["succeeded"; "terminal_failed"].

Section durable_delivery.
Context {K R E PC : Type} `{Countable K}.
Context (base : R → EffectRow PC).

(** One row across a statement: untouched, along one edge, or, where the store has columns
    of its own, with only those changed and the effect not settled. *)
Definition moves (r r' : R) : Prop :=
  r' = r ∨
  (content (base r') = content (base r) ∧
   named_edge (col_state (base r)) (col_state (base r'))) ∨
  (base r' = base r ∧ ¬ settled_row (base r)).

(** A row across any number of statements. *)
Definition delivered_to (r r' : R) : Prop :=
  content (base r') = content (base r) ∧
  rtc named_edge (col_state (base r)) (col_state (base r')) ∧
  (settled_row (base r) → r' = r).

Lemma settled_moves r r' : settled_row (base r) → moves r r' → r' = r.
Proof.
  unfold settled_row. intros Hs [?|[(_ & a & b & He & Ha & _)|[_ Hn]]]; [done| |done].
  rewrite Ha in Hs. destruct He; simpl in Hs; set_solver.
Qed.

Lemma delivered_to_refl r : delivered_to r r.
Proof. by split_and!. Qed.

Lemma delivered_to_cons r r1 r2 : moves r r1 → delivered_to r1 r2 → delivered_to r r2.
Proof.
  intros Hm (Hc & He & Hs). split_and!.
  - rewrite Hc. by destruct Hm as [->|[[-> _]|[-> _]]].
  - destruct Hm as [->|[[_ ?]|[Hb _]]]; [done|by eapply rtc_l|by rewrite <-Hb].
  - intros Hr. pose proof (settled_moves r r1 Hr Hm) as ->. by apply Hs.
Qed.

Definition delivers (t t' : gmap K R) : Prop :=
  ∀ k r, t !! k = Some r → ∃ r', t' !! k = Some r' ∧ moves r r'.

Lemma delivers_refl t : delivers t t.
Proof. intros k r Hk. exists r. split; [done|by left]. Qed.

Lemma delivers_update where_ set t n t' :
  (∀ k r, where_ k r = true → moves r (set r)) →
  update where_ set t = (n, t') → delivers t t'.
Proof.
  intros Hset [= _ <-] k r Hk. rewrite map_lookup_imap, Hk. simpl. eexists. split; [done|].
  destruct (where_ k r) eqn:Hw; [by eapply Hset|by left].
Qed.

Lemma delivers_insert k r t n t' : insert_or_ignore k r t = (n, t') → delivers t t'.
Proof.
  unfold insert_or_ignore. destruct (t !! k) eqn:Hk; intros [= _ <-]; [apply delivers_refl|].
  intros k' r' Hk'. exists r'. split; [|by left]. rewrite lookup_insert_ne; [done|congruence].
Qed.

Lemma state_in_moves (r r' : R) states to :
  state_in states (base r) = true →
  (∀ s, s ∈ states → ∃ a, s = state_name a ∧ delivery_edge a to) →
  content (base r') = content (base r) → col_state (base r') = state_name to → moves r r'.
Proof.
  intros Hin%bool_decide_eq_true Hs Hc Hto. right. left. split; [done|].
  destruct (Hs _ Hin) as (a & Ha & He). by exists a, to.
Qed.
End durable_delivery.

Lemma issues_transition_with {IC PC FC E R : Type} `{EqDecision IC} `{!Countable IC}
    (self : EffectColumns IC PC FC E) (base : R → EffectRow PC) id where_ set explain :
  (∀ r, where_ r = true → moves base r (set r)) →
  issues (delivers base) explain →
  issues (delivers base) (transition_with self id where_ set explain).
Proof.
  intros Hset He. unfold transition_with. apply issues_bind.
  - apply issues_stmt; [apply delivers_refl|]. intros t b t' Hm.
    eapply delivers_update, Hm. intros k r [_ Hw]%andb_true_iff. by apply Hset.
  - intros [affected|e]; cbn [map_err]; [|done]. case_decide; [done|].
    apply issues_bind; [done|]. by intros [?|?].
Qed.

Lemma issues_select_state {IC PC FC E R : Type} `{EqDecision IC} `{!Countable IC}
    (self : EffectColumns IC PC FC E) (base : R → EffectRow PC) id (Q : gmap IC R → gmap IC R → Prop) :
  (∀ t, Q t t) → issues Q (select_state self base id).
Proof. intros HQ. apply issues_bind; [by apply issues_select|done]. Qed.

Lemma issues_accept `{SU : !ShowUuid} {IC PC FC E R : Type} `{EqDecision IC, EqDecision PC}
    `{!Countable IC} (self : EffectColumns IC PC FC E) (base : R → EffectRow PC) effect row :
  issues (delivers base) (sql_accept self base effect row).
Proof.
  unfold sql_accept. apply issues_bind.
  - apply issues_stmt; [apply delivers_refl|]. intros t b t'. apply delivers_insert.
  - intros [affected|e]; cbn [map_err]; [|done]. case_decide; [done|].
    apply issues_bind; [apply issues_select, delivers_refl|done].
Qed.

(** The calls of the state port. *)
Inductive store_call :=
| StateCall (c : state_call)
| ClaimDue (now : Timestamp) (limit : nat).

Definition forget {cmd A} (p : prog cmd A) : prog cmd unit := let! _ := p in Ret ().

Definition stoolap_store `{SU : !ShowUuid, DS : !DebugStr} (base64_encode : list Byte.byte → string)
    (base64_decode : string → result string (list Byte.byte)) (parse_uuid : string → result string N)
    (c : store_call) : prog (sql string (EffectRow string) StoolapError) unit :=
  match c with
  | StateCall (CAccept effect) => forget (stoolap_accept base64_encode effect)
  | StateCall (CInFlight id) => forget (stoolap_mark_in_flight base64_encode id)
  | StateCall (CSucceeded id) => forget (stoolap_mark_succeeded base64_encode id)
  | StateCall (CRetryable id attempt next_at) =>
      forget (stoolap_mark_retryable base64_encode id attempt next_at)
  | StateCall (CTerminal id reason) => forget (stoolap_mark_terminal base64_encode id reason)
  | StateCall (CRecover now) => forget (stoolap_recover_in_flight now)
  | ClaimDue now limit => forget (stoolap_claim_due base64_decode parse_uuid now limit)
  end.

Definition postgres_store `{SU : !ShowUuid, DS : !DebugStr} (worker_id : N) (lease : Z)
    (c : store_call) : prog (sql N PgRow SqlxError) unit :=
  match c with
  | StateCall (CAccept effect) => forget (postgres_accept effect)
  | StateCall (CInFlight id) => forget (postgres_mark_in_flight worker_id lease id)
  | StateCall (CSucceeded id) => forget (postgres_mark_succeeded worker_id id)
  | StateCall (CRetryable id attempt next_at) =>
      forget (postgres_mark_retryable worker_id id attempt next_at)
  | StateCall (CTerminal id reason) => forget (postgres_mark_terminal worker_id id reason)
  | StateCall (CRecover now) => forget (postgres_recover_in_flight now)
  | ClaimDue now limit => forget (postgres_claim_due worker_id lease now limit)
  end.

(** What a durable store promises of the delivery diagram. *)
Class DurableDelivery {K R E PC : Type} `{Countable K} (base : R → EffectRow PC)
    (store : store_call → prog (sql K R E) unit) : Prop :=
  delivery_issues c : issues (delivers base) (store c).

(** Closes the side conditions of [state_in_moves] for the sources the stores allow. *)
Ltac sources := intros ? Hin; repeat (apply elem_of_cons in Hin as [->|Hin];
  [first [by exists Pending; split; [|constructor] | by exists InFlight; split; [|constructor]
         | by exists RetryableFailed; split; [|constructor]]|]); by apply elem_of_nil in Hin.

Section stoolap_delivery.
Context `{SU : !ShowUuid, DS : !DebugStr}.
Context (base64_encode : list Byte.byte → string)
  (base64_decode : string → result string (list Byte.byte)) (parse_uuid : string → result string N).
Abbreviation rows := (delivers (K := string) (λ r : EffectRow string, r)).

Lemma stoolap_transition_delivers id states set to :
  (∀ s, s ∈ states → ∃ a, s = state_name a ∧ delivery_edge a to) →
  (∀ r, content (set r) = content r) → (∀ r, col_state (set r) = state_name to) →
  issues rows (stoolap_transition base64_encode id states set to).
Proof.
  intros Hs Hc Hto. apply issues_transition_with.
  - intros r Hr. by eapply state_in_moves.
  - unfold stoolap_transition_error. apply issues_bind; [|done].
    apply issues_select_state, delivers_refl.
Qed.

#[export] Instance stoolap_delivers :
  DurableDelivery (λ r, r) (stoolap_store base64_encode base64_decode parse_uuid).
Proof.
  intros [[effect|id|id|id attempt next_at|id reason|now]|now limit]; cbn [stoolap_store]; unfold forget;
    (apply issues_bind; [|done]).
  - apply issues_accept.
  - apply stoolap_transition_delivers; [sources|done..].
  - apply issues_bind; [apply issues_clock, delivers_refl|]. intros now.
    apply stoolap_transition_delivers; [sources|done..].
  - apply stoolap_transition_delivers; [sources|done..].
  - apply issues_bind; [apply issues_clock, delivers_refl|]. intros now.
    apply stoolap_transition_delivers; [sources|done..].
  - apply issues_bind; [|done]. apply issues_stmt; [apply delivers_refl|]. intros t b t'.
    apply delivers_update. intros _ r Hr. eapply state_in_moves with (to := Pending); [done|sources|done..].
  - apply issues_bind; [|done]. apply issues_select, delivers_refl.
Qed.
End stoolap_delivery.

Section postgres_delivery.
Context `{SU : !ShowUuid, DS : !DebugStr}.
Context (worker_id : N) (lease : Z).
Abbreviation rows := (delivers (K := N) pg_base).

(** A worker is never handed a settled effect. *)
Lemma due_not_settled now r : due_for_claim now r = true → ¬ settled_row (pg_base r).
Proof.
  unfold due_for_claim, state_in, settled_row.
  rewrite orb_true_iff, !andb_true_iff, !bool_decide_eq_true.
  intros Hd Hs. rewrite !elem_of_cons in Hs, Hd. rewrite !elem_of_nil in Hs, Hd.
  destruct Hs as [Hs|[Hs|[]]]; rewrite Hs in Hd;
    destruct Hd as [[[[?|[?|[]]] _] _]|[Hin%list_elem_of_singleton _]]; discriminate.
Qed.

Lemma postgres_transition_delivers id where_ states set from to :
  (∀ r, where_ r = true → state_in states (pg_base r) = true) →
  (∀ s, s ∈ states → ∃ a, s = state_name a ∧ delivery_edge a to) →
  (∀ r, content (pg_base (set r)) = content (pg_base r)) →
  (∀ r, col_state (pg_base (set r)) = state_name to) →
  issues rows (postgres_transition id where_ set from to).
Proof.
  intros Hw Hs Hc Hto. apply issues_transition_with.
  - intros r Hr. eapply state_in_moves; eauto.
  - unfold postgres_transition_error. apply issues_bind; [|done].
    apply issues_select_state, delivers_refl.
Qed.

#[export] Instance postgres_delivers : DurableDelivery pg_base (postgres_store worker_id lease).
Proof.
  assert (∀ {B} (k : Z → prog (sql N PgRow SqlxError) B),
    (∀ n, issues rows (k n)) → issues rows (let! now := clock in k now)) as Hclock.
  { intros B k Hk. apply issues_bind; [apply issues_clock, delivers_refl|done]. }
  intros [[effect|id|id|id attempt next_at|id reason|now]|now limit]; cbn [postgres_store]; unfold forget;
    (apply issues_bind; [|done]).
  - apply issues_accept.
  - apply Hclock. intros now.
    eapply postgres_transition_delivers; [by intros r [? _]%andb_true_iff|sources|done..].
  - apply Hclock. intros now. apply Hclock. intros db_now.
    eapply postgres_transition_delivers; [by intros r [? _]%andb_true_iff|sources|done..].
  - apply Hclock. intros now.
    eapply postgres_transition_delivers; [by intros r [? _]%andb_true_iff|sources|done..].
  - apply Hclock. intros now. apply Hclock. intros db_now.
    eapply postgres_transition_delivers; [by intros r [? _]%andb_true_iff|sources|done..].
  - apply issues_bind; [|done]. apply issues_stmt; [apply delivers_refl|]. intros t b t'.
    apply delivers_update. intros _ r [Hr _]%andb_true_iff.
    eapply state_in_moves with (to := Pending); [done|sources|done..].
  - apply issues_bind; [|done]. apply issues_stmt; [apply delivers_refl|].
    intros t b t' (ks & (_ & _ & Hks) & -> & _) k r Hk. rewrite map_lookup_imap, Hk. simpl.
    eexists. split; [done|]. case_decide as Hin; [|by left]. right. right. split; [done|].
    destruct (Hks k Hin) as [r' [Hr' Hd]%lookup_matching]. simplify_eq.
    by eapply due_not_settled.
Qed.
End postgres_delivery.

(** ** With retention

    The calls on the table of effects: those of the state port, and the part of
    [run_retention] that works on this table, whose cutoff is [now - ttl].
    ([purge_before] runs it with a [ttl] of zero.) *)
Inductive table_call :=
| Deliver (c : store_call)
| Retain (now ttl batch : Z).

Definition stoolap_table `{SU : !ShowUuid, DS : !DebugStr} (base64_encode : list Byte.byte → string)
    (base64_decode : string → result string (list Byte.byte)) (parse_uuid : string → result string N)
    (c : table_call) : prog (sql string (EffectRow string) StoolapError) unit :=
  match c with
  | Deliver c => stoolap_store base64_encode base64_decode parse_uuid c
  | Retain now ttl batch => forget (stoolap_retain_states (now - ttl) batch)
  end.

Definition postgres_table `{SU : !ShowUuid, DS : !DebugStr} (worker_id : N) (lease : Z)
    (c : table_call) : prog (sql N PgRow SqlxError) unit :=
  match c with
  | Deliver c => postgres_store worker_id lease c
  | Retain now ttl batch => forget (postgres_retain_states (now - ttl) batch)
  end.

Section tables.
Context {K R E PC : Type} `{Countable K}.
Context (base : R → EffectRow PC).
Abbreviation table := (gmap K R).

(** The table [u] shows the effect [k] settled before the cutoff. *)
Definition shows_settled (cutoff : Z) (k : K) (u : table) : Prop :=
  ∃ r, u !! k = Some r ∧ settled_before cutoff (base r) = true.

(** What a command of the call [c] does to a row, [seen] being the call's commands so far:
    it moves the row along the diagram, or, a retention call, removes it.  With
    [rechecks] the row it removes is settled before the cutoff; without, the call read
    it so in one of its earlier commands. *)
Definition keeps_or_purges (rechecks : bool) (c : table_call) (seen : list (table * table))
    (t t' : table) : Prop :=
  ∀ k r, t !! k = Some r →
    (∃ r', t' !! k = Some r' ∧ moves base r r') ∨
    (t' !! k = None ∧ ∃ now ttl batch, c = Retain now ttl batch ∧
       if rechecks then settled_before (now - ttl) (base r) = true
       else ∃ u, (u, u) ∈ seen ∧ shows_settled (now - ttl) k u).

Lemma delivers_keeps rechecks c seen t t' : delivers base t t' → keeps_or_purges rechecks c seen t t'.
Proof. intros Hd k r Hk. left. by apply Hd. Qed.

(** A store whose every command does so. *)
Class DurableTable (rechecks : bool) (store : table_call → prog (sql K R E) unit) : Prop :=
  table_issues c : issues_after (keeps_or_purges rechecks c) [] (store c).

(** Why a retention call removed the row [r]: it was settled before the call's cutoff, or,
    only where the call does not check again, the call had read its identity as settled
    in the history [past]. *)
Definition purgeable (rechecks : bool) (past : list (nat * table * table)) (i : nat)
    (cutoff : Z) (k : K) (r : R) : Prop :=
  settled_before cutoff (base r) = true ∨
  (rechecks = false ∧ ∃ u, (i, u, u) ∈ past ∧ shows_settled cutoff k u).

Context {W : Type} (rechecks : bool) (stores : W → table_call → prog (sql K R E) unit).
Context `{HT : !∀ w, DurableTable rechecks (stores w)}.

(** The fate of the row [r] of [k] after the history [past]: it is still there, or a
    retention call has removed it. *)
Definition fate (past : list (nat * table * table)) (k : K) (r : R)
    (rest : list (nat * table * table)) (s : state K R E unit) : Prop :=
  (∃ r', db_table s !! k = Some r' ∧ delivered_to base r r') ∨
  ∃ before i y z after r' w now ttl batch q,
    rest = before ++ (i, y, z) :: after ∧
    y !! k = Some r' ∧ delivered_to base r r' ∧ z !! k = None ∧
    db_calls s !! i = Some (stores w (Retain now ttl batch), q) ∧
    purgeable rechecks past i (now - ttl) k r'.

(** One command of a reachable history. *)
Lemma history_command t s h1 i x y h2 :
  rtc (step (λ p, ∃ w c, p = stores w c)) (initial t) s →
  db_history s = h1 ++ (i, x, y) :: h2 →
  ∃ w c q, db_calls s !! i = Some (stores w c, q) ∧ keeps_or_purges rechecks c (of_call i h1) x y.
Proof.
  intros (_ & Hids & Hcalls)%reachable_history Hh.
  destruct (Hids (i, x, y)) as [[p q] Hi]; [rewrite Hh; set_solver|]. simpl in Hi.
  destruct (Hcalls i p q Hi) as [(w & c & ->) Hruns]. exists w, c, q. split; [done|].
  rewrite Hh, of_call_app in Hruns. simpl in Hruns. rewrite decide_True in Hruns by done.
  by apply (issues_after_runs _ [] _ _ _ _ _ _ (HT w c)) in Hruns.
Qed.

Lemma row_fate t s past rest x k r :
  rtc (step (λ p, ∃ w c, p = stores w c)) (initial t) s →
  db_history s = past ++ rest → path x rest (db_table s) → x !! k = Some r →
  fate past k r rest s.
Proof.
  intros Hr. revert past x r. induction rest as [|[[i x'] y] rest IH]; intros past x r Hh Hp Hk.
  { left. inversion Hp as [t0|t0 h0 i0 x0 y0 Hp0 H1 H2 H3]; [|by destruct h0].
    subst. exists r. split; [done|apply delivered_to_refl]. }
  pose proof (path_split x [] i x' y rest _ Hp) as [Hp1 Hp2].
  assert (x' = x) as -> by (inversion Hp1 as [t0|t0 [|? ?]]; by simplify_eq/=).
  destruct (history_command t s past i x y rest Hr Hh) as (w & c & q & Hi & Hc).
  destruct (Hc k r Hk) as [(r1 & Hr1 & Hm)|(Hnone & now & ttl & batch & -> & Hpu)].
  - destruct (IH (past ++ [(i, x, y)]) y r1) as [(r' & Hr' & Hd)|Hgone]; [by rewrite <-app_assoc|done..| |].
    { left. exists r'. split; [done|]. by eapply delivered_to_cons. }
    destruct Hgone as (before & j & y' & z & after & r' & w' & now & ttl & batch & q' &
      -> & Hy & Hd & Hz & Hj & Hpu).
    right. exists ((i, x, y) :: before), j, y', z, after, r', w', now, ttl, batch, q'.
    split_and!; [done|done|by eapply delivered_to_cons|done|done|].
    destruct Hpu as [?|(Hre & u & Hu & Hsh)]; [by left|].
    apply elem_of_app in Hu as [Hu|[= -> -> ->]%list_elem_of_singleton]; [by right; eauto|]. left.
    destruct Hsh as (ru & Hru & Hset). assert (ru = r) as -> by congruence.
    assert (r1 = r) as -> by congruence.
    destruct Hd as (_ & _ & Hsame). rewrite Hsame; [done|].
    unfold settled_before in Hset. rewrite !andb_true_iff in Hset. destruct Hset as [[Hst _] _].
    by apply bool_decide_eq_true in Hst.
  - right. exists [], i, x, y, rest, r, w, now, ttl, batch, q.
    split_and!; [done|done|apply delivered_to_refl|done|done|]. unfold purgeable.
    destruct rechecks; [by left|]. right. split; [done|].
    destruct Hpu as (u & Hu%elem_of_of_call & Hsh). eauto.
Qed.
End tables.

(** Stoolap: retention selects the identities, then deletes them one by one. *)
Lemma issues_delete_batch {T} (c : table_call) (cutoff : Z) (ids : list string) (d : Z) seen
    (base : EffectRow T → EffectRow T) now ttl batch :
  c = Retain now ttl batch → cutoff = (now - ttl)%Z →
  (∀ id, id ∈ ids → ∃ u, (u, u) ∈ seen ∧ shows_settled (K := string) base cutoff id u) →
  issues_after (keeps_or_purges base false c) seen
    (delete_batch_preserving_partial_count ids d (λ id,
       let! r := run_stmt (E := StoolapError) (Delete (at_key id (λ _, true))) in
       Ret (map_err stoolap_backend_err r))).
Proof.
  intros -> ->. revert d seen. induction ids as [|id ids IH]; intros d seen Hids; [done|].
  cbn [delete_batch_preserving_partial_count]. apply issues_after_bind.
  - apply issues_after_bind; [|done]. split; [|done].
    destruct b as [n|e]; simpl in H; [|subst t'; apply delivers_keeps, delivers_refl].
    rewrite delete_at in H. intros k r Hk.
    destruct (decide (k = id)) as [->|Hne].
    + rewrite Hk in H. injection H as _ <-. right. rewrite lookup_delete_eq. split; [done|].
      eexists now, ttl, batch. split; [done|]. apply Hids. by left.
    + left. exists r. split; [|by left].
      destruct (t !! id); injection H as _ <-; [by rewrite lookup_delete_ne|done].
  - intros evs [n|e] _; [|done]. apply IH. intros id' Hin.
    destruct (Hids id') as (u & Hu & Hsh); [by right|]. exists u. split; [set_solver|done].
Qed.

#[export] Instance stoolap_durable_table `{SU : !ShowUuid, DS : !DebugStr}
    base64_encode base64_decode parse_uuid :
  DurableTable (λ r, r) false (stoolap_table base64_encode base64_decode parse_uuid).
Proof.
  intros [c|now ttl batch]; cbn [stoolap_table].
  - eapply issues_after_issues; [intros; by apply delivers_keeps|apply stoolap_delivers].
  - unfold forget. apply issues_after_bind; [|done]. unfold stoolap_retain_states.
    apply issues_after_bind.
    { eapply issues_after_issues; [intros; by apply delivers_keeps|].
      apply issues_select, delivers_refl. }
    intros evs [rows|e] Hruns; [|done]. cbn [map_err].
    eapply issues_delete_batch; [done..|]. intros id Hid.
    unfold run_stmt, exec in Hruns. destruct evs as [|[u u'] evs]; [done|].
    destruct Hruns as (b & Hb & Hr). apply runs_ret in Hr as [-> <-].
    destruct Hb as (-> & it & Hit & _ & ->). exists u. split; [set_solver|].
    apply list_elem_of_fmap in Hid as ([k r] & -> & Hin).
    apply elem_of_take in Hin as (m & Hm & _). apply list_elem_of_lookup_2 in Hm.
    apply (iteration_elem _ _ _ _ Hit) in Hm as [Hu Hset]%lookup_matching. by exists r.
Qed.

(** Postgres: one DELETE, which checks the rows it removes. *)
#[export] Instance postgres_durable_table `{SU : !ShowUuid, DS : !DebugStr} worker_id lease :
  DurableTable pg_base true (postgres_table worker_id lease).
Proof.
  intros [c|now ttl batch]; cbn [postgres_table].
  - eapply issues_after_issues; [intros; by apply delivers_keeps|apply postgres_delivers].
  - unfold forget, postgres_retain_states. apply issues_after_bind; [|done].
    apply issues_after_bind; [|done]. split; [|done].
    destruct b as [n|e]; simpl in H; [|subst t'; apply delivers_keeps, delivers_refl].
    destruct H as (ks & (_ & _ & Hks) & _ & ->). intros k r Hk. rewrite lookup_remove_keys.
    case_decide as Hin; [right|left; exists r; split; [done|by left]]. split; [done|].
    exists now, ttl, batch. split; [done|].
    destruct (Hks k Hin) as [r' [Hr' Hset]%lookup_matching]. by simplify_eq.
Qed.

(** Any number of stores working on one table, at any point of their history. *)
Definition follows_diagram {K R E PC W : Type} `{Countable K} (base : R → EffectRow PC)
    (rechecks : bool) (stores : W → table_call → prog (sql K R E) unit) : Prop :=
  ∀ (t : gmap K R) s past rest x k r,
    rtc (step (λ p, ∃ w c, p = stores w c)) (initial t) s →
    db_history s = past ++ rest → path x rest (db_table s) → x !! k = Some r →
    fate base rechecks stores past k r rest s.

(** C27: Durable delivery follows the diagram of the in-memory store, on both databases and
    under every interleaving of concurrent calls, retention included, on Postgres by any
    number of workers with any leases, and whatever the driver fails.  From any point of
    the history on, the row of an accepted effect never changes tenant, type,
    destination, key or payload, its state moves only along the edges of the delivery
    diagram, and once it is succeeded or terminally failed no column of it is written
    again; and it is still in the table unless a retention call has removed it.  On
    Postgres the row removed was settled before that call's cutoff; on Stoolap, where the
    call deletes by identity the rows it selected before, it was so too, unless the call
    had selected that identity, settled, before the point considered. *)
Theorem durable_delivery_follows_diagram `{SU : !ShowUuid, DS : !DebugStr}
    base64_encode base64_decode parse_uuid :
  follows_diagram (λ r, r) false
    (λ _ : (), stoolap_table base64_encode base64_decode parse_uuid) ∧
  follows_diagram pg_base true (λ w : N * Z, postgres_table w.1 w.2).
Proof.
  split; intros t s past rest x k r; apply row_fate; apply _.
Qed.

(** ** Leases *)

(** The argument that tells a call the time; the others read the clock. *)
Definition not_after (e : Z) (c : store_call) : Prop :=
  match c with
  | StateCall (CRecover now) | ClaimDue now _ => (now ≤ e)%Z
  | _ => True
  end.

Definition leased (o : N) (e : Z) (r : PgRow) : Prop :=
  claim_owner r = Some o ∧ claim_expires_at r = Some e.

(** A statement that leaves row [k] as it is. *)
Definition spares (k : N) (r : PgRow) (t t' : gmap N PgRow) : Prop :=
  t !! k = Some r → t' !! k = Some r.

Lemma spares_refl k r t : spares k r t t.
Proof. by intros ?. Qed.

Lemma spares_update k r where_ set t n t' :
  where_ k r = false → update where_ set t = (n, t') → spares k r t t'.
Proof. intros Hw [= _ <-] Hk. by rewrite map_lookup_imap, Hk; simpl; rewrite Hw. Qed.

Section leases.
Context `{SU : !ShowUuid, DS : !DebugStr}.
Context (o w : N) (lease e : Z) (k : N) (r : PgRow).
Hypothesis Hleased : leased o e r.
Hypothesis Hw : w ≠ o.

Lemma other_holds_nothing now : holds_lease w now r = false.
Proof.
  destruct Hleased as [Ho He]. unfold holds_lease, sql_is. rewrite Ho.
  by rewrite bool_decide_eq_false_2 by congruence.
Qed.

Lemma other_cannot_take now : claimable w now r = false.
Proof.
  destruct Hleased as [Ho He]. unfold claimable, sql_is. rewrite Ho. simpl.
  by rewrite bool_decide_eq_false_2 by congruence.
Qed.

Lemma lease_not_over now : (now ≤ e)%Z → sql_lt (claim_expires_at r) now = false.
Proof. destruct Hleased as [Ho ->]. intros ?. simpl. apply bool_decide_eq_false_2. lia. Qed.

Lemma transition_spares id where_ set from to :
  where_ r = false → issues (spares k r) (postgres_transition id where_ set from to).
Proof.
  intros Hr. unfold postgres_transition, transition_with. apply issues_bind.
  - apply issues_stmt; [apply spares_refl|]. intros t b t'. apply spares_update.
    unfold at_key. rewrite Hr. apply andb_false_r.
  - intros [affected|e']; cbn [map_err]; [|done]. case_decide; [done|].
    apply issues_bind; [|done]. unfold postgres_transition_error. apply issues_bind; [|done].
    apply issues_select_state, spares_refl.
Qed.

Lemma store_spares c : not_after e c → issues (spares k r) (postgres_store w lease c).
Proof.
  intros Hc.
  assert (∀ {B} (p : Z → prog (sql N PgRow SqlxError) B),
    (∀ n, issues (spares k r) (p n)) → issues (spares k r) (let! now := clock in p now)) as Hclock.
  { intros B p Hp. apply issues_bind; [apply issues_clock, spares_refl|done]. }
  destruct c as [[effect|id|id|id attempt next_at|id reason|now]|now limit]; cbn [postgres_store];
    unfold forget; (apply issues_bind; [|done]); simpl in Hc.
  - unfold postgres_accept, sql_accept. apply issues_bind.
    + apply issues_stmt; [apply spares_refl|]. intros t b t'. simpl. unfold insert_or_ignore, spares.
      destruct (t !! _) eqn:Hk; intros [= _ <-] Hr; [done|]. rewrite lookup_insert_ne; [done|congruence].
    + intros [affected|e']; cbn [map_err]; [|done]. case_decide; [done|].
      apply issues_bind; [apply issues_select, spares_refl|done].
  - apply Hclock. intros now. apply transition_spares. rewrite other_cannot_take. apply andb_false_r.
  - apply Hclock. intros now. apply Hclock. intros db_now. apply transition_spares.
    rewrite other_holds_nothing. apply andb_false_r.
  - apply Hclock. intros now. apply transition_spares. rewrite other_holds_nothing. apply andb_false_r.
  - apply Hclock. intros now. apply Hclock. intros db_now. apply transition_spares.
    rewrite other_holds_nothing. apply andb_false_r.
  - apply issues_bind; [|done]. apply issues_stmt; [apply spares_refl|]. intros t b t'.
    apply spares_update. rewrite lease_not_over by done. apply andb_false_r.
  - apply issues_bind; [|done]. apply issues_stmt; [apply spares_refl|].
    intros t b t' (ks & (_ & _ & Hks) & -> & _) Hk. rewrite map_lookup_imap, Hk. simpl.
    rewrite decide_False; [done|]. intros Hin. destruct (Hks k Hin) as [r' [Hr' Hd]%lookup_matching].
    simplify_eq. revert Hd. unfold due_for_claim. rewrite lease_not_over by done.
    destruct Hleased as [-> _]. simpl. by rewrite !andb_false_r.
Qed.
End leases.


(** C28: A lease excludes: while worker [o] holds the lease of a row until [e], whatever
    calls the other workers interleave, as long as none of them is told a time after [e],
    the row keeps its lease, its state and its content; and if the effect is in flight, the
    holder's [mark_succeeded] before [e] goes through unless the driver fails, in which
    case nothing changed. *)
Theorem leases_exclude `{SU : !ShowUuid, DS : !DebugStr} (o : N) (e : Z) (id : EffectId)
    (r : PgRow) (t : gmap N PgRow) s :
  t !! effect_uuid id = Some r → claim_owner r = Some o → claim_expires_at r = Some e →
  rtc (step (λ p, ∃ w lease c, w ≠ o ∧ not_after e c ∧ p = postgres_store w lease c)) (initial t) s →
  db_table s !! effect_uuid id = Some r ∧
  ∀ now y a, (now < e)%Z → col_state (pg_base r) = "in_flight" →
    runs (at_time now (postgres_mark_succeeded o id)) [(db_table s, y)] (Ret a) →
    (a = Ok () ∧ y = <[effect_uuid id := mk_pg_row (set_succeeded now (pg_base r)) (Some o) (Some e)
                         (claim_epoch r)]> (db_table s)) ∨
    (y = db_table s ∧ ∃ err, a = Err (postgres_backend_err err)).
Proof.
  intros Hk Ho He Hr.
  assert (db_table s !! effect_uuid id = Some r) as Hs.
  { apply (history_invariant (λ t, t !! effect_uuid id = Some r) _ _ _) with (2 := Hk) (3 := Hr).
    intros p evs q x y (w & lease & c & Hw & Hc & ->) Hruns Hin.
    by eapply (issues_runs _ _ _ _ _ _ (store_spares o w lease e (effect_uuid id) r
      (conj Ho He) Hw c Hc) Hruns). }
  split; [done|]. intros now y a Hnow Hst. cbn. intros ([n|err] & Hm & Ha); cbn in *.
  - left. rewrite update_at, Hs in Hm.
    assert (state_in ["in_flight"] (pg_base r) && holds_lease o now r = true) as Hg.
    { unfold state_in, holds_lease, sql_is. rewrite Hst, Ho, He. cbn.
      by rewrite !bool_decide_eq_true_2 by first [done|lia|set_solver]. }
    rewrite Hg, Ho, He in Hm. simplify_eq. cbn in Ha.
    rewrite decide_True in Ha by done. by injection Ha as ->.
  - right. simplify_eq. eauto.
Qed.

(** ** An expired effect in flight *)

(** [claim_due] leases an effect in flight whose lease has run out to the worker that asks,
    and [reclaim_due] of crates/runtime, effects/runner.rs, then calls [mark_in_flight] on
    each effect it was given.  That call cannot succeed: it accepts only pending and
    retryable effects, whoever makes it and whatever the clock shows, and it changes
    nothing.  So the effect is leased anew, in flight, and not delivered. *)
Lemma expired_in_flight_is_stranded `{SU : !ShowUuid, DS : !DebugStr} (w : N) (lease now e : Z)
    (id : EffectId) (r : PgRow) :
  col_state (pg_base r) = "in_flight" → claim_expires_at r = Some e → (e < now)%Z →
  due_for_claim now r = true ∧
  leased w (now + lease) (stamp w lease now r) ∧ col_state (pg_base (stamp w lease now r)) = "in_flight" ∧
  ∀ w' lease' evs a,
    (∀ x y, (x, y) ∈ evs → ∃ r', x !! effect_uuid id = Some r' ∧ col_state (pg_base r') = "in_flight") →
    runs (postgres_mark_in_flight w' lease' id) evs (Ret a) → a ≠ Ok () ∧ silent evs.
Proof.
  intros Hst He Hlt. split_and!; [|done|done|].
  { unfold due_for_claim, state_in. rewrite Hst, He. cbn.
    rewrite (bool_decide_eq_true_2 (e < now)%Z) by done. apply orb_true_r. }
  intros w' lease' evs a Hevs Hr. unfold postgres_mark_in_flight in Hr.
  apply runs_bind in Hr as (evs1 & evs2 & n & -> & Hc & Hr).
  destruct evs1 as [|[x0 y0] evs1]; [done|]. destruct Hc as (n' & -> & Hc).
  apply runs_ret in Hc as [-> ->].
  unfold postgres_transition, transition_with in Hr.
  apply runs_bind in Hr as (evs1 & evs3 & ans & -> & Hs & Hr).
  destruct evs1 as [|[x y] evs1]; [done|]. destruct Hs as (ans' & Heff & Hs).
  apply runs_ret in Hs as [-> ->].
  assert (ans' = Ok 0%Z ∧ y = x ∨ ∃ err, ans' = Err err ∧ y = x) as Hans.
  { destruct ans' as [m|err]; [left|by eauto]. cbn in Heff. rewrite update_at in Heff.
    destruct (Hevs x y) as (r' & Hx & Hst'); [set_solver|]. rewrite Hx in Heff.
    assert (state_in ["pending"; "retryable_failed"] (pg_base r') = false) as Hno
      by (unfold state_in; by rewrite Hst').
    rewrite Hno in Heff. cbn in Heff. by simplify_eq. }
  assert (silent [(x0, x0); (x, y)]) as Hsil by (destruct Hans as [[_ ->]|(? & _ & ->)]; by repeat constructor).
  destruct Hans as [[-> ->]|(err & -> & ->)]; cbn [map_err] in Hr.
  - rewrite decide_False in Hr by done. apply runs_bind in Hr as (evs4 & evs5 & ex & -> & Hex & Hr).
    apply runs_ret in Hr as [-> ->]. split; [by destruct ex|]. rewrite app_nil_r.
    apply Forall_app. split; [by repeat constructor|]. constructor; [done|].
    apply (Forall_forall _ _). intros [x' y'] Hin. eapply (issues_runs (λ t t', t' = t)) in Hin; [done| |done].
    unfold postgres_transition_error. apply issues_bind; [|done]. by apply issues_select_state.
  - apply runs_ret in Hr as [-> ->]. split; [done|]. done.
Qed.

(** ** Reservations refine the in-memory store *)
Section durable_dedup.
Context {IC PC FC E : Type} `{EqDecision IC, EqDecision FC}.
Context (self : EffectColumns IC PC FC E).
Context `{!Inj (=) (=) (id_column self), !Inj (=) (=) (fingerprint_column self)}.
Abbreviation table := (gmap ScopeKey (DedupRow IC FC)).

Definition row_represents (r : DedupRow IC FC) (rec : ReservationRecord) : Prop :=
  dedup_effect_id r = id_column self (reserved_by rec) ∧
  dedup_fingerprint r = fingerprint_column self (reserved_fingerprint rec) ∧
  dedup_succeeded r = reserved_succeeded rec.

Definition represents (t : table) (ded : gmap DedupScope ReservationRecord) : Prop :=
  ∀ scope, match t !! scope_columns scope, ded !! scope with
           | Some r, Some rec => row_represents r rec
           | None, None => True
           | _, _ => False
           end.

(** A finished call: an error changed nothing; an answer is the one the operation of the
    in-memory store gives at one of the call's own statements, with its effect. *)
Definition refines {A : Type} (evs : list (table * table)) (a : result EffectStoreError A)
    (spec : gmap DedupScope ReservationRecord →
            result EffectStoreError A * gmap DedupScope ReservationRecord) : Prop :=
  match a with
  | Err _ => silent evs
  | Ok out => ∃ x y, at_point evs x y ∧
      ∀ ded, represents x ded → ∃ ded', spec ded = (Ok out, ded') ∧ represents y ded'
  end.

Lemma scope_columns_inj s s' : scope_columns s = scope_columns s' → s = s'.
Proof. destruct s as [[t] e [k]], s' as [[t'] e' [k']]. unfold scope_columns. simpl. by intros [= -> -> ->]. Qed.

Lemma represents_insert t ded scope r rec :
  represents t ded → row_represents r rec →
  represents (<[scope_columns scope := r]> t) (<[scope := rec]> ded).
Proof.
  intros Ht Hr s. destruct (decide (s = scope)) as [->|Hne].
  - by rewrite !lookup_insert_eq.
  - rewrite !lookup_insert_ne; [apply Ht|done|]. intros Heq%scope_columns_inj. by apply Hne.
Qed.

Lemma represents_delete t ded scope :
  represents t ded → represents (delete (scope_columns scope) t) (delete scope ded).
Proof.
  intros Ht s. destruct (decide (s = scope)) as [->|Hne].
  - by rewrite !lookup_delete_eq.
  - rewrite !lookup_delete_ne; [apply Ht|done|]. intros Heq%scope_columns_inj. by apply Hne.
Qed.

Lemma represents_none t ded scope :
  represents t ded → t !! scope_columns scope = None → ded !! scope = None.
Proof. intros Ht Hn. specialize (Ht scope). rewrite Hn in Ht. by destruct (ded !! scope). Qed.

Lemma represents_some t ded scope r :
  represents t ded → t !! scope_columns scope = Some r →
  ∃ rec, ded !! scope = Some rec ∧ row_represents r rec.
Proof.
  intros Ht Hr. specialize (Ht scope). rewrite Hr in Ht.
  destruct (ded !! scope) as [rec|]; [by exists rec|done].
Qed.

Lemma reserve_refines scope id fp evs a :
  runs (sql_reserve self scope id fp) evs (Ret a) → refines evs a (reserve scope id fp).
Proof.
  unfold sql_reserve. intros Hr. apply runs_bind in Hr as (evs1 & evs2 & r & -> & Hi & Hr).
  destruct evs1 as [|[x y] evs1]; [done|]. destruct Hi as (r' & Heff & Hi).
  apply runs_ret in Hi as [-> ->]. destruct r' as [n|e]; cbn [map_err] in Hr.
  2:{ apply runs_ret in Hr as [-> ->]. simpl in Heff. subst y. apply silent_one. }
  simpl in Heff. unfold insert_or_ignore in Heff.
  destruct (x !! scope_columns scope) as [row|] eqn:Hx; simplify_eq.
  2:{ rewrite decide_True in Hr by done. apply runs_ret in Hr as [-> ->]. simpl.
      exists x, (<[scope_columns scope := mk_dedup_row (id_column self id) (fingerprint_column self fp) false None]> x).
      split; [apply (at_point_last []); constructor|]. intros ded Hded. unfold reserve.
      rewrite (represents_none x) by done. eexists. split; [done|]. by apply represents_insert. }
  rewrite decide_False in Hr by done.
  apply runs_bind in Hr as (evs1 & evs3 & r & -> & Hs & Hr). apply runs_ret in Hr as [-> ->].
  destruct evs1 as [|[x' y'] evs1]; [done|]. destruct Hs as (r' & Heff & Hs).
  apply runs_ret in Hs as [-> ->]. rewrite app_nil_r. destruct r' as [rows|e].
  2:{ simpl in Heff. subst y'. by repeat constructor. }
  destruct Heff as [-> (it & Hit%select_at & _ & ->)]. cbn [map_err].
  destruct (x' !! scope_columns scope) as [row'|] eqn:Hx'; subst it; cbn; [|by repeat constructor].
  exists x', x'. split; [apply (at_point_last [(y, y)]), silent_one|]. intros ded Hded.
  destruct (represents_some x' ded scope row') as (rec & Hrec & Hid & Hfp & Hsucc); [done..|].
  unfold reserve. rewrite Hrec, Hid, Hfp, Hsucc. exists ded. split; [|done]. do 2 f_equal.
  destruct (decide (reserved_fingerprint rec = fp)) as [->|Hne].
  - rewrite !(decide_False (P := _ ≠ _)) by naive_solver.
    destruct (decide (reserved_by rec = id)) as [->|Hne]; [by rewrite decide_True|].
    rewrite (decide_False (P := id_column _ _ = _)); [done|]. intros ?%(inj _). done.
  - rewrite !(decide_True (P := _ ≠ _)); [done|..|done]. intros ?%(inj _). done.
Qed.

Lemma commit_success_refines scope evs a :
  runs (sql_commit_success self scope) evs (Ret a) → refines evs a (commit_success scope).
Proof.
  unfold sql_commit_success. intros Hr. apply runs_bind in Hr as (evs1 & evs2 & now & -> & Hc & Hr).
  destruct evs1 as [|[x0 y0] evs1]; [done|]. destruct Hc as (n & -> & Hc).
  apply runs_ret in Hc as [-> ->]. apply runs_bind in Hr as (evs1 & evs3 & r & -> & Hs & Hr).
  apply runs_ret in Hr as [-> ->].
  destruct evs1 as [|[x y] evs1]; [done|]. destruct Hs as (r' & Heff & Hs).
  apply runs_ret in Hs as [-> ->]. rewrite app_nil_r. destruct r' as [k|e].
  2:{ simpl in Heff. subst y. by repeat constructor. }
  cbn in Heff. cbn. rewrite update_at in Heff. exists x, y.
  split; [apply (at_point_last [(x0, x0)]), silent_one|]. intros ded Hded. eexists. split; [done|].
  destruct (x !! scope_columns scope) as [row|] eqn:Hx; simplify_eq.
  - destruct (represents_some x ded scope row) as (rec & -> & Hid & Hfp & _); [done..|].
    by apply represents_insert.
  - by rewrite (represents_none y ded).
Qed.

Lemma release_refines scope evs a :
  runs (sql_release self scope) evs (Ret a) → refines evs a (release scope).
Proof.
  unfold sql_release. intros Hr. apply runs_bind in Hr as (evs1 & evs3 & r & -> & Hs & Hr).
  apply runs_ret in Hr as [-> ->].
  destruct evs1 as [|[x y] evs1]; [done|]. destruct Hs as (r' & Heff & Hs).
  apply runs_ret in Hs as [-> ->]. rewrite app_nil_r. destruct r' as [k|e].
  2:{ simpl in Heff. subst y. by repeat constructor. }
  cbn in Heff. cbn. rewrite delete_at in Heff. exists x, y.
  split; [apply (at_point_last []); constructor|]. intros ded Hded. eexists. split; [done|].
  destruct (x !! scope_columns scope) as [row|] eqn:Hx; simplify_eq.
  - by apply represents_delete.
  - rewrite delete_id; [done|]. by eapply represents_none.
Qed.
End durable_dedup.

(** Durable reservations refine the in-memory ones: on both databases and under any
    interleaving, [reserve], [commit_success] and [release] that answer do so as the
    in-memory operation does at one of the call's own statements, with exactly its effect
    on the table, and calls that fail, also because the row vanished between the insert
    and the lookup, changed nothing. The [uuid] crate's text is a parameter; all that is
    used of it is that different identifiers have different texts. *)
Lemma durable_reservations_refine `{SU : !ShowUuid} base64_encode :
  (∀ a b, show_uuid a = show_uuid b → a = b) →
  let self := stoolap_columns base64_encode in
  (∀ scope id fp evs a,
     runs (stoolap_reserve base64_encode scope id fp) evs (Ret a) →
     refines self evs a (reserve scope id fp)) ∧
  (∀ scope evs a,
     (runs (stoolap_commit_success base64_encode scope) evs (Ret a) →
      refines self evs a (commit_success scope)) ∧
     (runs (stoolap_release base64_encode scope) evs (Ret a) → refines self evs a (release scope))) ∧
  (∀ scope id fp evs a,
     runs (postgres_reserve scope id fp) evs (Ret a) →
     refines postgres_columns evs a (reserve scope id fp)) ∧
  ∀ scope evs a,
    (runs (postgres_commit_success scope) evs (Ret a) →
     refines postgres_columns evs a (commit_success scope)) ∧
    (runs (postgres_release scope) evs (Ret a) →
     refines postgres_columns evs a (release scope)).
Proof.
  intros Hshow.
  assert (Inj (=) (=) (id_column (stoolap_columns base64_encode))) as Hid.
  { intros [a] [b] Hab%Hshow. simpl in Hab. by subst. }
  assert (Inj (=) (=) (fingerprint_column (stoolap_columns base64_encode))) as Hfp.
  { intros [a] [b] Hab%hex_of_inj. by f_equal. }
  assert (Inj (=) (=) (id_column postgres_columns)) as Hid' by by intros [a] [b] [= ->].
  assert (Inj (=) (=) (fingerprint_column postgres_columns)) as Hfp' by by intros [a] [b] [= ->].
  cbn zeta. split_and!; intros;
    try split; first [by apply reserve_refines|by apply commit_success_refines|by apply release_refines].
Qed.

Module Example_effects.
#[local] Instance show : ShowUuid := λ n, pretty.pretty n.
#[local] Instance debug : DebugStr := λ s, s.
Definition id : EffectId := mk_effect_id 7.
Definition row : PgRow :=
  mk_pg_row (mk_effect_row "acme" "email" "smtp" "k-1" [] 0 "in_flight" None None None)
    (Some 1%N) (Some 50%Z) 1.
Definition t : gmap N PgRow := {[ 7%N := row ]}.

Lemma show_inj a b : show a = show b → a = b.
Proof. apply pretty.pretty_N_inj. Qed.

(** Another worker polls at 40 and is given nothing. *)
Lemma polled :
  ∃ s, rtc (step (λ p, ∃ w lease c, w ≠ 1%N ∧ not_after 50 c ∧ p = postgres_store w lease c))
         (initial t) s ∧ db_table s = t.
Proof.
  eexists. split.
  - eapply rtc_l; [apply (step_start _ _ _ _ 0 (postgres_store 2 30 (ClaimDue 40 10)));
      [by exists 2%N, 30%Z, (ClaimDue 40 10)|reflexivity]|].
    eapply rtc_l; [|apply rtc_refl].
    eapply step_command with (i := 0) (b := Ok [] : result SqlxError _); [reflexivity|].
    exists []. split; [|split; reflexivity].
    split; [constructor|]. split; [done|]. intros k Hk. by apply elem_of_nil in Hk.
  - vm_compute. reflexivity.
Qed.

Lemma leases_exclude_witness :
  ∃ s : state N PgRow SqlxError unit, db_table s !! 7%N = Some row ∧
    ∀ y a, runs (at_time 45 (postgres_mark_succeeded 1 id)) [(db_table s, y)] (Ret a) →
      a = Ok () ∨ y = db_table s.
Proof.
  destruct polled as (s & Hs & Ht). exists s.
  destruct (leases_exclude 1 50 id row t s eq_refl eq_refl eq_refl Hs) as [Hrow Hmark].
  split; [exact Hrow|]. intros y a Hr.
  destruct (Hmark 45%Z y a) as [[-> _]|[-> _]]; [lia|reflexivity|exact Hr|by left|by right].
Defined.

(** Retention by worker 2 at 40, keeping what was settled in the last 10: the effect that
    succeeded at 5 goes, the one in flight stays. *)
Definition done_row : PgRow :=
  mk_pg_row (mk_effect_row "acme" "email" "smtp" "k-2" [] 0 "succeeded" None None (Some 5%Z))
    (Some 1%N) (Some 50%Z) 1.
Definition t2 : gmap N PgRow := {[ 7%N := row; 8%N := done_row ]}.

Lemma retained :
  ∃ s, rtc (step (λ p, ∃ (w : N * Z) c, p = postgres_table w.1 w.2 c)) (initial t2) s ∧
    path t2 (db_history s) (db_table s) ∧ db_table s !! 8%N = None ∧
    db_table s !! 7%N = Some row.
Proof.
  eexists. split_and!.
  - eapply rtc_l; [apply (step_start _ _ _ _ 0 (postgres_table 2 30 (Retain 40 10 5)));
      [by exists (2%N, 30%Z), (Retain 40 10 5)|reflexivity]|].
    eapply rtc_l; [|apply rtc_refl].
    eapply step_command with (i := 0) (b := Ok 1%Z : result SqlxError _); [reflexivity|].
    exists [8%N]. split; [|split; reflexivity].
    split; [apply NoDup_singleton|]. split; [done|]. intros k ->%list_elem_of_singleton.
    eexists. vm_compute. reflexivity.
  - apply (path_snoc _ []). apply path_nil.
  - vm_compute. reflexivity.
  - vm_compute. reflexivity.
Qed.

Lemma durable_delivery_follows_diagram_witness :
  ∃ s : state N PgRow SqlxError unit,
    db_table s !! 7%N = Some row ∧ db_table s !! 8%N = None ∧
    ∃ now ttl r', delivered_to pg_base done_row r' ∧
      settled_before (now - ttl) (pg_base r') = true.
Proof.
  destruct retained as (s & Hs & Hp & H8 & H7). exists s. split; [exact H7|]. split; [exact H8|].
  destruct (proj2 (durable_delivery_follows_diagram (λ _, "") (λ _, Err "") (λ _, Err ""))
    t2 s [] (db_history s) t2 8%N done_row Hs eq_refl Hp eq_refl) as [(r' & Hr' & _)|Hgone].
  - rewrite H8 in Hr'. discriminate.
  - destruct Hgone as (_ & i & _ & _ & _ & r' & _ & now & ttl & _ & _ & _ & _ & Hd & _ & _ & Hpu).
    exists now, ttl, r'. split; [exact Hd|]. destruct Hpu as [Hset|[Hno _]]; [exact Hset|].
    discriminate.
Defined.

(** On Stoolap two retention calls may select the same settled effect.  When the first has
    deleted it and the effect is accepted again, the second deletes the new, pending
    row: its DELETE names only the identity. *)
Definition again : AcceptedEffect :=
  mk_accepted id (mk_id "acme") 0 (mk_description (mk_id "k-1") "email" [] "smtp").
Definition settled_effect : EffectRow string :=
  mk_effect_row "acme" "email" "smtp" "k-1" "" 0 "succeeded" None None (Some 5%Z).
Definition call_ (c : table_call) := stoolap_table (λ _, "") (λ _, Err "") (λ _, Err "") c.

Lemma stale_retention_removes_reaccepted :
  ∃ s, rtc (step (λ p, ∃ (_ : ()) c, p = call_ c)) (initial {[ "7" := settled_effect ]}) s ∧
    db_table s = ∅ ∧
    db_calls s !! 2 = Some (call_ (Deliver (StateCall (CAccept again))), Ret ()) ∧
    ∃ y z, last (db_history s) = Some (0, y, z) ∧
      col_state <$> y !! "7" = Some "pending" ∧ z !! "7" = None.
Proof.
  eexists. split_and!.
  - eapply rtc_l; [apply (step_start _ _ _ _ 0 (call_ (Retain 40 10 5)));
      [by exists (), (Retain 40 10 5)|reflexivity]|].
    eapply rtc_l; [apply (step_start _ _ _ _ 1 (call_ (Retain 40 10 5)));
      [by exists (), (Retain 40 10 5)|reflexivity]|].
    eapply rtc_l; [eapply step_command with (i := 0)
      (b := Ok [("7", settled_effect)] : result StoolapError _); [reflexivity|]|].
    { split; [reflexivity|]. exists [("7", settled_effect)].
      split_and!; [vm_compute; apply Permutation_refl|repeat constructor|reflexivity]. }
    eapply rtc_l; [eapply step_command with (i := 1)
      (b := Ok [("7", settled_effect)] : result StoolapError _); [reflexivity|]|].
    { split; [reflexivity|]. exists [("7", settled_effect)].
      split_and!; [vm_compute; apply Permutation_refl|repeat constructor|reflexivity]. }
    eapply rtc_l; [eapply step_command with (i := 1) (b := Ok 1%Z : result StoolapError _);
      [reflexivity|vm_compute; reflexivity]|].
    eapply rtc_l; [apply (step_start _ _ _ _ 2 (call_ (Deliver (StateCall (CAccept again)))));
      [by exists (), (Deliver (StateCall (CAccept again)))|reflexivity]|].
    eapply rtc_l; [eapply step_command with (i := 2) (b := Ok 1%Z : result StoolapError _);
      [reflexivity|vm_compute; reflexivity]|].
    eapply rtc_l; [|apply rtc_refl].
    eapply step_command with (i := 0) (b := Ok 1%Z : result StoolapError _);
      [reflexivity|vm_compute; reflexivity].
  - vm_compute. reflexivity.
  - vm_compute. reflexivity.
  - eexists _, _. split; [reflexivity|]. split; vm_compute; reflexivity.
Qed.

Definition scope : DedupScope := mk_scope (mk_id "acme") "email" (mk_id "k-1").
Definition fp : EffectFingerprint := mk_effect_fingerprint [].
Definition reserved : gmap ScopeKey (DedupRow N (list Byte.byte)) :=
  {[ scope_columns scope := mk_dedup_row 7%N [] false None ]}.

Lemma durable_reservations_refine_witness :
  refines postgres_columns [(∅, reserved)] (Ok Fresh) (reserve scope id fp).
Proof.
  apply (durable_reservations_refine (λ _, "") show_inj).
  exists (Ok 1%Z). split; reflexivity.
Defined.
End Example_effects.
