(* ===== verification/SqlEvents.v ===== *)
(** * Durable event stores

    The event stores and units of work over a database: crates/persistence-stoolap,
    event_sourcing/event_store.rs, and crates/persistence, postgres/event_store.rs.
    Events and receipts are rows that are only ever inserted; an append runs in a
    transaction, a unit of work is a transaction that lives across calls.

    Assumed of the databases is what their documentation says of transactions: what one
    sees of the committed rows lies between those at its beginning (snapshot isolation,
    Stoolap) and those committed now (read committed, Postgres), together with its own;
    its rows become visible all at once when it commits, and only if none of them takes
    an identity a committed row has; a failed statement may have aborted it, so that
    nothing it staged is published; a commit that reports an error may have taken effect,
    unless the error says that it was refused. *)

From stdpp Require Import pretty.
From S2P Require Import Prelude Programs Identity EventStore Drivers.

(** ** Tables and transactions *)
Record EventRow (P : Type) := mk_event_row {
  row_event_type : string;
  row_payload : P;
  row_occurred_at : Z;
  row_operation_key : option string;
}.
Arguments mk_event_row {P} _ _ _ _.
Arguments row_event_type {P} _.
Arguments row_payload {P} _.
Arguments row_occurred_at {P} _.
Arguments row_operation_key {P} _.

Record ReceiptRow := mk_receipt_row {
  row_fingerprint : string;
  row_outcome_kind : string;
  row_version_from : option Z;
  row_version_to : option Z;
}.

Section database.
(** [T] is the column that holds a tenant, [P] a payload's, [E] the driver's errors;
    [refused] tells the errors of a commit that took no effect. *)
Context {T P E : Type} `{Countable T} (refused : E → bool).
Abbreviation Stream := (T * string * string)%type.

Record Db := mk_db {
  db_events : gmap (Stream * Z) (EventRow P);
  db_receipts : gmap (Stream * string) ReceiptRow;
}.
Definition db_empty : Db := mk_db ∅ ∅.
Definition db_union (a b : Db) : Db :=
  mk_db (db_events a ∪ db_events b) (db_receipts a ∪ db_receipts b).
Definition db_sub (a b : Db) : Prop := db_events a ⊆ db_events b ∧ db_receipts a ⊆ db_receipts b.
Definition db_disjoint (a b : Db) : Prop :=
  db_events a ##ₘ db_events b ∧ db_receipts a ##ₘ db_receipts b.

(** COALESCE(MAX(version), 0) over a stream. *)
Definition versions_of (s : Stream) (m : gmap (Stream * Z) (EventRow P)) : list Z :=
  omap (λ kr : Stream * Z * EventRow P, if decide (kr.1.1 = s) then Some kr.1.2 else None)
    (map_to_list m).
Definition max_version (s : Stream) (m : gmap (Stream * Z) (EventRow P)) : Z :=
  foldr Z.max 0%Z (versions_of s m).

Inductive tx_cmd : Type → Type :=
| Begin : tx_cmd (result E unit)
(** The queries of an open transaction are [inside]. *)
| MaxVersion (inside : bool) (s : Stream) : tx_cmd (result E Z)
| InsertEvent (s : Stream) (version : Z) (row : EventRow P) : tx_cmd (result E unit)
| FindReceipt (inside : bool) (k : Stream * string) : tx_cmd (result E (option ReceiptRow))
| InsertReceipt (k : Stream * string) (row : ReceiptRow) : tx_cmd (result E unit)
| InsertReceiptOrIgnore (k : Stream * string) (row : ReceiptRow) : tx_cmd (result E Z)
| SelectEvents (s : Stream) : tx_cmd (result E (list (Z * EventRow P)))
| SelectStreams (scope : T) : tx_cmd (result E (list (string * string)))
| Commit_ : tx_cmd (result E unit)
| Drop : tx_cmd unit.

Record Tx := mk_tx { tx_began : Db; tx_staged : Db }.

(** What a query may see. *)
Definition visible (inside : bool) (db : Db) (tx : option Tx) (seen : Db) : Prop :=
  if inside then
    ∃ x snap, tx = Some x ∧ db_sub (tx_began x) snap ∧ db_sub snap db ∧
      seen = db_union (tx_staged x) snap
  else seen = db.

(** A failed write leaves the transaction as it was, or aborted. *)
Definition write_failed (tx tx' : option Tx) : Prop :=
  tx' = tx ∨ ∃ x, tx = Some x ∧ tx' = Some (mk_tx (tx_began x) db_empty).

Definition staged_event (tx : option Tx) (k : Stream * Z) (row : EventRow P) (tx' : option Tx) : Prop :=
  ∃ x, tx = Some x ∧ db_events (tx_staged x) !! k = None ∧
    tx' = Some (mk_tx (tx_began x)
      (mk_db (<[k := row]> (db_events (tx_staged x))) (db_receipts (tx_staged x)))).
Definition staged_receipt (tx : option Tx) (k : Stream * string) (row : ReceiptRow)
    (tx' : option Tx) : Prop :=
  ∃ x, tx = Some x ∧ db_receipts (tx_staged x) !! k = None ∧
    tx' = Some (mk_tx (tx_began x)
      (mk_db (db_events (tx_staged x)) (<[k := row]> (db_receipts (tx_staged x))))).

Definition published (db : Db) (tx : option Tx) (db' : Db) : Prop :=
  ∃ x, tx = Some x ∧ db_disjoint (tx_staged x) db ∧ db' = db_union (tx_staged x) db.

(** What a command may answer and leave. *)
Definition tx_effect {B} (c : tx_cmd B) (db : Db) (tx : option Tx) : B → Db → option Tx → Prop :=
  match c in tx_cmd B return B → Db → option Tx → Prop with
  | Begin => λ b db' tx', db' = db ∧
      match b with Ok _ => tx' = Some (mk_tx db db_empty) | Err _ => tx' = tx end
  | MaxVersion inside s => λ b db' tx', db' = db ∧ tx' = tx ∧
      match b with
      | Ok n => ∃ seen, visible inside db tx seen ∧ n = max_version s (db_events seen)
      | Err _ => True
      end
  | InsertEvent s version row => λ b db' tx', db' = db ∧
      match b with Ok _ => staged_event tx (s, version) row tx' | Err _ => write_failed tx tx' end
  | FindReceipt inside k => λ b db' tx', db' = db ∧ tx' = tx ∧
      match b with
      | Ok o => ∃ seen, visible inside db tx seen ∧ o = db_receipts seen !! k
      | Err _ => True
      end
  | InsertReceipt k row => λ b db' tx', db' = db ∧
      match b with Ok _ => staged_receipt tx k row tx' | Err _ => write_failed tx tx' end
  | InsertReceiptOrIgnore k row => λ b db' tx', db' = db ∧
      match b with
      | Ok n => (n = 1%Z ∧ staged_receipt tx k row tx') ∨
          (n = 0%Z ∧ tx' = tx ∧ ∃ x, tx = Some x ∧
             is_Some (db_receipts (db_union (tx_staged x) db) !! k))
      | Err _ => write_failed tx tx'
      end
  | SelectEvents s => λ b db' tx', db' = db ∧ tx' = tx ∧
      match b with
      | Ok rows => StronglySorted (λ p q, (p.1 < q.1)%Z) rows ∧
          ∀ n row, (n, row) ∈ rows ↔ db_events db !! (s, n) = Some row
      | Err _ => True
      end
  | SelectStreams scope => λ b db' tx', db' = db ∧ tx' = tx ∧
      match b with
      | Ok ids => StronglySorted (λ p q, pair_le p q ∧ p ≠ q) ids ∧
          ∀ a i, (a, i) ∈ ids ↔ ∃ n, is_Some (db_events db !! ((scope, a, i), n))
      | Err _ => True
      end
  | Commit_ => λ b db' tx', tx' = None ∧
      match b with
      | Ok _ => published db tx db'
      | Err e => db' = db ∨ (refused e = false ∧ published db tx db')
      end
  | Drop => λ _ db' tx', db' = db ∧ tx' = None
  end.
End database.
Arguments Db : clear implicits.
Arguments Db T P {_ _}.
Arguments Tx : clear implicits.
Arguments Tx T P {_ _}.
Arguments tx_cmd : clear implicits.

(** ** What the two stores share *)

(** The host's event type: what [DomainEvent] offers, JSON as [serde_json] writes and
    reads it, and the deserialiser the store was built with. *)
Record Host (Ev J : Type) := mk_host {
  event_type : Ev → string;
  event_payload : Ev → J;
  occurred_at : Ev → Z;
  json_to_string : J → result string string;
  json_from_str : string → result string J;
  deserialize : string → J → Z → result PersistenceError Ev;
}.
Arguments event_type {Ev J} _ _.
Arguments event_payload {Ev J} _ _.
Arguments occurred_at {Ev J} _ _.
Arguments json_to_string {Ev J} _ _.
Arguments json_from_str {Ev J} _ _.
Arguments deserialize {Ev J} _ _ _ _.

Definition OperationKeyError_to_string (e : OperationKeyError) : string :=
  match e with
  | KeyEmpty => "operation_key must not be empty"
  | KeyTooLong => "operation_key must not exceed 255 bytes"
  end.

Definition outcome_columns (o : AggregateOutcome) : string * option Z * option Z :=
  match o with
  | NoEvents => ("no_events", None, None)
  | Events version_from version_to => ("events", Some version_from, Some version_to)
  end.

(** [{:?}] of an optional number. *)
Definition optional_debug (o : option Z) : string :=
  match o with Some n => "Some(" +:+ pretty n +:+ ")" | None => "None" end.

Definition outcome_of `{DS : !DebugStr} (row : ReceiptRow) : result PersistenceError AggregateOutcome :=
  let unreadable := PInternal
    ("a stored receipt carries an outcome this adapter cannot read: kind " +:+
     debug_text (row_outcome_kind row) +:+ ", range " +:+ optional_debug (row_version_from row) +:+
     "..=" +:+ optional_debug (row_version_to row)) in
  match row_version_from row, row_version_to row with
  | None, None => if decide (row_outcome_kind row = "no_events") then Ok NoEvents else Err unreadable
  | Some from, Some to =>
      if decide (row_outcome_kind row = "events") then
        map_err (λ e : AggregateOutcomeError, PInternal
          ("a stored receipt carries an invalid event range: " +:+
           match e with OutcomeInverted => "Inverted" | OutcomeEmpty => "Empty" end))
          (AggregateOutcome_events from to)
      else Err unreadable
  | _, _ => Err unreadable
  end.

Definition receipt_row (receipt : OperationReceipt) : ReceiptRow :=
  let '(kind, from, to) := outcome_columns (receipt_outcome receipt) in
  mk_receipt_row (fingerprint_str (receipt_fingerprint receipt)) kind from to.

Definition receipt_of `{DS : !DebugStr} (aggregate_type aggregate_id : string) (stored_tenant : option string)
    (operation_key : string) (row : ReceiptRow) : result PersistenceError OperationReceipt :=
  outcome ← outcome_of row;
  tenant ← match stored_tenant with
           | Some raw => t ← map_err (λ _, PInternal
               "a stored receipt carries a tenant_id the domain rejects") (id_new TenantTag raw);
               Ok (Some t)
           | None => Ok None
           end;
  key ← map_err (λ e, PInternal ("a stored receipt carries an invalid key: " +:+
    OperationKeyError_to_string e)) (OperationKey_parse operation_key);
  Ok (mk_receipt aggregate_type aggregate_id tenant key (mk_fingerprint (row_fingerprint row)) outcome).

(** The key a loaded event was produced under. *)
Definition with_stored_key `{DS : !DebugStr} {Ev} (event : Ev) (operation_key : option string) :
    result PersistenceError (StoredEvent Ev) :=
  match operation_key with
  | None => Ok (StoredEvent_new event)
  | Some raw =>
      key ← map_err (λ e, PInternal ("stored operation_key " +:+ debug_text raw +:+
        " is not a valid operation key: " +:+ OperationKeyError_to_string e)) (OperationKey_parse raw);
      Ok (with_operation_key (StoredEvent_new event) key)
  end.


(** ** Appending inside a transaction

    Versions are far below [i64::MAX], so that adding to one does not overflow. *)
Section append.
Context {T P E : Type}.
Abbreviation method := (prog (tx_cmd T P E)).
Abbreviation Stream := (T * string * string)%type.

(** The insertions, from version [n] on; [failed] is what the first failure answers. *)
Fixpoint insert_all (s : Stream) (n : Z) (rows : list (EventRow P))
    (failed : E → method (result PersistenceError Z)) : method (result PersistenceError Z) :=
  match rows with
  | [] => Ret (Ok (n - 1)%Z)
  | row :: rows =>
      let! r := exec (InsertEvent s n row) in
      match r with
      | Ok _ => insert_all s (n + 1) rows failed
      | Err e => failed e
      end
  end.

Definition append_in (inside_err : E → PersistenceError) (s : Stream) (expected_version : Z)
    (rows : list (EventRow P)) (failed : E → method (result PersistenceError Z)) :
    method (result PersistenceError Z) :=
  let! r := exec (MaxVersion true s) in
  match map_err inside_err r with
  | Err e => Ret (Err e)
  | Ok current =>
      if decide (current ≠ expected_version)
      then Ret (Err (Conflict (join_id s.1.2 s.2) expected_version current))
      else insert_all s (current + 1) rows failed
  end.
End append.

(** ** Stoolap *)
Section stoolap.
Context `{DS : !DebugStr} {Ev J : Type} (host : Host Ev J).
Abbreviation method := (prog (tx_cmd string string StoolapError)).

Definition to_event_row (stored : StoredEvent Ev) : result PersistenceError (EventRow string) :=
  payload ← map_err PInternal (json_to_string host (event_payload host (stored_event stored)));
  Ok (mk_event_row (event_type host (stored_event stored)) payload
        (occurred_at host (stored_event stored)) (key_str <$> stored_operation_key stored)).

Definition read_max_version (s : string * string * string) : method (result PersistenceError Z) :=
  let! r := exec (MaxVersion false s) in Ret (map_err internal_err r).

Definition append_into_tx (s : string * string * string) (expected_version : Z)
    (rows : list (EventRow string)) : method (result PersistenceError Z) :=
  append_in internal_err s expected_version rows (λ e, Ret (Err (internal_err e))).

Definition stoolap_append (aggregate_type aggregate_id : string) (tenant_id : option string)
    (expected_version : Z) (events : list (StoredEvent Ev)) : method (result PersistenceError Z) :=
  match (resolved ← resolve_tenant tenant_id; rows ← collect_results to_event_row events;
         Ok (resolved, rows)) with
  | Err e => Ret (Err e)
  | Ok (resolved, rows) =>
      let s := (encode_tenant resolved, aggregate_type, aggregate_id) in
      let! r := exec Begin in
      match r with
      | Err e => Ret (Err (internal_err e))
      | Ok _ =>
          let! r := append_into_tx s expected_version rows in
          match r with
          | Err e => exec Drop;; Ret (Err e)
          | Ok new_version =>
              let! r := exec Commit_ in
              match r with
              | Ok _ => Ret (Ok new_version)
              | Err e =>
                  if is_write_conflict e then
                    let! r := read_max_version s in
                    Ret (actual ← r;
                         Err (Conflict (join_id aggregate_type aggregate_id) expected_version actual))
                  else Ret (Err (internal_err e))
              end
          end
      end
  end.

Definition stoolap_load (aggregate_type aggregate_id : string) (tenant_id : option string) :
    method (result PersistenceError (list (StoredEvent Ev))) :=
  match resolve_tenant tenant_id with
  | Err e => Ret (Err e)
  | Ok resolved =>
      let! r := exec (SelectEvents (encode_tenant resolved, aggregate_type, aggregate_id)) in
      Ret (rows ← map_err internal_err r;
           if decide (rows = []) then Err (NotFound (join_id aggregate_type aggregate_id))
           else collect_results (λ p : Z * EventRow string,
             value ← map_err PInternal (json_from_str host (row_payload p.2));
             event ← deserialize host (row_event_type p.2) value (row_occurred_at p.2);
             with_stored_key event (row_operation_key p.2)) rows)
  end.

Definition stoolap_list_aggregate_ids (tenant_id : option string) :
    method (result PersistenceError (list (string * string))) :=
  match resolve_tenant tenant_id with
  | Err e => Ret (Err e)
  | Ok resolved =>
      let! r := exec (SelectStreams (encode_tenant resolved)) in Ret (map_err internal_err r)
  end.

Definition stoolap_find_receipt (aggregate_type aggregate_id : string) (tenant_id : option string)
    (operation_key : string) : method (result PersistenceError (option OperationReceipt)) :=
  match resolve_tenant tenant_id with
  | Err e => Ret (Err e)
  | Ok resolved =>
      let! r := exec (FindReceipt false
        ((encode_tenant resolved, aggregate_type, aggregate_id), operation_key)) in
      Ret (found ← map_err internal_err r;
           match found with
           | None => Ok None
           | Some row =>
               receipt ← receipt_of aggregate_type aggregate_id resolved operation_key row;
               Ok (Some receipt)
           end)
  end.

Definition stoolap_begin : method (result PersistenceError unit) :=
  let! r := exec Begin in Ret (map_err internal_err r).

Definition stoolap_uow_append (aggregate_type aggregate_id : string) (tenant_id : option string)
    (expected_version : Z) (events : list (StoredEvent Ev)) : method (result PersistenceError Z) :=
  match (resolved ← resolve_tenant tenant_id; rows ← collect_results to_event_row events;
         Ok (resolved, rows)) with
  | Err e => Ret (Err e)
  | Ok (resolved, rows) =>
      append_into_tx (encode_tenant resolved, aggregate_type, aggregate_id) expected_version rows
  end.

Definition confirm_receipt_in_tx (k : string * string * string * string) (row : ReceiptRow) :
    method (result PersistenceError unit) :=
  let! r := exec (FindReceipt true k) in
  match map_err internal_err r with
  | Err e => Ret (Err e)
  | Ok (Some existing) =>
      Ret (if decide (row_fingerprint existing = row_fingerprint row) then Ok ()
           else Err (Conflict (join_id k.1.1.2 k.1.2) 0 0))
  | Ok None =>
      let! r := exec (InsertReceipt k row) in Ret (map_err internal_err r)
  end.

Definition stoolap_confirm_receipt (receipt : OperationReceipt) :
    method (result PersistenceError unit) :=
  confirm_receipt_in_tx
    ((encode_tenant (id_str <$> receipt_tenant receipt), receipt_aggregate_type receipt,
      receipt_aggregate_id receipt), key_str (receipt_operation_key receipt))
    (receipt_row receipt).

Definition stoolap_commit : method (result PersistenceError unit) :=
  let! r := exec Commit_ in Ret (map_err internal_err r).
End stoolap.

(** ** Postgres *)
Section postgres.
Context `{DS : !DebugStr} {Ev J : Type} (host : Host Ev J).
Abbreviation method := (prog (tx_cmd (option string) J SqlxError)).
Abbreviation PgStream := (option string * string * string)%type.

Definition pg_err (what : string) (e : SqlxError) : PersistenceError :=
  PInternal (what +:+ sqlx_text e).

Definition pg_event_row (stored : StoredEvent Ev) : EventRow J :=
  mk_event_row (event_type host (stored_event stored)) (event_payload host (stored_event stored))
    (occurred_at host (stored_event stored)) (key_str <$> stored_operation_key stored).

(** A failed insert: a taken identity is a conflict with the version the stream has now, read
    outside the transaction; [before] drops it when the call owns it. *)
Definition insert_failed (before : method unit) (s : PgStream) (expected_version : Z)
    (e : SqlxError) : method (result PersistenceError Z) :=
  if is_identity_collision e then
    before;;
    let! r := exec (MaxVersion false s) in
    Ret (actual ← map_err (λ read_back, PInternal
           ("the stream identity was already taken (" +:+ sqlx_text e +:+
            "), and re-reading the stream to report its current version also failed: "
            +:+ sqlx_text read_back)) r;
         Err (Conflict (join_id s.1.2 s.2) expected_version actual))
  else Ret (Err (pg_err "failed to insert event: " e)).

Definition postgres_append (aggregate_type aggregate_id : string) (tenant_id : option string)
    (expected_version : Z) (events : list (StoredEvent Ev)) : method (result PersistenceError Z) :=
  match resolve_tenant tenant_id with
  | Err e => Ret (Err e)
  | Ok tenant =>
      let s := (tenant, aggregate_type, aggregate_id) in
      let! r := exec Begin in
      match r with
      | Err e => Ret (Err (pg_err "failed to begin transaction: " e))
      | Ok _ =>
          let! r := append_in (pg_err "failed to query current version: ") s expected_version
                      (pg_event_row <$> events) (insert_failed (exec Drop) s expected_version) in
          match r with
          | Err e => exec Drop;; Ret (Err e)
          | Ok new_version =>
              let! r := exec Commit_ in
              Ret (_ ← map_err (pg_err "failed to commit transaction: ") r; Ok new_version)
          end
      end
  end.

Definition postgres_load (aggregate_type aggregate_id : string) (tenant_id : option string) :
    method (result PersistenceError (list (StoredEvent Ev))) :=
  match resolve_tenant tenant_id with
  | Err e => Ret (Err e)
  | Ok tenant =>
      let! r := exec (SelectEvents (tenant, aggregate_type, aggregate_id)) in
      Ret (rows ← map_err (pg_err "failed to query events: ") r;
           if decide (rows = []) then Err (NotFound (join_id aggregate_type aggregate_id))
           else collect_results (λ p : Z * EventRow J,
             event ← deserialize host (row_event_type p.2) (row_payload p.2) (row_occurred_at p.2);
             with_stored_key event (row_operation_key p.2)) rows)
  end.

Definition postgres_list_aggregate_ids (tenant_id : option string) :
    method (result PersistenceError (list (string * string))) :=
  match resolve_tenant tenant_id with
  | Err e => Ret (Err e)
  | Ok tenant =>
      let! r := exec (SelectStreams tenant) in
      Ret (map_err (pg_err "failed to query aggregate ids: ") r)
  end.

Definition postgres_find_receipt (aggregate_type aggregate_id : string) (tenant_id : option string)
    (operation_key : string) : method (result PersistenceError (option OperationReceipt)) :=
  match resolve_tenant tenant_id with
  | Err e => Ret (Err e)
  | Ok tenant =>
      let! r := exec (FindReceipt false ((tenant, aggregate_type, aggregate_id), operation_key)) in
      Ret (found ← map_err (pg_err "failed to read receipt: ") r;
           match found with
           | None => Ok None
           | Some row =>
               receipt ← receipt_of aggregate_type aggregate_id tenant operation_key row;
               Ok (Some receipt)
           end)
  end.

Definition postgres_begin : method (result PersistenceError unit) :=
  let! r := exec Begin in Ret (map_err (pg_err "failed to begin transaction: ") r).

Definition postgres_uow_append (aggregate_type aggregate_id : string) (tenant_id : option string)
    (expected_version : Z) (events : list (StoredEvent Ev)) : method (result PersistenceError Z) :=
  match resolve_tenant tenant_id with
  | Err e => Ret (Err e)
  | Ok tenant =>
      let s := (tenant, aggregate_type, aggregate_id) in
      append_in (pg_err "failed to query current version: ") s expected_version
        (pg_event_row <$> events) (insert_failed (Ret ()) s expected_version)
  end.

Definition postgres_confirm_receipt (receipt : OperationReceipt) :
    method (result PersistenceError unit) :=
  let k := ((id_str <$> receipt_tenant receipt, receipt_aggregate_type receipt,
             receipt_aggregate_id receipt), key_str (receipt_operation_key receipt)) in
  let! r := exec (InsertReceiptOrIgnore k (receipt_row receipt)) in
  match map_err (pg_err "failed to write receipt: ") r with
  | Err e => Ret (Err e)
  | Ok affected =>
      if decide (0 < affected)%Z then Ret (Ok ())
      else
        let! r := exec (FindReceipt true k) in
        Ret (existing ← map_err (pg_err "failed to read the winning receipt: ") r;
             match existing with
             | Some stored =>
                 if decide (row_fingerprint stored = fingerprint_str (receipt_fingerprint receipt))
                 then Ok ()
                 else Err (Conflict (join_id (receipt_aggregate_type receipt)
                                       (receipt_aggregate_id receipt)) 0 0)
             | None => Err (PInternal ("a receipt insert conflicted with a row the equivalent lookup "
                 +:+ "cannot find; the write and read identities disagree"))
             end)
  end.

Definition postgres_commit : method (result PersistenceError unit) :=
  let! r := exec Commit_ in Ret (map_err (pg_err "failed to commit transaction: ") r).
End postgres.

(** ** Streams without gaps *)
Section streams.
Context {T P : Type} `{Countable T}.
Abbreviation Stream := (T * string * string)%type.
Abbreviation rows_table := (gmap (Stream * Z) (EventRow P)).
Implicit Types (m : rows_table) (s : Stream).

(** The versions of every stream are 1 up to some number. *)
Definition gapless m : Prop :=
  ∀ s n, is_Some (m !! (s, n)) → (1 ≤ n)%Z ∧ (n = 1%Z ∨ is_Some (m !! (s, (n - 1)%Z))).

Lemma elem_of_versions s m n : n ∈ versions_of s m ↔ is_Some (m !! (s, n)).
Proof.
  unfold versions_of. rewrite list_elem_of_omap. split.
  - intros ([[s' n'] r] & Hin%elem_of_map_to_list & Heq). simpl in Heq. case_decide; simplify_eq. eauto.
  - intros [r Hr]. exists ((s, n), r). simpl. rewrite decide_True by done.
    by rewrite elem_of_map_to_list.
Qed.

Lemma foldr_max_spec (l : list Z) :
  (0 ≤ foldr Z.max 0 l)%Z ∧ (foldr Z.max 0 l = 0 ∨ foldr Z.max 0 l ∈ l)%Z ∧
  ∀ n, n ∈ l → (n ≤ foldr Z.max 0 l)%Z.
Proof.
  induction l as [|x l (H0 & Hin & Hle)]; simpl.
  { split_and!; [done|by left|]. by intros n ?%elem_of_nil. }
  split_and!; [lia| |].
  - destruct (Z.max_spec x (foldr Z.max 0%Z l)) as [[_ ->]|[_ ->]]; set_solver.
  - intros n [->|Hn]%elem_of_cons; [lia|]. specialize (Hle n Hn). lia.
Qed.

Lemma max_stored_version_spec s m :
  (0 ≤ max_version s m)%Z ∧ (max_version s m = 0 ∨ is_Some (m !! (s, max_version s m)))%Z ∧
  ∀ n, is_Some (m !! (s, n)) → (n ≤ max_version s m)%Z.
Proof.
  destruct (foldr_max_spec (versions_of s m)) as (H0 & Hin & Hle). split_and!; [done| |].
  - destruct Hin as [?|?]; [by left|right]. by apply elem_of_versions.
  - intros n Hn. apply Hle. by apply elem_of_versions.
Qed.

Lemma gapless_below m s n : gapless m → is_Some (m !! (s, n)) → ∀ k, (1 ≤ k ≤ n)%Z → is_Some (m !! (s, k)).
Proof.
  intros Hm Hn k Hk. remember (Z.to_nat (n - k)) as d eqn:Hd. revert n Hn Hk Hd.
  induction d as [|d IH]; intros n Hn Hk Hd.
  { by replace k with n by lia. }
  destruct (Hm s n Hn) as [_ [->|Hp]]; [lia|]. apply (IH (n - 1)%Z); [done|lia|lia].
Qed.

(** A stream holds a version exactly up to its maximum. *)
Lemma gapless_versions m s n :
  gapless m → is_Some (m !! (s, n)) ↔ (1 ≤ n ≤ max_version s m)%Z.
Proof.
  intros Hm. destruct (max_stored_version_spec s m) as (H0 & Hmax & Hle). split.
  - intros Hn. split; [by apply (Hm s n)|by apply Hle].
  - intros Hn. destruct Hmax as [?|?]; [lia|]. by eapply gapless_below.
Qed.

Lemma max_version_unique m s v :
  gapless m → (0 ≤ v)%Z → (v = 0 ∨ is_Some (m !! (s, v)))%Z → m !! (s, (v + 1)%Z) = None →
  max_version s m = v.
Proof.
  intros Hm Hv Hin Hout. destruct (Z_lt_ge_dec v (max_version s m)).
  - assert (is_Some (m !! (s, (v + 1)%Z))) as [? Hs] by (apply gapless_versions; [done|lia]).
    by rewrite Hout in Hs.
  - destruct (max_stored_version_spec s m) as (H0 & _ & Hle). destruct Hin as [->|Hin]; [lia|].
    specialize (Hle v Hin). lia.
Qed.

(** The events of a stream in order. *)
Definition stream_rows s m : list (EventRow P) :=
  omap (λ n, m !! (s, n)) (seqZ 1 (max_version s m)).

Lemma length_stream_rows s m : gapless m → Z.of_nat (length (stream_rows s m)) = max_version s m.
Proof.
  intros Hm. destruct (max_stored_version_spec s m) as (H0 & _). unfold stream_rows.
  assert (∀ l : list Z, (∀ n, n ∈ l → is_Some (m !! (s, n))) →
    length (omap (λ n, m !! (s, n)) l) = length l) as Hl.
  { induction l as [|n l IH]; intros Hn; [done|]. simpl. destruct (Hn n) as [r ->]; [set_solver|].
    simpl. f_equal. apply IH. set_solver. }
  rewrite Hl, length_seqZ; [lia|]. intros n Hn%elem_of_seqZ. apply gapless_versions; [done|lia].
Qed.

(** The rows of one append, from version [n] on. *)
Fixpoint batch s (n : Z) (rows : list (EventRow P)) : rows_table :=
  match rows with
  | [] => ∅
  | row :: rows => <[(s, n) := row]> (batch s (n + 1) rows)
  end.

Lemma lookup_batch s n rows s' k :
  batch s n rows !! (s', k) =
  if decide (s' = s ∧ n ≤ k)%Z then rows !! Z.to_nat (k - n) else None.
Proof.
  revert n. induction rows as [|row rows IH]; intros n; simpl.
  { rewrite lookup_empty. by case_decide. }
  destruct (decide ((s', k) = (s, n))) as [[= -> ->]|Hne].
  - rewrite lookup_insert_eq, decide_True by (split; [done|lia]). by rewrite Z.sub_diag.
  - rewrite lookup_insert_ne, IH by congruence.
    destruct (decide (s' = s ∧ n + 1 ≤ k)%Z) as [[-> Hk]|Hn].
    + rewrite decide_True by (split; [done|lia]). by replace (Z.to_nat (k - n)) with (S (Z.to_nat (k - (n + 1)))) by lia.
    + rewrite decide_False; [done|]. intros [-> Hk]. apply Hn. split; [done|].
      assert (k ≠ n) by congruence. lia.
Qed.

Lemma batch_is_Some s n rows s' k :
  is_Some (batch s n rows !! (s', k)) ↔ s' = s ∧ (n ≤ k < n + Z.of_nat (length rows))%Z.
Proof.
  rewrite lookup_batch. case_decide as Hd.
  - rewrite lookup_lt_is_Some. naive_solver lia.
  - split; [by intros [? ?]|]. naive_solver lia.
Qed.

Lemma omap_ext_in {A B} (f g : A → option B) (l : list A) :
  (∀ x, x ∈ l → f x = g x) → omap f l = omap g l.
Proof. intros Hfg. apply list_omap_ext, Forall_Forall2_diag, Forall_forall, Hfg. Qed.

Lemma omap_batch s n rows :
  omap (λ k, batch s n rows !! (s, k)) (seqZ n (Z.of_nat (length rows))) = rows.
Proof.
  revert n. induction rows as [|row rows IH]; intros n; [done|].
  rewrite seqZ_cons by (simpl; lia). simpl. rewrite lookup_insert_eq. f_equal.
  replace (Z.pred (Z.of_nat (S (length rows)))) with (Z.of_nat (length rows)) by lia.
  change (Z.succ n) with (n + 1)%Z. etrans; [|apply (IH (n + 1)%Z)].
  apply omap_ext_in. intros k Hk%elem_of_seqZ.
  rewrite lookup_insert_ne; [done|]. intros [=]. lia.
Qed.

Section one_append.
Context (s : Stream) (rows : list (EventRow P)) (m : rows_table).
Hypothesis Hm : gapless m.
Let v : Z := max_version s m.
Let b : rows_table := batch s (v + 1) rows.
Hypothesis Hdis : b ##ₘ m.

Lemma appended_is_Some s' k :
  is_Some ((b ∪ m) !! (s', k)) ↔
  (s' = s ∧ (v < k ≤ v + Z.of_nat (length rows))%Z) ∨ is_Some (m !! (s', k)).
Proof. rewrite lookup_union_is_Some. unfold b. rewrite batch_is_Some. naive_solver lia. Qed.

Lemma appended_gapless : gapless (b ∪ m).
Proof.
  pose proof (max_stored_version_spec s m) as (H0 & _). fold v in H0.
  intros s' k. rewrite !appended_is_Some. intros [[-> Hk]|Hk].
  - split; [lia|]. destruct (decide (k = v + 1)%Z) as [->|]; [|right; left; split; [done|lia]].
    destruct (decide (v = 0)%Z) as [Hv|]; [left; lia|right; right].
    replace (v + 1 - 1)%Z with v by lia. apply gapless_versions; [done|]. fold v. lia.
  - destruct (Hm s' k Hk) as [? [?|?]]; auto.
Qed.

Lemma appended_max : max_version s (b ∪ m) = (v + Z.of_nat (length rows))%Z.
Proof.
  pose proof (max_stored_version_spec s m) as (H0 & Hmax & _). fold v in H0, Hmax.
  apply max_version_unique; [apply appended_gapless|lia| |].
  - rewrite appended_is_Some. destruct rows as [|row rows']; simpl.
    + rewrite Z.add_0_r. tauto.
    + right. left. split; [done|lia].
  - apply eq_None_not_Some. rewrite appended_is_Some. intros [[_ ?]|Hk]; [lia|].
    apply gapless_versions in Hk; [|done]. fold v in Hk. lia.
Qed.

(** The stream grows by the rows, no other stream changes. *)
Lemma appended_rows : stream_rows s (b ∪ m) = stream_rows s m ++ rows.
Proof.
  pose proof (max_stored_version_spec s m) as (H0 & _). fold v in H0.
  unfold stream_rows. rewrite appended_max. fold v. rewrite seqZ_app, omap_app by lia. f_equal.
  - apply omap_ext_in. intros k Hk%elem_of_seqZ. rewrite lookup_union_r; [done|].
    unfold b. rewrite lookup_batch, decide_False; [done|lia].
  - rewrite (Z.add_comm 1). etrans; [|apply (omap_batch s (v + 1))]. apply omap_ext_in.
    intros k Hk%elem_of_seqZ. apply lookup_union_l, eq_None_not_Some. intros Hs.
    apply gapless_versions in Hs; [|done]. fold v in Hs. lia.
Qed.

Lemma appended_others s' : s' ≠ s → stream_rows s' (b ∪ m) = stream_rows s' m.
Proof.
  intros Hne. assert (∀ k, (b ∪ m) !! (s', k) = m !! (s', k)) as Hsame.
  { intros k. apply lookup_union_r. unfold b. rewrite lookup_batch, decide_False; [done|naive_solver]. }
  unfold stream_rows. assert (max_version s' (b ∪ m) = max_version s' m) as ->.
  { pose proof (max_stored_version_spec s' m) as (H0 & Hmax & _).
    apply max_version_unique; [apply appended_gapless|done|by rewrite Hsame|].
    rewrite Hsame. apply eq_None_not_Some. intros Hs. apply gapless_versions in Hs; [|done]. lia. }
  apply omap_ext_in. intros k _. apply Hsame.
Qed.
End one_append.
End streams.

(** ** Concurrent calls and units of work *)

(** The methods of the store, and those of a unit of work. *)
Inductive direct_call (Ev : Type) :=
| Append (a i : string) (t : option string) (v : Z) (events : list (StoredEvent Ev))
| Load (a i : string) (t : option string)
| ListIds (t : option string)
| Find (a i : string) (t : option string) (operation_key : string).
Arguments Append {Ev} _ _ _ _ _.
Arguments Load {Ev} _ _ _.
Arguments ListIds {Ev} _.
Arguments Find {Ev} _ _ _ _.

Inductive uow_call (Ev : Type) :=
| UowAppend (a i : string) (t : option string) (v : Z) (events : list (StoredEvent Ev))
| UowConfirm (receipt : OperationReceipt).
Arguments UowAppend {Ev} _ _ _ _ _.
Arguments UowConfirm {Ev} _.

Definition void {cmd A} (p : prog cmd A) : prog cmd unit := let! _ := p in Ret ().

(** A store: its methods as programs.  A unit of work tells its client the version reached,
    if any. *)
Record EventsStore (T P E Ev : Type) := mk_events_store {
  run_direct : direct_call Ev → prog (tx_cmd T P E) unit;
  run_begin : prog (tx_cmd T P E) (result PersistenceError unit);
  run_uow : uow_call Ev → prog (tx_cmd T P E) (result PersistenceError Z);
  run_commit : prog (tx_cmd T P E) (result PersistenceError unit);
}.
Arguments run_direct {T P E Ev} _ _.
Arguments run_begin {T P E Ev} _.
Arguments run_uow {T P E Ev} _ _.
Arguments run_commit {T P E Ev} _.

Definition unit_version {E} (r : result E unit) : result E Z := _ ← r; Ok 0%Z.

Definition stoolap_events `{DS : !DebugStr} {Ev J} (host : Host Ev J) :
    EventsStore string string StoolapError Ev :=
  mk_events_store string string StoolapError Ev
    (λ c, match c with
          | Append a i t v events => void (stoolap_append host a i t v events)
          | Load a i t => void (stoolap_load host a i t)
          | ListIds t => void (stoolap_list_aggregate_ids t)
          | Find a i t k => void (stoolap_find_receipt a i t k)
          end)
    stoolap_begin
    (λ c, match c with
          | UowAppend a i t v events => stoolap_uow_append host a i t v events
          | UowConfirm receipt => let! r := stoolap_confirm_receipt receipt in Ret (unit_version r)
          end)
    stoolap_commit.

Definition postgres_events `{DS : !DebugStr} {Ev J} (host : Host Ev J) :
    EventsStore (option string) J SqlxError Ev :=
  mk_events_store (option string) J SqlxError Ev
    (λ c, match c with
          | Append a i t v events => void (postgres_append host a i t v events)
          | Load a i t => void (postgres_load host a i t)
          | ListIds t => void (postgres_list_aggregate_ids t)
          | Find a i t k => void (postgres_find_receipt a i t k)
          end)
    postgres_begin
    (λ c, match c with
          | UowAppend a i t v events => postgres_uow_append host a i t v events
          | UowConfirm receipt => let! r := postgres_confirm_receipt receipt in Ret (unit_version r)
          end)
    postgres_commit.

Section system.
Context {T P E Ev : Type} `{Countable T} (refused : E → bool) (store : EventsStore T P E Ev).
Abbreviation Stream := (T * string * string)%type.

(** What a client does with a unit of work: it decides by what it was told, and at the end
    commits or lets go of it. *)
Inductive uow_body : prog (tx_cmd T P E) unit → Prop :=
| body_abandon : uow_body (exec Drop)
| body_call c k : (∀ r, uow_body (k r)) → uow_body (let! r := run_uow store c in k r)
| body_commit : uow_body (void (run_commit store)).

Inductive offered : prog (tx_cmd T P E) unit → Prop :=
| offered_direct c : offered (run_direct store c)
| offered_uow body :
    uow_body body →
    offered (let! r := run_begin store in match r with Ok _ => body | Err _ => Ret () end).

(** The committed rows, and the running calls with the transaction each has open. *)
Record system := mk_system {
  sys_db : Db T P;
  sys_calls : gmap nat (prog (tx_cmd T P E) unit * option (Tx T P));
}.

Inductive sys_step : system → system → Prop :=
| sys_start db calls i p :
    offered p → calls !! i = None →
    sys_step (mk_system db calls) (mk_system db (<[i := (p, None)]> calls))
| sys_command db calls i B (c : tx_cmd T P E B) k tx b db' tx' :
    calls !! i = Some (Do c k, tx) → tx_effect refused c db tx b db' tx' →
    sys_step (mk_system db calls) (mk_system db' (<[i := (k b, tx')]> calls)).

(** *** What a call has learned

    The monitor of [Programs] records versions the call knows to be there: committed, or
    staged in its transaction. *)
Abbreviation known := (gset (Stream * Z)).

Definition ev_allowed (m : known) (B : Type) (c : tx_cmd T P E B) : Prop :=
  match c with
  | InsertEvent s n _ => (1 ≤ n)%Z ∧ (n = 1%Z ∨ (s, (n - 1)%Z) ∈ m)
  | _ => True
  end.

Definition ev_observe (m : known) (B : Type) (c : tx_cmd T P E B) : B → known :=
  match c in tx_cmd _ _ _ B return B → known with
  | MaxVersion true s => λ b, match b with
      | Ok n => if decide (0 < n)%Z then {[(s, n)]} ∪ m else m
      | Err _ => m
      end
  | InsertEvent s n _ => λ b, match b with Ok _ => {[(s, n)]} ∪ m | Err _ => ∅ end
  | InsertReceipt _ _ => λ b, match b with Ok _ => m | Err _ => ∅ end
  | InsertReceiptOrIgnore _ _ => λ b, match b with Ok _ => m | Err _ => ∅ end
  | Begin => λ _, ∅
  | Commit_ => λ _, ∅
  | Drop => λ _, ∅
  | MaxVersion false _ => λ _, m
  | FindReceipt _ _ => λ _, m
  | SelectEvents _ => λ _, m
  | SelectStreams _ => λ _, m
  end.

Definition ev_answers (B : Type) (c : tx_cmd T P E B) : B → Prop :=
  match c in tx_cmd _ _ _ B return B → Prop with
  | MaxVersion _ _ => λ b, match b with Ok n => (0 ≤ n)%Z | Err _ => True end
  | _ => λ _, True
  end.

(** The program inserts only versions whose predecessor it knows. *)
Definition careful {A} (p : prog (tx_cmd T P E) A) (m : known) : Prop :=
  wp ev_allowed ev_observe ev_answers p m (λ _ _, True).

Definition tx_rows (tx : option (Tx T P)) : gmap (Stream * Z) (EventRow P) :=
  match tx with Some x => db_events (tx_staged x) | None => ∅ end.

(** What a call knows is there, and what it staged continues what is there. *)
Definition call_ok (db : Db T P) (tx : option (Tx T P)) (m : known) : Prop :=
  (∀ s n, (s, n) ∈ m → is_Some ((tx_rows tx ∪ db_events db) !! (s, n))) ∧
  (∀ s n, is_Some (tx_rows tx !! (s, n)) →
    (1 ≤ n)%Z ∧ (n = 1%Z ∨ is_Some ((tx_rows tx ∪ db_events db) !! (s, (n - 1)%Z)))).

Definition sys_ok (s : system) : Prop :=
  gapless (db_events (sys_db s)) ∧
  ∀ i p tx, sys_calls s !! i = Some (p, tx) → ∃ m, call_ok (sys_db s) tx m ∧ careful p m.
End system.

(** What a store promises: every method is careful, whatever it knew before. *)
Class CarefulEvents {T P E Ev : Type} `{Countable T} (store : EventsStore T P E Ev) : Prop := {
  careful_direct c m : careful (run_direct store c) m;
  careful_begin m : careful (run_begin store) m;
  careful_uow c m : careful (run_uow store c) m;
  careful_commit m : careful (run_commit store) m;
}.

Section careful_programs.
Context {T P E : Type} `{Countable T}.
Abbreviation Stream := (T * string * string)%type.

Lemma careful_bind {A B} (p : prog (tx_cmd T P E) A) (f : A → prog (tx_cmd T P E) B) m :
  careful p m → (∀ a m', careful (f a) m') → careful (bind p f) m.
Proof. intros Hp Hf. apply wp_bind. eapply wp_mono, Hp. intros a m' _. apply Hf. Qed.

Lemma careful_exec {B} (c : tx_cmd T P E B) m :
  (match c with InsertEvent _ _ _ => False | _ => True end) → careful (exec c) m.
Proof. intros Hc. split; [by destruct c|done]. Qed.

Lemma careful_insert_all (s : Stream) n rows failed m :
  (1 ≤ n)%Z → (n = 1%Z ∨ (s, (n - 1)%Z) ∈ m) → (∀ e m', careful (failed e) m') →
  careful (P := P) (E := E) (insert_all s n rows failed) m.
Proof.
  intros Hn Hm Hf. revert n m Hn Hm. induction rows as [|row rows IH]; intros n m Hn Hm; [done|].
  cbn [insert_all]. apply wp_bind, wp_exec; [done|]. intros [[]|e] _; [|apply Hf].
  apply IH; [lia|]. right. cbn. replace (n + 1 - 1)%Z with n by lia. set_solver.
Qed.

Lemma careful_append_in inside_err (s : Stream) v rows failed m :
  (∀ e m', careful (failed e) m') →
  careful (P := P) (E := E) (append_in inside_err s v rows failed) m.
Proof.
  intros Hf. unfold append_in. apply wp_bind, wp_exec; [done|].
  intros [current|e] Ha; cbn [map_err]; [|done]. cbn in Ha. case_decide; [done|].
  apply careful_insert_all; [lia| |done]. cbn. case_decide; [right|left; lia].
  replace (current + 1 - 1)%Z with current by lia. set_solver.
Qed.
End careful_programs.

Ltac careful_step :=
  match goal with
  | |- careful (bind _ _) _ => apply careful_bind; [|intros ? ?]
  | |- careful (exec _) _ => by apply careful_exec
  | |- careful (Ret _) _ => done
  | |- careful (append_in _ _ _ _ _) _ => apply careful_append_in; intros ? ?
  | |- careful (match ?x with _ => _ end) _ => destruct x
  end.

#[export] Instance stoolap_careful `{DS : !DebugStr} {Ev J} (host : Host Ev J) :
  CarefulEvents (stoolap_events host).
Proof.
  split; [intros [] m|intros m|intros [] m|intros m]; cbn [stoolap_events run_direct run_begin run_uow run_commit];
    unfold void, stoolap_append, stoolap_load, stoolap_list_aggregate_ids, stoolap_find_receipt, stoolap_begin,
      stoolap_uow_append, stoolap_confirm_receipt, stoolap_commit, append_into_tx, read_max_version,
      confirm_receipt_in_tx; cbn zeta; repeat careful_step.
Qed.

#[export] Instance postgres_careful `{DS : !DebugStr} {Ev J} (host : Host Ev J) :
  CarefulEvents (postgres_events host).
Proof.
  split; [intros [] m|intros m|intros [] m|intros m]; cbn [postgres_events run_direct run_begin run_uow run_commit];
    unfold void, postgres_append, postgres_load, postgres_list_aggregate_ids, postgres_find_receipt, postgres_begin,
      postgres_uow_append, postgres_confirm_receipt, postgres_commit, insert_failed; cbn zeta; repeat careful_step.
Qed.

Section system_invariant.
Context {T P E Ev : Type} `{Countable T} (refused : E → bool).
Abbreviation Stream := (T * string * string)%type.
Implicit Types (db : Db T P) (tx : option (Tx T P)).

Lemma db_sub_refl db : db_sub db db.
Proof. done. Qed.

Lemma db_sub_trans db1 db2 db3 : db_sub db1 db2 → db_sub db2 db3 → db_sub db1 db3.
Proof. intros [? ?] [? ?]. split; by etrans. Qed.

Lemma union_mono_Some (a b b' : gmap (Stream * Z) (EventRow P)) k :
  b ⊆ b' → is_Some ((a ∪ b) !! k) → is_Some ((a ∪ b') !! k).
Proof.
  intros Hb. rewrite !lookup_union_is_Some. intros [?|[r Hr]]; [by left|right].
  exists r. by eapply lookup_weaken.
Qed.

Lemma tx_call_ok_mono db db' tx m : db_sub db db' → call_ok db tx m → call_ok db' tx m.
Proof.
  intros [Hsub _] [Hk Hs]. split.
  - intros s n Hin. eapply union_mono_Some; [done|by apply Hk].
  - intros s n Hn. destruct (Hs s n Hn) as [? [?|?]]; [by auto|]. split; [done|right].
    by eapply union_mono_Some.
Qed.

(** Nothing known, nothing staged. *)
Lemma call_ok_empty db tx : tx_rows tx = ∅ → call_ok db tx ∅.
Proof. intros Htx. split; [set_solver|]. intros s n. rewrite Htx, lookup_empty. by intros [? ?]. Qed.

Lemma published_ok db tx db' m :
  gapless (db_events db) → call_ok db tx m → published db tx db' →
  gapless (db_events db') ∧ db_sub db db'.
Proof.
  intros Hg [_ Hs] (x & -> & [Hde Hdr] & ->). split; [|split; simpl; by apply map_union_subseteq_r].
  intros s n [Hn|Hn]%lookup_union_is_Some; [by apply Hs|].
  destruct (Hg s n Hn) as [? [?|?]]; [by auto|]. split; [done|right]. cbn.
  rewrite lookup_union_is_Some. by right.
Qed.

Lemma call_ok_forget db tx m : call_ok db tx m → call_ok db tx ∅.
Proof. intros [_ Hs]. split; [set_solver|done]. Qed.

Lemma write_failed_ok db tx tx' m :
  call_ok db tx m → write_failed tx tx' → call_ok db tx' ∅.
Proof.
  intros Hc [->|(x & -> & ->)]; [by eapply call_ok_forget|by apply call_ok_empty].
Qed.

Lemma staged_event_ok db tx s n row tx' m :
  call_ok db tx m → (1 ≤ n)%Z → (n = 1%Z ∨ (s, (n - 1)%Z) ∈ m) →
  staged_event tx (s, n) row tx' → call_ok db tx' ({[(s, n)]} ∪ m).
Proof.
  intros [Hk Hs] Hn Hp (x & -> & Hfresh & ->). unfold call_ok.
  cbn [tx_rows tx_staged db_events] in *.
  assert (∀ k, is_Some ((db_events (tx_staged x) ∪ db_events db) !! k) →
     is_Some ((<[(s, n) := row]> (db_events (tx_staged x)) ∪ db_events db) !! k)) as Hmono.
  { intros k. rewrite !lookup_union_is_Some, lookup_insert_is_Some'. tauto. }
  split.
  - intros s' n' [[= -> ->]%elem_of_singleton|Hin]%elem_of_union; [|by apply Hmono, Hk].
    rewrite lookup_union_is_Some, lookup_insert_is_Some'. by left; left.
  - intros s' n' [[= <- <-]|Hin]%lookup_insert_is_Some'.
    + split; [done|]. destruct Hp as [?|?]; [by left|right]. by apply Hmono, Hk.
    + destruct (Hs s' n' Hin) as [? [?|?]]; auto.
Qed.


Lemma staged_receipt_ok db tx k row tx' m :
  call_ok db tx m → staged_receipt tx k row tx' → call_ok db tx' m.
Proof. by intros Hc (x & -> & _ & ->). Qed.

(** A stream's greatest visible version is committed or staged. *)
Lemma visible_max db tx s seen m :
  call_ok db tx m → visible true db tx seen →
  (0 < max_version s (db_events seen))%Z →
  is_Some ((tx_rows tx ∪ db_events db) !! (s, max_version s (db_events seen))).
Proof.
  intros _ (x & snap & -> & _ & [Hsub _] & ->) Hpos.
  destruct (max_stored_version_spec s (db_events (db_union (tx_staged x) snap))) as (_ & [?|Hin] & _); [lia|].
  cbn in Hin |- *. by eapply union_mono_Some.
Qed.

Lemma effect_ok {B} (c : tx_cmd T P E B) db tx b db' tx' m :
  gapless (db_events db) → call_ok db tx m → ev_allowed m B c → tx_effect refused c db tx b db' tx' →
  ev_answers B c b ∧ gapless (db_events db') ∧ db_sub db db' ∧ call_ok db' tx' (ev_observe m B c b).
Proof.
  intros Hg Hc Ha He. pose proof (db_sub_refl db) as Hrefl.
  destruct c as [|inside s|s n row|inside k|k row|k row|s|scope| |]; cbn in Ha, He |- *.
  - destruct He as [-> He]. split_and!; [done..|].
    destruct b; subst tx'; [by apply call_ok_empty|by eapply call_ok_forget].
  - destruct He as (-> & -> & He). destruct b as [n|e]; [|by destruct inside].
    destruct He as (seen & Hv & ->). pose proof (max_stored_version_spec s (db_events seen)) as (H0 & _).
    split_and!; [done..|]. destruct inside; [|done]. case_decide as Hpos; [|done].
    destruct Hc as [Hk Hs]. split; [|done].
    intros s' n' [[= -> ->]%elem_of_singleton|Hin]%elem_of_union; [|by apply Hk].
    by eapply visible_max.
  - destruct He as [-> He], Ha as [Hn Hp]. split_and!; [done..|].
    destruct b; [by eapply staged_event_ok|by eapply write_failed_ok].
  - destruct He as (-> & -> & _). by split_and!.
  - destruct He as [-> He]. split_and!; [done..|].
    destruct b; [by eapply staged_receipt_ok|by eapply write_failed_ok].
  - destruct He as [-> He]. split_and!; [done..|]. destruct b as [n|e]; [|by eapply write_failed_ok].
    destruct He as [[_ ?]|(_ & -> & _)]; [by eapply staged_receipt_ok|done].
  - destruct He as (-> & -> & _). by split_and!.
  - destruct He as (-> & -> & _). by split_and!.
  - destruct He as [-> He].
    assert (gapless (db_events db') ∧ db_sub db db') as [? ?].
    { destruct b as [u|e]; [by eapply published_ok|]. destruct He as [->|[_ ?]]; [done|].
      by eapply published_ok. }
    split_and!; [done..|by apply call_ok_empty].
  - destruct He as [-> ->]. split_and!; [done..|by apply call_ok_empty].
Qed.

Context (store : EventsStore T P E Ev) `{!CarefulEvents store}.

Lemma uow_body_careful body m : uow_body store body → careful body m.
Proof.
  intros Hb. revert m. induction Hb as [|c k _ IH|]; intros m.
  - by apply careful_exec.
  - apply careful_bind; [apply careful_uow|]. intros r m'. apply IH.
  - apply careful_bind; [apply careful_commit|done].
Qed.

Lemma offered_careful p m : offered store p → careful p m.
Proof.
  intros [c|body Hb]; [apply careful_direct|]. apply careful_bind; [apply careful_begin|].
  intros [?|?] m'; [by apply uow_body_careful|done].
Qed.

Lemma sys_step_ok s s' :
  sys_ok s → sys_step refused store s s' → sys_ok s' ∧ db_sub (sys_db s) (sys_db s').
Proof.
  intros [Hg Hcalls] Hstep. destruct Hstep as [db calls i p Ho Hi|db calls i B c k tx b db' tx' Hi He];
    unfold sys_ok; cbn in *.
  - split; [|done]. split; [done|]. intros j q tx [[<- [= <- <-]]|[Hne Hj]]%lookup_insert_Some; [|by eauto].
    exists ∅. split; [by apply call_ok_empty|by apply offered_careful].
  - destruct (Hcalls _ _ _ Hi) as (m & Hc & Ha & Hk).
    destruct (effect_ok c db tx b db' tx' m Hg Hc Ha He) as (Hans & Hg' & Hsub & Hc').
    split; [|done]. split; [done|].
    intros j q tx0 [[<- [= <- <-]]|[Hne Hj]]%lookup_insert_Some.
    + exists (ev_observe m B c b). split; [done|by apply Hk].
    + destruct (Hcalls _ _ _ Hj) as (m' & Hc'' & Hq). exists m'.
      split; [by eapply tx_call_ok_mono|done].
Qed.

Lemma reachable_sys_ok s s' :
  sys_ok s → rtc (sys_step refused store) s s' → sys_ok s' ∧ db_sub (sys_db s) (sys_db s').
Proof.
  intros Hs Hr. induction Hr as [|s s1 s2 Hstep _ IH]; [done|].
  destruct (sys_step_ok s s1 Hs Hstep) as [Hs1 Hsub]. destruct (IH Hs1) as [Hs2 Hsub2].
  split; [done|]. by eapply db_sub_trans.
Qed.
End system_invariant.

(** What a store's calls and units of work do to the committed rows, however interleaved. *)
Definition keeps_streams {T P E Ev : Type} `{Countable T} (refused : E → bool)
    (store : EventsStore T P E Ev) : Prop :=
  ∀ (db : Db T P) s, gapless (db_events db) → rtc (sys_step refused store) (mk_system db ∅) s →
    gapless (db_events (sys_db s)) ∧ db_events db ⊆ db_events (sys_db s) ∧
    db_receipts db ⊆ db_receipts (sys_db s).

Lemma careful_keeps_streams {T P E Ev : Type} `{Countable T} (refused : E → bool)
    (store : EventsStore T P E Ev) `{!CarefulEvents store} : keeps_streams refused store.
Proof.
  intros db s Hg Hr. destruct (reachable_sys_ok refused store (mk_system db ∅) s) as [[? _] [? ?]]; [|done..].
  split; [done|]. intros i p tx. cbn. by rewrite lookup_empty.
Qed.

(** C25: Durable streams never fork: on both databases, under every interleaving of appends,
    reads and units of work that append to any number of streams, abandon or commit, with
    any driver failure, aborted transaction or commit of unknown outcome, and whatever
    snapshot a transaction reads from, the committed versions of every stream stay 1 up to
    some number without a gap or a duplicate, and no committed event or receipt is ever
    changed or lost. *)
Theorem durable_streams_never_fork `{DS : !DebugStr} {Ev J} (host : Host Ev J) (refused : SqlxError → bool) :
  keeps_streams is_write_conflict (stoolap_events host) ∧ keeps_streams refused (postgres_events host).
Proof. split; apply careful_keeps_streams; apply _. Qed.

(** ** An append among other calls *)
Section one_call.
Context {T P E : Type} `{Countable T} (refused : E → bool).
Abbreviation Stream := (T * string * string)%type.
Abbreviation method := (prog (tx_cmd T P E)).

(** The call's own commands take the committed rows from the first to the second of each
    pair; it ends with answer [a]. *)
Fixpoint runs_tx {A} (p : method A) (tx : option (Tx T P)) (evs : list (Db T P * Db T P))
    (a : A) (tx' : option (Tx T P)) {struct evs} : Prop :=
  match evs with
  | [] => p = Ret a ∧ tx' = tx
  | (x, y) :: evs =>
      match p with
      | Ret _ => False
      | Do c k => ∃ b tx1, tx_effect refused c x tx b y tx1 ∧ runs_tx (k b) tx1 evs a tx'
      end
  end.

(** Between its commands others may commit, as [durable_streams_never_fork] says they do. *)
Fixpoint among (from : Db T P) (evs : list (Db T P * Db T P)) : Prop :=
  match evs with
  | [] => True
  | (x, y) :: evs => db_sub from x ∧ gapless (db_events x) ∧ among y evs
  end.

(** The rows committed after the last of them. *)
Fixpoint after (from : Db T P) (evs : list (Db T P * Db T P)) : Db T P :=
  match evs with [] => from | (x, y) :: evs => after y evs end.

Definition quiet (evs : list (Db T P * Db T P)) : Prop := Forall (λ e, e.2 = e.1) evs.

Lemma runs_tx_bind {A B} (p : method A) (f : A → method B) tx evs b tx' :
  runs_tx (bind p f) tx evs b tx' →
  ∃ evs1 evs2 a tx1, evs = evs1 ++ evs2 ∧ runs_tx p tx evs1 a tx1 ∧ runs_tx (f a) tx1 evs2 b tx'.
Proof.
  revert tx evs. induction p as [a|B' c k IH]; intros tx evs; simpl; [by exists [], evs, a, tx|].
  destruct evs as [|[x y] evs]; simpl; [by intros [? ?]|]. intros (b' & tx1 & Hb & Hr).
  destruct (IH b' tx1 evs Hr) as (evs1 & evs2 & a & tx2 & -> & H1 & H2).
  exists ((x, y) :: evs1), evs2, a, tx2. simpl. eauto 10.
Qed.

Lemma runs_tx_ret {A} (a b : A) tx evs tx' :
  runs_tx (Ret b) tx evs a tx' → evs = [] ∧ a = b ∧ tx' = tx.
Proof. destruct evs as [|[? ?] ?]; simpl; [by intros [[= ->] ->]|done]. Qed.

Lemma runs_tx_exec {B} (c : tx_cmd T P E B) tx evs b tx' :
  runs_tx (exec c) tx evs b tx' → ∃ x y, evs = [(x, y)] ∧ tx_effect refused c x tx b y tx'.
Proof.
  destruct evs as [|[x y] evs]; simpl; [by intros [? _]|]. intros (b' & tx1 & He & Hr).
  apply runs_tx_ret in Hr as (-> & -> & ->). eauto.
Qed.

Lemma quiet_app evs evs' : quiet (evs ++ evs') ↔ quiet evs ∧ quiet evs'.
Proof. apply Forall_app. Qed.

Lemma among_app from evs evs' : among from (evs ++ evs') ↔ among from evs ∧ among (after from evs) evs'.
Proof.
  revert from. induction evs as [|[x y] evs IH]; intros from; simpl; [tauto|]. rewrite IH. tauto.
Qed.

Lemma among_grows from evs : quiet evs → among from evs → db_sub from (after from evs).
Proof.
  revert from. induction evs as [|[x y] evs IH]; intros from Hq Hch; [done|].
  apply Forall_cons in Hq as [Hxy Hq]. simpl in Hxy. subst y. destruct Hch as (Hs & _ & Hch).
  eapply db_sub_trans; [done|]. by apply IH.
Qed.

(** Insertions are only staged. *)
Lemma insert_all_runs (s : Stream) n rows failed x evs a tx' :
  (∀ e tx evs a tx', runs_tx (failed e) tx evs a tx' → quiet evs ∧ ∃ err, a = Err err) →
  runs_tx (insert_all s n rows failed) (Some x) evs a tx' →
  quiet evs ∧
  match a with
  | Ok m => m = (n - 1 + Z.of_nat (length rows))%Z ∧
      tx' = Some (mk_tx (tx_began x)
        (mk_db (batch s n rows ∪ db_events (tx_staged x)) (db_receipts (tx_staged x))))
  | Err _ => True
  end.
Proof.
  intros Hf. revert n x evs. induction rows as [|row rows IH]; intros n x evs; cbn [insert_all].
  { intros (-> & -> & ->)%runs_tx_ret. split; [constructor|]. split; [simpl; lia|].
    destruct x as [bg [ev rc]]. simpl. by rewrite map_empty_union. }
  intros (evs1 & evs2 & r & tx1 & -> & (x' & y & -> & -> & He)%runs_tx_exec & Hr)%runs_tx_bind.
  destruct r as [[]|e].
  - destruct He as (x1 & [= <-] & Hfresh & ->). apply IH in Hr as [Hq Ha].
    split; [by constructor|]. destruct a as [m|]; [|done]. destruct Ha as [-> ->].
    split; [simpl; lia|]. cbn [tx_staged tx_began db_events db_receipts batch]. do 3 f_equal.
    rewrite <-insert_union_l, insert_union_r; [done|].
    apply eq_None_not_Some. rewrite batch_is_Some. lia.
  - apply Hf in Hr as [Hq [err ->]]. split; [by constructor|done].
Qed.

(** The version check and the insertions, in a transaction that has staged nothing yet. *)
Lemma append_in_runs inside_err (s : Stream) v rows failed bg from evs a tx' :
  (∀ e tx evs a tx', runs_tx (failed e) tx evs a tx' → quiet evs ∧ ∃ err, a = Err err) →
  among from evs → runs_tx (append_in inside_err s v rows failed) (Some (mk_tx bg db_empty)) evs a tx' →
  quiet evs ∧
  match a with
  | Ok m => m = (v + Z.of_nat (length rows))%Z ∧ (0 ≤ v)%Z ∧
      tx' = Some (mk_tx bg (mk_db (batch s (v + 1) rows) ∅)) ∧
      (v = 0%Z ∨ is_Some (db_events (after from evs) !! (s, v)))
  | Err _ => True
  end.
Proof.
  intros Hf Hch. unfold append_in.
  intros (evs1 & evs2 & r & tx1 & -> & (x & y & -> & -> & -> & He)%runs_tx_exec & Hr)%runs_tx_bind.
  destruct r as [current|e]; cbn [map_err] in Hr.
  2:{ apply runs_tx_ret in Hr as (-> & -> & ->). split; [by repeat constructor|done]. }
  case_decide as Hv.
  { apply runs_tx_ret in Hr as (-> & -> & ->). split; [by repeat constructor|done]. }
  assert (current = v) as -> by (destruct (decide (current = v)); [done|by destruct Hv]).
  apply insert_all_runs in Hr as [Hq Ha]; [|done]. split; [by constructor|].
  destruct a as [m|]; [|done]. destruct Ha as [-> ->]. cbn [tx_staged tx_began db_events db_receipts db_empty].
  destruct He as (seen & (x0 & snap & [= <-] & _ & Hsub & ->) & Hmax). cbn in Hmax.
  rewrite map_empty_union in Hmax.
  destruct (max_stored_version_spec s (db_events snap)) as (H0 & Hin & _). rewrite <-Hmax in H0, Hin.
  split_and!; [lia|done|by rewrite map_union_empty|].
  destruct Hin as [?|[r Hr]]; [by left|right]. exists r.
  destruct Hch as (_ & _ & Hch). destruct Hsub as [Hsub _], (among_grows x evs2 Hq Hch) as [Hgrow _].
  cbn. by eapply lookup_weaken, Hgrow; eapply lookup_weaken, Hsub.
Qed.

(** The committed rows go from [x] to [y] by an append of [rows] to a stream that has [v]. *)
Definition appends (s : Stream) (v : Z) (rows : list (EventRow P)) (x y : Db T P) : Prop :=
  stream_rows s (db_events y) = stream_rows s (db_events x) ++ rows ∧
  (rows ≠ [] → Z.of_nat (length (stream_rows s (db_events x))) = v) ∧
  (∀ s', s' ≠ s → stream_rows s' (db_events y) = stream_rows s' (db_events x)) ∧
  db_receipts y = db_receipts x.

(** One of the call's commands appends, the others change nothing. *)
Definition appended_once (s : Stream) (v : Z) (rows : list (EventRow P))
    (evs : list (Db T P * Db T P)) : Prop :=
  ∃ before x y after_, evs = before ++ (x, y) :: after_ ∧ quiet before ∧ quiet after_ ∧
    appends s v rows x y.

(** A finished append: a success appended exactly when the stream had the version expected,
    a conflict changed nothing, and an internal error changed nothing or appended all. *)
Definition compare_and_append (s : Stream) (v : Z) (rows : list (EventRow P))
    (evs : list (Db T P * Db T P)) (a : result PersistenceError Z) : Prop :=
  match a with
  | Ok n => n = (v + Z.of_nat (length rows))%Z ∧ appended_once s v rows evs
  | Err (PInternal _) => quiet evs ∨ appended_once s v rows evs
  | Err _ => quiet evs
  end.

Lemma published_appends (s : Stream) v rows bg x y :
  gapless (db_events x) → (0 ≤ v)%Z → (v = 0%Z ∨ is_Some (db_events x !! (s, v))) →
  published x (Some (mk_tx bg (mk_db (batch s (v + 1) rows) ∅))) y → appends s v rows x y.
Proof.
  intros Hg H0 Hv (x0 & [= <-] & [Hde _] & ->). cbn in Hde. unfold appends, db_union. cbn.
  destruct rows as [|row rows].
  { simpl. rewrite !map_empty_union, app_nil_r. by split_and!. }
  assert (max_version s (db_events x) = v) as Hmax.
  { apply max_version_unique; [done..|]. eapply map_disjoint_Some_l; [done|].
    simpl. apply lookup_insert_eq. }
  subst v. rewrite map_empty_union. split_and!; [by apply appended_rows| |by apply appended_others|done].
  intros _. by rewrite length_stream_rows.
Qed.

(** The commit of such a transaction. *)
Lemma commit_appends (s : Stream) v rows bg before x y r tx' after_ :
  quiet before → quiet after_ → gapless (db_events x) → (0 ≤ v)%Z →
  (v = 0%Z ∨ is_Some (db_events x !! (s, v))) →
  tx_effect refused Commit_ x (Some (mk_tx bg (mk_db (batch s (v + 1) rows) ∅))) r y tx' →
  match r with
  | Ok _ => appended_once s v rows (before ++ (x, y) :: after_)
  | Err e => quiet (before ++ (x, y) :: after_) ∨
      (refused e = false ∧ appended_once s v rows (before ++ (x, y) :: after_))
  end.
Proof.
  intros Hq Hq' Hg H0 Hv [_ He].
  assert (published x (Some (mk_tx bg (mk_db (batch s (v + 1) rows) ∅))) y →
    appended_once s v rows (before ++ (x, y) :: after_)) as Hpub.
  { intros Hp. exists before, x, y, after_. split_and!; [done..|]. by eapply published_appends. }
  destruct r as [[]|e]; [by apply Hpub|]. destruct He as [->|[? ?]]; [left|right; auto].
  apply quiet_app. split; [done|by constructor].
Qed.

Lemma quiet_one (x : Db T P) : quiet [(x, x)].
Proof. by repeat constructor. Qed.

Lemma ret_err_runs e tx evs (a : result PersistenceError Z) tx' :
  runs_tx (Ret (Err e)) tx evs a tx' → quiet evs ∧ ∃ err, a = Err err.
Proof. intros (-> & -> & _)%runs_tx_ret. split; [by apply Forall_nil|eauto]. Qed.

(** An append in a transaction of its own; [finish] reports the commit. *)
Definition own_append (begin_err : E → PersistenceError) (inside_err : E → PersistenceError)
    (s : Stream) (v : Z) (rows : list (EventRow P)) (failed : E → method (result PersistenceError Z))
    (finish : Z → result E unit → method (result PersistenceError Z)) :
    method (result PersistenceError Z) :=
  let! r := exec Begin in
  match r with
  | Err e => Ret (Err (begin_err e))
  | Ok _ =>
      let! r := append_in inside_err s v rows failed in
      match r with
      | Err e => exec Drop;; Ret (Err e)
      | Ok new_version => let! r := exec Commit_ in finish new_version r
      end
  end.

Lemma own_append_runs begin_err inside_err s v rows failed finish from evs a tx' :
  (∀ e, ∃ msg, begin_err e = PInternal msg) →
  (∀ e tx evs a tx', runs_tx (failed e) tx evs a tx' → quiet evs ∧ ∃ err, a = Err err) →
  (∀ n r tx evs a tx', runs_tx (finish n r) tx evs a tx' → quiet evs ∧
     match r with
     | Ok _ => a = Ok n
     | Err e => (∃ msg, a = Err (PInternal msg)) ∨ (refused e = true ∧ ∃ err, a = Err err)
     end) →
  among from evs → runs_tx (own_append begin_err inside_err s v rows failed finish) None evs a tx' →
  compare_and_append s v rows evs a.
Proof.
  intros Hbegin Hf Hfin Hch.
  intros (evs1 & evs2 & rb & tx1 & -> & (x & y & -> & -> & Hb)%runs_tx_exec & Hr)%runs_tx_bind.
  destruct rb as [[]|e].
  2:{ apply runs_tx_ret in Hr as (-> & -> & _). destruct (Hbegin e) as [msg ->]. left. apply quiet_one. }
  subst tx1. apply runs_tx_bind in Hr as (evs1 & evs3 & ra & tx1 & -> & Ha & Hr).
  cbn [app among] in Hch. destruct Hch as (_ & _ & Hch). apply (among_app x evs1 evs3) in Hch as [Hch1 Hch3].
  eapply append_in_runs in Ha as [Hq Ha]; [|done|done].
  assert (quiet ((x, x) :: evs1)) as Hq1 by by constructor.
  change ([(x, x)] ++ evs1 ++ evs3) with (((x, x) :: evs1) ++ evs3). destruct ra as [n|e].
  2:{ apply runs_tx_bind in Hr as (evs4 & evs5 & [] & tx2 & -> & (x1 & y1 & -> & -> & _)%runs_tx_exec & Hr).
      apply runs_tx_ret in Hr as (-> & -> & _).
      assert (quiet (((x, x) :: evs1) ++ [(x1, x1)])) as Hquiet by (apply quiet_app; split; [done|apply quiet_one]).
      destruct e; cbn; auto. }
  destruct Ha as (-> & H0 & -> & Hv).
  apply runs_tx_bind in Hr as (evs4 & evs5 & rc & tx2 & -> & (x1 & y1 & -> & Hc)%runs_tx_exec & Hr).
  destruct Hch3 as (Hsub & Hg1 & _).
  assert (v = 0%Z ∨ is_Some (db_events x1 !! (s, v))) as Hv1.
  { destruct Hv as [?|[row Hrow]]; [by left|right]. exists row. destruct Hsub as [Hsub _].
    by eapply lookup_weaken. }
  apply Hfin in Hr as [Hq5 Hr].
  pose proof (commit_appends s v rows _ _ _ _ _ _ _ Hq1 Hq5 Hg1 H0 Hv1 Hc) as Hdone.
  destruct rc as [[]|e]; [by subst a|].
  destruct Hr as [[msg ->]|[Hrefused [err ->]]]; [cbn; tauto|].
  destruct Hdone as [Hquiet|[? _]]; [|congruence]. destruct err; cbn; auto.
Qed.
End one_call.


Section appends_of_the_stores.
Context `{DS : !DebugStr} {Ev J : Type} (host : Host Ev J).

Lemma read_back_runs {T P E : Type} `{Countable T} (refused : E → bool) (s : T * string * string)
    (f : result E Z → result PersistenceError Z) tx evs a tx' :
  runs_tx (P := P) refused (let! r := exec (MaxVersion false s) in Ret (f r)) tx evs a tx' →
  quiet evs ∧ ∃ r, a = f r.
Proof.
  intros (evs1 & evs2 & r & tx1 & -> & (x & y & -> & -> & _)%runs_tx_exec & Hr)%runs_tx_bind.
  apply runs_tx_ret in Hr as (-> & -> & _). split; [apply quiet_one|eauto].
Qed.

(** How each append reports its commit. *)
Definition stoolap_finish (a i : string) (t : option string) (v new_version : Z)
    (r : result StoolapError unit) : prog (tx_cmd string string StoolapError) (result PersistenceError Z) :=
  match r with
  | Ok _ => Ret (Ok new_version)
  | Err e =>
      if is_write_conflict e then
        let! r := read_max_version (encode_tenant t, a, i) in
        Ret (actual ← r; Err (Conflict (join_id a i) v actual))
      else Ret (Err (internal_err e))
  end.

Definition postgres_finish (new_version : Z) (r : result SqlxError unit) :
    prog (tx_cmd (option string) J SqlxError) (result PersistenceError Z) :=
  Ret (_ ← map_err (pg_err "failed to commit transaction: ") r; Ok new_version).

Lemma stoolap_append_runs a i t v events rows from evs r tx' :
  collect_results (to_event_row host) events = Ok rows → t ≠ Some "" →
  among from evs → runs_tx is_write_conflict (stoolap_append host a i t v events) None evs r tx' →
  compare_and_append (encode_tenant t, a, i) v rows evs r.
Proof.
  intros Hrows Ht Hch. unfold stoolap_append. rewrite Hrows.
  assert (resolve_tenant t = Ok t) as -> by by apply resolve_tenant_Ok. cbn [mbind result_bind].
  eapply (own_append_runs is_write_conflict internal_err internal_err _ _ _ _
    (stoolap_finish a i t v)); [by eauto| | |done].
  - intros e tx evs' b tx2. apply ret_err_runs.
  - intros n [[]|e] tx evs' b tx2 Hr; cbn [stoolap_finish] in Hr.
    { apply runs_tx_ret in Hr as (-> & -> & _). by split; [apply Forall_nil|]. }
    destruct (is_write_conflict e) eqn:He.
    + apply runs_tx_bind in Hr as (evs1 & evs2 & rm & tx3 & -> & Hm & Hr).
      apply read_back_runs in Hm as [Hq _]. apply runs_tx_ret in Hr as (-> & -> & _).
      rewrite app_nil_r. split; [done|]. right. split; [done|]. destruct rm; cbn; eauto.
    + apply runs_tx_ret in Hr as (-> & -> & _). split; [by apply Forall_nil|]. left. unfold internal_err. eauto.
Qed.

Lemma postgres_append_runs (refused : SqlxError → bool) a i t v events from evs r tx' :
  t ≠ Some "" → among from evs →
  runs_tx refused (postgres_append host a i t v events) None evs r tx' →
  compare_and_append (t, a, i) v (pg_event_row host <$> events) evs r.
Proof.
  intros Ht Hch. unfold postgres_append.
  assert (resolve_tenant t = Ok t) as -> by by apply resolve_tenant_Ok.
  eapply (own_append_runs refused (pg_err "failed to begin transaction: ") _ _ _ _ _
    postgres_finish);
    [unfold pg_err; by eauto| | |done].
  - intros e tx evs' b tx2 Hr. unfold insert_failed in Hr.
    destruct (is_identity_collision e); [|by apply ret_err_runs in Hr].
    apply runs_tx_bind in Hr as (evs1 & evs2 & [] & tx3 & -> & (x & y & -> & -> & _)%runs_tx_exec & Hr).
    apply read_back_runs in Hr as [Hq [rm ->]]. split; [by constructor|]. destruct rm; cbn; eauto.
  - intros n [[]|e] tx evs' b tx2 (-> & -> & _)%runs_tx_ret; (split; [by apply Forall_nil|]); [done|].
    left. cbn. unfold pg_err. eauto.
Qed.
End appends_of_the_stores.

(** C26: A durable append is an atomic compare-and-append, on both databases: among calls and
    units of work that keep streams gapless, an append that answers [Ok] had its rows
    published by one of its own commands, at a moment when the stream held exactly the
    version it expected, at the end of that stream and of no other, and reports the new
    length; one that answers a conflict or a missing tenant changed nothing; and only an
    internal error leaves open whether all of its rows or none were published. *)
Theorem durable_append_is_compare_and_append `{DS : !DebugStr} {Ev J} (host : Host Ev J)
    (refused : SqlxError → bool) (a i : string) (t : option string) (v : Z)
    (events : list (StoredEvent Ev)) (r : result PersistenceError Z) :
  t ≠ Some "" →
  (∀ rows from evs tx', collect_results (to_event_row host) events = Ok rows → among from evs →
     runs_tx is_write_conflict (stoolap_append host a i t v events) None evs r tx' →
     compare_and_append (encode_tenant t, a, i) v rows evs r) ∧
  ∀ from evs tx', among from evs →
    runs_tx refused (postgres_append host a i t v events) None evs r tx' →
    compare_and_append (t, a, i) v (pg_event_row host <$> events) evs r.
Proof.
  intros Ht. split.
  - intros rows from evs tx' Hrows Hch Hr. by eapply stoolap_append_runs.
  - intros from evs tx' Hch Hr. by eapply postgres_append_runs.
Qed.

(** A stored receipt reads back as the receipt that was confirmed, whatever its outcome. *)
Lemma stored_receipt_reads_back `{DS : !DebugStr} (receipt : OperationReceipt) :
  OperationKey_parse (key_str (receipt_operation_key receipt)) = Ok (receipt_operation_key receipt) →
  (∀ t, receipt_tenant receipt = Some t → is_blank (id_str t) = false) →
  (∀ from to, receipt_outcome receipt = Events from to → (from ≤ to)%Z) →
  receipt_of (receipt_aggregate_type receipt) (receipt_aggregate_id receipt)
    (id_str <$> receipt_tenant receipt) (key_str (receipt_operation_key receipt)) (receipt_row receipt)
  = Ok receipt.
Proof.
  destruct receipt as [a i t k [fp] o]; cbn. intros Hk Ht Ho. unfold receipt_of.
  assert (outcome_of (receipt_row (mk_receipt a i t k (mk_fingerprint fp) o)) = Ok o) as ->.
  { destruct o as [from to|]; [|done]. unfold outcome_of. cbn.
    by rewrite (proj2 (AggregateOutcome_events_Ok from to _) (conj eq_refl (Ho _ _ eq_refl))). }
  cbn [mbind result_bind]. rewrite Hk. destruct t as [[t]|]; cbn; [|by destruct o].
  specialize (Ht (mk_id t) eq_refl). cbn in Ht. unfold id_new. rewrite Ht. cbn. by destruct o.
Qed.

Module Example_events.
#[local] Instance debug : DebugStr := λ s, s.
Definition host : Host string string :=
  mk_host string string (λ _, "Opened") (λ e, e) (λ _, 7%Z) Ok Ok (λ _ p _, Ok p).
Definition events : list (StoredEvent string) := [StoredEvent_new "a"; StoredEvent_new "b"].
Definition row (p : string) : EventRow string := mk_event_row "Opened" p 7%Z None.
Definition s : option string * string * string := (Some "acme", "account", "1").
Definition d0 : Db (option string) string := db_empty.
Definition d2 : Db (option string) string := mk_db {[ (s, 1%Z) := row "a"; (s, 2%Z) := row "b" ]} ∅.

Lemma gapless_empty {T P} `{Countable T} : gapless (T := T) (P := P) ∅.
Proof. intros s n. rewrite lookup_empty. by intros [? ?]. Qed.

Lemma durable_append_is_compare_and_append_witness :
  compare_and_append s 0 [row "a"; row "b"]
    [(d0, d0); (d0, d0); (d0, d0); (d0, d0); (d0, d2)] (Ok 2%Z).
Proof.
  eapply (proj2 (durable_append_is_compare_and_append host (λ _, false) "account" "1" (Some "acme") 0
    events (Ok 2%Z) ltac:(done)) d0).
  - repeat (split; [done|split; [apply gapless_empty|]]). done.
  - eexists (Ok ()), _. split; [done|].
    eexists (Ok 0%Z), _. split.
    { split; [done|]. split; [done|]. exists d0. split; [|done]. eexists _, d0. by split_and!. }
    eexists (Ok ()), _. split; [split; [done|]; eexists; split_and!; done|].
    eexists (Ok ()), _. split; [split; [done|]; eexists; split_and!; done|].
    eexists (Ok ()), None. split; [|done]. split; [done|]. eexists. split; [done|]. split; [|done].
    split; apply map_disjoint_empty_r.
Defined.
End Example_events.
