(* ===== verification/Providers.v ===== *)
(** * External data providers

    crates/runtime, providers: registry.rs, health.rs and access.rs (the facade a handler
    reads external data through); crates/persistent-entity, data_provider_access.rs; and
    [hashed_key] of effects/observability.rs.

    A provider is a handle.  A fetch is a program: the provider's call under its timeout
    and panic guard, the clock, the jitter, the sleep and the two log events are its
    commands.  The tracing span changes nothing. *)

From S2P Require Import Prelude Programs Identity RetryPolicy Fingerprint Security Health.

(** ** Requests, responses, errors *)
Record DataRequest := mk_request {
  data_key : string;
  data_payload : list Byte.byte;
  data_tenant : option TenantId;
}.
Definition DataRequest_new (key : string) (payload : list Byte.byte) : DataRequest :=
  mk_request key payload None.
Definition DataRequest_for_tenant (key : string) (payload : list Byte.byte) (tenant : TenantId) :
    DataRequest := mk_request key payload (Some tenant).
Definition DataRequest_with_tenant (tenant : TenantId) (self : DataRequest) : DataRequest :=
  mk_request (data_key self) (data_payload self) (Some tenant).

Record DataResponse := mk_response { response_payload : list Byte.byte; cache_hit : bool }.

Inductive DataProviderError :=
| PTransient (message : string) | PFatal (message : string) | PTimeout
| PNotFound (key : string) | ProviderMissing (provider_id : string) | PInternalFailure.

(** ** The registry *)
Section registry.
Context {P : Type}.

Inductive DuplicateProviderId := ProviderAlreadyRegistered (provider_id : string).

Definition register_provider (provider_id : string) (provider : P) (self : gmap string P) :
    result DuplicateProviderId () * gmap string P :=
  match self !! provider_id with
  | Some _ => (Err (ProviderAlreadyRegistered provider_id), self)
  | None => (Ok (), <[provider_id := provider]> self)
  end.

Definition get_provider (provider_id : string) (self : gmap string P) : option P :=
  self !! provider_id.
End registry.

(** ** Health *)
Inductive ProviderHealth := ProviderHealthy | ProviderUnhealthy.

(** [ProviderHealthContributor]: named after the id it was registered under, always required. *)
Definition provider_contributor (provider_id : string) : Contributor :=
  mk_contributor provider_id Required.

Definition provider_check (health : ProviderHealth) : HealthCheck :=
  match health with
  | ProviderHealthy => mk_check Healthy None
  | ProviderUnhealthy => mk_check Unhealthy (Some DependencyFailure)
  end.

(** ** Configuration, outcomes and signals *)
Definition DEFAULT_PROVIDER_TIMEOUT : Z := 30 * 10 ^ 9.

Record ProviderAccessConfig := mk_access_config { access_timeout : Z; access_retry : RetryPolicy }.

Definition ProviderAccessConfig_default : ProviderAccessConfig :=
  mk_access_config DEFAULT_PROVIDER_TIMEOUT RetryPolicy_default.

Inductive ProviderOutcome :=
| OSuccess | ONotFound | OTransient | OTimeout | OFatal | OProviderMissing | OInternal.

Definition ProviderOutcome_as_str (o : ProviderOutcome) : string :=
  match o with
  | OSuccess => "success" | ONotFound => "not_found" | OTransient => "transient"
  | OTimeout => "timeout" | OFatal => "fatal" | OProviderMissing => "provider_missing"
  | OInternal => "internal"
  end.

Definition outcome_from_result (r : result DataProviderError DataResponse) : ProviderOutcome :=
  match r with
  | Ok _ => OSuccess
  | Err (PNotFound _) => ONotFound
  | Err (PTransient _) => OTransient
  | Err PTimeout => OTimeout
  | Err (PFatal _) => OFatal
  | Err (ProviderMissing _) => OProviderMissing
  | Err PInternalFailure => OInternal
  end.

Definition is_retryable (o : ProviderOutcome) : bool :=
  match o with OTransient | OTimeout => true | _ => false end.

Definition hashed_key (sha256 : list Byte.byte → list Byte.byte) (key : string) : string :=
  hex_of (take 4 (sha256 (list_byte_of_string key))).

Definition as_millis_u64 (d : Z) : Z := as_u64 (d / 10 ^ 6).

Record FetchSignal := mk_fetch_signal {
  fs_provider_id : string;
  fs_key_hash : string;
  fs_latency_ms : Z;
  fs_cache_hit : bool;
  fs_outcome : string;
  fs_attempts : Z;
}.
Record RetrySignal := mk_retry_signal {
  rs_provider_id : string;
  rs_key_hash : string;
  rs_next_attempt : Z;
  rs_backoff_ms : Z;
  rs_outcome : string;
}.

(** ** The facade *)
(** What one guarded, timed call of the provider comes to. *)
Inductive Attempt :=
| Answered (r : result DataProviderError DataResponse) | AttemptPanicked | AttemptElapsed.

Definition attempt_result (a : Attempt) : result DataProviderError DataResponse :=
  match a with
  | Answered r => r
  | AttemptPanicked => Err PInternalFailure
  | AttemptElapsed => Err PTimeout
  end.

Definition retryable (a : Attempt) : bool := is_retryable (outcome_from_result (attempt_result a)).

Section access.
Context {P : Type} (mul_f64 : Z → Z → Z) (sha256 : list Byte.byte → list Byte.byte).

Definition fetch_signal (provider_id key : string) (latency : Z) (hit : bool)
    (outcome : ProviderOutcome) (attempts : Z) : FetchSignal :=
  mk_fetch_signal provider_id (hashed_key sha256 key) (as_millis_u64 latency) hit
    (ProviderOutcome_as_str outcome) attempts.

Definition retry_signal (provider_id key : string) (next_attempt backoff : Z)
    (outcome : ProviderOutcome) : RetrySignal :=
  mk_retry_signal provider_id (hashed_key sha256 key) next_attempt (as_millis_u64 backoff)
    (ProviderOutcome_as_str outcome).

Inductive PCmd : Type → Type :=
| PNow : PCmd Z
| PDraw : PCmd Z
| PFetch (provider : P) (timeout : Z) (request : DataRequest) : PCmd Attempt
| PLogRetry (s : RetrySignal) : PCmd unit
| PSleep (d : Z) : PCmd unit
| PLogFetch (s : FetchSignal) : PCmd unit.

(** The loop; [fuel] is one more than the retries the policy allows. *)
Fixpoint fetch_loop (fuel : nat) (config : ProviderAccessConfig) (provider : P)
    (provider_id : string) (request : DataRequest) (started attempt : Z) :
    prog PCmd (result DataProviderError DataResponse) :=
  match fuel with
  | O => Ret (Err PInternalFailure)
  | S fuel =>
      let attempts_so_far := (attempt + 1)%Z in
      let! a := exec (PFetch provider (access_timeout config) request) in
      let r := attempt_result a in
      let outcome := outcome_from_result r in
      if is_retryable outcome && allows_retry (access_retry config) attempt then
        let next_attempt := (attempts_so_far + 1)%Z in
        let! n := exec PDraw in
        let pause := backoff mul_f64 (access_retry config) next_attempt n in
        exec (PLogRetry (retry_signal provider_id (data_key request) next_attempt pause outcome));;
        exec (PSleep pause);;
        fetch_loop fuel config provider provider_id request started (attempt + 1)
      else
        let hit := match r with Ok response => cache_hit response | Err _ => false end in
        let! now := exec PNow in
        exec (PLogFetch (fetch_signal provider_id (data_key request) (now - started) hit outcome
                attempts_so_far));;
        Ret r
  end.

Definition fetch (registry : gmap string P) (config : ProviderAccessConfig) (provider_id : string)
    (request : DataRequest) : prog PCmd (result DataProviderError DataResponse) :=
  let! started := exec PNow in
  match get_provider provider_id registry with
  | None =>
      let! now := exec PNow in
      exec (PLogFetch (fetch_signal provider_id (data_key request) (now - started) false
              OProviderMissing 1));;
      Ret (Err (ProviderMissing provider_id))
  | Some provider =>
      fetch_loop (S (Z.to_nat (max_attempts (access_retry config)))) config provider provider_id
        request started 0
  end.
End access.
Arguments PNow {P}.
Arguments PDraw {P}.

(** ** What a fetch does *)
Section spec.
Context {P : Type} (mul_f64 : Z → Z → Z) (sha256 : list Byte.byte → list Byte.byte).
Context (config : ProviderAccessConfig) (provider_id : string) (request : DataRequest).

(** Everything a fetch has done so far. *)
Record fetch_log := mk_fetch_log {
  l_calls : list (P * Attempt);
  l_retries : list RetrySignal;
  l_pauses : list Z;
  l_fetched : list FetchSignal;
}.
Definition log0 : fetch_log := mk_fetch_log [] [] [] [].

Definition observe_fetch (m : fetch_log) (B : Type) (c : PCmd (P:=P) B) : B → fetch_log :=
  match c in PCmd B return B → fetch_log with
  | PFetch p _ _ => λ a, mk_fetch_log (l_calls m ++ [(p, a)]) (l_retries m) (l_pauses m) (l_fetched m)
  | PLogRetry s => λ _, mk_fetch_log (l_calls m) (l_retries m ++ [s]) (l_pauses m) (l_fetched m)
  | PSleep d => λ _, mk_fetch_log (l_calls m) (l_retries m) (l_pauses m ++ [d]) (l_fetched m)
  | PLogFetch s => λ _, mk_fetch_log (l_calls m) (l_retries m) (l_pauses m) (l_fetched m ++ [s])
  | _ => λ _, m
  end.

(** A command passes the whole request and the configured timeout to its provider, and
    pauses between two calls only. *)
Definition fetch_rule (m : fetch_log) (B : Type) (c : PCmd (P:=P) B) : Prop :=
  match c with
  | PFetch _ t r => t = access_timeout config ∧ r = request ∧ length (l_pauses m) = length (l_calls m)
  | PSleep _ => length (l_calls m) = S (length (l_pauses m))
  | PLogFetch _ => l_fetched m = []
  | _ => True
  end.

Definition fetch_wp {A} := wp (A:=A) fetch_rule observe_fetch (λ _ _ _, True).

(** What a completed fetch from [provider] shows. *)
Record fetched (provider : P) (r : result DataProviderError DataResponse) (m : fetch_log) : Prop :=
  mk_fetched {
  f_calls : ∃ before a, l_calls m = ((λ x, (provider, x)) <$> before ++ [a]) ∧ r = attempt_result a ∧
      Forall (λ x, retryable x = true) before ∧
      (retryable a = true → (max_attempts (access_retry config) ≤ Z.of_nat (length before))%Z);
  f_bound : (Z.of_nat (length (l_calls m)) ≤ Z.max 0 (max_attempts (access_retry config)) + 1)%Z;
  f_pauses : length (l_calls m) = S (length (l_pauses m)) ∧ length (l_retries m) = length (l_pauses m);
  f_event : ∃ latency hit, l_fetched m =
      [fetch_signal sha256 provider_id (data_key request) latency hit (outcome_from_result r)
         (Z.of_nat (length (l_calls m)))];
}.

Lemma fetch_loop_spec (provider : P) started (before : list Attempt) fuel retries pauses :
  (Z.max 0 (max_attempts (access_retry config)) < Z.of_nat (length before + fuel))%Z →
  (Z.of_nat (length before) ≤ Z.max 0 (max_attempts (access_retry config)))%Z →
  Forall (λ x, retryable x = true) before →
  length retries = length before → length pauses = length before →
  fetch_wp (fetch_loop mul_f64 sha256 fuel config provider provider_id request started
              (Z.of_nat (length before)))
    (mk_fetch_log ((λ x, (provider, x)) <$> before) retries pauses []) (fetched provider).
Proof.
  revert before retries pauses. induction fuel as [|fuel IH]; intros before retries pauses
    Hfuel Hle Hall Hr Hp; [lia|].
  unfold fetch_wp. cbn [fetch_loop]. apply wp_bind, wp_exec.
  { simpl. by rewrite length_fmap. }
  intros a _. cbn [observe_fetch l_calls l_retries l_pauses l_fetched].
  replace ((_ <$> before) ++ [(provider, a)]) with ((λ x, (provider, x)) <$> before ++ [a])
    by (by rewrite fmap_app).
  destruct (is_retryable _ && _) eqn:Hgo.
  - apply andb_true_iff in Hgo as [Ha Hal%bool_decide_eq_true].
    wp_cmd. intros n _. wp_cmd. intros [] _. apply wp_bind, wp_exec.
    { simpl. rewrite length_fmap, length_app. simpl. lia. }
    intros [] _. cbn [observe_fetch l_calls l_retries l_pauses l_fetched].
    replace (Z.of_nat (length before) + 1)%Z with (Z.of_nat (length (before ++ [a])))
      by (rewrite length_app; simpl; lia).
    apply IH; rewrite ?length_app; cbn [length]; try lia.
    by apply Forall_app; split; [|constructor].
  - wp_cmd. intros now _. wp_cmd. intros [] _.
    cbn [wp observe_fetch l_calls l_retries l_pauses l_fetched app].
    assert (length ((λ x, (provider, x)) <$> before ++ [a]) = S (length before)) as Hlen
      by (rewrite length_fmap, length_app; simpl; lia).
    split; cbn [l_calls l_retries l_pauses l_fetched]; rewrite ?Hlen; [|lia..|].
    + exists before, a. split_and!; [done..|]. intros Ha. unfold retryable in Ha. rewrite Ha in Hgo.
      apply bool_decide_eq_false in Hgo. lia.
    + eexists _, _. do 2 f_equal. lia.
Qed.

End spec.

(** A fetch from a registered provider passes it the whole request under the configured
    timeout, calls it again only after a transient failure or a timeout and at most
    [max_attempts] more times, pauses and reports exactly once between two calls, answers
    what the last call answered (a panic is [Internal]), and emits exactly one terminal
    event, with the hash of the key in place of the key. *)
Lemma provider_fetch_exact {P} (mul_f64 : Z → Z → Z) sha256 (registry : gmap string P) config
    provider_id request (provider : P) :
  registry @ provider_id ↦ provider →
  fetch_wp config request (fetch mul_f64 sha256 registry config provider_id request) log0
    (fetched sha256 config provider_id request provider).
Proof.
  intros Hp. unfold fetch. wp_cmd. intros started _. unfold get_provider. rewrite Hp.
  apply (fetch_loop_spec mul_f64 sha256 config provider_id request provider started []);
    cbn [length]; try done; lia.
Qed.

(** An id nobody registered is refused without any call, with one terminal event. *)
Lemma missing_provider_fails_closed {P} (mul_f64 : Z → Z → Z) sha256 (registry : gmap string P) config
    provider_id request :
  registry !! provider_id = None →
  fetch_wp config request (fetch mul_f64 sha256 registry config provider_id request) log0
    (λ r m, r = Err (ProviderMissing provider_id) ∧ l_calls m = [] ∧ length (l_fetched m) = 1).
Proof.
  intros Hp. unfold fetch. wp_cmd. intros started _. unfold get_provider. rewrite Hp.
  wp_cmd. intros now _. wp_cmd. intros [] _. done.
Qed.
