(* ===== verification/Composition.v ===== *)
(** * Composing a runtime

    crates/service-sdk: runtime/builder.rs ([RuntimeBuilder]), the dependency tables and
    errors of runtime/runtime_builder.rs, di/mod.rs, runtime/resolvable.rs;
    crates/persistent-entity, profile.rs.

    A trait object behind an [Arc] is its allocation ([Ptr]), with the answers this layer
    asks of it: whether a store is durable, which contributors a component has.  A type
    is its [TypeId], a text, and its name; [Arc<dyn Any>] carries the [TypeId] of what it
    holds.  A call that panics unwinds with its message.  The builder's fields are
    updated with the record setters of [coqutil]. *)

From stdpp Require Import pretty.
From coqutil Require Import Datatypes.RecordSetters.
From S2P Require Import Prelude Identity Reservation RetryPolicy Security Tenancy Dispatch.
From S2P Require Import Retention Health Providers ServiceRegistry.
Import DoubleBraceUpdate.

(** ** Handles and types *)
Definition Ptr : Type := positive.

Record Store := mk_store { store_ptr : Ptr; is_durable : bool }.

(** [TypeId::of::<T>()] and [type_name::<T>()] *)
Record TypeOf := mk_type { type_id : string; type_name : string }.

(** [Arc<dyn Any + Send + Sync>] *)
Record AnyArc := mk_any { any_type : string; any_ptr : Ptr }.

Definition downcast (ty : string) (a : AnyArc) : option Ptr :=
  if decide (any_type a = ty) then Some (any_ptr a) else None.

(** An aggregate type: its own identity, and that of [EntityRuntime<E::Event>]. *)
Record Aggregate := mk_aggregate { aggregate_type : TypeOf; runtime_type : string }.

(** A tag: its identity, the type of [ResolvableContainer<Tag::Service>], its version. *)
Record Tag := mk_tag { tag_type : TypeOf; tag_container : string; tag_version : ContractVersion }.

(** A call that returns, or unwinds with a panic. *)
Inductive Panics (A : Type) := Returns (a : A) | Unwinds (message : string).
Arguments Returns {A} a.
Arguments Unwinds {A} message.

#[export] Instance panics_ret : MRet Panics := λ A a, Returns a.
#[export] Instance panics_bind : MBind Panics := λ A B f r,
  match r with Returns a => f a | Unwinds m => Unwinds m end.

(** ** The deployment profile *)
Inductive Profile := Dev | Production.
#[export] Instance Profile_eq_dec : EqDecision Profile.
Proof. solve_decision. Defined.

Inductive PersistenceCompositionError := NotConfigured (capability fix_ : string).

Definition require_durably_configured (profile : Profile) (durably_configured : bool)
    (capability fix_ : string) : result PersistenceCompositionError () :=
  match profile with
  | Production => if durably_configured then Ok () else Err (NotConfigured capability fix_)
  | Dev => Ok ()
  end.

(** ** Errors *)
Inductive DependencyKind := KAdapter | KConfig | KProjection | KEntity.

Definition fix_hint (kind : DependencyKind) (name : string) : string :=
  match kind with
  | KAdapter => ".adapter(...)"
  | KConfig => ".config(...)"
  | KProjection => ".projection(...)"
  | KEntity => ".entity::<" +:+ name +:+ ">()"
  end.

Definition DependencyKind_display (kind : DependencyKind) : string :=
  match kind with
  | KAdapter => "adapter" | KConfig => "config" | KProjection => "projection" | KEntity => "entity"
  end.

Inductive RuntimeError :=
| ServiceNotFound (name : string) (required_by : option string)
| DependencyNotFound (kind : DependencyKind) (name : string) (service_name : option string)
| OperationReservationStoreNotRegistered
| PersistenceNotConfigured (e : PersistenceCompositionError).

Definition em_dash : string := String "226" (String "128" (String "148" "")).

Definition required_by_text (o : option string) : string :=
  match o with Some s => " (required by `" +:+ s +:+ "`)" | None => "" end.

Definition RuntimeError_display (e : RuntimeError) : string :=
  match e with
  | ServiceNotFound name required_by =>
      "service `" +:+ name +:+ "` not found" +:+ required_by_text required_by +:+ " "
      +:+ em_dash +:+ " register it with .service::<" +:+ name +:+ ">() or .service_instance::<"
      +:+ name +:+ ">(instance) before resolving"
  | DependencyNotFound kind name service_name =>
      DependencyKind_display kind +:+ " dependency `" +:+ name +:+ "` not found"
      +:+ required_by_text service_name +:+ " " +:+ em_dash +:+ " register it with "
      +:+ fix_hint kind name +:+ " on AppBuilder"
  | OperationReservationStoreNotRegistered =>
      "idempotency enforcement is on (IdempotencyEnforcementMode::MandatoryKey) but no "
      +:+ "OperationReservationStore is registered " +:+ em_dash
      +:+ " a runtime that requires a client-supplied operation key has nowhere to reserve it. "
      +:+ "Register one with .with_operation_reservation_store(store), or state that this "
      +:+ "deployment has not adopted enforcement with "
      +:+ ".with_idempotency_enforcement_mode(IdempotencyEnforcementMode::Compatibility)"
  | PersistenceNotConfigured (NotConfigured capability fix_) =>
      "production composition validation failed: Profile::Production is declared but no "
      +:+ capability +:+ " is configured " +:+ em_dash
      +:+ " a production composition must never fall back to volatile storage. Configure one with "
      +:+ fix_ +:+ ", or state that this composition is not production with .profile(Profile::Dev)"
  end.

(** ** Dependencies *)
Inductive DepKey :=
| DepEntity (ty : TypeOf) | DepProjection (ty : TypeOf) | DepAdapter (ty : TypeOf) | DepConfig (ty : TypeOf).

Record DependencyTable := mk_table {
  t_projections : gmap string AnyArc;
  t_adapters : gmap string AnyArc;
  t_configs : gmap string AnyArc;
  t_entities : gmap string AnyArc;
}.

Definition dependency_not_found (ty : TypeOf) (kind : DependencyKind) : RuntimeError :=
  DependencyNotFound kind (type_name ty) None.

Definition resolve_projection (ty : TypeOf) (t : DependencyTable) : result RuntimeError Ptr :=
  ok_or (dependency_not_found ty KProjection) (t_projections t !! type_id ty ≫= downcast (type_id ty)).

Definition resolve_entity (e : Aggregate) (t : DependencyTable) : result RuntimeError Ptr :=
  ok_or (dependency_not_found (aggregate_type e) KEntity)
    (t_entities t !! type_id (aggregate_type e) ≫= downcast (runtime_type e)).

Definition resolve_adapter (ty : TypeOf) (t : DependencyTable) : result RuntimeError Ptr :=
  ok_or (dependency_not_found ty KAdapter) (t_adapters t !! type_id ty ≫= downcast (type_id ty)).

Definition resolve_config (ty : TypeOf) (t : DependencyTable) : result RuntimeError Ptr :=
  ok_or (dependency_not_found ty KConfig) (t_configs t !! type_id ty ≫= downcast (type_id ty)).

Definition check_dependency (dep : DepKey) (t : DependencyTable) : result RuntimeError () :=
  let '(present, name, kind) :=
    match dep with
    | DepEntity ty => (bool_decide (is_Some (t_entities t !! type_id ty)), type_name ty, KEntity)
    | DepProjection ty =>
        (bool_decide (is_Some (t_projections t !! type_id ty)), type_name ty, KProjection)
    | DepAdapter ty => (bool_decide (is_Some (t_adapters t !! type_id ty)), type_name ty, KAdapter)
    | DepConfig ty => (bool_decide (is_Some (t_configs t !! type_id ty)), type_name ty, KConfig)
    end in
  if (present : bool) then Ok () else Err (DependencyNotFound kind name None).

(** The default body of [Injectable::validate]. *)
Fixpoint validate_dependencies (deps : list DepKey) (t : DependencyTable) : result RuntimeError () :=
  match deps with
  | [] => Ok ()
  | dep :: rest => _ ← check_dependency dep t; validate_dependencies rest t
  end.

(** ** The runtime *)
Inductive RuntimeInfraError :=
| ConfigInvalid (reason : string) | LoggerInit (reason : string) | Teardown (reason : string).
#[export] Instance RuntimeInfraError_eq_dec : EqDecision RuntimeInfraError.
Proof. solve_decision. Defined.

Inductive Interceptor := TracingInterceptor (tracer : Ptr).

(** [Option<ReservationConfig>]: the store and clock beside owner and lease. *)
Record Reserving := mk_reserving { res_store : Store; res_clock : Ptr; res_config : ReservationConfig }.

(** [RuntimeEffectAcceptor::with_observability] *)
Record EffectSubsystem := mk_subsystem {
  sub_state : Store;
  sub_dedup : Ptr;
  sub_executors : gmap string Ptr;
  sub_config : DeliveryConfig;
  sub_observability : option Ptr;
}.

(** A registered teardown hook, by what its future does. *)
Inductive Hook :=
| ShutdownProviders (providers : list Ptr)
| ShutdownTracer (lifecycle : Ptr)
| DrainEffects (deadline : Z)
| StopRetention (deadline : Z)
| StopEffectRetention (deadline : Z)
| HostHook (id : nat).

Record RuntimeInner := mk_inner {
  registry : gmap string (list (ContractVersion * AnyArc));
  interceptor_chain : list Interceptor;
  security_providers : option (Ptr * Ptr);
  resolved : DependencyTable;
  tenant_mode : TenantEnforcementMode;
  enforcement_mode : IdempotencyEnforcementMode;
  inner_logger : option Ptr;
  reservation : option Reserving;
  inner_observability : option Ptr;
  teardown : list Ptr;
  async_teardown : list Hook;
  effect_acceptor_impl : option EffectSubsystem;
  effect_started : bool;
  retention_started : bool;
  retention_store : option Ptr;
  retention_clock : Ptr;
  effect_retention_started : bool;
  drain_deadline : Z;
  data_provider_access : option (gmap string Ptr * ProviderAccessConfig);
  inner_tracer : option Ptr;
}.

Record Runtime := mk_runtime {
  inner : RuntimeInner;
  rt_retention_policy : option RetentionPolicy;
  rt_effect_retention_policy : option EffectRetentionPolicy;
  health_aggregator : list Contributor * HealthAggregationConfig;
}.

(** [Runtime::register_async_teardown] *)
Definition register_async_teardown (hook : Hook) (rt : Runtime) : Runtime :=
  rt {{ inner -> async_teardown ::= (λ l, l ++ [hook]) }}.

(** ** Injectable services *)
(** A service type: its name and the methods of its [Injectable] instance. *)
Record Injectable := mk_injectable {
  inj_type : TypeOf;
  inj_dependencies : list DepKey;
  inj_validate : RuntimeInner → result RuntimeError ();
  inj_build : RuntimeInner → result RuntimeError Ptr;
}.

(** One that keeps the default [validate], as the macro's services do. *)
Definition default_injectable (ty : TypeOf) (deps : list DepKey)
    (build : RuntimeInner → result RuntimeError Ptr) : Injectable :=
  mk_injectable ty deps (λ rt, validate_dependencies deps (resolved rt)) build.

(** ** The builder *)
(** A component, by its [health_contributors]. *)
Definition Component : Type := list Contributor.

(** [ReadSideProgressPair] *)
Record ProgressPair := mk_pair { pair_offset : Store; pair_dedup : Store }.

Record RuntimeBuilder := mk_builder {
  b_registry : gmap string (list (ContractVersion * AnyArc));
  b_interceptor_chain : list Interceptor;
  authn : option Ptr;
  authz : option Ptr;
  logger : option Ptr;
  adapters : gmap string AnyArc;
  configs : gmap string AnyArc;
  projections : gmap string AnyArc;
  entities : gmap string AnyArc;
  tenant_enforcement_mode : TenantEnforcementMode;
  idempotency_enforcement_mode : IdempotencyEnforcementMode;
  idempotency_reservation_store : option Store;
  retention_policy : option RetentionPolicy;
  effect_retention_store : option Ptr;
  effect_state_store : option Store;
  effect_dedup_store : option Ptr;
  effect_retention_policy : option EffectRetentionPolicy;
  effect_retention_clock : option Ptr;
  reservation_clock : option Ptr;
  reservation_owner_id : option OwnerId;
  reservation_lease_duration : Z;
  validators : list (string * (RuntimeInner → result RuntimeError ()));
  observability : option Ptr;
  tracer : option Ptr;
  tracer_lifecycle : option Ptr;
  effect_executors : gmap string Ptr;
  delivery_config : DeliveryConfig;
  effect_drain_deadline : Z;
  data_provider_registry : gmap string Ptr;
  provider_access_config : ProviderAccessConfig;
  data_providers_for_teardown : list Ptr;
  provider_health_pairs : list (string * Ptr);
  lifecycle_components : list Component;
  profile : Profile;
  read_side_progress : gmap string ProgressPair;
  read_side_claims : option Store;
}.

Definition DEFAULT_EFFECT_DRAIN_DEADLINE : Z := 5 * 10 ^ 9.

Definition RuntimeBuilder_new : RuntimeBuilder :=
  mk_builder ∅ [] None None None ∅ ∅ ∅ ∅ AuthenticatedOnly MandatoryKey None None None None None
    None None None None (30 * 10 ^ 9) [] None None None ∅ DeliveryConfig_default
    DEFAULT_EFFECT_DRAIN_DEADLINE ∅ ProviderAccessConfig_default [] [] [] Dev ∅ None.

(** *** Setters *)
Definition with_profile (p : Profile) (b : RuntimeBuilder) : RuntimeBuilder := b {{ profile := p }}.

Definition with_lifecycle_component (c : Component) (b : RuntimeBuilder) : RuntimeBuilder :=
  b {{ lifecycle_components ::= (λ l, l ++ [c]) }}.

Definition with_security (an az : Ptr) (b : RuntimeBuilder) : RuntimeBuilder :=
  b {{ authn := Some an; authz := Some az }}.

Definition with_logger (l : Ptr) (b : RuntimeBuilder) : RuntimeBuilder := b {{ logger := Some l }}.

Definition with_adapter (ty : TypeOf) (a : Ptr) (b : RuntimeBuilder) : RuntimeBuilder :=
  b {{ adapters ::= <[type_id ty := mk_any (type_id ty) a]> }}.

Definition with_config (ty : TypeOf) (c : Ptr) (b : RuntimeBuilder) : RuntimeBuilder :=
  b {{ configs ::= <[type_id ty := mk_any (type_id ty) c]> }}.

Inductive DuplicateProjection := mk_duplicate_projection (name : string).
Inductive DuplicateEntity := mk_duplicate_entity (name : string).

Definition with_projection (ty : TypeOf) (p : Ptr) (b : RuntimeBuilder) :
    result DuplicateProjection RuntimeBuilder :=
  match projections b !! type_id ty with
  | Some _ => Err (mk_duplicate_projection (type_name ty))
  | None => Ok (b {{ projections ::= <[type_id ty := mk_any (type_id ty) p]> }})
  end.

Definition with_entity (e : Aggregate) (r : Ptr) (b : RuntimeBuilder) :
    result DuplicateEntity RuntimeBuilder :=
  match entities b !! type_id (aggregate_type e) with
  | Some _ => Err (mk_duplicate_entity (type_name (aggregate_type e)))
  | None => Ok (b {{ entities ::= <[type_id (aggregate_type e) := mk_any (runtime_type e) r]> }})
  end.

Definition with_service (tag : Tag) (svc : Ptr) (b : RuntimeBuilder) :
    result RegistryError RuntimeBuilder :=
  match ServiceRegistry.register (type_name (tag_type tag)) (type_id (tag_type tag))
          (tag_version tag) (mk_any (tag_container tag) svc) (b_registry b) with
  | (Ok _, r) => Ok (b {{ b_registry := r }})
  | (Err e, _) => Err e
  end.

Definition with_injectable (s : Injectable) (b : RuntimeBuilder) : RuntimeBuilder :=
  b {{ validators ::= (λ l, l ++ [(type_name (inj_type s), inj_validate s)]) }}.

Definition with_tenant_enforcement_mode (m : TenantEnforcementMode) (b : RuntimeBuilder) :
    RuntimeBuilder := b {{ tenant_enforcement_mode := m }}.

Definition with_idempotency_enforcement_mode (m : IdempotencyEnforcementMode) (b : RuntimeBuilder) :
    RuntimeBuilder := b {{ idempotency_enforcement_mode := m }}.

Definition with_retention_policy (p : RetentionPolicy) (b : RuntimeBuilder) : RuntimeBuilder :=
  b {{ retention_policy := Some p }}.

Definition with_effect_retention_store (s : Ptr) (b : RuntimeBuilder) : RuntimeBuilder :=
  b {{ effect_retention_store := Some s }}.

(** One store behind both handles. *)
Definition with_effect_store (s : Store) (b : RuntimeBuilder) : RuntimeBuilder :=
  b {{ effect_state_store := Some s; effect_dedup_store := Some (store_ptr s) }}.

Definition with_read_side_progress (projection_id : string) (offset dedup : Store)
    (b : RuntimeBuilder) : RuntimeBuilder :=
  b {{ read_side_progress ::= <[projection_id := mk_pair offset dedup]> }}.

Definition with_read_side_claim_store (s : Store) (b : RuntimeBuilder) : RuntimeBuilder :=
  b {{ read_side_claims := Some s }}.

Definition with_effect_retention_policy (p : EffectRetentionPolicy) (b : RuntimeBuilder) :
    RuntimeBuilder := b {{ effect_retention_policy := Some p }}.

Definition with_effect_retention_clock (c : Ptr) (b : RuntimeBuilder) : RuntimeBuilder :=
  b {{ effect_retention_clock := Some c }}.

Definition with_operation_reservation_store (s : Store) (b : RuntimeBuilder) : RuntimeBuilder :=
  b {{ idempotency_reservation_store := Some s }}.

Definition with_reservation_clock (c : Ptr) (b : RuntimeBuilder) : RuntimeBuilder :=
  b {{ reservation_clock := Some c }}.

Definition with_reservation_owner_id (o : OwnerId) (b : RuntimeBuilder) : RuntimeBuilder :=
  b {{ reservation_owner_id := Some o }}.

Definition with_reservation_lease_duration (d : Z) (b : RuntimeBuilder) : RuntimeBuilder :=
  b {{ reservation_lease_duration := d }}.

Definition with_observability (o : Ptr) (b : RuntimeBuilder) : RuntimeBuilder :=
  b {{ observability := Some o }}.

Definition with_tracer (t : Ptr) (b : RuntimeBuilder) : RuntimeBuilder := b {{ tracer := Some t }}.

Definition with_tracer_lifecycle (t : Ptr) (b : RuntimeBuilder) : RuntimeBuilder :=
  b {{ tracer_lifecycle := Some t }}.

Definition with_traced (t : Ptr) (b : RuntimeBuilder) : RuntimeBuilder :=
  with_tracer_lifecycle t (with_tracer t b).

Fixpoint register_all (effect_types : list string) (executor : Ptr) (m : gmap string Ptr) :
    result DuplicateEffectType (gmap string Ptr) :=
  match effect_types with
  | [] => Ok m
  | ty :: rest =>
      match RetryPolicy.register ty executor m with
      | (Ok _, m') => register_all rest executor m'
      | (Err e, _) => Err e
      end
  end.
Definition register_effect_executor (effect_types : list string) (executor : Ptr)
    (b : RuntimeBuilder) : result DuplicateEffectType RuntimeBuilder :=
  m ← register_all effect_types executor (effect_executors b); Ok (b {{ effect_executors := m }}).

Definition register_data_provider (provider_id : string) (provider : Ptr) (b : RuntimeBuilder) :
    result DuplicateProviderId RuntimeBuilder :=
  match register_provider provider_id provider (data_provider_registry b) with
  | (Err e, _) => Err e
  | (Ok _, m) =>
      let already_tracked := bool_decide (provider ∈ data_providers_for_teardown b) in
      Ok (b {{ data_provider_registry := m;
               data_providers_for_teardown ::=
                 (λ l, if already_tracked then l else l ++ [provider]);
               provider_health_pairs ::= (λ l, l ++ [(provider_id, provider)]) }})
  end.

Definition with_provider_access_config (c : ProviderAccessConfig) (b : RuntimeBuilder) :
    RuntimeBuilder := b {{ provider_access_config := c }}.

Definition with_delivery_config (c : DeliveryConfig) (b : RuntimeBuilder) : RuntimeBuilder :=
  b {{ delivery_config := c }}.

Definition with_effect_drain_deadline (d : Z) (b : RuntimeBuilder) : RuntimeBuilder :=
  b {{ effect_drain_deadline := d }}.

(** *** What a composition must satisfy *)
Definition validate_idempotency (b : RuntimeBuilder) : result RuntimeError () :=
  match idempotency_enforcement_mode b, idempotency_reservation_store b with
  | MandatoryKey, None => Err OperationReservationStoreNotRegistered
  | _, _ => Ok ()
  end.

Definition validate_effect_store_profile (b : RuntimeBuilder) : result RuntimeError () :=
  if registry_is_empty (effect_executors b) then Ok () else
  map_err PersistenceNotConfigured
    (require_durably_configured (profile b)
       (match effect_state_store b with Some s => is_durable s | None => false end)
       "effect store"
       "RuntimeBuilder::with_effect_store(store) (or AppBuilder::effect_store(store))").

(** Every pair is refused with the same text, so their order does not matter. *)
Fixpoint validate_pairs (p : Profile) (pairs : list ProgressPair) : result RuntimeError () :=
  match pairs with
  | [] => Ok ()
  | pp :: rest =>
      _ ← map_err PersistenceNotConfigured
            (require_durably_configured p (is_durable (pair_offset pp) && is_durable (pair_dedup pp))
               "durable read-side progress store (OffsetStore + DedupStore)"
               ("AppBuilder::read_side_progress(projection_id, offset_store, dedup_store) (or "
                +:+ "RuntimeBuilder::with_read_side_progress(..)), passing stores whose "
                +:+ "is_durable() returns true"));
      validate_pairs p rest
  end.
Definition validate_read_side_progress_profile (b : RuntimeBuilder) : result RuntimeError () :=
  validate_pairs (profile b) (map_to_list (read_side_progress b)).*2.

Definition validate_read_side_claim_profile (b : RuntimeBuilder) : result RuntimeError () :=
  if registry_is_empty (read_side_progress b) then Ok () else
  map_err PersistenceNotConfigured
    (require_durably_configured (profile b)
       (match read_side_claims b with Some s => is_durable s | None => false end)
       "durable read-side claim store (ReadSideClaimStore)"
       ("AppBuilder::read_side_claims(store) (or RuntimeBuilder::with_read_side_claim_store(..)), "
        +:+ "passing a store whose is_durable() returns true")).

Definition validate_operation_reservation_profile (b : RuntimeBuilder) : result RuntimeError () :=
  match idempotency_reservation_store b with
  | None => Ok ()
  | Some store =>
      map_err PersistenceNotConfigured
        (require_durably_configured (profile b) (is_durable store)
           "operation reservation store (OperationReservationStore)"
           ("RuntimeBuilder::with_operation_reservation_store(store), passing a store whose "
            +:+ "is_durable() returns true"))
  end.

Definition validate_persistence_profile (b : RuntimeBuilder) : result RuntimeError () :=
  _ ← validate_effect_store_profile b;
  _ ← validate_read_side_progress_profile b;
  _ ← validate_read_side_claim_profile b;
  validate_operation_reservation_profile b.

(** *** Building *)
Definition HealthAggregationConfig_default : HealthAggregationConfig := mk_aggregation (5 * 10 ^ 9) None.

Definition zero_lease_panic : string :=
  "the reservation lease duration must be greater than zero: a zero lease expires the instant it "
  +:+ "is taken, so every attempt would see the previous one as expired and take it over "
  +:+ em_dash +:+ " the reservation would exclude nobody while appearing to work: ZeroLease".
Definition retention_panic : string :=
  "a retention policy was configured but no OperationReservationStore is registered: retention "
  +:+ "purges completed reservations, so without a store there is nothing for it to purge and the "
  +:+ "schedule would run forever removing nothing".
Definition effect_retention_panic : string :=
  "an effect retention policy was configured but no RetentionMaintenance was registered via "
  +:+ "with_effect_retention_store: retention purges settled external effects, so without one "
  +:+ "there is nothing for it to purge and the schedule would run forever removing nothing".

(** [build] allocates an in-memory effect store at [fresh_store] and mints [fresh_owner]. *)
Record Minted := mk_minted { fresh_store : Ptr; fresh_owner : OwnerId }.

Section build.
Context (SystemClock : Ptr).

(** [with_effect_store] sets both handles, which the debug assertion restates. *)
Definition build_acceptor (minted : Minted) (b : RuntimeBuilder) : option EffectSubsystem :=
  if registry_is_empty (effect_executors b) then None else
  let '(state, dedup) :=
    match effect_state_store b, effect_dedup_store b with
    | Some state, Some dedup => (state, dedup)
    | _, _ => (mk_store (fresh_store minted) false, fresh_store minted)
    end in
  Some (mk_subsystem state dedup (effect_executors b) (delivery_config b) (observability b)).

Definition build_access (b : RuntimeBuilder) : option (gmap string Ptr * ProviderAccessConfig) :=
  if registry_is_empty (data_provider_registry b) then None
  else Some (data_provider_registry b, provider_access_config b).

Definition build_chain (b : RuntimeBuilder) : list Interceptor :=
  match tracer b with Some t => [TracingInterceptor t] | None => b_interceptor_chain b end.

Definition build_health (b : RuntimeBuilder) : list Contributor :=
  concat (lifecycle_components b)
  ++ (provider_contributor <$> (provider_health_pairs b).*1)
  ++ match idempotency_reservation_store b with Some _ => [reservation_contributor] | None => [] end.

Definition build_reservation (minted : Minted) (b : RuntimeBuilder) : Panics (option Reserving) :=
  match idempotency_reservation_store b with
  | None => Returns None
  | Some store =>
      let clock := default SystemClock (reservation_clock b) in
      let owner := default (fresh_owner minted) (reservation_owner_id b) in
      match ReservationConfig_new owner (reservation_lease_duration b) with
      | Ok config => Returns (Some (mk_reserving store clock config))
      | Err _ => Unwinds zero_lease_panic
      end
  end.

Definition build_hooks (b : RuntimeBuilder) : list Hook :=
  match data_providers_for_teardown b with [] => [] | l => [ShutdownProviders l] end
  ++ match tracer_lifecycle b with Some t => [ShutdownTracer t] | None => [] end.

(** [assert!(!(policy.is_some() && store.is_none()))] *)
Definition assert_purgeable {A B} (policy : option A) (store : option B) (message : string) :
    Panics () :=
  match policy, store with Some _, None => Unwinds message | _, _ => Returns () end.

(** The runtime [build] returns, from a builder that passed its checks. *)
Definition assemble (minted : Minted) (b : RuntimeBuilder) (reservation : option Reserving) : Runtime :=
  let security :=
    match authn b, authz b with Some an, Some az => Some (an, az) | _, _ => None end in
  let teardown := match logger b with Some l => [l] | None => [] end in
  mk_runtime
    (mk_inner (b_registry b) (build_chain b) security
       (mk_table (projections b) (adapters b) (configs b) (entities b))
       (tenant_enforcement_mode b) (idempotency_enforcement_mode b) (logger b) reservation
       (observability b) teardown (build_hooks b) (build_acceptor minted b) false false
       (effect_retention_store b) (default SystemClock (effect_retention_clock b)) false
       (effect_drain_deadline b) (build_access b) (tracer b))
    (retention_policy b) (effect_retention_policy b)
    (build_health b, HealthAggregationConfig_default).

Definition build (minted : Minted) (b : RuntimeBuilder) : Panics Runtime :=
  match validate_idempotency b, validate_persistence_profile b with
  | Err e, _ => Unwinds (RuntimeError_display e)
  | Ok _, Err e => Unwinds (RuntimeError_display e)
  | Ok _, Ok _ =>
      reservation ← build_reservation minted b;
      _ ← assert_purgeable (retention_policy b) reservation retention_panic;
      _ ← assert_purgeable (effect_retention_policy b) (effect_retention_store b)
            effect_retention_panic;
      Returns (assemble minted b reservation)
  end.

(** The name of the requesting service replaces whatever the validator put there. *)
Fixpoint run_validators (l : list (string * (RuntimeInner → result RuntimeError ())))
    (rt : RuntimeInner) : result RuntimeError () :=
  match l with
  | [] => Ok ()
  | (service_name, validate) :: rest =>
      match validate rt with
      | Err (DependencyNotFound kind name _) =>
          Err (DependencyNotFound kind name (Some service_name))
      | Err e => Err e
      | Ok _ => run_validators rest rt
      end
  end.

(** [mem::take(&mut self.validators)]: what is left of the builder. *)
Definition take_validators (b : RuntimeBuilder) : RuntimeBuilder := b {{ validators := [] }}.

Definition try_build (minted : Minted) (b : RuntimeBuilder) : Panics (result RuntimeError Runtime) :=
  match validate_idempotency b, validate_persistence_profile b with
  | Err e, _ | Ok _, Err e => Returns (Err e)
  | Ok _, Ok _ =>
      rt ← build minted (take_validators b);
      match run_validators (validators b) (inner rt) with
      | Err e => Returns (Err e)
      | Ok _ => Returns (Ok rt)
      end
  end.
End build.

(** ** Reading a runtime *)
Record Proxy := mk_proxy { proxy_service : Ptr; proxy_chain : list Interceptor }.

(** The [create_proxy] the macro generates. *)
Definition create_proxy (tag : Tag) (raw : AnyArc) (chain : list Interceptor) :
    result RuntimeError Proxy :=
  svc ← ok_or (ServiceNotFound (type_name (tag_type tag)) None) (downcast (tag_container tag) raw);
  Ok (mk_proxy svc chain).

Definition resolve (tag : Tag) (rt : Runtime) : result RuntimeError Proxy :=
  raw ← map_err (λ _, ServiceNotFound (type_name (tag_type tag)) None)
          (resolve_raw (type_id (tag_type tag)) (Exact (tag_version tag)) (registry (inner rt)));
  create_proxy tag raw (interceptor_chain (inner rt)).

(** What a dispatch reads of the runtime. *)
Definition dispatch_view (rt : Runtime) : Dispatch.Runtime :=
  Dispatch.mk_runtime (bool_decide (is_Some (security_providers (inner rt))))
    (tenant_mode (inner rt)) (res_config <$> reservation (inner rt))
    (bool_decide (is_Some (inner_observability (inner rt)))).

Definition liveness (rt : Runtime) : HealthReport := mk_health_report Liveness Healthy [].
Definition runtime_readiness (rt : Runtime) (events : list Event) : HealthReport :=
  let '(contributors, config) := health_aggregator rt in readiness contributors config events.
Definition runtime_startup (rt : Runtime) (events : list Event) : HealthReport :=
  let '(contributors, config) := health_aggregator rt in startup contributors config events.

(** ** Configuring *)
(** One call on the builder. *)
Inductive Setting :=
| SProfile (p : Profile) | SComponent (c : Component) | SSecurity (an az : Ptr) | SLogger (l : Ptr)
| SAdapter (ty : TypeOf) (p : Ptr) | SConfig (ty : TypeOf) (p : Ptr)
| SProjection (ty : TypeOf) (p : Ptr) | SEntity (e : Aggregate) (r : Ptr)
| SService (tag : Tag) (svc : Ptr) | SInjectable (s : Injectable)
| STenantMode (m : TenantEnforcementMode) | SEnforcement (m : IdempotencyEnforcementMode)
| SRetention (p : RetentionPolicy) | SEffectRetentionStore (s : Ptr) | SEffectStore (s : Store)
| SProgress (projection_id : string) (offset dedup : Store) | SClaims (s : Store)
| SEffectRetention (p : EffectRetentionPolicy) | SEffectRetentionClock (c : Ptr)
| SReservationStore (s : Store) | SReservationClock (c : Ptr) | SOwner (o : OwnerId) | SLease (d : Z)
| SObservability (o : Ptr) | STracer (t : Ptr) | STracerLifecycle (t : Ptr) | STraced (t : Ptr)
| SExecutor (effect_types : list string) (executor : Ptr)
| SProvider (provider_id : string) (provider : Ptr)
| SProviderConfig (c : ProviderAccessConfig) | SDelivery (c : DeliveryConfig) | SDrainDeadline (d : Z).

(** The errors a call can answer. *)
Inductive SettingError :=
| EProjection (e : DuplicateProjection) | EEntity (e : DuplicateEntity) | EService (e : RegistryError)
| EExecutor (e : DuplicateEffectType) | EProvider (e : DuplicateProviderId).

Definition set (s : Setting) (b : RuntimeBuilder) : result SettingError RuntimeBuilder :=
  match s with
  | SProfile p => Ok (with_profile p b)
  | SComponent c => Ok (with_lifecycle_component c b)
  | SSecurity an az => Ok (with_security an az b)
  | SLogger l => Ok (with_logger l b)
  | SAdapter ty p => Ok (with_adapter ty p b)
  | SConfig ty p => Ok (with_config ty p b)
  | SProjection ty p => map_err EProjection (with_projection ty p b)
  | SEntity e r => map_err EEntity (with_entity e r b)
  | SService tag svc => map_err EService (with_service tag svc b)
  | SInjectable s => Ok (with_injectable s b)
  | STenantMode m => Ok (with_tenant_enforcement_mode m b)
  | SEnforcement m => Ok (with_idempotency_enforcement_mode m b)
  | SRetention p => Ok (with_retention_policy p b)
  | SEffectRetentionStore s => Ok (with_effect_retention_store s b)
  | SEffectStore s => Ok (with_effect_store s b)
  | SProgress id o d => Ok (with_read_side_progress id o d b)
  | SClaims s => Ok (with_read_side_claim_store s b)
  | SEffectRetention p => Ok (with_effect_retention_policy p b)
  | SEffectRetentionClock c => Ok (with_effect_retention_clock c b)
  | SReservationStore s => Ok (with_operation_reservation_store s b)
  | SReservationClock c => Ok (with_reservation_clock c b)
  | SOwner o => Ok (with_reservation_owner_id o b)
  | SLease d => Ok (with_reservation_lease_duration d b)
  | SObservability o => Ok (with_observability o b)
  | STracer t => Ok (with_tracer t b)
  | STracerLifecycle t => Ok (with_tracer_lifecycle t b)
  | STraced t => Ok (with_traced t b)
  | SExecutor tys x => map_err EExecutor (register_effect_executor tys x b)
  | SProvider id p => map_err EProvider (register_data_provider id p b)
  | SProviderConfig c => Ok (with_provider_access_config c b)
  | SDelivery c => Ok (with_delivery_config c b)
  | SDrainDeadline d => Ok (with_effect_drain_deadline d b)
  end.

(** Calls in a row: the first error ends them. *)
Fixpoint set_all (l : list Setting) (b : RuntimeBuilder) : result SettingError RuntimeBuilder :=
  match l with [] => Ok b | s :: rest => b' ← set s b; set_all rest b' end.

(** What every configured builder satisfies: one effect store behind both handles; the
    table entries hold what their keys say; every registered provider is torn down once
    and checked under each of its ids. *)
Definition typed (m : gmap string AnyArc) : Prop := map_Forall (λ ty a, any_type a = ty) m.

Record builder_ok (b : RuntimeBuilder) : Prop := mk_builder_ok {
  bo_effect_store : effect_dedup_store b = store_ptr <$> effect_state_store b;
  bo_adapters : typed (adapters b);
  bo_configs : typed (configs b);
  bo_projections : typed (projections b);
  bo_chain : b_interceptor_chain b = [];
  bo_teardown : NoDup (data_providers_for_teardown b);
  bo_teardown_all : ∀ p, p ∈ data_providers_for_teardown b ↔
      ∃ id, data_provider_registry b @ id ↦ p;
  bo_pairs : NoDup (provider_health_pairs b).*1 ∧
      ∀ id p, (id, p) ∈ provider_health_pairs b ↔ data_provider_registry b @ id ↦ p;
}.

Lemma builder_ok_new : builder_ok RuntimeBuilder_new.
Proof.
  split; try done; try apply map_Forall_empty; simpl; [constructor|..]; try set_solver.
  split; [constructor|set_solver].
Qed.

Lemma typed_insert m ty p : typed m → typed (<[ty := mk_any ty p]> m).
Proof. intros. by apply map_Forall_insert_2. Qed.

Lemma provider_ok b id p b' :
  builder_ok b → register_data_provider id p b = Ok b' → builder_ok b'.
Proof.
  intros [He Ha Hc Hp Hch Hnd Hall [Hnd2 Hpairs]]. unfold register_data_provider, register_provider.
  destruct (data_provider_registry b !! id) as [q|] eqn:Hid; [done|]. intros [= <-].
  assert (∀ q, (∃ i, <[id := p]> (data_provider_registry b) !! i = Some q) ↔
            q = p ∨ q ∈ data_providers_for_teardown b) as Hins.
  { intros q. rewrite Hall. split.
    - intros [i [[-> ->]|[? ?]]%lookup_insert_Some]; eauto.
    - intros [->|[i Hi]]; [exists id; by simplify_map_eq|]. exists i.
      rewrite lookup_insert_ne; [done|congruence]. }
  split; simpl; try done.
  - unfold constant. case_bool_decide; [done|]. apply NoDup_app. split_and!; [done|set_solver|].
    apply NoDup_singleton.
  - intros q. rewrite Hins. case_bool_decide; set_solver.
  - rewrite fmap_app. split.
    + apply NoDup_app. split_and!; [done| |apply NoDup_singleton].
      intros i ((i', q) & -> & Hq%Hpairs)%list_elem_of_fmap. simpl. set_solver.
    + intros i q. unfold constant. rewrite lookup_insert_Some, elem_of_app, Hpairs, list_elem_of_singleton.
      split; [intros [?|[= -> ->]]; [right|by left]|intros [[<- <-]|[? ?]]]; [|by right|by left].
      split; [congruence|done].
Qed.

Lemma set_ok s b b' : builder_ok b → set s b = Ok b' → builder_ok b'.
Proof.
  intros Hb Hs. destruct s; cbn [set] in Hs;
    try (injection Hs as <-; destruct Hb; by split; simpl; auto using typed_insert).
  - apply map_err_Ok in Hs. unfold with_projection in Hs.
    case_match; [done|]. injection Hs as <-. destruct Hb. split; simpl; auto using typed_insert.
  - apply map_err_Ok in Hs. unfold with_entity in Hs.
    case_match; [done|]. injection Hs as <-. destruct Hb. by split.
  - apply map_err_Ok in Hs. unfold with_service in Hs.
    destruct (ServiceRegistry.register _ _ _ _ _) as [[]]; [|done]. injection Hs as <-.
    destruct Hb. by split.
  - apply map_err_Ok in Hs. apply bind_Ok in Hs as (m & _ & [= <-]). destruct Hb. by split.
  - apply map_err_Ok in Hs. by eapply provider_ok.
Qed.

Lemma set_all_ok l b b' : builder_ok b → set_all l b = Ok b' → builder_ok b'.
Proof.
  revert b. induction l as [|s l IH]; intros b Hb; [by intros [= <-]|].
  cbn [set_all]. intros (b1 & Hs & Hl)%bind_Ok. eauto using set_ok.
Qed.

(** ** What the checks accept *)
Definition governed_stores_durable (b : RuntimeBuilder) : Prop :=
  (effect_executors b ≠ ∅ → ∃ s, effect_state_store b = Some s ∧ is_durable s = true) ∧
  map_Forall (λ _ p, is_durable (pair_offset p) = true ∧ is_durable (pair_dedup p) = true)
    (read_side_progress b) ∧
  (read_side_progress b ≠ ∅ → ∃ s, read_side_claims b = Some s ∧ is_durable s = true) ∧
  (∀ s, idempotency_reservation_store b = Some s → is_durable s = true).

Lemma seq_Ok {E A} (r : result E ()) (k : result E A) (a : A) :
  (_ ← r; k) = Ok a ↔ r = Ok () ∧ k = Ok a.
Proof. rewrite bind_Ok. split; [by intros ([] & ? & ?)|intros []; by exists ()]. Qed.

Lemma require_exact p durable cap fix_ :
  require_durably_configured p durable cap fix_ = Ok () ↔ (p = Production → durable = true).
Proof. destruct p, durable; simpl; naive_solver. Qed.

Lemma refused_exact p durable cap fix_ :
  map_err PersistenceNotConfigured (require_durably_configured p durable cap fix_) = Ok () ↔
  (p = Production → durable = true).
Proof. by rewrite map_err_Ok, require_exact. Qed.

Lemma durable_option (o : option Store) :
  match o with Some s => is_durable s | None => false end = true ↔
  ∃ s, o = Some s ∧ is_durable s = true.
Proof. destruct o; naive_solver. Qed.

Lemma validate_pairs_exact p l :
  validate_pairs p l = Ok () ↔
  (p = Production → Forall (λ x, is_durable (pair_offset x) = true ∧ is_durable (pair_dedup x) = true) l).
Proof.
  induction l as [|x l IH]; cbn [validate_pairs]; [by split; [intros; constructor|]|].
  rewrite seq_Ok, refused_exact, IH, andb_true_iff. setoid_rewrite Forall_cons. naive_solver.
Qed.

(** The profile check accepts exactly the compositions that are not for production or
    whose governed stores are all durable. *)
Lemma profile_exact b :
  validate_persistence_profile b = Ok () ↔ (profile b = Production → governed_stores_durable b).
Proof.
  unfold validate_persistence_profile, governed_stores_durable.
  assert (validate_effect_store_profile b = Ok () ↔ (profile b = Production →
    effect_executors b ≠ ∅ → ∃ s, effect_state_store b = Some s ∧ is_durable s = true)) as He.
  { unfold validate_effect_store_profile, registry_is_empty. case_bool_decide; [naive_solver|].
    rewrite refused_exact, durable_option. naive_solver. }
  assert (validate_read_side_claim_profile b = Ok () ↔ (profile b = Production →
    read_side_progress b ≠ ∅ → ∃ s, read_side_claims b = Some s ∧ is_durable s = true)) as Hc.
  { unfold validate_read_side_claim_profile, registry_is_empty. case_bool_decide; [naive_solver|].
    rewrite refused_exact, durable_option. naive_solver. }
  assert (validate_operation_reservation_profile b = Ok () ↔ (profile b = Production →
    ∀ s, idempotency_reservation_store b = Some s → is_durable s = true)) as Ho.
  { unfold validate_operation_reservation_profile. destruct (idempotency_reservation_store b);
      [rewrite refused_exact|]; naive_solver. }
  assert (validate_read_side_progress_profile b = Ok () ↔ (profile b = Production →
    map_Forall (λ _ p, is_durable (pair_offset p) = true ∧ is_durable (pair_dedup p) = true)
      (read_side_progress b))) as Hp.
  { unfold validate_read_side_progress_profile. rewrite validate_pairs_exact, map_Forall_to_list.
    rewrite Forall_fmap. unfold uncurry. split; intros H HP; specialize (H HP);
      (eapply Forall_impl; [exact H|]); by intros []. }
  rewrite !seq_Ok, He, Hp, Hc, Ho. naive_solver.
Qed.

Lemma idempotency_exact b :
  validate_idempotency b = Ok () ↔
  (idempotency_enforcement_mode b = MandatoryKey → is_Some (idempotency_reservation_store b)).
Proof.
  unfold validate_idempotency.
  destruct (idempotency_enforcement_mode b), (idempotency_reservation_store b); simpl;
    split; try done; try naive_solver.
Qed.

(** ** What [try_build] answers *)
Definition accepted (b : RuntimeBuilder) : Prop :=
  (idempotency_enforcement_mode b = MandatoryKey → is_Some (idempotency_reservation_store b)) ∧
  (profile b = Production → governed_stores_durable b).

(** What the checks do not look at, and [build] cannot work with. *)
Definition unworkable (b : RuntimeBuilder) : Prop :=
  (is_Some (idempotency_reservation_store b) ∧ reservation_lease_duration b = 0%Z) ∨
  (is_Some (retention_policy b) ∧ idempotency_reservation_store b = None) ∨
  (is_Some (effect_retention_policy b) ∧ effect_retention_store b = None).

Section spec.
Context (SystemClock : Ptr).

Definition reserving (minted : Minted) (b : RuntimeBuilder) : option Reserving :=
  (λ s, mk_reserving s (default SystemClock (reservation_clock b))
          (mk_reservation (default (fresh_owner minted) (reservation_owner_id b))
             (reservation_lease_duration b))) <$> idempotency_reservation_store b.

(** Past its checks, [build] assembles the runtime or panics on what is unworkable. *)
Lemma build_cases minted b :
  validate_idempotency b = Ok () → validate_persistence_profile b = Ok () →
  (unworkable b ∧ ∃ m, build SystemClock minted b = Unwinds m) ∨
  (¬ unworkable b ∧
   build SystemClock minted b = Returns (assemble SystemClock minted b (reserving minted b))).
Proof.
  intros Hi Hp. unfold build, unworkable, reserving. rewrite Hi, Hp. unfold build_reservation.
  destruct (idempotency_reservation_store b) as [store|]; cbn [mbind panics_bind].
  - unfold ReservationConfig_new. case_decide as Hl; [left; eauto|].
    destruct (retention_policy b); destruct (effect_retention_policy b), (effect_retention_store b);
      cbn; solve [left; naive_solver | right; naive_solver].
  - destruct (retention_policy b); [left; naive_solver|].
    destruct (effect_retention_policy b), (effect_retention_store b);
      cbn; solve [left; naive_solver | right; naive_solver].
Qed.

Lemma try_build_cases minted b :
  (¬ accepted b ∧ ∃ e, try_build SystemClock minted b = Returns (Err e)) ∨
  (accepted b ∧ unworkable b ∧ ∃ m, try_build SystemClock minted b = Unwinds m) ∨
  (accepted b ∧ ¬ unworkable b ∧ try_build SystemClock minted b =
     let rt := assemble SystemClock minted b (reserving minted b) in
     Returns (match run_validators (validators b) (inner rt) with Err e => Err e | Ok _ => Ok rt end)).
Proof.
  unfold try_build, accepted. rewrite <-idempotency_exact, <-profile_exact.
  destruct (validate_idempotency b) as [[]|e] eqn:Hi; [|left; naive_solver].
  destruct (validate_persistence_profile b) as [[]|e] eqn:Hp; [|left; naive_solver].
  right. destruct (build_cases minted (take_validators b) Hi Hp) as [[Hu [m Hm]]|[Hu Hb]].
  - left. rewrite Hm. split_and!; eauto.
  - right. rewrite Hb. split_and!; [done..|]. cbn [mbind panics_bind].
    change (assemble _ _ (take_validators b) _)
      with (assemble SystemClock minted b (reserving minted b)).
    by destruct (run_validators _ _).
Qed.
End spec.

(** [try_build] answers an error exactly when the idempotency policy has no store, a
    production composition leaves a governed store volatile, or a recorded validator
    fails; it panics exactly when those checks pass but the lease is zero or a retention
    schedule has nothing to purge; and otherwise it returns the assembled runtime. *)
Lemma try_build_exact (SystemClock : Ptr) (minted : Minted) (b : RuntimeBuilder) :
  ((∃ m, try_build SystemClock minted b = Unwinds m) ↔ accepted b ∧ unworkable b) ∧
  (∀ rt, try_build SystemClock minted b = Returns (Ok rt) ↔
     accepted b ∧ ¬ unworkable b ∧ run_validators (validators b) (inner rt) = Ok () ∧
     rt = assemble SystemClock minted b (reserving SystemClock minted b)).
Proof.
  destruct (try_build_cases SystemClock minted b)
    as [[Hn [e He]]|[(Ha & Hu & m & Hm)|(Ha & Hu & Ht)]].
  - rewrite He. naive_solver.
  - rewrite Hm. naive_solver.
  - cbn zeta in Ht. rewrite Ht. split; [naive_solver|]. intros rt.
    destruct (run_validators _ _) as [[]|e] eqn:Hv; (split; [|intros (_ & _ & Hr & ->)]); try congruence.
    by intros [= <-].
Qed.
