(* ===== verification/Application.v ===== *)
(** * The application builder

    crates/service-sdk, app/mod.rs and app/error.rs: [AppBuilder], whose registrations
    never fail but latch the first error, and [AppBuilder::build], which constructs the
    services against a scratch runtime and then builds the real one.  [App] and
    [RunningApp] are the runtime; their lifecycle is in [RuntimeLifecycle]. *)

From coqutil Require Import Datatypes.RecordSetters.
From S2P Require Import Prelude Reservation Tenancy Dispatch Health Providers RetryPolicy.
From S2P Require Import ServiceRegistry Composition.
Import DoubleBraceUpdate.

Inductive CompositionError :=
| DuplicateAdapter (name : string)
| DuplicateEffectStore (name : string)
| DuplicateEffectRetentionStore
| DuplicateReadSideProgress (projection_id : string)
| DuplicateReadSideClaimStore
| Service (e : RegistryError)
| Validation (e : RuntimeError)
| EffectExecutor (e : DuplicateEffectType)
| DataProvider (e : DuplicateProviderId)
| Projection (e : DuplicateProjection)
| Entity (e : DuplicateEntity)
| Startup (e : RuntimeInfraError)
| Shutdown (e : RuntimeInfraError).

Definition attribute_to (s : TypeOf) (e : RuntimeError) : RuntimeError :=
  match e with
  | DependencyNotFound kind name None => DependencyNotFound kind name (Some (type_name s))
  | ServiceNotFound name None => ServiceNotFound name (Some (type_name s))
  | e => e
  end.

Definition Registrar : Type := RuntimeInner → RuntimeBuilder → result CompositionError RuntimeBuilder.

Record AppBuilder := mk_app_builder {
  runtime_builder : RuntimeBuilder;
  adapter_types : gset string;
  effect_store_registered : bool;
  effect_retention_store_registered : bool;
  read_side_progress_ids : gset string;
  read_side_claims_registered : bool;
  service_registrars : list Registrar;
  pending_error : option CompositionError;
}.

Definition AppBuilder_new : AppBuilder :=
  mk_app_builder RuntimeBuilder_new ∅ false false ∅ false [] None.

(** *** Registrations: nothing happens once an error is pending *)
Definition unless_pending (f : AppBuilder → AppBuilder) (a : AppBuilder) : AppBuilder :=
  match pending_error a with Some _ => a | None => f a end.

Definition latch (e : CompositionError) (a : AppBuilder) : AppBuilder := a {{ pending_error := Some e }}.

Definition configure (f : RuntimeBuilder → RuntimeBuilder) (a : AppBuilder) : AppBuilder :=
  a {{ runtime_builder ::= f }}.

(** Clone, call, and keep the result or latch the error. *)
Definition try_configure {E} (wrap : E → CompositionError)
    (f : RuntimeBuilder → result E RuntimeBuilder) (a : AppBuilder) : AppBuilder :=
  match f (runtime_builder a) with
  | Ok b => a {{ runtime_builder := b }}
  | Err e => latch (wrap e) a
  end.

Definition adapter (ty : TypeOf) (p : Ptr) : AppBuilder → AppBuilder := unless_pending (λ a,
  if decide (type_id ty ∈ adapter_types a) then latch (DuplicateAdapter (type_name ty)) a
  else configure (with_adapter ty p) (a {{ adapter_types ::= union {[type_id ty]} }})).

Definition replace_adapter (ty : TypeOf) (p : Ptr) : AppBuilder → AppBuilder := unless_pending (λ a,
  configure (with_adapter ty p) (a {{ adapter_types ::= union {[type_id ty]} }})).

Definition config (ty : TypeOf) (p : Ptr) : AppBuilder → AppBuilder :=
  unless_pending (configure (with_config ty p)).

Definition projection (ty : TypeOf) (p : Ptr) : AppBuilder → AppBuilder :=
  unless_pending (try_configure Projection (with_projection ty p)).

Definition entity (e : Aggregate) (r : Ptr) : AppBuilder → AppBuilder :=
  unless_pending (try_configure Entity (with_entity e r)).

Definition app_logger (l : Ptr) : AppBuilder → AppBuilder := unless_pending (configure (with_logger l)).

Definition security (an az : Ptr) : AppBuilder → AppBuilder :=
  unless_pending (configure (with_security an az)).

Definition app_observability (o : Ptr) : AppBuilder → AppBuilder :=
  unless_pending (configure (with_observability o)).

Definition app_enforcement_mode (m : IdempotencyEnforcementMode) : AppBuilder → AppBuilder :=
  unless_pending (configure (with_idempotency_enforcement_mode m)).

Definition app_profile (p : Profile) : AppBuilder → AppBuilder :=
  unless_pending (configure (with_profile p)).

Definition operation_reservation_store (s : Store) : AppBuilder → AppBuilder :=
  unless_pending (configure (with_operation_reservation_store s)).

Definition enforced_idempotency (s : Store) (owner : OwnerId) (lease : Z) (clock : Ptr) :
    AppBuilder → AppBuilder := unless_pending (configure (λ b,
  with_reservation_clock clock (with_reservation_lease_duration lease
    (with_reservation_owner_id owner (with_operation_reservation_store s
      (with_idempotency_enforcement_mode MandatoryKey b)))))).

Definition effect_store (ty : TypeOf) (s : Store) : AppBuilder → AppBuilder := unless_pending (λ a,
  if effect_store_registered a then latch (DuplicateEffectStore (type_name ty)) a
  else configure (with_effect_store s) (a {{ effect_store_registered := true }})).

Definition app_effect_retention_store (s : Ptr) : AppBuilder → AppBuilder := unless_pending (λ a,
  if effect_retention_store_registered a then latch DuplicateEffectRetentionStore a
  else configure (with_effect_retention_store s) (a {{ effect_retention_store_registered := true }})).

Definition app_read_side_progress (projection_id : string) (offset dedup : Store) :
    AppBuilder → AppBuilder := unless_pending (λ a,
  if decide (projection_id ∈ read_side_progress_ids a)
  then latch (DuplicateReadSideProgress projection_id) a
  else configure (with_read_side_progress projection_id offset dedup)
         (a {{ read_side_progress_ids ::= union {[projection_id]} }})).

Definition app_read_side_claims (s : Store) : AppBuilder → AppBuilder := unless_pending (λ a,
  if read_side_claims_registered a then latch DuplicateReadSideClaimStore a
  else configure (with_read_side_claim_store s) (a {{ read_side_claims_registered := true }})).

Definition effect_executor (effect_types : list string) (executor : Ptr) : AppBuilder → AppBuilder :=
  unless_pending (try_configure EffectExecutor (register_effect_executor effect_types executor)).

Definition data_provider (provider_id : string) (provider : Ptr) : AppBuilder → AppBuilder :=
  unless_pending (try_configure DataProvider (register_data_provider provider_id provider)).

(** The closures of [service], [service_with_tag] and [service_instance]. *)
Definition construct (s : Injectable) (tag : Tag) : Registrar := λ scratch b,
  _ ← map_err Validation (map_err (attribute_to (inj_type s)) (inj_validate s scratch));
  instance ← map_err Validation (map_err (attribute_to (inj_type s)) (inj_build s scratch));
  map_err Service (with_service tag instance b).

Definition supply (tag : Tag) (svc : Ptr) : Registrar := λ _ b, map_err Service (with_service tag svc b).

Definition push_registrar (r : Registrar) : AppBuilder → AppBuilder :=
  unless_pending (λ a, a {{ service_registrars ::= (λ l, l ++ [r]) }}).

Definition service (s : Injectable) (tag : Tag) : AppBuilder → AppBuilder :=
  push_registrar (construct s tag).
Definition service_with_tag (s : Injectable) (tag : Tag) : AppBuilder → AppBuilder :=
  push_registrar (construct s tag).
Definition service_instance (tag : Tag) (svc : Ptr) : AppBuilder → AppBuilder :=
  push_registrar (supply tag svc).

(** *** Building *)
Fixpoint run_registrars (l : list Registrar) (scratch : RuntimeInner) (b : RuntimeBuilder) :
    result CompositionError RuntimeBuilder :=
  match l with
  | [] => Ok b
  | r :: rest => b' ← r scratch b; run_registrars rest scratch b'
  end.

Section build.
Context (SystemClock : Ptr).

(** [scratch] and [minted] are what the two runtimes mint. *)
Definition app_build (scratch minted : Minted) (a : AppBuilder) :
    Panics (result CompositionError Runtime) :=
  match pending_error a with
  | Some e => Returns (Err e)
  | None =>
      built ←
        match service_registrars a with
        | [] => Returns (Ok (runtime_builder a))
        | registrars =>
            s ← try_build SystemClock scratch (runtime_builder a);
            match s with
            | Err e => Returns (Err (Validation e))
            | Ok rt => Returns (run_registrars registrars (inner rt) (runtime_builder a))
            end
        end;
      match built with
      | Err e => Returns (Err e)
      | Ok b =>
          r ← try_build SystemClock minted b;
          Returns (map_err Validation r)
      end
  end.
End build.

(** ** Chains of registrations *)
Inductive AppCall :=
| CAdapter (ty : TypeOf) (p : Ptr) | CReplaceAdapter (ty : TypeOf) (p : Ptr) | CConfig (ty : TypeOf) (p : Ptr)
| CProjection (ty : TypeOf) (p : Ptr) | CEntity (e : Aggregate) (r : Ptr)
| CLogger (l : Ptr) | CSecurity (an az : Ptr) | CObservability (o : Ptr)
| CEnforcement (m : IdempotencyEnforcementMode) | CProfile (p : Profile)
| CReservationStore (s : Store) | CEnforced (s : Store) (owner : OwnerId) (lease : Z) (clock : Ptr)
| CEffectStore (ty : TypeOf) (s : Store) | CEffectRetentionStore (s : Ptr)
| CProgress (projection_id : string) (offset dedup : Store) | CClaims (s : Store)
| CExecutor (effect_types : list string) (executor : Ptr) | CProvider (provider_id : string) (p : Ptr)
| CService (s : Injectable) (tag : Tag) | CServiceWithTag (s : Injectable) (tag : Tag)
| CInstance (tag : Tag) (svc : Ptr).

Definition app_call (c : AppCall) : AppBuilder → AppBuilder :=
  match c with
  | CAdapter ty p => adapter ty p
  | CReplaceAdapter ty p => replace_adapter ty p
  | CConfig ty p => config ty p
  | CProjection ty p => projection ty p
  | CEntity e r => entity e r
  | CLogger l => app_logger l
  | CSecurity an az => security an az
  | CObservability o => app_observability o
  | CEnforcement m => app_enforcement_mode m
  | CProfile p => app_profile p
  | CReservationStore s => operation_reservation_store s
  | CEnforced s owner lease clock => enforced_idempotency s owner lease clock
  | CEffectStore ty s => effect_store ty s
  | CEffectRetentionStore s => app_effect_retention_store s
  | CProgress id o d => app_read_side_progress id o d
  | CClaims s => app_read_side_claims s
  | CExecutor tys x => effect_executor tys x
  | CProvider id p => data_provider id p
  | CService s tag => service s tag
  | CServiceWithTag s tag => service_with_tag s tag
  | CInstance tag svc => service_instance tag svc
  end.

Definition app_of (calls : list AppCall) : AppBuilder :=
  foldl (λ a c, app_call c a) AppBuilder_new calls.

(** ** What a chain should come to *)
Section history.
Implicit Types (pre calls : list AppCall) (c : AppCall) (id : string).

Definition adds_adapter id c : bool :=
  match c with CAdapter ty _ | CReplaceAdapter ty _ => bool_decide (type_id ty = id) | _ => false end.
Definition adds_projection id c : bool :=
  match c with CProjection ty _ => bool_decide (type_id ty = id) | _ => false end.
Definition adds_entity id c : bool :=
  match c with CEntity e _ => bool_decide (type_id (aggregate_type e) = id) | _ => false end.
Definition adds_effect_store c : bool := match c with CEffectStore _ _ => true | _ => false end.
Definition adds_retention_store c : bool := match c with CEffectRetentionStore _ => true | _ => false end.
Definition adds_progress id c : bool :=
  match c with CProgress i _ _ => bool_decide (i = id) | _ => false end.
Definition adds_claims c : bool := match c with CClaims _ => true | _ => false end.
Definition adds_provider id c : bool :=
  match c with CProvider i _ => bool_decide (i = id) | _ => false end.
Definition adds_executors c : list string := match c with CExecutor tys _ => tys | _ => [] end.

Definition executor_types pre : list string := concat (adds_executors <$> pre).

(** The first type that was seen before, or occurs twice. *)
Fixpoint first_repeat (seen tys : list string) : option string :=
  match tys with
  | [] => None
  | ty :: rest => if decide (ty ∈ seen) then Some ty else first_repeat (seen ++ [ty]) rest
  end.

(** The error of a call after the calls [pre]: it registers again what was registered. *)
Definition offence pre c : option CompositionError :=
  match c with
  | CAdapter ty _ =>
      if existsb (adds_adapter (type_id ty)) pre then Some (DuplicateAdapter (type_name ty)) else None
  | CProjection ty _ =>
      if existsb (adds_projection (type_id ty)) pre
      then Some (Projection (mk_duplicate_projection (type_name ty))) else None
  | CEntity e _ =>
      if existsb (adds_entity (type_id (aggregate_type e))) pre
      then Some (Entity (mk_duplicate_entity (type_name (aggregate_type e)))) else None
  | CEffectStore ty _ =>
      if existsb adds_effect_store pre then Some (DuplicateEffectStore (type_name ty)) else None
  | CEffectRetentionStore _ =>
      if existsb adds_retention_store pre then Some DuplicateEffectRetentionStore else None
  | CProgress id _ _ =>
      if existsb (adds_progress id) pre then Some (DuplicateReadSideProgress id) else None
  | CClaims _ => if existsb adds_claims pre then Some DuplicateReadSideClaimStore else None
  | CProvider id _ =>
      if existsb (adds_provider id) pre
      then Some (DataProvider (ProviderAlreadyRegistered id)) else None
  | CExecutor tys _ =>
      (λ ty, EffectExecutor (AlreadyRegistered ty)) <$> first_repeat (executor_types pre) tys
  | _ => None
  end.

Fixpoint first_offence_after pre calls : option CompositionError :=
  match calls with
  | [] => None
  | c :: rest =>
      match offence pre c with Some e => Some e | None => first_offence_after (pre ++ [c]) rest end
  end.
Definition first_offence := first_offence_after [].

(** The settings a call makes on the runtime builder, and the registrar it adds. *)
Definition settings_of c : list Setting :=
  match c with
  | CAdapter ty p | CReplaceAdapter ty p => [SAdapter ty p]
  | CConfig ty p => [SConfig ty p]
  | CProjection ty p => [SProjection ty p]
  | CEntity e r => [SEntity e r]
  | CLogger l => [SLogger l]
  | CSecurity an az => [SSecurity an az]
  | CObservability o => [SObservability o]
  | CEnforcement m => [SEnforcement m]
  | CProfile p => [SProfile p]
  | CReservationStore s => [SReservationStore s]
  | CEnforced s owner lease clock =>
      [SEnforcement MandatoryKey; SReservationStore s; SOwner owner; SLease lease; SReservationClock clock]
  | CEffectStore _ s => [SEffectStore s]
  | CEffectRetentionStore s => [SEffectRetentionStore s]
  | CProgress id o d => [SProgress id o d]
  | CClaims s => [SClaims s]
  | CExecutor tys x => [SExecutor tys x]
  | CProvider id p => [SProvider id p]
  | CService _ _ | CServiceWithTag _ _ | CInstance _ _ => []
  end.

Definition registrars_of c : list Registrar :=
  match c with
  | CService s tag | CServiceWithTag s tag => [construct s tag]
  | CInstance tag svc => [supply tag svc]
  | _ => []
  end.

(** The last call that says anything. *)
Definition last_of {A} (f : AppCall → option A) calls : option A :=
  foldl (λ acc c, match f c with Some x => Some x | None => acc end) None calls.

Definition adapter_of id c : option Ptr :=
  match c with
  | CAdapter ty p | CReplaceAdapter ty p => if decide (type_id ty = id) then Some p else None
  | _ => None
  end.
Definition config_of id c : option Ptr :=
  match c with CConfig ty p => if decide (type_id ty = id) then Some p else None | _ => None end.
Definition projection_of id c : option Ptr :=
  match c with CProjection ty p => if decide (type_id ty = id) then Some p else None | _ => None end.

(** The builder [a] is what the calls [pre] should have left. *)
Record follows pre (a : AppBuilder) : Prop := mk_follows {
  h_pending : pending_error a = None;
  h_adapters : ∀ id, id ∈ adapter_types a ↔ existsb (adds_adapter id) pre = true;
  h_projections : ∀ id, is_Some (projections (runtime_builder a) !! id) ↔
      existsb (adds_projection id) pre = true;
  h_entities : ∀ id, is_Some (entities (runtime_builder a) !! id) ↔ existsb (adds_entity id) pre = true;
  h_effect_store : effect_store_registered a = existsb adds_effect_store pre;
  h_retention : effect_retention_store_registered a = existsb adds_retention_store pre;
  h_progress : ∀ id, id ∈ read_side_progress_ids a ↔ existsb (adds_progress id) pre = true;
  h_claims : read_side_claims_registered a = existsb adds_claims pre;
  h_providers : ∀ id, is_Some (data_provider_registry (runtime_builder a) !! id) ↔
      existsb (adds_provider id) pre = true;
  h_executors : ∀ ty, is_Some (effect_executors (runtime_builder a) !! ty) ↔ ty ∈ executor_types pre;
  h_adapter_table : ∀ id, adapters (runtime_builder a) !! id = mk_any id <$> last_of (adapter_of id) pre;
  h_config_table : ∀ id, configs (runtime_builder a) !! id = mk_any id <$> last_of (config_of id) pre;
  h_projection_table : ∀ id,
      projections (runtime_builder a) !! id = mk_any id <$> last_of (projection_of id) pre;
  h_registry : b_registry (runtime_builder a) = ∅;
  h_settings : set_all (concat (settings_of <$> pre)) RuntimeBuilder_new = Ok (runtime_builder a);
  h_registrars : service_registrars a = concat (registrars_of <$> pre);
}.

Lemma set_all_app l l' b : set_all (l ++ l') b = (set_all l b ≫= set_all l').
Proof.
  revert b. induction l as [|s l IH]; intros b; [done|]. cbn [app set_all].
  destruct (set s b); [apply IH|done].
Qed.

Lemma register_all_spec tys x (m : gmap string Ptr) seen :
  (∀ ty, is_Some (m !! ty) ↔ ty ∈ seen) →
  match first_repeat seen tys with
  | Some ty => register_all tys x m = Err (AlreadyRegistered ty)
  | None => ∃ m', register_all tys x m = Ok m' ∧ ∀ ty, is_Some (m' !! ty) ↔ ty ∈ seen ++ tys
  end.
Proof.
  revert m seen. induction tys as [|ty tys IH]; intros m seen Hm.
  { simpl. exists m. split; [done|]. intros ty. by rewrite app_nil_r. }
  cbn [first_repeat register_all]. unfold RetryPolicy.register.
  case_decide as Hin.
  - apply Hm in Hin as [y Hy]. by rewrite Hy.
  - destruct (m !! ty) as [y|] eqn:Hy; [destruct Hin; apply Hm; by rewrite Hy|].
    assert (∀ t, is_Some (<[ty := x]> m !! t) ↔ t ∈ seen ++ [ty]) as Hm'.
    { intros t. rewrite lookup_insert_is_Some', Hm. set_solver. }
    specialize (IH _ _ Hm'). destruct (first_repeat _ tys); [done|].
    destruct IH as (m' & Hr & Hdom). exists m'. split; [done|]. intros t. rewrite Hdom. set_solver.
Qed.

(** Settings that succeed extend the ones before. *)
Lemma settings_snoc pre c b b' :
  set_all (concat (settings_of <$> pre)) RuntimeBuilder_new = Ok b →
  set_all (settings_of c) b = Ok b' →
  set_all (concat (settings_of <$> pre ++ [c])) RuntimeBuilder_new = Ok b'.
Proof.
  intros Hb Hc. rewrite fmap_app, concat_app, set_all_app, Hb. cbn [mbind result_bind fmap list_fmap concat].
  by rewrite app_nil_r.
Qed.

Lemma existsb_snoc (f : AppCall → bool) pre c : existsb f (pre ++ [c]) = existsb f pre || f c.
Proof. rewrite existsb_app. cbn [existsb]. by rewrite orb_false_r. Qed.

Lemma executor_types_snoc pre c : executor_types (pre ++ [c]) = executor_types pre ++ adds_executors c.
Proof. unfold executor_types. rewrite fmap_app, concat_app. simpl. by rewrite app_nil_r. Qed.

Lemma registrars_snoc pre c :
  concat (registrars_of <$> pre ++ [c]) = concat (registrars_of <$> pre) ++ registrars_of c.
Proof. rewrite fmap_app, concat_app. simpl. by rewrite app_nil_r. Qed.

(** Reduces what a tracked field should be after one more call to what it should have
    been before. *)
Lemma last_of_snoc {A} (f : AppCall → option A) pre c :
  last_of f (pre ++ [c]) = match f c with Some x => Some x | None => last_of f pre end.
Proof. unfold last_of. by rewrite foldl_app. Qed.

Lemma inserted_table (m : gmap string AnyArc) id i (p : Ptr) (o : option Ptr) :
  m !! i = mk_any i <$> o →
  <[id := mk_any id p]> m !! i =
    mk_any i <$> match (if decide (id = i) then Some p else None) with Some x => Some x | None => o end.
Proof. intros H. case_decide; subst; by simplify_map_eq. Qed.

Lemma if_None {A} (b : bool) (x : A) : (if b then Some x else None) = None → b = false.
Proof. by destruct b. Qed.

Lemma if_Some {A} (b : bool) (x y : A) : (if b then Some x else None) = Some y → b = true ∧ x = y.
Proof. by destruct b; [intros [= ->]|]. Qed.

Lemma inserted_iff {A} (m : gmap string A) id i (x : A) (f : bool) :
  (is_Some (m !! i) ↔ f = true) → is_Some (<[id := x]> m !! i) ↔ f || bool_decide (id = i) = true.
Proof. intros H. rewrite lookup_insert_is_Some', orb_true_iff, bool_decide_eq_true, H. tauto. Qed.

Lemma added_iff (X : gset string) id i (f : bool) :
  (i ∈ X ↔ f = true) → i ∈ {[id]} ∪ X ↔ f || bool_decide (id = i) = true.
Proof. intros H. rewrite orb_true_iff, bool_decide_eq_true, <-H. set_solver. Qed.

Lemma absent {A} (m : gmap string A) id (f : bool) :
  (is_Some (m !! id) ↔ f = true) → f = false → m !! id = None.
Proof. intros [H _] Hf. apply eq_None_not_Some. intros Hs%H. congruence. Qed.

Ltac after_call :=
  intros; rewrite ?existsb_snoc, ?executor_types_snoc, ?registrars_snoc, ?last_of_snoc; cbn;
  rewrite ?orb_false_r, ?orb_true_r, ?app_nil_r; unfold constant;
  eauto using inserted_iff, added_iff, inserted_table; try done.
Ltac tracked Hse :=
  split; [..|eapply settings_snoc; [exact Hse|]|]; after_call.

Lemma follows_ok pre c a : follows pre a → offence pre c = None → follows (pre ++ [c]) (app_call c a).
Proof.
  intros [Hpe Had Hpr Hen Hes Hre Hpg Hcl Hpv Hex Hta Htc Htp Hr0 Hse Hrg] Ho.
  destruct c; cbn [offence] in Ho; cbn [app_call];
    unfold adapter, replace_adapter, config, projection, entity, app_logger, security,
      app_observability, app_enforcement_mode, app_profile, operation_reservation_store,
      enforced_idempotency, effect_store, app_effect_retention_store, app_read_side_progress,
      app_read_side_claims, effect_executor, data_provider, service, service_with_tag,
      service_instance, push_registrar, unless_pending; rewrite Hpe;
    try (split; [..|eapply settings_snoc; [exact Hse|reflexivity]|]; by after_call).
  - apply if_None in Ho. rewrite decide_False by (rewrite Had; congruence). tracked Hse.
  - apply if_None in Ho. pose proof (absent _ _ _ (Hpr _) Ho) as Hl.
    unfold try_configure, with_projection. rewrite Hl. tracked Hse. unfold with_projection. by rewrite Hl.
  - apply if_None in Ho. pose proof (absent _ _ _ (Hen _) Ho) as Hl.
    unfold try_configure, with_entity. rewrite Hl. tracked Hse. unfold with_entity. by rewrite Hl.
  - apply if_None in Ho. rewrite Hes, Ho. tracked Hse.
  - apply if_None in Ho. rewrite Hre, Ho. tracked Hse.
  - apply if_None in Ho. rewrite decide_False by (rewrite Hpg; congruence). tracked Hse.
  - apply if_None in Ho. rewrite Hcl, Ho. tracked Hse.
  - pose proof (register_all_spec effect_types executor _ _ Hex) as Hr.
    destruct (first_repeat _ _); [done|]. destruct Hr as (m & Hr & Hd).
    unfold try_configure, register_effect_executor. rewrite Hr. cbn [mbind result_bind].
    tracked Hse. unfold register_effect_executor. by rewrite Hr.
  - apply if_None in Ho. pose proof (absent _ _ _ (Hpv _) Ho) as Hl.
    unfold try_configure, register_data_provider, register_provider. rewrite Hl. tracked Hse.
    unfold register_data_provider, register_provider. by rewrite Hl.
  - tracked Hse. by f_equal.
  - tracked Hse. by f_equal.
  - tracked Hse. by f_equal.
Qed.

Lemma offence_latches pre c a e :
  follows pre a → offence pre c = Some e → pending_error (app_call c a) = Some e.
Proof.
  intros [Hpe Had Hpr Hen Hes Hre Hpg Hcl Hpv Hex Hta Htc Htp Hr0 Hse Hrg] Ho.
  destruct c; cbn [offence] in Ho; try done; cbn [app_call];
    unfold adapter, projection, entity, effect_store, app_effect_retention_store,
      app_read_side_progress, app_read_side_claims, effect_executor, data_provider, unless_pending;
    rewrite Hpe; try apply if_Some in Ho as [Ho <-].
  - by rewrite decide_True by (by apply Had).
  - apply Hpr in Ho as [x Hx]. unfold try_configure, with_projection. by rewrite Hx.
  - apply Hen in Ho as [x Hx]. unfold try_configure, with_entity. by rewrite Hx.
  - by rewrite Hes, Ho.
  - by rewrite Hre, Ho.
  - by rewrite decide_True by (by apply Hpg).
  - by rewrite Hcl, Ho.
  - pose proof (register_all_spec effect_types executor _ _ Hex) as Hr.
    destruct (first_repeat _ _); [|done]. injection Ho as <-.
    unfold try_configure, register_effect_executor. by rewrite Hr.
  - apply Hpv in Ho as [x Hx]. unfold try_configure, register_data_provider, register_provider.
    by rewrite Hx.
Qed.

(** A builder with a pending error accepts nothing more. *)
Lemma latched_ignores c a : pending_error a ≠ None → app_call c a = a.
Proof.
  intros Hp. destruct (pending_error a) eqn:He; [|done].
  destruct c; cbn [app_call];
    unfold adapter, replace_adapter, config, projection, entity, app_logger, security,
      app_observability, app_enforcement_mode, app_profile, operation_reservation_store,
      enforced_idempotency, effect_store, app_effect_retention_store, app_read_side_progress,
      app_read_side_claims, effect_executor, data_provider, service, service_with_tag,
      service_instance, push_registrar, unless_pending; by rewrite He.
Qed.

Lemma follows_new : follows [] AppBuilder_new.
Proof.
  split; try done; intros; cbn [runtime_builder AppBuilder_new RuntimeBuilder_new adapter_types
    projections entities read_side_progress_ids data_provider_registry effect_executors];
    rewrite ?lookup_empty, ?elem_of_empty; try done; (split; [by try intros []|done || by intros ?%not_elem_of_nil]).
Qed.

Lemma calls_follow pre calls a :
  follows pre a →
  let a' := foldl (λ a c, app_call c a) a calls in
  match first_offence_after pre calls with
  | Some e => pending_error a' = Some e
  | None => follows (pre ++ calls) a'
  end.
Proof.
  revert pre a. induction calls as [|c calls IH]; intros pre a Hf; cbn [foldl first_offence_after].
  { by rewrite app_nil_r. }
  destruct (offence pre c) as [e|] eqn:Ho.
  - pose proof (offence_latches pre c a e Hf Ho) as Hl. cbn zeta.
    assert (foldl (λ a c, app_call c a) (app_call c a) calls = app_call c a) as ->; [|done].
    clear IH. induction calls as [|c' calls IH]; [done|]. cbn [foldl].
    by rewrite latched_ignores by (rewrite Hl; done).
  - rewrite (cons_middle c pre calls), app_assoc. apply IH. by apply follows_ok.
Qed.
End history.

(** ** Services *)
Section services.
Implicit Types (calls : list AppCall).

(** The instances the registrars register, in order. *)
Definition instance_of (scratch : RuntimeInner) (c : AppCall) : list (Tag * Ptr) :=
  match c with
  | CService s tag | CServiceWithTag s tag =>
      match inj_build s scratch with Ok p => [(tag, p)] | Err _ => [] end
  | CInstance tag svc => [(tag, svc)]
  | _ => []
  end.

Definition entry_of (x : Tag * Ptr) : string * ContractVersion * AnyArc :=
  (type_id (tag_type x.1), tag_version x.1, mk_any (tag_container x.1) x.2).

Definition validated (scratch : RuntimeInner) (c : AppCall) : Prop :=
  match c with
  | CService s _ | CServiceWithTag s _ =>
      inj_validate s scratch = Ok () ∧ is_ok (inj_build s scratch) = true
  | _ => True
  end.

(** The same composition with the registry [r]. *)
Definition same_but_registry (b b' : RuntimeBuilder) (r : gmap string (list (ContractVersion * AnyArc))) :
    Prop := b' = b {{ b_registry := r }}.

Lemma first_impl_app {I} (ops l : list (Registration (I:=I))) tag v i :
  first_impl ops tag v = Some i → first_impl (ops ++ l) tag v = Some i.
Proof.
  revert ops. induction l as [|op l IH]; intros ops Hi; [by rewrite app_nil_r|].
  rewrite (cons_middle op ops l), app_assoc. apply IH. by rewrite first_impl_snoc, Hi.
Qed.

(** A registration that is accepted is what its tag resolves to from then on. *)
Lemma with_service_spec tag p b b' ops :
  b_registry b = registered ops → with_service tag p b = Ok b' →
  same_but_registry b b' (registered (ops ++ [entry_of (tag, p)])) ∧
  first_impl (ops ++ [entry_of (tag, p)]) (type_id (tag_type tag)) (tag_version tag)
    = Some (mk_any (tag_container tag) p).
Proof.
  unfold with_service. intros Hr. rewrite Hr. unfold ServiceRegistry.register.
  destruct (has_version _ _) eqn:Hv; [done|]. intros [= <-]. split.
  - unfold same_but_registry. f_equal. unfold registered. rewrite foldl_app.
    cbn [foldl entry_of fst snd]. fold (registered ops). unfold ServiceRegistry.register. by rewrite Hv.
  - rewrite first_impl_snoc. cbn [entry_of fst snd]. rewrite decide_True by done.
    destruct (first_impl ops _ _) as [i|] eqn:Hi; [|done].
    apply versions_registered in Hi. apply not_true_iff_false in Hv. destruct Hv.
    apply has_version_true. eauto.
Qed.

Lemma same_registry b ops : b_registry b = registered ops → same_but_registry b b (registered ops).
Proof. intros <-. by destruct b. Qed.

Lemma same_registry_trans b b1 b2 r r1 :
  same_but_registry b b1 r → same_but_registry b1 b2 r1 → same_but_registry b b2 r1.
Proof. intros -> ->. by destruct b. Qed.

Lemma run_registrars_app l l' scratch b :
  run_registrars (l ++ l') scratch b = (run_registrars l scratch b ≫= run_registrars l' scratch).
Proof.
  revert b. induction l as [|r l IH]; intros b; [done|]. cbn [app run_registrars].
  destruct (r scratch b); [apply IH|done].
Qed.

(** [from ops ops' scratch b b' calls]: the calls took [b] to [b'], and the registrations
    from [ops] to [ops']. *)
Definition registers (scratch : RuntimeInner) calls b b' ops : Prop :=
  let ops' := ops ++ (entry_of <$> concat (instance_of scratch <$> calls)) in
  same_but_registry b b' (registered ops') ∧ Forall (validated scratch) calls ∧
  ∀ tag p, (tag, p) ∈ concat (instance_of scratch <$> calls) →
    first_impl ops' (type_id (tag_type tag)) (tag_version tag) = Some (mk_any (tag_container tag) p).

Lemma registrar_spec scratch c b b' ops :
  b_registry b = registered ops → run_registrars (registrars_of c) scratch b = Ok b' →
  registers scratch [c] b b' ops.
Proof.
  intros Hr Hrun. unfold registers. cbn [fmap list_fmap concat]. rewrite app_nil_r.
  destruct c; cbn [registrars_of run_registrars instance_of] in *;
    try (injection Hrun as <-; cbn [fmap list_fmap]; rewrite app_nil_r; split_and!;
         [by apply same_registry|by repeat constructor|by intros ?? ?%not_elem_of_nil]).
  1,2: apply bind_Ok in Hrun as (b1 & Hc & [= ->]); unfold construct in Hc;
    apply bind_Ok in Hc as ([] & Hv & Hc); apply bind_Ok in Hc as (p & Hb & Hw);
    apply map_err_Ok, map_err_Ok in Hv; apply map_err_Ok, map_err_Ok in Hb; apply map_err_Ok in Hw;
    rewrite Hb; cbn [fmap list_fmap]; destruct (with_service_spec _ _ _ _ _ Hr Hw) as [Hs Hf];
    (split_and!; [done|by repeat constructor; rewrite ?Hb|]);
    by intros ?? [= -> ->]%list_elem_of_singleton.
  apply bind_Ok in Hrun as (b1 & Hc & [= ->]). apply map_err_Ok in Hc. cbn [fmap list_fmap].
  destruct (with_service_spec _ _ _ _ _ Hr Hc) as [Hs Hf].
  split_and!; [done|by repeat constructor|]. by intros ?? [= -> ->]%list_elem_of_singleton.
Qed.

Lemma registrars_spec scratch calls b b' ops :
  b_registry b = registered ops →
  run_registrars (concat (registrars_of <$> calls)) scratch b = Ok b' →
  registers scratch calls b b' ops.
Proof.
  revert b ops. induction calls as [|c calls IH]; intros b ops Hr Hrun.
  { injection Hrun as <-. unfold registers. cbn. rewrite app_nil_r. split_and!;
      [by apply same_registry|constructor|by intros ?? ?%not_elem_of_nil]. }
  cbn [fmap list_fmap concat] in Hrun. rewrite run_registrars_app in Hrun.
  apply bind_Ok in Hrun as (b1 & Hc & Hrun).
  destruct (registrar_spec scratch c b b1 ops Hr Hc) as (Hs & Hv & Hf).
  cbn [fmap list_fmap concat] in Hs, Hf. rewrite app_nil_r in Hs, Hf.
  destruct (IH b1 _ ltac:(by rewrite Hs) Hrun) as (Hs' & Hv' & Hf').
  unfold registers. cbn [fmap list_fmap concat]. rewrite fmap_app, app_assoc. split_and!.
  - by eapply same_registry_trans.
  - by apply Forall_cons; split; [inversion Hv|].
  - intros tag p [Hin|Hin]%elem_of_app; [|by apply Hf']. by apply first_impl_app, Hf.
Qed.

(** A registration resolves to its proxy. *)
Lemma registered_resolves (rt : Runtime) ops tag p :
  registry (inner rt) = registered ops →
  first_impl ops (type_id (tag_type tag)) (tag_version tag) = Some (mk_any (tag_container tag) p) →
  resolve tag rt = Ok (mk_proxy p (interceptor_chain (inner rt))).
Proof.
  intros Hr Hf. unfold resolve. rewrite Hr.
  pose proof (resolution_is_highest ops (type_id (tag_type tag)) (Exact (tag_version tag))) as Hres.
  destruct (resolve_raw _ _ _) as [raw|e]; cbn [map_err mbind result_bind].
  - destruct Hres as (v & Hv & Hm & _). apply bool_decide_eq_true in Hm. subst v.
    rewrite Hf in Hv. injection Hv as <-. unfold create_proxy, downcast. cbn [any_type any_ptr].
    by rewrite decide_True by done.
  - destruct Hres as [_ Hno]. destruct (Hno _ _ Hf). by apply bool_decide_eq_true.
Qed.
End services.

(** ** The built application *)
(** Every store the runtime works with is durable, and one store is behind both effect
    handles. *)
Definition durable_runtime (rt : RuntimeInner) : Prop :=
  (∀ sub, effect_acceptor_impl rt = Some sub →
     is_durable (sub_state sub) = true ∧ sub_dedup sub = store_ptr (sub_state sub)) ∧
  (∀ r, reservation rt = Some r → is_durable (res_store r) = true).

Lemma assembled_durable clock minted b :
  builder_ok b → governed_stores_durable b →
  durable_runtime (inner (assemble clock minted b (reserving clock minted b))).
Proof.
  intros Hok (He & _ & _ & Hres). split.
  - cbn. intros sub Hsub. unfold build_acceptor, registry_is_empty in Hsub.
    case_bool_decide as Hx; [done|]. destruct (He Hx) as (s & Hs & Hd).
    rewrite (bo_effect_store b Hok), Hs in Hsub. by injection Hsub as <-.
  - cbn. unfold reserving. intros r (s & Hs & ->)%fmap_Some. by apply Hres.
Qed.

Lemma validated_dependencies deps t :
  validate_dependencies deps t = Ok () ↔ ∀ dep, dep ∈ deps → check_dependency dep t = Ok ().
Proof.
  induction deps as [|dep deps IH]; cbn [validate_dependencies].
  { split; [by intros _ ? ?%not_elem_of_nil|done]. }
  rewrite seq_Ok, IH. setoid_rewrite elem_of_cons. naive_solver.
Qed.

(** What the last calls registered is what the tables resolve to. *)
Lemma table_resolves (m : gmap string AnyArc) (ty : TypeOf) (o : option Ptr) :
  m !! type_id ty = mk_any (type_id ty) <$> o → m !! type_id ty ≫= downcast (type_id ty) = o.
Proof.
  intros ->. destruct o; [|done]. cbn [fmap option_fmap option_map mbind option_bind]. unfold downcast.
  by rewrite decide_True by done.
Qed.

Lemma app_build_inv clock scratch minted a app :
  app_build clock scratch minted a = Returns (Ok app) →
  pending_error a = None ∧ ∃ rt0 b,
    run_registrars (service_registrars a) rt0 (runtime_builder a) = Ok b ∧
    try_build clock minted b = Returns (Ok app) ∧
    (service_registrars a = [] ∧ rt0 = inner app ∨
     ∃ rt, try_build clock scratch (runtime_builder a) = Returns (Ok rt) ∧ rt0 = inner rt).
Proof.
  unfold app_build. destruct (pending_error a); [done|]. intros H. split; [done|].
  assert (∀ b, (r ← try_build clock minted b; Returns (map_err Validation r)) = Returns (Ok app) →
            try_build clock minted b = Returns (Ok app)) as Hlast.
  { intros b. destruct (try_build clock minted b) as [[]|]; cbn; naive_solver. }
  destruct (service_registrars a) as [|r l]; cbn [mbind panics_bind] in H; [by eauto 10|].
  destruct (try_build clock scratch (runtime_builder a)) as [[rt|e]|m]; cbn [mbind panics_bind] in H;
    [|done..]. destruct (run_registrars _ _ _) as [b|e] eqn:Hrun; [|done]. eauto 10.
Qed.

(** C29: When an application is built from a chain of registrations, no call registered
    anything twice; the configuration is the calls' in order and passes its checks, so
    under [Production] every store the runtime works with is durable; every service was
    validated and constructed against tables equal to the application's, and its tag
    resolves to the instance constructed; every supplied instance resolves; and adapters,
    configurations and projections resolve to what the last call registered. *)
Theorem built_app_is_sound (SystemClock : Ptr) (scratch minted : Minted) (calls : list AppCall)
    (app : Runtime) :
  app_build SystemClock scratch minted (app_of calls) = Returns (Ok app) →
  first_offence calls = None ∧
  (∃ b, set_all (concat (settings_of <$> calls)) RuntimeBuilder_new = Ok b ∧ accepted b ∧
     ¬ unworkable b ∧ (profile b = Production → durable_runtime (inner app))) ∧
  (∃ rt0, resolved rt0 = resolved (inner app) ∧ ∀ s tag,
     CService s tag ∈ calls ∨ CServiceWithTag s tag ∈ calls →
     inj_validate s rt0 = Ok () ∧ ∃ p, inj_build s rt0 = Ok p ∧
       resolve tag app = Ok (mk_proxy p (interceptor_chain (inner app)))) ∧
  (∀ tag p, CInstance tag p ∈ calls →
     resolve tag app = Ok (mk_proxy p (interceptor_chain (inner app)))) ∧
  (∀ ty, let t := resolved (inner app) in let id := type_id ty in
     resolve_adapter ty t = ok_or (dependency_not_found ty KAdapter) (last_of (adapter_of id) calls) ∧
     resolve_config ty t = ok_or (dependency_not_found ty KConfig) (last_of (config_of id) calls) ∧
     resolve_projection ty t =
       ok_or (dependency_not_found ty KProjection) (last_of (projection_of id) calls)).
Proof.
  intros (Hp & rt0 & b & Hrun & Htry & Hrt)%app_build_inv.
  pose proof (calls_follow [] calls AppBuilder_new follows_new) as Hf. cbn zeta in Hf.
  fold (app_of calls) in Hf. unfold first_offence.
  destruct (first_offence_after [] calls) as [e|]; [congruence|].
  destruct Hf as [_ _ _ _ _ _ _ _ _ _ Hta Htc Htp Hr0 Hse Hrg]. rewrite Hrg in Hrun.
  destruct (registrars_spec rt0 calls _ b [] Hr0 Hrun) as (Hs & Hv & Hfi).
  apply try_build_exact in Htry as (Ha & Hu & _ & Happ).
  assert (resolved rt0 = resolved (inner app)) as Ht0.
  { destruct Hrt as [[_ ->]|(rt & Hrt & ->)]; [done|].
    apply try_build_exact in Hrt as (_ & _ & _ & ->). by rewrite Happ, Hs. }
  assert (∀ tag p, (tag, p) ∈ concat (instance_of rt0 <$> calls) →
            resolve tag app = Ok (mk_proxy p (interceptor_chain (inner app)))) as Hres.
  { intros tag p Hin. eapply registered_resolves; [|by apply Hfi]. by rewrite Happ, Hs. }
  assert (∀ c x, c ∈ calls → x ∈ instance_of rt0 c → x ∈ concat (instance_of rt0 <$> calls)) as Hinst.
  { intros c x Hc Hx. apply list_elem_of_In, in_concat. exists (instance_of rt0 c).
    split; apply list_elem_of_In; [|done]. by apply list_elem_of_fmap_2. }
  rewrite Hs in Ha, Hu, Happ. clear Hrt Hrun Hs. subst app. split_and!; [done|..].
  - exists (runtime_builder (app_of calls)). split_and!; [done..|]. intros HP.
    exact (assembled_durable SystemClock minted _ (set_all_ok _ _ _ builder_ok_new Hse) (proj2 Ha HP)).
  - exists rt0. split; [done|]. intros s tag Hc.
    assert (∃ c, c ∈ calls ∧ validated rt0 c ∧
      (validated rt0 c → inj_validate s rt0 = Ok () ∧ is_ok (inj_build s rt0) = true) ∧
      ∀ p, inj_build s rt0 = Ok p → (tag, p) ∈ instance_of rt0 c) as (c & Hin & Hval & Hgo & Hi).
    { rewrite Forall_forall in Hv. destruct Hc as [Hc|Hc]; eexists; split_and!; [exact Hc|by apply Hv|done| |
        exact Hc|by apply Hv|done|]; intros p Hp'; cbn; rewrite Hp'; by apply list_elem_of_singleton. }
    destruct (Hgo Hval) as [Hok Hb]. split; [done|]. destruct (inj_build s rt0) as [p|]; [|done].
    exists p. split; [done|]. apply Hres. eauto.
  - intros tag p Hc. apply Hres. apply (Hinst (CInstance tag p)); [done|]. by apply list_elem_of_singleton.
  - intros ty. cbn zeta. unfold resolve_adapter, resolve_config, resolve_projection. cbn [resolved inner
      assemble t_adapters t_configs t_projections].
    split_and!; f_equal; apply table_resolves; [apply Hta|apply Htc|apply Htp].
Qed.

(** C30: A chain of registrations comes to its first offending call: [build] answers exactly
    that call's error whatever else would have failed, no later call changes anything,
    and a chain without an offence leaves the calls' settings, in order, and no error. *)
Theorem first_error_wins (SystemClock : Ptr) (scratch minted : Minted) (calls : list AppCall) :
  match first_offence calls with
  | Some e =>
      app_build SystemClock scratch minted (app_of calls) = Returns (Err e) ∧
      ∀ more, app_of (calls ++ more) = app_of calls
  | None =>
      pending_error (app_of calls) = None ∧
      set_all (concat (settings_of <$> calls)) RuntimeBuilder_new = Ok (runtime_builder (app_of calls))
  end.
Proof.
  pose proof (calls_follow [] calls AppBuilder_new follows_new) as Hf. cbn zeta in Hf.
  fold (app_of calls) in Hf. unfold first_offence. destruct (first_offence_after [] calls) as [e|].
  - split; [unfold app_build; by rewrite Hf|]. intros more. unfold app_of. rewrite foldl_app.
    fold (app_of calls). induction more as [|c more IH]; [done|]. cbn [foldl].
    rewrite latched_ignores; [exact IH|congruence].
  - split; apply Hf.
Qed.

Module Example_app.
Definition mailer : TypeOf := mk_type "t1" "app::Mailer".
Definition orders : Tag := mk_tag (mk_type "t2" "app::OrdersTag") "t3" (mk_version 1 0 0).
Definition orders_impl : Injectable :=
  default_injectable (mk_type "t4" "app::OrdersImpl") [DepAdapter mailer]
    (λ rt, resolve_adapter mailer (resolved rt)).
Definition durable (p : Ptr) : Store := mk_store p true.
Definition calls : list AppCall :=
  [CProfile Production; CReservationStore (durable 10%positive); CAdapter mailer 5%positive;
   CExecutor ["mail.sent"] 6%positive; CEffectStore (mk_type "t5" "app::Store") (durable 11%positive);
   CService orders_impl orders].
Definition minted : Minted := mk_minted 90%positive (mk_owner "o-1").

(** A production application: its service is constructed and resolves. *)
Lemma built_app_is_sound_witness :
  ∃ app, app_build 1%positive minted minted (app_of calls) = Returns (Ok app) ∧
    durable_runtime (inner app) ∧ resolve orders app = Ok (mk_proxy 5%positive []).
Proof.
  assert (∃ app, app_build 1%positive minted minted (app_of calls) = Returns (Ok app) ∧
            interceptor_chain (inner app) = [] ∧
            resolve_adapter mailer (resolved (inner app)) = Ok 5%positive) as (app & Happ & Hc & Ha)
    by (eexists; split_and!; reflexivity).
  exists app. split; [exact Happ|].
  destruct (built_app_is_sound 1%positive minted minted calls app Happ)
    as (_ & (b & Hb & _ & _ & Hd) & (rt0 & Ht & Hsvc) & _).
  split; [apply Hd; by injection Hb as <-|].
  destruct (Hsvc orders_impl orders) as (_ & p & Hp & ->); [left; by repeat constructor|].
  change (resolve_adapter mailer (resolved rt0) = Ok p) in Hp.
  rewrite Ht, Ha in Hp. injection Hp as <-. by rewrite Hc.
Defined.

(** A zero lease passes every check and then panics: [build], whose signature promises a
    [Result], does not return. *)
Lemma zero_lease_unwinds :
  app_build 1%positive minted minted (app_of [CEnforced (durable 10%positive) (mk_owner "o-2") 0%Z 3%positive])
    = Unwinds zero_lease_panic.
Proof. reflexivity. Qed.
End Example_app.
