(* ===== verification/RuntimeLifecycle.v ===== *)
(** * The lifecycle of a runtime

    crates/service-sdk: the lifecycle methods of [Runtime] (runtime/builder.rs), its
    teardown stack (runtime/logger.rs), [App::start] and [RunningApp::shutdown]
    (app/mod.rs).

    The first part has each method as a function on the runtime, for a host that calls
    them one after another; [tokio] says whether a Tokio runtime is active, without which
    spawning panics.  The second part interleaves any number of calls: a step is an
    atomic operation of one of them (the compare-and-exchange of a start, its spawn, the
    registration of its hook, the taking of the hooks, one awaited hook, the draining of
    the loggers). *)

From coqutil Require Import Datatypes.RecordSetters.
From S2P Require Import Prelude Identity Acceptor RetryPolicy Retention Composition Application.
Import DoubleBraceUpdate.

(** ** Hooks *)
(** What awaiting a hook's future comes to, by what its calls answered.  [None] is a
    panic. *)
Inductive HookRun :=
| RProviders (panicked : list bool)
| RTracer (panicked : bool)
| RDrain (r : option (result EffectRuntimeShutdownError ()))
| RStop (hook_panicked : bool) (joined : option Joined)
| RHost (r : option (result RuntimeInfraError ())).

Definition EffectRuntimeShutdownError_display (e : EffectRuntimeShutdownError) : string :=
  match e with
  | Timeout => "effect runtime shutdown deadline elapsed before the runner task finished"
  | RunnerPanicked => "effect runtime runner task panicked during shutdown"
  | RunnerCancelled => "effect runtime runner task was cancelled before finishing shutdown"
  end.

Definition providers_hook (panicked : list bool) : result RuntimeInfraError () :=
  if existsb id panicked then Err (Teardown "a data provider panicked during shutdown") else Ok ().

Definition drain_hook (r : result EffectRuntimeShutdownError ()) : result RuntimeInfraError () :=
  map_err (λ err, Teardown ("external-effects drain deadline reached before shutdown completed "
    +:+ "cleanly (drain_incomplete): " +:+ EffectRuntimeShutdownError_display err)) r.

(** The two retention hooks differ in their texts.  Their worker is still in its slot: a
    hook is awaited once. *)
Definition stop_hook (what : string) (hook_panicked : bool) (joined : option Joined) :
    result RuntimeInfraError () :=
  if hook_panicked then Err (Teardown ("the " +:+ what +:+ " teardown hook panicked")) else
  match retention_stop joined with
  | Stopped => Ok ()
  | RetentionPanicked => Err (Teardown ("the " +:+ what +:+ " worker panicked"))
  | TimedOut => Err (Teardown ("the " +:+ what +:+ " worker did not stop within its deadline"))
  end.

(** Outer [None]: not a run of this hook; inner [None]: the await unwinds. *)
Definition run_hook (h : Hook) (r : HookRun) : option (option (result RuntimeInfraError ())) :=
  match h, r with
  | ShutdownProviders ps, RProviders panicked =>
      if decide (length panicked = length ps) then Some (Some (providers_hook panicked)) else None
  | ShutdownTracer _, RTracer panicked => Some (if panicked then None else Some (Ok ()))
  | DrainEffects _, RDrain r => Some (drain_hook <$> r)
  | StopRetention _, RStop hp j => Some (Some (stop_hook "retention" hp j))
  | StopEffectRetention _, RStop hp j => Some (Some (stop_hook "effect retention" hp j))
  | HostHook _, RHost r => Some r
  | _, _ => None
  end.

(** ** The teardown stack *)
Definition push_teardown (l : Ptr) (entries : list Ptr) : list Ptr := entries ++ [l].

(** [drain]: pops the last entry until there is none; [close] is [KITLogger::shutdown].
    Besides the first error it gives the loggers it shut down, in order. *)
Fixpoint drain_entries (close : Ptr → result string ()) (entries : list Ptr)
    (first_err : option RuntimeInfraError) : option RuntimeInfraError * list Ptr :=
  match entries with
  | [] => (first_err, [])
  | l :: rest =>
      let '(first_err, shut) := drain_entries close rest
        match close l, first_err with
        | Err e, None => Some (Teardown e)
        | _, _ => first_err
        end in
      (first_err, l :: shut)
  end.
Definition drain_teardown (close : Ptr → result string ()) (entries : list Ptr) :
    result RuntimeInfraError () * list Ptr * list Ptr :=
  let '(first_err, shut) := drain_entries close (reverse entries) None in
  (match first_err with None => Ok () | Some e => Err e end, shut, []).

(** ** The host's logger *)
Inductive LogFormatSetting := FormatJson | FormatPretty | FormatCompact | FormatText.
Record LoggingSettings := mk_logging { logging_enabled : bool; logging_format : LogFormatSetting }.
Definition LoggingSettings_default : LoggingSettings := mk_logging true FormatJson.

(** The formats of [kitlogger]; [with_format] and [init] are its constructor and start. *)
Inductive LogFormat := Json | HumanReadable | Text.

(** [ConfigurationProvider::logging]: [get] and [from_value] are [serde_json]'s. *)
Definition logging {V} (get : string → V → option V) (null : V)
    (from_value : V → result string LoggingSettings) (root : V) :
    result RuntimeInfraError LoggingSettings :=
  map_err ConfigInvalid (from_value (default null (get "logging" root))).

Definition build_logger (with_format : LogFormat → Ptr) (init : Ptr → result string ())
    (cfg : LoggingSettings) : result RuntimeInfraError (option Ptr) :=
  if logging_enabled cfg then
    let fmt :=
      match logging_format cfg with
      | FormatJson => Json
      | FormatPretty => HumanReadable
      | FormatCompact => Text
      | FormatText => Text
      end in
    let logger := with_format fmt in
    _ ← map_err LoggerInit (init logger);
    Ok (Some logger)
  else Ok None.

(** ** Calls one after another *)
Definition no_reactor : string :=
  "there is no reactor running, must be called from the context of a Tokio 1.x runtime".

(** [RuntimeEffectAcceptor::start] spawns the runner in [Deferred] mode only. *)
Definition acceptor_starts (tokio : bool) (sub : EffectSubsystem) : bool :=
  match runner_mode (sub_config sub) with Deferred => tokio | Inline => true end.

Definition start_effects (tokio : bool) (rt : Runtime) :
    Panics (result RuntimeInfraError ()) * Runtime :=
  match effect_acceptor_impl (inner rt) with
  | None => (Returns (Ok ()), rt)
  | Some acceptor =>
      if effect_started (inner rt) then (Returns (Ok ()), rt) else
      let rt := rt {{ inner -> effect_started := true }} in
      if acceptor_starts tokio acceptor
      then (Returns (Ok ()), register_async_teardown (DrainEffects (drain_deadline (inner rt))) rt)
      else (Unwinds no_reactor, rt)
  end.

(** The acceptor, exposed as [EffectAcceptor]. *)
Definition effect_acceptor (rt : Runtime) : option EffectSubsystem :=
  if effect_started (inner rt) then effect_acceptor_impl (inner rt) else None.

(** [interval.saturating_mul(2).max(1s)] *)
Definition stop_deadline (interval : Z) : Z := Z.max (saturating_mul interval 2) (10 ^ 9).

Definition start_retention (tokio : bool) (rt : Runtime) :
    Panics (result RuntimeInfraError ()) * Runtime :=
  match rt_retention_policy rt with
  | None => (Returns (Ok ()), rt)
  | Some policy =>
      if retention_started (inner rt) then (Returns (Ok ()), rt) else
      let rt := rt {{ inner -> retention_started := true }} in
      match reservation (inner rt) with
      | None => (Unwinds "build() refuses a retention policy without a reservation store", rt)
      | Some _ =>
          if tokio
          then (Returns (Ok ()), register_async_teardown (StopRetention (stop_deadline (interval policy))) rt)
          else (Unwinds no_reactor, rt)
      end
  end.

Definition start_retention_effects (tokio : bool) (rt : Runtime) :
    Panics (result RuntimeInfraError ()) * Runtime :=
  match rt_effect_retention_policy rt with
  | None => (Returns (Ok ()), rt)
  | Some policy =>
      if effect_retention_started (inner rt) then (Returns (Ok ()), rt) else
      let rt := rt {{ inner -> effect_retention_started := true }} in
      match retention_store (inner rt) with
      | None =>
          (Unwinds "build() refuses an effect retention policy without a RetentionMaintenance", rt)
      | Some _ =>
          if tokio
          then (Returns (Ok ()),
                register_async_teardown (StopEffectRetention (stop_deadline (effect_interval policy))) rt)
          else (Unwinds no_reactor, rt)
      end
  end.

(** The answer, the loggers shut down, and the runtime. *)
Definition shutdown (close : Ptr → result string ()) (rt : Runtime) :
    result RuntimeInfraError () * list Ptr * Runtime :=
  let '(r, shut, left_) := drain_teardown close (teardown (inner rt)) in
  (r, shut, rt {{ inner -> teardown := left_ }}).

(** The loop of [shutdown_async]: the hooks awaited with their results, and the first
    error, unless a hook unwound. *)
Fixpoint await_hooks (run : Hook → option (result RuntimeInfraError ())) (hooks : list Hook)
    (first : option RuntimeInfraError) :
    list (Hook * result RuntimeInfraError ()) * Panics (option RuntimeInfraError) :=
  match hooks with
  | [] => ([], Returns first)
  | h :: rest =>
      match run h with
      | None => ([], Unwinds "hook panicked")
      | Some r =>
          let '(ran, out) := await_hooks run rest
            match r, first with Err e, None => Some e | _, _ => first end in
          ((h, r) :: ran, out)
      end
  end.

(** What a [shutdown_async] did: the hooks it awaited, with their results, what the loggers
    answered, if it came to them, and the loggers it shut down. *)
Record ShutdownTrace := mk_trace {
  tr_awaited : list (Hook * result RuntimeInfraError ());
  tr_sync : option (result RuntimeInfraError ());
  tr_closed : list Ptr;
}.

Definition shutdown_async (run : Hook → option (result RuntimeInfraError ()))
    (close : Ptr → result string ()) (rt : Runtime) :
    Panics (result RuntimeInfraError ()) * ShutdownTrace * Runtime :=
  let hooks := async_teardown (inner rt) in
  let rt := rt {{ inner -> async_teardown := [] }} in
  let '(ran, awaited) := await_hooks run hooks None in
  match awaited with
  | Unwinds m => (Unwinds m, mk_trace ran None [], rt)
  | Returns first_hook_err =>
      let '(sync_result, shut, rt) := shutdown close rt in
      (Returns match first_hook_err with Some e => Err e | None => sync_result end,
       mk_trace ran (Some sync_result) shut, rt)
  end.

(** [App::start]: [start_effects], and a rollback if it fails. *)
Definition app_start (tokio : bool) (run : Hook → option (result RuntimeInfraError ()))
    (close : Ptr → result string ()) (rt : Runtime) : Panics (result CompositionError Runtime) * Runtime :=
  match start_effects tokio rt with
  | (Unwinds m, rt) => (Unwinds m, rt)
  | (Returns (Err startup_err), rt) =>
      match shutdown_async run close rt with
      | (Unwinds m, _, rt) => (Unwinds m, rt)
      | (Returns _, _, rt) => (Returns (Err (Startup startup_err)), rt)
      end
  | (Returns (Ok _), rt) => (Returns (Ok rt), rt)
  end.

Definition running_shutdown (run : Hook → option (result RuntimeInfraError ()))
    (close : Ptr → result string ()) (rt : Runtime) : Panics (result CompositionError ()) * Runtime :=
  match shutdown_async run close rt with
  | (Unwinds m, _, rt) => (Unwinds m, rt)
  | (Returns r, _, rt) => (Returns (map_err Shutdown r), rt)
  end.

(** ** Calls at the same time *)
Inductive Worker := WEffects | WRetention | WEffectRetention.
#[export] Instance Worker_eq_dec : EqDecision Worker.
Proof. solve_decision. Defined.

(** The hook a start of [w] registers, if there is anything to start. *)
Definition start_hook (w : Worker) (rt : Runtime) : option Hook :=
  match w with
  | WEffects => (λ _, DrainEffects (drain_deadline (inner rt))) <$> effect_acceptor_impl (inner rt)
  | WRetention => (λ p, StopRetention (stop_deadline (interval p))) <$> rt_retention_policy rt
  | WEffectRetention =>
      (λ p, StopEffectRetention (stop_deadline (effect_interval p))) <$> rt_effect_retention_policy rt
  end.

Definition started (w : Worker) (rt : Runtime) : bool :=
  match w with
  | WEffects => effect_started (inner rt)
  | WRetention => retention_started (inner rt)
  | WEffectRetention => effect_retention_started (inner rt)
  end.

Definition mark_started (w : Worker) (rt : Runtime) : Runtime :=
  match w with
  | WEffects => rt {{ inner -> effect_started := true }}
  | WRetention => rt {{ inner -> retention_started := true }}
  | WEffectRetention => rt {{ inner -> effect_retention_started := true }}
  end.

Definition take_hooks (rt : Runtime) : Runtime := rt {{ inner -> async_teardown := [] }}.

(** A call under way: a start that won its exchange, or a [shutdown_async] with the hooks
    it has awaited and their results, those still to await, and the error it keeps. *)
Inductive Call :=
| Won (w : Worker) (h : Hook)
| Spawned (w : Worker) (h : Hook)
| StartReturned (w : Worker) (h : Hook)
| StartUnwound (w : Worker)
| Awaiting (ran : list (Hook * result RuntimeInfraError ())) (todo : list Hook)
    (first_hook_err : option RuntimeInfraError)
| ShutdownReturned (ran : list (Hook * result RuntimeInfraError ()))
    (sync r : result RuntimeInfraError ())
| ShutdownUnwound (ran : list (Hook * result RuntimeInfraError ())) (lost : list Hook).

(** [hooked] and [closed] record every hook registered and every logger shut down. *)
Record System := mk_system {
  s_rt : Runtime;
  calls : list Call;
  hooked : list Hook;
  closed : list Ptr;
}.

Definition keep_first (r : result RuntimeInfraError ()) (first : option RuntimeInfraError) :
    option RuntimeInfraError :=
  match r, first with Err e, None => Some e | _, _ => first end.

Inductive step : System → System → Prop :=
| step_register rt cs hs cl n :
    step (mk_system rt cs hs cl)
      (mk_system (register_async_teardown (HostHook n) rt) cs (hs ++ [HostHook n]) cl)
| step_win rt cs hs cl w h :
    start_hook w rt = Some h → started w rt = false →
    step (mk_system rt cs hs cl) (mk_system (mark_started w rt) (cs ++ [Won w h]) hs cl)
| step_spawn rt cs hs cl i w h :
    cs !! i = Some (Won w h) →
    step (mk_system rt cs hs cl) (mk_system rt (<[i := Spawned w h]> cs) hs cl)
| step_spawn_panics rt cs hs cl i w h :
    cs !! i = Some (Won w h) →
    step (mk_system rt cs hs cl) (mk_system rt (<[i := StartUnwound w]> cs) hs cl)
| step_hook rt cs hs cl i w h :
    cs !! i = Some (Spawned w h) →
    step (mk_system rt cs hs cl)
      (mk_system (register_async_teardown h rt) (<[i := StartReturned w h]> cs) (hs ++ [h]) cl)
| step_take rt cs hs cl :
    step (mk_system rt cs hs cl)
      (mk_system (take_hooks rt) (cs ++ [Awaiting [] (async_teardown (inner rt)) None]) hs cl)
| step_await rt cs hs cl i ran h todo first r res :
    cs !! i = Some (Awaiting ran (h :: todo) first) → run_hook h r = Some (Some res) →
    step (mk_system rt cs hs cl)
      (mk_system rt (<[i := Awaiting (ran ++ [(h, res)]) todo (keep_first res first)]> cs) hs cl)
| step_await_panics rt cs hs cl i ran h todo first r :
    cs !! i = Some (Awaiting ran (h :: todo) first) → run_hook h r = Some None →
    step (mk_system rt cs hs cl)
      (mk_system rt (<[i := ShutdownUnwound ran (h :: todo)]> cs) hs cl)
| step_finish rt cs hs cl i ran first close sync shut rt' :
    cs !! i = Some (Awaiting ran [] first) → shutdown close rt = (sync, shut, rt') →
    step (mk_system rt cs hs cl)
      (mk_system rt'
         (<[i := ShutdownReturned ran sync match first with Some e => Err e | None => sync end]> cs)
         hs (cl ++ shut))
| step_shutdown rt cs hs cl close sync shut rt' :
    shutdown close rt = (sync, shut, rt') →
    step (mk_system rt cs hs cl) (mk_system rt' cs hs (cl ++ shut)).

Definition initial (rt : Runtime) : System := mk_system rt [] (async_teardown (inner rt)) [].

(** ** What holds of every interleaving *)
(** The hooks a call took. *)
Definition batch (c : Call) : list Hook :=
  match c with
  | Awaiting ran todo _ => ran.*1 ++ todo
  | ShutdownReturned ran _ _ => ran.*1
  | ShutdownUnwound ran lost => ran.*1 ++ lost
  | _ => []
  end.

(** Whether a call won the start of [w], and whether it spawned the worker. *)
Definition wins (w : Worker) (c : Call) : nat :=
  match c with
  | Won v _ | Spawned v _ | StartReturned v _ | StartUnwound v => if decide (v = w) then 1 else 0
  | _ => 0
  end.
Definition spawns (w : Worker) (c : Call) : nat :=
  match c with Spawned v _ | StartReturned v _ => if decide (v = w) then 1 else 0 | _ => 0 end.

Definition first_error (ran : list (Hook * result RuntimeInfraError ())) : option RuntimeInfraError :=
  foldl (λ f x, keep_first x.2 f) None ran.

(** A shutdown keeps the first error of the hooks it awaited, and answers it before the
    loggers'; a start that returned has registered its hook. *)
Definition call_ok (hs : list Hook) (c : Call) : Prop :=
  match c with
  | Awaiting ran _ first => first = first_error ran
  | ShutdownReturned ran sync r => r = match first_error ran with Some e => Err e | None => sync end
  | StartReturned _ h => h ∈ hs
  | _ => True
  end.

Record lifecycle_ok (rt0 : Runtime) (s : System) : Prop := mk_lifecycle_ok {
  lo_hooks : hooked s = concat (batch <$> calls s) ++ async_teardown (inner (s_rt s));
  lo_wins : ∀ w, sum_list (wins w <$> calls s) = if started w (s_rt s) then 1 else 0;
  lo_calls : Forall (call_ok (hooked s)) (calls s);
  lo_closed : closed s ++ reverse (teardown (inner (s_rt s))) = reverse (teardown (inner rt0));
}.

Lemma fmap_insert_same {A} (f : Call → A) (cs : list Call) (i : nat) c c' :
  cs !! i = Some c → f c' = f c → f <$> <[i := c']> cs = f <$> cs.
Proof.
  intros Hi Hf. rewrite list_fmap_insert, Hf. apply list_insert_id. by rewrite list_lookup_fmap, Hi.
Qed.

Lemma call_ok_more hs hs' c : call_ok hs c → call_ok (hs ++ hs') c.
Proof. destruct c; try done. cbn. set_solver. Qed.

Lemma calls_ok_more hs hs' cs : Forall (call_ok hs) cs → Forall (call_ok (hs ++ hs')) cs.
Proof. intros H. eapply Forall_impl; [exact H|]. intros c. apply call_ok_more. Qed.

Lemma first_error_snoc ran x : first_error (ran ++ [x]) = keep_first x.2 (first_error ran).
Proof. unfold first_error. by rewrite foldl_app. Qed.

Lemma sum_list_snoc l n : sum_list (l ++ [n]) = sum_list l + n.
Proof. induction l; simpl in *; lia. Qed.

Lemma started_marked w v rt : started w (mark_started v rt) = bool_decide (v = w) || started w rt.
Proof. by destruct w, v. Qed.

Lemma marked_keeps w rt :
  async_teardown (inner (mark_started w rt)) = async_teardown (inner rt) ∧
  teardown (inner (mark_started w rt)) = teardown (inner rt).
Proof. by destruct w. Qed.

(** A call's step keeps its batch and its win, whatever it does otherwise. *)
Lemma call_step rt0 rt cs hs cl (i : nat) c c' :
  lifecycle_ok rt0 (mk_system rt cs hs cl) → cs !! i = Some c →
  batch c' = batch c → (∀ w, wins w c' = wins w c) → call_ok hs c' →
  lifecycle_ok rt0 (mk_system rt (<[i := c']> cs) hs cl).
Proof.
  intros [Hh Hw Hc Hcl] Hi Hb Hwin Hok. cbn in *. split; cbn; [|..|done].
  - by rewrite (fmap_insert_same batch _ _ _ _ Hi Hb).
  - intros w. by rewrite (fmap_insert_same (wins w) _ _ _ _ Hi (Hwin w)).
  - by apply Forall_insert.
Qed.

Lemma call_at rt0 rt cs hs cl (i : nat) c :
  lifecycle_ok rt0 (mk_system rt cs hs cl) → cs !! i = Some c → call_ok hs c.
Proof. intros [_ _ Hc _] Hi. eapply Forall_lookup_1; [exact Hc|done]. Qed.

Lemma register_ok rt0 rt cs hs cl h :
  lifecycle_ok rt0 (mk_system rt cs hs cl) →
  lifecycle_ok rt0 (mk_system (register_async_teardown h rt) cs (hs ++ [h]) cl).
Proof.
  intros [Hh Hw Hc Hcl]. cbn in *. split; cbn; [|done|by apply calls_ok_more|done].
  by rewrite Hh, <-app_assoc.
Qed.

Lemma drain_entries_spec close entries first :
  drain_entries close entries first =
    (foldl (λ f r, keep_first r f) first (map_err Teardown ∘ close <$> entries), entries).
Proof.
  revert first. induction entries as [|l entries IH]; intros first; [done|]. cbn. rewrite IH.
  by destruct (close l), first.
Qed.

Definition first_failure (l : list (result RuntimeInfraError ())) : option RuntimeInfraError :=
  foldl (λ f r, keep_first r f) None l.

(** The first error of the loggers, the last one first. *)
Definition loggers_answer (close : Ptr → result string ()) (loggers : list Ptr) :
    result RuntimeInfraError () :=
  match first_failure (map_err Teardown ∘ close <$> reverse loggers) with
  | Some e => Err e
  | None => Ok ()
  end.

(** A shutdown closes every logger, the last one first, whatever some of them answer, and
    answers the first error. *)
Lemma shutdown_closes close rt sync shut rt' :
  shutdown close rt = (sync, shut, rt') →
  shut = reverse (teardown (inner rt)) ∧ rt' = rt {{ inner -> teardown := [] }} ∧
  sync = loggers_answer close (teardown (inner rt)).
Proof.
  unfold shutdown, drain_teardown. rewrite drain_entries_spec. intros [= <- <- <-].
  split_and!; [done..|]. unfold loggers_answer, first_failure. by destruct (foldl _ _ _).
Qed.

Lemma close_ok rt0 rt cs hs cl close sync shut rt' :
  shutdown close rt = (sync, shut, rt') →
  lifecycle_ok rt0 (mk_system rt cs hs cl) → lifecycle_ok rt0 (mk_system rt' cs hs (cl ++ shut)).
Proof.
  intros (-> & -> & _)%shutdown_closes [Hh Hw Hc Hcl]. cbn in *. split; cbn; try done. unfold constant.
  by rewrite (app_nil_r (_ ++ _)).
Qed.

Lemma lifecycle_step rt0 s s' : step s s' → lifecycle_ok rt0 s → lifecycle_ok rt0 s'.
Proof.
  intros Hst Hok. destruct Hst as [rt cs hs cl n|rt cs hs cl w h Hh Hs|rt cs hs cl i w h Hi
    |rt cs hs cl i w h Hi|rt cs hs cl i w h Hi|rt cs hs cl|rt cs hs cl i ran h todo f r res Hi Hr
    |rt cs hs cl i ran h todo f r Hi Hr|rt cs hs cl i ran f close sync shut rt' Hi Hs
    |rt cs hs cl close sync shut rt' Hs].
  - by apply register_ok.
  - destruct Hok as [Hho Hw Hc Hcl]. cbn in *. destruct (marked_keeps w rt) as [Ha Ht].
    split; cbn; rewrite ?Ha, ?Ht; [|..|done].
    + rewrite fmap_app, concat_app. cbn. by rewrite !app_nil_r.
    + intros v. rewrite fmap_app, started_marked. cbn [fmap list_fmap]. rewrite sum_list_snoc, Hw.
      cbn [wins]. destruct (decide (w = v)) as [<-|Hne]; [by rewrite Hs, bool_decide_true|].
      by rewrite bool_decide_false by done.
    + by apply Forall_app; split; [|constructor].
  - by eapply call_step.
  - by eapply call_step.
  - pose proof (register_ok _ _ _ _ _ h Hok) as Hok'. eapply call_step; [exact Hok'|done..|].
    cbn. set_solver.
  - destruct Hok as [Hho Hw Hc Hcl]. cbn in *. split; cbn; [..|done].
    + rewrite fmap_app, concat_app. cbn. by rewrite !app_nil_r.
    + intros v. rewrite fmap_app. cbn [fmap list_fmap wins]. by rewrite sum_list_snoc, Hw, Nat.add_0_r.
    + by apply Forall_app; split; [|constructor].
  - pose proof (call_at _ _ _ _ _ _ _ Hok Hi) as ->. eapply call_step; [done..| |done|].
    + cbn. by rewrite fmap_app, <-app_assoc.
    + cbn. by rewrite first_error_snoc.
  - by eapply call_step.
  - pose proof (call_at _ _ _ _ _ _ _ Hok Hi) as ->.
    eapply call_step; [by eapply close_ok|exact Hi|cbn; by rewrite app_nil_r|done|done].
  - by eapply close_ok.
Qed.

Lemma lifecycle_reachable rt0 s :
  (∀ w, started w rt0 = false) → rtc step (initial rt0) s → lifecycle_ok rt0 s.
Proof.
  intros Hfresh Hr. remember (initial rt0) as s0 eqn:Hs0.
  assert (lifecycle_ok rt0 s0) as H0.
  { subst. split; cbn; [done| |constructor|done]. intros w. by rewrite Hfresh. }
  clear Hs0. induction Hr; eauto using lifecycle_step.
Qed.

Lemma built_fresh clock minted b rt : build clock minted b = Returns rt → ∀ w, started w rt = false.
Proof.
  unfold build. intros H. destruct (validate_idempotency b); [|done].
  destruct (validate_persistence_profile b); [|done].
  destruct (build_reservation _ _ _) as [res|]; [|done]. cbn [mbind panics_bind] in H.
  destruct (assert_purgeable (retention_policy b) _ _); [|done]. cbn [mbind panics_bind] in H.
  destruct (assert_purgeable (effect_retention_policy b) _ _); [|done].
  cbn [mbind panics_bind] in H. injection H as <-. by intros [].
Qed.

Lemma spawns_le_wins w cs : sum_list (spawns w <$> cs) ≤ sum_list (wins w <$> cs).
Proof. induction cs as [|[] cs IH]; cbn; try case_decide; lia. Qed.

(** The hooks a finished call awaited. *)
Definition awaited (c : Call) : list Hook :=
  match c with ShutdownReturned ran _ _ => ran.*1 | _ => [] end.
Definition unfinished (c : Call) : bool :=
  match c with Awaiting _ _ _ | ShutdownUnwound _ _ => true | _ => false end.

Lemma settled_batches cs :
  Forall (λ c, unfinished c = false) cs → concat (batch <$> cs) = concat (awaited <$> cs).
Proof. induction 1 as [|c cs Hc _ IH]; [done|]. cbn. rewrite IH. by destruct c. Qed.

(** ** The methods are runs of the steps *)
Lemma insert_last {A} (l : list A) x y : <[length l := y]> (l ++ [x]) = l ++ [y].
Proof. induction l; simpl; congruence. Qed.

Lemma last_step rt rt' hs hs' cl cl' cs c c' :
  (∀ i cs, cs !! i = Some c →
     step (mk_system rt cs hs cl) (mk_system rt' (<[i := c']> cs) hs' cl')) →
  step (mk_system rt (cs ++ [c]) hs cl) (mk_system rt' (cs ++ [c']) hs' cl').
Proof. intros Hst. rewrite <-(insert_last cs c c'). apply Hst. by apply list_lookup_middle. Qed.

Definition start_call (w : Worker) (tokio : bool) (rt : Runtime) :
    Panics (result RuntimeInfraError ()) * Runtime :=
  match w with
  | WEffects => start_effects tokio rt
  | WRetention => start_retention tokio rt
  | WEffectRetention => start_retention_effects tokio rt
  end.

(** A start that ran alone from [s]: nothing to start or started already; or it won, and
    returned with its worker's hook registered, or unwound. *)
Definition start_run (w : Worker) (s : System) (r : Panics (result RuntimeInfraError ()))
    (s' : System) : Prop :=
  closed s' = closed s ∧
  match r with
  | Returns (Ok _) =>
      (s' = s ∧ (start_hook w (s_rt s) = None ∨ started w (s_rt s) = true)) ∨
      ∃ h, start_hook w (s_rt s) = Some h ∧ started w (s_rt s) = false ∧
        calls s' = calls s ++ [StartReturned w h] ∧ hooked s' = hooked s ++ [h]
  | Returns (Err _) => False
  | Unwinds _ => started w (s_rt s) = false ∧ calls s' = calls s ++ [StartUnwound w] ∧
                 hooked s' = hooked s
  end.

Lemma start_won rt cs hs cl w h :
  start_hook w rt = Some h → started w rt = false →
  rtc step (mk_system rt cs hs cl) (mk_system (register_async_teardown h (mark_started w rt))
    (cs ++ [StartReturned w h]) (hs ++ [h]) cl) ∧
  rtc step (mk_system rt cs hs cl)
    (mk_system (mark_started w rt) (cs ++ [StartUnwound w]) hs cl).
Proof.
  intros Hh Hs. split; (eapply rtc_l; [by apply (step_win _ _ _ _ w h)|]).
  - eapply rtc_l; [apply last_step; intros; by apply step_spawn|].
    apply rtc_once, last_step. intros. by eapply step_hook.
  - apply rtc_once, last_step. intros. by eapply step_spawn_panics.
Qed.

Lemma start_is_run w tokio s r rt' :
  start_call w tokio (s_rt s) = (r, rt') →
  ∃ s', rtc step s s' ∧ s_rt s' = rt' ∧ start_run w s r s'.
Proof.
  destruct s as [rt cs hs cl]. cbn [s_rt].
  assert (∀ h, start_hook w rt = Some h → started w rt = false →
    (∃ s', rtc step (mk_system rt cs hs cl) s' ∧
       s_rt s' = register_async_teardown h (mark_started w rt) ∧
       start_run w (mk_system rt cs hs cl) (Returns (Ok ())) s') ∧
    ∀ m, ∃ s', rtc step (mk_system rt cs hs cl) s' ∧ s_rt s' = mark_started w rt ∧
       start_run w (mk_system rt cs hs cl) (Unwinds m) s') as Hwon.
  { intros h Hh Hs. destruct (start_won rt cs hs cl w h Hh Hs) as [H1 H2]. split.
    - eexists. split; [exact H1|]. split; [done|]. split; [done|]. right. by exists h.
    - intros m. eexists. split; [exact H2|]. split; [done|]. by split_and!. }
  assert (start_hook w rt = None ∨ started w rt = true →
    ∃ s', rtc step (mk_system rt cs hs cl) s' ∧ s_rt s' = rt ∧
      start_run w (mk_system rt cs hs cl) (Returns (Ok ())) s') as Hnothing.
  { intros Hor. eexists. split; [apply rtc_refl|]. split; [done|]. split; [done|]. by left. }
  destruct w; unfold start_call, start_effects, start_retention, start_retention_effects.
  - destruct (effect_acceptor_impl (inner rt)) as [sub|] eqn:Hi;
      [|intros [= <- <-]; apply Hnothing; left; cbn; by rewrite Hi].
    destruct (effect_started (inner rt)) eqn:Hst; [intros [= <- <-]; apply Hnothing; by right|].
    destruct (Hwon (DrainEffects (drain_deadline (inner rt)))) as [H1 H2]; [cbn; by rewrite Hi|done|].
    destruct (acceptor_starts tokio sub); intros [= <- <-]; [exact H1|apply H2].
  - destruct (rt_retention_policy rt) as [p|] eqn:Hi;
      [|intros [= <- <-]; apply Hnothing; left; cbn; by rewrite Hi].
    destruct (retention_started (inner rt)) eqn:Hst; [intros [= <- <-]; apply Hnothing; by right|].
    destruct (Hwon (StopRetention (stop_deadline (interval p)))) as [H1 H2]; [cbn; by rewrite Hi|done|].
    destruct (reservation _); [destruct tokio|]; intros [= <- <-]; [exact H1|apply H2..].
  - destruct (rt_effect_retention_policy rt) as [p|] eqn:Hi;
      [|intros [= <- <-]; apply Hnothing; left; cbn; by rewrite Hi].
    destruct (effect_retention_started (inner rt)) eqn:Hst;
      [intros [= <- <-]; apply Hnothing; by right|].
    destruct (Hwon (StopEffectRetention (stop_deadline (effect_interval p)))) as [H1 H2];
      [cbn; by rewrite Hi|done|].
    destruct (retention_store _); [destruct tokio|]; intros [= <- <-]; [exact H1|apply H2..].
Qed.

(** A shutdown that ran alone from [s]: what it did is what it reports. *)
Definition shutdown_run (s : System) (r : Panics (result RuntimeInfraError ()))
    (tr : ShutdownTrace) (s' : System) : Prop :=
  hooked s' = hooked s ∧ closed s' = closed s ++ tr_closed tr ∧
  match r with
  | Returns res => ∃ sync, tr_sync tr = Some sync ∧
      calls s' = calls s ++ [ShutdownReturned (tr_awaited tr) sync res]
  | Unwinds _ => ∃ lost, calls s' = calls s ++ [ShutdownUnwound (tr_awaited tr) lost]
  end.

Lemma await_is_run run rt cs hs cl ran todo first ran' out :
  (∀ h, h ∈ todo → ∃ x, run_hook h x = Some (run h)) →
  await_hooks run todo first = (ran', out) →
  rtc step (mk_system rt (cs ++ [Awaiting ran todo first]) hs cl)
    (mk_system rt (cs ++ [match out with
                          | Returns first' => Awaiting (ran ++ ran') [] first'
                          | Unwinds _ => ShutdownUnwound (ran ++ ran')
                              (drop (length ran') todo)
                          end]) hs cl).
Proof.
  revert ran first ran'. induction todo as [|h todo IH]; intros ran first ran' Hrun; cbn.
  { intros [= <- <-]. rewrite app_nil_r. apply rtc_refl. }
  destruct (Hrun h) as [x Hx]; [by left|]. destruct (run h) as [r|] eqn:Hr.
  - destruct (await_hooks run todo _) as [ran1 out1] eqn:Ha. intros [= <- <-].
    eapply rtc_l; [apply last_step; intros; by eapply step_await|].
    apply (IH (ran ++ [(h, r)])) in Ha; [|intros h' Hh'; apply Hrun; by right].
    by rewrite <-app_assoc in Ha.
  - intros [= <- <-]. rewrite app_nil_r. apply rtc_once, last_step. intros.
    by eapply step_await_panics.
Qed.

Lemma shutdown_is_run run close s r tr rt' :
  (∀ h, h ∈ async_teardown (inner (s_rt s)) → ∃ x, run_hook h x = Some (run h)) →
  shutdown_async run close (s_rt s) = (r, tr, rt') →
  ∃ s', rtc step s s' ∧ s_rt s' = rt' ∧ shutdown_run s r tr s'.
Proof.
  destruct s as [rt cs hs cl]. cbn [s_rt]. intros Hrun. unfold shutdown_async.
  destruct (await_hooks run _ None) as [ran out] eqn:Ha.
  apply (await_is_run run (take_hooks rt) cs hs cl []) in Ha; [|done].
  assert (rtc step (mk_system rt cs hs cl) (mk_system (take_hooks rt)
    (cs ++ [Awaiting [] (async_teardown (inner rt)) None]) hs cl)) as Ht
    by apply rtc_once, step_take.
  destruct out as [first|m].
  - change (rt {{ inner -> async_teardown := [] }}) with (take_hooks rt).
    destruct (shutdown close (take_hooks rt)) as [[sync shut] rt2] eqn:Hs. intros [= <- <- <-].
    exists (mk_system rt2 (cs ++ [ShutdownReturned ran sync
      match first with Some e => Err e | None => sync end]) hs (cl ++ shut)).
    split_and!; [|done|].
    + etrans; [exact Ht|]. etrans; [exact Ha|]. apply rtc_once, last_step. intros.
      by eapply step_finish.
    + split_and!; [done|done|]. by exists sync.
  - intros [= <- <- <-].
    exists (mk_system (take_hooks rt) (cs ++ [ShutdownUnwound ran
      (drop (length ran) (async_teardown (inner rt)))]) hs cl).
    split_and!; [by etrans|done|].
    split_and!; [done|cbn; by rewrite app_nil_r|]. cbn. eauto.
Qed.

(** C31: However the calls on a built runtime interleave: the hooks registered are, in order of
    registration, those the shutdowns took one after another and those still waiting, so
    none is awaited twice, and once no shutdown is unfinished or has unwound and none
    waits, each was awaited exactly once and in order; a shutdown answers the first error
    of the hooks it awaited and otherwise the loggers'; each worker is spawned at most once
    and its start is won by exactly one call; the acceptor is exposed only to who comes
    after that; and every logger is shut down once, the last one first, whatever the
    others answer, of whose errors a shutdown answers the first.  The methods themselves, called with nothing in between, are such
    interleavings: [start_effects], [start_retention] and [start_retention_effects] win,
    register their hook and return, or unwind, or find nothing to do, and
    [shutdown_async] awaits the hooks, closes the loggers and answers as it reports. *)
Theorem lifecycle_is_orderly (SystemClock : Ptr) (minted : Minted) (b : RuntimeBuilder) (rt : Runtime)
    (s : System) :
  build SystemClock minted b = Returns rt → rtc step (initial rt) s →
  hooked s = concat (batch <$> calls s) ++ async_teardown (inner (s_rt s)) ∧
  (async_teardown (inner (s_rt s)) = [] → Forall (λ c, unfinished c = false) (calls s) →
   hooked s = concat (awaited <$> calls s)) ∧
  (∀ ran sync r, ShutdownReturned ran sync r ∈ calls s →
     r = match first_error ran with Some e => Err e | None => sync end) ∧
  (∀ w, sum_list (spawns w <$> calls s) ≤ sum_list (wins w <$> calls s) ≤ 1) ∧
  (effect_acceptor (s_rt s) ≠ None → sum_list (wins WEffects <$> calls s) = 1) ∧
  closed s ++ reverse (teardown (inner (s_rt s))) = reverse (teardown (inner rt)) ∧
  (∀ close sync shut rt', shutdown close (s_rt s) = (sync, shut, rt') →
     shut = reverse (teardown (inner (s_rt s))) ∧ rt' = (s_rt s) {{ inner -> teardown := [] }} ∧
     sync = loggers_answer close (teardown (inner (s_rt s)))) ∧
  (∀ w tokio r rt', start_call w tokio (s_rt s) = (r, rt') →
     ∃ s', rtc step s s' ∧ s_rt s' = rt' ∧ start_run w s r s') ∧
  (∀ run close r tr rt',
     (∀ h, h ∈ async_teardown (inner (s_rt s)) → ∃ x, run_hook h x = Some (run h)) →
     shutdown_async run close (s_rt s) = (r, tr, rt') →
     ∃ s', rtc step s s' ∧ s_rt s' = rt' ∧ shutdown_run s r tr s').
Proof.
  intros Hb Hr. destruct (lifecycle_reachable rt s (built_fresh _ _ _ _ Hb) Hr) as [Hh Hw Hc Hcl].
  split_and!; [done|..].
  - intros Hnil Hset. by rewrite Hh, Hnil, app_nil_r, settled_batches.
  - intros ran sync r Hin. by apply (proj1 (Forall_forall _ _) Hc) in Hin.
  - intros w. split; [apply spawns_le_wins|]. rewrite Hw. destruct (started w (s_rt s)); lia.
  - rewrite Hw. cbn. unfold effect_acceptor. by destruct (effect_started _).
  - done.
  - intros close sync shut rt'. apply shutdown_closes.
  - intros w tokio r rt'. apply start_is_run.
  - intros run close r tr rt'. apply shutdown_is_run.
Qed.

(** ** One call after another *)
Lemma await_hooks_spec run hooks first :
  (∀ h, h ∈ hooks → run h ≠ None) →
  await_hooks run hooks first
    = (omap (λ h, (λ r, (h, r)) <$> run h) hooks,
       Returns (foldl (λ f r, keep_first r f) first (omap run hooks))).
Proof.
  revert first. induction hooks as [|h hooks IH]; intros first Hrun; [done|]. cbn.
  destruct (run h) as [r|] eqn:Hr; [|destruct (Hrun h); [left|done]].
  rewrite IH; [done|]. intros h' Hh'. apply Hrun. by right.
Qed.

(** A shutdown whose hooks all return awaits every one of them, in the order they were
    registered, then closes the loggers, the last one first, and answers the first error;
    the next shutdown finds nothing to do. *)
Lemma shutdown_async_exact run close rt :
  (∀ h, h ∈ async_teardown (inner rt) → run h ≠ None) →
  let '(r, tr, rt') := shutdown_async run close rt in
  r = Returns match first_failure (omap run (async_teardown (inner rt)) ++
                (map_err Teardown ∘ close <$> reverse (teardown (inner rt)))) with
              | Some e => Err e
              | None => Ok ()
              end ∧
  tr_awaited tr = omap (λ h, (λ r, (h, r)) <$> run h) (async_teardown (inner rt)) ∧
  tr_closed tr = reverse (teardown (inner rt)) ∧
  shutdown_async run close rt' = (Returns (Ok ()), mk_trace [] (Some (Ok ())) [], rt').
Proof.
  intros Hrun. unfold shutdown_async. rewrite await_hooks_spec by done.
  unfold shutdown, drain_teardown. rewrite drain_entries_spec. cbn [fst snd].
  split_and!; [|done|done|by destruct rt as [[] ? ? ?]].
  unfold first_failure. rewrite foldl_app.
  set (hs := omap run _). set (ls := _ <$> _). f_equal.
  assert (∀ l e, foldl (λ f r, keep_first r f) (Some e) l = Some e) as Hkeep.
  { intros l e. induction l as [|[?|?] l IH]; [done|exact IH|exact IH]. }
  destruct (foldl _ None hs) as [e|]; [by rewrite Hkeep|]. by destruct (foldl _ None ls).
Qed.

(** A hook that panics takes every hook after it, and the loggers, with it: they are not
    awaited by this shutdown, nor by any later one. *)
Lemma panicking_hook_strands run close rt pre h post :
  async_teardown (inner rt) = pre ++ h :: post → (∀ x, x ∈ pre → run x ≠ None) → run h = None →
  ∃ m tr rt', shutdown_async run close rt = (Unwinds m, tr, rt') ∧
    (tr_awaited tr).*1 = pre ∧ tr_closed tr = [] ∧
    async_teardown (inner rt') = [] ∧ teardown (inner rt') = teardown (inner rt).
Proof.
  intros Hh Hpre Hrun. unfold shutdown_async. rewrite Hh.
  assert (∀ first, ∃ m ran, await_hooks run (pre ++ h :: post) first = (ran, Unwinds m) ∧
    ran.*1 = pre) as Hun.
  { clear Hh. induction pre as [|x pre IH]; intros first; cbn; [rewrite Hrun; eauto|].
    destruct (run x) eqn:Hx; [|by destruct (Hpre x); [left|]].
    edestruct IH as (m & ran & -> & <-); [intros y Hy; apply Hpre; by right|]. eauto. }
  destruct (Hun None) as (m & ran & -> & <-). by do 3 eexists.
Qed.

(** Starting the effects never answers an error, so [App::start] never rolls back. *)
Lemma app_start_never_fails tokio run close rt e : (app_start tokio run close rt).1 ≠ Returns (Err e).
Proof.
  unfold app_start, start_effects. destruct (effect_acceptor_impl (inner rt)); [|done].
  destruct (effect_started _); [done|]. by destruct (acceptor_starts _ _).
Qed.

(** Outside Tokio a [Deferred] start unwinds, and leaves the acceptor exposed with no runner
    behind it and no hook to drain it. *)
Lemma exposed_without_runner rt sub :
  effect_acceptor_impl (inner rt) = Some sub → runner_mode (sub_config sub) = Deferred →
  effect_started (inner rt) = false →
  ∃ rt', start_effects false rt = (Unwinds no_reactor, rt') ∧ effect_acceptor rt' = Some sub ∧
    async_teardown (inner rt') = async_teardown (inner rt) ∧
    ∀ tokio, start_effects tokio rt' = (Returns (Ok ()), rt').
Proof.
  intros Hs Hm Hf. destruct rt as [[] ? ? ?]. cbn in Hs, Hf. subst. eexists.
  unfold start_effects, acceptor_starts. cbn. rewrite Hm. by split_and!.
Qed.

Module Example_lifecycle.
Definition builder : RuntimeBuilder :=
  with_logger 9%positive (with_idempotency_enforcement_mode Dispatch.Compatibility RuntimeBuilder_new).
Definition minted : Minted := mk_minted 90%positive (Reservation.mk_owner "o-1").

(** Two host hooks, a shutdown that awaits both, the first of which fails. *)
Definition late : RuntimeInfraError := Teardown "late".
Definition ran : list (Hook * result RuntimeInfraError ()) :=
  [(HostHook 1, Err late); (HostHook 2, Ok ())].

Lemma lifecycle_is_orderly_witness :
  ∃ rt s, build 1%positive minted builder = Returns rt ∧ rtc step (initial rt) s ∧
    calls s = [ShutdownReturned ran (Ok ()) (Err late)] ∧ hooked s = [HostHook 1; HostHook 2] ∧
    closed s = [9%positive].
Proof.
  assert (∃ rt, build 1%positive minted builder = Returns rt ∧ async_teardown (inner rt) = [] ∧
            teardown (inner rt) = [9%positive]) as (rt & Hb & Ha & Ht) by (by eexists; split_and!).
  destruct rt as [[] ? ? ?]. cbn in Ha, Ht. subst.
  lazymatch type of Hb with _ = Returns ?r => set (rt := r) in Hb end.
  assert (∃ s, rtc step (initial rt) s ∧ calls s = [ShutdownReturned ran (Ok ()) (Err late)] ∧
            async_teardown (inner (s_rt s)) = [] ∧ teardown (inner (s_rt s)) = []) as (s & Hr & Hc & Ha' & Ht').
  { eexists. split_and!.
    - eapply rtc_l; [apply (step_register _ _ _ _ 1)|]. eapply rtc_l; [apply (step_register _ _ _ _ 2)|].
      eapply rtc_l; [apply step_take|]. cbn.
      eapply rtc_l; [by eapply step_await with (i := 0) (r := RHost (Some (Err late)))|]. cbn.
      eapply rtc_l; [by eapply step_await with (i := 0) (r := RHost (Some (Ok ())))|]. cbn.
      eapply rtc_l; [by eapply step_finish with (i := 0) (close := λ _, Ok ())|]. cbn.
      apply rtc_refl.
    - done.
    - done.
    - done. }
  exists rt, s. destruct (lifecycle_is_orderly 1%positive minted builder rt s Hb Hr)
    as (_ & Hq & _ & _ & _ & Hcl & _). split_and!; [done..| |].
  - rewrite Hq; [by rewrite Hc|done|rewrite Hc; by repeat constructor].
  - by rewrite Ht', app_nil_r in Hcl.
Defined.
End Example_lifecycle.
