(* ===== verification/SqlRows.v ===== *)
(** * Durable repositories and snapshot stores

    The aggregate repositories and the snapshot stores over a database: crates/
    persistence-stoolap, persistence/repository.rs and persistence/snapshot.rs, and
    crates/persistence, postgres/repository.rs and postgres/snapshot.rs.  Both tables
    have one row per aggregate and tenant, with a version and a payload; a save runs in
    a transaction of at most one write.

    Assumed of the databases is what their documentation says.  A write of a transaction
    takes effect when it commits: an INSERT only if there is no such row then, an UPDATE
    only if the row is still the one its condition was evaluated on, which is what
    first-committer-wins (Stoolap) and row locks (Postgres) come to; an upsert writes
    whatever is there.  SELECT ... FOR UPDATE locks the row it finds, and only a row it
    finds: until the transaction ends nobody else writes or locks it.  A read of a
    Stoolap transaction may be out of date, so nothing is assumed about it.  A failed
    statement leaves nothing staged; a commit that reports an error may have taken
    effect, unless the error says it was refused.

    The code's [expected_version + 1] is an [i64] and overflows at the row's 2^63rd save;
    here a version has no width. *)

From stdpp Require Import pretty.
From S2P Require Import Prelude Programs Identity EventStore Snapshots Sql Drivers.

(** ** Rows and transactions *)
Record Row (P : Type) := mk_row { row_version : Z; row_payload : P }.
Arguments mk_row {P} _ _.
Arguments row_version {P} _.
Arguments row_payload {P} _.

Definition version_of {P} (o : option (Row P)) : option Z := row_version <$> o.

Inductive ReadMode := Stale | Current | ForUpdate.

Section rows.
Context {K P E : Type} `{Countable K} (refused : E → bool).
Abbreviation table := (gmap K (Row P)).

(** What a transaction has staged; an update remembers the row it was evaluated on. *)
Inductive Write :=
| WInsert (k : K) (r : Row P)
| WUpdate (k : K) (base r : Row P)
| WUpsert (k : K) (r : Row P).

Inductive row_cmd : Type → Type :=
| RBegin : row_cmd (result E unit)
| RSelect (mode : ReadMode) (k : K) : row_cmd (result E (option (Row P)))
| RInsert (k : K) (r : Row P) : row_cmd (result E Z)
| RUpdate (k : K) (where_ : Row P → bool) (r : Row P) : row_cmd (result E Z)
| RUpsert (k : K) (r : Row P) : row_cmd (result E unit)
| RCommit : row_cmd (result E unit)
| RDrop : row_cmd unit
(** Statements outside a transaction. *)
| RDelete (k : K) : row_cmd (result E Z)
| RUpsertNow (k : K) (r : Row P) : row_cmd (result E unit).

Record Tx := mk_tx { tx_locks : gset K; tx_write : option Write }.
Definition tx_none : Tx := mk_tx ∅ None.

Definition publish (w : option Write) (t t' : table) : Prop :=
  match w with
  | None => t' = t
  | Some (WInsert k r) => t !! k = None ∧ t' = <[k := r]> t
  | Some (WUpdate k base r) => t !! k = Some base ∧ t' = <[k := r]> t
  | Some (WUpsert k r) => t' = <[k := r]> t
  end.

(** What a command may answer and leave. *)
Definition row_effect {B} (c : row_cmd B) (t : table) (tx : Tx) : B → table → Tx → Prop :=
  match c in row_cmd B return B → table → Tx → Prop with
  | RBegin => λ _ t' tx', t' = t ∧ tx' = tx
  | RSelect mode k => λ b t' tx', t' = t ∧
      match b, mode with
      | Err _, _ => tx' = tx
      | Ok _, Stale => tx' = tx
      | Ok o, Current => o = t !! k ∧ tx' = tx
      | Ok o, ForUpdate => o = t !! k ∧
          tx' = mk_tx (match o with Some _ => {[k]} ∪ tx_locks tx | None => tx_locks tx end) (tx_write tx)
      end
  | RInsert k r => λ b t' tx', t' = t ∧
      match b with
      | Ok n => n = 1%Z ∧ tx' = mk_tx (tx_locks tx) (Some (WInsert k r))
      | Err _ => tx' = mk_tx (tx_locks tx) None
      end
  | RUpdate k where_ r => λ b t' tx', t' = t ∧
      match b with
      | Ok n => (n = 0%Z ∧ tx' = tx) ∨
          (n = 1%Z ∧ ∃ base, where_ base = true ∧
             tx' = mk_tx (tx_locks tx) (Some (WUpdate k base r)))
      | Err _ => tx' = mk_tx (tx_locks tx) None
      end
  | RUpsert k r => λ b t' tx', t' = t ∧
      match b with
      | Ok _ => tx' = mk_tx (tx_locks tx) (Some (WUpsert k r))
      | Err _ => tx' = mk_tx (tx_locks tx) None
      end
  | RCommit => λ b t' tx', tx' = tx_none ∧
      match b with
      | Ok _ => publish (tx_write tx) t t'
      | Err e => t' = t ∨ (refused e = false ∧ publish (tx_write tx) t t')
      end
  | RDrop => λ _ t' tx', t' = t ∧ tx' = tx_none
  | RDelete k => λ b t' tx', tx' = tx ∧
      match b with
      | Ok n => n = (if decide (is_Some (t !! k)) then 1 else 0)%Z ∧ t' = delete k t
      | Err _ => t' = t
      end
  | RUpsertNow k r => λ b t' tx', tx' = tx ∧
      match b with Ok _ => t' = <[k := r]> t | Err _ => t' = t end
  end.

(** *** One call among others *)
(** The table may change between two commands of a call, but not where it holds a lock. *)
Definition respects (tx : Tx) (t t' : table) : Prop := ∀ k, k ∈ tx_locks tx → t' !! k = t !! k.

Definition resumes (tx : Tx) (t : table) (evs : list (table * table)) : Prop :=
  match evs with [] => True | (x, _) :: _ => respects tx t x end.

Fixpoint runs {A} (p : prog row_cmd A) (tx : Tx) (evs : list (table * table))
    (q : prog row_cmd A) (tx' : Tx) {struct evs} : Prop :=
  match evs with
  | [] => q = p ∧ tx' = tx
  | (x, y) :: rest =>
      match p with
      | Ret _ => False
      | @Do _ _ B c k =>
          ∃ b tx1, row_effect c x tx b y tx1 ∧ resumes tx1 y rest ∧ runs (k b) tx1 rest q tx'
      end
  end.

Section system.
(** [C] are the calls the store offers, [A] their answers. *)
Context {C A : Type} (body : C → prog row_cmd A).
Abbreviation call := (C * prog row_cmd A * Tx)%type.

Record system := mk_system {
  sys_table : table;
  sys_calls : gmap nat call;
  sys_history : list (nat * table * table);
}.

(** Another call than [i] holds a lock on [k]: [i] can neither write nor lock the row. *)
Definition locked_for (i : nat) (k : K) (calls : gmap nat call) : Prop :=
  ∃ j c p tx, calls !! j = Some (c, p, tx) ∧ j ≠ i ∧ k ∈ tx_locks tx.

Inductive step : system → system → Prop :=
| step_start t calls h i c :
    calls !! i = None →
    step (mk_system t calls h) (mk_system t (<[i := (c, body c, tx_none)]> calls) h)
| step_command t calls h i c0 B (c : row_cmd B) k tx b t' tx' :
    calls !! i = Some (c0, Do c k, tx) → row_effect c t tx b t' tx' →
    (∀ key, locked_for i key calls → t' !! key = t !! key ∧ (key ∈ tx_locks tx' → key ∈ tx_locks tx)) →
    step (mk_system t calls h)
      (mk_system t' (<[i := (c0, k b, tx')]> calls) (h ++ [(i, t, t')])).

Definition initial (t : table) : system := mk_system t ∅ [].

(** The part of the history a call made. *)
Definition of_call (i : nat) (h : list (nat * table * table)) : list (table * table) :=
  omap (λ e : nat * table * table, if decide (e.1.1 = i) then Some (e.1.2, e.2) else None) h.

(** Each call saw a run of its body, the last table of which the present one respects. *)
Definition view_ok (s : system) : Prop :=
  (∀ i, sys_calls s !! i = None → of_call i (sys_history s) = []) ∧
  ∀ i c p tx, sys_calls s !! i = Some (c, p, tx) →
    runs (body c) tx_none (of_call i (sys_history s)) p tx ∧
    ∀ x y, last (of_call i (sys_history s)) = Some (x, y) → respects tx y (sys_table s).
End system.

Lemma row_runs_snoc {A B} (p : prog row_cmd A) tx evs (c : row_cmd B) k tx1 x b y tx' :
  runs p tx evs (Do c k) tx1 → row_effect c x tx1 b y tx' →
  (∀ x0 y0, last evs = Some (x0, y0) → respects tx1 y0 x) →
  runs p tx (evs ++ [(x, y)]) (k b) tx'.
Proof.
  revert p tx. induction evs as [|[x0 y0] evs IH]; intros p tx; cbn [runs app].
  - intros [<- <-] He _. exists b, tx'. split_and!; [done..|by split].
  - destruct p as [a|B' c' k']; [done|]. intros (b' & tx2 & He' & Hres & Hr) He Hl.
    exists b', tx2. split; [done|]. destruct evs as [|[x2 y2] evs]; cbn [resumes app] in *.
    + destruct Hr as [Hd ->]. split; [by apply (Hl x0 y0)|]. apply (IH (k' b') tx2); [by split|done|].
      by intros ? ? [=].
    + split; [done|]. apply IH; [done|done|]. intros x3 y3 Hlast. by apply (Hl x3 y3).
Qed.

Lemma of_call_snoc i h j (x y : table) :
  of_call i (h ++ [(j, x, y)]) = of_call i h ++ (if decide (j = i) then [(x, y)] else []).
Proof. unfold of_call. rewrite omap_app. cbn. by case_decide. Qed.

(** Every call of every interleaving has seen a run of its body. *)
Lemma view_step {C A} (body : C → prog row_cmd A) s s' :
  step body s s' → view_ok body s → view_ok body s'.
Proof.
  intros Hst [Hn Hv]. destruct Hst as [t calls h i c Hi|t calls h i c0 B c k tx b t' tx' Hi He Hfree];
    cbn [sys_table sys_calls sys_history] in *;
    (split; cbn [sys_table sys_calls sys_history]; [intros j Hj|intros j cj p txj Hj]).
  - apply lookup_insert_None in Hj as [Hj _]. auto.
  - insert_cases Hj; [|by apply Hv]. rewrite (Hn _ Hi). by split.
  - apply lookup_insert_None in Hj as [Hj Hne]. rewrite of_call_snoc, decide_False by done.
    by rewrite app_nil_r, Hn.
  - rewrite of_call_snoc. insert_cases Hj.
    + destruct (Hv _ _ _ _ Hi) as [Hr Hl]. rewrite decide_True by done. split; [by eapply row_runs_snoc|].
      intros x y. rewrite last_snoc. intros [= <- <-]. by intros key.
    + destruct (Hv _ _ _ _ Hj) as [Hr Hl]. rewrite decide_False, app_nil_r by done.
      split; [done|]. intros x y Hlast key Hkey. rewrite <-(Hl _ _ Hlast key Hkey).
      apply Hfree. by exists j, cj, p, txj.
Qed.

Lemma reachable_view {C A} (body : C → prog row_cmd A) t s :
  rtc (step body) (initial t) s → view_ok body s.
Proof.
  intros Hr. remember (initial t) as s0 eqn:Hs. assert (view_ok body s0) as H0.
  { subst. split; cbn; [done|]. intros i c p tx Hi. by rewrite lookup_empty in Hi. }
  clear Hs. induction Hr; eauto using view_step.
Qed.

(** *** What calls leave behind *)
(** A step of one call on the rows: what its bodies allow. *)
Context (good : table → table → Prop).

(** The writes a body may stage or make, in terms of [good]. *)
Definition good_cmd {B} (c : row_cmd B) : Prop :=
  match c with
  | RInsert k r => ∀ t, t !! k = None → good t (<[k := r]> t)
  | RUpdate k where_ r => ∀ t base, where_ base = true → t !! k = Some base → good t (<[k := r]> t)
  | RUpsert k r | RUpsertNow k r => ∀ t, good t (<[k := r]> t)
  | RDelete k => ∀ t, good t (delete k t)
  | _ => True
  end.

Fixpoint all_good {A} (p : prog row_cmd A) : Prop :=
  match p with Ret _ => True | Do c k => good_cmd c ∧ ∀ b, all_good (k b) end.

Definition good_tx (tx : Tx) : Prop := ∀ t t', publish (tx_write tx) t t' → good t t'.

Context (good_refl : ∀ t, good t t).

Lemma good_tx_none l : good_tx (mk_tx l None).
Proof. intros t t' ->. apply good_refl. Qed.

Lemma good_effect {B} (c : row_cmd B) t tx b t' tx' :
  good_cmd c → good_tx tx → row_effect c t tx b t' tx' → good t t' ∧ good_tx tx'.
Proof.
  intros Hc Htx. destruct c; cbn [row_effect good_cmd] in *.
  - intros [-> ->]. by split.
  - intros [-> He]. split; [apply good_refl|]. destruct b, mode; try by subst.
    + by destruct He as [_ ->].
    + destruct He as [_ ->]. exact Htx.
  - intros [-> He]. split; [apply good_refl|]. destruct b; [destruct He as [_ ->]|subst; apply good_tx_none].
    intros t1 t2 [Hk ->]. by apply Hc.
  - intros [-> He]. split; [apply good_refl|]. destruct b; [|subst; apply good_tx_none].
    destruct He as [[_ ->]|(_ & base & Hw & ->)]; [done|]. intros t1 t2 [Hk ->]. by eapply Hc.
  - intros [-> He]. split; [apply good_refl|]. destruct b; subst; [|apply good_tx_none].
    intros t1 t2 ->. apply Hc.
  - intros [-> He]. split; [|apply good_tx_none].
    destruct b; [by apply Htx|]. destruct He as [->|[_ Hp]]; [apply good_refl|by apply Htx].
  - intros [-> ->]. split; [apply good_refl|apply good_tx_none].
  - intros [-> He]. split; [|done]. destruct b; [destruct He as [_ ->]; apply Hc|subst; apply good_refl].
  - intros [-> He]. split; [|done]. destruct b; subst; [apply Hc|apply good_refl].
Qed.

(** If every call only makes good steps, every step of the table is good. *)
Lemma good_history {C A} (body : C → prog row_cmd A) t s :
  (∀ c, all_good (body c)) → rtc (step body) (initial t) s →
  ∀ i x y, (i, x, y) ∈ sys_history s → good x y.
Proof.
  intros Hbody Hr.
  assert ((∀ i c p tx, sys_calls s !! i = Some (c, p, tx) → all_good p ∧ good_tx tx) ∧
          ∀ i x y, (i, x, y) ∈ sys_history s → good x y) as [_ Hgood]; [|done].
  remember (initial t) as s0 eqn:Hs.
  assert ((∀ i c p tx, sys_calls s0 !! i = Some (c, p, tx) → all_good p ∧ good_tx tx) ∧
          ∀ i x y, (i, x, y) ∈ sys_history s0 → good x y) as H0.
  { subst. split; cbn; [intros ???? Hi; by rewrite lookup_empty in Hi|by intros ??? ?%not_elem_of_nil]. }
  clear Hs. induction Hr as [|s0 s1 s2 Hst _ IH]; [done|]. apply IH. clear IH. destruct H0 as [Hc Hh].
  destruct Hst as [t0 calls h i c Hi|t0 calls h i c0 B c k tx b t' tx' Hi He _];
    cbn [sys_calls sys_history] in *; split.
  - intros j cj p txj Hj. insert_cases Hj; [split; [apply Hbody|apply good_tx_none]|eauto].
  - done.
  - destruct (Hc _ _ _ _ Hi) as [[Hcmd Hk] Htx]. destruct (good_effect c _ _ _ _ _ Hcmd Htx He) as [_ Htx'].
    intros j cj p txj Hj. insert_cases Hj; [by split|eauto].
  - destruct (Hc _ _ _ _ Hi) as [[Hcmd Hk] Htx]. destruct (good_effect c _ _ _ _ _ Hcmd Htx He) as [Hg _].
    intros j x y [?|[= -> -> ->]%list_elem_of_singleton]%elem_of_app; [eauto|done].
Qed.
End rows.
Arguments row_cmd : clear implicits.
Arguments Write : clear implicits.
Arguments Tx K P {_ _}.

(** The host's aggregate type and JSON as [serde_json] writes and reads it. *)
Record Codec (A J : Type) := mk_codec {
  aggregate_to_string : A → result string string;
  aggregate_to_value : A → result string J;
  json_from_str : string → result string J;
  json_to_string : J → result string string;
  aggregate_from_value : J → result PersistenceError A;
}.
Arguments aggregate_to_string {A J} _ _.
Arguments aggregate_to_value {A J} _ _.
Arguments json_from_str {A J} _ _.
Arguments json_to_string {A J} _ _.
Arguments aggregate_from_value {A J} _ _.

(** The tenant is resolved first, then the payload serialised. *)
Definition prepared {B} (tenant_id : option string) (payload : result PersistenceError B) :
    result PersistenceError (option string * B) :=
  resolved ← resolve_tenant tenant_id; payload ← payload; Ok (resolved, payload).

(** ** Stoolap *)
Section stoolap.
Context {A J : Type} (codec : Codec A J).
Abbreviation Key := (string * string)%type.
Abbreviation method := (prog (row_cmd Key string StoolapError)).

(** A failed step of an open transaction: it is dropped with the early return. *)
Definition fail_with {B} (e : PersistenceError) : method (result PersistenceError B) :=
  exec RDrop;; Ret (Err e).

Definition stoolap_save (aggregate_id : string) (aggregate : A) (tenant_id : option string)
    (expected_version : Z) : method (result PersistenceError Z) :=
  match prepared tenant_id (map_err PInternal (aggregate_to_string codec aggregate)) with
  | Err e => Ret (Err e)
  | Ok (resolved, payload) =>
      let key := (encode_tenant resolved, aggregate_id) in
      let! r := exec RBegin in
      match r with
      | Err e => Ret (Err (internal_err e))
      | Ok _ =>
          let! r := exec (RSelect Stale key) in
          match r with
          | Err e => fail_with (internal_err e)
          | Ok current =>
              let current := version_of current in
              match (match current with
                     | None =>
                         if decide (expected_version = 0%Z) then Ok 1%Z
                         else Err (Conflict aggregate_id expected_version 0)
                     | Some c =>
                         if decide (c = expected_version) then Ok (expected_version + 1)%Z
                         else Err (Conflict aggregate_id expected_version c)
                     end) with
              | Err e => fail_with e
              | Ok new_version =>
                  let! write_result :=
                    match current with
                    | None => exec (RInsert key (mk_row 1 payload))
                    | Some _ =>
                        exec (RUpdate key (λ r, bool_decide (row_version r = expected_version))
                                (mk_row new_version payload))
                    end in
                  let conflict := Conflict aggregate_id expected_version (default 0%Z current) in
                  match write_result with
                  | Err e => fail_with (if is_write_conflict e then conflict else internal_err e)
                  | Ok affected =>
                      if decide (affected = 1%Z) then
                        let! r := exec RCommit in
                        Ret (match r with
                             | Ok _ => Ok new_version
                             | Err e => Err (if is_write_conflict e then conflict else internal_err e)
                             end)
                      else
                        let! r := exec (RSelect Stale key) in
                        fail_with
                          (match r with
                           | Err e => internal_err e
                           | Ok actual =>
                               Conflict aggregate_id expected_version (default 0%Z (version_of actual))
                           end)
                  end
              end
          end
      end
  end.

Definition stoolap_load (aggregate_id : string) (tenant_id : option string) :
    method (result PersistenceError A) :=
  match resolve_tenant tenant_id with
  | Err e => Ret (Err e)
  | Ok resolved =>
      let! r := exec (RSelect Current (encode_tenant resolved, aggregate_id)) in
      Ret (row ← map_err internal_err r;
           row ← ok_or (NotFound aggregate_id) row;
           value ← map_err PInternal (json_from_str codec (row_payload row));
           aggregate_from_value codec value)
  end.

Definition stoolap_delete (aggregate_id : string) (tenant_id : option string) :
    method (result PersistenceError unit) :=
  match resolve_tenant tenant_id with
  | Err e => Ret (Err e)
  | Ok resolved =>
      let! r := exec (RDelete (encode_tenant resolved, aggregate_id)) in
      Ret (affected ← map_err internal_err r;
           if decide (affected = 0%Z) then Err (NotFound aggregate_id) else Ok ())
  end.

Definition stoolap_save_snapshot (aggregate_id : string) (tenant_id : option string) (version : Z)
    (payload : J) : method (result PersistenceError unit) :=
  match prepared tenant_id (map_err PInternal (json_to_string codec payload)) with
  | Err e => Ret (Err e)
  | Ok (resolved, payload) =>
      let key := (encode_tenant resolved, aggregate_id) in
      let! r := exec RBegin in
      match r with
      | Err e => Ret (Err (internal_err e))
      | Ok _ =>
          let! r := exec (RSelect Stale key) in
          match r with
          | Err e => fail_with (internal_err e)
          | Ok existing =>
              let! r :=
                match existing with
                | None => exec (RInsert key (mk_row version payload))
                | Some _ =>
                    exec (RUpdate key (λ r, bool_decide (row_version r < version)%Z)
                            (mk_row version payload))
                end in
              match r with
              | Err e => fail_with (internal_err e)
              | Ok _ => let! r := exec RCommit in Ret (map_err internal_err r)
              end
          end
      end
  end.

(** A row whose columns cannot be read answers the driver's error. *)
Definition stoolap_load_snapshot (aggregate_id : string) (tenant_id : option string) :
    method (result PersistenceError (option (Z * J))) :=
  match resolve_tenant tenant_id with
  | Err e => Ret (Err e)
  | Ok resolved =>
      let! r := exec (RSelect Current (encode_tenant resolved, aggregate_id)) in
      Ret (row ← map_err internal_err r;
           match row with
           | None => Ok None
           | Some row =>
               value ← map_err PInternal (json_from_str codec (row_payload row));
               Ok (Some (row_version row, value))
           end)
  end.
End stoolap.

(** ** Postgres *)
Section postgres.
Context {A J : Type} (codec : Codec A J).
Abbreviation Key := (option string * string)%type.
Abbreviation method := (prog (row_cmd Key J SqlxError)).

Definition failed (what : string) (e : SqlxError) : PersistenceError :=
  PInternal ("failed to " +:+ what +:+ ": " +:+ sqlx_text e).

Definition pg_fail_with {B} (e : PersistenceError) : method (result PersistenceError B) :=
  exec RDrop;; Ret (Err e).

Definition postgres_save (aggregate_id : string) (aggregate : A) (tenant_id : option string)
    (expected_version : Z) : method (result PersistenceError Z) :=
  match prepared tenant_id
          (map_err (λ e, PInternal ("failed to serialize aggregate: " +:+ e))
             (aggregate_to_value codec aggregate)) with
  | Err e => Ret (Err e)
  | Ok (tenant, payload) =>
      let key := (tenant, aggregate_id) in
      let! r := exec RBegin in
      match r with
      | Err e => Ret (Err (failed "begin transaction" e))
      | Ok _ =>
          let! r := exec (RSelect ForUpdate key) in
          match r with
          | Err e => pg_fail_with (failed "query current version" e)
          | Ok current =>
              match (match current with
                     | None => Ok 1%Z
                     | Some row =>
                         if decide (row_version row = expected_version)
                         then Ok (expected_version + 1)%Z
                         else Err (Conflict aggregate_id expected_version (row_version row))
                     end) with
              | Err e => pg_fail_with e
              | Ok new_version =>
                  let! r := exec (RUpsert key (mk_row new_version payload)) in
                  match r with
                  | Err e => pg_fail_with (failed "save aggregate" e)
                  | Ok _ =>
                      let! r := exec RCommit in
                      Ret (map_err (failed "commit transaction") r ≫= λ _, Ok new_version)
                  end
              end
          end
      end
  end.

Definition postgres_load (aggregate_id : string) (tenant_id : option string) :
    method (result PersistenceError A) :=
  match resolve_tenant tenant_id with
  | Err e => Ret (Err e)
  | Ok tenant =>
      let! r := exec (RSelect Current (tenant, aggregate_id)) in
      Ret (match r with
           | Err e => Err (failed "query aggregate" e)
           | Ok None => Err (NotFound aggregate_id)
           | Ok (Some row) => aggregate_from_value codec (row_payload row)
           end)
  end.

Definition postgres_delete (aggregate_id : string) (tenant_id : option string) :
    method (result PersistenceError unit) :=
  match resolve_tenant tenant_id with
  | Err e => Ret (Err e)
  | Ok tenant =>
      let! r := exec (RDelete (tenant, aggregate_id)) in
      Ret (deleted ← map_err (failed "delete aggregate") r;
           if decide (deleted = 0%Z) then Err (NotFound aggregate_id) else Ok ())
  end.

Definition postgres_save_snapshot (aggregate_id : string) (tenant_id : option string) (version : Z)
    (payload : J) : method (result PersistenceError unit) :=
  match resolve_tenant tenant_id with
  | Err e => Ret (Err e)
  | Ok tenant =>
      let key := (tenant, aggregate_id) in
      let! r := exec (RSelect Current key) in
      match r with
      | Err e => Ret (Err (failed "query existing snapshot" e))
      | Ok existing =>
          if match existing with Some row => bool_decide (version ≤ row_version row)%Z | None => false end
          then Ret (Ok ())
          else
            let! r := exec (RUpsertNow key (mk_row version payload)) in
            Ret (map_err (failed "save snapshot") r)
      end
  end.

Definition postgres_load_snapshot (aggregate_id : string) (tenant_id : option string) :
    method (result PersistenceError (option (Z * J))) :=
  match resolve_tenant tenant_id with
  | Err e => Ret (Err e)
  | Ok tenant =>
      let! r := exec (RSelect Current (tenant, aggregate_id)) in
      Ret (match r with
           | Err e => Err (failed "query snapshot" e)
           | Ok None => Ok None
           | Ok (Some row) => Ok (Some (row_version row, row_payload row))
           end)
  end.
End postgres.

(** ** Calls, answers and whole stores *)
Section stores.
Context {A J : Type} (codec : Codec A J).

Inductive RowCall :=
| Save (aggregate_id : string) (aggregate : A) (tenant_id : option string) (expected_version : Z)
| LoadIt (aggregate_id : string) (tenant_id : option string)
| DeleteIt (aggregate_id : string) (tenant_id : option string).

Inductive SnapshotCall :=
| SaveSnapshot (aggregate_id : string) (tenant_id : option string) (version : Z) (payload : J)
| LoadSnapshot (aggregate_id : string) (tenant_id : option string).

Inductive RowAnswer :=
| Saved (r : result PersistenceError Z)
| Loaded (r : result PersistenceError A)
| Deleted (r : result PersistenceError unit)
| SavedSnapshot (r : result PersistenceError unit)
| LoadedSnapshot (r : result PersistenceError (option (Z * J))).

Definition answer {cmd} {B} (f : B → RowAnswer) (p : prog cmd B) : prog cmd RowAnswer :=
  let! r := p in Ret (f r).

Definition stoolap_repository (c : RowCall) : prog (row_cmd (string * string) string StoolapError) RowAnswer :=
  match c with
  | Save i a t v => answer Saved (stoolap_save codec i a t v)
  | LoadIt i t => answer Loaded (stoolap_load codec i t)
  | DeleteIt i t => answer Deleted (stoolap_delete i t)
  end.
Definition postgres_repository (c : RowCall) :
    prog (row_cmd (option string * string) J SqlxError) RowAnswer :=
  match c with
  | Save i a t v => answer Saved (postgres_save codec i a t v)
  | LoadIt i t => answer Loaded (postgres_load codec i t)
  | DeleteIt i t => answer Deleted (postgres_delete i t)
  end.
Definition stoolap_snapshots (c : SnapshotCall) :
    prog (row_cmd (string * string) string StoolapError) RowAnswer :=
  match c with
  | SaveSnapshot i t v p => answer SavedSnapshot (stoolap_save_snapshot codec i t v p)
  | LoadSnapshot i t => answer LoadedSnapshot (stoolap_load_snapshot codec i t)
  end.
Definition postgres_snapshots (c : SnapshotCall) :
    prog (row_cmd (option string * string) J SqlxError) RowAnswer :=
  match c with
  | SaveSnapshot i t v p => answer SavedSnapshot (postgres_save_snapshot i t v p)
  | LoadSnapshot i t => answer LoadedSnapshot (postgres_load_snapshot i t)
  end.
End stores.
Arguments RowCall : clear implicits.
Arguments SnapshotCall : clear implicits.
Arguments RowAnswer : clear implicits.

(** ** A save is a compare-and-set *)
Section walking.
Context {K P E A : Type} `{Countable K} (refused : E → bool).

Lemma runs_do {B} (c : row_cmd K P E B) (k : B → prog (row_cmd K P E) A) tx evs a tx' :
  runs refused (Do c k) tx evs (Ret a) tx' →
  ∃ x y rest b tx1, evs = (x, y) :: rest ∧ row_effect refused c x tx b y tx1 ∧ resumes tx1 y rest ∧
    runs refused (k b) tx1 rest (Ret a) tx'.
Proof.
  destruct evs as [|[x y] rest]; cbn [runs]; [by intros [[=] _]|].
  intros (b & tx1 & He & Hr & Hk). by exists x, y, rest, b, tx1.
Qed.

Lemma runs_end (a b : A) (tx : Tx K P) evs tx' :
  runs refused (Ret b) tx evs (Ret a) tx' → evs = [] ∧ a = b ∧ tx' = tx.
Proof. destruct evs as [|[]]; cbn [runs]; [by intros [[= ->] ->]|done]. Qed.
End walking.

(** Walks to the answer of the next command; a run that ends in a failure is no run that
    ends in a success. *)
Ltac walk H He Hs :=
  cbn [bind exec answer fail_with pg_fail_with] in H;
  apply runs_do in H as (? & ? & ? & ? & ? & -> & He & Hs & H).
Ltac ended H :=
  cbn [bind exec answer fail_with pg_fail_with] in H;
  repeat (apply runs_do in H as (? & ? & ? & ? & ? & -> & _ & _ & H));
  by apply runs_end in H as (_ & [=] & _).
Ltac walk_ok H He Hs a :=
  cbn [bind exec answer fail_with pg_fail_with] in H;
  apply runs_do in H as (? & ? & ? & [a|?] & ? & -> & He & Hs & H); [cbn [row_effect] in He|ended H].

(** The row of [key] goes from version [v], or from nothing if [v] is 0, to [new]. *)
Definition sets {K P} `{Countable K} (key : K) (v : Z) (new : Row P) (x y : gmap K (Row P)) : Prop :=
  (x !! key = None ∧ v = 0%Z ∨ ∃ r, x !! key = Some r ∧ row_version r = v) ∧ y = <[key := new]> x.

Section cas.
Context {A J : Type} (codec : Codec A J).

(** A Stoolap save that succeeds wrote over the version it was given. *)
Lemma stoolap_save_sets refused i a t v evs n tx' :
  runs refused (answer (A:=A) (J:=J) Saved (stoolap_save codec i a t v)) tx_none evs (Ret (Saved (Ok n))) tx' →
  ∃ resolved payload x y, prepared t (map_err PInternal (aggregate_to_string codec a)) = Ok (resolved, payload) ∧
    n = (v + 1)%Z ∧ (x, y) ∈ evs ∧ sets (encode_tenant resolved, i) v (mk_row n payload) x y.
Proof.
  unfold stoolap_save. destruct (prepared _ _) as [[resolved payload]|e]; intros Hr; [|cbn in Hr; ended Hr].
  walk_ok Hr He Hs u. destruct He as [-> ->]. walk_ok Hr He Hs' o. destruct He as [-> ->].
  exists resolved, payload. destruct o as [[v0 p0]|]; cbn [version_of fmap option_fmap option_map row_version] in Hr.
  - destruct (decide (v0 = v)) as [->|]; [|ended Hr].
    walk_ok Hr He Hs1 m. destruct He as [-> [[-> ->]|(-> & base & Hw%bool_decide_eq_true & ->)]].
    + rewrite decide_False in Hr by done. ended Hr.
    + rewrite decide_True in Hr by done. walk Hr He Hs2. case_match; [|ended Hr].
      apply runs_end in Hr as (-> & [= ->] & _). destruct He as [_ [Hb ->]].
      eexists _, _. split_and!; [done..| |split; [right; by exists base|done]].
      do 3 apply elem_of_cons, or_intror. apply elem_of_cons. by left.
  - destruct (decide (v = 0%Z)) as [->|]; [|ended Hr].
    walk_ok Hr He Hs1 m. destruct He as [-> [-> ->]]. rewrite decide_True in Hr by done.
    walk Hr He Hs2. case_match; [|ended Hr]. apply runs_end in Hr as (-> & [= ->] & _).
    destruct He as [_ [Hb ->]]. eexists _, _. split_and!; [done..| |split; [by left|done]].
    do 3 apply elem_of_cons, or_intror. apply elem_of_cons. by left.
Qed.

(** A Postgres save that succeeds wrote over the version it was given, or found no row and
    wrote version 1 over whatever was there by then. *)
Lemma postgres_save_sets refused i a t v evs n tx' :
  runs refused (answer (A:=A) (J:=J) Saved (postgres_save codec i a t v)) tx_none evs (Ret (Saved (Ok n))) tx' →
  ∃ tenant payload x y,
    prepared t (map_err (λ e, PInternal ("failed to serialize aggregate: " +:+ e)) (aggregate_to_value codec a))
      = Ok (tenant, payload) ∧ (x, y) ∈ evs ∧
    (n = (v + 1)%Z ∧ sets (tenant, i) v (mk_row n payload) x y ∨
     n = 1%Z ∧ (∃ x0 y0, (x0, y0) ∈ evs ∧ x0 !! (tenant, i) = None) ∧ y = <[(tenant, i) := mk_row 1 payload]> x).
Proof.
  unfold postgres_save. destruct (prepared _ _) as [[tenant payload]|e]; intros Hr; [|cbn in Hr; ended Hr].
  walk_ok Hr He Hs u. destruct He as [-> ->]. walk_ok Hr He Hs1 o. destruct He as (-> & -> & ->).
  exists tenant, payload. destruct (_ !! (tenant, i)) as [[v0 p0]|] eqn:Hrow; cbn [row_version] in Hr.
  - destruct (decide (v0 = v)) as [->|]; [|ended Hr].
    walk_ok Hr He Hs2 m. destruct He as [-> ->]. walk_ok Hr He Hs3 u1.
    apply runs_end in Hr as (-> & [= ->] & _). destruct He as [_ ->].
    eexists _, _. split_and!; [done|by do 3 apply elem_of_cons, or_intror; left|].
    left. split; [done|]. split; [right|done]. exists (mk_row v p0). split; [|reflexivity].
    rewrite (Hs2 (tenant, i)), (Hs1 (tenant, i)) by (cbn; set_solver). exact Hrow.
  - walk_ok Hr He Hs2 m. destruct He as [-> ->]. walk_ok Hr He Hs3 u1.
    apply runs_end in Hr as (-> & [= ->] & _). destruct He as [_ ->].
    eexists _, _. split_and!; [done|by do 3 apply elem_of_cons, or_intror; left|].
    right. split_and!; [done| |done]. eexists _, _. split; [|exact Hrow]. apply elem_of_cons. right. by left.
Qed.

(** *** Reads *)
Lemma stoolap_load_reads refused i t evs a tx' :
  runs refused (answer (A:=A) (J:=J) Loaded (stoolap_load codec i t)) tx_none evs (Ret (Loaded (Ok a))) tx' →
  ∃ resolved x row value, resolve_tenant t = Ok resolved ∧ (x, x) ∈ evs ∧
    x !! (encode_tenant resolved, i) = Some row ∧
    json_from_str codec (row_payload row) = Ok value ∧ aggregate_from_value codec value = Ok a.
Proof.
  unfold stoolap_load. destruct (resolve_tenant t) as [resolved|e]; intros Hr; [|cbn in Hr; ended Hr].
  walk_ok Hr He Hs o. destruct He as (-> & -> & ->). apply runs_end in Hr as (-> & Ha & _).
  destruct (_ !! _) as [row|] eqn:Hrow; [|done]. cbn in Ha.
  destruct (json_from_str _ _) as [value|] eqn:Hv; [|done]. cbn in Ha.
  eexists resolved, _, row, value. split_and!; [done|by left|done..|congruence].
Qed.

Lemma postgres_load_reads refused i t evs a tx' :
  runs refused (answer (A:=A) (J:=J) Loaded (postgres_load codec i t)) tx_none evs (Ret (Loaded (Ok a))) tx' →
  ∃ tenant x row, resolve_tenant t = Ok tenant ∧ (x, x) ∈ evs ∧ x !! (tenant, i) = Some row ∧
    aggregate_from_value codec (row_payload row) = Ok a.
Proof.
  unfold postgres_load. destruct (resolve_tenant t) as [tenant|e]; intros Hr; [|cbn in Hr; ended Hr].
  walk_ok Hr He Hs o. destruct He as (-> & -> & ->). apply runs_end in Hr as (-> & Ha & _).
  destruct (_ !! _) as [row|] eqn:Hrow; [|done]. eexists tenant, _, row. split_and!; [done|by left|done|congruence].
Qed.
End cas.

(** ** Every interleaving *)
Section all_good.
Context {K P E : Type} `{Countable K} (good : gmap K (Row P) → gmap K (Row P) → Prop).

Lemma all_good_bind {B C} (p : prog (row_cmd K P E) B) (f : B → prog (row_cmd K P E) C) :
  all_good good p → (∀ b, all_good good (f b)) → all_good good (bind p f).
Proof. induction p as [b|D c k IH]; cbn; [auto|]. intros [Hc Hk] Hf. split; [done|]. eauto. Qed.
End all_good.

Ltac good_body :=
  repeat first
    [ progress cbn [all_good good_cmd exec fail_with pg_fail_with answer bind]
    | apply all_good_bind | split | progress intros | case_match | case_decide ]; try done.

Section interleaved.
Context {A J : Type} (codec : Codec A J).

(** A row stays, goes, or moves to the next version; absent counts as version 0. *)
Definition bumps {K P} `{Countable K} (x y : gmap K (Row P)) : Prop :=
  ∀ key, y !! key = x !! key ∨ y !! key = None ∨
    row_version <$> y !! key = Some (default 0 (version_of (x !! key)) + 1)%Z.

Lemma insert_bumps {K P} `{Countable K} (t : gmap K (Row P)) key r :
  row_version r = (default 0 (version_of (t !! key)) + 1)%Z → bumps t (<[key := r]> t).
Proof.
  intros Hr key'. destruct (decide (key' = key)) as [->|]; [|left; by rewrite lookup_insert_ne].
  right; right. by rewrite lookup_insert_eq, <-Hr.
Qed.
Lemma delete_bumps {K P} `{Countable K} (t : gmap K (Row P)) key : bumps t (delete key t).
Proof.
  intros key'. destruct (decide (key' = key)) as [->|]; [right; left; by rewrite lookup_delete_eq|].
  left. by rewrite lookup_delete_ne.
Qed.

Lemma stoolap_repository_bumps (c : RowCall A) : all_good bumps (stoolap_repository (J:=J) codec c).
Proof.
  destruct c; unfold stoolap_repository, stoolap_save, stoolap_load, stoolap_delete; good_body;
    [apply insert_bumps..|apply delete_bumps]; simplify_eq; cbn;
    match goal with Hk : _ !! _ = _ |- _ => by rewrite Hk end.
Qed.

(** A Stoolap save that answers a conflict has written nothing. *)
Definition quiet {T : Type} (evs : list (T * T)) : Prop := ∀ x y, (x, y) ∈ evs → y = x.
Lemma quiet_nil {T : Type} : quiet (T:=T) [].
Proof. by intros x y ?%not_elem_of_nil. Qed.
Lemma quiet_cons {T : Type} (x : T) evs : quiet evs → quiet ((x, x) :: evs).
Proof. by intros Hq a b [[= -> ->]|?]%elem_of_cons; auto. Qed.
Hint Resolve quiet_nil quiet_cons : core.

(** Of the commands of a transaction only the commit writes. *)
Lemma quiet_step {K P E B} `{Countable K} (refused : E → bool) (c : row_cmd K P E B) x tx b y tx' :
  row_effect refused c x tx b y tx' →
  match c with RCommit | RDelete _ | RUpsertNow _ _ => False | _ => True end → y = x.
Proof. destruct c; cbn; try done; by intros [-> _]. Qed.

Ltac quiet_walk H b :=
  cbn [bind exec answer fail_with pg_fail_with] in H;
  let He := fresh in
  apply runs_do in H as (? & ? & ? & b & ? & -> & He & _ & H);
  apply quiet_step in He as ->; [apply quiet_cons|done].
Ltac quiet_end H :=
  repeat (let b := fresh in quiet_walk H b); apply runs_end in H as (-> & _); auto.

Lemma stoolap_conflict_quiet i a t v evs at_ exp act tx' :
  runs is_write_conflict (answer (A:=A) (J:=J) Saved (stoolap_save codec i a t v)) tx_none evs
    (Ret (Saved (Err (Conflict at_ exp act)))) tx' → quiet evs.
Proof.
  unfold stoolap_save. destruct (prepared _ _) as [[resolved payload]|e]; intros Hr.
  2: { cbn in Hr. apply runs_end in Hr as (-> & _). auto. }
  quiet_walk Hr r. destruct r as [?|?]; [|by quiet_end Hr].
  quiet_walk Hr o. destruct o as [o|?]; [|by quiet_end Hr].
  destruct (match version_of o with None => _ | Some _ => _ end) as [m|?]; [|by quiet_end Hr].
  destruct (version_of o) as [c|]; (quiet_walk Hr r; destruct r as [k|?]; [|by quiet_end Hr];
    destruct (decide (k = 1%Z)); [|by quiet_end Hr]; walk Hr He Hs; apply runs_end in Hr as (-> & Ha & _);
    case_match; [done|]; destruct He as [_ [->|[Hc _]]]; [by auto|by rewrite Hc in Ha]).
Qed.

(** A stored snapshot is only ever replaced by one of a later version. *)
Definition grows {K P} `{Countable K} (x y : gmap K (Row P)) : Prop :=
  ∀ key r, x !! key = Some r → y !! key = Some r ∨ ∃ r', y !! key = Some r' ∧ (row_version r < row_version r')%Z.

Lemma insert_grows {K P} `{Countable K} (t : gmap K (Row P)) key r :
  (∀ r0, t !! key = Some r0 → (row_version r0 < row_version r)%Z) → grows t (<[key := r]> t).
Proof.
  intros Hr key' r0 Hk. destruct (decide (key' = key)) as [->|].
  - right. exists r. rewrite lookup_insert_eq. auto.
  - left. by rewrite lookup_insert_ne.
Qed.

Lemma stoolap_snapshots_grow (c : SnapshotCall J) : all_good grows (stoolap_snapshots (A:=A) codec c).
Proof.
  destruct c; unfold stoolap_snapshots, stoolap_save_snapshot, stoolap_load_snapshot; good_body;
    apply insert_grows; intros r0 Hr0; simplify_eq; cbn; by simplify_option_eq.
Qed.

(** Snapshots over Stoolap.  However saves and loads of snapshots interleave, every step of the
    table leaves each stored snapshot as it is or replaces it by one of a later version: an
    older snapshot never overwrites a newer one, and none disappears. *)
Lemma stoolap_snapshots_never_regress t s i x y :
  rtc (step is_write_conflict (stoolap_snapshots (A:=A) codec)) (initial t) s →
  (i, x, y) ∈ sys_history s → grows x y.
Proof.
  intros Hr. eapply good_history; [by intros u key r ?; left|apply stoolap_snapshots_grow|exact Hr].
Qed.

Lemma elem_of_row_call {K P} `{Countable K} i (h : list (nat * gmap K (Row P) * gmap K (Row P))) x y :
  (x, y) ∈ of_call i h ↔ (i, x, y) ∈ h.
Proof.
  unfold of_call. rewrite list_elem_of_omap. split.
  - intros ([[j x0] y0] & Hin & Heq). cbn in Heq. case_decide; by simplify_eq.
  - intros Hin. exists (i, x, y). split; [done|]. cbn. by rewrite decide_True.
Qed.

(** C32: The repository over Stoolap.  Whatever calls run concurrently, every step of the aggregate table
    leaves a row alone, deletes it or moves it to the next version, absence counting as
    version 0.  A save that answers [n] has replaced, in one step, the version it expected
    (or created the row, expecting 0) with its own payload, and [n] is that version plus
    one; a save that answers a conflict has written nothing. *)
Theorem durable_save_is_compare_and_set t0 s :
  rtc (step is_write_conflict (stoolap_repository (J:=J) codec)) (initial t0) s →
  (∀ i x y, (i, x, y) ∈ sys_history s → bumps x y) ∧
  ∀ i id a t v r tx, sys_calls s !! i = Some (Save id a t v, Ret (Saved r), tx) →
    match r with
    | Ok n => ∃ resolved payload x y,
        prepared t (map_err PInternal (aggregate_to_string codec a)) = Ok (resolved, payload) ∧
        n = (v + 1)%Z ∧ (i, x, y) ∈ sys_history s ∧
        sets (encode_tenant resolved, id) v (mk_row n payload) x y
    | Err (Conflict _ _ _) => ∀ x y, (i, x, y) ∈ sys_history s → y = x
    | Err _ => True
    end.
Proof.
  intros Hr. split.
  - eapply good_history; [by intros u key; left|apply stoolap_repository_bumps|exact Hr].
  - intros i id a t v r tx Hi. destruct (reachable_view _ _ _ _ Hr) as [_ Hv].
    destruct (Hv _ _ _ _ Hi) as [Hrun _]. cbn [stoolap_repository] in Hrun. destruct r as [n|e].
    + destruct (stoolap_save_sets _ _ _ _ _ _ _ _ _ Hrun) as (resolved & payload & x & y & Hp & Hn & Hin & Hs).
      exists resolved, payload, x, y. by rewrite <-elem_of_row_call.
    + destruct e; try done. intros x y Hin%elem_of_row_call.
      by apply (stoolap_conflict_quiet _ _ _ _ _ _ _ _ _ Hrun).
Qed.
End interleaved.

(** ** Examples *)
Module Example_rows.
Definition plain : Codec string string := mk_codec _ _ Ok Ok Ok Ok Ok.

(** Starts call [i]; answers [b] to its next command, which leaves [t] and [tx].  No call
    here holds a lock another one wants. *)
Ltac start n call := eapply rtc_l; [by apply step_start with (i := n) (c := call)|].
Ltac unlocked :=
  let Hj := fresh in let Hk := fresh in
  intros ? (? & ? & ? & ? & Hj & ? & Hk); repeat (apply lookup_insert_Some in Hj as [[<- [= <- <- <-]]|[_ Hj]]; [exfalso; first [done|set_solver]|]);
  by rewrite lookup_empty in Hj.
Tactic Notation "on" constr(n) "answer" uconstr(r) "leaving" uconstr(x) "," uconstr(y) :=
  eapply rtc_l;
    [eapply step_command with (i := n) (b := r) (t' := x) (tx' := y);
       [reflexivity|cbn; first [by split_and?|by split; [|left]]|unlocked]|].

Definition row1 (v : Z) (p : string) : gmap (string * string) (Row string) := {[("", "a") := mk_row v p]}.
Definition staged (p : string) : Tx (string * string) string :=
  mk_tx ∅ (Some (WInsert ("", "a") (mk_row 1 p))).

(** Two first saves race: one wins, the other is told. *)
Lemma stoolap_race : ∃ s,
  rtc (step is_write_conflict (stoolap_repository (J:=string) plain)) (initial ∅) s ∧
  sys_table s = row1 1 "x" ∧
  sys_calls s !! 0 = Some (Save "a" "x" None 0, Ret (Saved (Ok 1%Z)), tx_none) ∧
  sys_calls s !! 1 = Some (Save "a" "y" None 0, Ret (Saved (Err (Conflict "a" 0 0))), tx_none).
Proof.
  eexists. split.
  - start 0 (Save "a" "x" None 0). start 1 (Save "a" "y" None 0).
    on 0 answer (Ok ()) leaving ∅, tx_none. on 0 answer (Ok None) leaving ∅, tx_none.
    on 1 answer (Ok ()) leaving ∅, tx_none. on 1 answer (Ok None) leaving ∅, tx_none.
    on 0 answer (Ok 1%Z) leaving ∅, (staged "x"). on 1 answer (Ok 1%Z) leaving ∅, (staged "y").
    on 0 answer (Ok ()) leaving (row1 1 "x"), tx_none.
    on 1 answer (Err (UniqueConstraint "")) leaving (row1 1 "x"), tx_none. reflexivity.
  - by split_and!.
Qed.

Lemma durable_save_is_compare_and_set_witness : ∃ s,
  rtc (step is_write_conflict (stoolap_repository (J:=string) plain)) (initial ∅) s ∧
  sys_calls s !! 0 = Some (Save "a" "x" None 0, Ret (Saved (Ok 1%Z)), tx_none) ∧
  ∃ x y, (0, x, y) ∈ sys_history s ∧ sets ("", "a") 0 (mk_row 1 "x") x y.
Proof.
  destruct stoolap_race as (s & Hr & _ & H0 & H1). exists s. split; [exact Hr|]. split; [exact H0|].
  destruct (proj2 (durable_save_is_compare_and_set plain ∅ s Hr) 0 "a" "x" None 0%Z (Ok 1%Z) tx_none H0)
    as (resolved & payload & x & y & Hp & _ & Hin & Hs).
  injection Hp as <- <-. exists x, y. split; [exact Hin|exact Hs].
Defined.

(** Snapshots over Stoolap: an older one loses the race and is told. *)
Lemma stoolap_snapshots_never_regress_witness : ∃ s,
  rtc (step is_write_conflict (stoolap_snapshots (A:=string) plain)) (initial ∅) s ∧
  ∀ i x y, (i, x, y) ∈ sys_history s → grows x y.
Proof.
  eexists. split; [|intros i x y; apply (stoolap_snapshots_never_regress plain ∅)];
    (start 0 (SaveSnapshot "a" None 2 "x");
     on 0 answer (Ok ()) leaving ∅, tx_none; on 0 answer (Ok None) leaving ∅, tx_none;
     on 0 answer (Ok 1%Z) leaving ∅, (mk_tx ∅ (Some (WInsert ("", "a") (mk_row 2 "x"))));
     on 0 answer (Ok ()) leaving (row1 2 "x"), tx_none; reflexivity).
Defined.

(** *** Postgres *)
Definition pg_row (v : Z) (p : string) : gmap (option string * string) (Row string) :=
  {[(None, "a") := mk_row v p]}.
Definition pg_staged (p : string) : Tx (option string * string) string :=
  mk_tx ∅ (Some (WUpsert (None, "a") (mk_row 1 p))).
Abbreviation postgres_step := (step (λ _ : SqlxError, false) (postgres_repository (J:=string) plain)).

(** The first save of an aggregate does not look at the version it is given. *)
Lemma postgres_absent_ignores_version : ∃ s,
  rtc postgres_step (initial ∅) s ∧
  sys_calls s !! 0 = Some (Save "a" "x" None 7, Ret (Saved (Ok 1%Z)), tx_none).
Proof.
  eexists. split. 2: shelve. start 0 (Save "a" "x" None 7).
  on 0 answer (Ok ()) leaving ∅, tx_none. on 0 answer (Ok None) leaving ∅, tx_none.
  on 0 answer (Ok ()) leaving ∅, (pg_staged "x"). on 0 answer (Ok ()) leaving (pg_row 1 "x"), tx_none.
  reflexivity.
  Unshelve. reflexivity.
Qed.

(** Two first saves race: there is no row to lock, both are told they wrote version 1, and
    only one of the payloads is there. *)
Lemma postgres_first_saves_both_win : ∃ s,
  rtc postgres_step (initial ∅) s ∧ sys_table s = pg_row 1 "y" ∧
  sys_calls s !! 0 = Some (Save "a" "x" None 0, Ret (Saved (Ok 1%Z)), tx_none) ∧
  sys_calls s !! 1 = Some (Save "a" "y" None 0, Ret (Saved (Ok 1%Z)), tx_none).
Proof.
  eexists. split. 2: shelve. start 0 (Save "a" "x" None 0). start 1 (Save "a" "y" None 0).
  on 0 answer (Ok ()) leaving ∅, tx_none. on 0 answer (Ok None) leaving ∅, tx_none.
  on 1 answer (Ok ()) leaving ∅, tx_none. on 1 answer (Ok None) leaving ∅, tx_none.
  on 0 answer (Ok ()) leaving ∅, (pg_staged "x"). on 0 answer (Ok ()) leaving (pg_row 1 "x"), tx_none.
  on 1 answer (Ok ()) leaving (pg_row 1 "x"), (pg_staged "y").
  on 1 answer (Ok ()) leaving (pg_row 1 "y"), tx_none. reflexivity.
  Unshelve. by split_and!.
Qed.

(** A snapshot of version 1 that looked before one of version 2 was stored overwrites it. *)
Lemma postgres_snapshot_regresses : ∃ s x y,
  rtc (step (λ _ : SqlxError, false) (postgres_snapshots (A:=string))) (initial ∅) s ∧
  (0, x, y) ∈ sys_history s ∧ ¬ grows x y ∧ sys_table s = pg_row 1 "old".
Proof.
  eexists _, (pg_row 2 "new"), (pg_row 1 "old"). split_and!.
  - start 0 (SaveSnapshot "a" None 1 "old"). start 1 (SaveSnapshot "a" None 2 "new").
    on 0 answer (Ok None) leaving ∅, tx_none. on 1 answer (Ok None) leaving ∅, tx_none.
    on 1 answer (Ok ()) leaving (pg_row 2 "new"), tx_none.
    on 0 answer (Ok ()) leaving (pg_row 1 "old"), tx_none. reflexivity.
  - cbn. set_solver.
  - intros Hg. destruct (Hg (None, "a") (mk_row 2 "new") eq_refl) as [[=]|(r & [= <-] & Hlt)]. done.
  - done.
Qed.
End Example_rows.
