(* ===== verification/Layers.v ===== *)
(** * Workspace layering checks

    The architecture gate of the repository, xtask/src: [metadata::build_workspace] reads the
    dependency graph off `cargo metadata`, [layers] checks it against the layer map,
    [cycles::find_cycles] looks for cycles with Tarjan's algorithm, [hygiene] looks for
    changes that are already archived, and [main] puts the checks together.

    A [BTreeMap] is a finite map that is iterated in the order of its keys; a [Vec] used as
    a stack is a list with the top first.  [None] stands for a panic of Tarjan's algorithm or
    for fuel that ran out: [find_cycles_exact] shows that neither happens with one more unit
    of fuel than the graph has nodes.  Reading files and running cargo is not modelled: the
    metadata, the layer map and the directory listings are arguments. *)

From stdpp Require Import pretty.
From S2P Require Import Prelude Oidc.

(** ** The dependency graph and its order *)
Abbreviation Graph := (gmap string (list string)).
Abbreviation LayerMap := (gmap string string).

(** Iteration of a [BTreeMap] and its keys. *)
Definition entry_le {V} (a b : string * V) : Prop := String.le a.1 b.1.
#[export] Instance entry_le_dec {V} : RelDecision (entry_le (V:=V)).
Proof. intros a b. unfold entry_le. apply _. Defined.
Definition btree_iter {V} (m : gmap string V) : list (string * V) := merge_sort entry_le (map_to_list m).

(** [Ord] on [Vec<String>]. *)
Fixpoint names_leb (a b : list string) : bool :=
  match a, b with
  | [], _ => true
  | _ :: _, [] => false
  | x :: a, y :: b => if decide (x = y) then names_leb a b else bool_decide (String.le x y)
  end.
Definition names_le (a b : list string) : Prop := names_leb a b = true.
#[export] Instance names_le_dec : RelDecision names_le.
Proof. intros a b. unfold names_le. apply _. Defined.

#[export] Instance names_le_total : Total names_le.
Proof.
  unfold names_le. intros a. induction a as [|x a IH]; intros [|y b]; cbn; [by left..|by right|].
  destruct (decide (x = y)) as [->|Hne].
  - rewrite decide_True by done. apply IH.
  - rewrite decide_False by done. rewrite !bool_decide_eq_true. apply total, _.
Qed.
#[export] Instance names_le_trans : Transitive names_le.
Proof.
  unfold names_le. intros a. induction a as [|x a IH]; intros [|y b] [|z c]; cbn; try done.
  destruct (decide (x = y)) as [->|Hxy], (decide (y = z)) as [->|Hyz]; rewrite ?bool_decide_eq_true.
  - apply IH.
  - auto.
  - rewrite decide_False by done. rewrite bool_decide_eq_true. auto.
  - intros Hle Hle'. destruct (decide (x = z)) as [->|Hxz].
    + destruct Hxy. by apply (anti_symm String.le).
    + rewrite bool_decide_eq_true. by etrans.
Qed.

(** ** Cycles: Tarjan's strongly connected components *)
Module Cycles.
Record Tarjan := mk_tarjan {
  index_counter : nat;
  stack : list string;
  on_stack : gset string;
  indices : gmap string nat;
  lowlink : gmap string nat;
  sccs : list (list string);
}.

Definition Tarjan_new : Tarjan := mk_tarjan 0 [] ∅ ∅ ∅ [].

Definition deps_of (graph : Graph) (v : string) : list string := default [] (graph !! v).

Definition enter (v : string) (s : Tarjan) : Tarjan :=
  mk_tarjan (S (index_counter s)) (v :: stack s) ({[v]} ∪ on_stack s)
    (<[v := index_counter s]> (indices s)) (<[v := index_counter s]> (lowlink s)) (sccs s).

(** [lowlink.insert(v, v_low.min(n))] *)
Definition lower (v : string) (n : nat) (s : Tarjan) : option Tarjan :=
  v_low ← lowlink s !! v;
  Some (mk_tarjan (index_counter s) (stack s) (on_stack s) (indices s)
          (<[v := v_low `min` n]> (lowlink s)) (sccs s)).

Fixpoint pop_scc (v : string) (st : list string) (on : gset string) (scc : list string) :
    option (list string * gset string * list string) :=
  match st with
  | [] => None
  | w :: st =>
      if decide (w = v) then Some (st, on ∖ {[w]}, scc ++ [w])
      else pop_scc v st (on ∖ {[w]}) (scc ++ [w])
  end.

(** The end of [strongconnect]: the root of a component pops it. *)
Definition close (v : string) (s : Tarjan) : option Tarjan :=
  low ← lowlink s !! v;
  index ← indices s !! v;
  if decide (low = index) then
    '(st, on, scc) ← pop_scc v (stack s) (on_stack s) [];
    Some (mk_tarjan (index_counter s) st on (indices s) (lowlink s) (sccs s ++ [scc]))
  else Some s.

Section visit.
Context (strongconnect : string → Tarjan → option Tarjan) (v : string).

Definition visit_dep (w : string) (s : Tarjan) : option Tarjan :=
  if decide (indices s !! w = None) then
    s ← strongconnect w s;
    w_low ← lowlink s !! w;
    lower v w_low s
  else if decide (w ∈ on_stack s) then
    w_idx ← indices s !! w;
    lower v w_idx s
  else Some s.

Fixpoint visit_deps (deps : list string) (s : Tarjan) : option Tarjan :=
  match deps with
  | [] => Some s
  | w :: deps => s ← visit_dep w s; visit_deps deps s
  end.
End visit.

Fixpoint strongconnect (fuel : nat) (graph : Graph) (v : string) (s : Tarjan) : option Tarjan :=
  match fuel with
  | 0 => None
  | S fuel =>
      s ← visit_deps (strongconnect fuel graph) v (deps_of graph v) (enter v s);
      close v s
  end.

(** All crates the graph names. *)
Definition nodes (graph : Graph) : gset string :=
  dom graph ∪ list_to_set (concat (map snd (map_to_list graph))).

Fixpoint visit_keys (graph : Graph) (keys : list string) (s : Tarjan) : option Tarjan :=
  match keys with
  | [] => Some s
  | node :: keys =>
      s ← (if decide (indices s !! node = None)
           then strongconnect (S (size (nodes graph))) graph node s else Some s);
      visit_keys graph keys s
  end.

Definition find_cycles (graph : Graph) : option (list (list string)) :=
  s ← visit_keys graph (map fst (btree_iter graph)) Tarjan_new;
  Some (merge_sort names_le
          (map (merge_sort String.le) (filter (λ scc, 1 < length scc) (sccs s)))).

(** *** Specification *)
Definition edge (graph : Graph) (v w : string) : Prop := w ∈ deps_of graph v.
Definition mutual (graph : Graph) (v w : string) : Prop := rtc (edge graph) v w ∧ rtc (edge graph) w v.

(** *** The state between two visits *)
Section correct.
Context (graph : Graph).
Abbreviation reach := (rtc (edge graph)).

Definition visited (s : Tarjan) (x : string) : Prop := is_Some (indices s !! x).
Definition finished (s : Tarjan) (x : string) : Prop := visited s x ∧ x ∉ stack s.

(** [x] lies above [y] on the stack. *)
Definition above (s : Tarjan) (x y : string) : Prop :=
  reach y x ∧ ∃ i j, indices s !! x = Some i ∧ indices s !! y = Some j ∧ j < i.

(** The crates that can be reached from [v] and back. *)
Definition is_component (c : list string) : Prop :=
  NoDup c ∧ ∃ v, v ∈ c ∧ ∀ z, z ∈ c ↔ mutual graph v z.

Record wf (s : Tarjan) : Prop := mk_wf {
  wf_sorted : StronglySorted (above s) (stack s);
  wf_on : ∀ x, x ∈ on_stack s ↔ x ∈ stack s;
  wf_stack : ∀ x, x ∈ stack s → visited s x;
  wf_low : ∀ x, visited s x → is_Some (lowlink s !! x);
  wf_lt : ∀ x i, indices s !! x = Some i → i < index_counter s;
  wf_closed : ∀ x y, finished s x → edge graph x y → finished s y;
  wf_sccs : Forall is_component (sccs s);
  wf_union : ∀ x, finished s x ↔ x ∈ concat (sccs s);
  wf_disjoint : NoDup (concat (sccs s));
}.

(** What stays as it was: indices, and the lowlinks of what was visited. *)
Record extends (s s' : Tarjan) : Prop := mk_extends {
  ext_idx : ∀ x i, indices s !! x = Some i → indices s' !! x = Some i;
  ext_low : ∀ x, visited s x → lowlink s' !! x = lowlink s !! x;
  ext_new : ∀ x i, indices s' !! x = Some i → visited s x ∨ index_counter s ≤ i;
  ext_counter : index_counter s ≤ index_counter s';
}.

(** [strongconnect v] leaves [new] on the stack: nothing, or nodes that lead to the stack
    below, the lowest index they lead to being the lowlink of [v]. *)
Record connected (s : Tarjan) (v : string) (s' : Tarjan) (new : list string) (low : nat) : Prop := mk_connected {
  con_wf : wf s';
  con_ext : extends s s';
  con_stack : stack s' = new ++ stack s;
  con_visited : visited s' v;
  con_low : lowlink s' !! v = Some low;
  con_new : ∀ x, x ∈ new → ¬ visited s x ∧ (∀ y, edge graph x y → visited s' y) ∧ ∃ y, y ∈ stack s ∧ reach x y;
  con_root : new = [] ∧ index_counter s ≤ low ∨
    ∃ y, y ∈ stack s ∧ indices s !! y = Some low ∧ reach v y;
  con_bound : ∀ x y i, x ∈ new → edge graph x y → y ∈ stack s → indices s !! y = Some i → low ≤ i;
}.

(** The loop of [strongconnect v], called in [s0], when it has seen [done]. *)
Record visiting (s0 : Tarjan) (v : string) (done : list string) (s : Tarjan) (new : list string) (low : nat) :
    Prop := mk_visiting {
  vis_wf : wf s;
  vis_ext : extends s0 s;
  vis_stack : stack s = new ++ v :: stack s0;
  vis_index : indices s !! v = Some (index_counter s0);
  vis_low : lowlink s !! v = Some low;
  vis_le : low ≤ index_counter s0;
  vis_root : ∃ y, y ∈ stack s ∧ indices s !! y = Some low ∧ reach v y;
  vis_new : ∀ x, x ∈ new → ¬ visited s0 x ∧ (∀ y, edge graph x y → visited s y) ∧ reach x v;
  vis_done : ∀ w, w ∈ done → visited s w;
  vis_bound : ∀ x y i, x ∈ new ∨ x = v ∧ y ∈ done → edge graph x y → y ∈ stack s0 →
    indices s0 !! y = Some i → low ≤ i;
}.

(** *** Entering a node *)
Lemma visited_enter s v x : visited (enter v s) x ↔ x = v ∨ visited s x.
Proof.
  unfold visited, enter. cbn. destruct (decide (x = v)) as [->|].
  - rewrite lookup_insert_eq. naive_solver.
  - rewrite lookup_insert_ne by done. naive_solver.
Qed.

Lemma extends_enter s v : wf s → ¬ visited s v → extends s (enter v s).
Proof.
  intros Hwf Hv. split; cbn.
  - intros x i Hx. rewrite lookup_insert_ne; [done|]. intros ->. apply Hv. by eexists.
  - intros x Hx. rewrite lookup_insert_ne; [done|]. intros ->. by apply Hv.
  - intros x i Hx. insert_cases Hx; [by right|]. left. by eexists.
  - lia.
Qed.

Lemma finished_enter s v x : ¬ visited s v → finished (enter v s) x ↔ finished s x.
Proof.
  intros Hv. unfold finished. rewrite visited_enter. cbn. rewrite not_elem_of_cons.
  split; [naive_solver|]. intros [Hx Hn]. split_and!; [by right|by intros ->|done].
Qed.

Lemma above_mono s s' x y : extends s s' → above s x y → above s' x y.
Proof. intros He (Hr & i & j & Hi & Hj & Hlt). split; [done|]. exists i, j. eauto using ext_idx. Qed.

Lemma StronglySorted_impl {A} (R R' : A → A → Prop) l :
  (∀ x y, R x y → R' x y) → StronglySorted R l → StronglySorted R' l.
Proof. intros Himp. induction 1; constructor; [done|]. eauto using Forall_impl. Qed.

Lemma StronglySorted_related {A} (R : A → A → Prop) a x b y c :
  StronglySorted R (a ++ (x :: b) ++ y :: c) → R x y.
Proof.
  induction a as [|z a IH]; cbn; inversion 1 as [|? ? Hr Hf]; subst; [|auto].
  rewrite Forall_forall in Hf. apply Hf. set_solver.
Qed.

Lemma wf_enter s v : wf s → ¬ visited s v → (∀ x, x ∈ stack s → reach x v) → wf (enter v s).
Proof.
  intros Hwf Hv Hreach. pose proof (extends_enter _ _ Hwf Hv) as He. split; cbn.
  - constructor; [by eapply StronglySorted_impl, wf_sorted; eauto using above_mono|].
    apply Forall_forall. intros y Hy. split; [auto|]. destruct (wf_stack _ Hwf y Hy) as [j Hj].
    exists (index_counter s), j. split_and!; [apply lookup_insert_eq|by apply (ext_idx _ _ He)|by eapply wf_lt].
  - intros x. rewrite elem_of_union, elem_of_singleton, elem_of_cons, (wf_on _ Hwf). done.
  - intros x Hx. apply visited_enter. apply elem_of_cons in Hx as [->|Hx]; [by left|]. right. by apply wf_stack.
  - intros x [->|Hx]%visited_enter; [by rewrite lookup_insert_eq|].
    rewrite lookup_insert_ne by (intros ->; done). by apply wf_low.
  - intros x i Hx. insert_cases Hx; [lia|]. eapply wf_lt in Hx; [lia|done].
  - intros x y. rewrite !finished_enter by done. by apply wf_closed.
  - by apply wf_sccs.
  - intros x. rewrite finished_enter by done. by apply wf_union.
  - by apply wf_disjoint.
Qed.

Lemma enter_visiting s v :
  wf s → ¬ visited s v → (∀ x, x ∈ stack s → reach x v) →
  visiting s v [] (enter v s) [] (index_counter s).
Proof.
  intros Hwf Hv Hr. split; [by apply wf_enter|by apply extends_enter|..]; cbn;
    rewrite ?lookup_insert_eq; try done.
  - exists v. split_and!; [by left|by rewrite lookup_insert_eq|done].
  - by intros x ?%not_elem_of_nil.
  - by intros x ?%not_elem_of_nil.
  - intros x y i [?%not_elem_of_nil|[_ ?%not_elem_of_nil]]; done.
Qed.

(** *** Visiting a dependency *)
Definition with_low (v : string) (n : nat) (s : Tarjan) : Tarjan :=
  mk_tarjan (index_counter s) (stack s) (on_stack s) (indices s) (<[v := n]> (lowlink s)) (sccs s).

Lemma lower_exact v n s low : lowlink s !! v = Some low → lower v n s = Some (with_low v (low `min` n) s).
Proof. unfold lower. by intros ->. Qed.

Lemma wf_with_low v n s : wf s → wf (with_low v n s).
Proof.
  intros [? ? ? Hlow ? ? ? ? ?]. split; try done. intros x Hx. cbn.
  destruct (decide (x = v)) as [->|]; [by rewrite lookup_insert_eq|].
  rewrite lookup_insert_ne by done. by apply Hlow.
Qed.

Lemma extends_with_low s0 v n s : ¬ visited s0 v → extends s0 s → extends s0 (with_low v n s).
Proof.
  intros Hv [? Hlow ? ?]. split; try done. intros x Hx. cbn. rewrite lookup_insert_ne by (by intros ->). auto.
Qed.

Lemma extends_trans s s1 s2 : extends s s1 → extends s1 s2 → extends s s2.
Proof.
  intros [Hi Hl Hn Hc] [Hi' Hl' Hn' Hc']. split; [auto| | |lia].
  - intros x Hx. rewrite Hl'; [auto|]. destruct Hx as [i Hx]. exists i. auto.
  - intros x i Hx. destruct (Hn' x i Hx) as [[j Hj]|]; [|right; lia].
    rewrite (Hi' _ _ Hj) in Hx. injection Hx as ->. by eapply Hn.
Qed.

Lemma visited_extends s s' x : extends s s' → visited s x → visited s' x.
Proof. intros He [i Hi]. exists i. by eapply ext_idx. Qed.

Section loop.
Context (s0 : Tarjan) (v : string) (Hwf0 : wf s0) (Hv : ¬ visited s0 v)
  (Hreach : ∀ x, x ∈ stack s0 → reach x v).

Lemma visiting_reaches done s new low x : visiting s0 v done s new low → x ∈ stack s → reach x v.
Proof.
  intros Hs. rewrite (vis_stack _ _ _ _ _ _ Hs), elem_of_app, elem_of_cons.
  intros [Hx|[->|Hx]]; [by eapply vis_new|done|auto].
Qed.

(** A dependency that is on the stack. *)
Lemma visiting_back done s new low w i :
  visiting s0 v done s new low → edge graph v w → w ∈ stack s → indices s !! w = Some i →
  visiting s0 v (done ++ [w]) (with_low v (low `min` i) s) new (low `min` i).
Proof.
  intros [Hwf Hext Hst Hidx Hlow Hle (y & Hy & Hiy & Hry) Hnew Hdone Hb] Hedge Hw Hi.
  split; [by apply wf_with_low|by apply extends_with_low|done|done|by cbn; rewrite lookup_insert_eq|lia|..]; cbn.
  - destruct (Nat.min_dec low i) as [->| ->]; [by exists y|]. exists w. split_and!; [done..|by apply rtc_once].
  - done.
  - intros z [Hz| ->%list_elem_of_singleton]%elem_of_app; [by apply Hdone|]. by exists i.
  - intros x z j Hx Hxz Hz Hj. destruct Hx as [Hx|[-> [Hx| ->%list_elem_of_singleton]%elem_of_app]].
    + specialize (Hb x z j (or_introl Hx) Hxz Hz Hj). lia.
    + specialize (Hb v z j (or_intror (conj eq_refl Hx)) Hxz Hz Hj). lia.
    + apply (ext_idx _ _ Hext) in Hj. rewrite Hj in Hi. injection Hi as ->. lia.
Qed.

(** A dependency that is finished. *)
Lemma visiting_skip done s new low w :
  visiting s0 v done s new low → finished s w → visiting s0 v (done ++ [w]) s new low.
Proof.
  intros [Hwf Hext Hst Hidx Hlow Hle Hroot Hnew Hdone Hb] [Hvw Hw]. split; try done.
  - intros z [Hz| ->%list_elem_of_singleton]%elem_of_app; [by apply Hdone|done].
  - intros x z j Hx Hxz Hz Hj. destruct Hx as [Hx|[-> [Hx| ->%list_elem_of_singleton]%elem_of_app]]; [eauto..|].
    destruct Hw. rewrite Hst. set_solver.
Qed.

(** A dependency that is not visited yet. *)
Lemma visiting_call done s new low w s1 new1 low1 :
  visiting s0 v done s new low → edge graph v w → ¬ visited s w → connected s w s1 new1 low1 →
  lowlink s1 !! v = Some low ∧
  visiting s0 v (done ++ [w]) (with_low v (low `min` low1) s1) (new1 ++ new) (low `min` low1).
Proof.
  intros Hs Hedge Hw [Hwf1 Hext1 Hst1 Hvw Hlow1 Hnew1 Hroot1 Hb1].
  pose proof Hs as [Hwf Hext Hst Hidx Hlow Hle (y & Hy & Hiy & Hry) Hnew Hdone Hb].
  assert (visited s v) as Hvs by by eexists.
  assert (lowlink s1 !! v = Some low) as Hl by (by rewrite (ext_low _ _ Hext1 _ Hvs)).
  split; [done|]. split; cbn; rewrite ?lookup_insert_eq; [by apply wf_with_low|..].
  - apply extends_with_low; [done|]. by eapply extends_trans.
  - by rewrite Hst1, Hst, app_assoc.
  - by apply (ext_idx _ _ Hext1).
  - done.
  - lia.
  - rewrite Hst1. destruct Hroot1 as [[-> Hge]|(z & Hz & Hiz & Hrz)].
    + rewrite Nat.min_l by (pose proof (ext_counter _ _ Hext); lia).
      exists y. split_and!; [done|by apply (ext_idx _ _ Hext1)|done].
    + destruct (Nat.min_dec low low1) as [->| ->]; [exists y|exists z];
        (split_and!; [set_solver|by apply (ext_idx _ _ Hext1)|]); [done|by eapply rtc_l].
  - intros x [Hx|Hx]%elem_of_app.
    + destruct (Hnew1 x Hx) as (Hnx & Hex & z & Hz & Hrz). split_and!; [|done|].
      * intros Hx0. apply Hnx. by eapply visited_extends.
      * etrans; [exact Hrz|]. by eapply visiting_reaches.
    + destruct (Hnew x Hx) as (Hnx & Hex & Hrx). split_and!; [done| |done].
      intros z Hz. apply (visited_extends s s1); auto.
  - intros z [Hz| ->%list_elem_of_singleton]%elem_of_app; [|done]. apply (visited_extends s s1); auto.
  - intros x z j Hx Hxz Hz Hj. assert (z ∈ stack s) as Hzs by (rewrite Hst; set_solver).
    rewrite elem_of_app in Hx. destruct Hx as [[Hx|Hx]|[-> [Hx| ->%list_elem_of_singleton]%elem_of_app]].
    + assert (indices s !! z = Some j) as Hjs by (by apply (ext_idx _ _ Hext)).
      specialize (Hb1 x z j Hx Hxz Hzs Hjs). lia.
    + specialize (Hb x z j (or_introl Hx) Hxz Hz Hj). lia.
    + specialize (Hb v z j (or_intror (conj eq_refl Hx)) Hxz Hz Hj). lia.
    + destruct Hw. exists j. by apply (ext_idx _ _ Hext).
Qed.

(** *** Leaving a node *)
Lemma pop_scc_exact (new rest : list string) on acc :
  v ∉ new → pop_scc v (new ++ v :: rest) on acc = Some (rest, on ∖ list_to_set (new ++ [v]), acc ++ new ++ [v]).
Proof.
  revert on acc. induction new as [|w new IH]; intros on acc Hnew; cbn.
  - rewrite decide_True by done. by rewrite union_empty_r_L.
  - apply not_elem_of_cons in Hnew as [Hne Hnew]. rewrite decide_False by done.
    rewrite IH by done. do 2 f_equal; [f_equal; set_solver|]. by rewrite <-app_assoc.
Qed.

Section leave.
Context (done : list string) (s : Tarjan) (new : list string) (low : nat)
  (Hs : visiting s0 v done s new low) (Hdone : ∀ w, edge graph v w → w ∈ done).

Lemma new_above x : x ∈ new → above s x v.
Proof.
  intros (a & b & ->)%list_elem_of_split. pose proof (wf_sorted _ (vis_wf _ _ _ _ _ _ Hs)) as Hso.
  rewrite (vis_stack _ _ _ _ _ _ Hs), <-app_assoc in Hso. by apply StronglySorted_related in Hso.
Qed.

Lemma above_irrefl x : ¬ above s x x.
Proof. intros (_ & i & j & Hi & Hj & Hlt). rewrite Hi in Hj. injection Hj as ->. lia. Qed.

Lemma v_not_new : v ∉ new.
Proof. intros Hin. by apply (above_irrefl v), new_above. Qed.

Lemma stack_NoDup (t : Tarjan) : wf t → NoDup (stack t).
Proof.
  intros Hwf. pose proof (wf_sorted _ Hwf) as Hso. induction Hso as [|x l Hl IH Hf]; constructor; [|done].
  rewrite Forall_forall in Hf. intros Hx. destruct (Hf x Hx) as (_ & i & j & Hi & Hj & Hlt).
  rewrite Hi in Hj. injection Hj as ->. lia.
Qed.

(** Above the old stack every edge leads to a visited node. *)
Lemma new_edges x y : x ∈ new ++ [v] → edge graph x y → visited s y.
Proof.
  intros [Hx| ->%list_elem_of_singleton]%elem_of_app Hxy; [by eapply vis_new|]. eapply vis_done; eauto.
Qed.

(** If the lowlink is still the index, no edge leads below [v]. *)
Lemma root_edges x y :
  low = index_counter s0 → x ∈ new ++ [v] → edge graph x y → y ∈ new ++ [v] ∨ finished s y.
Proof.
  intros Hlow Hx Hxy. pose proof (new_edges x y Hx Hxy) as Hy.
  destruct (decide (y ∈ stack s)) as [Hin|]; [|by right; split]. left.
  rewrite (vis_stack _ _ _ _ _ _ Hs) in Hin. apply elem_of_app in Hin as [?|[->|Hin]%elem_of_cons]; [set_solver..|].
  exfalso. destruct (wf_stack _ Hwf0 _ Hin) as [i Hi].
  assert (low ≤ i); [|by pose proof (wf_lt _ Hwf0 _ _ Hi); lia].
  eapply (vis_bound _ _ _ _ _ _ Hs x y); [|done..].
  apply elem_of_app in Hx as [Hx| ->%list_elem_of_singleton]; [by left|right]. auto.
Qed.

Lemma root_reach x z : low = index_counter s0 → reach x z → x ∈ new ++ [v] ∨ finished s x → z ∈ new ++ [v] ∨ finished s z.
Proof.
  intros Hlow. induction 1 as [x|x y z Hxy _ IH]; [done|]. intros [Hx|Hx]; apply IH.
  - by eapply root_edges.
  - right. by eapply (wf_closed _ (vis_wf _ _ _ _ _ _ Hs)).
Qed.

Lemma finished_reach t x z : wf t → reach x z → finished t x → finished t z.
Proof. intros Hwf. induction 1; eauto using wf_closed. Qed.

Lemma root_component : low = index_counter s0 → is_component (new ++ [v]).
Proof.
  intros Hlow. split.
  - apply NoDup_app. pose proof (stack_NoDup _ (vis_wf _ _ _ _ _ _ Hs)) as Hnd.
    rewrite (vis_stack _ _ _ _ _ _ Hs) in Hnd. apply NoDup_app in Hnd as (Hnd & _ & _). split_and!; [done| |apply NoDup_singleton].
    intros x Hx ->%list_elem_of_singleton. by apply v_not_new.
  - exists v. split; [set_solver|]. intros z. split.
    + intros [Hz| ->%list_elem_of_singleton]%elem_of_app; [|by split].
      split; [by apply new_above|by eapply vis_new].
    + intros [Hvz Hzv]. destruct (root_reach v z Hlow Hvz) as [?|Hz]; [left; set_solver|done|].
      destruct (finished_reach _ _ _ (vis_wf _ _ _ _ _ _ Hs) Hzv Hz) as [_ []].
      rewrite (vis_stack _ _ _ _ _ _ Hs). set_solver.
Qed.

Definition popped : Tarjan :=
  mk_tarjan (index_counter s) (stack s0) (on_stack s ∖ list_to_set (new ++ [v])) (indices s) (lowlink s)
    (sccs s ++ [new ++ [v]]).

Lemma elem_of_stack x : x ∈ stack s ↔ x ∈ new ++ [v] ∨ x ∈ stack s0.
Proof. rewrite (vis_stack _ _ _ _ _ _ Hs). set_solver. Qed.

Lemma new_not_old x : x ∈ new ++ [v] → x ∉ stack s0.
Proof.
  intros Hx Hin. pose proof (stack_NoDup _ (vis_wf _ _ _ _ _ _ Hs)) as Hnd.
  rewrite (vis_stack _ _ _ _ _ _ Hs) in Hnd. change (v :: stack s0) with ([v] ++ stack s0) in Hnd.
  rewrite app_assoc in Hnd. apply NoDup_app in Hnd as (_ & Hd & _). by apply (Hd x).
Qed.

Lemma finished_popped x : finished popped x ↔ x ∈ new ++ [v] ∨ finished s x.
Proof.
  unfold finished, visited. cbn. rewrite elem_of_stack. split.
  - intros [Hx Hn]. destruct (decide (x ∈ new ++ [v])); [by left|]. right. tauto.
  - intros [Hx|[Hx Hn]]; [|tauto]. split; [|by apply new_not_old].
    apply (wf_stack _ (vis_wf _ _ _ _ _ _ Hs)). rewrite elem_of_stack. by left.
Qed.

Lemma wf_popped : low = index_counter s0 → wf popped.
Proof.
  intros Hlow. pose proof Hs as [Hwf Hext Hst _ _ _ _ _ _ _]. split; cbn [popped stack on_stack lowlink index_counter sccs indices].
  - eapply StronglySorted_impl, wf_sorted, Hwf0. intros x y. apply (above_mono s0 s _ _ Hext).
  - intros x. pose proof (new_not_old x) as Hx.
    rewrite elem_of_difference, (wf_on _ Hwf), elem_of_list_to_set, elem_of_stack. tauto.
  - intros x Hx. apply (visited_extends s0 s); [exact Hext|by apply wf_stack].
  - apply (wf_low _ Hwf).
  - apply (wf_lt _ Hwf).
  - intros x y. rewrite !finished_popped. intros [Hx|Hx] Hxy; [by eapply root_edges|].
    right. by eapply wf_closed.
  - apply Forall_app. split; [by apply wf_sccs|]. by apply Forall_singleton, root_component.
  - intros x. rewrite finished_popped, (wf_union _ Hwf), concat_app. cbn [concat]. rewrite app_nil_r, !elem_of_app. tauto.
  - rewrite concat_app. cbn [concat]. rewrite app_nil_r. apply NoDup_app. split_and!; [by apply wf_disjoint| |by apply root_component].
    intros x [_ Hx]%(wf_union _ Hwf) Hin. apply Hx. rewrite elem_of_stack. by left.
Qed.

Lemma close_root :
  low = index_counter s0 → close v s = Some popped ∧ connected s0 v popped [] low.
Proof.
  intros Hlow. pose proof Hs as [Hwf Hext Hst Hidx Hl _ _ _ _ _]. split.
  - unfold close. rewrite Hl, Hidx. cbn [mbind option_bind]. rewrite decide_True by done.
    rewrite Hst, pop_scc_exact by apply v_not_new. done.
  - split; try done.
    + by apply wf_popped.
    + by destruct Hext.
    + by exists (index_counter s0).
    + by intros x ?%not_elem_of_nil.
    + left. split; [done|lia].
    + by intros x y i ?%not_elem_of_nil.
Qed.

Lemma close_inner :
  low ≠ index_counter s0 → close v s = Some s ∧ connected s0 v s (new ++ [v]) low.
Proof.
  intros Hlow. pose proof Hs as [Hwf Hext Hst Hidx Hl Hle (y & Hy & Hiy & Hry) Hnew _ Hb].
  assert (y ∈ stack s0 ∧ indices s0 !! y = Some low) as [Hy0 Hi0].
  { apply elem_of_stack in Hy as [[Hy| ->%list_elem_of_singleton]%elem_of_app|Hy].
    - destruct (new_above y Hy) as (_ & i & j & Hi & Hj & Hlt). exfalso. simplify_eq. lia.
    - simplify_eq.
    - split; [done|]. destruct (wf_stack _ Hwf0 _ Hy) as [j Hj]. pose proof (ext_idx _ _ Hext _ _ Hj). congruence. }
  split.
  - unfold close. rewrite Hl, Hidx. cbn [mbind option_bind]. by rewrite decide_False.
  - split; try done.
    + by rewrite Hst, <-app_assoc.
    + by exists (index_counter s0).
    + intros x Hx. split_and!.
      * apply elem_of_app in Hx as [Hx| ->%list_elem_of_singleton]; [by apply Hnew|done].
      * intros z. by apply new_edges.
      * exists y. split; [done|]. apply elem_of_app in Hx as [Hx| ->%list_elem_of_singleton]; [|done].
        etrans; [by apply Hnew|done].
    + right. by exists y.
    + intros x z i Hx Hxz. eapply Hb; [|done].
      apply elem_of_app in Hx as [Hx| ->%list_elem_of_singleton]; [by left|]. right. auto.
Qed.
End leave.

Lemma close_connects done s new low :
  visiting s0 v done s new low → (∀ w, edge graph v w → w ∈ done) →
  ∃ s' new', close v s = Some s' ∧ connected s0 v s' new' low.
Proof.
  intros Hs Hd. destruct (decide (low = index_counter s0)) as [Hlow|Hlow].
  - eexists _, _. by apply (close_root done s new low).
  - eexists _, _. by apply (close_inner done s new low).
Qed.
End loop.

(** *** The recursion returns *)
Definition unvisited (s : Tarjan) : nat := size (nodes graph ∖ dom (indices s)).

Lemma edge_nodes v w : edge graph v w → w ∈ nodes graph.
Proof.
  unfold edge, deps_of, nodes. destruct (graph !! v) as [deps|] eqn:Hd; cbn; [|by intros ?%not_elem_of_nil].
  intros Hw. apply elem_of_union_r, elem_of_list_to_set, list_elem_of_In, in_concat.
  exists deps. split; [|by apply list_elem_of_In]. apply in_map_iff. exists (v, deps). split; [done|].
  by apply list_elem_of_In, elem_of_map_to_list.
Qed.

Lemma visited_dom s x : visited s x ↔ x ∈ dom (indices s).
Proof. unfold visited. by rewrite elem_of_dom. Qed.

Lemma unvisited_extends s s' : extends s s' → unvisited s' ≤ unvisited s.
Proof.
  intros He. unfold unvisited. apply subseteq_size. intros x. rewrite !elem_of_difference, <-!visited_dom.
  intros [Hx Hn]. split; [done|]. intros Hv. by apply Hn, (visited_extends s s').
Qed.

Lemma unvisited_enter s v : v ∈ nodes graph → ¬ visited s v → unvisited (enter v s) < unvisited s.
Proof.
  intros Hn Hv. unfold unvisited. apply subset_size. cbn [enter indices]. rewrite dom_insert_L.
  rewrite visited_dom in Hv. split; [set_solver|]. intros Hsub. specialize (Hsub v). set_solver.
Qed.

Definition connects (sc : string → Tarjan → option Tarjan) (bound : nat) : Prop :=
  ∀ s v, wf s → v ∈ nodes graph → ¬ visited s v → (∀ x, x ∈ stack s → reach x v) → unvisited s < bound →
    ∃ s' new low, sc v s = Some s' ∧ connected s v s' new low.

Lemma visit_deps_visits sc bound s0 v deps done s new low :
  connects sc bound → wf s0 → ¬ visited s0 v → (∀ x, x ∈ stack s0 → reach x v) →
  (∀ w, w ∈ deps → edge graph v w) → unvisited s < bound → visiting s0 v done s new low →
  ∃ s' new' low', visit_deps sc v deps s = Some s' ∧ visiting s0 v (done ++ deps) s' new' low'.
Proof.
  intros Hsc Hwf0 Hv Hr. revert done s new low.
  induction deps as [|w deps IH]; intros done s new low Hdeps Hlt Hs; cbn [visit_deps].
  { rewrite app_nil_r. eauto 10. }
  assert (edge graph v w) as Hvw by (apply Hdeps; by left).
  assert (∀ s' new' low', visit_dep sc v w s = Some s' → visiting s0 v (done ++ [w]) s' new' low' →
    unvisited s' < bound →
    ∃ s2 new2 low2, (s1 ← visit_dep sc v w s; visit_deps sc v deps s1) = Some s2 ∧
      visiting s0 v (done ++ w :: deps) s2 new2 low2) as Hgo.
  { intros s' new' low' Heq Hs' Hlt'. rewrite Heq. cbn [mbind option_bind].
    destruct (IH (done ++ [w]) s' new' low') as (s2 & new2 & low2 & ? & Hs2); [|done..|].
    - intros z Hz. apply Hdeps. by right.
    - exists s2, new2, low2. split; [done|]. by rewrite <-app_assoc in Hs2. }
  unfold visit_dep in *. case_decide as Hw.
  - assert (¬ visited s w) as Hnw by (intros [? ?]; congruence).
    destruct (Hsc s w) as (s1 & new1 & low1 & Heq & Hc);
      [by eapply vis_wf|by eapply edge_nodes|done| |done|].
    { intros x Hx. eapply rtc_r; [by eapply visiting_reaches|done]. }
    destruct (visiting_call s0 v Hwf0 Hv Hr _ _ _ _ _ _ _ _ Hs Hvw Hnw Hc) as [Hl Hs1]. eapply Hgo; [|exact Hs1|].
    + rewrite Heq. cbn [mbind option_bind]. rewrite (con_low _ _ _ _ _ Hc). cbn [mbind option_bind].
      by apply lower_exact.
    + eapply Nat.le_lt_trans; [|exact Hlt]. apply (unvisited_extends s s1), (con_ext _ _ _ _ _ Hc).
  - destruct (indices s !! w) as [i|] eqn:Hi; [|done]. case_decide as Hon.
    + eapply Hgo; [|eapply (visiting_back s0 v Hv); [exact Hs|done| |exact Hi]|done].
      * cbn [mbind option_bind]. apply lower_exact. apply (vis_low _ _ _ _ _ _ Hs).
      * by apply (wf_on _ (vis_wf _ _ _ _ _ _ Hs)).
    + eapply Hgo; [done|eapply (visiting_skip s0 v Hwf0 Hv Hr); [exact Hs|]|done]. split; [by exists i|].
      by rewrite <-(wf_on _ (vis_wf _ _ _ _ _ _ Hs)).
Qed.

Lemma strongconnect_connects fuel : connects (strongconnect fuel graph) fuel.
Proof.
  induction fuel as [|fuel IH]; intros s v Hwf Hn Hv Hr Hlt; [lia|]. cbn [strongconnect].
  destruct (visit_deps_visits (strongconnect fuel graph) fuel s v (deps_of graph v) [] (enter v s) [] (index_counter s))
    as (s1 & new & low & -> & Hs1); [done..| | |].
  - pose proof (unvisited_enter s v Hn Hv). lia.
  - by apply enter_visiting.
  - cbn [mbind option_bind]. destruct (close_connects s v Hwf Hv Hr _ _ _ _ Hs1) as (s' & new' & Hc & Hcon).
    { auto. }
    eauto.
Qed.

(** Between two keys the stack is empty. *)
Lemma visit_keys_visits keys s :
  wf s → stack s = [] → (∀ k, k ∈ keys → k ∈ nodes graph) →
  ∃ s', visit_keys graph keys s = Some s' ∧ wf s' ∧ stack s' = [] ∧ extends s s' ∧ ∀ k, k ∈ keys → visited s' k.
Proof.
  revert s. induction keys as [|k keys IH]; intros s Hwf Hst Hk; cbn [visit_keys].
  { exists s. split_and!; try done; [|by intros k ?%not_elem_of_nil]. split; try done. intros x i Hx. left. by exists i. }
  case_decide as Hv.
  - destruct (strongconnect_connects (S (size (nodes graph))) s k) as (s1 & new & low & -> & Hc); [done|..].
    + apply Hk. by left.
    + intros [? ?]. congruence.
    + rewrite Hst. by intros x ?%not_elem_of_nil.
    + unfold unvisited. apply Nat.lt_succ_r, subseteq_size. set_solver.
    + assert (new = []) as ->.
      { destruct new as [|x new]; [done|]. destruct (con_new _ _ _ _ _ Hc x) as (_ & _ & y & Hy & _); [by left|].
        rewrite Hst in Hy. by apply not_elem_of_nil in Hy. }
      cbn [mbind option_bind]. destruct (IH s1) as (s' & Heq & Hwf' & Hst' & He & Hvis).
      * by apply con_wf in Hc.
      * by rewrite (con_stack _ _ _ _ _ Hc), Hst.
      * intros z Hz. apply Hk. by right.
      * exists s'. split_and!; [done..|by eapply extends_trans; [by eapply con_ext|]|].
        intros z [->|Hz]%elem_of_cons; [|auto]. eapply visited_extends; [exact He|by eapply con_visited].
  - cbn [mbind option_bind]. destruct (IH s) as (s' & Heq & Hwf' & Hst' & He & Hvis); [done..| |].
    + intros z Hz. apply Hk. by right.
    + exists s'. split_and!; try done. intros z [->|Hz]%elem_of_cons; [|auto].
      eapply visited_extends; [exact He|]. destruct (indices s !! k) eqn:Hi; [by eexists|done].
Qed.
End correct.

(** *** What [find_cycles] reports *)
Lemma wf_new graph : wf graph Tarjan_new.
Proof.
  split; cbn; try done.
  - constructor.
  - set_solver.
  - by intros x ?%not_elem_of_nil.
  - by intros x y [[? ?] _].
  - intros x. split; [by intros [[? ?] _]|by intros ?%not_elem_of_nil].
  - constructor.
Qed.

Lemma elem_of_keys (graph : Graph) k : k ∈ map fst (btree_iter graph) ↔ k ∈ dom graph.
Proof.
  unfold btree_iter. rewrite list_elem_of_fmap, elem_of_dom. split.
  - intros ([k' d] & -> & Hin). rewrite merge_sort_Permutation, elem_of_map_to_list in Hin. by exists d.
  - intros [d Hd]. exists (k, d). split; [done|]. by rewrite merge_sort_Permutation, elem_of_map_to_list.
Qed.

(** A component of two crates or more has a member with a dependency. *)
Lemma mutual_edge graph v z : mutual graph v z → v ≠ z → v ∈ dom graph.
Proof.
  intros [Hvz _] Hne. destruct Hvz as [|v y z Hvy _]; [done|]. unfold edge, deps_of in Hvy. apply elem_of_dom.
  destruct (graph !! v); [by eexists|]. by apply not_elem_of_nil in Hvy.
Qed.

#[export] Instance mutual_equivalence graph : Equivalence (mutual graph).
Proof.
  split.
  - by split.
  - by intros x y [? ?].
  - intros x y z [? ?] [? ?]. split; by etrans.
Qed.

Lemma component_eq graph c c' v :
  is_component graph c → is_component graph c' → v ∈ c → v ∈ c' → c ≡ₚ c'.
Proof.
  intros (Hn & u & Hu & Hc) (Hn' & u' & Hu' & Hc') Hv Hv'. apply NoDup_Permutation; [done..|]. intros z.
  apply Hc in Hv. apply Hc' in Hv'. rewrite Hc, Hc'.
  assert (mutual graph u u') as Hm by (etrans; [exact Hv|by symmetry]). by rewrite Hm.
Qed.

(** Sorting and filtering components. *)
Lemma concat_Permutation {A} (l l' : list (list A)) : l ≡ₚ l' → concat l ≡ₚ concat l'.
Proof.
  induction 1 as [| |x y l|]; cbn; [done|by f_equiv| |by etrans].
  by rewrite !app_assoc, (Permutation_app_comm x y).
Qed.

Lemma NoDup_concat_filter {A} (P : list A → Prop) `{!∀ x, Decision (P x)} (f : list A → list A) l :
  (∀ c, f c ≡ₚ c) → NoDup (concat l) → NoDup (concat (map f (filter P l))).
Proof.
  intros Hf Hnd. assert (concat (map f (filter P l)) ⊆+ concat l) as Hsub.
  { clear Hnd. induction l as [|c l IH]; [done|]. rewrite filter_cons. case_decide; cbn.
    - rewrite Hf. by apply submseteq_app.
    - by apply submseteq_inserts_l. }
  apply submseteq_Permutation in Hsub as [k Hk]. rewrite Hk in Hnd. by apply NoDup_app in Hnd as [? _].
Qed.

Lemma is_component_sort graph c : is_component graph (merge_sort String.le c) ↔ is_component graph c.
Proof.
  unfold is_component. rewrite merge_sort_Permutation. split; intros (? & v & Hv & Hz);
    (split; [done|]; exists v); (split; [by rewrite merge_sort_Permutation in *|]);
    intros z; rewrite <-Hz; by rewrite merge_sort_Permutation.
Qed.

(** When every crate with dependencies is visited and the stack is empty, every crate on a
    cycle is in a component found. *)
Lemma component_found graph s v z :
  wf graph s → stack s = [] → (∀ k, k ∈ dom graph → visited s k) → mutual graph v z → v ≠ z →
  ∃ c, c ∈ sccs s ∧ v ∈ c ∧ is_component graph c.
Proof.
  intros Hwf Hst Hvis Hm Hne. assert (finished s v) as Hfin.
  { split; [|rewrite Hst; apply not_elem_of_nil]. eapply Hvis, mutual_edge; eauto. }
  apply (wf_union _ _ Hwf), list_elem_of_In, in_concat in Hfin as (c & Hc & Hv).
  apply list_elem_of_In in Hc, Hv. exists c. split_and!; [done..|].
  by apply (proj1 (Forall_forall _ _) (wf_sccs _ _ Hwf)).
Qed.

Lemma component_length graph c v z : is_component graph c → v ∈ c → mutual graph v z → v ≠ z → z ∈ c ∧ 1 < length c.
Proof.
  intros (_ & u & _ & Hc) Hv Hm Hne. assert (z ∈ c) as Hz by (apply Hc; etrans; [by apply Hc|done]).
  split; [done|]. destruct c as [|a [|b c]]; [by apply not_elem_of_nil in Hv| |cbn; lia].
  rewrite !list_elem_of_singleton in *. congruence.
Qed.

Lemma find_cycles_spec (graph : Graph) :
  ∃ cycles, find_cycles graph = Some cycles ∧ NoDup (concat cycles) ∧ StronglySorted names_le cycles ∧
    (∀ c, c ∈ cycles → 1 < length c ∧ StronglySorted String.le c ∧ is_component graph c) ∧
    ∀ v z, mutual graph v z → v ≠ z → ∃ c, c ∈ cycles ∧ v ∈ c ∧ z ∈ c.
Proof.
  destruct (visit_keys_visits graph (map fst (btree_iter graph)) Tarjan_new (wf_new graph) eq_refl)
    as (s & Heq & Hwf & Hst & _ & Hvis).
  { intros k Hk%elem_of_keys. unfold nodes. set_solver. }
  unfold find_cycles. rewrite Heq. cbn [mbind option_bind]. eexists. split; [done|]. split_and!.
  - rewrite concat_Permutation by apply merge_sort_Permutation.
    apply NoDup_concat_filter; [intros c; apply merge_sort_Permutation|by apply wf_disjoint in Hwf].
  - apply (StronglySorted_merge_sort _).
  - intros c. rewrite merge_sort_Permutation, list_elem_of_fmap.
    intros (c0 & -> & [Hlen Hc0]%list_elem_of_filter). split_and!; [|apply (StronglySorted_merge_sort _)|].
    + by rewrite (Permutation_length (merge_sort_Permutation _ _)).
    + apply is_component_sort. by apply (proj1 (Forall_forall _ _) (wf_sccs _ _ Hwf)).
  - intros v z Hm Hne. destruct (component_found graph s v z) as (c & Hc & Hv & Hcomp); [done..| |done|done|].
    { intros k Hk. by apply Hvis, elem_of_keys. }
    destruct (component_length _ _ _ _ Hcomp Hv Hm Hne) as [Hz Hlen]. exists (merge_sort String.le c).
    split_and!; [|by rewrite merge_sort_Permutation..].
    rewrite (merge_sort_Permutation names_le). apply list_elem_of_fmap. exists c.
    split; [done|]. by apply list_elem_of_filter.
Qed.

(** C34: Tarjan's algorithm always returns, without a panic, and reports exactly the cycles:
    the sets of two or more crates each of which depends on every other, directly or not,
    every one once, its members in alphabetical order and the sets in the order of their
    members. *)
Theorem find_cycles_exact (graph : Graph) :
  ∃ cycles, find_cycles graph = Some cycles ∧ NoDup (concat cycles) ∧ StronglySorted names_le cycles ∧
    ∀ c, c ∈ cycles ↔
      1 < length c ∧ NoDup c ∧ StronglySorted String.le c ∧ ∃ v, v ∈ c ∧ ∀ z, z ∈ c ↔ mutual graph v z.
Proof.
  destruct (find_cycles_spec graph) as (cycles & Heq & Hnd & Hso & Hsound & Hcomplete).
  exists cycles. split_and!; [done..|]. intros c. split.
  - intros (Hlen & Hsc & Hn & Hv)%Hsound. done.
  - intros (Hlen & Hn & Hsc & v & Hv & Hz).
    assert (∃ z, z ∈ c ∧ v ≠ z) as (z & Hzc & Hne).
    { destruct c as [|a [|b c]]; cbn in Hlen; [lia..|]. apply NoDup_cons in Hn as [Hn _].
      destruct (decide (v = a)) as [->|]; [exists b|exists a]; set_solver. }
    destruct (Hcomplete v z) as (c' & Hc' & Hv' & _); [by apply Hz|done|].
    destruct (Hsound c' Hc') as (_ & Hs' & Hcomp). replace c with c'; [done|].
    apply (StronglySorted_unique String.le); [done..|]. apply (component_eq graph c' c v); [done| |done..].
    split; [done|]. by exists v.
Qed.
Definition three : Graph := {["a" := ["b"]; "b" := ["c"]; "c" := ["a"; "d"]]}.
Example find_three : find_cycles three = Some [["a"; "b"; "c"]].
Proof. by vm_compute. Qed.
End Cycles.

(** ** Layers *)
Definition KNOWN_LAYERS : list string :=
  ["domain"; "foundation"; "cross-cutting"; "application"; "infrastructure"; "sdk"; "transport"; "tooling"].

Inductive Violation :=
| WrongDirection (from from_layer to to_layer : string)
| Cycle (members : list string)
| UnmappedCrate (name : string)
| DeadLayerEntry (name : string)
| InvalidLayer (crate_name layer : string).

Definition dq : string := String (Ascii.ascii_of_nat 34) "".

Definition Violation_fmt (v : Violation) : string :=
  match v with
  | WrongDirection from from_layer to to_layer =>
      "wrong-direction dependency: " +:+ from +:+ " (" +:+ from_layer +:+ ") -> " +:+ to +:+ " (" +:+ to_layer
      +:+ ") is not permitted by the layer direction rules"
  | Cycle members => "dependency cycle: " +:+ String.concat " -> " members
  | UnmappedCrate name => "unmapped crate: " +:+ name +:+ " has no layers.toml entry"
  | DeadLayerEntry name => "dead layer-map entry: " +:+ name +:+ " does not name a real workspace crate"
  | InvalidLayer crate_name layer =>
      "invalid layer: " +:+ crate_name +:+ " is mapped to unknown layer " +:+ dq +:+ layer +:+ dq
      +:+ " (expected one of " +:+ String.concat ", " KNOWN_LAYERS +:+ ")"
  end.

(** [None]: a layer that may depend on anything. *)
Definition allowed_layers (layer : string) : option (list string) :=
  if decide (layer = "domain") then Some ["domain"]
  else if decide (layer = "foundation") then Some ["domain"; "foundation"]
  else if decide (layer = "cross-cutting") then Some ["domain"]
  else if decide (layer = "application") then Some ["domain"]
  else if decide (layer = "infrastructure") then
    Some ["domain"; "application"; "foundation"; "cross-cutting"; "infrastructure"]
  else if decide (layer = "sdk") then Some ["domain"; "foundation"; "cross-cutting"]
  else if decide (layer = "transport") then Some ["domain"; "application"; "cross-cutting"; "sdk"]
  else if decide (layer = "tooling") then None
  else Some [].

Definition check_edge (layers : LayerMap) (from from_layer to : string) : list Violation :=
  match layers !! to with
  | None => []
  | Some to_layer =>
      match allowed_layers from_layer with
      | Some allowed => if decide (to_layer ∈ allowed) then [] else [WrongDirection from from_layer to to_layer]
      | None => []
      end
  end.

Definition check_direction (graph : Graph) (layers : LayerMap) : list Violation :=
  concat (map (λ '(from, deps),
    match layers !! from with
    | None => []
    | Some from_layer => concat (map (check_edge layers from from_layer) deps)
    end) (btree_iter graph)).

Definition check_completeness (crates : list string) (layers : LayerMap) : list Violation :=
  map UnmappedCrate (filter (λ c, layers !! c = None) crates) ++
  concat (map (λ '(name, layer),
    (if decide (name ∈ crates) then [] else [DeadLayerEntry name]) ++
    (if decide (layer ∈ KNOWN_LAYERS) then [] else [InvalidLayer name layer])) (btree_iter layers)).

(** ** The workspace, from [cargo metadata] *)
Record RawPackage := mk_package { pkg_id : string; pkg_name : string; manifest_path : string }.
Record RawDep := mk_dep { dep_pkg : string; dep_kinds : list (option string) }.
Record RawNode := mk_node { node_id : string; node_deps : list RawDep }.
Record RawMetadata := mk_metadata {
  packages : list RawPackage;
  workspace_members : list string;
  workspace_root : string;
  resolve_nodes : list RawNode;
}.
Record Workspace := mk_workspace { ws_graph : Graph; ws_crates : list string }.

(** [Path::components] on Unix: a leading separator is the root; repeated separators and
    inner `.` components do not count. *)
Inductive Component := RootDir | CurDir | ParentDir | Normal (name : string).
#[export] Instance Component_eq_dec : EqDecision Component.
Proof. solve_decision. Defined.

Definition component_of (first : bool) (part : string) : list Component :=
  if decide (part = "") then []
  else if decide (part = ".") then (if first then [CurDir] else [])
  else if decide (part = "..") then [ParentDir] else [Normal part].

Definition components (path : string) : list Component :=
  match split_on "/" path with
  | "" :: (_ :: _) as parts => RootDir :: concat (map (component_of false) parts)
  | part :: parts => component_of true part ++ concat (map (component_of false) parts)
  | [] => []
  end.

Definition is_under_crates_dir (manifest_path workspace_root : string) : bool :=
  bool_decide (components workspace_root ++ [Normal "crates"] `prefix_of` components manifest_path).

(** A name an id stands for; [id_to_name[id]] panics on an unknown id, which is [None]. *)
Definition id_to_name (raw : RawMetadata) (id : string) : option string :=
  list_to_map (M:=gmap string string) (rev (map (λ p, (pkg_id p, pkg_name p)) (packages raw))) !! id.

Definition crate_ids (raw : RawMetadata) : list string :=
  map pkg_id (filter (λ p, pkg_id p ∈ workspace_members raw ∧
                       is_under_crates_dir (manifest_path p) (workspace_root raw) = true) (packages raw)).

Definition is_normal_or_build (dep : RawDep) : bool :=
  existsb (λ k, bool_decide (k = None) || bool_decide (k = Some "build")) (dep_kinds dep).

Definition push_dep (from to : string) (g : Graph) : Graph := <[from := default [] (g !! from) ++ [to]]> g.

Section workspace.
Context (raw : RawMetadata).

Fixpoint add_deps (from : string) (deps : list RawDep) (g : Graph) : option Graph :=
  match deps with
  | [] => Some g
  | dep :: deps =>
      if decide (dep_pkg dep ∈ crate_ids raw) then
        if is_normal_or_build dep then
          to ← id_to_name raw (dep_pkg dep); add_deps from deps (push_dep from to g)
        else add_deps from deps g
      else add_deps from deps g
  end.

Fixpoint add_nodes (ns : list RawNode) (g : Graph) : option Graph :=
  match ns with
  | [] => Some g
  | node :: ns =>
      if decide (node_id node ∈ crate_ids raw) then
        from ← id_to_name raw (node_id node);
        g ← add_deps from (node_deps node) g; add_nodes ns g
      else add_nodes ns g
  end.

Definition build_workspace : option Workspace :=
  names ← mapM (id_to_name raw) (crate_ids raw);
  graph ← add_nodes (resolve_nodes raw) (list_to_map (rev (map (λ n, (n, [])) names)));
  Some (mk_workspace graph (merge_sort String.le names)).
End workspace.

(** ** The commands *)
(** [None]: the check panics. *)
Definition layer_violations (w : Workspace) (layer_map : LayerMap) : option (list Violation) :=
  cycles ← Cycles.find_cycles (ws_graph w);
  Some (check_completeness (ws_crates w) layer_map ++ check_direction (ws_graph w) layer_map ++ map Cycle cycles).

(** [verify_layers]: the outcome and the lines printed. *)
Definition verify_layers (raw : RawMetadata) (layer_map : LayerMap) : option (bool * list string) :=
  w ← build_workspace raw;
  violations ← layer_violations w layer_map;
  Some (match violations with
        | [] => (true, ["verify-layers: OK (" +:+ pretty (length (ws_crates w)) +:+ " crates, 0 violations)"])
        | _ => (false, ("verify-layers: FAIL (" +:+ pretty (length violations) +:+ " violation(s))")
                         :: map (λ v, "  - " +:+ Violation_fmt v) violations)
        end).

(** [isolation::verify_isolation], against whether cargo can be run and what it answers. *)
Fixpoint isolation_failures (check : string → result string bool) (crates : list string) : result string (list string) :=
  match crates with
  | [] => Ok []
  | name :: crates =>
      success ← map_err (λ e, "running cargo check -p " +:+ name +:+ ": " +:+ e) (check name);
      failures ← isolation_failures check crates;
      Ok (if (success : bool) then failures else name :: failures)
  end.
Definition verify_isolation (check : string → result string bool) (crates : list string) : result string (list string) :=
  match crates with
  | [] => Err "verify-isolation: crate list is empty, refusing a vacuous pass"
  | _ => isolation_failures check crates
  end.

(** [hygiene::check_hygiene], of the directories listed; [str::to_lowercase] is given. *)
Definition is_digit (c : ascii) : bool :=
  bool_decide (48 ≤ Ascii.nat_of_ascii c) && bool_decide (Ascii.nat_of_ascii c ≤ 57).

(** The shape of a date: digits at the [true] positions, hyphens at the others. *)
Definition date_shape : list bool :=
  [true; true; true; true; false; true; true; false; true; true; false].
Fixpoint strip_shape (shape : list bool) (s : string) : option string :=
  match shape, s with
  | [], _ => Some s
  | _ :: _, "" => None
  | d :: shape, String c s =>
      if (if (d : bool) then is_digit c else bool_decide (c = "-"%char)) then strip_shape shape s else None
  end.
Definition strip_date_prefix (name : string) : string :=
  if decide (11 < String.length name) then default name (strip_shape date_shape name) else name.

Definition check_hygiene (to_lowercase : string → string) (archived changes : list string) : list string :=
  let archived_suffixes := map (λ n, to_lowercase (strip_date_prefix n)) archived in
  merge_sort String.le
    (filter (λ name, name ≠ "archive" ∧ to_lowercase name ∈ archived_suffixes) changes).

(** ** The workspace is read faithfully *)
Section workspace_exact.
Context (raw : RawMetadata).

Lemma id_to_name_Some id : id ∈ crate_ids raw → is_Some (id_to_name raw id).
Proof.
  unfold crate_ids, id_to_name. intros (p & -> & [_ Hp]%list_elem_of_filter)%list_elem_of_fmap.
  apply elem_of_dom. rewrite dom_list_to_map. apply elem_of_list_to_set.
  rewrite list_elem_of_fmap. exists (pkg_id p, pkg_name p). split; [done|].
  rewrite list_elem_of_In, <-in_rev, <-list_elem_of_In. apply list_elem_of_fmap. by exists p.
Qed.

(** The dependencies of a node that count. *)
Definition dep_edge (deps : list RawDep) (to : string) : Prop :=
  ∃ dep, dep ∈ deps ∧ dep_pkg dep ∈ crate_ids raw ∧ is_normal_or_build dep = true ∧
    id_to_name raw (dep_pkg dep) = Some to.
Definition node_edge (ns : list RawNode) (from to : string) : Prop :=
  ∃ node, node ∈ ns ∧ node_id node ∈ crate_ids raw ∧ id_to_name raw (node_id node) = Some from ∧
    dep_edge (node_deps node) to.

Lemma edge_push_dep from to g a b :
  Cycles.edge (push_dep from to g) a b ↔ Cycles.edge g a b ∨ a = from ∧ b = to.
Proof.
  unfold Cycles.edge, Cycles.deps_of, push_dep. destruct (decide (a = from)) as [->|Hne].
  - rewrite lookup_insert_eq. cbn. rewrite elem_of_app, list_elem_of_singleton. naive_solver.
  - rewrite lookup_insert_ne by done. naive_solver.
Qed.

Lemma dep_edge_cons dep deps to :
  dep_edge (dep :: deps) to ↔
  dep_pkg dep ∈ crate_ids raw ∧ is_normal_or_build dep = true ∧ id_to_name raw (dep_pkg dep) = Some to ∨
  dep_edge deps to.
Proof. unfold dep_edge. setoid_rewrite elem_of_cons. naive_solver. Qed.

Lemma add_deps_exact from deps g :
  ∃ g', add_deps raw from deps g = Some g' ∧
    ∀ a b, Cycles.edge g' a b ↔ Cycles.edge g a b ∨ a = from ∧ dep_edge deps b.
Proof.
  revert g. induction deps as [|dep deps IH]; intros g; cbn [add_deps].
  { exists g. split; [done|]. unfold dep_edge. setoid_rewrite elem_of_nil. naive_solver. }
  case_decide as Hin; [|].
  - destruct (is_normal_or_build dep) eqn:Hk.
    + destruct (id_to_name_Some _ Hin) as [to Hto]. rewrite Hto. cbn [mbind option_bind].
      destruct (IH (push_dep from to g)) as (g' & -> & Hg). exists g'. split; [done|]. intros a b.
      rewrite Hg, edge_push_dep, dep_edge_cons. clear IH Hg. intuition congruence.
    + destruct (IH g) as (g' & -> & Hg). exists g'. split; [done|]. intros a b.
      rewrite Hg, dep_edge_cons. clear IH Hg. intuition congruence.
  - destruct (IH g) as (g' & -> & Hg). exists g'. split; [done|]. intros a b.
    rewrite Hg, dep_edge_cons. clear IH Hg. intuition congruence.
Qed.

Lemma node_edge_cons node ns a b :
  node_edge (node :: ns) a b ↔
  node_id node ∈ crate_ids raw ∧ id_to_name raw (node_id node) = Some a ∧ dep_edge (node_deps node) b ∨
  node_edge ns a b.
Proof. unfold node_edge. setoid_rewrite elem_of_cons. naive_solver. Qed.

Lemma add_nodes_exact ns g :
  ∃ g', add_nodes raw ns g = Some g' ∧ ∀ a b, Cycles.edge g' a b ↔ Cycles.edge g a b ∨ node_edge ns a b.
Proof.
  revert g. induction ns as [|node ns IH]; intros g; cbn [add_nodes].
  { exists g. split; [done|]. unfold node_edge. setoid_rewrite elem_of_nil. naive_solver. }
  case_decide as Hin.
  - destruct (id_to_name_Some _ Hin) as [from Hfrom]. rewrite Hfrom. cbn [mbind option_bind].
    destruct (add_deps_exact from (node_deps node) g) as (g1 & -> & Hg1). cbn [mbind option_bind].
    destruct (IH g1) as (g' & -> & Hg). exists g'. split; [done|]. intros a b.
    rewrite Hg, Hg1, node_edge_cons. clear IH Hg. intuition congruence.
  - destruct (IH g) as (g' & -> & Hg). exists g'. split; [done|]. intros a b.
    rewrite Hg, node_edge_cons. clear IH Hg. intuition congruence.
Qed.

Lemma edge_list_to_map_empty (names : list string) a b :
  ¬ Cycles.edge (list_to_map (rev (map (λ n, (n, [])) names))) a b.
Proof.
  unfold Cycles.edge, Cycles.deps_of. destruct (_ !! a) as [d|] eqn:Hd; cbn; [|by apply not_elem_of_nil].
  apply elem_of_list_to_map_2 in Hd. rewrite list_elem_of_In, <-in_rev, <-list_elem_of_In in Hd.
  apply list_elem_of_fmap in Hd as (n & [= -> ->] & _). apply not_elem_of_nil.
Qed.

Lemma build_workspace_exact : ∃ w, build_workspace raw = Some w ∧
  (∀ c, c ∈ ws_crates w ↔ ∃ id, id ∈ crate_ids raw ∧ id_to_name raw id = Some c) ∧
  ∀ a b, Cycles.edge (ws_graph w) a b ↔ node_edge (resolve_nodes raw) a b.
Proof.
  unfold build_workspace. assert (is_Some (mapM (id_to_name raw) (crate_ids raw))) as [names Hn].
  { apply mapM_is_Some, Forall_forall. intros id. apply id_to_name_Some. }
  rewrite Hn. cbn [mbind option_bind].
  destruct (add_nodes_exact (resolve_nodes raw) (list_to_map (rev (map (λ n, (n, [])) names)))) as (g & -> & Hg).
  cbn [mbind option_bind]. eexists. split; [done|]. cbn [ws_crates ws_graph]. split.
  - intros c. rewrite merge_sort_Permutation. apply mapM_Some in Hn. split.
    + intros Hc. apply list_elem_of_lookup in Hc as [i Hi]. destruct (Forall2_lookup_r _ _ _ _ _ Hn Hi) as (id & Hid & Heq).
      exists id. split; [by eapply list_elem_of_lookup_2|done].
    + intros (id & Hid & Heq). apply list_elem_of_lookup in Hid as [i Hi].
      destruct (Forall2_lookup_l _ _ _ _ _ Hn Hi) as (c' & Hc' & Heq'). assert (c' = c) as -> by congruence.
      by eapply list_elem_of_lookup_2.
  - intros a b. rewrite Hg. pose proof (edge_list_to_map_empty names a b). tauto.
Qed.
End workspace_exact.

(** ** The gate *)
(** What [layers.toml] and the graph promise when the gate passes. *)
Definition permitted (from_layer to_layer : string) : Prop :=
  match allowed_layers from_layer with None => True | Some allowed => to_layer ∈ allowed end.

Record layered (w : Workspace) (layers : LayerMap) : Prop := mk_layered {
  all_mapped : ∀ c, c ∈ ws_crates w → is_Some (layers !! c);
  all_alive : ∀ c l, layers !! c = Some l → c ∈ ws_crates w ∧ l ∈ KNOWN_LAYERS;
  all_directed : ∀ a b la lb, Cycles.edge (ws_graph w) a b → layers !! a = Some la → layers !! b = Some lb →
    permitted la lb;
  all_acyclic : ∀ a b, Cycles.mutual (ws_graph w) a b → a = b;
}.

Lemma concat_map_nil {A B} (f : A → list B) l : concat (map f l) = [] ↔ ∀ x, x ∈ l → f x = [].
Proof.
  induction l as [|a l IH]; cbn; [split; [by intros _ x ?%not_elem_of_nil|done]|].
  split.
  - intros [Ha Hl]%app_eq_nil x [->|Hx]%elem_of_cons; [done|]. by apply IH.
  - intros Hall. rewrite (Hall a) by (by left). apply IH. intros x Hx. apply Hall. by right.
Qed.

Lemma elem_of_btree_iter {V} (m : gmap string V) k x : (k, x) ∈ btree_iter m ↔ m !! k = Some x.
Proof. unfold btree_iter. by rewrite merge_sort_Permutation, elem_of_map_to_list. Qed.

Lemma check_edge_nil layers from la to :
  check_edge layers from la to = [] ↔ ∀ lb, layers !! to = Some lb → permitted la lb.
Proof.
  unfold check_edge, permitted. destruct (layers !! to) as [lb|]; [|naive_solver].
  destruct (allowed_layers la); [case_decide|]; naive_solver.
Qed.

Lemma check_direction_nil graph layers :
  check_direction graph layers = [] ↔
  ∀ a b la lb, Cycles.edge graph a b → layers !! a = Some la → layers !! b = Some lb → permitted la lb.
Proof.
  unfold check_direction. rewrite concat_map_nil. unfold Cycles.edge, Cycles.deps_of. split.
  - intros Hall a b la lb. destruct (graph !! a) as [deps|] eqn:Hd; cbn; [|by intros ?%not_elem_of_nil].
    intros Hb Ha Hlb. apply elem_of_btree_iter, Hall in Hd. rewrite Ha in Hd.
    rewrite concat_map_nil in Hd. by apply (check_edge_nil layers a la b); [apply Hd|].
  - intros Hall [a deps] Hin%elem_of_btree_iter. destruct (layers !! a) as [la|] eqn:Ha; [|done].
    apply concat_map_nil. intros b Hb. apply check_edge_nil. intros lb Hlb.
    apply (Hall a b la lb); [by rewrite Hin|done..].
Qed.

Lemma check_completeness_nil crates layers :
  check_completeness crates layers = [] ↔
  (∀ c, c ∈ crates → is_Some (layers !! c)) ∧
  ∀ c l, layers !! c = Some l → c ∈ crates ∧ l ∈ KNOWN_LAYERS.
Proof.
  unfold check_completeness. split.
  - intros [Hm Hc]%app_eq_nil. apply map_eq_nil in Hm. rewrite concat_map_nil in Hc. split.
    + intros c Hin. destruct (layers !! c) eqn:Hl; [by eexists|]. exfalso.
      apply (not_elem_of_nil c). rewrite <-Hm. by apply list_elem_of_filter.
    + intros c l Hl%elem_of_btree_iter%Hc. apply app_eq_nil in Hl as [H1 H2]. by repeat case_decide.
  - intros [Hm Hc]. replace (filter (λ c, layers !! c = None) crates) with ([] : list string).
    + cbn. apply concat_map_nil. intros [c l] [? ?]%elem_of_btree_iter%Hc. by rewrite !decide_True.
    + symmetry. apply elem_of_nil_inv. intros c [Hn Hin]%list_elem_of_filter. destruct (Hm c Hin). congruence.
Qed.

Lemma find_cycles_nil graph cycles :
  Cycles.find_cycles graph = Some cycles → cycles = [] ↔ ∀ a b, Cycles.mutual graph a b → a = b.
Proof.
  destruct (Cycles.find_cycles_spec graph) as (cycles' & Heq & _ & _ & Hsound & Hcomplete).
  rewrite Heq. intros [= <-]. split.
  - intros -> a b Hab. destruct (decide (a = b)) as [|Hne]; [done|].
    destruct (Hcomplete a b Hab Hne) as (c & Hc & _). by apply not_elem_of_nil in Hc.
  - intros Hall. apply elem_of_nil_inv. intros c (Hlen & _ & Hnd & v & Hv & Hz)%Hsound.
    destruct c as [|a [|b c]]; cbn in Hlen; [lia..|]. apply NoDup_cons in Hnd as [Hnd _].
    assert (v = a) as <- by (apply Hall, Hz; by left).
    assert (v = b) as <- by (apply Hall, Hz; right; by left). apply Hnd. by left.
Qed.

(** The layering gate is exact.  It always reaches a verdict; the crates it judges are the
    workspace members under crates/, the dependencies the normal and build ones between
    them; and it passes exactly if every crate has a known layer, every entry of the layer map
    names a crate, every dependency points to a layer the matrix allows and no two crates
    depend on each other, directly or not.  A failing verdict lists a violation per line. *)
Lemma gate_exact (raw : RawMetadata) (layers : LayerMap) :
  ∃ w passed lines, verify_layers raw layers = Some (passed, lines) ∧
    (∀ c, c ∈ ws_crates w ↔ ∃ id, id ∈ crate_ids raw ∧ id_to_name raw id = Some c) ∧
    (∀ a b, Cycles.edge (ws_graph w) a b ↔ node_edge raw (resolve_nodes raw) a b) ∧
    (passed = true ↔ layered w layers) ∧ (passed = false → 1 < length lines).
Proof.
  destruct (build_workspace_exact raw) as (w & Hw & Hcrates & Hedges).
  destruct (Cycles.find_cycles_spec (ws_graph w)) as (cycles & Hcy & _).
  pose proof (find_cycles_nil _ _ Hcy) as Hnil.
  pose proof (check_completeness_nil (ws_crates w) layers) as Hcomp.
  pose proof (check_direction_nil (ws_graph w) layers) as Hdir.
  unfold verify_layers, layer_violations. rewrite Hw. cbn [mbind option_bind]. rewrite Hcy. cbn [mbind option_bind].
  exists w. destruct (check_completeness _ _ ++ _) as [|v vs] eqn:Hvs; eexists _, _; (split; [done|]); split_and!; try done.
  - split; [|done]. intros _. apply app_eq_nil in Hvs as [H1 [H2 H3]%app_eq_nil]. apply map_eq_nil in H3.
    apply Hcomp in H1 as [? ?]. by split; [..|apply Hdir|apply Hnil].
  - split; [done|]. intros [H1 H2 H3 H4]. exfalso. rewrite (proj2 Hcomp), (proj2 Hdir), (proj2 Hnil) in Hvs; done.
  - intros _. cbn. lia.
Qed.

(** Examples *)
Module Example_gate.
Definition package (name : string) : RawPackage :=
  mk_package (name +:+ " 0.1.0") name ("/ws/crates/" +:+ name +:+ "/Cargo.toml").
Definition raw : RawMetadata :=
  mk_metadata [package "a"; package "b"; mk_package "app 0.1.0" "app" "/ws/examples/app/Cargo.toml"]
    ["a 0.1.0"; "b 0.1.0"; "app 0.1.0"] "/ws"
    [mk_node "a 0.1.0" [mk_dep "b 0.1.0" [None]];
     mk_node "b 0.1.0" [mk_dep "a 0.1.0" [Some "dev"]]; mk_node "app 0.1.0" [mk_dep "a 0.1.0" [None]]].

(** The development edge from [b] back to [a] does not count; the example is no crate. *)
Example accepts : verify_layers raw {["a" := "infrastructure"; "b" := "domain"]} =
  Some (true, ["verify-layers: OK (2 crates, 0 violations)"]).
Proof. by vm_compute. Qed.
Example rejects : fst <$> verify_layers raw {["a" := "domain"; "b" := "infrastructure"]} = Some false.
Proof. by vm_compute. Qed.

(** A crate of the domain layer may depend on another one. *)
Example domain_on_domain : fst <$> verify_layers raw {["a" := "domain"; "b" := "domain"]} = Some true.
Proof. by vm_compute. Qed.

Example dates : strip_date_prefix "2026-07-15-core-019" = "core-019" ∧ strip_date_prefix "2026-7-15-x" = "2026-7-15-x"
  ∧ strip_date_prefix "2026-07-15-" = "2026-07-15-".
Proof. by vm_compute. Qed.
End Example_gate.
