(* ===== verification/Backfill.v ===== *)
(** * Backfill of the aggregate type column

    crates/persistence, postgres/aggregate_type_backfill.rs and bin/backfill_aggregate_type.rs:
    the offline tool that splits the joined identifiers of stored events, `type-id`, into a
    type and an id, and its inverse; and postgres/migrations.rs.

    The events table is a list of rows in the order of their primary key, with the column
    `aggregate_type` absent, nullable or mandatory.  A transaction keeps its updates to
    itself until it commits, the schema changes included; a failed statement ends it.  What
    other writers commit before statement [n] is [peers n], whether the statement fails is
    [fails n], and a commit that reports a failure may have landed or not.  The order in
    which a [HashMap] is drained is [drain]. *)

From S2P Require Import Prelude Drivers.

(** ** Splitting an identifier *)
Inductive SplitOutcome :=
| NoMatch
| Ambiguous
| Split (aggregate_type aggregate_id : string).

Definition hyphen : ascii := "-".

Definition type_matches (raw candidate : string) : bool :=
  bool_decide (String.length candidate < String.length raw)
  && bool_decide (String.get (String.length candidate) raw = Some hyphen)
  && String.prefix candidate raw.

(** [raw[n..]] *)
Definition slice_from (n : nat) (raw : string) : string := String.substring n (String.length raw - n) raw.

Definition split_aggregate_id (raw : string) (registered_types : list string) : SplitOutcome :=
  match filter (λ t, type_matches raw t = true) registered_types with
  | [] => NoMatch
  | [matched] => Split matched (slice_from (String.length matched + 1) raw)
  | _ => Ambiguous
  end.

(** ** Reports *)
Inductive AbortReason :=
| NoRegisteredTypeMatches
| MatchesMoreThanOneRegisteredType
| AggregateIdIsEmptyOrWhitespace
| PostSplitIdentityWouldCollide
| RowCountChanged (scanned found : Z)
| PostSplitIdentityIsNotUnique
| StreamVersionsAreNotConsecutiveFromOne.

Record AbortReport := mk_abort { reason : AbortReason; offending_row_ids : list Z }.

Inductive BackfillOutcome :=
| Committed
| Aborted (r : AbortReport)
| RolledBack (r : AbortReport).

Record BackfillReport := mk_report { rows_scanned : Z; rows_rewritten : Z; outcome : BackfillOutcome }.

(** [Display] of [BackfillError] *)
Definition BackfillError_fmt (e : SqlxError) : string := "aggregate_type backfill failed: " +:+ sqlx_text e.

(** ** The events table and a transaction on it *)
Record EventRow := mk_row {
  row_id : Z; row_tenant : option string; row_type : option string; row_aggregate : string; row_version : Z }.
Abbreviation Identity := (option string * string * string * Z)%type.

Inductive Column := Absent | Nullable | Mandatory.
Record Db := mk_db { db_rows : list EventRow; db_column : Column }.

(** The committed table, the updates of the transaction and its schema, and the number of the
    next statement. *)
Record Session := mk_session {
  se_next : nat; se_db : Db; se_writes : gmap Z (option string * string); se_column : Column }.

Definition open_session (db : Db) : Session := mk_session 0 db ∅ (db_column db).

Definition written (w : gmap Z (option string * string)) (r : EventRow) : EventRow :=
  match w !! row_id r with
  | Some (t, a) => mk_row (row_id r) (row_tenant r) t a (row_version r)
  | None => r
  end.
Definition visible (s : Session) : list EventRow := map (written (se_writes s)) (db_rows (se_db s)).

Section tool.
Context (peers : nat → list EventRow → list EventRow) (fails : nat → option SqlxError) (lands : bool).
Context (drain : gmap (option string * string * string * Z) (list Z) → list (list Z)).

Abbreviation tx A := (Session → result SqlxError A * Session).
Definition tx_ret {A} (a : A) : tx A := λ s, (Ok a, s).
Definition tx_bind {A B} (p : tx A) (k : A → tx B) : tx B := λ s,
  match p s with (Ok a, s) => k a s | (Err e, s) => (Err e, s) end.
Notation "'do' x := p 'in' q" := (tx_bind p (λ x, q)) (at level 10, x name, p at level 100, q at level 200).

(** A statement sees what the others have committed by then. *)
Definition advance (s : Session) : Session :=
  mk_session (S (se_next s)) (mk_db (peers (se_next s) (db_rows (se_db s))) (db_column (se_db s)))
    (se_writes s) (se_column s).
Definition statement {A} (f : Session → result SqlxError A * Session) : tx A := λ s,
  match fails (se_next s) with Some e => (Err e, advance s) | None => f (advance s) end.

Definition begin : tx unit := statement (λ s, (Ok (), s)).
Definition select_rows : tx (list EventRow) := statement (λ s, (Ok (visible s), s)).
Definition set_write (id : Z) (w : option string * string) (s : Session) : Session :=
  mk_session (se_next s) (se_db s)
    (if decide (id ∈ map row_id (db_rows (se_db s))) then <[id := w]> (se_writes s) else se_writes s) (se_column s).
Definition update_row (id : Z) (aggregate_type aggregate_id : string) : tx unit :=
  statement (λ s, (Ok (), set_write id (Some aggregate_type, aggregate_id) s)).
Definition set_column (c : Column) (s : Session) : Session := mk_session (se_next s) (se_db s) (se_writes s) c.
Definition drop_not_null : tx unit := statement (λ s, (Ok (), set_column Nullable s)).
Definition drop_column : tx unit := statement (λ s, (Ok (), set_column Absent s)).
(** SQLSTATE 23502: the column has nulls. *)
Definition set_not_null : tx unit := statement (λ s,
  if forallb (λ r, bool_decide (row_type r ≠ None)) (visible s) then (Ok (), set_column Mandatory s)
  else (Err (SqlxDatabase (Some "23502") "column contains null values"), s)).

(** What a commit makes of the table. *)
Definition consolidated (s : Session) : Db :=
  mk_db (match se_column s with
         | Absent => map (λ r, mk_row (row_id r) (row_tenant r) None (row_aggregate r) (row_version r)) (visible s)
         | _ => visible s
         end) (se_column s).
Definition end_with (db : Db) (s : Session) : Session := mk_session (se_next s) db ∅ (db_column db).
Definition commit : tx unit := λ s,
  match fails (se_next s) with
  | Some e => (Err e, if lands then end_with (consolidated (advance s)) s else end_with (se_db (advance s)) s)
  | None => (Ok (), end_with (consolidated (advance s)) s)
  end.
Definition rollback : tx unit := statement (λ s, (Ok (), end_with (se_db s) s)).
(** A transaction that is dropped is rolled back. *)
Definition dropped (s : Session) : Session := end_with (se_db s) s.

(** ** The checks *)
Record Split_ := mk_split { sp_row : EventRow; sp_type : string; sp_id : string }.
Record Classified := mk_classified {
  cl_no_match : list Z; cl_ambiguous : list Z; cl_empty : list Z; cl_splits : list Split_ }.

Fixpoint classify (registered_types : list string) (rows : list EventRow) : Classified :=
  match rows with
  | [] => mk_classified [] [] [] []
  | row :: rows =>
      let c := classify registered_types rows in
      match split_aggregate_id (row_aggregate row) registered_types with
      | NoMatch => mk_classified (row_id row :: cl_no_match c) (cl_ambiguous c) (cl_empty c) (cl_splits c)
      | Ambiguous => mk_classified (cl_no_match c) (row_id row :: cl_ambiguous c) (cl_empty c) (cl_splits c)
      | Split t a =>
          if is_blank a
          then mk_classified (cl_no_match c) (cl_ambiguous c) (row_id row :: cl_empty c) (cl_splits c)
          else mk_classified (cl_no_match c) (cl_ambiguous c) (cl_empty c) (mk_split row t a :: cl_splits c)
      end
  end.

Definition split_identity (s : Split_) : Identity :=
  (row_tenant (sp_row s), sp_type s, sp_id s, row_version (sp_row s)).
Definition seen (splits : list Split_) : gmap Identity (list Z) :=
  foldl (λ m s, <[split_identity s := default [] (m !! split_identity s) ++ [row_id (sp_row s)]]> m) ∅ splits.
Definition colliding (splits : list Split_) : list Z :=
  concat (filter (λ ids, 1 < length ids) (drain (seen splits))).

(** GROUP BY treats nulls as equal, and so do the joins. *)
Definition row_identity (r : EventRow) : option string * option string * string * Z :=
  (row_tenant r, row_type r, row_aggregate r, row_version r).
Definition row_stream (r : EventRow) : option string * option string * string :=
  (row_tenant r, row_type r, row_aggregate r).
Definition duplicates (rows : list EventRow) : list Z :=
  map row_id (filter (λ e, 1 < length (filter (λ r, row_identity r = row_identity e) rows)) rows).
Definition stream_versions (rows : list EventRow) (e : EventRow) : list Z :=
  map row_version (filter (λ r, row_stream r = row_stream e) rows).
Definition min_version (vs : list Z) : Z := match vs with [] => 0 | v :: vs => foldr Z.min v vs end.
Definition max_version (vs : list Z) : Z := match vs with [] => 0 | v :: vs => foldr Z.max v vs end.
Definition broken (vs : list Z) : Prop := min_version vs ≠ 1%Z ∨ max_version vs ≠ Z.of_nat (length vs).
#[export] Instance broken_dec vs : Decision (broken vs).
Proof. unfold broken. apply _. Defined.
Definition discontinuous (rows : list EventRow) : list Z :=
  map row_id (filter (λ e, broken (stream_versions rows e)) rows).

(** ** The tool *)
Fixpoint rewrite_rows (splits : list Split_) : tx unit :=
  match splits with
  | [] => tx_ret ()
  | s :: splits => do _ := update_row (row_id (sp_row s)) (sp_type s) (sp_id s) in rewrite_rows splits
  end.

Definition abort (scanned : Z) (r : AbortReason) (ids : list Z) : tx BackfillReport := λ s,
  (Ok (mk_report scanned 0 (Aborted (mk_abort r ids))), dropped s).
Definition roll_back (scanned : Z) (r : AbortReason) (ids : list Z) : tx BackfillReport :=
  do _ := rollback in tx_ret (mk_report scanned 0 (RolledBack (mk_abort r ids))).

Definition verify_and_commit (scanned rewritten : Z) : tx BackfillReport :=
  do rows := select_rows in
  let found := Z.of_nat (length rows) in
  if decide (found = scanned) then
    do rows := select_rows in
    match duplicates rows with
    | _ :: _ => roll_back scanned PostSplitIdentityIsNotUnique (duplicates rows)
    | [] =>
        do rows := select_rows in
        match discontinuous rows with
        | _ :: _ => roll_back scanned StreamVersionsAreNotConsecutiveFromOne (discontinuous rows)
        | [] =>
            do _ := set_not_null in
            do _ := commit in
            tx_ret (mk_report scanned rewritten Committed)
        end
    end
  else roll_back scanned (RowCountChanged scanned found) [].

Definition backfill_body (registered_types : list string) : tx BackfillReport :=
  do _ := begin in
  do rows := select_rows in
  let scanned := Z.of_nat (length rows) in
  let c := classify registered_types rows in
  match cl_no_match c, cl_ambiguous c, cl_empty c, colliding (cl_splits c) with
  | _ :: _, _, _, _ => abort scanned NoRegisteredTypeMatches (cl_no_match c)
  | [], _ :: _, _, _ => abort scanned MatchesMoreThanOneRegisteredType (cl_ambiguous c)
  | [], [], _ :: _, _ => abort scanned AggregateIdIsEmptyOrWhitespace (cl_empty c)
  | [], [], [], _ :: _ => abort scanned PostSplitIdentityWouldCollide (colliding (cl_splits c))
  | [], [], [], [] =>
      do _ := rewrite_rows (cl_splits c) in
      verify_and_commit scanned (Z.of_nat (length (cl_splits c)))
  end.

(** A call and the table it leaves. *)
Definition run_tx {A} (p : tx A) (db : Db) : result SqlxError A * Db :=
  let '(r, s) := p (open_session db) in (r, se_db s).
Definition backfill_aggregate_type (registered_types : list string) (db : Db) :
    result SqlxError BackfillReport * Db := run_tx (backfill_body registered_types) db.

(** UPDATE ... SET aggregate_id = aggregate_type || '-' || aggregate_id *)
Definition rejoin : tx unit := statement (λ s,
  (Ok (), foldl (λ s r, match row_type r with
                        | Some t => set_write (row_id r) (Some t, t +:+ "-" +:+ row_aggregate r) s
                        | None => s
                        end) s (visible s))).
Definition revert_body : tx unit :=
  do _ := begin in do _ := drop_not_null in do _ := rejoin in do _ := drop_column in commit.
Definition revert_aggregate_type_column (db : Db) : result SqlxError unit * Db := run_tx revert_body db.
End tool.

(** ** Properties *)
(** *** Identifiers *)
Lemma substring_all s : String.substring 0 (String.length s) s = s.
Proof. induction s as [|c s IH]; cbn; [done|]. by rewrite IH. Qed.

Lemma type_matches_iff raw t : type_matches raw t = true ↔ ∃ a, raw = t +:+ "-" +:+ a.
Proof.
  unfold type_matches. rewrite !andb_true_iff, !bool_decide_eq_true. split.
  - intros [[_ Hg] Hp]. revert raw Hg Hp. induction t as [|c t IH]; intros [|d raw] Hg Hp; try done.
    + cbn in Hg. injection Hg as ->. by exists raw.
    + cbn in Hp. destruct (ascii_dec c d) as [->|]; [|done]. destruct (IH raw Hg Hp) as [a ->]. by exists a.
  - intros [a ->]. split; [split|].
    + induction t as [|c t IH]; unfold String.append in *; cbn in *; lia.
    + by induction t as [|c t IH].
    + induction t as [|c t IH]; [by destruct a|]. unfold String.append in *. cbn. by destruct (ascii_dec c c).
Qed.

Lemma slice_after t a : slice_from (String.length t + 1) (t +:+ "-" +:+ a) = a.
Proof.
  unfold slice_from, String.append. induction t as [|c t IH]; cbn.
  - rewrite Nat.sub_0_r. apply substring_all.
  - exact IH.
Qed.

(** The split is the one way to read the identifier. *)
Lemma split_Split raw types t a :
  split_aggregate_id raw types = Split t a → raw = t +:+ "-" +:+ a ∧ t ∈ types.
Proof.
  unfold split_aggregate_id. destruct (filter _ types) as [|t0 [|]] eqn:Hf; try done. intros [= -> <-].
  assert (t ∈ filter (λ t, type_matches raw t = true) types) as [Hm Hin]%list_elem_of_filter
    by (rewrite Hf; by left).
  apply type_matches_iff in Hm as [a ->]. by rewrite slice_after.
Qed.

(** *** Consecutive versions *)
Lemma foldr_min_le v vs x : x ∈ v :: vs → (foldr Z.min v vs ≤ x)%Z.
Proof.
  revert x. induction vs as [|w vs IH]; intros x Hx; cbn.
  - apply list_elem_of_singleton in Hx as ->. lia.
  - rewrite !elem_of_cons in *. destruct Hx as [->|[->|Hx]]; [|lia|].
    + specialize (IH v). rewrite elem_of_cons in IH. specialize (IH (or_introl eq_refl)). lia.
    + specialize (IH x). rewrite elem_of_cons in IH. specialize (IH (or_intror Hx)). lia.
Qed.
Lemma foldr_max_ge v vs x : x ∈ v :: vs → (x ≤ foldr Z.max v vs)%Z.
Proof.
  revert x. induction vs as [|w vs IH]; intros x Hx; cbn.
  - apply list_elem_of_singleton in Hx as ->. lia.
  - rewrite !elem_of_cons in *. destruct Hx as [->|[->|Hx]]; [|lia|].
    + specialize (IH v). rewrite elem_of_cons in IH. specialize (IH (or_introl eq_refl)). lia.
    + specialize (IH x). rewrite elem_of_cons in IH. specialize (IH (or_intror Hx)). lia.
Qed.

(** Distinct versions with minimum 1 and their number as the maximum are the run 1..n. *)
Lemma consecutive_of_bounds vs :
  NoDup vs → min_version vs = 1%Z → max_version vs = Z.of_nat (length vs) → vs ≡ₚ seqZ 1 (Z.of_nat (length vs)).
Proof.
  intros Hnd Hmin Hmax. apply submseteq_length_Permutation.
  - apply NoDup_submseteq; [done|]. intros x Hx. apply elem_of_seqZ. destruct vs as [|v vs]; [done|].
    cbn [min_version max_version] in *. pose proof (foldr_min_le v vs x Hx). pose proof (foldr_max_ge v vs x Hx). lia.
  - rewrite length_seqZ. lia.
Qed.

Lemma foldr_min_in v vs : foldr Z.min v vs ∈ v :: vs.
Proof.
  induction vs as [|w vs IH]; cbn; [by left|]. destruct (Z.min_spec w (foldr Z.min v vs)) as [[_ ->]|[_ ->]];
    rewrite !elem_of_cons in *; tauto.
Qed.
Lemma foldr_max_in v vs : foldr Z.max v vs ∈ v :: vs.
Proof.
  induction vs as [|w vs IH]; cbn; [by left|]. destruct (Z.max_spec w (foldr Z.max v vs)) as [[_ ->]|[_ ->]];
    rewrite !elem_of_cons in *; tauto.
Qed.

Lemma bounds_of_consecutive vs :
  vs ≠ [] → vs ≡ₚ seqZ 1 (Z.of_nat (length vs)) → ¬ broken vs.
Proof.
  intros Hne Hp. destruct vs as [|v vs]; [done|]. remember (length (v :: vs)) as n eqn:Hn.
  assert (0 < n) by (subst; cbn; lia).
  assert (∀ x, x ∈ v :: vs ↔ (1 ≤ x < 1 + Z.of_nat n)%Z) as Hx by (intros x; rewrite Hp; apply elem_of_seqZ).
  unfold broken. rewrite <-Hn. cbn [min_version max_version].
  pose proof (proj1 (Hx _) (foldr_min_in v vs)). pose proof (proj1 (Hx _) (foldr_max_in v vs)).
  pose proof (foldr_min_le v vs 1 (proj2 (Hx 1%Z) ltac:(lia))).
  pose proof (foldr_max_ge v vs (Z.of_nat n) (proj2 (Hx (Z.of_nat n)) ltac:(lia))). lia.
Qed.

(** *** With the old writers quiesced *)
Definition migrated (types : list string) (r : EventRow) : EventRow :=
  match split_aggregate_id (row_aggregate r) types with
  | Split t a => mk_row (row_id r) (row_tenant r) (Some t) a (row_version r)
  | _ => r
  end.
Definition splittable (types : list string) (r : EventRow) : Prop :=
  ∃ t a, split_aggregate_id (row_aggregate r) types = Split t a ∧ is_blank a = false.

(** No two rows are the same event, and every stream is the run of versions 1..n. *)
Definition streams_intact (rows : list EventRow) : Prop :=
  (∀ e, e ∈ rows → length (filter (λ r, row_identity r = row_identity e) rows) = 1) ∧
  ∀ e, e ∈ rows → stream_versions rows e ≡ₚ seqZ 1 (Z.of_nat (length (stream_versions rows e))).

Lemma classify_all types rows c :
  classify types rows = c → cl_no_match c = [] → cl_ambiguous c = [] → cl_empty c = [] →
  Forall2 (λ r s, sp_row s = r ∧ split_aggregate_id (row_aggregate r) types = Split (sp_type s) (sp_id s) ∧
    is_blank (sp_id s) = false) rows (cl_splits c).
Proof.
  intros <-. induction rows as [|r rows IH]; cbn [classify]; [by constructor|].
  destruct (split_aggregate_id _ _) as [| |t a] eqn:Hs; [done..|]. destruct (is_blank a) eqn:Hb; [done|].
  cbn. intros ? ? ?. constructor; [done|auto].
Qed.

Lemma classify_splittable types rows :
  Forall (splittable types) rows →
  let c := classify types rows in cl_no_match c = [] ∧ cl_ambiguous c = [] ∧ cl_empty c = [].
Proof.
  induction 1 as [|r rows (t & a & Hs & Hb) _ IH]; cbn; [done|]. rewrite Hs. cbn. rewrite Hb. exact IH.
Qed.

Lemma filter_self_positive (rows : list EventRow) e :
  e ∈ rows → 0 < length (filter (λ r, row_identity r = row_identity e) rows).
Proof.
  intros He. apply Nat.neq_0_lt_0. intros Hn%nil_length_inv.
  apply (not_elem_of_nil e). rewrite <-Hn. by apply list_elem_of_filter.
Qed.

Lemma duplicates_nil rows :
  duplicates rows = [] ↔ ∀ e, e ∈ rows → length (filter (λ r, row_identity r = row_identity e) rows) = 1.
Proof.
  unfold duplicates. split.
  - intros Hm%map_eq_nil e He. pose proof (filter_self_positive rows e He).
    destruct (decide (1 < length (filter (λ r, row_identity r = row_identity e) rows))) as [Hlt|]; [|lia].
    exfalso. apply (not_elem_of_nil e). rewrite <-Hm. by apply list_elem_of_filter.
  - intros Hall. replace (filter _ rows) with ([] : list EventRow); [done|]. symmetry.
    apply elem_of_nil_inv. intros e [Hlt He]%list_elem_of_filter. rewrite Hall in Hlt by done. lia.
Qed.

Lemma NoDup_of_count (l : list Z) : (∀ v, v ∈ l → length (filter (λ w, w = v) l) = 1) → NoDup l.
Proof.
  induction l as [|x l IH]; intros Hc; [constructor|].
  assert (x ∉ l) as Hx.
  { specialize (Hc x ltac:(by left)). rewrite filter_cons_True in Hc by done. cbn in Hc.
    intros Hin. assert (x ∈ filter (λ w, w = x) l) as Hf by (by apply list_elem_of_filter).
    destruct (filter _ l); [by apply not_elem_of_nil in Hf|cbn in Hc; lia]. }
  constructor; [done|]. apply IH. intros v Hv. specialize (Hc v ltac:(by right)).
  rewrite filter_cons_False in Hc; [done|]. by intros ->.
Qed.

Lemma length_filter_map {A B} (f : A → B) (P : B → Prop) `{!∀ x, Decision (P x)} (l : list A) :
  length (filter P (map f l)) = length (filter (λ x, P (f x)) l).
Proof. induction l as [|a l IH]; [done|]. cbn [map]. rewrite !filter_cons. case_decide; cbn; by rewrite IH. Qed.

(** Unique identities make the versions of a stream distinct. *)
Lemma stream_versions_NoDup rows e :
  (∀ x, x ∈ rows → length (filter (λ r, row_identity r = row_identity x) rows) = 1) →
  NoDup (stream_versions rows e).
Proof.
  unfold stream_versions. intros Hu. apply NoDup_of_count.
  intros v (x & -> & [Hs Hx]%list_elem_of_filter)%list_elem_of_fmap.
  rewrite <-(Hu x Hx), length_filter_map, list_filter_filter. f_equal. apply list_filter_iff.
  intros r. unfold row_identity, row_stream in *. cbn. split; [intros [? ?]|intros ?]; simplify_eq; [congruence|].
  split; congruence.
Qed.

Lemma discontinuous_nil rows :
  duplicates rows = [] → discontinuous rows = [] ↔ streams_intact rows.
Proof.
  intros Hd. rewrite duplicates_nil in Hd. unfold discontinuous, streams_intact. split.
  - intros Hm%map_eq_nil. split; [done|]. intros e He.
    destruct (decide (broken (stream_versions rows e))) as [Hb|Hb].
    { exfalso. apply (not_elem_of_nil e). rewrite <-Hm. by apply list_elem_of_filter. }
    unfold broken in Hb. apply consecutive_of_bounds; [by apply stream_versions_NoDup|lia..].
  - intros [_ Hall]. replace (filter _ rows) with ([] : list EventRow); [done|]. symmetry.
    apply elem_of_nil_inv. intros e [Hb He]%list_elem_of_filter. revert Hb.
    apply bounds_of_consecutive; [|auto]. intros Hn. apply map_eq_nil in Hn.
    apply (not_elem_of_nil e). rewrite <-Hn. by apply list_elem_of_filter.
Qed.

Section quiesced.
Context (peers : nat → list EventRow → list EventRow) (quiet : ∀ n rows, peers n rows = rows).
Context (fails : nat → option SqlxError) (lands : bool).
Context (drain : gmap (option string * string * string * Z) (list Z) → list (list Z)).

Lemma advance_quiet s : advance peers s = mk_session (S (se_next s)) (se_db s) (se_writes s) (se_column s).
Proof. unfold advance. rewrite quiet. by destruct s as [? [? ?] ? ?]. Qed.

(** What a statement leaves alone. *)
Definition same (s s' : Session) : Prop :=
  se_db s' = se_db s ∧ se_writes s' = se_writes s ∧ se_column s' = se_column s.

Lemma same_visible s s' : same s s' → visible s' = visible s.
Proof. intros (Hd & Hw & _). unfold visible. by rewrite Hd, Hw. Qed.

Lemma select_quiet s r s' :
  select_rows peers fails s = (r, s') → same s s' ∧ (r = Ok (visible s) ∨ ∃ e, r = Err e).
Proof.
  unfold select_rows, statement. rewrite advance_quiet. destruct (fails _); intros [= <- <-]; (split; [done|]); eauto.
Qed.

Lemma begin_quiet s r s' : begin peers fails s = (r, s') → same s s'.
Proof. unfold begin, statement. rewrite advance_quiet. by destruct (fails _); intros [= <- <-]. Qed.

(** The updates of a run over [splits]. *)
Definition add_write (ids : list Z) (w : gmap Z (option string * string)) (s : Split_) :=
  if decide (row_id (sp_row s) ∈ ids) then <[row_id (sp_row s) := (Some (sp_type s), sp_id s)]> w else w.

Lemma rewrite_quiet splits s r s' :
  rewrite_rows peers fails splits s = (r, s') →
  se_db s' = se_db s ∧ se_column s' = se_column s ∧
  (r = Ok () → se_writes s' = foldl (add_write (map row_id (db_rows (se_db s)))) (se_writes s) splits).
Proof.
  revert s. induction splits as [|sp splits IH]; intros s; cbn [rewrite_rows].
  - unfold tx_ret. by intros [= <- <-].
  - unfold tx_bind, update_row, statement. rewrite advance_quiet. destruct (fails _); [by intros [= <- <-]|].
    intros (Hd & Hc & Hw)%IH. cbn in *. split_and!; [done..|]. intros Hr. by rewrite Hw.
Qed.

(** A failed statement ends the call with the table as it is; otherwise the call goes on. *)
Definition ended {A} (s : Session) (r : result SqlxError A) (s' : Session) : Prop :=
  (∃ e, r = Err e) ∧ se_db s' = se_db s.

Lemma bind_select {A} s (k : list EventRow → Session → result SqlxError A * Session) r s' :
  tx_bind (select_rows peers fails) k s = (r, s') →
  ended s r s' ∨ ∃ s1, same s s1 ∧ k (visible s) s1 = (r, s').
Proof.
  unfold tx_bind. destruct (select_rows _ _ s) as [[rows|e] s1] eqn:H1; apply select_quiet in H1 as [Hs1 Hr1].
  - destruct Hr1 as [[= ->]|[? [=]]]. eauto.
  - intros [= <- <-]. left. split; [by eexists|apply Hs1].
Qed.

Lemma roll_back_quiet scanned why ids s r s' :
  roll_back peers fails scanned why ids s = (r, s') →
  ended s r s' ∨ se_db s' = se_db s ∧ r = Ok (mk_report scanned 0 (RolledBack (mk_abort why ids))).
Proof.
  unfold roll_back, tx_bind, rollback, statement, tx_ret. rewrite advance_quiet.
  destruct (fails _); intros [= <- <-]; [left; split; [by eexists|done]|by right].
Qed.

Lemma commit_quiet scanned rewritten s r s' :
  tx_bind (set_not_null peers fails)
    (λ _, tx_bind (commit peers fails lands) (λ _, tx_ret (mk_report scanned rewritten Committed))) s = (r, s') →
  ended s r s' ∨ (∃ e, r = Err e) ∧ se_db s' = mk_db (visible s) Mandatory ∨
  r = Ok (mk_report scanned rewritten Committed) ∧ se_db s' = mk_db (visible s) Mandatory.
Proof.
  unfold tx_bind, set_not_null, commit, statement, tx_ret. rewrite !advance_quiet. unfold ended.
  destruct (fails (se_next s)); [intros [= <- <-]; left; split; [by eexists|done]|].
  destruct (forallb _ _); [|intros [= <- <-]; left; split; [by eexists|done]].
  cbn [se_next set_column]. rewrite advance_quiet.
  destruct (fails _); [destruct lands|]; intros [= <- <-]; cbn; eauto 10.
Qed.

Lemma verify_quiet scanned rewritten s r s' :
  verify_and_commit peers fails lands scanned rewritten s = (r, s') →
  scanned = Z.of_nat (length (visible s)) →
  (se_db s' = se_db s ∨ se_db s' = mk_db (visible s) Mandatory ∧ streams_intact (visible s)) ∧
  match r with
  | Ok rep => rows_scanned rep = scanned ∧
      match outcome rep with
      | Committed => rows_rewritten rep = rewritten ∧ se_db s' = mk_db (visible s) Mandatory ∧
          streams_intact (visible s)
      | RolledBack a => rows_rewritten rep = 0%Z ∧ se_db s' = se_db s ∧ ¬ streams_intact (visible s)
      | Aborted _ => False
      end
  | Err _ => True
  end.
Proof.
  unfold verify_and_commit. intros [[[e ->] Hd]|(s1 & Hs1 & Hrun)]%bind_select Hsc; [by split; [left|]|].
  rewrite decide_True in Hrun by done. rewrite <-(same_visible _ _ Hs1), <-(proj1 Hs1).
  clear Hsc. apply bind_select in Hrun as [[[e ->] Hd]|(s2 & Hs2 & Hrun)]; [by split; [left|]|].
  rewrite <-(same_visible _ _ Hs2), <-(proj1 Hs2) in *. destruct (duplicates (visible s2)) as [|id ids] eqn:Hdup.
  - pose proof (discontinuous_nil _ Hdup) as Hiff.
    apply bind_select in Hrun as [[[e ->] Hd]|(s3 & Hs3 & Hrun)]; [by split; [left|]|].
    rewrite <-(same_visible _ _ Hs3), <-(proj1 Hs3) in *. destruct (discontinuous (visible s3)) as [|id ids] eqn:Hdis.
    + apply commit_quiet in Hrun as [[[e ->] Hd]|[[[e ->] Hd]|[-> Hd]]]; rewrite Hd; naive_solver.
    + apply roll_back_quiet in Hrun as [[[e ->] Hd]|[Hd ->]]; rewrite Hd; [by split; [left|]|].
      split; [by left|]. split_and!; try done. cbn. split_and!; [done..|]. intros Hi%Hiff. done.
  - apply roll_back_quiet in Hrun as [[[e ->] Hd]|[Hd ->]]; rewrite Hd; [by split; [left|]|].
    split; [by left|]. split_and!; try done. cbn. split_and!; [done..|]. intros [Hi _]. apply duplicates_nil in Hi. congruence.
Qed.

(** *** The rewritten table *)
Lemma add_writes_ne ids splits w id :
  id ∉ map (λ s, row_id (sp_row s)) splits → foldl (add_write ids) w splits !! id = w !! id.
Proof.
  revert w. induction splits as [|sp splits IH]; intros w; cbn; [done|]. rewrite not_elem_of_cons. intros [Hne Hin].
  rewrite IH by done. unfold add_write. case_decide; [|done]. by rewrite lookup_insert_ne.
Qed.

Lemma add_writes_eq ids splits w sp :
  NoDup (map (λ s, row_id (sp_row s)) splits) → sp ∈ splits → row_id (sp_row sp) ∈ ids →
  foldl (add_write ids) w splits !! row_id (sp_row sp) = Some (Some (sp_type sp), sp_id sp).
Proof.
  revert w. induction splits as [|sp' splits IH]; intros w; cbn; [by intros _ ?%not_elem_of_nil|].
  intros [Hn Hnd]%NoDup_cons [->|Hin]%elem_of_cons Hid; [|by apply IH].
  rewrite add_writes_ne by done. unfold add_write. rewrite decide_True by done. apply lookup_insert_eq.
Qed.

Lemma rewritten_rows types rows splits :
  NoDup (map row_id rows) →
  Forall2 (λ r s, sp_row s = r ∧ split_aggregate_id (row_aggregate r) types = Split (sp_type s) (sp_id s) ∧
    is_blank (sp_id s) = false) rows splits →
  map (written (foldl (add_write (map row_id rows)) ∅ splits)) rows = map (migrated types) rows.
Proof.
  intros Hnd Hf. assert (map (λ s, row_id (sp_row s)) splits = map row_id rows) as Hids.
  { clear Hnd. induction Hf as [|r s rows splits (<- & _) _ IH]; cbn; [done|]. by rewrite IH. }
  apply map_ext_in. intros r Hr%list_elem_of_In. unfold written, migrated.
  apply list_elem_of_lookup in Hr as [i Hi]. destruct (Forall2_lookup_l _ _ _ _ _ Hf Hi) as (s & Hs & <- & -> & _).
  rewrite (add_writes_eq _ splits ∅ s); [done|by rewrite Hids|by eapply list_elem_of_lookup_2|].
  apply list_elem_of_fmap. exists (sp_row s). split; [done|]. by eapply list_elem_of_lookup_2.
Qed.

Definition migrated_db (types : list string) (db : Db) : Db := mk_db (map (migrated types) (db_rows db)) Mandatory.

(** The table after a successful backfill. *)
Definition consolidates (types : list string) (db db' : Db) : Prop :=
  db' = migrated_db types db ∧ Forall (splittable types) (db_rows db) ∧ streams_intact (db_rows db').

Lemma visible_open db : visible (open_session db) = db_rows db.
Proof. unfold visible, open_session, written. cbn. induction (db_rows db) as [|r l IH]; cbn; [done|]. by rewrite IH. Qed.

Lemma visible_same s db : se_db s = db → se_writes s = ∅ → visible s = db_rows db.
Proof. intros Hd Hw. rewrite <-visible_open. unfold visible. by rewrite Hd, Hw. Qed.

(** Whatever statement fails, the backfill consolidates the whole table or leaves it alone, and
    its report says which. *)
Lemma backfill_all_or_nothing types db r db' :
  NoDup (map row_id (db_rows db)) →
  backfill_aggregate_type peers fails lands drain types db = (r, db') →
  (db' = db ∨ consolidates types db db') ∧
  match r with
  | Ok rep => rows_scanned rep = Z.of_nat (length (db_rows db)) ∧
      match outcome rep with
      | Committed => rows_rewritten rep = Z.of_nat (length (db_rows db)) ∧ consolidates types db db'
      | Aborted _ => rows_rewritten rep = 0%Z ∧ db' = db
      | RolledBack _ => rows_rewritten rep = 0%Z ∧ db' = db ∧
          ¬ streams_intact (map (migrated types) (db_rows db))
      end
  | Err _ => True
  end.
Proof.
  intros Hnd. unfold backfill_aggregate_type, run_tx.
  destruct (backfill_body _ _ _ _ _ _) as [r1 s1] eqn:Hrun. intros [= <- <-]. unfold backfill_body in Hrun.
  unfold tx_bind at 1 in Hrun. destruct (begin _ _ _) as [[[]|e] s0] eqn:Hb; apply begin_quiet in Hb.
  2: { injection Hrun as <- <-. split; [left; apply Hb|done]. }
  apply bind_select in Hrun as [[[e ->] Hd]|(s2 & Hs2 & Hrun)]; [split; [left|done]; rewrite Hd; apply Hb|].
  rewrite (same_visible _ _ Hb), visible_open in Hrun.
  assert (se_db s2 = db ∧ se_writes s2 = ∅) as [Hdb Hw].
  { destruct Hs2 as (-> & -> & _). split; [apply Hb|]. by destruct Hb as (_ & -> & _). }
  destruct (cl_no_match _) eqn:H1; [|injection Hrun as <- <-; cbn; rewrite Hdb; by split; [left|]].
  destruct (cl_ambiguous _) eqn:H2; [|injection Hrun as <- <-; cbn; rewrite Hdb; by split; [left|]].
  destruct (cl_empty _) eqn:H3; [|injection Hrun as <- <-; cbn; rewrite Hdb; by split; [left|]].
  destruct (colliding _ _) eqn:H4; [|injection Hrun as <- <-; cbn; rewrite Hdb; by split; [left|]].
  pose proof (classify_all _ _ _ eq_refl H1 H2 H3) as Hf.
  unfold tx_bind at 1 in Hrun. destruct (rewrite_rows _ _ _ _) as [[[]|e] s3] eqn:Hrw;
    apply rewrite_quiet in Hrw as (Hdb3 & _ & Hw3).
  2: { injection Hrun as <- <-. split; [left; by rewrite Hdb3|done]. }
  assert (visible s3 = map (migrated types) (db_rows db)) as Hvis.
  { unfold visible. rewrite Hdb3, Hw3, Hw, Hdb by done. by apply rewritten_rows. }
  pose proof (Forall2_length _ _ _ Hf) as Hlen. apply verify_quiet in Hrun; [|by rewrite Hvis, length_map].
  rewrite Hvis, Hdb3, Hdb, <-Hlen in Hrun. destruct Hrun as [Hor Hrep].
  assert (Forall (splittable types) (db_rows db)) as Hsp.
  { clear -Hf. induction Hf as [|r s rows splits (_ & Hs & Hb) _ IH]; constructor; [by exists (sp_type s), (sp_id s)|done]. }
  unfold consolidates, migrated_db. split.
  - destruct Hor as [->|[-> Hi]]; [by left|by right].
  - destruct r1 as [rep|e]; [|done]. destruct Hrep as [-> Hrep]. split; [done|].
    destruct (outcome rep); [|done|done]. destruct Hrep as (-> & -> & Hi). done.
Qed.

(** *** The inverse *)
Definition rejoined (r : EventRow) : EventRow :=
  mk_row (row_id r) (row_tenant r) None
    (match row_type r with Some t => t +:+ "-" +:+ row_aggregate r | None => row_aggregate r end) (row_version r).

(** The rows that are typed, with what [rejoin] writes for them. *)
Definition rejoins (rows : list EventRow) : list Split_ :=
  omap (λ r, (λ t, mk_split r t (t +:+ "-" +:+ row_aggregate r)) <$> row_type r) rows.

Lemma rejoin_writes rows s :
  let s' := foldl (λ s r, match row_type r with
                          | Some t => set_write (row_id r) (Some t, t +:+ "-" +:+ row_aggregate r) s
                          | None => s
                          end) s rows in
  se_db s' = se_db s ∧ se_column s' = se_column s ∧ se_next s' = se_next s ∧
  se_writes s' = foldl (add_write (map row_id (db_rows (se_db s)))) (se_writes s) (rejoins rows).
Proof.
  revert s. induction rows as [|r rows IH]; intros s; cbn; [done|]. destruct (row_type r) as [t|]; cbn.
  - destruct (IH (set_write (row_id r) (Some t, t +:+ "-" +:+ row_aggregate r) s)) as (-> & -> & -> & ->). done.
  - apply IH.
Qed.

Lemma elem_of_rejoins rows sp : sp ∈ rejoins rows → sp_row sp ∈ rows.
Proof.
  unfold rejoins. rewrite list_elem_of_omap. intros (r & Hr & Hsp). destruct (row_type r); [|done].
  by injection Hsp as <-.
Qed.

Lemma rejoins_NoDup rows : NoDup (map row_id rows) → NoDup (map (λ s, row_id (sp_row s)) (rejoins rows)).
Proof.
  induction rows as [|r rows IH]; cbn; [done|]. intros [Hr Hnd]%NoDup_cons.
  destruct (row_type r); cbn; [|by apply IH]. constructor; [|by apply IH].
  intros (sp & Heq & Hin)%list_elem_of_fmap. cbn in Heq. apply Hr. rewrite Heq. apply list_elem_of_fmap.
  exists (sp_row sp). split; [done|]. by apply elem_of_rejoins.
Qed.

Lemma rejoined_rows rows :
  NoDup (map row_id rows) →
  map (λ r, mk_row (row_id r) (row_tenant r) None (row_aggregate r) (row_version r))
    (map (written (foldl (add_write (map row_id rows)) ∅ (rejoins rows))) rows) = map rejoined rows.
Proof.
  intros Hnd. rewrite map_map. apply map_ext_in. intros r Hr%list_elem_of_In. unfold written, rejoined.
  destruct (row_type r) as [t|] eqn:Ht.
  - set (sp := mk_split r t (t +:+ "-" +:+ row_aggregate r)).
    pose proof (add_writes_eq (map row_id rows) (rejoins rows) ∅ sp (rejoins_NoDup _ Hnd)) as Heq. cbn in Heq.
    rewrite Heq; [done| |by apply list_elem_of_fmap; exists r].
    apply list_elem_of_omap. exists r. split; [done|]. by rewrite Ht.
  - rewrite add_writes_ne; [by rewrite lookup_empty|].
    intros (sp & Heq & Hin)%list_elem_of_fmap. assert (sp_row sp = r) as Hrow.
    { pose proof (elem_of_rejoins _ _ Hin) as Hrow. apply list_elem_of_lookup in Hrow as [i Hi], Hr as [j Hj].
      assert (i = j) as ->; [|congruence].
      apply (NoDup_lookup (map row_id rows) i j (row_id r)); [done|..]; rewrite list_lookup_fmap; [rewrite Hi|rewrite Hj]; cbn; congruence. }
    unfold rejoins in Hin. apply list_elem_of_omap in Hin as (r' & Hr' & Hsp).
    destruct (row_type r') eqn:Ht'; [|done]. injection Hsp as <-. cbn in Hrow. congruence.
Qed.

Lemma revert_exact db :
  (∀ n, fails n = None) → NoDup (map row_id (db_rows db)) →
  revert_aggregate_type_column peers fails lands db = (Ok (), mk_db (map rejoined (db_rows db)) Absent).
Proof.
  intros Hok Hnd. unfold revert_aggregate_type_column, run_tx, revert_body, tx_bind, begin, drop_not_null, rejoin, drop_column, commit, statement.
  rewrite !Hok, !advance_quiet. cbn [se_next set_column open_session se_db se_writes se_column end_with consolidated].
  match goal with |- context [foldl _ ?s0 (visible ?v)] =>
    pose proof (rejoin_writes (visible v) s0) as (Hd & _ & _ & Hw); rewrite (visible_same v db) in * by done end.
  unfold consolidated, visible. cbn [se_db se_writes se_column]. rewrite Hd, Hw. cbn [se_db se_writes].
  by rewrite rejoined_rows.
Qed.

(** *** When it commits *)
Lemma seen_lookup splits k :
  seen splits !! k = let ids := map (λ s, row_id (sp_row s)) (filter (λ s, split_identity s = k) splits) in
                     match ids with [] => None | _ => Some ids end.
Proof.
  unfold seen. induction splits as [|sp splits IH] using rev_ind; [done|]. rewrite foldl_app. cbn [foldl].
  rewrite filter_app, map_app. destruct (decide (k = split_identity sp)) as [->|Hne].
  - rewrite lookup_insert_eq, IH, filter_cons_True by done. cbn.
    by destruct (map _ (filter _ splits)) as [|? ?].
  - rewrite lookup_insert_ne by done. rewrite filter_cons_False by done. cbn. by rewrite app_nil_r.
Qed.

Lemma colliding_nil splits :
  (∀ m, drain m ≡ₚ map snd (map_to_list m)) →
  (∀ s, s ∈ splits → length (filter (λ s', split_identity s' = split_identity s) splits) = 1) →
  colliding drain splits = [].
Proof.
  intros Hdrain Hu. unfold colliding. replace (filter _ (drain _)) with ([] : list (list Z)); [done|]. symmetry.
  apply elem_of_nil_inv. intros ids [Hlen Hin]%list_elem_of_filter. rewrite Hdrain in Hin.
  apply list_elem_of_fmap in Hin as ([k ids'] & -> & Hk%elem_of_map_to_list). cbn in *.
  rewrite seen_lookup in Hk. cbn in Hk. destruct (filter _ splits) as [|sp l] eqn:Hf; [done|].
  injection Hk as <-. assert (sp ∈ filter (λ s, split_identity s = k) splits) as [<- Hsp]%list_elem_of_filter
    by (rewrite Hf; by left).
  specialize (Hu sp Hsp). rewrite Hf in Hu. cbn in *. rewrite length_map in Hlen. lia.
Qed.

Lemma count_identities types rows splits r s :
  Forall2 (λ r s, sp_row s = r ∧ split_aggregate_id (row_aggregate r) types = Split (sp_type s) (sp_id s) ∧
    is_blank (sp_id s) = false) rows splits →
  sp_row s = r → split_aggregate_id (row_aggregate r) types = Split (sp_type s) (sp_id s) →
  length (filter (λ s', split_identity s' = split_identity s) splits) =
  length (filter (λ r', row_identity r' = row_identity (migrated types r)) (map (migrated types) rows)).
Proof.
  intros Hf <- Hs. rewrite length_filter_map. induction Hf as [|r' s' rows splits (<- & Hs' & _) _ IH]; [done|].
  rewrite !filter_cons. assert (split_identity s' = split_identity s ↔
    row_identity (migrated types (sp_row s')) = row_identity (migrated types (sp_row s))) as Hiff.
  { unfold migrated. rewrite Hs, Hs'. unfold split_identity, row_identity. cbn. split; intros; simplify_eq; congruence. }
  do 2 case_decide; cbn; try tauto; by rewrite IH.
Qed.

Section no_failure.
Context (Hok : ∀ n, fails n = None).

Lemma statement_ok {A} (f : Session → result SqlxError A * Session) s :
  statement peers fails f s = f (mk_session (S (se_next s)) (se_db s) (se_writes s) (se_column s)).
Proof. unfold statement. by rewrite Hok, advance_quiet. Qed.

Lemma rewrite_ok splits s : ∃ s', rewrite_rows peers fails splits s = (Ok (), s').
Proof.
  revert s. induction splits as [|sp splits IH]; intros s; cbn [rewrite_rows]; [by eexists|].
  unfold tx_bind, update_row. rewrite statement_ok. apply IH.
Qed.

Lemma roll_back_ok scanned why ids s : ∃ rep s', roll_back peers fails scanned why ids s = (Ok rep, s').
Proof. unfold roll_back, tx_bind, rollback. rewrite statement_ok. by eexists _, _. Qed.

Lemma verify_ok scanned rewritten s :
  (∀ r, r ∈ visible s → row_type r ≠ None) → ∃ rep s', verify_and_commit peers fails lands scanned rewritten s = (Ok rep, s').
Proof.
  intros Hty. unfold verify_and_commit, tx_bind, select_rows. rewrite !statement_ok. case_decide; [|apply roll_back_ok].
  rewrite !statement_ok. case_match; [|apply roll_back_ok]. rewrite !statement_ok. case_match; [|apply roll_back_ok].
  unfold set_not_null. rewrite statement_ok. rewrite (proj2 (forallb_forall _ _)).
  - unfold commit. rewrite Hok. by eexists _, _.
  - intros r Hr%list_elem_of_In. apply bool_decide_eq_true. by apply Hty.
Qed.

Lemma backfill_ok types db :
  (∀ m, drain m ≡ₚ map snd (map_to_list m)) → NoDup (map row_id (db_rows db)) →
  Forall (splittable types) (db_rows db) → streams_intact (map (migrated types) (db_rows db)) →
  ∃ rep s', backfill_body peers fails lands drain types (open_session db) = (Ok rep, s') ∧ ∀ a, outcome rep ≠ Aborted a.
Proof.
  intros Hdrain Hnd Hsp [Hu _]. unfold backfill_body, begin, select_rows. unfold tx_bind at 1 2.
  rewrite !statement_ok. cbn [se_next se_db se_writes se_column open_session]. rewrite (visible_same _ db) by done.
  destruct (classify_splittable _ _ Hsp) as (H1 & H2 & H3). rewrite H1, H2, H3.
  pose proof (classify_all _ _ _ eq_refl H1 H2 H3) as Hf.
  rewrite colliding_nil; [|done|].
  - unfold tx_bind. destruct (rewrite_ok (cl_splits (classify types (db_rows db))) (mk_session 2 db ∅ (db_column db)))
      as [s1 Hrw]. rewrite Hrw. apply rewrite_quiet in Hrw as (Hd & _ & Hw). cbn [se_db se_writes] in *.
    assert (visible s1 = map (migrated types) (db_rows db)) as Hvis.
    { unfold visible. rewrite Hd, Hw by done. by apply rewritten_rows. }
    destruct (verify_ok (Z.of_nat (length (db_rows db))) (Z.of_nat (length (cl_splits (classify types (db_rows db))))) s1)
      as (rep & s' & Hv).
    { rewrite Hvis. intros r (r0 & -> & Hr)%list_elem_of_fmap. rewrite Forall_forall in Hsp.
      destruct (Hsp r0 Hr) as (t & a & Hs & _). unfold migrated. by rewrite Hs. }
    exists rep, s'. split; [done|]. apply verify_quiet in Hv; [|by rewrite Hvis, length_map].
    intros a Ha. destruct Hv as [_ [_ Hv]]. by rewrite Ha in Hv.
  - intros sp Hin. apply list_elem_of_lookup in Hin as [i Hi].
    destruct (Forall2_lookup_r _ _ _ _ _ Hf Hi) as (r & Hr & Hrow & Hs & _).
    rewrite (count_identities types _ _ r sp Hf Hrow Hs). apply Hu. apply list_elem_of_fmap. exists r.
    split; [done|]. by eapply list_elem_of_lookup_2.
Qed.
End no_failure.

Lemma backfill_commits types db :
  (∀ n, fails n = None) → (∀ m, drain m ≡ₚ map snd (map_to_list m)) → NoDup (map row_id (db_rows db)) →
  Forall (splittable types) (db_rows db) → streams_intact (map (migrated types) (db_rows db)) →
  ∃ rep, backfill_aggregate_type peers fails lands drain types db = (Ok rep, migrated_db types db) ∧ outcome rep = Committed.
Proof.
  intros Hok Hdrain Hnd Hsp Hint. destruct (backfill_ok Hok types db Hdrain Hnd Hsp Hint) as (rep & s' & Hrun & Hna).
  assert (backfill_aggregate_type peers fails lands drain types db = (Ok rep, se_db s')) as Heq
    by (unfold backfill_aggregate_type, run_tx; by rewrite Hrun).
  destruct (backfill_all_or_nothing types db _ _ Hnd Heq) as [_ [_ Hr]].
  exists rep. rewrite Heq. destruct (outcome rep) as [|a|a]; [|by destruct (Hna a)|tauto].
  destruct Hr as (_ & -> & _). done.
Qed.

(** C33: On an untyped table the backfill commits exactly if every identifier splits in one
    way under the registered types, with a non-blank id, the split rows are distinct events
    and every stream is the run of versions 1..n; it then stores each type and id apart,
    and the inverse restores every row as it was and drops the column. *)
Theorem backfill_round_trip types db :
  (∀ n, fails n = None) → (∀ m, drain m ≡ₚ map snd (map_to_list m)) →
  NoDup (map row_id (db_rows db)) → (∀ r, r ∈ db_rows db → row_type r = None) →
  ∀ r db', backfill_aggregate_type peers fails lands drain types db = (r, db') →
    ((∃ rep, r = Ok rep ∧ outcome rep = Committed) ↔
       Forall (splittable types) (db_rows db) ∧ streams_intact (map (migrated types) (db_rows db))) ∧
    ((∃ rep, r = Ok rep ∧ outcome rep = Committed) →
       db' = migrated_db types db ∧
       revert_aggregate_type_column peers fails lands db' = (Ok (), mk_db (db_rows db) Absent)).
Proof.
  intros Hok Hdrain Hnd Hnone r db' Hrun. split; [split|].
  - intros (rep & -> & Hc). destruct (backfill_all_or_nothing types db _ _ Hnd Hrun) as [_ [_ Hr]].
    rewrite Hc in Hr. destruct Hr as (_ & -> & Hsp & Hi). done.
  - intros [Hsp Hi]. destruct (backfill_commits types db Hok Hdrain Hnd Hsp Hi) as (rep & Heq & Hc).
    rewrite Hrun in Heq. injection Heq as -> _. eauto.
  - intros (rep & -> & Hc). destruct (backfill_all_or_nothing types db _ _ Hnd Hrun) as [_ [_ Hr]].
    rewrite Hc in Hr. destruct Hr as (_ & -> & Hsp & _). split; [done|].
    rewrite revert_exact; [|done|].
    + unfold migrated_db. cbn [db_rows]. rewrite map_map. repeat f_equal.
      transitivity (map id (db_rows db)); [|by rewrite map_id].
      apply map_ext_in. intros x Hx%list_elem_of_In. rewrite Forall_forall in Hsp.
      destruct (Hsp x Hx) as (t & a & Hs & _). unfold rejoined, migrated. rewrite Hs. cbn.
      apply split_Split in Hs as [Hs _]. rewrite <-Hs. specialize (Hnone x Hx). destruct x. cbn in *. by subst.
    + unfold migrated_db. cbn [db_rows]. rewrite map_map. replace (map _ (db_rows db)) with (map row_id (db_rows db)); [done|].
      apply map_ext. intros x. unfold migrated. by case_match.
Qed.
End quiesced.

(** ** Migrations *)
(** [migrations::run]: the scripts in order, up to the first that fails. *)
Definition migrations : list string :=
  ["001_create_events"; "002_create_aggregates"; "003_create_snapshots"; "007_add_aggregate_type_to_events";
   "008_events_stream_identity_unique"; "009_add_operation_key_to_events"; "010_create_operation_reservations";
   "011_create_operation_receipts"; "012_fix_snapshots_tenant_null_uniqueness"; "013_create_projection_offsets";
   "014_create_projection_dedup"; "015_fix_aggregates_tenant_null_uniqueness"; "016_create_projection_claims"].

Section migrate.
Context {D : Type} (execute : string → D → result SqlxError unit * D).

Fixpoint run_all (names : list string) (db : D) : result SqlxError unit * D :=
  match names with
  | [] => (Ok (), db)
  | name :: names =>
      match execute name db with (Ok _, db) => run_all names db | (Err e, db) => (Err e, db) end
  end.
Definition run_migrations : D → result SqlxError unit * D := run_all migrations.
End migrate.

(** ** The tool's exit code *)
(** [main]: no types or no database url is a usage error; the connection, the migrations and
    the backfill come after. *)
Definition main {D} (registered_types : list string) (database_url : option string)
    (connect : string → result SqlxError D) (migrate : D → result SqlxError unit * D)
    (backfill : list string → D → result SqlxError BackfillReport * D) : Z :=
  match registered_types, database_url with
  | [], _ => 2
  | _, None => 2
  | _, Some url =>
      match connect url with
      | Err _ => 1
      | Ok db =>
          match migrate db with
          | (Err _, _) => 1
          | (Ok _, db) =>
              match backfill registered_types db with
              | (Ok report, _) => match outcome report with Committed => 0 | Aborted _ | RolledBack _ => 1 end
              | (Err _, _) => 1
              end
          end
      end
  end%Z.

(** ** Examples *)
Module Example_backfill.
Definition nobody (n : nat) (rows : list EventRow) : list EventRow := rows.
Definition never (n : nat) : option SqlxError := None.
Definition values (m : gmap (option string * string * string * Z) (list Z)) : list (list Z) :=
  map snd (map_to_list m).
Definition table (l : list (Z * string * Z)) : Db :=
  mk_db (map (λ '(i, a, v), mk_row i (Some "t") None a v) l) Nullable.
Abbreviation run types db := (backfill_aggregate_type nobody never false values types db).

Definition orders : Db := table [(1, "order-7", 1); (2, "order-7", 2); (3, "user-7", 1)]%Z.

Definition orders_typed : Db :=
  mk_db [mk_row 1 (Some "t") (Some "order") "7" 1; mk_row 2 (Some "t") (Some "order") "7" 2;
         mk_row 3 (Some "t") (Some "user") "7" 1] Mandatory.

Lemma orders_run : run ["order"; "user"] orders = (Ok (mk_report 3 3 Committed), orders_typed).
Proof. by vm_compute. Qed.

Lemma backfill_round_trip_witness :
  run ["order"; "user"] orders = (Ok (mk_report 3 3 Committed), orders_typed) ∧
  revert_aggregate_type_column nobody never false orders_typed = (Ok (), mk_db (db_rows orders) Absent).
Proof.
  split; [exact orders_run|].
  assert (NoDup (map row_id (db_rows orders))) as Hnd by (apply (bool_decide_unpack _); by vm_compute).
  assert (∀ r, r ∈ db_rows orders → row_type r = None) as Hnone.
  { intros r Hr. apply list_elem_of_fmap in Hr as ([[i a] v] & -> & _). reflexivity. }
  refine (proj2 (proj2 (backfill_round_trip nobody (λ _ _, eq_refl) never false values ["order"; "user"] orders
    (λ _, eq_refl) (λ _, reflexivity _) Hnd Hnone _ _ orders_run) _)).
  exists (mk_report 3 3 Committed). split; reflexivity.
Defined.

(** The preflight stages, in order. *)
Example no_type : fst (run ["order"] orders) =
  Ok (mk_report 3 0 (Aborted (mk_abort NoRegisteredTypeMatches [3%Z]))).
Proof. by vm_compute. Qed.
Example two_types : fst (run ["order"; "user"; "user-account"] (table [(1, "user-account-7", 1)]%Z)) =
  Ok (mk_report 1 0 (Aborted (mk_abort MatchesMoreThanOneRegisteredType [1%Z]))).
Proof. by vm_compute. Qed.
Example blank_id : fst (run ["user"] (table [(1, "user- ", 1)]%Z)) =
  Ok (mk_report 1 0 (Aborted (mk_abort AggregateIdIsEmptyOrWhitespace [1%Z]))).
Proof. by vm_compute. Qed.
Example gap : fst (run ["user"] (table [(1, "user-7", 1); (2, "user-7", 3)]%Z)) =
  Ok (mk_report 2 0 (RolledBack (mk_abort StreamVersionsAreNotConsecutiveFromOne [1; 2]%Z))).
Proof. by vm_compute. Qed.

(** A separator with nothing after it is a match, though not an accepted one. *)
Example bare_separator : split_aggregate_id "user-" ["user"] = Split "user" "".
Proof. by vm_compute. Qed.

(** A writer that is not quiesced is noticed if it writes before the count. *)
Example late_row :
  let late n rows := if decide (n = 3) then rows ++ [mk_row 9 None None "user-8" 1] else rows in
  fst (backfill_aggregate_type late never false values ["user"] (table [(1, "user-7", 1)]%Z)) =
  Ok (mk_report 1 0 (RolledBack (mk_abort (RowCountChanged 1 2) []))).
Proof. by vm_compute. Qed.

(** The scan does not leave out rows that are typed already: a second run splits them again,
    and the inverse no longer restores the table. *)
Lemma second_run_splits_again :
  let db := table [(1, "user-user-7", 1)]%Z in
  let once := snd (run ["user"] db) in
  let twice := run ["user"] once in
  fst twice = Ok (mk_report 1 1 Committed) ∧
  map row_aggregate (db_rows (snd (revert_aggregate_type_column nobody never false (snd twice)))) = ["user-7"].
Proof. by vm_compute. Qed.
End Example_backfill.
