(* ===== verification/Executions.v ===== *)
(** * Execution runtimes

    The two implementations of the platform's [Runtime] trait: crates/runtime,
    runtime/{execution,failure,handle,lifecycle,runtime}.rs, and crates/runtime-tokio, lib.rs;
    and the interpretation of composed effects, crates/runtime, interpreter.rs.

    Both keep a table of units behind one standard mutex, so every locked section is one
    step; a panic inside one poisons the mutex and the [unwrap] of every later lock panics.
    What a unit's closure does is not modelled: a step decides when its task ends and how.
    Identifiers are fresh, as version 4 UUIDs are taken to be; the text of one is a
    parameter.  Building the Tokio runtime itself is left out. *)

From S2P Require Import Prelude.

Abbreviation ExecutionId := positive.

(** ** Lifecycle states and failures *)
Inductive ExecutionState := Active | Draining | Terminated | Failed.
#[export] Instance ExecutionState_eq_dec : EqDecision ExecutionState.
Proof. solve_decision. Defined.

Inductive SendErrorKind := NotFound | SendClosed.
Record SendError := mk_send_error { send_id : ExecutionId; send_cause : SendErrorKind }.
Inductive SpawnErrorKind := SpawnClosed | SpawnInternal (msg : string).

Definition SendErrorKind_fmt (k : SendErrorKind) : string :=
  match k with NotFound => "execution not found" | SendClosed => "execution is closed" end.
Definition SendError_fmt (show : ExecutionId → string) (e : SendError) : string :=
  "send failed for execution " +:+ show (send_id e) +:+ ": " +:+ SendErrorKind_fmt (send_cause e).
Definition SpawnErrorKind_fmt (k : SpawnErrorKind) : string :=
  match k with SpawnClosed => "runtime is closed" | SpawnInternal msg => "internal runtime error: " +:+ msg end.
Definition SpawnError_fmt (k : SpawnErrorKind) : string := "spawn failed: " +:+ SpawnErrorKind_fmt k.

(** The diagram of lifecycle.rs, with what a draining execution may come to. *)
Definition may_become (s t : ExecutionState) : Prop :=
  match s with
  | Active => True
  | Draining => t ≠ Active
  | Terminated => t = Terminated
  | Failed => t = Failed
  end.
#[export] Instance may_become_dec s t : Decision (may_become s t).
Proof. destruct s; cbn; apply _. Defined.
#[export] Instance may_become_refl : Reflexive may_become.
Proof. by intros []. Qed.
#[export] Instance may_become_trans : Transitive may_become.
Proof. by intros [] [] []. Qed.

(** A locked section, or any call, returns or unwinds. *)
Inductive outcome (A : Type) := Returned (a : A) | Unwound.
Arguments Returned {A} _.
Arguments Unwound {A}.

(** ** runtime-tokio *)
Module Tokio.
Definition CAPACITY : nat := 32.

(** [TokioRuntimeInner]; a unit that is active holds the sender of its channel, whose
    contents are in [queued]. *)
Record Inner := mk_inner {
  units : gmap ExecutionId ExecutionState;
  queued : gmap ExecutionId nat;
  fail_closed : bool;
  poisoned : bool;
}.

Definition TokioRuntime_new : Inner := mk_inner ∅ ∅ false false.

Definition set_fail_closed (value : bool) (s : Inner) : Inner :=
  mk_inner (units s) (queued s) value (poisoned s).
Definition set_unit (id : ExecutionId) (u : ExecutionState) (s : Inner) : Inner :=
  mk_inner (<[id := u]> (units s)) (queued s) (fail_closed s) (poisoned s).
Definition set_queued (id : ExecutionId) (n : nat) (s : Inner) : Inner :=
  mk_inner (units s) (<[id := n]> (queued s)) (fail_closed s) (poisoned s).

(** [units.lock().unwrap()] *)
Definition locked {A} (s : Inner) (f : outcome A * Inner) : outcome A * Inner :=
  if poisoned s then (Unwound, s) else f.

(** [tx.try_send] *)
Definition try_send (id : ExecutionId) (s : Inner) : result SendError unit * Inner :=
  let n := default 0 (queued s !! id) in
  if decide (n < CAPACITY) then (Ok (), set_queued id (S n) s) else (Err (mk_send_error id SendClosed), s).

(** The send of a [RuntimeHandle]. *)
Definition handle_send (id : ExecutionId) (s : Inner) : outcome (result SendError unit) * Inner :=
  locked s
    match units s !! id with
    | None => (Returned (Err (mk_send_error id NotFound)), s)
    | Some Active => let '(r, s) := try_send id s in (Returned r, s)
    | Some _ => (Returned (Err (mk_send_error id SendClosed)), s)
    end.

Definition send (id : ExecutionId) (s : Inner) : outcome (result SendError unit) * Inner :=
  if fail_closed s then (Returned (Err (mk_send_error id SendClosed)), s) else handle_send id s.

Definition shutdown (id : ExecutionId) (s : Inner) : outcome unit * Inner :=
  locked s
    match units s !! id with
    | Some Active => (Returned (), set_unit id Draining s)
    | _ => (Returned (), s)
    end.

Definition state (id : ExecutionId) (s : Inner) : outcome (option ExecutionState) * Inner :=
  locked s (Returned (units s !! id), s).

(** [spawn] refuses, or spawns the task and then, in a section of its own, inserts the unit. *)
Definition spawn_admits (s : Inner) : result SpawnErrorKind unit :=
  if fail_closed s then Err SpawnClosed else Ok ().
Definition spawn_insert (id : ExecutionId) (s : Inner) : outcome unit * Inner :=
  locked s (Returned (), set_unit id Active (set_queued id 0 s)).

(** The end of the task: [guard.get_mut(&id).unwrap()] while the guard is held. *)
Definition finish (id : ExecutionId) (panicked : bool) (s : Inner) : outcome unit * Inner :=
  locked s
    match units s !! id with
    | Some _ => (Returned (), set_unit id (if panicked then Failed else Terminated) s)
    | None => (Unwound, mk_inner (units s) (queued s) (fail_closed s) true)
    end.

(** The consumer receives and drops a message. *)
Definition consume (id : ExecutionId) (s : Inner) : option Inner :=
  match queued s !! id with Some (S n) => Some (set_queued id n s) | _ => None end.

(** *** Calls and tasks, interleaved *)
(** A task a call of [spawn] started: whether that call has inserted its unit, and whether
    the task is still running. *)
Record Task := mk_task { inserted : bool; alive : bool }.
Record System := mk_system { inner : Inner; tasks : gmap ExecutionId Task }.
Definition initial : System := mk_system TokioRuntime_new ∅.

Inductive step : System → System → Prop :=
| step_fail_closed v s ts : step (mk_system s ts) (mk_system (set_fail_closed v s) ts)
| step_spawn id s ts :
    ts !! id = None → spawn_admits s = Ok () →
    step (mk_system s ts) (mk_system s (<[id := mk_task false true]> ts))
| step_insert id a s ts :
    ts !! id = Some (mk_task false a) →
    step (mk_system s ts) (mk_system (spawn_insert id s).2 (<[id := mk_task true a]> ts))
| step_finish id b panicked s ts :
    ts !! id = Some (mk_task b true) →
    step (mk_system s ts) (mk_system (finish id panicked s).2 (<[id := mk_task b false]> ts))
| step_send id s ts : step (mk_system s ts) (mk_system (send id s).2 ts)
| step_handle_send id s ts : step (mk_system s ts) (mk_system (handle_send id s).2 ts)
| step_shutdown id s ts : step (mk_system s ts) (mk_system (shutdown id s).2 ts)
| step_consume id s s' ts : consume id s = Some s' → step (mk_system s ts) (mk_system s' ts).

(** A task and its unit.  A unit is missing only before it is inserted, or for good once the
    mutex is poisoned. *)
Definition agree (poison : bool) (t : option Task) (u : option ExecutionState) : Prop :=
  match t with
  | None => u = None
  | Some (mk_task false a) => u = None ∧ (a = false → poison = true)
  | Some (mk_task true true) => match u with Some u => u = Active ∨ u = Draining | None => poison = true end
  | Some (mk_task true false) =>
      match u with Some u => poison = false → u = Terminated ∨ u = Failed | None => poison = true end
  end.

Record wf (s : System) : Prop := mk_wf {
  wf_agree : ∀ id, agree (poisoned (inner s)) (tasks s !! id) (units (inner s) !! id);
  wf_bound : ∀ id n, queued (inner s) !! id = Some n → n ≤ CAPACITY;
  wf_poison : poisoned (inner s) = true →
    ∃ id b, tasks s !! id = Some (mk_task b false) ∧ units (inner s) !! id = None;
}.

(** Every unit stays, and moves along the diagram. *)
Definition grows (s s' : Inner) : Prop :=
  ∀ id u, units s !! id = Some u → ∃ u', units s' !! id = Some u' ∧ may_become u u'.
#[export] Instance grows_preorder : PreOrder grows.
Proof.
  split.
  - intros s id u Hu. by exists u.
  - intros s s1 s2 H1 H2 id u Hu. destruct (H1 id u Hu) as (u1 & Hu1 & ?). destruct (H2 id u1 Hu1) as (u2 & ? & ?).
    exists u2. split; [done|]. by etrans.
Qed.

Lemma grows_set id u s : (∀ u0, units s !! id = Some u0 → may_become u0 u) → grows s (set_unit id u s).
Proof.
  intros Hm id' u' Hu. cbn. destruct (decide (id' = id)) as [->|]; [exists u|exists u'].
  - rewrite lookup_insert_eq. auto.
  - by rewrite lookup_insert_ne.
Qed.

(** Only the sections that touch a unit or a queue leave the state different. *)
Lemma handle_send_cases id s :
  (handle_send id s).2 = s ∨
  units s !! id = Some Active ∧ default 0 (queued s !! id) < CAPACITY ∧
    (handle_send id s).2 = set_queued id (S (default 0 (queued s !! id))) s.
Proof.
  unfold handle_send, locked, try_send. destruct (poisoned s); [by left|].
  destruct (units s !! id) as [[]|] eqn:Hu; try by left. case_decide; [|by left]. by right.
Qed.

Lemma send_cases id s : (send id s).2 = s ∨ (send id s).2 = (handle_send id s).2.
Proof. unfold send. destruct (fail_closed s); auto. Qed.

Lemma agree_poison t u : agree false t u → agree true t u.
Proof. destruct t as [[[] []]|]; cbn; destruct u; naive_solver. Qed.

Lemma wf_set_queued id n s ts : n ≤ CAPACITY → wf (mk_system s ts) → wf (mk_system (set_queued id n s) ts).
Proof.
  intros Hn [? Hb ?]. split; try done. intros id' n' Hq. cbn in Hq. insert_cases Hq; [done|eauto].
Qed.

Lemma wf_handle_send id s ts :
  wf (mk_system s ts) → wf (mk_system (handle_send id s).2 ts) ∧ grows s (handle_send id s).2.
Proof.
  intros Hwf. destruct (handle_send_cases id s) as [->|(Hu & Hn & ->)]; [by split|].
  split; [apply wf_set_queued; [lia|done]|]. intros id' u Hid. by exists u.
Qed.

(** A section that changes one task and its unit. *)
Lemma wf_at id t u s ts :
  wf (mk_system s ts) → poisoned s = false → agree false (Some t) (Some u) →
  wf (mk_system (set_unit id u s) (<[id := t]> ts)).
Proof.
  intros [Ha Hb Hp] Hpo Hag. cbn in *. rewrite Hpo in *. split; cbn; rewrite ?Hpo; [|done|done].
  intros id'. destruct (decide (id' = id)) as [->|]; [by rewrite !lookup_insert_eq|].
  rewrite !lookup_insert_ne by done. apply Ha.
Qed.

Lemma wf_finish id b panicked s ts :
  ts !! id = Some (mk_task b true) → wf (mk_system s ts) →
  wf (mk_system (finish id panicked s).2 (<[id := mk_task b false]> ts)) ∧ grows s (finish id panicked s).2.
Proof.
  intros Ht Hwf. pose proof Hwf as [Ha Hb Hp]. cbn in *. specialize (Ha id) as Hid. rewrite Ht in Hid.
  unfold finish, locked. destruct (poisoned s) eqn:Hpo.
  - split; [|done]. split; cbn; rewrite ?Hpo; [|done|].
    + intros id'. destruct (decide (id' = id)) as [->|]; [|rewrite lookup_insert_ne by done; apply Ha].
      rewrite lookup_insert_eq. destruct b; cbn in *; [by case_match|by destruct Hid].
    + intros _. destruct (Hp eq_refl) as (id' & b' & Ht' & Hu'). destruct (decide (id' = id)) as [->|].
      * exists id, b. by rewrite lookup_insert_eq.
      * exists id', b'. by rewrite lookup_insert_ne.
  - destruct (units s !! id) as [u|] eqn:Hu; cbn [snd].
    + destruct b; cbn in Hid; [|by destruct Hid]. split.
      * apply wf_at; [done..|]. cbn. destruct panicked; auto.
      * apply grows_set. intros u0 Hu0. rewrite Hu in Hu0. injection Hu0 as <-. by destruct Hid as [-> | ->], panicked.
    + split; [|by intros id' u Hu'; exists u]. split; cbn; [|done|].
      * intros id'. destruct (decide (id' = id)) as [->|]; [|rewrite lookup_insert_ne by done; apply agree_poison, Ha].
        rewrite lookup_insert_eq, Hu. by destruct b.
      * intros _. exists id, b. by rewrite lookup_insert_eq.
Qed.

Lemma wf_insert id a s ts :
  ts !! id = Some (mk_task false a) → wf (mk_system s ts) →
  wf (mk_system (spawn_insert id s).2 (<[id := mk_task true a]> ts)) ∧ grows s (spawn_insert id s).2.
Proof.
  intros Ht Hwf. pose proof Hwf as [Ha Hb Hp]. cbn in *. specialize (Ha id) as Hid. rewrite Ht in Hid.
  destruct Hid as [Hnone Hdead]. unfold spawn_insert, locked. destruct (poisoned s) eqn:Hpo.
  - split; [|done]. split; cbn; rewrite ?Hpo; [|done|].
    + intros id'. destruct (decide (id' = id)) as [->|]; [|rewrite lookup_insert_ne by done; apply Ha].
      rewrite lookup_insert_eq, Hnone. by destruct a.
    + intros _. destruct (Hp eq_refl) as (id' & b' & Ht' & Hu'). destruct (decide (id' = id)) as [->|].
      * exists id, true. rewrite lookup_insert_eq. split; [congruence|done].
      * exists id', b'. by rewrite lookup_insert_ne.
  - destruct a; [|by specialize (Hdead eq_refl)]. cbn [snd]. split.
    + apply wf_at; [|done|by left]. apply wf_set_queued; [lia|done].
    + intros id' u Hu. cbn. rewrite lookup_insert_ne by congruence. by exists u.
Qed.

Lemma wf_step s s' : step s s' → wf s → wf s' ∧ grows (inner s) (inner s').
Proof.
  intros Hst Hwf. destruct Hst as [v s ts|id s ts Hid _|id a s ts Ht|id b p s ts Ht|id s ts|id s ts|id s ts|id s s' ts Hc];
    cbn [inner].
  - split; [by destruct Hwf|]. intros id u Hu. by exists u.
  - split; [|done]. destruct Hwf as [Ha Hb Hp]. cbn in *. split; cbn; [|done|].
    + intros id'. destruct (decide (id' = id)) as [->|]; [|rewrite lookup_insert_ne by done; apply Ha].
      specialize (Ha id). rewrite Hid in Ha. by rewrite lookup_insert_eq.
    + intros Hpo. destruct (Hp Hpo) as (id' & b & Ht & Hu). exists id', b. rewrite lookup_insert_ne by congruence. done.
  - by apply wf_insert.
  - by apply wf_finish.
  - destruct (send_cases id s) as [->| ->]; [by split|by apply wf_handle_send].
  - by apply wf_handle_send.
  - unfold shutdown, locked. destruct (poisoned s) eqn:Hpo; [by split|].
    destruct (units s !! id) as [[]|] eqn:Hu; try by split. cbn [snd]. pose proof (wf_agree _ Hwf id) as Hid. cbn in Hid.
    rewrite Hu, Hpo in Hid. split; [|apply grows_set; intros u0 Hu0; by rewrite Hu in Hu0; injection Hu0 as <-].
    assert (ts !! id = Some (mk_task true true)) as Ht.
    { destruct (ts !! id) as [[[] []]|]; cbn in Hid; [done| |by destruct Hid..|done]. by destruct (Hid eq_refl). }
    rewrite <-(insert_id ts id (mk_task true true)) by done. apply wf_at; [done..|by right].
  - unfold consume in Hc. destruct (queued s !! id) as [[|n]|] eqn:Hq; simplify_eq. split.
    + apply wf_set_queued; [|done]. pose proof (wf_bound _ Hwf id _ Hq). lia.
    + intros id' u Hu. by exists u.
Qed.

Lemma wf_reachable s s' : rtc step s s' → wf s → wf s' ∧ grows (inner s) (inner s').
Proof.
  induction 1 as [s|s s1 s2 Hst _ IH]; [by split|]. intros Hwf. destruct (wf_step _ _ Hst Hwf) as [Hwf1 Hg].
  destruct (IH Hwf1) as [? ?]. split; [done|]. by etrans.
Qed.

Lemma wf_initial : wf initial.
Proof. split; cbn; [|done|done]. intros id. by rewrite !lookup_empty. Qed.

(** However calls and tasks interleave, a unit is never forgotten and moves only along the
    lifecycle diagram, so a terminal state is final; no channel holds more than its
    capacity; unless the mutex is poisoned the state of a unit tells whether its task is
    still running; and it is poisoned only if a task ended that has no unit. *)
Lemma executions_follow_lifecycle s s' :
  rtc step initial s → rtc step s s' →
  (∀ id u, units (inner s) !! id = Some u → ∃ u', units (inner s') !! id = Some u' ∧ may_become u u') ∧
  (∀ id n, queued (inner s) !! id = Some n → n ≤ CAPACITY) ∧
  (poisoned (inner s) = false → ∀ id a, tasks s !! id = Some (mk_task true a) →
     ∃ u, units (inner s) !! id = Some u ∧
       if a then u = Active ∨ u = Draining else u = Terminated ∨ u = Failed) ∧
  (poisoned (inner s) = true →
     ∃ id b, tasks s !! id = Some (mk_task b false) ∧ units (inner s) !! id = None).
Proof.
  intros Hs Hs'. destruct (wf_reachable _ _ Hs wf_initial) as [Hwf _].
  destruct (wf_reachable _ _ Hs' Hwf) as [_ Hg]. split_and!; [exact Hg|apply Hwf| |apply Hwf].
  intros Hpo id a Ht. pose proof (wf_agree _ Hwf id) as Ha. rewrite Ht, Hpo in Ha.
  destruct (units (inner s) !! id) as [u|]; [|by destruct a]. exists u. split; [done|]. destruct a; cbn in Ha; auto.
Qed.

Lemma poisoned_step s s' : step s s' → poisoned (inner s) = true → poisoned (inner s') = true.
Proof.
  intros Hst. destruct Hst as [| | | | | | |id s s' ts Hc]; cbn; unfold spawn_insert, finish, shutdown, send, handle_send, locked;
    try (intros Hp; by rewrite ?Hp).
  - intros Hp. destruct (fail_closed s); [done|]. by rewrite Hp.
  - unfold consume in Hc. repeat case_match; simplify_eq. done.
Qed.

(** A task that ends before [spawn] has inserted its unit unwinds while it holds the mutex:
    from then on every call on every execution unwinds. *)
Lemma early_finish_poisons :
  ∃ s, rtc step initial s ∧ ∀ s', rtc step s s' → ∀ id,
    (handle_send id (inner s')).1 = Unwound ∧ (shutdown id (inner s')).1 = Unwound ∧
    (state id (inner s')).1 = Unwound ∧ (spawn_insert id (inner s')).1 = Unwound.
Proof.
  exists (mk_system (mk_inner ∅ ∅ false true) {[1%positive := mk_task false false]}). split.
  - eapply rtc_l; [by apply (step_spawn 1%positive)|].
    eapply rtc_l; [by apply (step_finish 1%positive false false)|]. reflexivity.
  - intros s' Hs'. assert (poisoned (inner s') = true) as Hp.
    { remember (mk_system (mk_inner ∅ ∅ false true) {[1%positive := mk_task false false]}) as s eqn:Hs.
      assert (poisoned (inner s) = true) as H0 by (by subst). clear Hs.
      induction Hs'; [done|]. eauto using poisoned_step. }
    intros id. unfold handle_send, shutdown, state, spawn_insert, locked. by rewrite Hp.
Qed.

(** Fail-closed mode rejects [send] and [spawn], but not the handle of a running execution. *)
Lemma handle_ignores_fail_closed id s :
  poisoned s = false → units s !! id = Some Active → default 0 (queued s !! id) < CAPACITY →
  (send id (set_fail_closed true s)).1 = Returned (Err (mk_send_error id SendClosed)) ∧
  spawn_admits (set_fail_closed true s) = Err SpawnClosed ∧
  (handle_send id (set_fail_closed true s)).1 = Returned (Ok ()).
Proof.
  intros Hp Hu Hq. unfold send, spawn_admits, handle_send, locked, try_send, set_fail_closed. cbn. rewrite Hp, Hu.
  split_and!; [done..|]. by rewrite decide_True.
Qed.

Lemma executions_follow_lifecycle_witness : ∃ s,
  rtc step initial s ∧ poisoned (inner s) = false ∧
  ∃ u, units (inner s) !! 1%positive = Some u ∧ (u = Terminated ∨ u = Failed).
Proof.
  assert (∃ s, rtc step initial s ∧ poisoned (inner s) = false ∧ tasks s !! 1%positive = Some (mk_task true false))
    as (s & Hr & Hp & Ht).
  { eexists. split; [|shelve]. eapply rtc_l; [by apply (step_spawn 1%positive)|].
    eapply rtc_l; [by apply (step_insert 1%positive true)|]. eapply rtc_l; [apply (step_send 1%positive)|].
    eapply rtc_l; [apply (step_shutdown 1%positive)|].
    eapply rtc_l; [by apply (step_finish 1%positive true false)|]. reflexivity. Unshelve. by split. }
  exists s. split; [exact Hr|]. split; [exact Hp|].
  exact (proj1 (proj2 (proj2 (executions_follow_lifecycle s s Hr (rtc_refl _ _)))) Hp 1%positive false Ht).
Defined.
End Tokio.

(** ** The runtime of crates/runtime *)
Module Platform.
Definition CAPACITY : nat := 64.

(** [ExecutionUnit]: the state, and the channel, whose receiver is dropped when the call that
    spawned the execution returns. *)
Record Unit_ := mk_unit { unit_state : ExecutionState; receiver : bool; in_channel : nat }.
Abbreviation Inner := (gmap ExecutionId Unit_).

Definition insert_unit (id : ExecutionId) (s : Inner) : Inner := <[id := mk_unit Active true 0]> s.
(** [_receiver] goes out of scope. *)
Definition spawn_returns (id : ExecutionId) (s : Inner) : Inner :=
  alter (λ u, mk_unit (unit_state u) false 0) id s.

Definition try_send (id : ExecutionId) (u : Unit_) (s : Inner) : bool * Inner :=
  if receiver u then
    if decide (in_channel u < CAPACITY)
    then (true, <[id := mk_unit (unit_state u) true (S (in_channel u))]> s) else (false, s)
  else (false, s).

(** The send of a [RuntimeHandle] drops the answer of the channel. *)
Definition send_fn (id : ExecutionId) (s : Inner) : result SendError unit * Inner :=
  match s !! id with
  | None => (Err (mk_send_error id NotFound), s)
  | Some u => match unit_state u with
              | Active => (Ok (), (try_send id u s).2)
              | _ => (Err (mk_send_error id SendClosed), s)
              end
  end.
Definition send_message (id : ExecutionId) (s : Inner) : result SendError unit * Inner :=
  match s !! id with
  | None => (Err (mk_send_error id NotFound), s)
  | Some u => match unit_state u with
              | Active => let '(sent, s) := try_send id u s in
                          (if (sent : bool) then Ok () else Err (mk_send_error id SendClosed), s)
              | _ => (Err (mk_send_error id SendClosed), s)
              end
  end.
Definition shutdown_execution (id : ExecutionId) (s : Inner) : Inner :=
  match s !! id with
  | Some u => if decide (unit_state u = Active) then <[id := mk_unit Draining (receiver u) (in_channel u)]> s else s
  | None => s
  end.
Definition state (id : ExecutionId) (s : Inner) : option ExecutionState := unit_state <$> s !! id.

(** The sections of the calls; the end of a task touches nothing.  [send_message] clones the
    sender under the lock and sends after it, so the send is also a step of its own, whatever
    the unit has become. *)
Inductive step : Inner → Inner → Prop :=
| step_insert id s : s !! id = None → step s (insert_unit id s)
| step_return id s : step s (spawn_returns id s)
| step_send_fn id s : step s (send_fn id s).2
| step_send_message id s : step s (send_message id s).2
| step_late_send id u s : s !! id = Some u → step s (try_send id u s).2
| step_shutdown id s : step s (shutdown_execution id s)
| step_task_ends (id : ExecutionId) s : step s s.

(** The call that spawned [id] has returned. *)
Definition returned (id : ExecutionId) (s : Inner) : Prop :=
  ∃ u, s !! id = Some u ∧ receiver u = false ∧ (unit_state u = Active ∨ unit_state u = Draining).
Definition only_open (s : Inner) : Prop := ∀ id u, s !! id = Some u → unit_state u = Active ∨ unit_state u = Draining.

Lemma only_open_insert id u s : only_open s → unit_state u = Active ∨ unit_state u = Draining → only_open (<[id := u]> s).
Proof. intros Hs Hu id' u' Hl. insert_cases Hl; eauto. Qed.

Lemma try_send_open id u s : s !! id = Some u → only_open s → only_open (try_send id u s).2.
Proof.
  intros Hu Hs. unfold try_send. destruct (receiver u); [|done]. case_decide; [|done].
  apply only_open_insert; [done|]. exact (Hs id u Hu).
Qed.

Lemma open_step s s' : step s s' → only_open s → only_open s'.
Proof.
  intros Hst Hs. destruct Hst as [id s _|id s|id s|id s|id u s Hu|id s|id s]; [| | | | | |done].
  - apply only_open_insert; auto.
  - intros id' u. unfold spawn_returns. rewrite lookup_alter_Some. intros [(-> & u0 & Hu & ->)|[_ Hu]]; exact (Hs _ _ Hu).
  - unfold send_fn. destruct (s !! id) as [u|] eqn:Hu; [|done]. case_match; [|done..]. by apply try_send_open.
  - unfold send_message. destruct (s !! id) as [u|] eqn:Hu; [|done]. case_match; [|done..].
    pose proof (try_send_open id u s Hu Hs). by destruct (try_send id u s).
  - by apply try_send_open.
  - unfold shutdown_execution. destruct (s !! id) as [u|] eqn:Hu; [|done]. case_decide; [|done].
    apply only_open_insert; auto.
Qed.

(** No execution ever reaches a terminal state, and once [spawn] has returned no message is
    delivered to it: [send] answers that it is closed, and the handle answers [Ok] to a
    message that is gone. *)
Lemma nothing_is_delivered s id :
  rtc step ∅ s →
  (∀ st, state id s = Some st → st = Active ∨ st = Draining) ∧
  (∀ u, s !! id = Some u → receiver u = false →
     send_message id s = (Err (mk_send_error id SendClosed), s) ∧
     (unit_state u = Active → send_fn id s = (Ok (), s))).
Proof.
  intros Hr. assert (only_open s) as Hs.
  { assert (only_open ∅) as H0 by (by intros ? ? ?%lookup_empty_Some). induction Hr; eauto using open_step. }
  split.
  - intros st Hst. unfold state in Hst. destruct (s !! id) as [u|] eqn:Hu; [|done]. injection Hst as <-. eauto.
  - intros u Hu Hrec. unfold send_message, send_fn, try_send. rewrite Hu, Hrec. split.
    + by destruct (unit_state u).
    + by intros ->.
Qed.
End Platform.

(** ** Composed effects *)
Section interpreter.
Context {Eff S X : Type} (interpret : Eff → S → result X unit * S).

(** [interpret_composed]: in order, up to the first error. *)
Fixpoint interpret_composed (children : list Eff) (s : S) : result X unit * S :=
  match children with
  | [] => (Ok (), s)
  | child :: children =>
      match interpret child s with (Ok _, s) => interpret_composed children s | (Err e, s) => (Err e, s) end
  end.

(** It stops exactly at the first child that fails. *)
Lemma interpret_composed_prefix children s e s' :
  interpret_composed children s = (Err e, s') →
  ∃ done child rest s1, children = done ++ child :: rest ∧ interpret_composed done s = (Ok (), s1) ∧
    interpret child s1 = (Err e, s').
Proof.
  revert s. induction children as [|c children IH]; intros s; cbn [interpret_composed]; [done|].
  destruct (interpret c s) as [[[]|e0] s1] eqn:Hc.
  - intros (d & child & rest & s2 & -> & Hd & He)%IH. exists (c :: d), child, rest, s2.
    cbn [interpret_composed]. by rewrite Hc.
  - intros [= -> ->]. by exists [], c, children, s.
Qed.
End interpreter.
