(* ===== verification/EntityRuntime.v ===== *)
(** * The entity runtime

    crates/persistent-entity: builder.rs ([EntityRuntimeBuilder]), runtime.rs
    ([RuntimeConfig], [EntityRuntime]), the construction of a reference and [send_command] of
    entity_ref_tokio.rs; the configurations of crates/persistence and crates/transport,
    config.rs.

    A host object is its allocation; an object [build] makes is a constructor, except the
    registry, which is shared and so has a location.  A duration is its nanoseconds.
    Several runtimes may share a registry: the registries are a store, the spawned actors a
    list of what each was spawned with; what an actor does is in Session.v. *)

From coqutil Require Import Datatypes.RecordSetters.
From S2P Require Import Prelude Composition Jwt RetryPolicy Lifecycle Mailbox Registry ActivationScheduler.
Import DoubleBraceUpdate.

(** ** Configurations *)
Record RuntimeConfig := mk_config {
  mailbox_capacity : nat;
  concurrency_budget : Z;
  passivation_timeout_secs : Z;
  single_tenant_mode : bool;
  tenant_id : string;
}.
Definition RuntimeConfig_default : RuntimeConfig := mk_config 1000 10000 300 true "".

Definition from_secs (s : Z) : Z := s * 10 ^ 9.
Definition config_passivation_timeout (c : RuntimeConfig) : Z := from_secs (passivation_timeout_secs c).

Definition non_zero (field : string) : ConfigError := ConfigInvalid field "must be non-zero".

Definition RuntimeConfig_validate (c : RuntimeConfig) : result ConfigError () :=
  if decide (mailbox_capacity c = 0) then Err (non_zero "mailbox_capacity")
  else if decide (concurrency_budget c = 0)%Z then Err (non_zero "concurrency_budget")
  else if negb (single_tenant_mode c) && is_blank (tenant_id c)
  then Err (ConfigInvalid "tenant_id" "must be non-empty when single_tenant_mode is false")
  else Ok ().

Record DatabaseConfig := mk_database { url : string; max_connections : Z }.
Definition DatabaseConfig_default : DatabaseConfig := mk_database "postgres://localhost:5432/ego" 10.
Definition DatabaseConfig_validate (c : DatabaseConfig) : result ConfigError () :=
  if decide (url c = "") then Err (not_empty "url")
  else if decide (max_connections c = 0)%Z then Err (non_zero "max_connections")
  else Ok ().

Record GrpcServerConfig := mk_grpc { bind_address : string; port : Z }.
Definition GrpcServerConfig_default : GrpcServerConfig := mk_grpc "0.0.0.0" 50051.
Definition GrpcServerConfig_validate (c : GrpcServerConfig) : result ConfigError () :=
  if decide (bind_address c = "") then Err (not_empty "bind_address")
  else if decide (port c = 0)%Z then Err (non_zero "port")
  else Ok ().

(** [ceil_secs]: [saturating_add] on the whole seconds. *)
Definition ceil_secs (d : Z) : Z :=
  if decide (0 < d `mod` 10 ^ 9)%Z then Z.min (d `div` 10 ^ 9 + 1) u64_max else d `div` 10 ^ 9.

(** ** The runtime *)
Inductive PublisherObject := HostPublisher (p : Ptr) | NoopPublisher.
Inductive EventStoreObject := HostEventStore (s : Store) | InMemoryEventStore.
Inductive SnapshotStoreObject := HostSnapshotStore (s : Store) | InMemorySnapshotStore.
(** [PersistenceFacade::with_stores] *)
Record PersistenceFacade := mk_facade { event_store : EventStoreObject; snapshot_store : SnapshotStoreObject }.

(** [Scheduler::new], and the two ends of the bus, of which its capacity is kept. *)
Record Scheduler := mk_scheduler {
  scheduler_registry : Ptr;
  scheduler_policy : RoundRobinPolicy;
  scheduler_bus : nat;
}.

Record EntityRuntime := mk_runtime {
  registry : Ptr;
  scheduler : Scheduler;
  persistence : PersistenceFacade;
  publisher : PublisherObject;
  config : RuntimeConfig;
  snapshot_strategy : SnapshotStrategy;
  event_sender : nat;
  effect_acceptor : option Ptr;
  observability : option Ptr;
  passivation_timeout : Z;
}.

Definition new_with_passivation_timeout (r : Ptr) (s : Scheduler) (p : PersistenceFacade)
    (pub : PublisherObject) (c : RuntimeConfig) (st : SnapshotStrategy) (sender : nat)
    (acceptor : option Ptr) (timeout : Z) : EntityRuntime :=
  mk_runtime r s p pub c st sender acceptor None timeout.
Definition EntityRuntime_new (r : Ptr) (s : Scheduler) (p : PersistenceFacade)
    (pub : PublisherObject) (c : RuntimeConfig) (st : SnapshotStrategy) (sender : nat)
    (acceptor : option Ptr) : EntityRuntime :=
  new_with_passivation_timeout r s p pub c st sender acceptor (config_passivation_timeout c).
Definition runtime_with_effect_acceptor (a : Ptr) (rt : EntityRuntime) : EntityRuntime :=
  rt {{ effect_acceptor := Some a }}.
Definition runtime_with_observability (o : Ptr) (rt : EntityRuntime) : EntityRuntime :=
  rt {{ observability := Some o }}.

(** ** The builder *)
Record EntityRuntimeBuilder := mk_entity_builder {
  b_mailbox_capacity : nat;
  b_concurrency_budget : Z;
  b_passivation_timeout : Z;
  b_publisher : option Ptr;
  b_snapshot_strategy : option SnapshotStrategy;
  b_single_tenant_mode : bool;
  b_tenant_id : string;
  b_registry : option Ptr;
  b_event_bus_capacity : nat;
  b_event_store : option Store;
  b_snapshot_store : option Store;
  b_effect_acceptor : option Ptr;
  b_observability : option Ptr;
  b_profile : Profile;
}.

Definition EntityRuntimeBuilder_new : EntityRuntimeBuilder :=
  mk_entity_builder 1000 10000 (from_secs 300) None None true "" None 4096 None None None None Dev.

(** The calls that configure a builder. *)
Inductive Setter :=
| SMailboxCapacity (cap : nat) | SConcurrencyBudget (budget : Z) | SPassivationTimeout (timeout : Z)
| SSnapshotStrategy (s : SnapshotStrategy) | SPublisher (p : Ptr) | SSingleTenant (enabled : bool)
| STenantId (t : string) | SRegistry (r : Ptr) | SEventBusCapacity (capacity : nat)
| SEventStore (s : Store) | SConfig (c : RuntimeConfig) | SSnapshotStore (s : Store)
| SEffectAcceptor (a : Ptr) | SObservability (o : Ptr) | SProfile (p : Profile).

Definition with_config (c : RuntimeConfig) (b : EntityRuntimeBuilder) : EntityRuntimeBuilder :=
  b {{ b_mailbox_capacity := mailbox_capacity c; b_concurrency_budget := concurrency_budget c;
       b_passivation_timeout := from_secs (passivation_timeout_secs c);
       b_single_tenant_mode := single_tenant_mode c; b_tenant_id := tenant_id c }}.

Definition set (s : Setter) (b : EntityRuntimeBuilder) : EntityRuntimeBuilder :=
  match s with
  | SMailboxCapacity cap => b {{ b_mailbox_capacity := cap }}
  | SConcurrencyBudget budget => b {{ b_concurrency_budget := budget }}
  | SPassivationTimeout timeout => b {{ b_passivation_timeout := timeout }}
  | SSnapshotStrategy s => b {{ b_snapshot_strategy := Some s }}
  | SPublisher p => b {{ b_publisher := Some p }}
  | SSingleTenant enabled => b {{ b_single_tenant_mode := enabled }}
  | STenantId t => b {{ b_tenant_id := t }}
  | SRegistry r => b {{ b_registry := Some r }}
  | SEventBusCapacity capacity => b {{ b_event_bus_capacity := capacity }}
  | SEventStore s => b {{ b_event_store := Some s }}
  | SConfig c => with_config c b
  | SSnapshotStore s => b {{ b_snapshot_store := Some s }}
  | SEffectAcceptor a => b {{ b_effect_acceptor := Some a }}
  | SObservability o => b {{ b_observability := Some o }}
  | SProfile p => b {{ b_profile := p }}
  end.

(** [from_value], after the host's deserialiser. *)
Definition from_value {X} (c : result X RuntimeConfig) : result X EntityRuntimeBuilder :=
  match c with Ok c => Ok (with_config c EntityRuntimeBuilder_new) | Err e => Err e end.

Definition validate_persistence (b : EntityRuntimeBuilder) : result PersistenceCompositionError () :=
  _ ← require_durably_configured (b_profile b) (from_option is_durable false (b_event_store b))
        "event store" "EntityRuntimeBuilder::with_event_store(store)";
  require_durably_configured (b_profile b) (from_option is_durable false (b_snapshot_store b))
    "snapshot store" "EntityRuntimeBuilder::with_snapshot_store(store)".

Definition not_configured_display (e : PersistenceCompositionError) : string :=
  let 'NotConfigured capability fix_ := e in
  "Profile::Production is declared but no " +:+ capability +:+ " is configured — a "
  +:+ "production composition must never fall back to volatile storage. "
  +:+ "Configure one with " +:+ fix_ +:+ ", or state that this composition is not "
  +:+ "production with .profile(Profile::Dev)".

(** [mpsc::channel] panics on a buffer of zero. *)
Definition event_bus_channel_with_config (capacity : nat) : Panics nat :=
  if decide (capacity = 0) then Unwinds "mpsc bounded channel requires buffer > 0" else Returns capacity.

(** [fresh] is the location of [EntityRegistry::new()]. *)
Definition build (fresh : Ptr) (b : EntityRuntimeBuilder) : Panics EntityRuntime :=
  match validate_persistence b with
  | Err err => Unwinds (not_configured_display err)
  | Ok _ =>
      let publisher := from_option HostPublisher NoopPublisher (b_publisher b) in
      let snapshot_strategy := default (PeriodicSnapshotStrategy 100) (b_snapshot_strategy b) in
      let config := mk_config (b_mailbox_capacity b) (b_concurrency_budget b)
                      (ceil_secs (b_passivation_timeout b)) (b_single_tenant_mode b) (b_tenant_id b) in
      let persistence := mk_facade (from_option HostEventStore InMemoryEventStore (b_event_store b))
                           (from_option HostSnapshotStore InMemorySnapshotStore (b_snapshot_store b)) in
      let registry := default fresh (b_registry b) in
      bus ← event_bus_channel_with_config (b_event_bus_capacity b);
      let runtime := new_with_passivation_timeout registry
                       (mk_scheduler registry (mk_round_robin 100 10) bus) persistence publisher config
                       snapshot_strategy bus (b_effect_acceptor b) (b_passivation_timeout b) in
      Returns match b_observability b with
              | Some o => runtime_with_observability o runtime
              | None => runtime
              end
  end.

Definition try_build (fresh : Ptr) (b : EntityRuntimeBuilder) :
    Panics (result PersistenceCompositionError EntityRuntime) :=
  match validate_persistence b with
  | Err err => Returns (Err err)
  | Ok _ => rt ← build fresh b; Returns (Ok rt)
  end.

(** ** References *)
(** [Arc<BoundedMailbox<ActorEnvelope<C>>>] behind [Any]: the [TypeId] of [C], the capacity
    and the allocation. *)
Record Erased := mk_erased { command_type : string; box_capacity : nat; box_id : nat }.

(** What a reference passes to the actor it spawns. *)
Record Wiring := mk_wiring {
  w_persistence : PersistenceFacade;
  w_publisher : PublisherObject;
  w_snapshot_strategy : SnapshotStrategy;
  w_handler : Ptr;
  w_event_sender : nat;
  w_timeout : Z;
  w_effect_acceptor : option Ptr;
  w_observability : option Ptr;
}.

(** A spawned [EntityActor] with its [TeardownGuard]. *)
Record Spawned := mk_spawned {
  actor_triple : EntityTriple;
  actor_mailbox : Erased;
  actor_registry : Ptr;
  actor_epoch : Z;
  actor_tx : nat;
  actor_wiring : Wiring;
}.

(** [boxes] counts the mailboxes that were made; [actors] are those whose guard lives. *)
Record World := mk_world {
  registries : gmap Ptr (EntityRegistry Erased);
  cells : list EntityState;
  boxes : nat;
  actors : list Spawned;
}.
Definition empty_world : World := mk_world ∅ [] 0 [].

Record TokioEntityRef := mk_ref { ref_entity_id : EntityTriple; ref_mailbox : Erased }.

Definition routing_type_mismatch (triple : EntityTriple) : string :=
  "routing type mismatch for triple " +:+ aggregate_id triple.

Section references.
(** Whether debug assertions are compiled in, and the text of an owner mismatch. *)
Context (debug_assertions : bool) (mismatch : EntityTriple → EntityTriple → string).

(** The closure [downcast] of [TokioEntityRef::new]. *)
Definition downcast_mailbox (c : string) (triple : EntityTriple) (erased : Erased) :
    Panics (result EntityError Erased) :=
  if decide (command_type erased = c) then Returns (Ok erased)
  else if debug_assertions then Unwinds (routing_type_mismatch triple)
  else Returns (Err (Internal (routing_type_mismatch triple))).

(** [ensure_owner_matches], with its assertion. *)
Definition owner_matches (triple owner : EntityTriple) : Panics (result EntityError ()) :=
  if debug_assertions && bool_decide (owner ≠ triple) then Unwinds (mismatch triple owner)
  else Returns (ensure_owner_matches mismatch triple owner).

Definition TokioEntityRef_new (c : string) (triple : EntityTriple) (r : Ptr) (wiring : Wiring)
    (capacity : nat) (w : World) : Panics (result EntityError TokioEntityRef) * World :=
  let make_mailbox := λ _ : (), mk_erased c capacity (boxes w) in
  match lookup_or_insert triple make_mailbox (default registry_new (registries w !! r)) (cells w) with
  | (Existing erased owner, _, _) =>
      (match owner_matches triple owner with
       | Unwinds m => Unwinds m
       | Returns (Err e) => Returns (Err e)
       | Returns (Ok _) =>
           match downcast_mailbox c triple erased with
           | Unwinds m => Unwinds m
           | Returns (Err e) => Returns (Err e)
           | Returns (Ok mailbox) => Returns (Ok (mk_ref triple mailbox))
           end
       end, w)
  | (Inserted erased epoch tx, reg, cs) =>
      let routed := mk_world (<[r := reg]> (registries w)) cs (S (boxes w)) (actors w) in
      match downcast_mailbox c triple erased with
      | Returns (Ok mailbox) =>
          (Returns (Ok (mk_ref triple mailbox)),
           routed {{ actors := mk_spawned triple mailbox r epoch tx wiring :: actors w }})
      | _ => (Unwinds "freshly-inserted mailbox always matches its own type", routed)
      end
  end.

Definition triple_of (rt : EntityRuntime) (entity_type entity_id : string) : EntityTriple :=
  let tenant := if single_tenant_mode (config rt) then "default" else tenant_id (config rt) in
  mk_triple tenant entity_type entity_id.

Definition wiring_of (rt : EntityRuntime) (handler : Ptr) : Wiring :=
  mk_wiring (persistence rt) (publisher rt) (snapshot_strategy rt) handler (event_sender rt)
    (passivation_timeout rt) (effect_acceptor rt) (observability rt).

Definition entity_ref (rt : EntityRuntime) (c entity_type entity_id : string) (handler : Ptr) (w : World) :
    Panics (result EntityError TokioEntityRef) * World :=
  TokioEntityRef_new c (triple_of rt entity_type entity_id) (registry rt) (wiring_of rt handler)
    (mailbox_capacity (config rt)) w.

(** *** Runtimes, references and actors together

    An actor publishes its state, records a passivation and removes its own entry; then its
    task ends and the guard is dropped. *)
Inductive step : World → World → Prop :=
| step_registry r w :
    registries w !! r = None → step w (w {{ registries ::= <[r := registry_new]> }})
| step_entity_ref rt c ty id handler w : step w (entity_ref rt c ty id handler w).2
| step_publish a st w :
    a ∈ actors w → step w (w {{ cells ::= <[actor_tx a := st]> }})
| step_passivated a version it w :
    a ∈ actors w →
    step w (w {{ registries ::= alter (mark_passivated (actor_triple a) version it) (actor_registry a) }})
| step_deactivate a w :
    a ∈ actors w →
    step w (w {{ registries ::= alter (deactivate_if_mine (actor_triple a) (actor_epoch a)) (actor_registry a) }})
| step_drop l1 a l2 w :
    actors w = l1 ++ a :: l2 →
    step w (mk_world
      (alter (deactivate_if_mine (actor_triple a) (actor_epoch a)) (actor_registry a) (registries w))
      (teardown (M:=Erased) (actor_triple a) (actor_epoch a) (actor_tx a) registry_new (cells w)).2
      (boxes w) (l1 ++ l2)).

(** *** The invariant *)
(** The entry of [t] in the registry [r] is the activation of [a]. *)
Definition routes_to (r : Ptr) (t : EntityTriple) (en : ActiveEntry Erased) (a : Spawned) : Prop :=
  actor_registry a = r ∧ actor_triple a = t ∧ actor_mailbox a = entry_mailbox en ∧ actor_epoch a = entry_epoch en.

Record wf (w : World) : Prop := mk_wf {
  wf_owner : ∀ r reg t en, registries w !! r = Some reg → active reg !! t = Some en →
    entry_triple en = t ∧ ∃ a, a ∈ actors w ∧ routes_to r t en a;
  wf_boxes : ∀ a, a ∈ actors w → box_id (actor_mailbox a) < boxes w;
  wf_unique : NoDup (box_id ∘ actor_mailbox <$> actors w);
}.

(** The registry [r], with what an [Arc] that is kept cannot lose. *)
Abbreviation registry_at r w := (default registry_new (registries w !! r)).

(** The entries of a world come from another one. *)
Definition entries_within (w' w : World) : Prop :=
  ∀ r reg' t en, registries w' !! r = Some reg' → active reg' !! t = Some en →
    ∃ reg, registries w !! r = Some reg ∧ active reg !! t = Some en.

Lemma wf_within w w' :
  entries_within w' w → boxes w' = boxes w → actors w' = actors w → wf w → wf w'.
Proof.
  intros Hin Hb Ha [Ho Hx Hu]. split; rewrite ?Ha, ?Hb; [|done..].
  intros r reg' t en Hr Ht. destruct (Hin _ _ _ _ Hr Ht) as (reg & ? & ?). eauto.
Qed.

Lemma deactivate_active t e t' (reg : EntityRegistry Erased) en :
  active (deactivate_if_mine t e reg) !! t' = Some en →
  active reg !! t' = Some en ∧ (t' = t → entry_epoch en ≠ e).
Proof.
  unfold deactivate_if_mine. destruct (active reg !! t) as [en0|] eqn:H0; [case_decide as He|]; cbn.
  - intros Hl. delete_cases Hl. done.
  - intros Hl. split; [done|]. intros ->. congruence.
  - intros Hl. split; [done|]. intros ->. congruence.
Qed.

Lemma within_alter f r w (ws : World) :
  (∀ reg t en, active (f reg) !! t = Some en → active reg !! t = Some en) →
  registries ws = alter f r (registries w) → entries_within ws w.
Proof.
  intros Hf Hws r' reg' t en. rewrite Hws, lookup_alter_Some. intros [(-> & reg & Hr & ->)|[_ Hr]] Ht; eauto.
Qed.

(** The cases of a reference: the entry that is found, or a fresh actor. *)
Lemma entity_ref_cases rt c ty id h w :
  let t := triple_of rt ty id in
  (∃ en, active (registry_at (registry rt) w) !! t = Some en ∧
     (entity_ref rt c ty id h w).2 = w ∧
     (entity_ref rt c ty id h w).1 =
       match owner_matches t (entry_triple en) with
       | Unwinds m => Unwinds m
       | Returns (Err e) => Returns (Err e)
       | Returns (Ok _) =>
           match downcast_mailbox c t (entry_mailbox en) with
           | Unwinds m => Unwinds m
           | Returns (Err e) => Returns (Err e)
           | Returns (Ok mailbox) => Returns (Ok (mk_ref t mailbox))
           end
       end) ∨
  (active (registry_at (registry rt) w) !! t = None ∧
   let box := mk_erased c (mailbox_capacity (config rt)) (boxes w) in
   let reg := registry_at (registry rt) w in
   entity_ref rt c ty id h w =
     (Returns (Ok (mk_ref t box)),
      mk_world (<[registry rt := mk_registry
                   (<[t := mk_entry box (length (cells w)) (next_epoch reg) t]> (active reg))
                   (u64_wrapping_succ (next_epoch reg)) (passivated_entities reg)]> (registries w))
        (cells w ++ [Recovering]) (S (boxes w))
        (mk_spawned t box (registry rt) (next_epoch reg) (length (cells w)) (wiring_of rt h) :: actors w))).
Proof.
  cbn zeta. unfold entity_ref, TokioEntityRef_new, lookup_or_insert.
  destruct (active (registry_at (registry rt) w) !! triple_of rt ty id) as [en|] eqn:He.
  - left. by exists en.
  - right. split; [done|]. unfold downcast_mailbox at 1. cbn [command_type]. by rewrite decide_True.
Qed.

Lemma wf_entity_ref rt c ty id h w : wf w → wf (entity_ref rt c ty id h w).2.
Proof.
  intros Hwf. destruct (entity_ref_cases rt c ty id h w) as [(en & _ & -> & _)|[Hnone Href]]; [done|].
  cbn zeta in Href. rewrite Href. cbn [snd]. destruct Hwf as [Ho Hx Hu]. split; cbn [registries boxes actors].
  - intros r reg t en Hr Ht.
    assert ((r = registry rt ∧ t = triple_of rt ty id ∧
             en = mk_entry (mk_erased c (mailbox_capacity (config rt)) (boxes w)) (length (cells w))
                    (next_epoch (registry_at (registry rt) w)) t) ∨
            ∃ reg0, registries w !! r = Some reg0 ∧ active reg0 !! t = Some en) as [(-> & -> & ->)|(reg0 & Hr0 & Ht0)].
    { insert_cases Hr; [|eauto]. cbn in Ht. insert_cases Ht; [by left|]. right.
      destruct (registries w !! registry rt) as [reg0|]; [eauto|]. cbn in Ht. by rewrite lookup_empty in Ht. }
    + split; [done|]. eexists. split; [left|]. done.
    + destruct (Ho _ _ _ _ Hr0 Ht0) as (? & a & Ha & ?). split; [done|]. exists a. split; [by right|done].
  - intros a Ha. apply elem_of_cons in Ha as [->|Ha]; cbn; [lia|]. specialize (Hx a Ha). lia.
  - cbn. constructor; [|done]. intros (a & Heq & Ha)%list_elem_of_fmap. specialize (Hx a Ha). cbn in Heq. lia.
Qed.

Lemma world_step w w' : step w w' → wf w → wf w'.
Proof.
  intros Hst Hwf. destruct Hst as [r w Hr|rt c ty id h w|a st w Ha|a v it w Ha|a w Ha|l1 a l2 w Hl].
  - revert Hwf. apply wf_within; [|done..]. intros r' reg' t en Hr' Ht. cbn in Hr'. insert_cases Hr'. eauto.
  - by apply wf_entity_ref.
  - revert Hwf. apply wf_within; [|done..]. intros r reg t en ? ?. eauto.
  - revert Hwf. apply wf_within; [|done..]. by eapply within_alter; [|reflexivity].
  - revert Hwf. apply wf_within; [|done..]. eapply within_alter; [|reflexivity].
    by intros reg t en [? _]%deactivate_active.
  - destruct Hwf as [Ho Hx Hu]. split; cbn [registries boxes actors].
    + intros r reg t en Hr Ht. rewrite lookup_alter_Some in Hr.
      assert (∃ reg0, registries w !! r = Some reg0 ∧ active reg0 !! t = Some en ∧ ¬ routes_to r t en a)
        as (reg0 & Hr0 & Ht0 & Hna).
      { destruct Hr as [(<- & reg0 & Hr0 & ->)|[Hne Hr0]].
        - apply deactivate_active in Ht as [Ht Hne]. exists reg0. split_and!; [done..|].
          intros (_ & Heq & _ & He). by apply (Hne (eq_sym Heq)).
        - exists reg. split_and!; [done..|]. intros (? & _). congruence. }
      destruct (Ho _ _ _ _ Hr0 Ht0) as (? & a' & Ha' & Hroute). split; [done|]. exists a'. split; [|done].
      rewrite Hl in Ha'. rewrite elem_of_app, elem_of_cons in Ha'. rewrite elem_of_app.
      destruct Ha' as [?|[->|?]]; [by left|done|by right].
    + intros a' Ha'. apply Hx. rewrite Hl. rewrite elem_of_app in Ha'. rewrite elem_of_app, elem_of_cons. tauto.
    + rewrite Hl, fmap_app, fmap_cons in Hu. rewrite fmap_app. rewrite <-Permutation_middle in Hu. by apply NoDup_cons in Hu as [_ ?].
Qed.

Lemma world_reachable w : rtc step empty_world w → wf w.
Proof.
  intros Hr. assert (wf empty_world) as H0.
  { split; cbn; [intros r reg t en Hr0; by rewrite lookup_empty in Hr0|by intros a ?%elem_of_nil|constructor]. }
  induction Hr; eauto using world_step.
Qed.

(** Two actors never share a mailbox. *)
Lemma mailbox_identifies_actor w a a' :
  wf w → a ∈ actors w → a' ∈ actors w → actor_mailbox a = actor_mailbox a' → a = a'.
Proof.
  intros [_ _ Hu] (i & Hi)%list_elem_of_lookup (j & Hj)%list_elem_of_lookup Heq.
  assert (i = j) as ->; [|congruence]. eapply (NoDup_lookup _ i j (box_id (actor_mailbox a)) Hu).
  - by rewrite list_lookup_fmap, Hi.
  - rewrite list_lookup_fmap, Hj. cbn. by rewrite Heq.
Qed.

(** C35: However runtimes, references and actors interleave, a reference reaches exactly one
    actor, and that actor was spawned for the reference's own tenant, type and identifier in
    the runtime's registry and takes its commands: either the one that is already live,
    and then nothing changes, or one spawned by this very call with the runtime's whole
    wiring.  A call fails only if the live actor takes other commands, and with debug
    assertions it unwinds then; it never fails for a mismatched owner. *)
Theorem references_reach_their_own_actor rt c ty id h w :
  rtc step empty_world w →
  let t := triple_of rt ty id in
  let w' := (entity_ref rt c ty id h w).2 in
  let mine a := actor_triple a = t ∧ actor_registry a = registry rt in
  match (entity_ref rt c ty id h w).1 with
  | Returns (Ok ref) =>
      ref_entity_id ref = t ∧ command_type (ref_mailbox ref) = c ∧
      ∃ a, a ∈ actors w' ∧ actor_mailbox a = ref_mailbox ref ∧ mine a ∧
        (∀ a', a' ∈ actors w' → actor_mailbox a' = ref_mailbox ref → a' = a) ∧
        (w' = w ∨
         (a ∉ actors w) ∧ actors w' = a :: actors w ∧ actor_wiring a = wiring_of rt h ∧
         box_capacity (actor_mailbox a) = mailbox_capacity (config rt))
  | Returns (Err e) =>
      debug_assertions = false ∧ e = Internal (routing_type_mismatch t) ∧ w' = w ∧
      ∃ a, a ∈ actors w ∧ mine a ∧ command_type (actor_mailbox a) ≠ c
  | Unwinds m =>
      debug_assertions = true ∧ m = routing_type_mismatch t ∧ w' = w ∧
      ∃ a, a ∈ actors w ∧ mine a ∧ command_type (actor_mailbox a) ≠ c
  end.
Proof.
  intros Hr. cbn zeta. pose proof (world_reachable w Hr) as Hwf. pose proof (wf_entity_ref rt c ty id h w Hwf) as Hwf'.
  destruct (entity_ref_cases rt c ty id h w) as [(en & Hen & Hw & Hres)|[Hnone Href]].
  - rewrite Hw, Hres in *. destruct (registries w !! registry rt) as [reg|] eqn:Hreg;
      [|by cbn in Hen; rewrite lookup_empty in Hen].
    destruct (wf_owner _ Hwf _ _ _ _ Hreg Hen) as (Howner & a & Ha & Hra & Hta & Hma & _).
    unfold owner_matches, ensure_owner_matches. rewrite Howner, bool_decide_false, andb_false_r, decide_False by tauto.
    unfold downcast_mailbox. case_decide as Hc; [|destruct debug_assertions].
    + cbn. split_and!; [done..|]. exists a. split_and!; [done..| |by left].
      intros a' Ha' Hm. by apply (mailbox_identifies_actor w); [..|congruence].
    + split_and!; [done..|]. exists a. rewrite Hma. done.
    + split_and!; [done..|]. exists a. rewrite Hma. done.
  - cbn zeta in Href. rewrite Href in *. cbn [fst snd actors ref_entity_id ref_mailbox command_type] in *.
    split_and!; [done..|]. eexists. split; [by left|]. split; [done|]. split; [done|]. split.
    + intros a' Ha' Hm. eapply mailbox_identifies_actor; [exact Hwf'|exact Ha'|by left|exact Hm].
    + right. split_and!; [|done..]. intros Hin. pose proof (wf_boxes _ Hwf _ Hin) as Hlt. cbn in Hlt. lia.
Qed.

(** A second call for the same triple, by any runtime that shares the registry, gets the same
    mailbox and spawns nothing. *)
Lemma same_triple_same_mailbox rt rt' c ty id ty' id' h h' w ref :
  rtc step empty_world w →
  registry rt' = registry rt → triple_of rt' ty' id' = triple_of rt ty id →
  (entity_ref rt c ty id h w).1 = Returns (Ok ref) →
  let w' := (entity_ref rt c ty id h w).2 in
  entity_ref rt' c ty' id' h' w' = (Returns (Ok ref), w').
Proof.
  intros Hr Hreg Ht Hok. cbn zeta. pose proof (world_reachable w Hr) as Hwf.
  assert (∃ en, active (registry_at (registry rt) (entity_ref rt c ty id h w).2) !! triple_of rt ty id = Some en ∧
            entry_triple en = triple_of rt ty id ∧ ref = mk_ref (triple_of rt ty id) (entry_mailbox en) ∧
            command_type (entry_mailbox en) = c) as (en & Hen & Howner & -> & Hc).
  { destruct (entity_ref_cases rt c ty id h w) as [(en & Hen & Hw & Hres)|[Hnone Href]].
    - rewrite Hw. rewrite Hres in Hok. exists en. destruct (registries w !! registry rt) as [reg|] eqn:Hreg0;
        [|by cbn in Hen; rewrite lookup_empty in Hen].
      destruct (wf_owner _ Hwf _ _ _ _ Hreg0 Hen) as (Howner & _). unfold owner_matches, ensure_owner_matches in Hok.
      rewrite Howner, bool_decide_false, andb_false_r, decide_False in Hok by tauto. unfold downcast_mailbox in Hok.
      case_decide; [|by destruct debug_assertions]. by simplify_eq.
    - cbn zeta in Href. rewrite Href in Hok |- *. cbn [fst snd registries] in *. injection Hok as <-.
      rewrite lookup_insert_eq. cbn. rewrite lookup_insert_eq. eauto. }
  destruct (entity_ref_cases rt' c ty' id' h' (entity_ref rt c ty id h w).2) as [(en' & Hen' & Hw & Hres)|[Hnone _]];
    cbn zeta in *; rewrite Hreg, Ht in *; [|by rewrite Hen in Hnone].
  rewrite Hen in Hen'. injection Hen' as <-. rewrite (surjective_pairing (entity_ref rt' _ _ _ _ _)), Hw, Hres. f_equal.
  unfold owner_matches, ensure_owner_matches. rewrite Howner, bool_decide_false, andb_false_r, decide_False by tauto.
  unfold downcast_mailbox. by rewrite decide_True.
Qed.
End references.

(** ** Sending a command

    What the reference answers, from how the send ended and what came back on the reply
    channel ([None]: the sender was dropped). *)
Definition send_command (ty : string) (sent : result EntityError ())
    (reply : option (result EntityError AnyArc)) : result EntityError Ptr :=
  match sent with
  | Err _ => Err MailboxClosed
  | Ok _ =>
      match reply with
      | None => Err (Internal "actor dropped reply channel without responding")
      | Some (Err e) => Err e
      | Some (Ok erased) =>
          match downcast ty erased with
          | Some p => Ok p
          | None => Err (Internal "TokioEntityRef::send_command: result type mismatch")
          end
      end
  end.

(** It answers a value exactly when the command was enqueued and the actor replied with a
    value of the type that was asked for. *)
Lemma send_command_ok ty sent reply p :
  send_command ty sent reply = Ok p ↔ sent = Ok () ∧ reply = Some (Ok (mk_any ty p)).
Proof.
  unfold send_command, downcast. split.
  - intros H. destruct sent as [[]|]; [|done]. destruct reply as [[[ty' p']|]|]; [|done..]. cbn in H.
    case_decide; [|done]. by simplify_eq.
  - intros [-> ->]. cbn. by rewrite decide_True.
Qed.

(** ** What is built *)
(** The rounding never shortens, lengthens by less than a second, and is zero exactly for
    zero, unless the whole seconds are already the last [u64]. *)
Lemma ceil_secs_bounds d :
  (0 ≤ d ≤ DURATION_MAX)%Z →
  (0 ≤ ceil_secs d ≤ u64_max)%Z ∧ (ceil_secs d = 0 ↔ d = 0)%Z ∧ (from_secs (ceil_secs d) < d + 10 ^ 9)%Z ∧
  (d ≤ u64_max * 10 ^ 9 → d ≤ from_secs (ceil_secs d))%Z ∧
  (u64_max * 10 ^ 9 < d → ceil_secs d = u64_max)%Z.
Proof.
  unfold ceil_secs, from_secs, DURATION_MAX, u64_max. intros Hd.
  pose proof (Z.div_mod d (10 ^ 9) ltac:(lia)). pose proof (Z.mod_pos_bound d (10 ^ 9) ltac:(lia)).
  case_decide; lia.
Qed.

Lemma require_durable_iff p durable cap fix_ :
  require_durably_configured p durable cap fix_ = Ok () ↔ (p = Production → durable = true).
Proof. unfold require_durably_configured. destruct p, durable; naive_solver. Qed.

Lemma validate_persistence_iff b :
  validate_persistence b = Ok () ↔
  (b_profile b = Production →
    (∃ s, b_event_store b = Some s ∧ is_durable s = true) ∧ (∃ s, b_snapshot_store b = Some s ∧ is_durable s = true)).
Proof.
  unfold validate_persistence. destruct (b_profile b), (b_event_store b) as [[? []]|], (b_snapshot_store b) as [[? []]|];
    cbn; naive_solver.
Qed.

(** The last call that says anything. *)
Definition last_set {A} (f : Setter → option A) (calls : list Setter) : option A :=
  foldl (λ acc c, match f c with Some x => Some x | None => acc end) None calls.

(** A field of the builder is what the last call that touches it left. *)
Lemma field_is_last {A} (field : EntityRuntimeBuilder → A) (f : Setter → option A) calls :
  (∀ c b, field (set c b) = default (field b) (f c)) →
  field (foldl (λ b c, set c b) EntityRuntimeBuilder_new calls) =
    default (field EntityRuntimeBuilder_new) (last_set f calls).
Proof.
  intros Hf. induction calls as [|c calls IH] using rev_ind; [done|].
  unfold last_set. rewrite !foldl_app. cbn [foldl]. rewrite Hf. fold (last_set f calls). rewrite IH. by destruct (f c).
Qed.

Definition capacity_set (c : Setter) : option nat :=
  match c with SMailboxCapacity n => Some n | SConfig cfg => Some (mailbox_capacity cfg) | _ => None end.
Definition timeout_set (c : Setter) : option Z :=
  match c with
  | SPassivationTimeout d => Some d
  | SConfig cfg => Some (from_secs (passivation_timeout_secs cfg))
  | _ => None
  end.
Definition mode_set (c : Setter) : option bool :=
  match c with SSingleTenant e => Some e | SConfig cfg => Some (single_tenant_mode cfg) | _ => None end.
Definition tenant_set (c : Setter) : option string :=
  match c with STenantId t => Some t | SConfig cfg => Some (tenant_id cfg) | _ => None end.
Definition event_store_set (c : Setter) : option (option Store) :=
  match c with SEventStore s => Some (Some s) | _ => None end.
Definition acceptor_set (c : Setter) : option (option Ptr) :=
  match c with SEffectAcceptor a => Some (Some a) | _ => None end.
Definition observability_set (c : Setter) : option (option Ptr) :=
  match c with SObservability o => Some (Some o) | _ => None end.
Definition profile_set (c : Setter) : option Profile :=
  match c with SProfile p => Some p | _ => None end.

(** The fields of a runtime that [build] made from the calls [calls]. *)
Record as_configured (fresh : Ptr) (calls : list Setter) (rt : EntityRuntime) : Prop := mk_as_configured {
  ac_capacity : mailbox_capacity (config rt) = default 1000 (last_set capacity_set calls);
  ac_timeout : passivation_timeout rt = default (from_secs 300) (last_set timeout_set calls);
  ac_secs : passivation_timeout_secs (config rt) = ceil_secs (passivation_timeout rt);
  ac_mode : single_tenant_mode (config rt) = default true (last_set mode_set calls);
  ac_tenant : tenant_id (config rt) = default "" (last_set tenant_set calls);
  ac_store : event_store (persistence rt) =
    from_option HostEventStore InMemoryEventStore (default None (last_set event_store_set calls));
  ac_acceptor : effect_acceptor rt = default None (last_set acceptor_set calls);
  ac_observability : observability rt = default None (last_set observability_set calls);
  ac_scheduler : scheduler_registry (scheduler rt) = registry rt ∧ scheduler_bus (scheduler rt) = event_sender rt;
  ac_bus : 0 < event_sender rt;
}.

Lemma build_ok fresh b rt :
  build fresh b = Returns rt →
  validate_persistence b = Ok () ∧ b_event_bus_capacity b ≠ 0 ∧
  rt = mk_runtime (default fresh (b_registry b))
         (mk_scheduler (default fresh (b_registry b)) (mk_round_robin 100 10) (b_event_bus_capacity b))
         (mk_facade (from_option HostEventStore InMemoryEventStore (b_event_store b))
            (from_option HostSnapshotStore InMemorySnapshotStore (b_snapshot_store b)))
         (from_option HostPublisher NoopPublisher (b_publisher b))
         (mk_config (b_mailbox_capacity b) (b_concurrency_budget b) (ceil_secs (b_passivation_timeout b))
            (b_single_tenant_mode b) (b_tenant_id b))
         (default (PeriodicSnapshotStrategy 100) (b_snapshot_strategy b)) (b_event_bus_capacity b)
         (b_effect_acceptor b) (b_observability b) (b_passivation_timeout b).
Proof.
  unfold build, event_bus_channel_with_config. destruct (validate_persistence b) as [[]|]; [|done].
  case_decide; [done|]. cbn. intros [= <-]. split_and!; [done..|]. by destruct (b_observability b).
Qed.

Lemma build_as_configured fresh calls rt :
  build fresh (foldl (λ b c, set c b) EntityRuntimeBuilder_new calls) = Returns rt →
  as_configured fresh calls rt.
Proof.
  intros (_ & Hbus & ->)%build_ok.
  split; cbn [mailbox_capacity config passivation_timeout passivation_timeout_secs single_tenant_mode tenant_id
    event_store persistence effect_acceptor observability scheduler scheduler_registry registry scheduler_bus
    event_sender]; [..|done|lia].
  - by rewrite (field_is_last b_mailbox_capacity capacity_set) by (by intros []).
  - by rewrite (field_is_last b_passivation_timeout timeout_set) by (by intros []).
  - done.
  - by rewrite (field_is_last b_single_tenant_mode mode_set) by (by intros []).
  - by rewrite (field_is_last b_tenant_id tenant_set) by (by intros []).
  - by rewrite (field_is_last b_event_store event_store_set) by (by intros []).
  - by rewrite (field_is_last b_effect_acceptor acceptor_set) by (by intros []).
  - by rewrite (field_is_last b_observability observability_set) by (by intros []).
Qed.

(** From any chain of calls [try_build] either gives the runtime [build] gives, whose
    settings are those of the last calls and, in production, whose stores are durable ones
    the host supplied; or it answers exactly the refusal [build] panics with, only in
    production and only for a store that is missing or not durable; or, like [build], it
    panics because the bus was given no capacity. *)
Lemma try_build_is_build fresh calls :
  let b := foldl (λ b c, set c b) EntityRuntimeBuilder_new calls in
  let production := default Dev (last_set profile_set calls) = Production in
  match try_build fresh b with
  | Returns (Ok rt) =>
      build fresh b = Returns rt ∧ as_configured fresh calls rt ∧
      (production →
        (∃ s, event_store (persistence rt) = HostEventStore s ∧ is_durable s = true) ∧
        (∃ s, snapshot_store (persistence rt) = HostSnapshotStore s ∧ is_durable s = true))
  | Returns (Err e) =>
      production ∧ build fresh b = Unwinds (not_configured_display e) ∧
      (from_option is_durable false (b_event_store b) = false ∨ from_option is_durable false (b_snapshot_store b) = false)
  | Unwinds m => build fresh b = Unwinds m ∧ b_event_bus_capacity b = 0
  end.
Proof.
  cbn zeta. pose proof (build_as_configured fresh calls) as Hconf.
  pose proof (field_is_last b_profile profile_set calls ltac:(by intros [])) as Hprofile.
  set (b := foldl _ EntityRuntimeBuilder_new calls) in *. cbn [b_profile EntityRuntimeBuilder_new] in Hprofile.
  rewrite <-Hprofile. unfold try_build. destruct (validate_persistence b) as [[]|e] eqn:Hv.
  - destruct (build fresh b) as [rt|m] eqn:Hb; cbn.
    + split_and!; [done|by apply Hconf|]. intros Hp. apply build_ok in Hb as (_ & _ & ->).
      destruct (proj1 (validate_persistence_iff b) Hv Hp) as [(s & Hs & ?) (s' & Hs' & ?)]. rewrite Hs, Hs'. cbn. split; eauto.
    + split; [done|]. unfold build, event_bus_channel_with_config in Hb. rewrite Hv in Hb. by case_decide.
  - unfold build. rewrite Hv. unfold validate_persistence, require_durably_configured in Hv.
    destruct (b_profile b); [done|]. split_and!; [done..|].
    destruct (from_option is_durable false (b_event_store b)), (from_option is_durable false (b_snapshot_store b)); [done|auto..].
Qed.

(** ** What is not checked *)
Lemma RuntimeConfig_validate_iff c :
  RuntimeConfig_validate c = Ok () ↔
  mailbox_capacity c ≠ 0 ∧ concurrency_budget c ≠ 0%Z ∧ (single_tenant_mode c = false → is_blank (tenant_id c) = false).
Proof.
  unfold RuntimeConfig_validate. repeat case_decide; [naive_solver..|].
  destruct (single_tenant_mode c), (is_blank (tenant_id c)); naive_solver.
Qed.

(** [with_config] takes a configuration [validate] refuses, and a mailbox without capacity
    keeps every sender waiting. *)
Lemma unchecked_capacity_starves fresh :
  let c := mk_config 0 1 300 true "" in
  RuntimeConfig_validate c = Err (non_zero "mailbox_capacity") ∧
  (∃ rt, build fresh (with_config c EntityRuntimeBuilder_new) = Returns rt ∧ mailbox_capacity (config rt) = 0) ∧
  ∀ (T : Type) (command : T) (m : BoundedMailbox T), capacity m = 0 → closed m = false →
    send_attempt command m = (None, m).
Proof.
  split_and!; [done|by eexists|]. intros T command m Hcap Hclosed. unfold send_attempt. rewrite Hclosed, Hcap.
  rewrite decide_False by lia. done.
Qed.

Module Example_runtime.
Definition rt : EntityRuntime :=
  mk_runtime 1%positive (mk_scheduler 1%positive (mk_round_robin 100 10) 4) (mk_facade InMemoryEventStore InMemorySnapshotStore)
    NoopPublisher (mk_config 2 1 1 false "acme") NoSnapshot 4 None None (5 * 10 ^ 8).
Definition mismatch (_ _ : EntityTriple) : string := "".
Definition start : World := mk_world {[1%positive := registry_new]} [] 0 [].
Definition one : World := (entity_ref false mismatch rt "Cmd" "account" "1" 7%positive start).2.
Definition two : World := (entity_ref false mismatch rt "Cmd" "account" "2" 7%positive one).2.

Lemma reached : rtc (step false mismatch) empty_world two.
Proof.
  eapply rtc_l; [by apply (step_registry false mismatch 1%positive)|].
  eapply rtc_l; [apply (step_entity_ref false mismatch rt "Cmd" "account" "1" 7%positive)|].
  eapply rtc_l; [apply (step_entity_ref false mismatch rt "Cmd" "account" "2" 7%positive)|]. reflexivity.
Qed.

(** The budget of concurrently active actors is one; two are spawned. *)
Lemma budget_is_not_enforced :
  rtc (step false mismatch) empty_world two ∧ concurrency_budget (config rt) = 1%Z ∧ length (actors two) = 2.
Proof. split; [exact reached|done]. Qed.

Lemma found :
  (entity_ref false mismatch rt "Cmd" "account" "1" 8%positive two).1 =
    Returns (Ok (mk_ref (mk_triple "acme" "account" "1") (mk_erased "Cmd" 2 0))).
Proof. vm_compute. reflexivity. Qed.

Lemma references_reach_their_own_actor_witness :
  rtc (step false mismatch) empty_world two ∧
  ∃ a, a ∈ actors (entity_ref false mismatch rt "Cmd" "account" "1" 8%positive two).2 ∧
    actor_triple a = mk_triple "acme" "account" "1".
Proof.
  pose proof (references_reach_their_own_actor false mismatch rt "Cmd" "account" "1" 8%positive two reached) as H.
  cbn zeta in H. rewrite found in H. split; [exact reached|].
  destruct H as (_ & _ & a & Ha & _ & [Ht _] & _). exists a. split; [exact Ha|exact Ht].
Defined.

(** A command of another type is refused. *)
Lemma other_command_type :
  (entity_ref false mismatch rt "Other" "account" "1" 8%positive two).1 =
    Returns (Err (Internal "routing type mismatch for triple account-1")).
Proof. vm_compute. reflexivity. Qed.
End Example_runtime.
