(* ===== verification/ServiceMacro.v ===== *)
(** * The service macro

    What [#[service]] makes of a trait or a struct, and the attributes on its methods:
    crates/service-sdk-macros, lib.rs and authorize.rs.

    The macro is a function from syntax to a compile error or to generated code.  The syntax
    is what the macro reads of [syn]'s trees; an error [syn] itself reports is [Syntax].  Of
    a generated method the model keeps which guards it has and with what; how it then runs
    is Dispatch.v.  [stringify] is a parameter. *)

From S2P Require Import Prelude Security Oidc ServiceRegistry Dispatch.

Inductive CompileError := Spanned (msg : string) | Syntax.

(** ** Syntax *)
(** [syn::Type]: a path by its leading segments and its last one. *)
Inductive Ty :=
| TPath (leading : list string) (last : string) (args : PathArguments)
| TOther (tokens : string)
with PathArguments :=
| NoArguments
| AngleBracketed (args : list GenericArgument)
| Parenthesized
with GenericArgument :=
| GType (t : Ty)
| GOther (tokens : string).

Inductive Pat := PIdent (i : string) | POther (tokens : string).
Inductive FnArg := Receiver | Typed (p : Pat) (ty : Ty).

(** One argument of an attribute's list: a path, and after [=] a value that starts with a
    literal, an identifier or something else, and may go on. *)
Inductive Head := HLit (s : string) | HIdent (i : string) | HOther.
Record Value := mk_value { head_of : Head; more : bool }.
Inductive MetaItem := Item (path : list string) (value : option Value) | Malformed.

Inductive Meta := MetaPath | MetaList (items : list MetaItem) | MetaNameValue.
Record Attribute := mk_attribute { attr_path : list string; attr_meta : Meta }.

Record Method := mk_method {
  m_attrs : list Attribute;
  m_name : string;
  m_async : bool;
  m_inputs : list FnArg;
  m_output : option Ty;
}.
Inductive TraitItem := TFn (m : Method) | TOtherItem (tokens : string).
Record ItemTrait := mk_trait { trait_name : string; trait_items : list TraitItem }.

Inductive Fields := Named (fields : list (string * Ty)) | Unnamed (fields : list Ty) | NoFields.
Record ItemStruct := mk_struct { struct_name : string; struct_fields : Fields }.

(** ** Attributes *)
Inductive SdkAttr := Operation | Authorize | TenantScoped | Idempotent.
#[export] Instance SdkAttr_eq_dec : EqDecision SdkAttr.
Proof. solve_decision. Defined.

(** [is_ident]: a path of one segment. *)
Definition is_ident (s : string) (path : list string) : bool := bool_decide (path = [s]).

Definition detect (attr : Attribute) : option SdkAttr :=
  if is_ident "operation" (attr_path attr) then Some Operation
  else if is_ident "authorize" (attr_path attr) then Some Authorize
  else if is_ident "tenant_scoped" (attr_path attr) then Some TenantScoped
  else if is_ident "idempotent" (attr_path attr) then Some Idempotent
  else None.

Definition detects (a : SdkAttr) (attr : Attribute) : bool := bool_decide (detect attr = Some a).
Definition has (a : SdkAttr) (m : Method) : bool := existsb (detects a) (m_attrs m).

(** *** [#[authorize]] *)
Record AuthorizeArgs := mk_authorize { context_ident : string; auth_resource : string; auth_action : string }.

Definition context_not_ident : CompileError :=
  Spanned "#[authorize] context must be a parameter name (identifier), not an expression".

(** The closure of the parser, and [syn]'s check that a comma or the end follows. *)
Definition authorize_item (item : MetaItem) (seen : option string * option string) :
    result CompileError (option string * option string) :=
  let '(context, permission) := seen in
  match item with
  | Malformed => Err Syntax
  | Item path value =>
      if is_ident "context" path then
        match value with
        | None => Err Syntax
        | Some v =>
            if decide (context ≠ None) then Err (Spanned "#[authorize] duplicate 'context' argument")
            else match head_of v with
                 | HIdent i => if more v then Err Syntax else Ok (Some i, permission)
                 | HLit _ | HOther => Err context_not_ident
                 end
        end
      else if is_ident "permission" path then
        match value with
        | None => Err Syntax
        | Some v =>
            if decide (permission ≠ None) then Err (Spanned "#[authorize] duplicate 'permission' argument")
            else match head_of v with
                 | HLit s => if more v then Err Syntax else Ok (context, Some s)
                 | _ => Err (Spanned "#[authorize] permission must be a string literal known at compile time")
                 end
        end
      else
        let key := match path with [i] => i | _ => "" end in
        Err (Spanned ("#[authorize] unknown argument '" +:+ key +:+ "'; expected 'context' and 'permission'"))
  end.

Fixpoint authorize_items (items : list MetaItem) (seen : option string * option string) :
    result CompileError (option string * option string) :=
  match items with
  | [] => Ok seen
  | item :: items => seen ← authorize_item item seen; authorize_items items seen
  end.

Definition parse_permission (perm_value : string) : result CompileError (string * string) :=
  match split_once colon perm_value with
  | None =>
      Err (Spanned ("#[authorize] permission " +:+ quoted perm_value +:+ " must have the form "
        +:+ quoted "resource:action"))
  | Some (resource, action) =>
      if contains colon action then
        Err (Spanned ("#[authorize] permission " +:+ quoted perm_value
          +:+ " must have exactly one ':' (form " +:+ quoted "resource:action" +:+ ")"))
      else if decide (resource = "") then
        Err (Spanned ("#[authorize] resource in " +:+ quoted perm_value +:+ " must not be empty"))
      else if decide (action = "") then
        Err (Spanned ("#[authorize] action in " +:+ quoted perm_value +:+ " must not be empty"))
      else if decide (resource = "*" ∨ action = "*") then
        Err (Spanned ("#[authorize] permission " +:+ quoted perm_value +:+ " must not use wildcards; "
          +:+ "wildcards belong on the grant side, not the access-request side"))
      else Ok (resource, action)
  end.

Definition parse_authorize_args (items : list MetaItem) : result CompileError AuthorizeArgs :=
  seen ← authorize_items items (None, None);
  match seen with
  | (Some ctx, Some perm) =>
      '(resource, action) ← parse_permission perm;
      Ok (mk_authorize ctx resource action)
  | _ => Err (Spanned "#[authorize] missing required argument; both 'context' and 'permission' are required")
  end.

(** The index among the typed parameters. *)
Fixpoint find_context (ident : string) (inputs : list FnArg) (typed_idx : nat) : option nat :=
  match inputs with
  | [] => None
  | Receiver :: inputs => find_context ident inputs typed_idx
  | Typed (PIdent i) _ :: inputs =>
      if decide (i = ident) then Some typed_idx else find_context ident inputs (S typed_idx)
  | Typed (POther _) _ :: inputs => find_context ident inputs (S typed_idx)
  end.

Definition validate_context_ident_in_signature (ident : string) (inputs : list FnArg) :
    result CompileError nat :=
  ok_or (Spanned ("#[authorize] context parameter '" +:+ ident +:+ "' not found in method signature"))
    (find_context ident inputs 0).

(** The first [#[authorize]] of a method. *)
Definition authorize_of (m : Method) : result CompileError (option (AuthorizeArgs * nat)) :=
  match find (detects Authorize) (m_attrs m) with
  | None => Ok None
  | Some attr =>
      match attr_meta attr with
      | MetaList items =>
          args ← parse_authorize_args items;
          idx ← validate_context_ident_in_signature (context_ident args) (m_inputs m);
          Ok (Some (args, idx))
      | _ =>
          Err (Spanned ("#[authorize] requires arguments: #[authorize(context = <ident>, permission = "
            +:+ quoted "<resource>:<action>" +:+ ")]"))
      end
  end.

(** ** Return types *)
Definition result_error_type (ty : Ty) : option Ty :=
  match ty with
  | TPath _ last (AngleBracketed (_ :: GType err :: _)) => if decide (last = "Result") then Some err else None
  | _ => None
  end.
Definition result_ok_type (ty : Ty) : option Ty :=
  match ty with
  | TPath _ last (AngleBracketed (GType ok :: _)) => if decide (last = "Result") then Some ok else None
  | _ => None
  end.

Section expansion.
Context (stringify : Ty → string).

Definition extract_error_types (ty : Ty) : list string :=
  match result_error_type ty with Some (TPath l s a) => [stringify (TPath l s a)] | _ => [] end.

(** ** Operations *)
Record OperationDescriptor := mk_descriptor {
  d_name : string; d_input : list string; d_output : string; d_errors : list string;
  d_idempotent : bool; d_mutating : bool;
}.

(** A generated method: its guards are those of [Op]; [fw_binding] is whether the context is
    rebound with the operation's name, and whether as [mut]. *)
Record ForwardingMethod := mk_forwarding {
  fw_op : Op;
  fw_params : list (Pat * Ty);
  fw_return : option Ty;
  fw_ctx : Pat;
  fw_ctx_idx : option nat;
  fw_binding : option bool;
  fw_fingerprint : list Pat;
  fw_inner_args : list (Pat * bool);
}.

Definition typed_params (m : Method) : list (Pat * Ty) :=
  omap (λ arg, match arg with Typed p ty => Some (p, ty) | Receiver => None end) (m_inputs m).

Definition describe (m : Method) : OperationDescriptor :=
  mk_descriptor (m_name m) (stringify ∘ snd <$> typed_params m)
    (match m_output m with Some ty => stringify ty | None => "()" end)
    (match m_output m with Some ty => extract_error_types ty | None => [] end)
    (has Idempotent m) true.

(** The context parameter and its index. *)
Definition context_of (auth : option (AuthorizeArgs * nat)) (params : list (Pat * Ty)) : Pat * option nat :=
  match params with
  | [] => (PIdent "ctx", None)
  | (first, _) :: _ =>
      match auth with
      | Some (args, idx) => (PIdent (context_ident args), Some idx)
      | None => (first, Some 0)
      end
  end.

Definition requires_result (attr : string) : CompileError :=
  Spanned ("#[" +:+ attr +:+ "] requires the method return type to be written as `Result<_, E>` directly "
    +:+ "(type aliases are not supported in proc-macro context; "
    +:+ "expand the alias inline, e.g. `Result<MyResponse, MyError>`)").

(** [filter] and [map] over [enumerate]. *)
Definition others (idx : option nat) (params : list (Pat * Ty)) : list Pat :=
  omap id (imap (λ i p, if decide (Some i = idx) then None else Some p) params.*1).
Definition cloning (idx : option nat) (params : list (Pat * Ty)) : list (Pat * bool) :=
  imap (λ i p, (p, bool_decide (Some i = idx))) params.*1.

Definition err_type (m : Method) : option Ty := m_output m ≫= result_error_type.
Definition ok_type (m : Method) : option Ty := m_output m ≫= result_ok_type.

(** What the macro refuses of an operation whose attributes parsed, in its order. *)
Definition operation_checks (m : Method) (auth : option (AuthorizeArgs * nat)) (ctx_idx : option nat) :
    result CompileError () :=
  if bool_decide (auth ≠ None) && negb (m_async m) then
    Err (Spanned "#[authorize] can only be used on async methods")
  else if bool_decide (auth ≠ None) && bool_decide (err_type m = None) then Err (requires_result "authorize")
  else if has TenantScoped m && bool_decide (err_type m = None) then Err (requires_result "tenant_scoped")
  else if has Idempotent m then
    if decide (ok_type m = None ∨ err_type m = None) then Err (requires_result "idempotent")
    else if decide (ctx_idx = None) then
      Err (Spanned "#[idempotent] requires a ServiceContext parameter — the operation key and the canonical tenant a reservation needs are both carried on it")
    else Ok ()
  else Ok ().

Definition expand_operation (m : Method) :
    result CompileError (OperationDescriptor * ForwardingMethod) :=
  auth ← authorize_of m;
  let params := typed_params m in
  let ctx := (context_of auth params).1 in
  let ctx_idx := (context_of auth params).2 in
  let binding := (λ _, has TenantScoped m || has Idempotent m) <$> ctx_idx in
  _ ← operation_checks m auth ctx_idx;
  Ok (describe m,
      mk_forwarding
        (mk_op (m_name m) ((λ a : AuthorizeArgs * nat, (auth_resource a.1, auth_action a.1)) <$> auth)
           (has TenantScoped m) (has Idempotent m))
        params (m_output m) ctx ctx_idx binding (others ctx_idx params) (cloning ctx_idx params)).

(** ** The trait *)
(** [ServiceArgs]: an argument is a name, [=] and a literal or a path; a comma is optional. *)
Inductive Tok := TkIdent (i : string) | TkEq | TkLit (s : string) | TkPath (segments : list string) | TkComma | TkOther.
Record ServiceArgs := mk_service_args { sa_version : option string; sa_impl_of : option (list string) }.

Definition parse_path (t : Tok) : option (list string) :=
  match t with TkIdent i => Some [i] | TkPath p => Some p | _ => None end.

Definition service_arg (key : string) (value : Tok) (args : ServiceArgs) : result CompileError ServiceArgs :=
  if decide (key = "version") then
    if decide (sa_version args ≠ None) then Err (Spanned "#[service] duplicate 'version' argument")
    else match value with
         | TkLit s => Ok (mk_service_args (Some s) (sa_impl_of args))
         | _ => Err Syntax
         end
  else if decide (key = "impl_of") then
    if decide (sa_impl_of args ≠ None) then Err (Spanned "#[service] duplicate 'impl_of' argument")
    else match parse_path value with
         | Some p => Ok (mk_service_args (sa_version args) (Some p))
         | None => Err Syntax
         end
  else Err (Spanned ("unknown #[service] argument `" +:+ key +:+ "` — expected `version` or `impl_of`")).

(** The key is judged before its value is read. *)
Fixpoint parse_service_args (toks : list Tok) (args : ServiceArgs) : result CompileError ServiceArgs :=
  match toks with
  | [] => Ok args
  | TkIdent key :: TkEq :: value :: rest =>
      args ← service_arg key value args;
      match rest with
      | TkComma :: rest => parse_service_args rest args
      | _ => parse_service_args rest args
      end
  | [TkIdent key; TkEq] => service_arg key TkOther args
  | _ => Err Syntax
  end.

Definition bad_semver (version_str : string) : CompileError :=
  Spanned ("#[service] version " +:+ quoted version_str +:+ " is not valid semver — expected "
    +:+ quoted "major.minor.patch" +:+ " with unsigned integers").

(** A part that is missing is zero, except the first. *)
Definition optional_part (version_str : string) (part : option string) : result CompileError N :=
  match part with Some s => ok_or (bad_semver version_str) (parse_u32 s) | None => Ok 0%N end.

Definition parse_version (version_str : string) : result CompileError ContractVersion :=
  let parts := split_on dot version_str in
  major ← ok_or (bad_semver version_str) (head parts ≫= parse_u32);
  minor ← optional_part version_str (parts !! 1);
  patch ← optional_part version_str (parts !! 2);
  Ok (mk_version major minor patch).

(** What the macro emits for a trait: the trait without the attributes it consumed, its tag,
    its proxy's methods and its contract. *)
Record Expansion := mk_expansion {
  x_tag : string;
  x_version : ContractVersion;
  x_operations : list OperationDescriptor;
  x_methods : list ForwardingMethod;
  x_items : list TraitItem;
}.

Definition strip (m : Method) : Method :=
  mk_method (filter (λ a, detect a = None) (m_attrs m)) (m_name m) (m_async m) (m_inputs m) (m_output m).

Definition expand_item (item : TraitItem) :
    result CompileError (option (OperationDescriptor * ForwardingMethod) * TraitItem) :=
  match item with
  | TFn m =>
      if has Operation m then
        op ← expand_operation m;
        Ok (Some op, TFn (strip m))
      else if has TenantScoped m then
        Err (Spanned "#[tenant_scoped] requires #[operation] on the same method")
      else if has Idempotent m then
        Err (Spanned "#[idempotent] requires #[operation] on the same method")
      else Ok (None, TFn m)
  | TOtherItem t => Ok (None, TOtherItem t)
  end.

Fixpoint expand_items (items : list TraitItem) :
    result CompileError (list (option (OperationDescriptor * ForwardingMethod) * TraitItem)) :=
  match items with
  | [] => Ok []
  | item :: items =>
      x ← expand_item item;
      xs ← expand_items items;
      Ok (x :: xs)
  end.

Definition expand_service_trait (t : ItemTrait) (args : ServiceArgs) : result CompileError Expansion :=
  if decide (sa_impl_of args ≠ None) then
    Err (Spanned "#[service] `impl_of` is only valid on a struct annotation (links the struct to the trait's resolution Tag) — it has no effect on a trait annotation")
  else
    version ← parse_version (default "1.0.0" (sa_version args));
    xs ← expand_items (trait_items t);
    Ok (mk_expansion (trait_name t +:+ "Tag") version (omap (fmap fst ∘ fst) xs) (omap (fmap snd ∘ fst) xs) xs.*2).

(** ** The struct *)
Inductive DepVariant := DEntity | DProjection | DAdapter | DConfig.
Inductive FieldInit := ResolveEntity (t : Ty) | ResolveProjection (t : Ty) | ResolveAdapter (t : Ty) | ResolveConfig (t : Ty) | DefaultValue.

Definition classify_field_init (ty : Ty) : option FieldInit :=
  match ty with
  | TPath _ last (AngleBracketed (GType inner :: _)) =>
      if decide (last = "EntityRuntimeRef") then Some (ResolveEntity inner)
      else if decide (last = "ProjectionRef") then Some (ResolveProjection inner)
      else if decide (last = "AdapterRef") then Some (ResolveAdapter inner)
      else if decide (last = "ConfigValue") then Some (ResolveConfig inner)
      else None
  | _ => None
  end.
Definition classify_field_type (ty : Ty) : option (DepVariant * Ty) :=
  match ty with
  | TPath _ last (AngleBracketed (GType inner :: _)) =>
      if decide (last = "EntityRuntimeRef") then Some (DEntity, inner)
      else if decide (last = "ProjectionRef") then Some (DProjection, inner)
      else if decide (last = "AdapterRef") then Some (DAdapter, inner)
      else if decide (last = "ConfigValue") then Some (DConfig, inner)
      else None
  | _ => None
  end.

(** The last segment gets the suffix. *)
Definition tag_path_from_impl_of (path : list string) : list string :=
  match last path with Some l => removelast path ++ [l +:+ "Tag"] | None => [] end.

(** [Injectable] for the struct: its dependencies, how [build] fills each field, and the link
    to a trait's tag. *)
Record StructExpansion := mk_struct_expansion {
  dependencies : list (DepVariant * Ty);
  field_inits : list (string * FieldInit);
  service_tag : option (list string * list string);
}.

Definition expand_service_struct (s : ItemStruct) (args : ServiceArgs) : StructExpansion :=
  let fields := match struct_fields s with Named fields => fields | _ => [] end in
  mk_struct_expansion (omap (classify_field_type ∘ snd) fields)
    ((λ '(name, ty), (name, default DefaultValue (classify_field_init ty))) <$> fields)
    ((λ path, (tag_path_from_impl_of path, path)) <$> sa_impl_of args).
End expansion.

(** ** Permissions *)
Lemma parse_permission_exact p r a :
  parse_permission p = Ok (r, a) ↔
  p = r +:+ String colon a ∧ contains colon r = false ∧ contains colon a = false ∧
  r ≠ "" ∧ a ≠ "" ∧ r ≠ "*" ∧ a ≠ "*".
Proof.
  unfold parse_permission. split.
  - destruct (split_once colon p) as [[r' a']|] eqn:Hs; [|done]. apply split_once_Some in Hs as [-> Hr].
    destruct (contains colon a') eqn:Ha; [done|]. repeat case_decide; try done. intros [= -> ->]. naive_solver.
  - intros (-> & Hr & Ha & Hr0 & Ha0 & Hr1 & Ha1). rewrite (proj2 (split_once_Some colon _ r a)) by done.
    rewrite Ha. by rewrite !decide_False by naive_solver.
Qed.

(** The attribute accepts exactly the permissions [AccessRequest::from_static] accepts. *)
Lemma permission_as_at_runtime p r a :
  parse_permission p = Ok (r, a) ↔ from_static p = Ok (mk_access (mk_resource r None) a).
Proof.
  rewrite parse_permission_exact. unfold from_static. split.
  - intros (-> & Hr & Ha & Hr0 & Ha0 & Hr1 & Ha1). rewrite (proj2 (split_once_Some colon _ r a)) by done.
    by rewrite Ha, !bool_decide_true by done.
  - destruct (split_once colon p) as [[r' a']|] eqn:Hs; [|done]. apply split_once_Some in Hs as [-> Hr].
    destruct (_ && _) eqn:Hc; [|by case_match]. intros [= -> ->].
    rewrite !andb_true_iff, !bool_decide_eq_true, negb_true_iff in Hc. tauto.
Qed.

(** ** The arguments of [#[authorize]] *)
Definition context_item (i : string) : MetaItem := Item ["context"] (Some (mk_value (HIdent i) false)).
Definition permission_item (p : string) : MetaItem := Item ["permission"] (Some (mk_value (HLit p) false)).

Lemma authorize_item_ok item c p c' p' :
  authorize_item item (c, p) = Ok (c', p') ↔
  (∃ i, item = context_item i ∧ c = None ∧ c' = Some i ∧ p' = p) ∨
  (∃ s, item = permission_item s ∧ p = None ∧ p' = Some s ∧ c' = c).
Proof.
  unfold authorize_item, is_ident, context_item, permission_item. split.
  - destruct item as [path value|]; [|done]. case_bool_decide as Hc; [|case_bool_decide as Hp; [|done]]; subst path;
      (destruct value as [[h m]|]; [|done]); cbn [head_of more]; (case_decide as Hn; [done|]);
      destruct h as [s|i|]; try done; destruct m; try done; intros [= <- <-]; eauto 10.
  - intros [(i & -> & -> & -> & ->)|(s & -> & -> & -> & ->)]; reflexivity.
Qed.

(** Exactly one context and one permission, in either order. *)
Lemma parse_authorize_args_exact items args :
  parse_authorize_args items = Ok args ↔
  ∃ p, (items = [context_item (context_ident args); permission_item p] ∨
        items = [permission_item p; context_item (context_ident args)]) ∧
    parse_permission p = Ok (auth_resource args, auth_action args).
Proof.
  assert (∀ l seen seen', authorize_items l seen = Ok seen' →
    ∀ c p, seen' = (Some c, Some p) →
      seen = (Some c, Some p) ∧ l = [] ∨ seen = (Some c, None) ∧ l = [permission_item p] ∨
      seen = (None, Some p) ∧ l = [context_item c] ∨
      seen = (None, None) ∧ (l = [context_item c; permission_item p] ∨ l = [permission_item p; context_item c])) as Hlist.
  { induction l as [|item l IH]; intros [c0 p0] seen'; cbn [authorize_items].
    - intros [= <-] c p [= -> ->]. by left.
    - destruct (authorize_item item (c0, p0)) as [[c1 p1]|e] eqn:Hi; [|done]. cbn [mbind result_bind]. intros Hl c p Hs.
      apply authorize_item_ok in Hi as [(i & -> & -> & -> & ->)|(s & -> & -> & -> & ->)];
        destruct (IH _ _ Hl c p Hs) as [[[=] ->]|[[[=] ->]|[[[=] ->]|[[=] _]]]]; subst; naive_solver. }
  unfold parse_authorize_args. split.
  - destruct (authorize_items items (None, None)) as [[[c|] [p|]]|e] eqn:Hi; try done. cbn.
    destruct (parse_permission p) as [[r a]|e] eqn:Hp; [|done]. intros [= <-]. exists p. split; [|done].
    destruct (Hlist _ _ _ Hi c p eq_refl) as [[? _]|[[? _]|[[? _]|[_ H]]]]; done.
  - intros (p & Hitems & Hp).
    assert (authorize_items items (None, None) = Ok (Some (context_ident args), Some p)) as Hi
      by (destruct Hitems as [-> | ->]; reflexivity).
    rewrite Hi. cbn. rewrite Hp. cbn. by destruct args.
Qed.

Lemma find_context_Some ident inputs k idx :
  find_context ident inputs k = Some idx →
  ∃ j, idx = k + j ∧ (omap (λ arg, match arg with Typed p ty => Some (p, ty) | Receiver => None end) inputs).*1 !! j
                      = Some (PIdent ident).
Proof.
  revert k. induction inputs as [|[|[i|t] ty] inputs IH]; intros k; cbn [find_context]; [done|by apply IH| |].
  - case_decide as Hi.
    + intros [= <-]. exists 0. cbn. rewrite Hi. split; [lia|done].
    + intros (j & -> & Hj)%IH. exists (S j). split; [lia|done].
  - intros (j & -> & Hj)%IH. exists (S j). split; [lia|done].
Qed.

(** ** Parameters *)
Lemma all_kept {A} (f : nat → A → option A) l : (∀ i p, f i p = Some p) → omap id (imap f l) = l.
Proof.
  revert f. induction l as [|p l IH]; intros f Hf; [done|]. rewrite imap_cons. cbn. rewrite Hf. cbn. f_equal. apply IH.
  intros i p'. apply Hf.
Qed.

Lemma others_spec k (params : list (Pat * Ty)) :
  others (Some k) params = take k params.*1 ++ drop (S k) params.*1.
Proof.
  unfold others. generalize (params.*1). clear params.
  assert (∀ (l : list Pat) (k j : nat), omap id (imap (λ i p, if decide (Some (j + i) = Some (j + k)) then None else Some p) l)
            = take k l ++ drop (S k) l) as H.
  { clear k. intros l. induction l as [|p l IH]; intros k j; [by destruct k|]. rewrite imap_cons. cbn [omap list_omap]. destruct k as [|k].
    - rewrite decide_True by done. cbn [id take drop app]. rewrite drop_0. apply all_kept. intros i p'. cbn.
      rewrite decide_False; [done|]. intros Heq. injection Heq. lia.
    - rewrite decide_False by (intros Heq; injection Heq; lia). cbn [id take drop app]. f_equal.
      rewrite <-(IH k (S j)). f_equal. apply imap_ext. intros i p' _. cbn. by rewrite !Nat.add_succ_r. }
  intros l. exact (H l k 0).
Qed.

(** ** The expansion *)
Definition methods (t : ItemTrait) : list Method :=
  omap (λ item, match item with TFn m => Some m | TOtherItem _ => None end) (trait_items t).

(** The code compiles only if no guard is left on a method: outside [#[service]] the
    attributes [authorize], [tenant_scoped] and [idempotent] are compile errors. *)
Definition no_stray_guard (x : Expansion) : Prop :=
  ∀ m a, TFn m ∈ x_items x → a ∈ [Authorize; TenantScoped; Idempotent] → has a m = false.

(** A generated method has the guards its attributes ask for. *)
Record guards_match (m : Method) (fw : ForwardingMethod) : Prop := mk_guards_match {
  gm_name : op_name (fw_op fw) = m_name m;
  gm_tenant : op_tenant_scoped (fw_op fw) = has TenantScoped m;
  gm_idempotent : op_idempotent (fw_op fw) = has Idempotent m;
  gm_authorize :
    if has Authorize m then
      ∃ attr items args p, find (detects Authorize) (m_attrs m) = Some attr ∧ attr_meta attr = MetaList items ∧
        (items = [context_item (context_ident args); permission_item p] ∨
         items = [permission_item p; context_item (context_ident args)]) ∧
        from_static p = Ok (mk_access (mk_resource (auth_resource args) None) (auth_action args)) ∧
        op_authorize (fw_op fw) = Some (auth_resource args, auth_action args) ∧
        fw_ctx fw = PIdent (context_ident args) ∧ m_async m = true
    else op_authorize (fw_op fw) = None;
  gm_error : has Authorize m = true ∨ has TenantScoped m = true ∨ has Idempotent m = true → err_type m ≠ None;
  gm_params : fw_params fw = typed_params m ∧ fw_return fw = m_output m;
  gm_context : has Idempotent m = true → fw_ctx_idx fw ≠ None;
  gm_fingerprint : ∀ k, fw_ctx_idx fw = Some k →
    (typed_params m).*1 !! k = Some (fw_ctx fw) ∧
    fw_fingerprint fw = take k (typed_params m).*1 ++ drop (S k) (typed_params m).*1;
}.

Lemma has_find a m : has a m = true ↔ is_Some (find (detects a) (m_attrs m)).
Proof.
  unfold has. rewrite existsb_exists. split.
  - intros (attr & Hin & Hd). destruct (find (detects a) (m_attrs m)) eqn:Hf; [by eexists|].
    by rewrite (find_none _ _ Hf _ Hin) in Hd.
  - intros [attr Hf]. exists attr. by apply find_some.
Qed.

Lemma authorize_of_ok m auth :
  authorize_of m = Ok auth →
  match auth with
  | None => has Authorize m = false
  | Some (args, idx) =>
      has Authorize m = true ∧ (typed_params m).*1 !! idx = Some (PIdent (context_ident args)) ∧
      ∃ attr items p, find (detects Authorize) (m_attrs m) = Some attr ∧ attr_meta attr = MetaList items ∧
        (items = [context_item (context_ident args); permission_item p] ∨
         items = [permission_item p; context_item (context_ident args)]) ∧
        from_static p = Ok (mk_access (mk_resource (auth_resource args) None) (auth_action args))
  end.
Proof.
  unfold authorize_of. destruct (find _ _) as [attr|] eqn:Hf.
  - destruct (attr_meta attr) as [|items|] eqn:Hm; [done| |done].
    destruct (parse_authorize_args items) as [args|e] eqn:Hp; [|done]. cbn. unfold validate_context_ident_in_signature.
    destruct (find_context _ _ _) as [idx|] eqn:Hc; [|done]. cbn. intros [= <-].
    apply find_context_Some in Hc as (j & -> & Hj). apply parse_authorize_args_exact in Hp as (p & Hitems & Hp).
    rewrite permission_as_at_runtime in Hp. split_and!; [apply has_find; by eexists|exact Hj|]. eauto 10.
  - intros [= <-]. destruct (has Authorize m) eqn:Hh; [|done]. apply has_find in Hh as [? Hh]. congruence.
Qed.

Lemma operation_checks_ok m auth idx :
  operation_checks m auth idx = Ok () →
  (auth ≠ None → m_async m = true ∧ err_type m ≠ None) ∧
  (has TenantScoped m = true → err_type m ≠ None) ∧
  (has Idempotent m = true → err_type m ≠ None ∧ idx ≠ None).
Proof.
  unfold operation_checks. repeat case_bool_decide; destruct (m_async m), (has TenantScoped m), (has Idempotent m);
    cbn; repeat case_decide; naive_solver.
Qed.

Lemma expand_operation_inv stringify m d fw :
  expand_operation stringify m = Ok (d, fw) →
  d = describe stringify m ∧
  ∃ auth, authorize_of m = Ok auth ∧ operation_checks m auth (context_of auth (typed_params m)).2 = Ok () ∧
    fw_op fw = mk_op (m_name m) ((λ a : AuthorizeArgs * nat, (auth_resource a.1, auth_action a.1)) <$> auth)
                 (has TenantScoped m) (has Idempotent m) ∧
    fw_params fw = typed_params m ∧ fw_return fw = m_output m ∧
    fw_ctx fw = (context_of auth (typed_params m)).1 ∧ fw_ctx_idx fw = (context_of auth (typed_params m)).2 ∧
    fw_fingerprint fw = others (fw_ctx_idx fw) (typed_params m).
Proof.
  unfold expand_operation. destruct (authorize_of m) as [auth|]; [|done]. cbn [mbind result_bind].
  destruct (operation_checks _ _ _) as [[]|] eqn:Hc; [|done]. intros [= <- <-]. split; [done|]. by exists auth.
Qed.

Lemma expand_operation_ok stringify m d fw :
  expand_operation stringify m = Ok (d, fw) → guards_match m fw.
Proof.
  intros (_ & auth & Ha & (Hauth & Hten & Hidem)%operation_checks_ok & Hop & Hps & Hret & Hctx & Hidx & Hfp)%expand_operation_inv.
  apply authorize_of_ok in Ha. split; rewrite ?Hop; [done..| | |by split| |].
  - destruct auth as [[args k]|]; [|by rewrite Ha].
    destruct Ha as (-> & Hk & attr & items & p & Hf & Hm & Hi & Hs). exists attr, items, args, p.
    split_and!; [done..| |by apply Hauth].
    rewrite Hctx. unfold context_of. by destruct (typed_params m) as [|[q ty] ps].
  - intros [Hh|[Hh|Hh]]; [|by apply Hten|by apply Hidem]. apply Hauth. intros ->. congruence.
  - rewrite Hidx. apply Hidem.
  - intros k Hk. rewrite Hfp, Hk. split; [|apply others_spec]. rewrite Hctx. rewrite Hidx in Hk. unfold context_of in *.
    destruct (typed_params m) as [|[q ty] ps] eqn:Hts; [done|]. destruct auth as [[args j]|]; cbn in *; simplify_eq; [|done].
    apply Ha.
Qed.

(** The items the macro emits, one for each it read. *)
Definition expanded stringify (item : TraitItem)
    (x : option (OperationDescriptor * ForwardingMethod) * TraitItem) : Prop := expand_item stringify item = Ok x.

Lemma expand_items_ok stringify items xs :
  expand_items stringify items = Ok xs → Forall2 (expanded stringify) items xs.
Proof.
  revert xs. induction items as [|item items IH]; cbn [expand_items]; intros xs.
  - intros [= <-]. constructor.
  - destruct (expand_item stringify item) as [x|] eqn:Hx; [|done]. cbn [mbind result_bind].
    destruct (expand_items stringify items) as [xs'|]; [|done]. intros [= <-]. constructor; auto.
Qed.

Lemma expand_method_ok stringify m x :
  expanded stringify (TFn m) x →
  if has Operation m then ∃ d fw, x = (Some (d, fw), TFn (strip m)) ∧ guards_match m fw ∧ d = describe stringify m
  else x = (None, TFn m) ∧ has TenantScoped m = false ∧ has Idempotent m = false.
Proof.
  unfold expanded. cbn [expand_item]. destruct (has Operation m).
  - destruct (expand_operation stringify m) as [[d fw]|] eqn:Hop; [|done]. intros [= <-]. exists d, fw.
    split_and!; [done|by eapply expand_operation_ok|by apply expand_operation_inv in Hop as [-> _]].
  - destruct (has TenantScoped m); [done|]. destruct (has Idempotent m); [done|]. by intros [= <-].
Qed.

Definition operations (t : ItemTrait) : list Method := filter (λ m, has Operation m = true) (methods t).

Lemma expanded_items_match stringify items xs :
  Forall2 (expanded stringify) items xs →
  let ms := omap (λ item, match item with TFn m => Some m | TOtherItem _ => None end) items in
  Forall2 guards_match (filter (λ m, has Operation m = true) ms) (omap (fmap snd ∘ fst) xs) ∧
  omap (fmap fst ∘ fst) xs = describe stringify <$> filter (λ m, has Operation m = true) ms ∧
  ∀ m, m ∈ ms → has Operation m = false → TFn m ∈ xs.*2 ∧ has TenantScoped m = false ∧ has Idempotent m = false.
Proof.
  induction 1 as [|item x items xs Hx _ (IHg & IHd & IHr)]; cbn zeta in *; [split_and!; [constructor|done|by intros ? ?%elem_of_nil]|].
  destruct item as [m|t].
  - apply expand_method_ok in Hx. cbn [omap list_omap]. rewrite filter_cons. destruct (has Operation m) eqn:Hop.
    + rewrite decide_True by done. destruct Hx as (d & fw & -> & Hg & ->). cbn [fst snd fmap option_fmap option_map compose].
      split_and!; [by constructor|by rewrite fmap_cons, <-IHd|].
      intros m' [->|Hin]%elem_of_cons Hno; [congruence|]. destruct (IHr m' Hin Hno) as [? ?].
      split; [by right|done].
    + rewrite decide_False by done. destruct Hx as (-> & Ht & Hi). split_and!; [exact IHg|exact IHd|].
      intros m' [->|Hin]%elem_of_cons Hno; [split; [by left|done]|]. destruct (IHr m' Hin Hno) as [? ?].
      split; [by right|done].
  - unfold expanded in Hx. cbn in Hx. injection Hx as <-. split_and!; [exact IHg|exact IHd|].
    intros m' Hin Hno. destruct (IHr m' Hin Hno) as [? ?]. split; [by right|done].
Qed.

(** C37: If a trait expands, the guards of its operations are enforced: each operation has one
    generated method, in order, with exactly the tenant and idempotency guards it is marked
    with and the permission of its first [#[authorize]], which the runtime would accept too,
    checked on the parameter it names (a second [#[authorize]] is dropped); an idempotent
    operation has a context, and its fingerprint covers exactly the other parameters; and
    the contract describes the operations in order.  A method that is not an operation is
    emitted as it was written, and a trait in which such a method is marked
    [tenant_scoped] or [idempotent] does not expand; an [#[authorize]] on it is left to the
    attribute itself, which refuses to compile. *)
Theorem markers_are_enforced stringify t args x :
  expand_service_trait stringify t args = Ok x →
  Forall2 guards_match (operations t) (x_methods x) ∧
  x_operations x = describe stringify <$> operations t ∧
  ∀ m, m ∈ methods t → has Operation m = false →
    TFn m ∈ x_items x ∧ has TenantScoped m = false ∧ has Idempotent m = false ∧
    (no_stray_guard x → has Authorize m = false).
Proof.
  unfold expand_service_trait. case_decide; [done|]. destruct (parse_version _) as [v|]; [|done]. cbn [mbind result_bind].
  destruct (expand_items stringify (trait_items t)) as [xs|] eqn:Hxs; [|done]. intros [= <-].
  destruct (expanded_items_match stringify _ _ (expand_items_ok _ _ _ Hxs)) as (Hg & Hd & Hr).
  split_and!; [exact Hg|exact Hd|]. intros m Hm Hno. destruct (Hr m Hm Hno) as (Hin & Ht & Hi).
  split_and!; [exact Hin|exact Ht|exact Hi|]. intros Hstray. apply (Hstray m Authorize Hin). by left.
Qed.

(** ** Versions *)
(** The macro takes every version the contract parser takes, to the same value. *)
Lemma version_as_at_runtime s v : ContractVersion_from_str s = Ok v → parse_version s = Ok v.
Proof.
  unfold ContractVersion_from_str, parse_version, optional_part, bad_semver. destruct (split_on dot s) as [|a [|b [|c [|]]]]; try done. cbn.
  destruct (parse_u32 a); [|done]. destruct (parse_u32 b); [|done].
  destruct (parse_u32 c); [|done]. cbn. by intros [= <-].
Qed.

(** But it also takes texts that are no version, and drops what follows the third part. *)
Lemma version_tail_is_dropped :
  parse_version "1.2.3.four" = Ok (mk_version 1 2 3) ∧ parse_version "1" = Ok (mk_version 1 0 0) ∧
  ContractVersion_from_str "1.2.3.four" = Err "Invalid version format. Expected format: major.minor.patch" ∧
  ContractVersion_from_str "1" = Err "Invalid version format. Expected format: major.minor.patch".
Proof. split_and!; vm_compute; reflexivity. Qed.

(** ** The struct *)
Definition resolves (i : FieldInit) : option (DepVariant * Ty) :=
  match i with
  | ResolveEntity t => Some (DEntity, t)
  | ResolveProjection t => Some (DProjection, t)
  | ResolveAdapter t => Some (DAdapter, t)
  | ResolveConfig t => Some (DConfig, t)
  | DefaultValue => None
  end.

Lemma classifiers_agree ty : classify_field_init ty ≫= resolves = classify_field_type ty.
Proof.
  destruct ty as [l s [|[|[inner|]]|]|]; cbn [classify_field_init classify_field_type]; try done.
  by repeat case_decide.
Qed.

(** The dependencies a struct declares are exactly what its [build] resolves, in order, and
    [build] fills every field. *)
Lemma dependencies_are_what_build_resolves s args fields :
  struct_fields s = Named fields →
  let x := expand_service_struct s args in
  dependencies x = omap (resolves ∘ snd) (field_inits x) ∧ (field_inits x).*1 = fields.*1.
Proof.
  intros Hf. unfold expand_service_struct. rewrite Hf. cbn. clear Hf. split.
  - induction fields as [|[n ty] fields IH]; [done|]. cbn. rewrite <-(classifiers_agree ty).
    destruct (classify_field_init ty) as [[]|]; cbn; by rewrite <-IH.
  - rewrite <-list_fmap_compose. apply list_fmap_ext. by intros i [n ty].
Qed.

Module Example_service.
Definition stringify (ty : Ty) : string := match ty with TPath _ s _ => s | TOther s => s end.
Definition ty (s : string) : Ty := TPath [] s NoArguments.
Definition authorize_attr (ctx perm : string) : Attribute :=
  mk_attribute ["authorize"] (MetaList [context_item ctx; permission_item perm]).
Definition marker (s : string) : Attribute := mk_attribute [s] MetaPath.
Definition place : Method :=
  mk_method [marker "operation"; authorize_attr "ctx" "orders:place"; marker "idempotent"] "place" true
    [Receiver; Typed (PIdent "ctx") (ty "ServiceContext"); Typed (PIdent "order") (ty "Order")]
    (Some (TPath [] "Result" (AngleBracketed [GType (ty "Receipt"); GType (ty "OrderError")]))).
(** A method that is not an operation. *)
Definition helper : Method := mk_method [marker "doc"] "helper" false [Receiver] None.
Definition trait : ItemTrait := mk_trait "Orders" [TFn place; TFn helper].
Definition expansion : Expansion :=
  mk_expansion "OrdersTag" (mk_version 1 0 0) [describe stringify place]
    [mk_forwarding (mk_op "place" (Some ("orders", "place")) false true) (typed_params place) (m_output place)
       (PIdent "ctx") (Some 0) (Some true) [PIdent "order"] [(PIdent "ctx", true); (PIdent "order", false)]]
    [TFn (strip place); TFn helper].

Lemma expands : expand_service_trait stringify trait (mk_service_args None None) = Ok expansion.
Proof. vm_compute. reflexivity. Qed.

Lemma markers_are_enforced_witness :
  Forall2 guards_match [place] (x_methods expansion) ∧
  TFn helper ∈ x_items expansion ∧ has TenantScoped helper = false ∧
  has Idempotent helper = false.
Proof.
  destruct (markers_are_enforced stringify trait (mk_service_args None None) expansion expands)
    as (Hops & _ & Hothers).
  split; [exact Hops|].
  destruct (Hothers helper) as (H1 & H2 & H3 & _); [by right; left|reflexivity|].
  split; [exact H1|]. split; [exact H2|exact H3].
Defined.

(** A marker on a method that is no operation is refused. *)
Lemma marker_needs_operation :
  expand_service_trait stringify (mk_trait "Orders" [TFn (mk_method [marker "tenant_scoped"] "helper" true [Receiver] None)])
    (mk_service_args None None)
  = Err (Spanned "#[tenant_scoped] requires #[operation] on the same method").
Proof. vm_compute. reflexivity. Qed.

(** A second [#[authorize]] is dropped: the method demands only the first permission. *)
Lemma second_authorize_is_dropped :
  let m := mk_method [marker "operation"; authorize_attr "ctx" "orders:read"; authorize_attr "ctx" "orders:refund"]
             "refund" true (m_inputs place) (m_output place) in
  ∃ x, expand_service_trait stringify (mk_trait "Orders" [TFn m]) (mk_service_args None None) = Ok x ∧ no_stray_guard x ∧
    op_authorize ∘ fw_op <$> x_methods x = [Some ("orders", "read")].
Proof.
  cbn zeta. eexists. split; [vm_compute; reflexivity|]. split; [|reflexivity].
  intros m a [= ->]%list_elem_of_singleton Ha. destruct a; vm_compute; reflexivity.
Qed.
End Example_service.
