(* ===== verification/Transport.v ===== *)
(** * The HTTP layer

    crates/service-sdk, error/mod.rs ([ServiceError]); crates/transport: error.rs
    ([TransportError]), security.rs, operation_key.rs, idempotency.rs and propagation.rs (the
    extractors); how a request's headers come to the credential, the operation key and the
    trace of its handler.

    axum and tonic are third-party: a header map is its entries in order, names lowercased;
    [to_str] reads a value of tabs and visible ASCII and fails on any other.  The answer of
    an extractor that rejects is its status and reason. *)

From S2P Require Import Prelude Identity Security Trace Tenancy Dispatch.

(** ** Service errors *)
Inductive ServiceError :=
| Validation (message : string)
| Authorization (message : string)
| SInternal (message : string)
| SNotFound (message : string)
| SConflict (message : string)
| STimeout (message : string)
| RateLimit (message : string)
| SServiceUnavailable (message : string)
| BusinessLogic (message : string)
| Custom (message : string).

Inductive ErrorCategory :=
| CValidation | CBusiness | CSystem | CNetwork | CAuthentication | CAuthorization | CResource | CTimeout | CUnknown.

Definition error_code (e : ServiceError) : string :=
  match e with
  | Validation _ => "VALIDATION"
  | Authorization _ => "AUTHORIZATION"
  | SInternal _ => "INTERNAL"
  | SNotFound _ => "NOT_FOUND"
  | SConflict _ => "CONFLICT"
  | STimeout _ => "TIMEOUT"
  | RateLimit _ => "RATE_LIMIT"
  | SServiceUnavailable _ => "SERVICE_UNAVAILABLE"
  | BusinessLogic _ => "BUSINESS_LOGIC"
  | Custom _ => "CUSTOM"
  end.
Definition error_category (e : ServiceError) : ErrorCategory :=
  match e with
  | Validation _ => CValidation
  | Authorization _ => CAuthorization
  | SInternal _ => CSystem
  | SNotFound _ => CResource
  | SConflict _ => CBusiness
  | STimeout _ => CTimeout
  | RateLimit _ => CSystem
  | SServiceUnavailable _ => CSystem
  | BusinessLogic _ => CBusiness
  | Custom _ => CUnknown
  end.
Definition error_message (e : ServiceError) : string :=
  match e with
  | Validation m | Authorization m | SInternal m | SNotFound m | SConflict m | STimeout m
  | RateLimit m | SServiceUnavailable m | BusinessLogic m | Custom m => m
  end.

(** [From<ErrorCategory>] *)
Definition from_category (c : ErrorCategory) : ServiceError :=
  match c with
  | CValidation => Validation "validation error"
  | CAuthorization => Authorization "authorization error"
  | CSystem => SInternal "system error"
  | CNetwork => SInternal "network error"
  | CAuthentication => Authorization "authentication error"
  | CResource => SNotFound "resource error"
  | CTimeout => STimeout "timeout error"
  | CUnknown => SInternal "unknown error"
  | CBusiness => BusinessLogic "business logic error"
  end.

(** ** Transport errors *)
Inductive TransportError :=
| BadRequest | Unauthorized | Forbidden | NotFound | Conflict | TooManyRequests | GatewayTimeout
| ServiceUnavailable | Internal.

Definition status_code (e : TransportError) : Z :=
  match e with
  | BadRequest => 400 | Unauthorized => 401 | Forbidden => 403 | NotFound => 404 | Conflict => 409
  | TooManyRequests => 429 | GatewayTimeout => 504 | ServiceUnavailable => 503 | Internal => 500
  end.
Definition reason (e : TransportError) : string :=
  match e with
  | BadRequest => "bad request" | Unauthorized => "unauthorized" | Forbidden => "forbidden"
  | NotFound => "not found" | Conflict => "conflict" | TooManyRequests => "too many requests"
  | GatewayTimeout => "gateway timeout" | ServiceUnavailable => "service unavailable"
  | Internal => "internal error"
  end.

(** [into_response]: the status, and the [error] field of the body. *)
Definition into_response (e : TransportError) : Z * string := (status_code e, reason e).

Definition from_service_error (e : ServiceError) : TransportError :=
  match e with
  | Validation _ => BadRequest
  | Authorization _ => Forbidden
  | SInternal _ => Internal
  | SNotFound _ => NotFound
  | SConflict _ => Conflict
  | STimeout _ => GatewayTimeout
  | RateLimit _ => TooManyRequests
  | SServiceUnavailable _ => ServiceUnavailable
  | BusinessLogic _ => Conflict
  | Custom _ => Internal
  end.
Definition from_rejection (e : OperationKeyRejection) : TransportError :=
  match e with RejectMissing _ => BadRequest | RejectInvalid _ _ => BadRequest | RejectUnreadable _ => BadRequest end.
Definition from_security_error (e : SecurityError) : TransportError :=
  match e with
  | AuthenticationFailed _ | InvalidCredential _ | InvalidSubjectId _ => Unauthorized
  | AuthorizationDenied _ => Forbidden
  | MissingContext => Unauthorized
  | CapabilityNotEnabled | ProviderError _ => Internal
  | InvalidAccessRequest _ => BadRequest
  | TenantMismatch _ _ | CrossTenantDenied _ => Forbidden
  end.

(** ** Headers *)
Definition HeaderMap := list (string * string).

(** [get_all] and [get]: the name is compared in lower case. *)
Definition get_all (headers : HeaderMap) (name : string) : list string :=
  (filter (λ h, h.1 = to_ascii_lowercase name) headers).*2.
Definition get (headers : HeaderMap) (name : string) : option string := head (get_all headers name).

Definition visible (a : ascii) : bool := byte_in 32 126 a || byte_in 9 9 a.
Definition to_str (value : string) : option string := if all_bytes visible value then Some value else None.

(** ** The extractors *)
(** [AxumRequestContext] *)
Definition request_context (headers : HeaderMap) : RequestContext :=
  mk_request_context (λ name, get headers name ≫= to_str) (λ _, None) (λ _, None).

Definition authenticated_context {A} (authenticate : Credential → result AuthenticationError A)
    (headers : HeaderMap) : result TransportError A :=
  credential ← map_err (λ _, Unauthorized) (bearer_extract (request_context headers));
  credential ← ok_or Unauthorized credential;
  map_err (λ _, Unauthorized) (authenticate credential).

Definition IDEMPOTENCY_KEY_HEADER : string := "Idempotency-Key".
Definition IDEMPOTENCY_KEY_METADATA : string := "idempotency-key".

Definition raw_of (value : option string) : RawOperationKey :=
  match value with
  | None => KeyAbsent
  | Some value => match to_str value with Some raw => KeyPresent raw | None => KeyUnreadable end
  end.
Definition raw_operation_key (headers : HeaderMap) : RawOperationKey := raw_of (get headers IDEMPOTENCY_KEY_HEADER).
Definition carrier_name : string := "http:Idempotency-Key".
(** The carrier of gRPC metadata. *)
Definition grpc_raw_operation_key (metadata : HeaderMap) : RawOperationKey := raw_of (get metadata IDEMPOTENCY_KEY_METADATA).
Definition grpc_carrier_name : string := "grpc:idempotency-key".

Definition key_rejected_attributes (r : OperationKeyRejection) : string * string :=
  match r with
  | RejectMissing carrier => ("missing", carrier)
  | RejectInvalid carrier _ => ("invalid", carrier)
  | RejectUnreadable carrier => ("unreadable", carrier)
  end.

(** [OperationKeyExtractor]: the answer, and the counts of [idempotency.key.rejected]. *)
Definition operation_key (mode : IdempotencyEnforcementMode) (observed : bool) (headers : HeaderMap) :
    result TransportError (option OperationKey) * list (string * string) :=
  match resolve_operation_key carrier_name (raw_operation_key headers) mode with
  | Ok key => (Ok key, [])
  | Err rejection => (Err BadRequest, if observed then [key_rejected_attributes rejection] else [])
  end.

Definition TRACEPARENT_HEADER : string := "traceparent".
Definition traceparent_header (trace : option TraceContext) : option string := to_traceparent <$> trace.

(** [None] is a panic of the parser. *)
Definition originate_trace_context (fresh_trace : TraceId) (fresh : SpanId) (headers : HeaderMap) : option TraceContext :=
  let single := match get_all headers TRACEPARENT_HEADER with [value] => Some value | _ => None end in
  match single ≫= to_str with
  | None => Some (trace_root fresh_trace fresh)
  | Some header =>
      match from_inbound fresh header with
      | None => None
      | Some (Ok trace) => Some trace
      | Some (Err _) => Some (trace_root fresh_trace fresh)
      end
  end.

(** ** Errors *)
(** Nothing of an error's message reaches the response: it depends on the kind of error
    only, and its text is one of nine. *)
Lemma responses_are_fixed e : into_response e ∈
  [(400, "bad request"); (401, "unauthorized"); (403, "forbidden"); (404, "not found"); (409, "conflict");
   (429, "too many requests"); (504, "gateway timeout"); (503, "service unavailable"); (500, "internal error")]%Z.
Proof. destruct e; cbn; rewrite !elem_of_cons; auto 12. Qed.

Lemma same_code_same_response e e' :
  error_code e = error_code e' → into_response (from_service_error e) = into_response (from_service_error e').
Proof. by destruct e, e'. Qed.

(** The server is blamed exactly for system errors, time-outs and custom errors, unless the
    caller exceeded its rate. *)
Lemma server_errors e :
  (500 ≤ status_code (from_service_error e))%Z ↔
  (error_category e = CSystem ∨ error_category e = CTimeout ∨ error_category e = CUnknown) ∧ ∀ m, e ≠ RateLimit m.
Proof.
  destruct e as [m|m|m|m|m|m|m|m|m|m]; cbn; split; try lia; try (by intros [[?|[?|?]] _]); try (by intros _; split; [auto|]).
  intros [_ H]. by destruct (H m).
Qed.

(** A category survives the way through a service error, but for two that have no kind of
    their own and the unknown one. *)
Lemma category_survives c :
  error_category (from_category c) = c ↔ c ≠ CNetwork ∧ c ≠ CAuthentication ∧ c ≠ CUnknown.
Proof. destruct c; cbn; naive_solver. Qed.

(** ** Headers *)
Lemma to_str_Some v s : to_str v = Some s ↔ s = v ∧ all_bytes visible v = true.
Proof. unfold to_str. destruct (all_bytes visible v); naive_solver. Qed.

(** What the extractor answers for the operation key: nothing only if no such header was
    sent and the policy permits that; a key only if the first header is readable and is that
    key; and a header that is there but unusable is a counted 400, never an absence. *)
Lemma operation_key_exact mode observed headers :
  match operation_key mode observed headers with
  | (Ok None, counts) => get headers IDEMPOTENCY_KEY_HEADER = None ∧ mode = Compatibility ∧ counts = []
  | (Ok (Some k), counts) =>
      ∃ v, get headers IDEMPOTENCY_KEY_HEADER = Some v ∧ all_bytes visible v = true ∧ OperationKey_parse v = Ok k ∧ counts = []
  | (Err e, counts) =>
      e = BadRequest ∧
      ∃ why, counts = (if observed then [(why, "http:Idempotency-Key")] else []) ∧
      (why = "missing" ∧ get headers IDEMPOTENCY_KEY_HEADER = None ∧ mode = MandatoryKey ∨
       ∃ v, get headers IDEMPOTENCY_KEY_HEADER = Some v ∧
         (why = "unreadable" ∧ all_bytes visible v = false ∨
          why = "invalid" ∧ all_bytes visible v = true ∧ ∃ err, OperationKey_parse v = Err err))
  end.
Proof.
  unfold operation_key, raw_operation_key, raw_of, to_str.
  destruct (get headers IDEMPOTENCY_KEY_HEADER) as [v|] eqn:Hv; cbn [resolve_operation_key].
  - destruct (all_bytes visible v) eqn:Hvis; cbn [resolve_operation_key].
    + destruct (OperationKey_parse v) as [k|err] eqn:Hp; cbn; [by exists v|]. split; [done|].
      exists "invalid". split; [done|]. right. exists v. eauto 10.
    + split; [done|]. exists "unreadable". split; [done|]. right. exists v. auto.
  - destruct mode; cbn; [|done]. split; [done|]. exists "missing". auto.
Qed.

(** A handler gets a security context exactly for a bearer credential its provider accepts;
    everything else is one and the same 401. *)
Lemma authenticated_context_exact {A} (authenticate : Credential → result AuthenticationError A) headers :
  match authenticated_context authenticate headers with
  | Ok ctx => ∃ credential, bearer_extract (request_context headers) = Ok (Some credential) ∧ authenticate credential = Ok ctx
  | Err e => e = Unauthorized ∧
      ∀ credential, bearer_extract (request_context headers) = Ok (Some credential) → ∃ err, authenticate credential = Err err
  end.
Proof.
  unfold authenticated_context. destruct (bearer_extract _) as [[credential|]|err]; cbn; [|by split..].
  destruct (authenticate credential) as [ctx|err] eqn:Ha; cbn; [by exists credential|]. split; [done|].
  intros c [= <-]. eauto.
Qed.

(** *** Traces *)
Lemma visible_no_continuation a : visible a = true → byte_in 128 191 a = false.
Proof. destruct a as [[] [] [] [] [] [] [] []]; vm_compute; done. Qed.

Lemma str_drop_visible n s : all_bytes visible s = true → all_bytes visible (str_drop n s) = true.
Proof.
  revert n. induction s as [|a s IH]; intros [|n]; cbn; try done. rewrite andb_true_iff. intros [_ ?]. by apply IH.
Qed.

Lemma visible_boundary n s : all_bytes visible s = true → is_char_boundary n s = true.
Proof.
  intros Hs%(str_drop_visible n). unfold is_char_boundary. destruct (str_drop n s) as [|a r]; [done|].
  cbn in Hs. apply andb_true_iff in Hs as [Ha _]. by rewrite visible_no_continuation.
Qed.

Lemma decode_pairs_visible s i n : all_bytes visible s = true → is_Some (decode_pairs s i n).
Proof.
  intros Hs. revert i. induction n as [|n IH]; intros i; cbn [decode_pairs]; [eauto|].
  unfold pair_at. rewrite !visible_boundary by done. cbn [andb]. destruct (u8_from_str_radix16 _); [|eauto].
  destruct (IH (S i)) as [r ->]. eauto.
Qed.

Lemma split_visible c s part : all_bytes visible s = true → part ∈ Trace.split c s → all_bytes visible part = true.
Proof.
  revert part. induction s as [|a s IH]; intros part; cbn [Trace.split all_bytes].
  - by intros _ ->%list_elem_of_singleton.
  - rewrite andb_true_iff. intros [Ha Hs]. case_decide.
    + intros [->|Hin]%elem_of_cons; [done|by apply IH].
    + destruct (Trace.split c s) as [|p ps] eqn:Hsp.
      * intros ->%list_elem_of_singleton. cbn. by rewrite Ha.
      * intros [->|Hin]%elem_of_cons; [|apply IH; [done|by right]]. cbn. rewrite Ha. apply (IH p); [done|by left].
Qed.

Lemma parse_visible s : all_bytes visible s = true → is_Some (parse_traceparent s).
Proof.
  intros Hs. unfold parse_traceparent. pose proof (λ part, split_visible "-" s part Hs) as Hparts.
  destruct (Trace.split "-" s) as [|v [|t [|p [|f [|]]]]]; eauto. repeat (case_match; eauto).
  all: unfold TraceId_from_hex, SpanId_from_hex, decode_hex in *; case_decide; [done|].
  all: match goal with H : fmap _ (decode_pairs ?x 0 ?n) = None |- _ =>
         let Hx := fresh in assert (is_Some (decode_pairs x 0 n)) as [? Hx];
           [apply decode_pairs_visible, Hparts; rewrite !elem_of_cons; auto|by rewrite Hx in H] end.
Qed.

(** Whatever a client sends as [traceparent], the request has a trace and nothing panics:
    exactly one readable and well-formed header is continued, anything else starts anew. *)
Lemma ingress_always_has_a_trace fresh_trace fresh headers :
  originate_trace_context fresh_trace fresh headers =
    Some match get_all headers TRACEPARENT_HEADER with
         | [value] =>
             match to_str value ≫= parse_traceparent with
             | Some (Ok (trace_id, remote)) => mk_trace trace_id fresh (Some remote)
             | _ => trace_root fresh_trace fresh
             end
         | _ => trace_root fresh_trace fresh
         end.
Proof.
  unfold originate_trace_context. destruct (get_all headers TRACEPARENT_HEADER) as [|value [|]]; [done| |done].
  cbn [mbind option_bind]. destruct (to_str value) as [s|] eqn:Hs; [|done].
  apply to_str_Some in Hs as [-> Hvis]. cbn. unfold from_inbound.
  destruct (parse_visible value Hvis) as [[[t r]|e] ->]; done.
Qed.

(** A trace sent on by one service is continued by the next. *)
Lemma trace_crosses_services t fresh_trace fresh :
  length (trace_bytes (trace_trace_id t)) = 16 → length (span_bytes (trace_span_id t)) = 8 →
  trace_is_zero (trace_trace_id t) = false → span_is_zero (trace_span_id t) = false →
  ∀ value, traceparent_header (Some t) = Some value →
  originate_trace_context fresh_trace fresh [(TRACEPARENT_HEADER, value)] =
    Some (mk_trace (trace_trace_id t) fresh (Some (trace_span_id t))).
Proof.
  intros H1 H2 H3 H4 value [= <-]. unfold originate_trace_context.
  change (get_all _ TRACEPARENT_HEADER) with [to_traceparent t]. cbn [mbind option_bind]. unfold to_str.
  assert (all_bytes visible (to_traceparent t) = true) as ->.
  { unfold to_traceparent, encode_hex. rewrite !all_bytes_app, !hex_of_all by (intros []; vm_compute; reflexivity).
    reflexivity. }
  by rewrite traceparent_round_trip.
Qed.

Module Example_http.
(** Of two [Idempotency-Key] headers the first is taken. *)
Lemma first_key_wins :
  operation_key MandatoryKey true [("idempotency-key", "a"); ("idempotency-key", "b")] =
    operation_key MandatoryKey true [("idempotency-key", "a")].
Proof. reflexivity. Qed.

(** The header that makes the parser panic does not reach it over HTTP. *)
Lemma non_ascii_traceparent_restarts fresh_trace fresh :
  originate_trace_context fresh_trace fresh
    [("traceparent", "00-" +:+ String "195" (String "169" "-x-01"))] = Some (trace_root fresh_trace fresh).
Proof. reflexivity. Qed.
End Example_http.
