(* ===== verification/Drain.v ===== *)
(** * Stopping the delivery runner

    crates/runtime, effects/runner.rs: the loop of [run_inner] with its concurrency permits
    ([acquire_permit_and_spawn], [reclaim_due]), the tracked dispatch tasks and executor
    attempts ([spawn_tracked], [execute_catching_panics]) and the bounded drain
    ([shutdown_and_drain]); read_side/backpressure.rs; and of effects/acceptor.rs the
    constructors, [start] and how the shutdown splits its deadline.

    What a dispatch does to the stores is in Runner.v and Delivery.v; here a dispatch is a
    task that at times has an executor attempt, a task of its own.  Aborting a task takes
    effect at its next await; a dropped handle detaches its task; the caller of an inline
    dispatch may drop it at any time.  The critical sections
    over the abort handles are single steps; the lock on the tracked tasks is the loop's
    while it spawns and the drain's while it joins. *)

From S2P Require Import Prelude Identity Effect EffectStore RetryPolicy Queue Acceptor.

(** ** The acceptor, built and started *)
Section acceptor.
Context {State Dedup Executors Clock Observability : Type} (SystemClock : Clock).

Record DeliveryRunner := mk_runner {
  runner_state : State;
  runner_dedup : Dedup;
  runner_registry : Executors;
  runner_retry : RetryPolicies;
  runner_clock : Clock;
  runner_observability : option Observability;
}.
Definition DeliveryRunner_new (state : State) (dedup : Dedup) (registry : Executors) (retry : RetryPolicies)
    (clock : Clock) : DeliveryRunner := mk_runner state dedup registry retry clock None.
Definition runner_with_observability (observability : Observability) (self : DeliveryRunner) : DeliveryRunner :=
  mk_runner (runner_state self) (runner_dedup self) (runner_registry self) (runner_retry self) (runner_clock self)
    (Some observability).

(** A channel of [watch] is its value. *)
Record RuntimeEffectAcceptor := mk_acceptor {
  acceptor_state : State;
  accept_retry : RetryPolicy;
  acceptor_queue : EffectQueue;
  acceptor_runner : DeliveryRunner;
  acceptor_mode : RunnerMode;
  inline_receiver : bool;               (* the queue's receiver, in inline mode *)
  deferred_receiver : option bool;      (* the cell [start] takes it from *)
  shutdown_signal : bool;
  published_deadline : option Z;
  lifecycle : LifecycleGate;
}.

(** [mpsc::channel] panics on these capacities; [None] is that panic. *)
Definition MAX_PERMITS : Z := 2 ^ 61 - 1.
Definition channel_panics (capacity : Z) : bool := bool_decide (capacity = 0 ∨ MAX_PERMITS < capacity)%Z.

Definition with_clock_and_observability (state : State) (dedup : Dedup) (registry : Executors)
    (config : DeliveryConfig) (clock : Clock) (observability : option Observability) : option RuntimeEffectAcceptor :=
  if channel_panics (queue_capacity config) then None else
  let runner := DeliveryRunner_new state dedup registry (RetryPolicies_new (config_retry config)) clock in
  let runner := match observability with Some o => runner_with_observability o runner | None => runner end in
  let '(inline, deferred) :=
    match runner_mode config with Deferred => (false, Some true) | Inline => (true, None) end in
  Some (mk_acceptor state (config_retry config) (queue_bounded (Z.to_nat (queue_capacity config))) runner
    (runner_mode config) inline deferred false None gate_new).
Definition acceptor_with_clock state dedup registry config clock :=
  with_clock_and_observability state dedup registry config clock None.
Definition acceptor_new state dedup registry config := acceptor_with_clock state dedup registry config SystemClock.
Definition acceptor_with_observability state dedup registry config observability :=
  with_clock_and_observability state dedup registry config SystemClock observability.

(** The handle shares the acceptor's signals; it has the runner's task in [Deferred] mode.
    The loop runs with one permit. *)
Record EffectRuntimeHandle := mk_handle { handle_task : option nat; handle_runner : DeliveryRunner }.
Definition RUNNER_CONCURRENCY : nat := 1.
Definition take_receiver (self : RuntimeEffectAcceptor) : RuntimeEffectAcceptor :=
  mk_acceptor (acceptor_state self) (accept_retry self) (acceptor_queue self) (acceptor_runner self)
    (acceptor_mode self) (inline_receiver self) (Some false) (shutdown_signal self) (published_deadline self)
    (lifecycle self).
Definition start (self : RuntimeEffectAcceptor) : option (EffectRuntimeHandle * RuntimeEffectAcceptor) :=
  match acceptor_mode self with
  | Deferred =>
      match deferred_receiver self with
      | Some true => Some (mk_handle (Some RUNNER_CONCURRENCY) (acceptor_runner self), take_receiver self)
      | _ => None
      end
  | Inline => Some (mk_handle None (acceptor_runner self), self)
  end.

(** The queue has exactly one consumer: in [Deferred] mode the first [start] takes the
    receiver and any later one panics; in inline mode no start spawns a loop. *)
Lemma queue_has_one_consumer state dedup registry config clock observability self :
  with_clock_and_observability state dedup registry config clock observability = Some self →
  match runner_mode config with
  | Deferred => inline_receiver self = false ∧ ∃ h self', start self = Some (h, self') ∧ handle_task h = Some 1 ∧ start self' = None
  | Inline => inline_receiver self = true ∧ ∃ h, start self = Some (h, self) ∧ handle_task h = None
  end.
Proof.
  unfold with_clock_and_observability. destruct (channel_panics _); [done|]. unfold start.
  destruct (runner_mode config); intros [= <-]; cbn; [|by eauto]. split; [done|]. by do 2 eexists.
Qed.
End acceptor.

(** *** The split of the deadline *)
(** [saturating_duration_since], and half of it; a [Duration] is whole nanoseconds. *)
Definition remaining (elapses_at now : Z) : Z := Z.max 0 (elapses_at - now).
Definition runner_task_deadline (elapses_at now : Z) : Z := now + remaining elapses_at now / 2.

(** Waiting for the runner's task leaves the drain at least half of what remained. *)
Lemma drain_keeps_half elapses_at now later :
  (now ≤ elapses_at → later ≤ runner_task_deadline elapses_at now →
   remaining elapses_at now ≤ 2 * remaining elapses_at later)%Z.
Proof. unfold runner_task_deadline, remaining. intros. pose proof (Z.mul_div_le (Z.max 0 (elapses_at - now)) 2). lia. Qed.

(** ** Dispatches and attempts *)
(** Working covers every await that is not an attempt's. *)
Inductive DispatchState :=
| Working
| Spawned (a : nat)      (* the attempt runs, its handle is not registered yet *)
| Awaiting (a : nat).

Record Dispatch := mk_dispatch {
  tracked : bool;        (* in the [JoinSet]; the dispatches of inline mode are not *)
  doing : DispatchState;
  aborted : bool;
}.

Inductive AttemptState := Running | Aborting | Ended.
#[export] Instance AttemptState_eq_dec : EqDecision AttemptState.
Proof. solve_decision. Defined.
Record Attempt := mk_attempt {
  of_tracked : bool;     (* a tracked dispatch started it *)
  running : AttemptState;
}.

(** ** The loop *)
Inductive LoopState :=
| Idle                     (* at its [select!] *)
| Reclaiming (rest : nat)  (* claimed effects still to be looked at *)
| Wanting (rest : nat)     (* an effect waits for a permit *)
| Spawning (rest : nat)    (* it has one, and waits for the lock *)
| Returned.

(** ** The drain *)
Inductive DrainPhase :=
| NotDraining
| Locking | Joining | Dropping | Rejoining | Forcing
| Drained (clean : bool).

Record System := mk_system {
  dispatches : gmap nat Dispatch;
  attempts : gmap nat Attempt;
  executor_aborts : list nat;
  permits : nat;                   (* available *)
  loop : LoopState;
  stop : bool;
  clock : Z;
  deadline : Z;
  phase : DrainPhase;
}.

(** [Backpressure::new(concurrency.max(1))] *)
Definition permits_of (concurrency : nat) : nat := Nat.max concurrency 1.
Definition initial (concurrency : nat) (now : Z) : System :=
  mk_system ∅ ∅ [] (permits_of concurrency) Idle false now 0 NotDraining.

Definition RECLAIM_BATCH_LIMIT : nat := 32.

(** The batch of [reclaim_due] goes on, or the loop is at its [select!] again. *)
Definition next_loop (rest : nat) : LoopState := match rest with O => Idle | S _ => Reclaiming rest end.

Definition is_finished (att : gmap nat Attempt) (a : nat) : Prop := running <$> att !! a = Some Ended.
#[export] Instance is_finished_dec att a : Decision (is_finished att a).
Proof. unfold is_finished. apply _. Defined.

(** [aborts.retain(|h| !h.is_finished()); aborts.push(...)] *)
Definition register (att : gmap nat Attempt) (a : nat) (aborts : list nat) : list nat :=
  filter (λ h, ¬ is_finished att h) aborts ++ [a].

(** [AbortHandle::abort] *)
Definition abort_attempt (x : Attempt) : Attempt :=
  mk_attempt (of_tracked x) (match running x with Running => Aborting | st => st end).
Definition abort_attempts (l : list nat) (att : gmap nat Attempt) : gmap nat Attempt :=
  foldr (alter abort_attempt) att l.
(** [JoinSet::abort_all] *)
Definition abort_all (ds : gmap nat Dispatch) : gmap nat Dispatch :=
  (λ d, if tracked d then mk_dispatch true (doing d) true else d) <$> ds.

(** [join_next] until it answers nothing. *)
Definition all_joined (ds : gmap nat Dispatch) : Prop := map_Forall (λ _ d, tracked d = false) ds.

(** A dispatch ends, and drops its permit. *)
Definition release (d : Dispatch) (n : nat) : nat := if tracked d then S n else n.

(** The lock on the tracked tasks is the drain's. *)
Definition drain_holds_lock (ph : DrainPhase) : bool :=
  match ph with Joining | Dropping | Rejoining | Forcing => true | _ => false end.

(** ** Steps *)
Inductive loop_step : System → System → Prop :=
| loop_break ds att ab n now dl ph :
    loop_step (mk_system ds att ab n Idle true now dl ph) (mk_system ds att ab n Returned true now dl ph)
| loop_closed ds att ab n stop now dl ph :
    loop_step (mk_system ds att ab n Idle stop now dl ph) (mk_system ds att ab n Returned stop now dl ph)
| loop_recv ds att ab n stop now dl ph :
    loop_step (mk_system ds att ab n Idle stop now dl ph) (mk_system ds att ab n (Wanting 0) stop now dl ph)
| loop_tick ds att ab n stop now dl ph due :
    due ≤ RECLAIM_BATCH_LIMIT →
    loop_step (mk_system ds att ab n Idle stop now dl ph) (mk_system ds att ab n (next_loop due) stop now dl ph)
| loop_skip ds att ab n stop now dl ph rest :
    loop_step (mk_system ds att ab n (Reclaiming (S rest)) stop now dl ph)
      (mk_system ds att ab n (next_loop rest) stop now dl ph)
| loop_claimed ds att ab n stop now dl ph rest :
    loop_step (mk_system ds att ab n (Reclaiming (S rest)) stop now dl ph)
      (mk_system ds att ab n (Wanting rest) stop now dl ph)
| loop_permit ds att ab n stop now dl ph rest :
    loop_step (mk_system ds att ab (S n) (Wanting rest) stop now dl ph)
      (mk_system ds att ab n (Spawning rest) stop now dl ph)
| loop_stopped ds att ab n now dl ph rest :
    loop_step (mk_system ds att ab n (Wanting rest) true now dl ph)
      (mk_system ds att ab n Returned true now dl ph)
| loop_spawn ds att ab n stop now dl ph rest i :
    drain_holds_lock ph = false → ds !! i = None →
    loop_step (mk_system ds att ab n (Spawning rest) stop now dl ph)
      (mk_system (<[i := mk_dispatch true Working false]> ds) att ab n (next_loop rest) stop now dl ph)
| loop_aborted ds att ab n l stop now dl ph :
    loop_step (mk_system ds att ab n l stop now dl ph)
      (mk_system ds att ab (match l with Spawning _ => S n | _ => n end) Returned stop now dl ph).

Inductive task_step : System → System → Prop :=
| task_inline ds att ab n l stop now dl ph i :
    ds !! i = None →
    task_step (mk_system ds att ab n l stop now dl ph)
      (mk_system (<[i := mk_dispatch false Working false]> ds) att ab n l stop now dl ph)
| task_spawn ds att ab n l stop now dl ph i d a :
    ds !! i = Some d → doing d = Working → att !! a = None →
    task_step (mk_system ds att ab n l stop now dl ph)
      (mk_system (<[i := mk_dispatch (tracked d) (Spawned a) (aborted d)]> ds) (<[a := mk_attempt (tracked d) Running]> att) ab n l stop now dl ph)
| task_register ds att ab n l stop now dl ph i d a :
    ds !! i = Some d → doing d = Spawned a →
    task_step (mk_system ds att ab n l stop now dl ph)
      (mk_system (<[i := mk_dispatch (tracked d) (Awaiting a) (aborted d)]> ds) att (register att a ab) n l stop now dl ph)
| task_joined ds att ab n l stop now dl ph i d a :
    ds !! i = Some d → doing d = Awaiting a → is_finished att a →
    task_step (mk_system ds att ab n l stop now dl ph)
      (mk_system (<[i := mk_dispatch (tracked d) Working (aborted d)]> ds) att ab n l stop now dl ph)
| task_done ds att ab n l stop now dl ph i d :
    ds !! i = Some d → doing d = Working →
    task_step (mk_system ds att ab n l stop now dl ph)
      (mk_system (delete i ds) att ab (release d n) l stop now dl ph)
| task_cancelled ds att ab n l stop now dl ph i d :
    ds !! i = Some d → aborted d = true →
    task_step (mk_system ds att ab n l stop now dl ph)
      (mk_system (delete i ds) att ab (release d n) l stop now dl ph)
| task_dropped ds att ab n l stop now dl ph i d :
    ds !! i = Some d → tracked d = false →
    task_step (mk_system ds att ab n l stop now dl ph) (mk_system (delete i ds) att ab n l stop now dl ph)
| attempt_ends ds att ab n l stop now dl ph a x :
    att !! a = Some x →
    task_step (mk_system ds att ab n l stop now dl ph)
      (mk_system ds (<[a := mk_attempt (of_tracked x) Ended]> att) ab n l stop now dl ph).

(** [shutdown_and_drain] begins when the runner's task is gone. *)
Inductive drain_step : System → System → Prop :=
| drain_stop ds att ab n l stop now dl ph :
    drain_step (mk_system ds att ab n l stop now dl ph) (mk_system ds att ab n l true now dl ph)
| drain_tick ds att ab n l stop now now' dl ph :
    (now ≤ now')%Z →
    drain_step (mk_system ds att ab n l stop now dl ph) (mk_system ds att ab n l stop now' dl ph)
| drain_begin ds att ab n stop now dl dl' :
    drain_step (mk_system ds att ab n Returned stop now dl NotDraining)
      (mk_system ds att ab n Returned stop now dl' Locking)
| drain_locked ds att ab n stop now dl :
    drain_step (mk_system ds att ab n Returned stop now dl Locking)
      (mk_system ds att ab n Returned stop now dl Joining)
| drain_clean ds att ab n stop now dl :
    all_joined ds → (∀ a, a ∈ ab → is_finished att a) →
    drain_step (mk_system ds att ab n Returned stop now dl Joining)
      (mk_system ds att ab n Returned stop now dl (Drained true))
| drain_lingering ds att ab n stop now dl a :
    all_joined ds → a ∈ ab → ¬ is_finished att a →
    drain_step (mk_system ds att ab n Returned stop now dl Joining)
      (mk_system ds att ab n Returned stop now dl Dropping)
| drain_timed_out ds att ab n stop now dl :
    (dl ≤ now)%Z →
    drain_step (mk_system ds att ab n Returned stop now dl Joining)
      (mk_system ds att ab n Returned stop now dl Dropping)
| drain_abort ds att ab n stop now dl :
    drain_step (mk_system ds att ab n Returned stop now dl Dropping)
      (mk_system ds (abort_attempts ab att) [] n Returned stop now dl Rejoining)
| drain_rejoined ds att ab n stop now dl :
    all_joined ds →
    drain_step (mk_system ds att ab n Returned stop now dl Rejoining)
      (mk_system ds att ab n Returned stop now dl (Drained false))
| drain_stuck ds att ab n stop now dl :
    (dl ≤ now)%Z →
    drain_step (mk_system ds att ab n Returned stop now dl Rejoining)
      (mk_system (abort_all ds) att ab n Returned stop now dl Forcing)
| drain_forced ds att ab n stop now dl :
    all_joined ds →
    drain_step (mk_system ds att ab n Returned stop now dl Forcing)
      (mk_system ds att ab n Returned stop now dl (Drained false)).

Definition step (s s' : System) : Prop := loop_step s s' ∨ task_step s s' ∨ drain_step s s'.

(** ** The invariant *)
Definition owns (d : Dispatch) (a : nat) : Prop := doing d = Spawned a ∨ doing d = Awaiting a.
Definition tracked_count (ds : gmap nat Dispatch) : nat := size (filter (λ p : nat * Dispatch, tracked p.2 = true) ds).
(** The loop's own permit. *)
Definition held (l : LoopState) : nat := match l with Spawning _ => 1 | _ => 0 end.

(** Nothing was aborted so far. *)
Definition unforced (ph : DrainPhase) : bool :=
  match ph with NotDraining | Locking | Joining | Dropping | Drained true => true | _ => false end.

Record peaceful (s : System) : Prop := mk_peaceful {
  p_dispatches : ∀ i d, dispatches s !! i = Some d → aborted d = false;
  p_attempts : ∀ a x, attempts s !! a = Some x → of_tracked x = true → running x ≠ Ended →
    running x = Running ∧ ∃ i d, dispatches s !! i = Some d ∧ tracked d = true ∧ owns d a;
}.

Record wf (cap : nat) (s : System) : Prop := mk_wf {
  wf_permits : permits s + tracked_count (dispatches s) + held (loop s) = cap;
  wf_known : ∀ i d a, dispatches s !! i = Some d → owns d a → is_Some (attempts s !! a);
  wf_returned : phase s ≠ NotDraining → loop s = Returned;
  wf_peaceful : unforced (phase s) = true → peaceful s;
  wf_joined : (∃ b, phase s = Drained b) → all_joined (dispatches s);
  wf_forcing : phase s = Forcing → ∀ i d, dispatches s !! i = Some d → tracked d = true → aborted d = true;
}.

(** *** Counting permits *)
Lemma count_insert i d ds :
  ds !! i = None → tracked_count (<[i := d]> ds) = (if tracked d then 1 else 0) + tracked_count ds.
Proof. intros Hi. unfold tracked_count. rewrite size_filter_insert by done. by destruct d as [[] ? ?]. Qed.
Lemma count_delete i d ds :
  ds !! i = Some d → tracked_count ds = (if tracked d then 1 else 0) + tracked_count (delete i ds).
Proof. intros Hi. unfold tracked_count. rewrite (size_filter_delete _ i d ds Hi). by destruct d as [[] ? ?]. Qed.
Lemma count_update i d d' ds :
  ds !! i = Some d → tracked d' = tracked d → tracked_count (<[i := d']> ds) = tracked_count ds.
Proof.
  intros Hi Ht. rewrite <-insert_delete_eq, count_insert by apply lookup_delete_eq. by rewrite (count_delete i d ds), Ht.
Qed.
Lemma count_abort_all ds : tracked_count (abort_all ds) = tracked_count ds.
Proof.
  unfold abort_all. induction ds as [|i d ds Hi IH] using map_ind; [done|].
  rewrite fmap_insert, !count_insert, IH by (rewrite ?lookup_fmap, ?Hi; done). by destruct d as [[] ? ?].
Qed.

(** *** Preservation *)
(** A step that leaves dispatches and attempts alone. *)
Ltac close_wf Hr Hpe :=
  split; cbn in *; auto; try done; try lia; try (by intros Hne; specialize (Hr Hne));
  try (intros Hu; destruct (Hpe Hu); by split).

Lemma wf_loop cap s s' : loop_step s s' → wf cap s → wf cap s'.
Proof.
  intros Hst [Hp Hk Hr Hpe Hj Hf]. destruct Hst as [| | |ds att ab n stop now dl ph due _|ds att ab n stop now dl ph rest|
    |ds att ab n stop now dl ph rest| |ds att ab n stop now dl ph rest i Hlock Hi|ds att ab n l stop now dl ph]; cbn in *.
  1-3, 6-8: close_wf Hr Hpe.
  - destruct due; close_wf Hr Hpe.
  - destruct rest; close_wf Hr Hpe.
  - assert (ph = NotDraining) as -> by (destruct ph; [done|exfalso; by discriminate Hr..]). split; cbn; try done.
    + rewrite count_insert by done. destruct rest; cbn; lia.
    + intros i' d a Hd Ho. insert_cases Hd; [by destruct Ho|eauto].
    + intros _. destruct (Hpe eq_refl) as [Hd Ha]. split; cbn.
      * intros i' d Hd'. insert_cases Hd'; eauto.
      * intros a x Hx Ht Hne. destruct (Ha a x Hx Ht Hne) as [? (i' & d & Hd' & Hdo)]. split; [done|]. exists i', d.
        cbn in Hd'. rewrite lookup_insert_ne by congruence. done.
    + by intros [].
  - destruct l; close_wf Hr Hpe.
Qed.

(** A dispatch goes on to what owns at most one attempt, which is known. *)
Lemma wf_progress cap ds att ab ab' n l stop now dl ph i d d' att' :
  wf cap (mk_system ds att ab n l stop now dl ph) →
  ds !! i = Some d → tracked d' = tracked d → aborted d' = aborted d →
  (∀ a, owns d' a → is_Some (att' !! a)) →
  (∀ a, is_Some (att !! a) → is_Some (att' !! a)) →
  (∀ a x, att' !! a = Some x → running x ≠ Ended →
    owns d' a ∧ of_tracked x = tracked d ∧ running x = Running ∨ att !! a = Some x ∧ (owns d a → owns d' a)) →
  wf cap (mk_system (<[i := d']> ds) att' ab' n l stop now dl ph).
Proof.
  intros [Hp Hk Hr Hpe Hj Hf] Hi Ht Hab Hown Hmono Hatt. cbn in *. split; cbn; auto.
  - by rewrite (count_update i d).
  - intros i' e a He Ho. insert_cases He; [by apply Hown|eauto].
  - intros Hu. destruct (Hpe Hu) as [Hd Ha]. split; cbn.
    + intros i' e He. insert_cases He; [|eauto]. rewrite Hab. eauto.
    + intros a x Hx Htx Hne. destruct (Hatt a x Hx Hne) as [(Ho & Hof & Hrun)|[Hold Hnot]].
      * split; [done|]. exists i, d'. rewrite lookup_insert_eq, Ht, <-Hof. by split_and!.
      * destruct (Ha a x Hold Htx Hne) as [? (i' & e & He & Hte & Ho)]. split; [done|]. cbn in He.
        destruct (decide (i' = i)) as [->|Hn]; [|exists i', e; by rewrite lookup_insert_ne].
        rewrite Hi in He. injection He as <-. exists i, d'. rewrite lookup_insert_eq, Ht. auto.
  - intros Hdr i' e He. insert_cases He; [rewrite Ht|]; by eapply Hj.
  - intros Hph i' e He Hte. insert_cases He; [rewrite Hab; rewrite Ht in Hte|]; eauto.
Qed.

Lemma wf_remove cap ds att ab n l stop now dl ph i d :
  wf cap (mk_system ds att ab n l stop now dl ph) → ds !! i = Some d →
  (unforced ph = true → tracked d = true → ∀ a, ¬ owns d a) →
  wf cap (mk_system (delete i ds) att ab (release d n) l stop now dl ph).
Proof.
  intros [Hp Hk Hr Hpe Hj Hf] Hi Hown. cbn in *. split; cbn; auto.
  - rewrite (count_delete i d ds Hi) in Hp. unfold release. destruct (tracked d); lia.
  - intros i' e a He. delete_cases He. eauto.
  - intros Hu. destruct (Hpe Hu) as [Hd Ha]. split; cbn.
    + intros i' e He. delete_cases He. eauto.
    + intros a x Hx Htx Hne. destruct (Ha a x Hx Htx Hne) as [? (i' & e & He & Hte & Ho)]. split; [done|]. exists i', e.
      rewrite lookup_delete_ne; [done|]. intros <-. cbn in He. rewrite Hi in He. injection He as <-. by apply (Hown Hu Hte a).
  - intros Hdr i' e He. delete_cases He. by eapply Hj.
  - intros Hph i' e He. delete_cases He. eauto.
Qed.

Lemma abort_attempts_known l att a : is_Some (att !! a) → is_Some (abort_attempts l att !! a).
Proof. induction l as [|x l IH]; [done|]. intros Ha. cbn. apply lookup_alter_is_Some. auto. Qed.

Lemma wf_task cap s s' : task_step s s' → wf cap s → wf cap s'.
Proof.
  intros Hst Hwf. destruct Hst as [ds att ab n l stop now dl ph i Hi|ds att ab n l stop now dl ph i d a Hi Hd Ha|
    ds att ab n l stop now dl ph i d a Hi Hd|ds att ab n l stop now dl ph i d a Hi Hd Ha|ds att ab n l stop now dl ph i d Hi Hd|
    ds att ab n l stop now dl ph i d Hi Hd|ds att ab n l stop now dl ph i d Hi Hd|ds att ab n l stop now dl ph a x Ha].
  - destruct Hwf as [Hp Hk Hr Hpe Hj Hf]. cbn in *. split; cbn; auto.
    + by rewrite count_insert.
    + intros i' d a He Ho. insert_cases He; [by destruct Ho|eauto].
    + intros Hu. destruct (Hpe Hu) as [Hd Hat]. split; cbn.
      * intros i' d He. insert_cases He; eauto.
      * intros a x Hx Htx Hne. destruct (Hat a x Hx Htx Hne) as [? (i' & d & He & Hdo)]. split; [done|]. exists i', d.
        cbn in He. rewrite lookup_insert_ne by congruence. done.
    + intros Hdr i' d He. insert_cases He; [done|]. by eapply Hj.
    + intros Hph i' d He Ht. insert_cases He. eauto.
  - eapply (wf_progress _ _ _ _ _ _ _ _ _ _ _ _ _ _ _ Hwf Hi); [done..| | |].
    + intros a' [[= <-]|[=]]. rewrite lookup_insert_eq. by eexists.
    + intros a' [st Hst]. destruct (decide (a' = a)) as [->|]; [by rewrite lookup_insert_eq|by rewrite lookup_insert_ne].
    + intros a' x Hst Hne. insert_cases Hst; [left; split_and!; [by left|done..]|]. right. split; [done|]. intros [Ho|Ho]; congruence.
  - eapply (wf_progress _ _ _ _ _ _ _ _ _ _ _ _ _ _ _ Hwf Hi); [done..| |done|].
    + intros a' [[=]|[= <-]]. apply (wf_known _ _ Hwf i d); [done|by left].
    + intros a' st Hst Hne. right. split; [done|]. intros [Ho|Ho]; [|congruence]. right. cbn. congruence.
  - eapply (wf_progress _ _ _ _ _ _ _ _ _ _ _ _ _ _ _ Hwf Hi); [done..| |done|].
    + by intros a' [[=]|[=]].
    + intros a' x Hx Hne. right. split; [done|]. intros [Ho|Ho]; [congruence|]. rewrite Hd in Ho. injection Ho as <-.
      unfold is_finished in Ha. rewrite Hx in Ha. cbn in Ha. congruence.
  - eapply wf_remove; [exact Hwf|exact Hi|]. intros _ _ a [Ho|Ho]; congruence.
  - eapply wf_remove; [exact Hwf|exact Hi|]. intros Hu _. pose proof (p_dispatches _ (wf_peaceful _ _ Hwf Hu) i d Hi). congruence.
  - pose proof (wf_remove _ _ _ _ _ _ _ _ _ _ _ _ Hwf Hi) as H. unfold release in H. rewrite Hd in H. by apply H.
  - destruct Hwf as [Hp Hk Hr Hpe Hj Hf]. cbn in *. split; cbn; auto.
    + intros i d a' Hd Ho. destruct (decide (a' = a)) as [->|]; [by rewrite lookup_insert_eq|].
      rewrite lookup_insert_ne by done. eauto.
    + intros Hu. destruct (Hpe Hu) as [Hd Hat]. split; cbn; [done|]. intros a' x' Hst Hne. insert_cases Hst; [done|]. eauto.
Qed.

Lemma abort_all_lookup ds i d :
  abort_all ds !! i = Some d → ∃ d0, ds !! i = Some d0 ∧ tracked d = tracked d0 ∧ doing d = doing d0 ∧
    (tracked d = true → aborted d = true).
Proof.
  unfold abort_all. rewrite lookup_fmap. destruct (ds !! i) as [[t w k]|]; [|done]. cbn. intros [= <-].
  exists (mk_dispatch t w k). by destruct t.
Qed.

Lemma wf_drain cap s s' : drain_step s s' → wf cap s → wf cap s'.
Proof.
  intros Hst [Hp Hk Hr Hpe Hj Hf]. destruct Hst; cbn in *;
    try (close_wf Hr Hpe; by intros [b [=]]).
  - split; cbn; try done. intros i d a Hd Ho. apply abort_attempts_known. eauto. by intros [b [=]].
  - split; cbn; try done; [by rewrite count_abort_all| |by intros [b [=]]|].
    + intros i d a Hd Ho. apply abort_all_lookup in Hd as (d0 & Hd & _ & Hw & _). apply (Hk i d0 a Hd).
      unfold owns in *. by rewrite <-Hw.
    + intros _ i d Hd Ht. apply abort_all_lookup in Hd as (d0 & _ & _ & _ & Hab). auto.
Qed.

Lemma drain_initial_wf c now : wf (permits_of c) (initial c now).
Proof.
  split; cbn; try done.
  change (tracked_count ∅) with 0. lia.
Qed.

Lemma drain_wf c now s : rtc step (initial c now) s → wf (permits_of c) s.
Proof.
  intros Hr. pose proof (drain_initial_wf c now) as Hwf. induction Hr as [|s s1 s2 Hst _ IH]; [done|]. apply IH.
  destruct Hst as [Hst|[Hst|Hst]]; eauto using wf_loop, wf_task, wf_drain.
Qed.

(** ** What a drain leaves *)

(** What is true of the runner once the drain answered. *)
Record stopped (s : System) : Prop := mk_stopped {
  stopped_loop : loop s = Returned;
  stopped_tasks : ∀ i d, dispatches s !! i = Some d → tracked d = false;
  stopped_clean : phase s = Drained true →
    ∀ a x, attempts s !! a = Some x → of_tracked x = true → running x = Ended;
}.

(** The permits bound the dispatches at any time: a dispatch runs, or the loop is about to
    spawn it, on a permit of its own.  When the drain has answered, the loop is gone and no
    tracked dispatch is left; and when it answered that nothing was aborted, every attempt of
    a tracked dispatch has ended. *)
Theorem drain_stops_the_runner c now s (Hr : rtc step (initial c now) s) :
  permits s + tracked_count (dispatches s) + held (loop s) = permits_of c ∧
  (∀ b, phase s = Drained b → stopped s).
Proof.
  destruct (drain_wf c now s Hr) as [Hp _ Hret Hpe Hj _]. split; [done|].
  intros b Hb. split; [apply Hret; by rewrite Hb|eapply Hj; by exists b|].
  intros Hc a x Ha Ht. destruct (Hpe ltac:(by rewrite Hc)) as [_ Hat].
  destruct (decide (running x = Ended)) as [|Hne]; [done|]. destruct (Hat a x Ha Ht Hne) as [_ (i & d & Hd & Htd & _)].
  by rewrite (Hj (ex_intro _ b Hb) i d Hd) in Htd.
Qed.

(** *** The drain can always finish *)
(** Once forced, the tracked dispatches go one by one. *)
Lemma forced_joins ds att ab n stop now dl :
  (∀ i d, ds !! i = Some d → tracked d = true → aborted d = true) →
  ∃ ds' n', all_joined ds' ∧
    rtc step (mk_system ds att ab n Returned stop now dl Forcing) (mk_system ds' att ab n' Returned stop now dl Forcing).
Proof.
  remember (size ds) as k eqn:Hk. revert ds n Hk. induction k as [|k IH]; intros ds n Hk Hab.
  - symmetry in Hk. apply map_size_empty_inv in Hk as ->. exists ∅, n. split; [|done]. apply map_Forall_empty.
  - destruct (decide (all_joined ds)) as [|Hno]; [by exists ds, n|].
    unfold all_joined in Hno. apply map_not_Forall in Hno as (i & d & Hd & Ht); [|apply _].
    assert (aborted d = true) as Hd' by (apply (Hab i d Hd); by destruct (tracked d)).
    destruct (IH (delete i ds) (release d n)) as (ds' & n' & Hj & Hrun).
    + rewrite map_size_delete_Some by by eexists. lia.
    + intros i' d' Hi'. delete_cases Hi'. eauto.
    + exists ds', n'. split; [done|]. eapply rtc_l; [|exact Hrun]. right. left. by apply task_cancelled.
Qed.

(** Where the drain stands. *)
Definition draining (ph : DrainPhase) : Prop := ph ≠ NotDraining.

(** However the dispatches and the attempts behave, a drain that has begun can answer: the
    deadline passes, what still runs is aborted, and an aborted dispatch ends. *)
Lemma drain_can_finish c now s (Hr : rtc step (initial c now) s) (Hd : draining (phase s)) :
  ∃ s' b, rtc step s s' ∧ phase s' = Drained b.
Proof.
  destruct (drain_wf c now s Hr) as [_ _ Hret _ _ Hf]. specialize (Hret Hd).
  destruct s as [ds att ab n l stop t dl ph]. cbn in *. subst l.
  assert (∀ ds' att' ab' n' t', (∀ i d, ds' !! i = Some d → tracked d = true → aborted d = true) →
    ∃ s' b, rtc step (mk_system ds' att' ab' n' Returned stop t' dl Forcing) s' ∧ phase s' = Drained b) as Hforce.
  { intros ds' att' ab' n' t' Hab. destruct (forced_joins ds' att' ab' n' stop t' dl Hab) as (ds2 & n2 & Hj & Hrun).
    eexists _, false. split; [eapply rtc_r; [exact Hrun|right; right; by apply drain_forced]|done]. }
  assert (∀ ds' att' ab' n' t', ∃ s' b,
    rtc step (mk_system ds' att' ab' n' Returned stop t' dl Rejoining) s' ∧ phase s' = Drained b) as Hrejoin.
  { intros ds' att' ab' n' t'. destruct (Hforce (abort_all ds') att' ab' n' (Z.max t' dl)) as (s' & b & Hrun & Hb).
    { intros i d Hi Ht. apply abort_all_lookup in Hi as (? & _ & _ & _ & Hab). auto. }
    exists s', b. split; [|done]. eapply rtc_l; [right; right; apply (drain_tick _ _ _ _ _ _ t' (Z.max t' dl)); lia|].
    eapply rtc_l; [right; right; apply drain_stuck; lia|exact Hrun]. }
  assert (∀ t', ∃ s' b, rtc step (mk_system ds att ab n Returned stop t' dl Dropping) s' ∧ phase s' = Drained b) as Hdrop.
  { intros t'. destruct (Hrejoin ds (abort_attempts ab att) [] n t') as (s' & b & Hrun & Hb).
    exists s', b. split; [|done]. eapply rtc_l; [right; right; apply drain_abort|exact Hrun]. }
  assert (∃ s' b, rtc step (mk_system ds att ab n Returned stop t dl Joining) s' ∧ phase s' = Drained b) as Hjoin.
  { destruct (Hdrop (Z.max t dl)) as (s' & b & Hrun & Hb). exists s', b. split; [|done].
    eapply rtc_l; [right; right; apply (drain_tick _ _ _ _ _ _ t (Z.max t dl)); lia|].
    eapply rtc_l; [right; right; apply drain_timed_out; lia|exact Hrun]. }
  destruct ph as [| | | | | |b]; [by destruct Hd| |exact Hjoin|apply Hdrop|apply Hrejoin|apply Hforce, Hf; done|by eexists _, b].
  destruct Hjoin as (s' & b & Hrun & Hb). exists s', b. split; [|done].
  eapply rtc_l; [right; right; apply drain_locked|exact Hrun].
Qed.

(** ** An attempt that outlives a forced drain *)
(** A dispatch whose store call hangs while the drain aborts the attempts may still start an
    attempt of its own before [abort_all] ends it: nothing aborts that attempt. *)
Definition leaked : System :=
  mk_system ∅ {[ 0 := mk_attempt true Running ]} [0] 1 Returned true 0 0 (Drained false).

Ltac via r := eapply rtc_l; [r|cbn [next_loop tracked doing aborted release]].
Ltac loops t := left; t.
Ltac tasks t := right; left; t.
Ltac drains t := right; right; t.

Example forced_drain_leaks_attempt : rtc step (initial 1 0) leaked.
Proof.
  unfold initial, permits_of. cbn [Nat.max].
  via ltac:(loops ltac:(apply loop_recv)). via ltac:(loops ltac:(apply loop_permit)).
  via ltac:(loops ltac:(by apply (loop_spawn _ _ _ _ _ _ _ _ _ 0))).
  via ltac:(drains ltac:(apply drain_stop)). via ltac:(loops ltac:(apply loop_break)).
  via ltac:(drains ltac:(apply (drain_begin _ _ _ _ _ _ _ 0))). via ltac:(drains ltac:(apply drain_locked)).
  via ltac:(drains ltac:(by apply drain_timed_out)). via ltac:(drains ltac:(apply drain_abort)).
  via ltac:(tasks ltac:(by eapply (task_spawn _ _ _ _ _ _ _ _ _ 0 _ 0))).
  via ltac:(tasks ltac:(by eapply (task_register _ _ _ _ _ _ _ _ _ 0 _ 0))).
  via ltac:(drains ltac:(by apply drain_stuck)).
  via ltac:(tasks ltac:(by eapply (task_cancelled _ _ _ _ _ _ _ _ _ 0))).
  via ltac:(drains ltac:(by apply drain_forced)).
  match goal with |- rtc step ?s leaked => replace s with leaked; [apply rtc_refl|] end.
  vm_compute. reflexivity.
Qed.
