(* ===== verification/Telemetry.v ===== *)
(** * Spans and metrics

    crates/domain: tracer.rs (attributes, outcomes), observability.rs; the guard of
    service-sdk, runtime/runtime_builder.rs ([OpenSpan]); and the two exporters of
    crates/infrastructure, tracing_otlp.rs ([OtlpTracer]) and metrics_otlp.rs
    ([OtlpMetrics]).

    The opentelemetry SDK is outside: its identifier parsers and its instruments are
    arguments, what is handed to its processor is a list.  The span table is a concurrent
    map whose calls are atomic; a [start_span] makes three of them. *)

From S2P Require Import Prelude Identity Fingerprint Security Trace.

#[export] Instance byte_countable : Countable Byte.byte :=
  inj_countable Byte.to_N Byte.of_N (λ b, Byte.of_to_N b).
#[export] Instance SpanId_countable : Countable SpanId := inj_countable' span_bytes mk_span_id ltac:(by intros []).

(** ** Attributes and outcomes *)
Definition TraceId_to_hex (t : TraceId) : string := encode_hex (trace_bytes t).
Definition SpanId_to_hex (s : SpanId) : string := encode_hex (span_bytes s).

(** The duration is in nanoseconds. *)
Record SpanAttributes := mk_attributes {
  tenant_present : option bool;
  duration : option Z;
  operation_key_hash : option string;
}.
Definition SpanAttributes_new : SpanAttributes := mk_attributes None None None.
Definition with_tenant_hint_present (present : bool) (self : SpanAttributes) : SpanAttributes :=
  mk_attributes (Some present) (duration self) (operation_key_hash self).
Definition with_duration (d : Z) (self : SpanAttributes) : SpanAttributes :=
  mk_attributes (tenant_present self) (Some d) (operation_key_hash self).
Definition with_operation_key_hash (hash : string) (self : SpanAttributes) : SpanAttributes :=
  mk_attributes (tenant_present self) (duration self) (Some hash).

Inductive SpanOutcome := SpanOk | SpanError (status_message : string).

(** ** The guard *)
(** What a tracer is told. *)
Inductive TracerCall := EndSpan (span : SpanId) (outcome : SpanOutcome).
Record OpenSpan := mk_open { open_span : SpanId; closed : bool }.
Definition OpenSpan_new (span_id : SpanId) : OpenSpan := mk_open span_id false.
Definition ABANDONED_SPAN : string := "the reservation attempt was abandoned before it completed".
Definition drop_span (self : OpenSpan) : list TracerCall :=
  if closed self then [] else [EndSpan (open_span self) (SpanError ABANDONED_SPAN)].
(** [close] consumes the guard, which is dropped at its end. *)
Definition close_span (outcome : SpanOutcome) (self : OpenSpan) : list TracerCall :=
  EndSpan (open_span self) outcome :: drop_span (mk_open (open_span self) true).

(** Whatever becomes of the work, its span ends once: with the outcome it earned, or as
    abandoned when it is dropped. *)
Lemma guard_ends_once span (earned : option SpanOutcome) :
  match earned with Some o => close_span o (OpenSpan_new span) | None => drop_span (OpenSpan_new span) end =
  [EndSpan span (default (SpanError ABANDONED_SPAN) earned)].
Proof. by destruct earned. Qed.

(** ** The tracing exporter *)
Inductive AttributeValue := VBool (b : bool) | VInt (i : Z) | VString (s : string).

(** [duration.as_millis() as i64] *)
Definition as_millis_i64 (nanos : Z) : Z := as_i64 (nanos / 10 ^ 6).
Definition to_otel_attributes (attrs : SpanAttributes) : list (string * AttributeValue) :=
  match tenant_present attrs with Some present => [("tenant.present", VBool present)] | None => [] end ++
  match duration attrs with Some d => [("duration_ms", VInt (as_millis_i64 d))] | None => [] end ++
  match operation_key_hash attrs with
  | Some hash => [("idempotency.operation_key_hash", VString hash)]
  | None => []
  end.

Inductive OtelStatus := Unset | StatusOk | StatusError (description : string).
Definition status_of (outcome : SpanOutcome) : OtelStatus :=
  match outcome with SpanOk => StatusOk | SpanError status_message => StatusError status_message end.

Record InProgressSpan := mk_progress {
  ip_trace_id : TraceId;
  ip_span_id : SpanId;
  ip_parent_span_id : option SpanId;
  ip_name : string;
  ip_start_time : Z;
  ip_attributes : list (string * AttributeValue);
}.
(** The record [start_span] makes. *)
Definition in_progress (ctx : TraceContext) (name : string) (attrs : SpanAttributes) (now : Z) : InProgressSpan :=
  mk_progress (trace_trace_id ctx) (trace_span_id ctx) (trace_parent_span_id ctx) name now (to_otel_attributes attrs).

Section exporter.
Context {OTrace OSpan : Type} (trace_from_hex : string → option OTrace) (span_from_hex : string → option OSpan)
  (INVALID : OSpan).

(** The [expect]s: [None] is their panic. *)
Definition to_otel_trace_id (id : TraceId) : option OTrace := trace_from_hex (TraceId_to_hex id).
Definition to_otel_span_id (id : SpanId) : option OSpan := span_from_hex (SpanId_to_hex id).

Record SpanData := mk_span_data {
  sd_trace_id : OTrace;
  sd_span_id : OSpan;
  sd_parent_span_id : OSpan;
  sd_parent_is_remote : bool;
  sd_name : string;
  sd_start_time : Z;
  sd_end_time : Z;
  sd_attributes : list (string * AttributeValue);
  sd_status : OtelStatus;
}.
Definition build_span_data (record : InProgressSpan) (status : OtelStatus) (now : Z) : option SpanData :=
  trace ← to_otel_trace_id (ip_trace_id record);
  span ← to_otel_span_id (ip_span_id record);
  parent ← match ip_parent_span_id record with Some p => to_otel_span_id p | None => Some INVALID end;
  Some (mk_span_data trace span parent (bool_decide (is_Some (ip_parent_span_id record))) (ip_name record)
    (ip_start_time record) now (ip_attributes record) status).

(** What is exported carries the identity of the context it was started with: the span
    identifier a service propagates is the one its collector sees. *)
Lemma exported_identity ctx name attrs t0 status t1 sd :
  build_span_data (in_progress ctx name attrs t0) status t1 = Some sd →
  trace_from_hex (encode_hex (trace_bytes (trace_trace_id ctx))) = Some (sd_trace_id sd) ∧
  span_from_hex (encode_hex (span_bytes (trace_span_id ctx))) = Some (sd_span_id sd) ∧
  match trace_parent_span_id ctx with
  | Some p => span_from_hex (encode_hex (span_bytes p)) = Some (sd_parent_span_id sd) ∧ sd_parent_is_remote sd = true
  | None => sd_parent_span_id sd = INVALID ∧ sd_parent_is_remote sd = false
  end ∧ sd_status sd = status.
Proof.
  unfold build_span_data, to_otel_trace_id, to_otel_span_id, TraceId_to_hex, SpanId_to_hex. cbn.
  destruct (trace_from_hex _); [|done]. destruct (span_from_hex _) eqn:Hs; [|done]. cbn.
  destruct (trace_parent_span_id ctx) as [p|]; cbn.
  - destruct (span_from_hex (encode_hex (span_bytes p))) eqn:Hp; [|done]. intros [= <-]. by split_and!.
  - intros [= <-]. by split_and!.
Qed.

(** *** Identifiers *)
Context (trace_hex : OTrace → string) (span_hex : OSpan → string).
Definition from_otel_trace_id (id : OTrace) : option (result TraceParseError TraceId) := TraceId_from_hex (trace_hex id).
Definition from_otel_span_id (id : OSpan) : option (result TraceParseError SpanId) := SpanId_from_hex (span_hex id).

(** The SDK reads 32, and 16, lower-case hexadecimal digits and prints them back. *)
Context (Htrace : ∀ bs : list Byte.byte, length bs = 16 → ∃ o, trace_from_hex (hex_of bs) = Some o ∧ trace_hex o = hex_of bs).
Context (Hspan : ∀ bs : list Byte.byte, length bs = 8 → ∃ o, span_from_hex (hex_of bs) = Some o ∧ span_hex o = hex_of bs).

(** Then no identifier makes the conversion panic, and none is changed by it. *)
Lemma identifiers_survive_otel t s :
  length (trace_bytes t) = 16 → length (span_bytes s) = 8 →
  (∃ o, to_otel_trace_id t = Some o ∧ from_otel_trace_id o = Some (Ok t)) ∧
  (∃ o, to_otel_span_id s = Some o ∧ from_otel_span_id o = Some (Ok s)).
Proof.
  intros Ht Hs. destruct (Htrace _ Ht) as (o & Ho & Hh). destruct (Hspan _ Hs) as (o' & Ho' & Hh'). split.
  - exists o. split; [done|]. unfold from_otel_trace_id, TraceId_from_hex. rewrite Hh, decode_hex_of by done. by destruct t.
  - exists o'. split; [done|]. unfold from_otel_span_id, SpanId_from_hex. rewrite Hh', decode_hex_of by done. by destruct s.
Qed.
End exporter.

(** ** The span table *)
(** A [start_span] under way: past [contains_key], or past the capacity check too. *)
Inductive StartPhase := PastKey | PastLen.
#[export] Instance StartPhase_eq_dec : EqDecision StartPhase.
Proof. solve_decision. Defined.
Record Start := mk_start { start_phase : StartPhase; start_record : InProgressSpan }.

(** Every call of [start_span] has a number.  A shutdown removes, one by one, the keys it
    saw; what it exports has no outcome. *)
Record System := mk_system {
  starting : gmap nat Start;
  table : gmap SpanId (nat * InProgressSpan);
  exported : list (nat * InProgressSpan * OtelStatus);
  refused : list nat;                (* duplicates, and starts at capacity *)
  overwritten : list nat;
  shutting : list (list SpanId);
  next : nat;
}.
Definition initial : System := mk_system ∅ ∅ [] [] [] [] 0.

(** [end_span], and what the loop of [shutdown] does with a key. *)
Definition take (span_id : SpanId) (status : OtelStatus) (s : System) : System :=
  match table s !! span_id with
  | Some (n, record) =>
      mk_system (starting s) (delete span_id (table s)) (exported s ++ [(n, record, status)]) (refused s)
        (overwritten s) (shutting s) (next s)
  | None => s
  end.

Section table.
Context (max_in_flight_spans threads : nat).

Inductive step : System → System → Prop :=
| start_duplicate st tb ex re ov sh n record :
    is_Some (tb !! ip_span_id record) →
    step (mk_system st tb ex re ov sh n) (mk_system st tb ex (n :: re) ov sh (S n))
| start_checked st tb ex re ov sh n record :
    size st < threads → tb !! ip_span_id record = None →
    step (mk_system st tb ex re ov sh n) (mk_system (<[n := mk_start PastKey record]> st) tb ex re ov sh (S n))
| start_full st tb ex re ov sh n i record :
    st !! i = Some (mk_start PastKey record) → max_in_flight_spans ≤ size tb →
    step (mk_system st tb ex re ov sh n) (mk_system (delete i st) tb ex (i :: re) ov sh n)
| start_admitted st tb ex re ov sh n i record :
    st !! i = Some (mk_start PastKey record) → size tb < max_in_flight_spans →
    step (mk_system st tb ex re ov sh n) (mk_system (<[i := mk_start PastLen record]> st) tb ex re ov sh n)
| start_inserts st tb ex re ov sh n i record :
    st !! i = Some (mk_start PastLen record) →
    step (mk_system st tb ex re ov sh n)
      (mk_system (delete i st) (<[ip_span_id record := (i, record)]> tb) ex re
        (match tb !! ip_span_id record with Some old => old.1 :: ov | None => ov end) sh n)
| end_span s span_id outcome : step s (take span_id (status_of outcome) s)
| shutdown_begins st tb ex re ov sh n it :
    it ≡ₚ elements (dom tb) →
    step (mk_system st tb ex re ov sh n) (mk_system st tb ex re ov (it :: sh) n)
| shutdown_takes s k rest sh :
    shutting s = (k :: rest) :: sh →
    step s (take k Unset (mk_system (starting s) (table s) (exported s) (refused s) (overwritten s) (rest :: sh) (next s)))
| shutdown_other st tb ex re ov sh sh' n :
    sh' ≡ₚ sh → step (mk_system st tb ex re ov sh n) (mk_system st tb ex re ov sh' n).

(** *** Every start is accounted for once *)
Definition live (tb : gmap SpanId (nat * InProgressSpan)) : list nat := (λ p, p.2.1) <$> map_to_list tb.
Definition pending (st : gmap nat Start) : list nat := (map_to_list st).*1.
Definition admitted (st : gmap nat Start) : nat := size (filter (λ p : nat * Start, start_phase p.2 = PastLen) st).

Record accounted (s : System) : Prop := mk_accounted {
  a_numbers : pending (starting s) ++ live (table s) ++ (exported s).*1.*1 ++ refused s ++ overwritten s ≡ₚ seq 0 (next s);
  a_threads : size (starting s) ≤ threads;
  a_bound : size (table s) + admitted (starting s) ≤ max_in_flight_spans + Nat.pred threads;
  a_keys : ∀ k n record, table s !! k = Some (n, record) → ip_span_id record = k;
}.

Lemma pending_insert i x st : st !! i = None → pending (<[i := x]> st) ≡ₚ i :: pending st.
Proof. intros Hi. unfold pending. by rewrite map_to_list_insert. Qed.
Lemma pending_delete i x st : st !! i = Some x → pending st ≡ₚ i :: pending (delete i st).
Proof.
  intros Hi. rewrite <-(insert_delete_id st i x Hi) at 1. apply pending_insert, lookup_delete_eq.
Qed.
Lemma pending_update i x y st : st !! i = Some x → pending (<[i := y]> st) ≡ₚ pending st.
Proof.
  intros Hi. rewrite (pending_delete i x st Hi), <-insert_delete_eq. apply pending_insert, lookup_delete_eq.
Qed.
Lemma live_insert k p tb : tb !! k = None → live (<[k := p]> tb) ≡ₚ p.1 :: live tb.
Proof. intros Hk. unfold live. by rewrite map_to_list_insert. Qed.
Lemma live_delete k p tb : tb !! k = Some p → live tb ≡ₚ p.1 :: live (delete k tb).
Proof. intros Hk. rewrite <-(insert_delete_id tb k p Hk) at 1. apply live_insert, lookup_delete_eq. Qed.

Lemma admitted_le st : admitted st ≤ size st.
Proof. apply map_size_filter. Qed.

Lemma accounted_take s k status : accounted s → accounted (take k status s).
Proof.
  intros [Hn Ht Hb Hk]. unfold take. destruct (table s !! k) as [[n record]|] eqn:Htk; [|done].
  split; cbn -[seq]; [|done| |].
  - rewrite <-Hn, (live_delete k _ _ Htk). cbn. rewrite !fmap_app. cbn. solve_Permutation.
  - rewrite map_size_delete_Some by by eexists. lia.
  - intros k' n' r Hr. delete_cases Hr. eauto.
Qed.

Lemma table_step_accounted s s' : step s s' → accounted s → accounted s'.
Proof.
  intros Hst Hacc. destruct Hst as [st tb ex re ov sh n record _|st tb ex re ov sh n record Hlt Htb|st tb ex re ov sh n i record Hi Hfull
    |st tb ex re ov sh n i record Hi Hlt|st tb ex re ov sh n i record Hi| | |s k rest sh Hsh|].
  - destruct Hacc as [Hn Ht Hb Hk]. cbn -[seq] in *. split; cbn -[seq]; [|done..]. rewrite seq_S, <-Hn. cbn. solve_Permutation.
  - destruct Hacc as [Hn Ht Hb Hk]. cbn -[seq] in *.
    assert (st !! n = None) as Hfresh.
    { destruct (st !! n) as [x|] eqn:Hx; [|done]. exfalso. assert (n ∈ seq 0 n) as Hin; [|apply elem_of_seq in Hin; lia].
      rewrite <-Hn, (pending_delete n x st Hx). apply elem_of_app. by do 2 left. }
    split; cbn -[seq]; [| | |done].
    + rewrite seq_S, <-Hn, (pending_insert n _ st Hfresh). cbn. solve_Permutation.
    + rewrite map_size_insert_None by done. lia.
    + unfold admitted in *. rewrite size_filter_insert by done. rewrite decide_False by done. lia.
  - destruct Hacc as [Hn Ht Hb Hk]. cbn -[seq] in *. split; cbn -[seq]; [| | |done].
    + rewrite <-Hn, (pending_delete i _ st Hi). cbn. solve_Permutation.
    + rewrite map_size_delete_Some by by eexists. lia.
    + unfold admitted in *. rewrite (size_filter_delete _ i _ st Hi) in Hb. case_decide; lia.
  - destruct Hacc as [Hn Ht Hb Hk]. cbn -[seq] in *.
    assert (size (<[i := mk_start PastLen record]> st) = size st) as Hsz by (apply map_size_insert_Some; by eexists).
    split; cbn -[seq]; [| | |done].
    + by rewrite (pending_update i _ _ st Hi).
    + by rewrite Hsz.
    + pose proof (admitted_le (<[i := mk_start PastLen record]> st)).
      assert (size st ≠ 0) by (intros Hz%map_size_empty_inv; subst; by rewrite lookup_empty in Hi). lia.
  - destruct Hacc as [Hn Ht Hb Hk]. cbn -[seq] in *. split; cbn -[seq].
    + rewrite <-Hn, (pending_delete i _ st Hi). destruct (tb !! ip_span_id record) as [old|] eqn:Hold.
      * rewrite <-insert_delete_eq, live_insert by apply lookup_delete_eq. rewrite (live_delete _ _ _ Hold). cbn. solve_Permutation.
      * rewrite live_insert by done. cbn. solve_Permutation.
    + rewrite map_size_delete_Some by by eexists. lia.
    + unfold admitted in *. rewrite (size_filter_delete _ i _ st Hi) in Hb. rewrite decide_True in Hb by done.
      destruct (tb !! ip_span_id record) eqn:Hold.
      * rewrite map_size_insert_Some by by eexists. lia.
      * rewrite map_size_insert_None by done. lia.
    + intros k n' r Hr. insert_cases Hr; [done|]. eauto.
  - by apply accounted_take.
  - destruct Hacc as [Hn Ht Hb Hk]. by split.
  - apply accounted_take. destruct Hacc as [Hn Ht Hb Hk]. by split.
  - destruct Hacc as [Hn Ht Hb Hk]. by split.
Qed.

(** Every [start_span] ends in exactly one way: it is still under way or live, its span
    was exported, once, or it was refused, or a second start of the same identifier raced
    with it.  The table goes over its bound by at most one span for each thread but one; a
    single thread never exceeds it. *)
Theorem spans_are_exported_once s (Hr : rtc step initial s) :
  NoDup (exported s).*1.*1 ∧ (∀ n, n < next s ↔
    n ∈ pending (starting s) ∨ n ∈ live (table s) ∨ n ∈ (exported s).*1.*1 ∨ n ∈ refused s ∨ n ∈ overwritten s) ∧
  NoDup (pending (starting s) ++ live (table s) ++ (exported s).*1.*1 ++ refused s ++ overwritten s) ∧
  size (table s) ≤ max_in_flight_spans + Nat.pred threads.
Proof.
  assert (accounted s) as [Hn _ Hb _].
  { assert (accounted initial) as H0 by (split; [done|apply Nat.le_0_l|apply Nat.le_0_l|done]).
    induction Hr as [|s s1 s2 Hst _ IH]; [done|]. eauto using table_step_accounted. }
  pose proof (NoDup_seq 0 (next s)) as Hnd. rewrite <-Hn in Hnd. split_and!; [| |done|lia].
  - by apply NoDup_app in Hnd as (_ & _ & (_ & _ & (? & _)%NoDup_app)%NoDup_app).
  - intros n. assert (n < next s ↔ n ∈ seq 0 (next s)) as -> by (rewrite elem_of_seq; lia).
    rewrite <-Hn, !elem_of_app. done.
Qed.
End table.

(** *** Ending and shutting down *)
(** The loop of [shutdown], when nothing interferes. *)
Definition shutdown_loop (keys : list SpanId) (s : System) : System := foldl (λ s k, take k Unset s) s keys.

Lemma take_twice k status status' s : take k status' (take k status s) = take k status s.
Proof.
  unfold take. destruct (table s !! k) as [[n r]|] eqn:Hk; cbn; [by rewrite lookup_delete_eq|by rewrite Hk].
Qed.

(** An [end_span] that is repeated, or late, changes nothing, and a shutdown leaves no span
    in the table whatever order it walked it in. *)
Lemma shutdown_empties keys s : elements (dom (table s)) ⊆ keys → table (shutdown_loop keys s) = ∅.
Proof.
  revert s. induction keys as [|k keys IH]; intros s Hsub; cbn.
  - apply map_empty. intros k. destruct (table s !! k) eqn:Hk; [|done].
    assert (k ∈ @nil SpanId) as Hin; [|by apply elem_of_nil in Hin]. apply Hsub, elem_of_elements, elem_of_dom. by eexists.
  - apply IH. intros k' Hk'. apply elem_of_elements, elem_of_dom in Hk' as [x Hx].
    unfold take in Hx. destruct (table s !! k) as [[n r]|] eqn:Hk; cbn in Hx.
    + delete_cases Hx. assert (k' ∈ k :: keys) as Hin by (apply Hsub, elem_of_elements, elem_of_dom; by eexists).
      by apply elem_of_cons in Hin as [->|].
    + assert (k' ∈ k :: keys) as Hin by (apply Hsub, elem_of_elements, elem_of_dom; by eexists).
      apply elem_of_cons in Hin as [->|]; [congruence|done].
Qed.

(** *** Two starts of one identifier that race *)
Module Example_spans.
Definition record (name : string) : InProgressSpan :=
  in_progress (mk_trace (mk_trace_id []) (mk_span_id []) None) name SpanAttributes_new 0.

(** A single start, ended twice, is exported once. *)
Lemma spans_are_exported_once_witness :
  let s := mk_system ∅ ∅ [(0, record "a", StatusOk)] [] [] [] 1 in
  rtc (step 1 1) initial s ∧ NoDup (exported s).*1.*1.
Proof.
  assert (rtc (step 1 1) initial (mk_system ∅ ∅ [(0, record "a", StatusOk)] [] [] [] 1)) as Hr.
  { eapply rtc_l; [apply (start_checked 1 1 ∅ ∅ [] [] [] [] 0 (record "a")); [by vm_compute; lia|done]|].
    eapply rtc_l; [eapply (start_admitted 1 1 _ _ _ _ _ _ _ 0); [reflexivity|vm_compute; lia]|].
    eapply rtc_l; [eapply (start_inserts 1 1 _ _ _ _ _ _ _ 0); reflexivity|].
    eapply rtc_l; [apply (end_span 1 1 _ (mk_span_id []) SpanOk)|].
    eapply rtc_l; [apply (end_span 1 1 _ (mk_span_id []) SpanOk)|].
    match goal with |- rtc _ ?x ?y => replace x with y; [apply rtc_refl|by vm_compute] end. }
  split; [done|]. exact (proj1 (spans_are_exported_once 1 1 _ Hr)).
Defined.

(** The second insert replaces the first one's entry, which is never exported. *)
Example racing_starts_overwrite :
  rtc (step 2 2) initial (mk_system ∅ {[ mk_span_id [] := (1, record "b") ]} [] [] [0] [] 2).
Proof.
  eapply rtc_l; [apply (start_checked 2 2 ∅ ∅ [] [] [] [] 0 (record "a")); [by vm_compute; lia|done]|].
  eapply rtc_l; [apply (start_checked 2 2 _ ∅ [] [] [] [] 1 (record "b")); [by vm_compute; lia|done]|].
  eapply rtc_l; [eapply (start_admitted 2 2 _ _ _ _ _ _ _ 0); [reflexivity|vm_compute; lia]|].
  eapply rtc_l; [eapply (start_admitted 2 2 _ _ _ _ _ _ _ 1); [reflexivity|vm_compute; lia]|].
  eapply rtc_l; [eapply (start_inserts 2 2 _ _ _ _ _ _ _ 0); reflexivity|].
  eapply rtc_l; [eapply (start_inserts 2 2 _ _ _ _ _ _ _ 1); reflexivity|].
  match goal with |- rtc _ ?x ?y => replace x with y; [apply rtc_refl|by vm_compute] end.
Qed.
End Example_spans.

(** A duration beyond [i64] milliseconds wraps to a negative attribute. *)
Example long_duration_is_negative :
  to_otel_attributes (with_duration ((i64_max + 1) * 10 ^ 6) SpanAttributes_new) =
    [("duration_ms", VInt (- 2 ^ 63)%Z)].
Proof. by vm_compute. Qed.

(** ** Observations *)
Record SemanticEvent := mk_event {
  event_name : string;
  correlation_id : string;
  actor_id : string;
  lifecycle_state : string;
  timestamp : string;
  metadata : gmap string string;
}.
Inductive SemanticEventError := EmptyName.
Definition SemanticEvent_new (event_name correlation_id actor_id lifecycle_state timestamp : string)
    (metadata : gmap string string) : result SemanticEventError SemanticEvent :=
  if is_blank event_name then Err EmptyName
  else Ok (mk_event event_name correlation_id actor_id lifecycle_state timestamp metadata).
Definition without_metadata (event_name correlation_id actor_id lifecycle_state timestamp : string) :
    result SemanticEventError SemanticEvent :=
  SemanticEvent_new event_name correlation_id actor_id lifecycle_state timestamp ∅.

Inductive Level := Debug | Info | Warn | Error.
Definition severity (l : Level) : Z := match l with Debug => 0 | Info => 1 | Warn => 2 | Error => 3 end.

Inductive MetricKind := Counter | Histogram | Gauge.
#[export] Instance MetricKind_eq_dec : EqDecision MetricKind.
Proof. solve_decision. Defined.

(** [F] is [f64]. *)
Record MetricObservation (F : Type) := mk_observation {
  kind : MetricKind;
  name : string;
  value : F;
  attributes : list (string * string);
}.
Arguments mk_observation {F}.
Arguments kind {F}. Arguments name {F}. Arguments value {F}. Arguments attributes {F}.

(** ** The metrics exporter *)
Section metrics.
Context {F Instrument : Type} (build : MetricKind → string → Instrument).

(** The three caches are one map, by kind and name. *)
Record OtlpMetrics := mk_metrics {
  instruments : gmap string Instrument * gmap string Instrument * gmap string Instrument;
  built : list (MetricKind * string);
  recorded : list (Instrument * F * list (string * AttributeValue));
}.
Definition OtlpMetrics_new : OtlpMetrics := mk_metrics (∅, ∅, ∅) [] [].

Definition cache_of (k : MetricKind) (m : OtlpMetrics) : gmap string Instrument :=
  match k with Counter => (instruments m).1.1 | Gauge => (instruments m).1.2 | Histogram => (instruments m).2 end.
Definition with_cache (k : MetricKind) (c : gmap string Instrument) (m : OtlpMetrics) :
    gmap string Instrument * gmap string Instrument * gmap string Instrument :=
  let '(counters, gauges, histograms) := instruments m in
  match k with
  | Counter => (c, gauges, histograms)
  | Gauge => (counters, c, histograms)
  | Histogram => (counters, gauges, c)
  end.

Definition key_values (o : MetricObservation F) : list (string * AttributeValue) :=
  (λ a, (a.1, VString a.2)) <$> attributes o.

(** [entry(name).or_insert_with(...)], under the lock. *)
Definition lookup_or_build (k : MetricKind) (n : string) (m : OtlpMetrics) : Instrument * OtlpMetrics :=
  match cache_of k m !! n with
  | Some i => (i, m)
  | None => (build k n, mk_metrics (with_cache k (<[n := build k n]> (cache_of k m)) m) (built m ++ [(k, n)]) (recorded m))
  end.
Definition record_metric (o : MetricObservation F) (m : OtlpMetrics) : OtlpMetrics :=
  let '(i, m) := lookup_or_build (kind o) (name o) m in
  mk_metrics (instruments m) (built m) (recorded m ++ [(i, value o, key_values o)]).

(** The helpers of the port; [emit_isolated] catches what an implementation panics with. *)
Definition counter (n : string) (v : F) (attributes : list (string * string)) := record_metric (mk_observation Counter n v attributes).
Definition histogram (n : string) (v : F) (attributes : list (string * string)) := record_metric (mk_observation Histogram n v attributes).
Definition gauge (n : string) (v : F) (attributes : list (string * string)) := record_metric (mk_observation Gauge n v attributes).

Definition cached (m : OtlpMetrics) : Prop :=
  NoDup (built m) ∧ ∀ k n, cache_of k m !! n = (if decide ((k, n) ∈ built m) then Some (build k n) else None).

Lemma cache_of_with_cache k k' c m b r :
  cache_of k' (mk_metrics (with_cache k c m) b r) = if decide (k = k') then c else cache_of k' m.
Proof. destruct m as [[[? ?] ?] ? ?]. by destruct k, k'. Qed.

Lemma lookup_cached k n m : cached m →
  (lookup_or_build k n m).1 = build k n ∧ cached (lookup_or_build k n m).2 ∧ recorded (lookup_or_build k n m).2 = recorded m.
Proof.
  intros [Hnd Hc]. unfold lookup_or_build. rewrite Hc. case_decide as Hin; cbn; [by split_and!|].
  split_and!; [done| |done]. split; cbn.
  - apply NoDup_app. split_and!; [done| |apply NoDup_singleton]. by intros x Hx ->%list_elem_of_singleton.
  - intros k' n'. rewrite cache_of_with_cache. case_decide as Hk.
    + subst k'. destruct (decide (n' = n)) as [->|Hn].
      * rewrite lookup_insert_eq, decide_True; [done|]. apply elem_of_app. right. by apply list_elem_of_singleton.
      * rewrite lookup_insert_ne, Hc by done. apply decide_ext. rewrite elem_of_app, list_elem_of_singleton. naive_solver.
    + rewrite Hc. apply decide_ext. rewrite elem_of_app, list_elem_of_singleton. naive_solver.
Qed.

Lemma record_cached o m : cached m →
  cached (record_metric o m) ∧ recorded (record_metric o m) = recorded m ++ [(build (kind o) (name o), value o, key_values o)] ∧
  ∀ x, x ∈ built (record_metric o m) → x ∈ built m ∨ x = (kind o, name o).
Proof.
  intros Hm. destruct (lookup_cached (kind o) (name o) m Hm) as (Hi & [Hnd Hc] & Hr). unfold record_metric.
  assert (∀ x, x ∈ built (lookup_or_build (kind o) (name o) m).2 → x ∈ built m ∨ x = (kind o, name o)) as Hb.
  { intros x. unfold lookup_or_build. destruct (cache_of (kind o) m !! name o); cbn; [by left|].
    by rewrite elem_of_app, list_elem_of_singleton. }
  destruct (lookup_or_build (kind o) (name o) m) as [i m1]. cbn in *. subst i. rewrite Hr. by split_and!.
Qed.

(** An instrument is built once for its kind and name, however often it records, and
    everything is recorded, in order, as it was observed. *)
Theorem metrics_are_verbatim (l : list (MetricObservation F)) :
  let m := foldl (λ m o, record_metric o m) OtlpMetrics_new l in
  NoDup (built m) ∧ (∀ k n, (k, n) ∈ built m → ∃ o, o ∈ l ∧ kind o = k ∧ name o = n) ∧
  recorded m = (λ o, (build (kind o) (name o), value o, key_values o)) <$> l.
Proof.
  cbn zeta. set (run := λ l, foldl (λ m o, record_metric o m) OtlpMetrics_new l). change (foldl _ _ l) with (run l).
  assert (cached (run l) ∧ (∀ x, x ∈ built (run l) → ∃ o, o ∈ l ∧ (kind o, name o) = x) ∧
    recorded (run l) = (λ o, (build (kind o) (name o), value o, key_values o)) <$> l) as ([? _] & Hb & ?).
  { induction l as [|o l IH] using rev_ind.
    - split_and!; [|by intros x Hx%elem_of_nil|done]. split; [apply NoDup_nil_2|]. intros k n. by destruct k.
    - destruct IH as (Hm & Hb & Hr). unfold run. rewrite foldl_app. cbn. fold (run l).
      destruct (record_cached o (run l) Hm) as (Hm' & Hr' & Hb'). split_and!; [done| |by rewrite Hr', Hr, fmap_app].
      intros x [Hx| ->]%Hb'; [destruct (Hb x Hx) as (o' & Ho' & <-); exists o'|exists o]; split; try done;
        apply elem_of_app; [by left|right; by apply list_elem_of_singleton]. }
  split_and!; [done| |done]. intros k n Hin. destruct (Hb _ Hin) as (o & Ho & [= <- <-]). eauto.
Qed.
End metrics.
