(* ===== verification/RetentionWorkers.v ===== *)
(** * Retention workers

    The loops of crates/service-sdk, runtime/retention.rs and runtime/effect_retention.rs:
    [start], [stop], and what a tick reports.  The two workers differ in their policy and in
    the store they ask; here both are one loop over what is common, the cutoff of a tick and
    its batch ([retention_worker], [effect_worker]).

    [Notify] is tokio's: one permit, [notify_waiters] reaches the futures that exist, and
    [notify_one] wakes a registered waiter or leaves the permit; a future woken by
    [notify_one] and dropped hands its wake-up on.  The cutoff is read from the injected
    clock, which is free to move; waits and deadlines are tokio's time.  A span changes
    nothing and is left out, but for its outcome. *)

From S2P Require Import Prelude Identity Reservation ClaimSet Jwt Retention Telemetry.

(** ** What a tick reports *)
Inductive Sample :=
| BatchDuration (elapsed : Z)
| PurgedRows (rows : Z)
| OldestAge (millis : Z).

(** [age.num_milliseconds().max(0)] *)
Definition age_sample (now at_ : Z) : Z := Z.max 0 (Z.quot (now - at_) (10 ^ 6)).

Definition purge_samples {E} (elapsed : Z) (purged : result E Z) : list Sample :=
  BatchDuration elapsed :: match purged with Ok rows => [PurgedRows rows] | Err _ => [] end.
Definition oldest_sample (now : Z) (answer : result ReservationError OldestCompleted) : list Sample :=
  match answer with
  | Ok (OldestAt completed_at) => [OldestAge (age_sample now completed_at)]
  | Ok OldestEmpty | Ok Unsupported | Err _ => []
  end.
Definition oldest_terminal_sample {E} (now : Z) (answer : result E (option Z)) : list Sample :=
  match answer with Ok (Some settled_at) => [OldestAge (age_sample now settled_at)] | _ => [] end.

Definition span_outcome {E} (purged : result E Z) : SpanOutcome :=
  match purged with Ok _ => SpanOk | Err _ => SpanError "the reservation store could not purge" end.
Definition effect_span_outcome {E} (purged : result E Z) : SpanOutcome :=
  match purged with Ok _ => SpanOk | Err _ => SpanError "the effect store could not purge" end.

(** A failed purge reports no rows, and no age is negative. *)
Lemma samples_are_honest {E} elapsed (purged : result E Z) now answer x :
  x ∈ purge_samples elapsed purged ++ oldest_sample now answer →
  match x with
  | BatchDuration d => d = elapsed
  | PurgedRows rows => purged = Ok rows
  | OldestAge a => (0 ≤ a)%Z ∧ ∃ t, answer = Ok (OldestAt t) ∧ ((t ≤ now)%Z → (a * 10 ^ 6 ≤ now - t < (a + 1) * 10 ^ 6)%Z)
  end.
Proof.
  unfold purge_samples, oldest_sample. rewrite elem_of_app, elem_of_cons. intros [[->|Hx]|Hx]; [done| |].
  - destruct purged; [|by apply elem_of_nil in Hx]. by apply list_elem_of_singleton in Hx as ->.
  - destruct answer as [[| |t]|]; try by apply elem_of_nil in Hx. apply list_elem_of_singleton in Hx as ->.
    unfold age_sample. split; [lia|]. exists t. split; [done|]. intros Ht. rewrite Z.max_r by (apply Z.quot_pos; lia).
    pose proof (Z.quot_rem' (now - t) (10 ^ 6)). pose proof (Z.rem_bound_pos (now - t) (10 ^ 6)). lia.
Qed.

(** ** The loop and its stop *)
(** The [notified] future of the loop's [select!]. *)
Inductive Waiter := Created | Registered | Woken | WokenOne.
Inductive Loop :=
| Starting
| Purging
| Asking                           (* the oldest record, for the gauge *)
| Parked (w : Waiter) (wake : Z)   (* at its [select!], its sleep over at [wake] *)
| Gone (e : Joined).
Inductive StopPhase :=
| NotStopping | Signalling | Waiting (deadline : Z) | Awaiting | Answered (r : RetentionShutdown).

Record System := mk_system {
  worker : Loop;
  permit : bool;
  aborted : bool;
  purges : list (Z * Z * nat);     (* the clock read, the cutoff, the batch *)
  samples : list Sample;
  time : Z;
  stopping : StopPhase;
}.

Definition initial (time : Z) : System := mk_system Starting false false [] [] time NotStopping.

(** [notify_waiters] *)
Definition wake_all (w : Loop) : Loop :=
  match w with Parked (Created | Registered) t => Parked Woken t | w => w end.
(** [notify_one], with the permit. *)
Definition wake_one (w : Loop) (permit : bool) : Loop * bool :=
  match w with Parked Registered t => (Parked WokenOne t, permit) | w => (w, true) end.
(** Dropping the future. *)
Definition hand_on (w : Waiter) (permit : bool) : bool :=
  match w with WokenOne => true | _ => permit end.

Section worker.
Context (cutoff_at : Z → option Z) (batch : nat) (interval stop_deadline : Z) (observing : bool).

Inductive worker_step : System → System → Prop :=
| w_tick p k pu sa t ph now cutoff :
    cutoff_at now = Some cutoff →
    worker_step (mk_system Starting p k pu sa t ph) (mk_system Purging p k (pu ++ [(now, cutoff, batch)]) sa t ph)
| w_cutoff_panics p k pu sa t ph now :
    cutoff_at now = None →
    worker_step (mk_system Starting p k pu sa t ph) (mk_system (Gone JoinedPanic) p k pu sa t ph)
| w_purged p k pu sa t ph :
    observing = false →
    worker_step (mk_system Purging p k pu sa t ph) (mk_system (Parked Created (t + interval)) p k pu sa t ph)
| w_measured p k pu sa t ph elapsed (purged : result () Z) :
    observing = true →
    worker_step (mk_system Purging p k pu sa t ph) (mk_system Asking p k pu (sa ++ purge_samples elapsed purged) t ph)
| w_asked p k pu sa t ph now answer :
    worker_step (mk_system Asking p k pu sa t ph)
      (mk_system (Parked Created (t + interval)) p k pu (sa ++ oldest_sample now answer) t ph)
| w_store_panics w p k pu sa t ph :
    w = Purging ∨ w = Asking →
    worker_step (mk_system w p k pu sa t ph) (mk_system (Gone JoinedPanic) p k pu sa t ph)
| w_permit wake k pu sa t ph :
    worker_step (mk_system (Parked Created wake) true k pu sa t ph) (mk_system (Gone JoinedOk) false k pu sa t ph)
| w_parks wake k pu sa t ph :
    worker_step (mk_system (Parked Created wake) false k pu sa t ph) (mk_system (Parked Registered wake) false k pu sa t ph)
| w_woken w wake p k pu sa t ph :
    w = Woken ∨ w = WokenOne →
    worker_step (mk_system (Parked w wake) p k pu sa t ph) (mk_system (Gone JoinedOk) p k pu sa t ph)
| w_slept w wake p k pu sa t ph :
    (wake ≤ t)%Z →
    worker_step (mk_system (Parked w wake) p k pu sa t ph) (mk_system Starting (hand_on w p) k pu sa t ph)
| w_cancelled w p pu sa t ph :
    (∀ e, w ≠ Gone e) →
    worker_step (mk_system w p true pu sa t ph) (mk_system (Gone JoinedCancelled) p true pu sa t ph).

Inductive stop_step : System → System → Prop :=
| s_time w p k pu sa t t' ph : (t ≤ t')%Z → stop_step (mk_system w p k pu sa t ph) (mk_system w p k pu sa t' ph)
| s_host_aborts w p k pu sa t ph : stop_step (mk_system w p k pu sa t ph) (mk_system w p true pu sa t ph)
| s_waiters w p k pu sa t :
    stop_step (mk_system w p k pu sa t NotStopping) (mk_system (wake_all w) p k pu sa t Signalling)
| s_one w p k pu sa t :
    stop_step (mk_system w p k pu sa t Signalling)
      (mk_system (wake_one w p).1 (wake_one w p).2 k pu sa t (Waiting (t + stop_deadline)))
| s_joined e p k pu sa t dl :
    stop_step (mk_system (Gone e) p k pu sa t (Waiting dl))
      (mk_system (Gone e) p k pu sa t (Answered (retention_stop (Some e))))
| s_timed_out w p k pu sa t dl :
    (∀ e, w ≠ Gone e) → (dl ≤ t)%Z →
    stop_step (mk_system w p k pu sa t (Waiting dl)) (mk_system w p true pu sa t Awaiting)
| s_gone e p k pu sa t :
    stop_step (mk_system (Gone e) p k pu sa t Awaiting)
      (mk_system (Gone e) p k pu sa t (Answered (retention_stop None))).

Definition step (s s' : System) : Prop := worker_step s s' ∨ stop_step s s'.

(** Both wake-ups were issued. *)
Definition signalled (ph : StopPhase) : bool :=
  match ph with NotStopping | Signalling => false | _ => true end.
Definition gone (w : Loop) : bool := match w with Gone _ => true | _ => false end.

Record wf (s : System) : Prop := mk_wf {
  wf_purges : Forall (λ x, cutoff_at x.1.1 = Some x.1.2 ∧ x.2 = batch) (purges s);
  wf_registered : ∀ wake, worker s = Parked Registered wake → permit s = false;
  wf_signalled : signalled (stopping s) = true → gone (worker s) = false →
    permit s = true ∨ ∃ wake, worker s = Parked WokenOne wake;
  wf_awaiting : stopping s = Awaiting → aborted s = true;
  wf_answered : ∀ r, stopping s = Answered r → gone (worker s) = true;
}.

Ltac close_worker Hp Hr Hs Ha Hn :=
  split; cbn in *; try done; try (by intros r Hph; specialize (Hn r Hph));
  try (intros Hsig Hg; destruct (Hs Hsig eq_refl) as [|[? [=]]]; subst; by eauto).

Lemma wf_worker s s' : worker_step s s' → wf s → wf s'.
Proof.
  intros Hst [Hp Hr Hs Ha Hn]. destruct Hst as [p k pu sa t ph now cutoff Hc| | | | |w p k pu sa t ph Hw| | |w wake p k pu sa t ph Hw
    |w wake p k pu sa t ph _|w p pu sa t ph Hw]; cbn in *.
  - close_worker Hp Hr Hs Ha Hn. rewrite Forall_app. split; [done|]. by repeat constructor.
  - by split.
  - close_worker Hp Hr Hs Ha Hn.
  - close_worker Hp Hr Hs Ha Hn.
  - close_worker Hp Hr Hs Ha Hn.
  - by split.
  - by split.
  - close_worker Hp Hr Hs Ha Hn.
  - by split.
  - split; cbn; try done.
    intros Hsig _. left. by destruct (Hs Hsig eq_refl) as [->|[? [= -> _]]]; [destruct w|].
  - by split.
Qed.

Lemma wf_stop s s' : stop_step s s' → wf s → wf s'.
Proof.
  intros Hst [Hp Hr Hs Ha Hn]. destruct Hst as [| |w p k pu sa t|w p k pu sa t| |w p k pu sa t dl Hw _|]; cbn in *.
  - by split.
  - by split.
  - split; cbn; try done. intros wake Hw. destruct w as [| | |[] ?|]; cbn in Hw; try done.
  - split; cbn; try done.
    + intros wake Hw. by destruct w as [| | |[] ?|].
    + intros _ _. destruct w as [| | |[] ?|]; cbn in *; eauto.
  - by split.
  - by split.
  - by split.
Qed.

Lemma worker_wf now s : rtc step (initial now) s → wf s.
Proof.
  intros Hr. assert (wf (initial now)) as Hwf by (split; cbn; done).
  induction Hr as [|s s1 s2 Hst _ IH]; [done|]. apply IH. destruct Hst; eauto using wf_worker, wf_stop.
Qed.

(** *** A worker that is gone stays gone *)
Lemma gone_stays s s' :
  rtc step s s' → gone (worker s) = true → gone (worker s') = true ∧ purges s' = purges s.
Proof.
  induction 1 as [|s s1 s2 Hst _ IH]; [done|]. intros Hg.
  assert (gone (worker s1) = true ∧ purges s1 = purges s) as [Hg1 Hp1].
  { destruct Hst as [Hst|Hst]; destruct Hst as []; cbn in *; try done; by destruct w. }
  destruct (IH Hg1) as [? ->]. done.
Qed.

(** Every purge is one of the policy's, a stop that answered leaves no worker behind, and
    once [stop] has signalled, a worker at its [select!] can only be one that leaves: no
    wake-up is lost, whenever it came. *)
Theorem stop_is_honoured now s (Hr : rtc step (initial now) s) :
  Forall (λ x, cutoff_at x.1.1 = Some x.1.2 ∧ x.2 = batch) (purges s) ∧
  (∀ r, stopping s = Answered r → ∀ s', rtc step s s' → gone (worker s') = true ∧ purges s' = purges s) ∧
  (signalled (stopping s) = true → ∀ w wake, worker s = Parked w wake →
    ∃ s', worker_step s s' ∧ worker s' = Gone JoinedOk).
Proof.
  destruct (worker_wf now s Hr) as [Hp Hreg Hs _ Hn]. split_and!; [done| |].
  - intros r Hph s' Hrun. apply gone_stays; eauto.
  - intros Hsig w wake Hw. destruct s as [l p k pu sa t ph]. cbn in *. subst l.
    destruct (Hs Hsig eq_refl) as [->|[? [= -> ->]]].
    + destruct w; [| |eexists; split; [apply w_woken; by left|done]|eexists; split; [apply w_woken; by right|done]].
      * eexists. split; [apply w_permit|done].
      * by specialize (Hreg wake eq_refl).
    + eexists. split; [apply w_woken; by right|done].
Qed.

(** However long a purge takes, [stop] answers: by the deadline the task is aborted. *)
Lemma stop_answers now s (Hr : rtc step (initial now) s) : ∃ s' r, rtc step s s' ∧ stopping s' = Answered r.
Proof.
  destruct (worker_wf now s Hr) as [_ _ _ Ha _].
  destruct s as [w p k pu sa t ph]. cbn in Ha.
  assert (∀ w p k' t' ph, gone w = true → (ph = Awaiting ∨ ∃ dl, ph = Waiting dl) →
    ∃ s' r, rtc step (mk_system w p k' pu sa t' ph) s' ∧ stopping s' = Answered r) as Hjoin.
  { intros [] p' k' t' ph' Hg; try done. intros [->|[dl ->]]; do 2 eexists.
    - split; [apply rtc_once; right; apply s_gone|done].
    - split; [apply rtc_once; right; apply s_joined|done]. }
  assert (∀ w p t', ∃ s' r, rtc step (mk_system w p true pu sa t' Awaiting) s' ∧ stopping s' = Answered r) as Habort.
  { intros w' p' t'. destruct (gone w') eqn:Hg; [by apply Hjoin; [|left]|].
    destruct (Hjoin (Gone JoinedCancelled) p' true t' Awaiting eq_refl (or_introl eq_refl)) as (s' & r & Hrun & Hph).
    exists s', r. split; [|done]. eapply rtc_l; [left; apply w_cancelled; intros e ->; done|exact Hrun]. }
  assert (∀ w p k t' dl, ∃ s' r, rtc step (mk_system w p k pu sa t' (Waiting dl)) s' ∧ stopping s' = Answered r) as Hwait.
  { intros w' p' k' t' dl. destruct (gone w') eqn:Hg; [by apply Hjoin; [|right; eexists]|].
    destruct (Habort w' p' (Z.max t' dl)) as (s' & r & Hrun & Hph). exists s', r. split; [|done].
    eapply rtc_l; [right; apply (s_time _ _ _ _ _ t' (Z.max t' dl)); lia|].
    eapply rtc_l; [right; apply s_timed_out; [by intros e ->|lia]|exact Hrun]. }
  assert (∀ w p k, ∃ s' r, rtc step (mk_system w p k pu sa t Signalling) s' ∧ stopping s' = Answered r) as Hone.
  { intros w' p' k'. destruct (Hwait (wake_one w' p').1 (wake_one w' p').2 k' t (t + stop_deadline)%Z) as (s' & r & Hrun & Hph).
    exists s', r. split; [|done]. eapply rtc_l; [right; apply s_one|exact Hrun]. }
  destruct ph as [| |dl| |r]; [|apply Hone|apply Hwait| |by eexists _, r].
  - destruct (Hone (wake_all w) p k) as (s' & r & Hrun & Hph). exists s', r. split; [|done].
    eapply rtc_l; [right; apply s_waiters|exact Hrun].
  - cbn in Ha. rewrite (Ha eq_refl). apply Habort.
Qed.
End worker.

(** ** The two workers *)
Definition retention_worker (dt_min dt_max : Z) (p : RetentionPolicy) (stop_deadline : Z) (observing : bool) :
    System → System → Prop :=
  step (retention_cutoff dt_min dt_max (retention p)) (batch_size p) (interval p) stop_deadline observing.
Definition effect_worker (dt_min dt_max : Z) (p : EffectRetentionPolicy) (stop_deadline : Z) (observing : bool) :
    System → System → Prop :=
  step (retention_cutoff dt_min dt_max (effect_retention p)) (effect_batch_size p) (effect_interval p) stop_deadline
    observing.

(** A purge of either worker reaches back exactly its window, and takes at most its batch. *)
Corollary worker_keeps_its_window dt_min dt_max p d observing now s :
  rtc (retention_worker dt_min dt_max p d observing) (initial now) s →
  Forall (λ x, x.1.2 = (x.1.1 - retention_window (retention p))%Z ∧ x.2 = batch_size p) (purges s).
Proof.
  intros Hr. destruct (stop_is_honoured _ _ _ _ _ now s Hr) as [Hp _]. eapply Forall_impl; [exact Hp|].
  intros x [Hc ->]. by rewrite <-(cutoff_window dt_min dt_max (retention p) _ _ Hc).
Qed.
